(* ===== verification/_CoqProject ===== *)
-Q . S2P
Prelude.v
Identifiers.v
Status.v
Frame.v
FrameCodec.v
FrameDecoder.v
ProtocolViolation.v
Lifecycle.v
Diagnostics.v
Operation.v
StreamIdAllocator.v
Codec.v
MessageRegistry.v
MessageCodec.v
Transport.v
Channel.v
Timer.v
WriteQueue.v
ClientConnection.v
ClientRaces.v
ServerConnection.v
ServerFaults.v
ServerShutdown.v
ServerReads.v
EndToEnd.v
Link.v
ClientTraffic.v
ServerTraffic.v
Duplex.v
DrainLoss.v
DuplexQueue.v
Waiters.v
ClientQueue.v
Progress.v
Calls.v
TcpClient.v
TcpServer.v
Fleet.v
