(* ===== verification/Prelude.v ===== *)
(** * rillnet: a verification development

    rillnet is a header-only C++20 library ([src/include/rillnet]) for typed
    request/response protocols over byte-stream transports, on Boost.Asio coroutines.  This
    development translates the headers into executable definitions and proves the properties
    that make each of them, and their combination, correct.

    ** The program and where it is modelled

    A [Frame] (header and payload) is what travels on a connection.  Typed messages are encoded
    by a codec into payloads that start with the message's registered wire type.  A
    [ClientConnection] allocates a stream identifier per request, sends the request through its
    [WriteQueue] and routes the response frames that its read loop decodes to the waiting
    callers; a [ServerConnection] decodes requests, runs a registered handler for each as a
    coroutine of its own and sends the response through its [WriteQueue].  Both follow the
    connection life cycle, keep one [Operation] per exchange and report diagnostics events.

    - [Prelude] (this file): machine integers, bytes, big-endian reference encoding, the hint
      databases [rill] and [rill_rw], shared lemmas on lists.
    - [Identifiers]: [identifiers.hpp], [protocol_version.hpp], [version.hpp].
    - [Status]: [status_code.hpp], [error.hpp].
    - [Frame]: [frame_flags.hpp], [frame.hpp] ([validate_frame]).
    - [FrameCodec]: [frame_codec.hpp], the 18-byte header and [encode_frame].
    - [FrameDecoder]: [frame_decoder.hpp], [push] with its helpers, [reset].
    - [ProtocolViolation]: [protocol_violation.hpp], error frames.
    - [Lifecycle]: [lifecycle.hpp], both state machines.
    - [Diagnostics]: [diagnostics.hpp], events and [notify_diagnostics].
    - [Operation]: [operation.hpp], one exchange with its terminal result.
    - [StreamIdAllocator]: [stream_id_allocator.hpp].
    - [Codec]: [codec.hpp], the codec concept as a class, [PodCodec] as an instance.
    - [MessageRegistry]: [message_registry.hpp], with the [VersionRegistry] view.
    - [MessageCodec]: [message_codec.hpp].
    - [Transport]: [transport.hpp] as a class with laws, [tcp_transport.hpp] as an instance.
    - [Channel], [Timer]: the Asio channel and steady timer, classes with laws (third-party
      code).
    - [WriteQueue]: [write_queue.hpp], and the interleaving [qstep] of its coroutines.
    - [ClientConnection]: [client_connection.hpp], and the interleaving [cstep].
    - [ClientRaces]: the client's requests against what crosses them on the wire.
    - [ServerConnection]: [server_connection.hpp] with its [SessionContext], and the
      interleaving [sstep].
    - [ServerFaults]: what running handlers learn when the connection breaks;
      [ServerShutdown]: what a shutdown does, and that it is final; [ServerReads]: that the
      cuts of the input do not matter.
    - [EndToEnd]: what one endpoint sends, as the other takes it.
    - [Link]: one direction of a connection, from a write queue through a socket's bytes to
      the peer's decoder; [ClientTraffic], [ServerTraffic]: what every step of an endpoint
      puts into its queue and keeps from its decoder.
    - [Duplex]: a client and a server joined by two links, with everything either side can do
      as one executable step ([dstep]); [DuplexQueue]: its server's queue; [DrainLoss]: what
      reaches the client once the server has been shut down.
    - [Waiters], [ClientQueue]: who waits for space in a queue of the composed system, and
      when its client's queue is closed; [Progress]: what the writers, the sockets and the
      readers bring about by themselves; [Calls]: what that means for the calls.
    - [TcpClient]: [tcp_client.hpp].
    - [TcpServer]: [tcp_server.hpp], and the interleaving [exec].
    - [Fleet]: a [TcpServer] and the [ServerConnection]s it has accepted, wired as
      [README.md] prescribes, and the interleaving [fstep]; its labels name the event, with the
      times at which a drain reads the clock, and the steps of the server in it, which are
      those of [exec] ([fruns_system]).

    ** How code becomes definitions

    Unsigned integers are [Z] with their wrap-around written out ([uwrap]); bytes are
    [Byte.byte]; enumerations with a fixed underlying type are records of their raw value, so
    that values that are no enumerators are covered.  A member function becomes a function on
    the record of the class's members, a fallible one returns [option] or the source's result
    record, and an exception is a value of the result.  Objects behind a [shared_ptr] live in a
    store and are passed by location: [heap_] holds the [PendingRequest]s of a client, which
    its table, the caller's handle and the timer share, and [store_] the [Operation]s of a
    server, which its table and the running handlers share.

    A coroutine is cut at its suspension points ([co_await]) into the functions that run between
    two of them; the point where it waits is part of the state ([RunPc], [HandlerPc],
    [DrainState] and so on).  A connection runs on one executor, so each of these functions is
    atomic, and the inductive relations [qstep], [cstep] and [sstep] (in [TcpServer], the
    executable [exec]) perform them in any order, together with the calls of the application
    and the answers of the environment.  Invariants are proved by induction on reachability
    under these relations.  A coroutine that is spawned starts in a step of its own; that it
    may also start at once, before the next frame of the same read is dispatched, is covered
    because reads may be cut anywhere, and [ServerReads] shows that a cut changes nothing but
    the sizes that are reported.  In [Duplex] both endpoints take their steps in any order, and the
    bytes a socket reads are those the peer's socket accepted, in order and cut arbitrarily;
    the histories of requests started and values returned are ghost state beside them.
    Diagnostics events are appended to a log; observers do not call
    back into the connection.

    Code outside the repository is a parameter.  The Asio channel, the steady timer, the
    transport, the codec, the race of two awaitables ([operator||]) and the traversal order of [unordered_map] are
    classes whose laws state documented behaviour, each with an instance that meets them
    ([ListChannel], [ViewTimer], [TcpTransport], [PodCodec], [first_success], and the map orders of the
    samples).  The answers of sockets, timers, the acceptor and the resolver, the results of
    application handlers and the time are arguments of the steps.

    ** What the theorems show

    - Wire format: header encoding and decoding are inverse on every 18-byte string;
      [push] on the encoding of any frames, cut into any chunks, returns these frames, refines
      a declarative parser ([parses]) on every byte string, and never yields a frame that
      [validate_frame] rejects; typed messages survive encoding, the wire and decoding.
    - State machines and tables: an operation commits one result and calls its handler once;
      [allocate] hands out the least identifier that is not in use, released ones included
      (the code and its tests; [docs/identifiers.md] says that none is used twice);
      the registry is a bijection per version.
    - Write queue: in every interleaving, frames are written in the order in which they were
      accepted, each as one uninterrupted write; occupancy stays within the limits;
      [try_enqueue] succeeds exactly when the frame fits; a suspended [enqueue] is always woken
      when there is room; a closed queue drains completely.
    - Client: the table, the streams in use and the operations agree in every reachable state,
      so started requests are ended or outstanding, and streams are never shared; a response
      on a stream that had no last frame yet reaches exactly the request of its stream; violations, timeouts, cancellation, closing
      and shutdown end the requests they should with the status they should, and a wait always
      completes once the read loop has ended or the shutdown has finished.  The wait for a
      deadline completes at most once and is harmless when it comes late.
    - Server: one handler per stream, counted by [active_handlers_]; for each stream one
      start is reported per request and one end per ended operation; a handler's response is sent
      at most once, and not at all when the exchange was cancelled or the connection lost,
      which every running handler is told.  A shutdown leaves running handlers alone for its
      period and then cancels them ([server_shutdown_outcome]); a connection that has been
      shut down starts nothing and never opens its transport again ([shut_down_for_good]).
      The same bytes, read in whatever pieces, lead to connections that differ only in the
      reported sizes ([server_reads_uncut]) and go on in the same way ([alike_simulates]).
    - End to end: the response value that a server handler returns is the value that the
      client's waiting caller receives.  In every run of the composed system the frames that
      one end decodes are the first of those the other wrote, no decoder reports an error
      ([duplex_wire_integrity]), a value that [async_wait] returns was returned, at that type,
      by a handler that was called with the value of a request on the same stream
      ([call_type_safe]), and the server's queue stays open while it is needed, with a
      counter of handlers that never wraps ([server_queue_open]).
    - Progress: the writers, the sockets, the readers and the [enqueue] calls that wait for
      space cannot keep each other busy for ever ([network_terminates]), and as long as both
      connections are up they do not stop before every frame in a queue, or waiting for space
      in it, has been decoded at the other end ([network_delivers]).  So a request gets its
      handler ([requests_reach_handlers]) and an answered call ends ([answered_calls_end]):
      these are stated with [inevitable], which every order of the steps must lead to.
    - TCP: [connect] returns under an armed timeout and hands over an open transport exactly on
      success; accept loops go on until stopped; a shutdown drains every connection exactly
      once, to one deadline, within [4 n] steps.  With the connections themselves in the
      model, the shutdown of a server never hangs on their handlers: past its deadline
      every run of it is bounded and it can always go on until it has returned
      ([fleet_shutdown_returns]); and when it has returned every connection that was
      registered is shut down ([fleet_shutdown_retires]).
    - Defects that modelling showed are theorems too: the reply of a draining server that
      makes the client fail its connection ([draining_reply_fails_client]), the responses
      behind the frame being written that a shutdown leaves in the queue of a transport it closes ([shutdown_discards_queue]),
      cancellations that are dropped while draining ([draining_drops_frames]), responses on
      recycled streams that are rejected ([recycled_stream_fails_connection]), the identifier
      lost when encoding fails (part of [start_request_failure]), shutdowns that hang or drain
      nothing ([late_registration_hangs_shutdown], [overlapping_shutdown_drains_nothing]),
      failed connects reported as timeouts ([refused_connect_reports_timeout]), an answer to a
      request that was given up, delivered to the next one ([late_answer_misdelivered]), races between an answer
      and a cancellation that take the connection down at either end
      ([crossing_response_fails_connection], [crossing_cancellation_fails_connection]),
      handlers that are not told of a violation ([violation_spares_handlers]), a violation
      that is not reported ([second_request_closes_silently]) and a connection that is
      closed without having been opened ([shutdown_before_run]).

    ** Fuel

    Three definitions use fuel.  [push] gives its loop the number of bytes it was handed: each
    iteration consumes one at least, and [push_refines_parses] covers every input.
    [fail_pending] gives its loop the number of table entries: each iteration removes one
    ([fail_pending_empties]).  [run_drive], which runs the write queue to the end in the
    statement of [closed_queue_drains], gets [drain_fuel], two steps per pending frame and two
    to finish; the theorem shows that this reaches the end.

    ** What is not modelled

    [std::hash] of identifiers, accessors without logic, deleted copy operations, allocation
    failure, overflow of the clock's range, observers and completion handlers that re-enter
    the object that calls them, tests and build files.

    Progress is shown for TCP transports whose operations succeed; what a failing one does
    is the subject of the error theorems.  That a handler returns is left to the application;
    the source answers nothing when it throws.  A connection of a [Fleet] never has [2^64]
    handlers at once, which its counter could not count ([countable_tasks]); in [Duplex] that
    follows from the bound on the client's identifiers.

    Every header is translated.  What is left to the environment is code outside the
    repository: Asio, the operating system, and the application. *)

From stdpp Require Export base numbers countable list gmap sets strings.
From Stdlib Require Export Strings.Byte.

Local Open Scope Z_scope.

(** ** Machine integers *)

(** A [w]-bit unsigned integer is a [Z] in [0, 2^w); [uwrap w] is the reduction the
    C++ conversions and the unsigned arithmetic operators apply. *)
Definition uwrap (w x : Z) : Z := x mod 2 ^ w.

Definition in_u (w x : Z) : Prop := 0 ≤ x < 2 ^ w.

#[export] Instance in_u_dec w x : Decision (in_u w x).
Proof. unfold in_u. apply _. Defined.

(** Bytes ([std::byte], [std::uint8_t]) are [Byte.byte]; [u8] is
    [static_cast<std::byte>] and [b2z] the value of a byte. *)
Definition b2z (b : byte) : Z := Z.of_N (Byte.to_N b).

Definition u8 (z : Z) : byte :=
  default x00 (Byte.of_N (Z.to_N (z mod 256))).

#[export] Instance byte_eq_dec : EqDecision byte.
Proof. intros a b. exact (Byte.byte_eq_dec a b). Defined.

Declare Scope rill_scope.
Delimit Scope rill_scope with rill.

(** [in[p]]: the byte at offset [p] of a buffer.  Every use in the model stands behind
    the size check that makes the offset valid. *)
Notation "bs .[ p ]" := (nth p bs x00) (at level 1, format "bs .[ p ]") : rill_scope.

Lemma b2z_range b : 0 ≤ b2z b < 256.
Proof. unfold b2z. pose proof (Byte.to_N_bounded b). lia. Qed.

Lemma b2z_u8 z : b2z (u8 z) = z mod 256.
Proof.
  unfold b2z, u8. pose proof (Z.mod_pos_bound z 256).
  destruct (Byte.of_N (Z.to_N (z mod 256))) as [b|] eqn:E; simpl.
  - apply Byte.to_of_N in E. lia.
  - apply Byte.of_N_None_iff in E. lia.
Qed.

Lemma u8_b2z b : u8 (b2z b) = b.
Proof.
  unfold u8, b2z. pose proof (Byte.to_N_bounded b).
  rewrite Z.mod_small by lia. by rewrite N2Z.id, Byte.of_to_N.
Qed.

Lemma b2z_inj a b : b2z a = b2z b → a = b.
Proof. intros H. by rewrite <-(u8_b2z a), H, u8_b2z. Qed.

(** The lemmas that the components' proofs apply without being asked: ranges and lengths
    here, preservation of the connection invariants in the files that state them. *)
Create HintDb rill.
Create Rewrite HintDb rill_rw.

#[export] Hint Resolve b2z_range : rill.
#[export] Hint Rewrite b2z_u8 u8_b2z : rill_rw.

(** Decides a closed goal by evaluating its decision procedure. *)
Ltac vm_decide := apply (bool_decide_unpack _); vm_compute; exact I.

(** ** Big-endian reference encoding *)

(** The value of a byte string read most significant byte first, and the [n]-byte
    big-endian representation of a value.  The codec's unrolled and looping readers and
    writers are all shown equal to these two functions. *)
Fixpoint be_val (bs : list byte) : Z :=
  match bs with
  | [] => 0
  | b :: bs' => b2z b * 256 ^ Z.of_nat (length bs') + be_val bs'
  end.

Fixpoint be_bytes (n : nat) (v : Z) : list byte :=
  match n with
  | O => []
  | S n' => u8 (v / 256 ^ Z.of_nat n') :: be_bytes n' v
  end.

Lemma pow256_pos n : 0 < 256 ^ Z.of_nat n.
Proof. apply Z.pow_pos_nonneg; lia. Qed.

Lemma pow256_S n : 256 ^ Z.of_nat (S n) = 256 * 256 ^ Z.of_nat n.
Proof. rewrite Nat2Z.inj_succ, Z.pow_succ_r; lia. Qed.

Lemma length_be_bytes n v : length (be_bytes n v) = n.
Proof. induction n; simpl; congruence. Qed.

#[export] Hint Rewrite length_be_bytes : rill_rw.

Lemma be_val_range bs : 0 ≤ be_val bs < 256 ^ Z.of_nat (length bs).
Proof.
  induction bs as [|b bs IH]; [simpl; lia|].
  cbn [be_val length]. rewrite pow256_S. pose proof (b2z_range b). nia.
Qed.

Lemma be_val_be_bytes n v : be_val (be_bytes n v) = v mod 256 ^ Z.of_nat n.
Proof.
  induction n as [|n IH]; [by rewrite Z.mod_1_r|].
  cbn [be_bytes be_val]. rewrite IH, b2z_u8, length_be_bytes, pow256_S.
  rewrite (Z.mul_comm 256), Z.rem_mul_r by (pose proof (pow256_pos n); lia). lia.
Qed.

Lemma be_bytes_mod n m v : (n ≤ m)%nat → be_bytes n (v mod 256 ^ Z.of_nat m) = be_bytes n v.
Proof.
  induction n as [|n IH]; intros Hnm; [done|]. cbn [be_bytes].
  rewrite IH by lia. f_equal. apply b2z_inj. rewrite !b2z_u8.
  replace m with (n + (1 + (m - S n)))%nat by lia.
  rewrite Nat2Z.inj_add, Z.pow_add_r by lia.
  pose proof (pow256_pos n). pose proof (pow256_pos (m - S n)).
  pose proof (pow256_pos (1 + (m - S n))).
  rewrite Z.rem_mul_r by lia.
  rewrite Z.add_comm, (Z.mul_comm (256 ^ Z.of_nat n)), Z.div_add_l by lia.
  rewrite (Z.div_small (v mod _)) by (apply Z.mod_pos_bound; lia).
  rewrite Z.add_0_r.
  change (1 + (m - S n))%nat with (S (m - S n)). rewrite pow256_S.
  rewrite Z.rem_mul_r by lia.
  rewrite (Z.mul_comm 256 (_ mod _)), Z.mod_add by lia.
  by rewrite Z.mod_mod by lia.
Qed.

Lemma be_bytes_be_val bs : be_bytes (length bs) (be_val bs) = bs.
Proof.
  induction bs as [|b bs IH]; [done|]. cbn [be_bytes be_val length].
  pose proof (be_val_range bs). pose proof (pow256_pos (length bs)).
  f_equal.
  - rewrite Z.div_add_l, Z.div_small, Z.add_0_r by lia. apply u8_b2z.
  - rewrite <-(be_bytes_mod _ (length bs)) by lia.
    rewrite Z.add_comm, Z.mod_add by lia. by rewrite Z.mod_small.
Qed.

Lemma be_bytes_be_val' n bs : length bs = n → be_bytes n (be_val bs) = bs.
Proof. intros <-. apply be_bytes_be_val. Qed.

Lemma be_bytes_inj n v v' :
  0 ≤ v < 256 ^ Z.of_nat n → 0 ≤ v' < 256 ^ Z.of_nat n →
  be_bytes n v = be_bytes n v' → v = v'.
Proof.
  intros Hv Hv' H. apply (f_equal be_val) in H.
  by rewrite !be_val_be_bytes, !Z.mod_small in H.
Qed.

(** ** Lists updated in one place *)

Lemma insert_middle {A} (l : list A) i x y :
  l !! i = Some x → l = take i l ++ x :: drop (S i) l ∧ <[i := y]> l = take i l ++ y :: drop (S i) l.
Proof.
  intros Hi. split; [by rewrite take_drop_middle|]. apply insert_take_drop. by eapply lookup_lt_Some.
Qed.

Lemma sum_list_with_insert {A} (f : A → nat) l i x y :
  l !! i = Some x → (sum_list_with f (<[i := y]> l) + f x = sum_list_with f l + f y)%nat.
Proof.
  intros Hi. destruct (insert_middle l i x y Hi) as [Hl ->]. rewrite Hl at 3.
  rewrite !sum_list_with_app. simpl. lia.
Qed.

Lemma omap_list_insert {A B} (f : A → option B) (l : list A) (i : nat) x y :
  l !! i = Some x → f x = None →
  omap f (<[i := y]> l) ≡ₚ omap f l ++ option_list (f y).
Proof.
  intros Hi Hx. destruct (insert_middle l i x y Hi) as [Hl ->]. rewrite Hl at 3.
  rewrite !omap_app. simpl. rewrite Hx. destruct (f y); simpl; [|by rewrite app_nil_r].
  by rewrite <-app_assoc, <-Permutation_cons_append.
Qed.

Lemma omap_list_insert_same {A B} (f : A → option B) (l : list A) (i : nat) x y :
  l !! i = Some x → f x = f y → omap f (<[i := y]> l) = omap f l.
Proof.
  intros Hi Hx. destruct (insert_middle l i x y Hi) as [Hl ->]. rewrite Hl at 3.
  rewrite !omap_app. simpl. by rewrite Hx.
Qed.
