(* ===== verification/Identifiers.v ===== *)
(** * Protocol identifiers and versions

    [include/rillnet/identifiers.hpp] and [include/rillnet/protocol_version.hpp]:
    the strong integer types that name streams and message types, the client/server
    partition of stream identifiers, and the protocol version carried by every frame. *)

From S2P Require Import Prelude.

Local Open Scope Z_scope.

(** ** [ProtocolVersion] *)

Record ProtocolVersion := mkVersion {
  major : Z;
  minor : Z;
}.

(** The defaulted [operator<=>]: member-wise, [major] first. *)
Definition version_compare (a b : ProtocolVersion) : comparison :=
  match Z.compare (major a) (major b) with
  | Eq => Z.compare (minor a) (minor b)
  | c => c
  end.

Definition current_protocol_version : ProtocolVersion := mkVersion 0 1.

#[export] Instance ProtocolVersion_eq_dec : EqDecision ProtocolVersion.
Proof. solve_decision. Defined.

#[export] Instance ProtocolVersion_countable : Countable ProtocolVersion.
Proof.
  refine (inj_countable' (λ v, (major v, minor v)) (λ p, mkVersion p.1 p.2) _).
  by intros [].
Defined.

Definition version_wf (v : ProtocolVersion) : Prop := in_u 16 (major v) ∧ in_u 16 (minor v).

(** ** [detail::StrongId] *)

(** One phantom tag per identifier kind, as in the C++ template: identifiers of
    different kinds are different types. *)
Record StrongId (Tag : Type) := mkId { value : Z }.
Arguments mkId {Tag} _.
Arguments value {Tag} _.

Definition invalid_value : Z := 0.

Definition default_id {Tag} : StrongId Tag := mkId invalid_value.

Definition is_valid {Tag} (id : StrongId Tag) : bool := negb (value id =? invalid_value).

Definition id_compare {Tag} (a b : StrongId Tag) : comparison := Z.compare (value a) (value b).

#[export] Instance StrongId_eq_dec Tag : EqDecision (StrongId Tag).
Proof. solve_decision. Defined.

#[export] Instance StrongId_countable Tag : Countable (StrongId Tag).
Proof. refine (inj_countable' value mkId _). by intros []. Defined.

Inductive StreamIdTag : Type :=.
Inductive MessageTypeTag : Type :=.

(** [StreamId] wraps a [std::uint64_t], [MessageType] a [std::uint32_t]. *)
Abbreviation StreamId := (StrongId StreamIdTag).
Abbreviation MessageType := (StrongId MessageTypeTag).
Abbreviation RequestId := StreamId (only parsing).

Definition stream_wf (id : StreamId) : Prop := in_u 64 (value id).
Definition message_type_wf (id : MessageType) : Prop := in_u 32 (value id).

(** The library's own version, which is not that of the protocol. *)
Definition version_major : Z := 0.

(** ** The client/server partition of stream identifiers *)

Definition is_client_stream (id : StreamId) : bool :=
  is_valid id && (value id mod 2 =? 1).

Definition is_server_stream (id : StreamId) : bool :=
  is_valid id && (value id mod 2 =? 0).

Lemma is_valid_true {Tag} (id : StrongId Tag) : is_valid id = true ↔ value id ≠ 0.
Proof. unfold is_valid, invalid_value. destruct (Z.eqb_spec (value id) 0); naive_solver. Qed.

Lemma is_valid_false {Tag} (id : StrongId Tag) : is_valid id = false ↔ value id = 0.
Proof. unfold is_valid, invalid_value. destruct (Z.eqb_spec (value id) 0); naive_solver. Qed.

Lemma is_client_stream_true id : is_client_stream id = true ↔ value id ≠ 0 ∧ value id mod 2 = 1.
Proof. unfold is_client_stream. by rewrite andb_true_iff, is_valid_true, Z.eqb_eq. Qed.

Lemma is_server_stream_true id : is_server_stream id = true ↔ value id ≠ 0 ∧ value id mod 2 = 0.
Proof. unfold is_server_stream. by rewrite andb_true_iff, is_valid_true, Z.eqb_eq. Qed.

(** The two sides partition the valid identifiers: a valid identifier belongs to exactly
    one of them, the reserved identifier to neither. *)
Lemma stream_partition id : xorb (is_client_stream id) (is_server_stream id) = is_valid id.
Proof.
  unfold is_client_stream, is_server_stream. destruct (is_valid id); [|done].
  pose proof (Z.mod_pos_bound (value id) 2).
  destruct (Z.eqb_spec (value id mod 2) 1), (Z.eqb_spec (value id mod 2) 0); simpl; lia.
Qed.

Lemma version_compare_eq a b : version_compare a b = Eq ↔ a = b.
Proof.
  destruct a as [a1 a2], b as [b1 b2]; unfold version_compare; simpl.
  destruct (Z.compare_spec a1 b1); subst; rewrite ?Z.compare_eq_iff; naive_solver lia.
Qed.
