(* ===== verification/Status.v ===== *)
(** * Status codes and the error model

    [include/rillnet/status_code.hpp] and [include/rillnet/error.hpp]: the wire-visible
    status codes with their 1000-wide category bands, and the disposition (scope,
    reporting) of every status. *)

From S2P Require Import Prelude.

Local Open Scope Z_scope.

Module StatusCategory.
Inductive StatusCategory :=
  | ok
  | transport
  | protocol
  | serialization
  | operation
  | timeout
  | cancellation
  | resource_limit.
End StatusCategory.
Abbreviation StatusCategory := StatusCategory.StatusCategory.

#[export] Instance StatusCategory_eq_dec : EqDecision StatusCategory.
Proof. solve_decision. Defined.

(** An [enum class] with a fixed underlying type holds any value of that type:
    [StatusCode.cast v] is [static_cast<StatusCode>(v)] for a 16-bit [v], and the
    enumerators are constants. *)
Module StatusCode.
Record StatusCode := cast { code : Z }.

Definition ok := cast 0.
Definition transport_error := cast 1000.
Definition connection_closed := cast 1001.
Definition connection_reset := cast 1002.
Definition connection_timed_out := cast 1003.
Definition protocol_error := cast 2000.
Definition unsupported_version := cast 2001.
Definition malformed_frame := cast 2002.
Definition unknown_stream := cast 2003.
Definition serialization_error := cast 3000.
Definition unknown_message_type := cast 3001.
Definition decode_error := cast 3002.
Definition operation_error := cast 4000.
Definition timeout_error := cast 5000.
Definition cancelled := cast 6000.
Definition resource_limit_exceeded := cast 7000.

(** The enumerators, in declaration order. *)
Definition enumerators : list StatusCode :=
  [ok; transport_error; connection_closed; connection_reset; connection_timed_out;
   protocol_error; unsupported_version; malformed_frame; unknown_stream;
   serialization_error; unknown_message_type; decode_error; operation_error;
   timeout_error; cancelled; resource_limit_exceeded].
End StatusCode.
Abbreviation StatusCode := StatusCode.StatusCode.

#[export] Instance StatusCode_eq_dec : EqDecision StatusCode.
Proof. solve_decision. Defined.

Definition status_wf (s : StatusCode) : Prop := in_u 16 (StatusCode.code s).

Definition status_category (c : StatusCode) : StatusCategory :=
  let v := StatusCode.code c in
  if v =? 0 then StatusCategory.ok
  else match v / 1000 with
       | 1 => StatusCategory.transport
       | 2 => StatusCategory.protocol
       | 3 => StatusCategory.serialization
       | 4 => StatusCategory.operation
       | 5 => StatusCategory.timeout
       | 6 => StatusCategory.cancellation
       | _ => StatusCategory.resource_limit
       end.

Definition is_error (c : StatusCode) : bool := negb (bool_decide (c = StatusCode.ok)).

Definition to_string (c : StatusCode) : string :=
  match StatusCode.code c with
  | 0 => "ok"
  | 1000 => "transport_error"
  | 1001 => "connection_closed"
  | 1002 => "connection_reset"
  | 1003 => "connection_timed_out"
  | 2000 => "protocol_error"
  | 2001 => "unsupported_version"
  | 2002 => "malformed_frame"
  | 2003 => "unknown_stream"
  | 3000 => "serialization_error"
  | 3001 => "unknown_message_type"
  | 3002 => "decode_error"
  | 4000 => "operation_error"
  | 5000 => "timeout_error"
  | 6000 => "cancelled"
  | 7000 => "resource_limit_exceeded"
  | _ => "unknown_status_code"
  end.

(** ** The error model *)

Module ErrorScope.
Inductive ErrorScope := none | operation | connection.
End ErrorScope.
Abbreviation ErrorScope := ErrorScope.ErrorScope.

#[export] Instance ErrorScope_eq_dec : EqDecision ErrorScope.
Proof. solve_decision. Defined.

Record ErrorDisposition := mkDisposition {
  scope : ErrorScope;
  send_to_peer : bool;
  local_only : bool;
}.

Definition error_disposition (c : StatusCode) : ErrorDisposition :=
  match status_category c with
  | StatusCategory.ok => mkDisposition ErrorScope.none false false
  | StatusCategory.transport
  | StatusCategory.protocol => mkDisposition ErrorScope.connection false true
  | StatusCategory.serialization
  | StatusCategory.operation
  | StatusCategory.timeout
  | StatusCategory.cancellation
  | StatusCategory.resource_limit => mkDisposition ErrorScope.operation true false
  end.

Definition terminates_connection (c : StatusCode) : bool :=
  bool_decide (scope (error_disposition c) = ErrorScope.connection).

Definition terminates_operation (c : StatusCode) : bool :=
  bool_decide (scope (error_disposition c) = ErrorScope.operation).

(** ** Lemmas *)

(** The band a category owns: code [ok] alone, or the codes [[1000 k, 1000 k + 999]]. *)
Definition band (c : StatusCategory) : Z :=
  match c with
  | StatusCategory.ok => 0
  | StatusCategory.transport => 1
  | StatusCategory.protocol => 2
  | StatusCategory.serialization => 3
  | StatusCategory.operation => 4
  | StatusCategory.timeout => 5
  | StatusCategory.cancellation => 6
  | StatusCategory.resource_limit => 7
  end.

Lemma status_category_band c k :
  1 ≤ k ≤ 6 → StatusCode.code c ≠ 0 →
  band (status_category c) = k ↔ StatusCode.code c / 1000 = k.
Proof.
  intros Hk H0. unfold status_category. rewrite (proj2 (Z.eqb_neq _ _)) by done.
  set (q := StatusCode.code c / 1000).
  assert (q = 1 ∨ q = 2 ∨ q = 3 ∨ q = 4 ∨ q = 5 ∨ q = 6 ∨
    (q ≤ 0 ∨ 7 ≤ q)) as [->|[->|[->|[->|[->|[->|Hq]]]]]] by lia; simpl; try lia.
  destruct q as [|[[p|p|]|[p|p|]|]|p]; simpl; try lia; destruct p; simpl; lia.
Qed.

Lemma is_error_true c : is_error c = true ↔ StatusCode.code c ≠ 0.
Proof.
  unfold is_error. rewrite negb_true_iff, bool_decide_eq_false.
  destruct c as [v]. unfold StatusCode.ok. simpl. naive_solver.
Qed.

(** Distinct enumerators have distinct names, and no enumerator is "unknown". *)
Lemma to_string_enumerators_NoDup :
  NoDup ("unknown_status_code"%string :: (to_string <$> StatusCode.enumerators)).
Proof. apply (bool_decide_unpack _). vm_compute. exact I. Qed.
