(* ===== verification/Frame.v ===== *)
(** * Frames

    [include/rillnet/frame_flags.hpp] and [include/rillnet/frame.hpp]: the flag bits of a
    frame header with their bitwise operators, the logical frame, and its validation. *)

From S2P Require Import Prelude Identifiers.

Local Open Scope Z_scope.

(** ** [FrameFlags]: an [enum class : std::uint8_t] *)

Module FrameFlags.
Record FrameFlags := cast { raw : byte }.

Definition none := cast x00.
Definition end_of_stream := cast x01.
Definition cancel := cast x02.
Definition error := cast x04.
End FrameFlags.
Abbreviation FrameFlags := FrameFlags.FrameFlags.

#[export] Instance FrameFlags_eq_dec : EqDecision FrameFlags.
Proof. solve_decision. Defined.

(** The operators work on the underlying [std::uint8_t]; the integer promotion of [~] is
    undone by the cast back to eight bits. *)
Definition flags_or (lhs rhs : FrameFlags) : FrameFlags :=
  FrameFlags.cast (u8 (Z.lor (b2z (FrameFlags.raw lhs)) (b2z (FrameFlags.raw rhs)))).

Definition flags_and (lhs rhs : FrameFlags) : FrameFlags :=
  FrameFlags.cast (u8 (Z.land (b2z (FrameFlags.raw lhs)) (b2z (FrameFlags.raw rhs)))).

Definition flags_not (v : FrameFlags) : FrameFlags :=
  FrameFlags.cast (u8 (Z.lnot (b2z (FrameFlags.raw v)))).

(** [operator|=] and [operator&=] assign the combined value to their left operand. *)
Definition flags_or_assign (lhs rhs : FrameFlags) : FrameFlags := flags_or lhs rhs.
Definition flags_and_assign (lhs rhs : FrameFlags) : FrameFlags := flags_and lhs rhs.

Definition has_flag (flags flag : FrameFlags) : bool := bool_decide (flags_and flags flag = flag).

(** ** [FrameType]: an [enum class : std::uint8_t] *)

Module FrameType.
Record FrameType := cast { raw : byte }.

Definition request := cast x01.
Definition response := cast x02.
End FrameType.
Abbreviation FrameType := FrameType.FrameType.

#[export] Instance FrameType_eq_dec : EqDecision FrameType.
Proof. solve_decision. Defined.

(** ** Headers and frames *)

Abbreviation Buffer := (list byte).

Record FrameHeader := mkHeader {
  version : ProtocolVersion;
  type : FrameType;
  flags : FrameFlags;
  stream : StreamId;
  payload_size : Z;
}.

Record Frame := mkFrame {
  header : FrameHeader;
  payload : Buffer;
}.

(** The default member initialisers. *)
Definition default_header : FrameHeader :=
  mkHeader current_protocol_version FrameType.request FrameFlags.none default_id 0.

#[export] Instance FrameHeader_eq_dec : EqDecision FrameHeader.
Proof. solve_decision. Defined.

#[export] Instance Frame_eq_dec : EqDecision Frame.
Proof. solve_decision. Defined.

(** The ranges the C++ member types impose. *)
Definition header_wf (h : FrameHeader) : Prop :=
  version_wf (version h) ∧ stream_wf (stream h) ∧ in_u 32 (payload_size h).

#[export] Instance header_wf_dec h : Decision (header_wf h).
Proof. unfold header_wf, version_wf, stream_wf. apply _. Defined.

Definition default_max_payload_size : Z := 16 * 1024 * 1024.

(** ** Validation *)

Module FrameValidationError.
Inductive FrameValidationError :=
  | none
  | unsupported_version
  | unknown_frame_type
  | unknown_flags
  | invalid_flag_combination
  | invalid_stream
  | payload_length_mismatch
  | payload_too_large.
End FrameValidationError.
Abbreviation FrameValidationError := FrameValidationError.FrameValidationError.

#[export] Instance FrameValidationError_eq_dec : EqDecision FrameValidationError.
Proof. solve_decision. Defined.

Definition is_known_frame_type (t : FrameType) : bool :=
  bool_decide (t = FrameType.request) || bool_decide (t = FrameType.response).

Definition known_flags : FrameFlags :=
  flags_or (flags_or FrameFlags.end_of_stream FrameFlags.cancel) FrameFlags.error.

Definition has_only_known_flags (fl : FrameFlags) : bool :=
  bool_decide (flags_and fl (flags_not known_flags) = FrameFlags.none).

Definition uint32_max : Z := 2 ^ 32 - 1.

Definition validate_frame (frame : Frame) (max_payload_size : Z) : FrameValidationError :=
  let h := header frame in
  let size := Z.of_nat (length (payload frame)) in
  if negb (bool_decide (version h = current_protocol_version)) then
    FrameValidationError.unsupported_version
  else if negb (is_known_frame_type (type h)) then
    FrameValidationError.unknown_frame_type
  else if negb (has_only_known_flags (flags h)) then
    FrameValidationError.unknown_flags
  else if has_flag (flags h) FrameFlags.cancel && has_flag (flags h) FrameFlags.error then
    FrameValidationError.invalid_flag_combination
  else if negb (is_valid (stream h)) then
    FrameValidationError.invalid_stream
  else if payload_size h >? max_payload_size then
    FrameValidationError.payload_too_large
  else if (size >? uint32_max) || negb (payload_size h =? size) then
    FrameValidationError.payload_length_mismatch
  else
    FrameValidationError.none.

(** ** Flag lemmas *)

(** A statement about every flag byte is decided by running over the 256 of them. *)
Ltac flags_cases fl :=
  let b := fresh "b" in
  destruct fl as [b]; destruct b; vm_compute; try done.

Lemma has_only_known_flags_spec fl :
  has_only_known_flags fl = true ↔ b2z (FrameFlags.raw fl) < 8.
Proof. flags_cases fl. Qed.

(** [has_flag] reads the bit of its flag. *)
Lemma has_flag_testbit fl :
  has_flag fl FrameFlags.end_of_stream = Z.testbit (b2z (FrameFlags.raw fl)) 0 ∧
  has_flag fl FrameFlags.cancel = Z.testbit (b2z (FrameFlags.raw fl)) 1 ∧
  has_flag fl FrameFlags.error = Z.testbit (b2z (FrameFlags.raw fl)) 2.
Proof. flags_cases fl. Qed.

Lemma has_flag_or_assign_eos fl :
  has_flag (flags_or_assign fl FrameFlags.end_of_stream) FrameFlags.end_of_stream = true.
Proof. flags_cases fl. Qed.

(** ** What validation accepts *)

(** A header is acceptable for a decoder limited to [max_payload_size]: everything
    [validate_frame] asks of the header alone. *)
Definition header_valid (h : FrameHeader) (max_payload_size : Z) : Prop :=
  version h = current_protocol_version ∧
  (type h = FrameType.request ∨ type h = FrameType.response) ∧
  b2z (FrameFlags.raw (flags h)) < 8 ∧
  ¬ (has_flag (flags h) FrameFlags.cancel = true ∧ has_flag (flags h) FrameFlags.error = true) ∧
  value (stream h) ≠ 0 ∧
  payload_size h ≤ max_payload_size.

Definition frame_valid (f : Frame) (max_payload_size : Z) : Prop :=
  header_valid (header f) max_payload_size ∧
  payload_size (header f) = Z.of_nat (length (payload f)) ∧
  Z.of_nat (length (payload f)) ≤ uint32_max.

#[export] Instance header_valid_dec h m : Decision (header_valid h m).
Proof. unfold header_valid. apply _. Defined.

#[export] Instance frame_valid_dec f m : Decision (frame_valid f m).
Proof. unfold frame_valid. apply _. Defined.

Lemma is_known_frame_type_true t :
  is_known_frame_type t = true ↔ t = FrameType.request ∨ t = FrameType.response.
Proof. unfold is_known_frame_type. by rewrite orb_true_iff, !bool_decide_eq_true. Qed.

(** The verdict splits into the header checks, which the payload cannot influence, and the
    length check, which is reached only when all header checks pass. *)
Lemma validate_frame_header h p m :
  header_valid h m →
  validate_frame (mkFrame h p) m =
    if decide (payload_size h = Z.of_nat (length p) ∧ Z.of_nat (length p) ≤ uint32_max)
    then FrameValidationError.none else FrameValidationError.payload_length_mismatch.
Proof.
  intros (Hv & Ht & Hf & Hc & Hs & Hm). unfold validate_frame; simpl.
  rewrite bool_decide_eq_true_2 by done. simpl.
  rewrite (proj2 (is_known_frame_type_true _) Ht). simpl.
  rewrite (proj2 (has_only_known_flags_spec _) Hf). simpl.
  rewrite (proj2 (is_valid_true _) Hs). simpl.
  replace (_ && _) with false
    by (destruct (has_flag _ FrameFlags.cancel), (has_flag _ FrameFlags.error); naive_solver).
  rewrite Z.gtb_ltb, (proj2 (Z.ltb_ge _ _)) by lia.
  rewrite Z.gtb_ltb. case_decide as Hd; destruct (Z.ltb_spec uint32_max (Z.of_nat (length p)));
    destruct (Z.eqb_spec (payload_size h) (Z.of_nat (length p))); simpl; naive_solver lia.
Qed.

Lemma validate_frame_header_invalid h p m :
  ¬ header_valid h m →
  validate_frame (mkFrame h p) m ≠ FrameValidationError.none ∧
  validate_frame (mkFrame h p) m ≠ FrameValidationError.payload_length_mismatch.
Proof.
  intros Hn. unfold validate_frame; simpl. unfold header_valid in Hn.
  rewrite <-is_known_frame_type_true, <-has_only_known_flags_spec, <-is_valid_true in Hn.
  destruct (decide (version h = current_protocol_version)) as [Hv|Hv];
    [rewrite bool_decide_eq_true_2 by done|by rewrite bool_decide_eq_false_2].
  destruct (is_known_frame_type (type h)); simpl; [|done].
  destruct (has_only_known_flags (flags h)); simpl; [|done].
  destruct (has_flag _ FrameFlags.cancel && _) eqn:Hc; [done|].
  destruct (is_valid (stream h)); simpl; [|done].
  rewrite Z.gtb_ltb. destruct (Z.ltb_spec m (payload_size h)); [done|].
  apply andb_false_iff in Hc. exfalso. apply Hn. repeat split; auto; try lia.
  intros [? ?]. destruct Hc; congruence.
Qed.

Lemma validate_frame_none f m :
  validate_frame f m = FrameValidationError.none ↔ frame_valid f m.
Proof.
  destruct f as [h p]. unfold frame_valid; simpl.
  destruct (decide (header_valid h m)) as [Hh|Hh].
  - rewrite validate_frame_header by done. case_decide; naive_solver.
  - pose proof (validate_frame_header_invalid h p m Hh). naive_solver.
Qed.

(** A decoder that has only seen a header validates a frame without payload and ignores a
    length mismatch: that is the header check. *)
Lemma validate_header_only h p m :
  (validate_frame (mkFrame h p) m = FrameValidationError.none ∨
   validate_frame (mkFrame h p) m = FrameValidationError.payload_length_mismatch) ↔
  header_valid h m.
Proof.
  destruct (decide (header_valid h m)) as [Hh|Hh].
  - rewrite validate_frame_header by done. case_decide; naive_solver.
  - pose proof (validate_frame_header_invalid h p m Hh). naive_solver.
Qed.
