(* ===== verification/FrameCodec.v ===== *)
(** * Wire format of frames

    [include/rillnet/frame_codec.hpp]: the fixed 18-byte big-endian header, written and
    read byte by byte, and the encoding of a whole frame. *)

From S2P Require Import Prelude Identifiers Frame.

Local Open Scope Z_scope.
Local Open Scope rill_scope.

(** ** [detail]: big-endian stores and loads

    A pointer [out.data() + p] is the buffer together with the offset [p]. *)

Definition frame_header_size : nat := 18.

Definition write_be16 (out : Buffer) (p : nat) (v : Z) : Buffer :=
  let out := <[p := u8 (Z.land (Z.shiftr v 8) 255)]> out in
  <[(p + 1)%nat := u8 (Z.land v 255)]> out.

Definition write_be32 (out : Buffer) (p : nat) (v : Z) : Buffer :=
  let out := <[p := u8 (Z.land (Z.shiftr v 24) 255)]> out in
  let out := <[(p + 1)%nat := u8 (Z.land (Z.shiftr v 16) 255)]> out in
  let out := <[(p + 2)%nat := u8 (Z.land (Z.shiftr v 8) 255)]> out in
  <[(p + 3)%nat := u8 (Z.land v 255)]> out.

Definition write_be64 (out : Buffer) (p : nat) (v : Z) : Buffer :=
  foldl (λ out i,
    <[(p + i)%nat := u8 (Z.land (Z.shiftr v (56 - 8 * Z.of_nat i)) 255)]> out)
    out (seq 0 8).

Definition read_be16 (inp : Buffer) (p : nat) : Z :=
  uwrap 16 (Z.lor (Z.shiftl (b2z inp.[p]) 8) (b2z inp.[p + 1])).

Definition read_be32 (inp : Buffer) (p : nat) : Z :=
  Z.lor (Z.lor (Z.lor
    (uwrap 32 (Z.shiftl (b2z inp.[p]) 24))
    (uwrap 32 (Z.shiftl (b2z inp.[p + 1]) 16)))
    (uwrap 32 (Z.shiftl (b2z inp.[p + 2]) 8)))
    (b2z inp.[p + 3]).

Definition read_be64 (inp : Buffer) (p : nat) : Z :=
  foldl (λ v i, Z.lor (uwrap 64 (Z.shiftl v 8)) (b2z inp.[p + i])) 0 (seq 0 8).

(** ** Headers and frames *)

Definition encode_frame_header (h : FrameHeader) : Buffer :=
  let out := replicate frame_header_size x00 in
  let out := write_be16 out 0 (major (version h)) in
  let out := write_be16 out 2 (minor (version h)) in
  let out := <[4%nat := FrameType.raw (type h)]> out in
  let out := <[5%nat := FrameFlags.raw (flags h)]> out in
  let out := write_be64 out 6 (value (stream h)) in
  write_be32 out 14 (payload_size h).

Definition decode_frame_header (bytes : Buffer) : option FrameHeader :=
  if decide (length bytes < frame_header_size)%nat then None
  else Some (mkHeader
    (mkVersion (read_be16 bytes 0) (read_be16 bytes 2))
    (FrameType.cast bytes.[4])
    (FrameFlags.cast bytes.[5])
    (mkId (read_be64 bytes 6))
    (read_be32 bytes 14)).

Definition encode_frame (frame : Frame) : Buffer :=
  encode_frame_header (header frame) ++ payload frame.

#[global] Arguments encode_frame_header : simpl never.
#[global] Arguments decode_frame_header : simpl never.
#[global] Arguments write_be32 : simpl never.
#[global] Arguments read_be32 : simpl never.

(** ** The stores and loads are the reference big-endian functions *)

Lemma u8_land_255 v : u8 (Z.land v 255) = u8 v.
Proof.
  apply b2z_inj. rewrite !b2z_u8. change 255 with (Z.ones 8).
  rewrite Z.land_ones by lia. change (2 ^ 8) with 256. by rewrite Z.mod_mod by lia.
Qed.

Lemma u8_shiftr v k n : k = 8 * Z.of_nat n → u8 (Z.land (Z.shiftr v k) 255) = u8 (v / 256 ^ Z.of_nat n).
Proof.
  intros ->. rewrite u8_land_255, Z.shiftr_div_pow2 by lia.
  by rewrite Z.pow_mul_r by lia.
Qed.

Lemma lor_shiftl_8 v b : Z.lor (Z.shiftl v 8) (b2z b) = v * 256 + b2z b.
Proof.
  pose proof (b2z_range b).
  rewrite <-Z.add_nocarry_lor; [by rewrite Z.shiftl_mul_pow2 by lia|].
  apply Z.bits_inj'. intros i Hi. rewrite Z.land_spec, Z.bits_0.
  destruct (decide (i < 8)).
  - by rewrite Z.shiftl_spec_low.
  - rewrite (Z.bits_above_log2 (b2z b)); [by rewrite andb_false_r|lia|].
    destruct (decide (b2z b = 0)) as [->|]; [simpl; lia|].
    apply Z.log2_lt_pow2; [lia|]. apply Z.lt_le_trans with (2 ^ 8); [simpl; lia|].
    apply Z.pow_le_mono_r; lia.
Qed.

Lemma write_be16_bytes a b rest v :
  write_be16 (a :: b :: rest) 0 v = be_bytes 2 v ++ rest.
Proof.
  unfold write_be16. rewrite (u8_shiftr v 8 1), u8_land_255 by lia.
  cbn -[Z.pow]. by rewrite Z.div_1_r.
Qed.

Lemma write_be32_bytes a b c d rest v :
  write_be32 (a :: b :: c :: d :: rest) 0 v = be_bytes 4 v ++ rest.
Proof.
  unfold write_be32.
  rewrite (u8_shiftr v 24 3), (u8_shiftr v 16 2), (u8_shiftr v 8 1), u8_land_255 by lia.
  cbn -[Z.pow]. by rewrite Z.div_1_r.
Qed.

(** The layout of an encoded header, as the table in the source documents it. *)
Lemma encode_frame_header_layout h :
  encode_frame_header h =
    be_bytes 2 (major (version h)) ++ be_bytes 2 (minor (version h)) ++
    [FrameType.raw (type h); FrameFlags.raw (flags h)] ++
    be_bytes 8 (value (stream h)) ++ be_bytes 4 (payload_size h).
Proof.
  destruct h as [[ma mi] [t] [fl] [s] n].
  unfold encode_frame_header, write_be16, write_be32, write_be64.
  cbn -[Z.pow Z.shiftr Z.land Z.div Z.sub Z.of_nat].
  rewrite ?(u8_shiftr _ 8 1), ?(u8_shiftr _ 16 2), ?(u8_shiftr _ 24 3) by lia.
  rewrite ?(u8_shiftr _ (56 - 8 * Z.of_nat 0) 7), ?(u8_shiftr _ (56 - 8 * Z.of_nat 1) 6),
    ?(u8_shiftr _ (56 - 8 * Z.of_nat 2) 5), ?(u8_shiftr _ (56 - 8 * Z.of_nat 3) 4),
    ?(u8_shiftr _ (56 - 8 * Z.of_nat 7) 0) by lia.
  rewrite ?u8_land_255. change (256 ^ Z.of_nat 0) with 1. by rewrite ?Z.div_1_r.
Qed.

Lemma length_encode_frame_header h : length (encode_frame_header h) = frame_header_size.
Proof. by rewrite encode_frame_header_layout, !length_app, !length_be_bytes. Qed.

Lemma uwrap_id w x : in_u w x → uwrap w x = x.
Proof. intros H. by apply Z.mod_small. Qed.

Lemma read_be16_val inp p :
  read_be16 inp p = be_val [inp.[p]; inp.[p + 1]].
Proof.
  unfold read_be16. rewrite lor_shiftl_8, uwrap_id; [cbn; lia|].
  pose proof (b2z_range inp.[p]). pose proof (b2z_range inp.[p + 1]). unfold in_u. lia.
Qed.

Lemma read_be32_val inp p :
  read_be32 inp p = be_val [inp.[p]; inp.[p + 1]; inp.[p + 2]; inp.[p + 3]].
Proof.
  unfold read_be32. set (a := inp.[p]). set (b := inp.[p + 1]).
  set (c := inp.[p + 2]). set (d := inp.[p + 3]).
  pose proof (b2z_range a). pose proof (b2z_range b). pose proof (b2z_range c).
  rewrite !uwrap_id by (rewrite Z.shiftl_mul_pow2 by lia; unfold in_u; lia).
  assert (Z.lor (Z.lor (Z.lor (Z.shiftl (b2z a) 24) (Z.shiftl (b2z b) 16))
      (Z.shiftl (b2z c) 8)) (b2z d)
    = Z.lor (Z.shiftl (Z.lor (Z.shiftl (Z.lor (Z.shiftl (b2z a) 8) (b2z b)) 8) (b2z c)) 8) (b2z d)) as ->.
  { by rewrite !Z.shiftl_lor, !Z.shiftl_shiftl by lia. }
  rewrite !lor_shiftl_8. cbn. lia.
Qed.

Lemma read_be64_val inp p :
  read_be64 inp p =
    be_val [inp.[p + 0]; inp.[p + 1]; inp.[p + 2]; inp.[p + 3];
            inp.[p + 4]; inp.[p + 5]; inp.[p + 6]; inp.[p + 7]].
Proof.
  unfold read_be64. cbn [foldl seq].
  set (b0 := inp.[p + 0]). set (b1 := inp.[p + 1]). set (b2 := inp.[p + 2]).
  set (b3 := inp.[p + 3]). set (b4 := inp.[p + 4]). set (b5 := inp.[p + 5]).
  set (b6 := inp.[p + 6]). set (b7 := inp.[p + 7]).
  pose proof (b2z_range b0). pose proof (b2z_range b1). pose proof (b2z_range b2).
  pose proof (b2z_range b3). pose proof (b2z_range b4). pose proof (b2z_range b5).
  pose proof (b2z_range b6).
  assert (Hstep : ∀ v b, 0 ≤ v < 2 ^ 56 →
    Z.lor (uwrap 64 (Z.shiftl v 8)) (b2z b) = v * 256 + b2z b).
  { intros v b Hv. rewrite uwrap_id; [apply lor_shiftl_8|].
    rewrite Z.shiftl_mul_pow2 by lia. unfold in_u. lia. }
  do 8 match goal with
    | |- context [Z.lor (uwrap 64 (Z.shiftl ?v 8)) (b2z ?b)] =>
        lazymatch v with context [Z.lor] => fail | _ => rewrite (Hstep v b) by lia end
    end.
  cbn. lia.
Qed.

Lemma decode_frame_header_layout l1 l2 t fl l3 l4 rest :
  length l1 = 2%nat → length l2 = 2%nat → length l3 = 8%nat → length l4 = 4%nat →
  decode_frame_header (l1 ++ l2 ++ [t; fl] ++ l3 ++ l4 ++ rest) =
    Some (mkHeader (mkVersion (be_val l1) (be_val l2)) (FrameType.cast t) (FrameFlags.cast fl)
      (mkId (be_val l3)) (be_val l4)).
Proof.
  intros H1 H2 H3 H4. unfold decode_frame_header.
  rewrite decide_False by (rewrite !length_app; unfold frame_header_size; simpl; lia).
  rewrite !read_be16_val, read_be64_val, read_be32_val.
  do 3 (destruct l1 as [|? l1]; try discriminate).
  do 3 (destruct l2 as [|? l2]; try discriminate).
  do 9 (destruct l3 as [|? l3]; try discriminate).
  do 5 (destruct l4 as [|? l4]; try discriminate).
  done.
Qed.

(** Any 18 bytes split into the fields of the layout. *)
Lemma header_bytes_split (bs : Buffer) :
  length bs = frame_header_size →
  ∃ (l1 l2 : Buffer) (t fl : byte) (l3 l4 : Buffer), bs = l1 ++ l2 ++ [t; fl] ++ l3 ++ l4 ∧
    length l1 = 2%nat ∧ length l2 = 2%nat ∧ length l3 = 8%nat ∧ length l4 = 4%nat.
Proof.
  intros H. unfold frame_header_size in H.
  do 19 (destruct bs as [|? bs]; try discriminate).
  by eexists [_; _], [_; _], _, _, [_; _; _; _; _; _; _; _], [_; _; _; _].
Qed.

Lemma decode_encode_header h rest :
  header_wf h → decode_frame_header (encode_frame_header h ++ rest) = Some h.
Proof.
  intros ([Hma Hmi] & Hs & Hn). rewrite encode_frame_header_layout, <-!app_assoc.
  rewrite decode_frame_header_layout by apply length_be_bytes.
  rewrite !be_val_be_bytes. destruct h as [[ma mi] [t] [fl] [s] n].
  unfold stream_wf, in_u in *. simpl in *.
  by rewrite !Z.mod_small by lia.
Qed.

Lemma decode_frame_header_Some bs :
  (frame_header_size ≤ length bs)%nat → is_Some (decode_frame_header bs).
Proof. intros H. unfold decode_frame_header. rewrite decide_False by lia. eauto. Qed.

Lemma be_val_in_u w bs : 256 ^ Z.of_nat (length bs) ≤ 2 ^ w → in_u w (be_val bs).
Proof. intros H. pose proof (be_val_range bs). unfold in_u. lia. Qed.

Lemma decode_frame_header_wf bs h : decode_frame_header bs = Some h → header_wf h.
Proof.
  unfold decode_frame_header. case_decide; [done|]. intros [= <-].
  rewrite !read_be16_val, read_be64_val, read_be32_val.
  unfold header_wf, version_wf, stream_wf.
  cbn [version major minor stream payload_size value].
  split; [split|split]; apply be_val_in_u; vm_compute; discriminate.
Qed.

Lemma encode_decode_header bs h :
  decode_frame_header bs = Some h → encode_frame_header h = take frame_header_size bs.
Proof.
  intros Hd. assert (Hl : (frame_header_size ≤ length bs)%nat).
  { unfold decode_frame_header in Hd. case_decide; [done|lia]. }
  destruct (header_bytes_split (take frame_header_size bs))
    as (l1 & l2 & t & fl & l3 & l4 & Hbs & H1 & H2 & H3 & H4).
  { rewrite length_take. lia. }
  rewrite <-(take_drop frame_header_size bs), Hbs, <-!app_assoc,
    decode_frame_header_layout in Hd by done.
  injection Hd as <-. rewrite encode_frame_header_layout, Hbs.
  cbn [version major minor stream payload_size value type flags FrameType.raw FrameFlags.raw].
  by rewrite !be_bytes_be_val'.
Qed.

(** Only the first 18 bytes matter. *)
Lemma decode_frame_header_take bs :
  (frame_header_size ≤ length bs)%nat →
  decode_frame_header bs = decode_frame_header (take frame_header_size bs).
Proof.
  intros Hl.
  destruct (header_bytes_split (take frame_header_size bs))
    as (l1 & l2 & t & fl & l3 & l4 & Hbs & H1 & H2 & H3 & H4).
  { rewrite length_take. lia. }
  rewrite <-(take_drop frame_header_size bs) at 1. rewrite Hbs, <-!app_assoc.
  rewrite decode_frame_header_layout by done.
  rewrite <-(app_nil_r l4) at 2. by rewrite decode_frame_header_layout.
Qed.

(** ** Properties *)

(** Decoding an encoded header gives the header back, whatever bytes follow it. *)
Theorem header_roundtrip h rest :
  header_wf h → decode_frame_header (encode_frame_header h ++ rest) = Some h.
Proof. apply decode_encode_header. Qed.

(** C37: decoding succeeds exactly on inputs of at least 18 bytes; what it returns fits the
    C++ field types and re-encodes to the 18 bytes that were read, so that headers and
    18-byte strings are in bijection. *)
Theorem header_decode_bijective bs :
  (decode_frame_header bs = None ↔ (length bs < frame_header_size)%nat) ∧
  ∀ h, decode_frame_header bs = Some h →
    header_wf h ∧ encode_frame_header h = take frame_header_size bs.
Proof.
  split.
  - unfold decode_frame_header. case_decide; naive_solver.
  - intros h Hd. split; [by eapply decode_frame_header_wf|by apply encode_decode_header].
Qed.

Lemma header_roundtrip_witness :
  let h := mkHeader (mkVersion 258 65535) (FrameType.cast x09) (FrameFlags.cast xff)
             (mkId (2 ^ 64 - 2)) 4294967295 in
  decode_frame_header (encode_frame_header h ++ [x00]) = Some h.
Proof. apply header_roundtrip. vm_decide. Defined.
