(* ===== verification/FrameDecoder.v ===== *)
(** * The incremental frame decoder

    [include/rillnet/frame_decoder.hpp]: reconstruction of frames from a byte stream that
    arrives in arbitrary fragments. *)

From S2P Require Import Prelude Identifiers Frame FrameCodec.

Local Open Scope Z_scope.

(** ** State and operations *)

Record FrameDecoder := mkDecoder {
  max_payload_size_ : Z;
  header_bytes_ : Buffer;
  header_bytes_size_ : nat;
  header_ : option FrameHeader;
  payload_ : Buffer;
  payload_bytes_size_ : nat;
  error_ : option FrameValidationError;
}.

Definition new_decoder (max_payload_size : Z) : FrameDecoder :=
  mkDecoder max_payload_size (replicate frame_header_size x00) 0 None [] 0 None.

Definition decoder_error (d : FrameDecoder) : option FrameValidationError := error_ d.

Definition has_incomplete_frame (d : FrameDecoder) : bool :=
  bool_decide (is_Some (header_ d)) || negb (bool_decide (header_bytes_size_ d = 0%nat)).

Definition reset (d : FrameDecoder) : FrameDecoder :=
  mkDecoder (max_payload_size_ d) (header_bytes_ d) 0 None [] 0 None.

(** [copy_bytes] fills the destination from [destination_size] on; it returns the count
    and, because the destination is a span into the decoder, the updated destination.
    The subtraction of sizes does not wrap: see [decoder_inv]. *)
Definition copy_bytes (source destination : Buffer) (destination_size : nat) : nat * Buffer :=
  let copied := Nat.min (length source) (length destination - destination_size) in
  (copied, take destination_size destination ++ take copied source
           ++ drop (destination_size + copied) destination).

(** [std::vector::resize]: truncates or appends zero bytes. *)
Definition resize_buffer (b : Buffer) (n : nat) : Buffer :=
  take n b ++ replicate (n - length b) x00.

Definition start_frame (d : FrameDecoder) : FrameDecoder :=
  match decode_frame_header (header_bytes_ d) with
  | None =>
      mkDecoder (max_payload_size_ d) (header_bytes_ d) (header_bytes_size_ d) (header_ d)
        (payload_ d) (payload_bytes_size_ d) (Some FrameValidationError.payload_length_mismatch)
  | Some decoded_header =>
      let candidate := mkFrame decoded_header [] in
      let validation := validate_frame candidate (max_payload_size_ d) in
      if negb (bool_decide (validation = FrameValidationError.none)) &&
         negb (bool_decide (validation = FrameValidationError.payload_length_mismatch)) then
        mkDecoder (max_payload_size_ d) (header_bytes_ d) (header_bytes_size_ d) (header_ d)
          (payload_ d) (payload_bytes_size_ d) (Some validation)
      else
        mkDecoder (max_payload_size_ d) (header_bytes_ d) (header_bytes_size_ d)
          (Some decoded_header)
          (resize_buffer (payload_ d) (Z.to_nat (payload_size decoded_header)))
          (payload_bytes_size_ d) (error_ d)
  end.

(** The first half of the loop body of [push]: while no header is known, collect header
    bytes.  The boolean says whether the loop is left ([break]). *)
Definition push_header (d : FrameDecoder) (bytes : Buffer) : FrameDecoder * Buffer * bool :=
  match header_ d with
  | Some _ => (d, bytes, false)
  | None =>
      let '(copied, hb) := copy_bytes bytes (header_bytes_ d) (header_bytes_size_ d) in
      let d := mkDecoder (max_payload_size_ d) hb (header_bytes_size_ d + copied) (header_ d)
                 (payload_ d) (payload_bytes_size_ d) (error_ d) in
      let bytes := drop copied bytes in
      if decide (header_bytes_size_ d < frame_header_size)%nat then (d, bytes, true)
      else
        let d := start_frame d in
        (d, bytes, bool_decide (is_Some (error_ d)))
  end.

(** The second half: collect payload bytes and emit the frame when it is complete.
    [None] is the dereference of an empty [header_], which is undefined in C++ and which
    [push_total] shows unreachable.  The moved-from [payload_] is empty. *)
Definition push_payload (d : FrameDecoder) (bytes : Buffer) (frames : list Frame)
    : option (FrameDecoder * Buffer * list Frame) :=
  let '(copied, p) := copy_bytes bytes (payload_ d) (payload_bytes_size_ d) in
  let d := mkDecoder (max_payload_size_ d) (header_bytes_ d) (header_bytes_size_ d) (header_ d)
             p (payload_bytes_size_ d + copied) (error_ d) in
  let bytes := drop copied bytes in
  if decide (payload_bytes_size_ d = length (payload_ d)) then
    match header_ d with
    | None => None
    | Some h =>
        Some (mkDecoder (max_payload_size_ d) (header_bytes_ d) 0 None [] 0 (error_ d),
              bytes, frames ++ [mkFrame h (payload_ d)])
    end
  else Some (d, bytes, frames).

(** The [while] loop, with fuel; [None] is also the answer when the fuel runs out. *)
Fixpoint push_loop (fuel : nat) (d : FrameDecoder) (bytes : Buffer) (frames : list Frame)
    : option (FrameDecoder * list Frame) :=
  if bool_decide (bytes = []) || bool_decide (is_Some (error_ d)) then Some (d, frames)
  else
    match fuel with
    | O => None
    | S fuel' =>
        let '(d, bytes, brk) := push_header d bytes in
        if brk : bool then Some (d, frames)
        else
          match push_payload d bytes frames with
          | None => None
          | Some (d, bytes, frames) => push_loop fuel' d bytes frames
          end
    end.

(** Every iteration consumes at least one byte, so the number of bytes is enough fuel. *)
Definition push (d : FrameDecoder) (bytes : Buffer) : option (FrameDecoder * list Frame) :=
  push_loop (length bytes) d bytes [].

(** A sequence of [push] calls, with the frames they return concatenated. *)
Fixpoint push_all (d : FrameDecoder) (chunks : list Buffer) : option (FrameDecoder * list Frame) :=
  match chunks with
  | [] => Some (d, [])
  | chunk :: chunks' =>
      match push d chunk with
      | None => None
      | Some (d, fs) =>
          match push_all d chunks' with
          | None => None
          | Some (d, fs') => Some (d, fs ++ fs')
          end
      end
  end.

(** ** Specification: parsing a complete byte stream *)

(** What is known after the bytes received so far: the bytes of an incomplete frame, or
    the verdict on a malformed header. *)
Inductive ParseStatus :=
  | Incomplete (rest : Buffer)
  | Malformed (e : FrameValidationError).

Inductive parses (m : Z) : Buffer → list Frame → ParseStatus → Prop :=
  | parses_short bs :
      (length bs < frame_header_size)%nat →
      parses m bs [] (Incomplete bs)
  | parses_wait hb h p :
      length hb = frame_header_size →
      decode_frame_header hb = Some h →
      header_valid h m →
      (Z.of_nat (length p) < payload_size h) →
      parses m (hb ++ p) [] (Incomplete (hb ++ p))
  | parses_malformed hb h rest :
      length hb = frame_header_size →
      decode_frame_header hb = Some h →
      ¬ header_valid h m →
      parses m (hb ++ rest) [] (Malformed (validate_frame (mkFrame h []) m))
  | parses_frame hb h p rest fs st :
      length hb = frame_header_size →
      decode_frame_header hb = Some h →
      header_valid h m →
      Z.of_nat (length p) = payload_size h →
      parses m rest fs st →
      parses m (hb ++ p ++ rest) (mkFrame h p :: fs) st.

(** ** The specification is functional and compositional *)

Lemma header_size_pos : (0 < frame_header_size)%nat.
Proof. unfold frame_header_size. lia. Qed.

Lemma parses_det m bs fs st fs' st' :
  parses m bs fs st → parses m bs fs' st' → fs = fs' ∧ st = st'.
Proof.
  intros H. revert fs' st'. induction H as [bs Hs|hb h p Hl Hd Hv Hp|hb h rest Hl Hd Hv
    |hb h p rest fs st Hl Hd Hv Hp _ IH]; intros fs' st' H'; inversion H'; subst;
    rewrite ?length_app in *; try lia; try done.
  all: match goal with
       | Heq : ?a ++ _ = ?b ++ _, Ha : length ?a = _, Hb : length ?b = _ |- _ =>
           apply app_inj_1 in Heq; [destruct Heq as [<- Heq]|congruence]
       end; simplify_eq; try done.
  all: try match goal with
       | Heq : ?p ++ _ = ?q ++ _ |- _ => apply app_inj_1 in Heq; [destruct Heq as [<- <-]|lia]
       end.
  all: rewrite ?length_app in *; try lia.
  destruct (IH _ _ ltac:(eassumption)) as [-> ->]. done.
Qed.

(** Parsing may be interrupted anywhere: the incomplete bytes followed by what arrives
    later parse like the whole. *)
Lemma parses_resume m bs fs r more fs' st :
  parses m bs fs (Incomplete r) → parses m (r ++ more) fs' st →
  parses m (bs ++ more) (fs ++ fs') st.
Proof.
  intros H. remember (Incomplete r) as st0 eqn:E. revert E.
  induction H; intros E H'; simplify_eq; simpl; auto.
  rewrite <-!app_assoc. apply parses_frame; auto.
Qed.

Lemma parses_malformed_more m bs fs e more :
  parses m bs fs (Malformed e) → parses m (bs ++ more) fs (Malformed e).
Proof.
  intros H. remember (Malformed e) as st0 eqn:E. revert E.
  induction H; intros E; simplify_eq; rewrite <-!app_assoc; econstructor; eauto.
Qed.

Lemma parses_valid m bs fs st : m ≤ uint32_max → parses m bs fs st → Forall (λ f, frame_valid f m) fs.
Proof.
  intros Hm. induction 1 as [| | |hb h p rest fs st Hl Hd Hv Hp Hr IH]; constructor; auto.
  assert (payload_size h ≤ m) by apply Hv. split; [done|]. simpl. lia.
Qed.

(** A sequence of valid frames parses back from its encoding. *)
Lemma parses_encode m fs rest fs' st :
  Forall (λ f, header_wf (header f) ∧ frame_valid f m) fs →
  parses m rest fs' st →
  parses m (concat (encode_frame <$> fs) ++ rest) (fs ++ fs') st.
Proof.
  induction 1 as [|[h p] fs [Hwf (Hv & Hp & _)] _ IH]; intros Hr; [done|].
  cbn [fmap list_fmap concat]. unfold encode_frame at 1. cbn [header payload] in *.
  rewrite <-!app_assoc. apply (parses_frame m (encode_frame_header h) h p);
    [apply length_encode_frame_header| |done|done|auto].
  rewrite <-(app_nil_r (encode_frame_header h)). by apply decode_encode_header.
Qed.

(** ** Invariant of the decoder *)

(** The bytes of the incomplete frame the decoder holds. *)
Definition consumed (d : FrameDecoder) : Buffer :=
  match header_ d with
  | None => take (header_bytes_size_ d) (header_bytes_ d)
  | Some _ => header_bytes_ d ++ take (payload_bytes_size_ d) (payload_ d)
  end.

Definition idle (d : FrameDecoder) : Prop :=
  header_ d = None ∧ (header_bytes_size_ d < frame_header_size)%nat ∧
  payload_ d = [] ∧ payload_bytes_size_ d = 0%nat.

Definition receiving (d : FrameDecoder) (h : FrameHeader) : Prop :=
  header_ d = Some h ∧ header_bytes_size_ d = frame_header_size ∧
  decode_frame_header (header_bytes_ d) = Some h ∧
  header_valid h (max_payload_size_ d) ∧
  Z.of_nat (length (payload_ d)) = payload_size h ∧
  (payload_bytes_size_ d ≤ length (payload_ d))%nat.

Definition rejected (d : FrameDecoder) (e : FrameValidationError) : Prop :=
  ∃ h, header_ d = None ∧ header_bytes_size_ d = frame_header_size ∧
    decode_frame_header (header_bytes_ d) = Some h ∧
    ¬ header_valid h (max_payload_size_ d) ∧ payload_ d = [] ∧
    e = validate_frame (mkFrame h []) (max_payload_size_ d).

Definition decoder_inv (d : FrameDecoder) : Prop :=
  length (header_bytes_ d) = frame_header_size ∧
  match error_ d with
  | None => idle d ∨
      ∃ h, receiving d h ∧ (payload_bytes_size_ d < length (payload_ d))%nat
  | Some e => rejected d e
  end.

Definition decoder_status (d : FrameDecoder) : ParseStatus :=
  match error_ d with
  | None => Incomplete (consumed d)
  | Some e => Malformed e
  end.

Lemma new_decoder_inv m : decoder_inv (new_decoder m).
Proof. split; [done|]. left. repeat split. unfold frame_header_size. simpl. lia. Qed.

Lemma reset_inv d : decoder_inv d → decoder_inv (reset d).
Proof. intros [Hl _]. split; [done|]. left. repeat split. unfold frame_header_size. simpl. lia. Qed.

Lemma copy_bytes_spec src dst n c dst' :
  (n ≤ length dst)%nat → copy_bytes src dst n = (c, dst') →
  c = Nat.min (length src) (length dst - n) ∧ length dst' = length dst ∧
  take (n + c) dst' = take n dst ++ take c src.
Proof.
  intros Hn [= <- <-]. set (c := Nat.min _ _).
  assert (length (take n dst ++ take c src) = (n + c)%nat) as Hlen.
  { rewrite length_app, !length_take. lia. }
  split_and!; [done| |].
  - rewrite app_assoc, length_app, Hlen, length_drop. lia.
  - by rewrite app_assoc, take_app_length'.
Qed.

Lemma parses_consumed d :
  decoder_inv d → error_ d = None → parses (max_payload_size_ d) (consumed d) [] (Incomplete (consumed d)).
Proof.
  intros [Hl Hi] He. rewrite He in Hi. unfold consumed.
  destruct Hi as [(-> & Hs & _)|(h & (-> & _ & Hd & Hv & Hp & _) & Hlt)].
  - apply parses_short. rewrite length_take. lia.
  - apply (parses_wait _ _ h); auto. rewrite length_take. lia.
Qed.

Lemma has_incomplete_frame_spec d :
  decoder_inv d → error_ d = None →
  has_incomplete_frame d = true ↔ consumed d ≠ [].
Proof.
  intros [Hl Hi] He. rewrite He in Hi. unfold has_incomplete_frame, consumed.
  destruct Hi as [(-> & Hs & _)|(h & (-> & _ & _) & _)].
  - rewrite bool_decide_eq_false_2 by (intros [? ?]; done). simpl.
    rewrite negb_true_iff, bool_decide_eq_false.
    destruct (header_bytes_size_ d), (header_bytes_ d); naive_solver.
  - rewrite bool_decide_eq_true_2 by eauto. simpl. split; [|done]. intros _ Hn.
    apply app_nil in Hn as [Hn _]. rewrite Hn in Hl. done.
Qed.

(** ** One iteration of the loop *)

(** Completing the header: the decoder rejects it or starts receiving the payload. *)
Lemma start_frame_spec d h :
  decode_frame_header (header_bytes_ d) = Some h →
  header_bytes_size_ d = frame_header_size → header_ d = None →
  payload_ d = [] → payload_bytes_size_ d = 0%nat → error_ d = None →
  (header_valid h (max_payload_size_ d) ∧ error_ (start_frame d) = None ∧
   receiving (start_frame d) h ∧ payload_bytes_size_ (start_frame d) = 0%nat ∨
   ¬ header_valid h (max_payload_size_ d) ∧
   error_ (start_frame d) = Some (validate_frame (mkFrame h []) (max_payload_size_ d)) ∧
   rejected (start_frame d) (validate_frame (mkFrame h []) (max_payload_size_ d))) ∧
  max_payload_size_ (start_frame d) = max_payload_size_ d ∧
  header_bytes_ (start_frame d) = header_bytes_ d.
Proof.
  intros Hd Hs Hh Hp Hb He. unfold start_frame. rewrite Hd.
  destruct (decode_frame_header_wf _ _ Hd) as (_ & _ & [Hn _]).
  set (v := validate_frame _ _).
  pose proof (validate_header_only h [] (max_payload_size_ d)) as Hv. fold v in Hv.
  destruct (decide (header_valid h (max_payload_size_ d))) as [Hok|Hbad].
  - assert (negb (bool_decide (v = FrameValidationError.none)) &&
      negb (bool_decide (v = FrameValidationError.payload_length_mismatch)) = false) as ->.
    { destruct (proj2 Hv Hok) as [-> | ->]; done. }
    split; [|done]. left. unfold receiving, resize_buffer. rewrite Hp. simpl.
    rewrite take_nil, Nat.sub_0_r. simpl. rewrite length_replicate, Hs, Hb. split_and!; try apply Hok; auto; lia.
  - assert (negb (bool_decide (v = FrameValidationError.none)) &&
      negb (bool_decide (v = FrameValidationError.payload_length_mismatch)) = true) as ->.
    { apply andb_true_iff. rewrite !negb_true_iff, !bool_decide_eq_false. naive_solver. }
    split; [|done]. right. split; [done|]. split; [done|]. exists h. by rewrite Hs, Hh, Hp.
Qed.

(** The three outcomes of the header phase. *)
Definition header_outcome (d : FrameDecoder) (bytes : Buffer) (d' : FrameDecoder)
    (bytes' : Buffer) (brk : bool) : Prop :=
  max_payload_size_ d' = max_payload_size_ d ∧
  length (header_bytes_ d') = frame_header_size ∧
  ((brk = true ∧ error_ d' = None ∧ idle d' ∧ consumed d' = consumed d ++ bytes) ∨
   (∃ h, brk = true ∧ error_ d' = Some (validate_frame (mkFrame h []) (max_payload_size_ d)) ∧
      rejected d' (validate_frame (mkFrame h []) (max_payload_size_ d)) ∧
      consumed d ++ bytes = header_bytes_ d' ++ bytes' ∧
      decode_frame_header (header_bytes_ d') = Some h ∧
      ¬ header_valid h (max_payload_size_ d)) ∨
   (∃ h, brk = false ∧ error_ d' = None ∧ receiving d' h ∧ payload_bytes_size_ d' = 0%nat ∧
      consumed d ++ bytes = header_bytes_ d' ++ bytes' ∧
      (length bytes' < length bytes)%nat)).

Lemma push_header_idle d bytes d' bytes' brk :
  length (header_bytes_ d) = frame_header_size → idle d → error_ d = None → bytes ≠ [] →
  push_header d bytes = (d', bytes', brk) → header_outcome d bytes d' bytes' brk.
Proof.
  intros Hl (Hh & Hs & Hp & Hb) He Hne. unfold push_header. rewrite Hh.
  destruct (copy_bytes _ _ _) as [c hb] eqn:Hc.
  apply copy_bytes_spec in Hc as (Hcv & Hlb & Hcont); [|lia]. rewrite Hl in *.
  assert (consumed d ++ bytes = take (header_bytes_size_ d + c) hb ++ drop c bytes) as Hcons.
  { rewrite Hcont, <-app_assoc, take_drop. unfold consumed. by rewrite Hh. }
  assert (length bytes ≠ 0)%nat by (destruct bytes; done).
  cbn [header_bytes_size_]. case_decide as Hlt; intros [= <- <- <-]; unfold header_outcome;
    (split; [|split; [|]]).
  - done.
  - simpl. lia.
  - left. split_and!; [done|done|done|]. rewrite Hcons. unfold consumed. simpl.
    assert (c = length bytes) as -> by lia. by rewrite drop_all, app_nil_r.
  - by unfold start_frame; repeat case_match.
  - unfold start_frame; repeat case_match; simpl; lia.
  - set (d1 := mkDecoder _ _ _ _ _ _ _).
    assert (header_bytes_size_ d + c = frame_header_size)%nat as Hfull by lia.
    assert (take (header_bytes_size_ d + c) hb = hb) as Htk.
    { rewrite Hfull, <-Hlb. by rewrite firstn_all. }
    rewrite Htk in Hcons.
    destruct (decode_frame_header_Some hb) as [h Hdec]; [lia|].
    destruct (start_frame_spec d1 h) as ([(Hok & Her & Hrec & Hb0)|(Hbad & Her & Hrej)] & _ & Hhb);
      try done; rewrite Her, Hhb; simpl in *; right; [right|left]; exists h.
    + split_and!; try done. rewrite length_drop. lia.
    + split_and!; done.
Qed.

(** The payload phase completes the frame or absorbs all bytes. *)
Lemma push_payload_spec d bytes frames h :
  length (header_bytes_ d) = frame_header_size → receiving d h → error_ d = None →
  ∃ d' bytes' p, 
    max_payload_size_ d' = max_payload_size_ d ∧ decoder_inv d' ∧ error_ d' = None ∧
    ((push_payload d bytes frames = Some (d', bytes', frames ++ [mkFrame h p]) ∧
      consumed d ++ bytes = header_bytes_ d ++ p ++ bytes' ∧ consumed d' = [] ∧
      Z.of_nat (length p) = payload_size h ∧
      (length bytes' + length (payload_ d) = length bytes + payload_bytes_size_ d)%nat) ∨
     (push_payload d bytes frames = Some (d', [], frames) ∧
      consumed d' = consumed d ++ bytes)).
Proof.
  intros Hl (Hh & Hs & Hd & Hv & Hp & Hb) He. unfold push_payload, consumed. rewrite Hh.
  destruct (copy_bytes _ _ _) as [c p'] eqn:Hc.
  apply copy_bytes_spec in Hc as (Hcv & Hlp & Hcont); [|done].
  assert (take (payload_bytes_size_ d) (payload_ d) ++ bytes
    = take (payload_bytes_size_ d + c) p' ++ drop c bytes) as Hcons.
  { by rewrite Hcont, <-app_assoc, take_drop. }
  cbn [payload_bytes_size_ payload_ header_]. case_decide as Hfull.
  - exists (mkDecoder (max_payload_size_ d) (header_bytes_ d) 0 None [] 0 (error_ d)), (drop c bytes), p'.
    split_and!; [| | |left; split_and!]; try reflexivity; try done.
    + split; [done|]. rewrite He. left. repeat split. simpl. apply header_size_pos.
    + rewrite <-app_assoc, Hcons, Hfull. by rewrite firstn_all.
    + lia.
    + rewrite length_drop. lia.
  - assert (c = length bytes) as Hcb by lia.
    exists (mkDecoder (max_payload_size_ d) (header_bytes_ d) (header_bytes_size_ d) (Some h)
      p' (payload_bytes_size_ d + c) (error_ d)), [], [].
    split_and!; [| | |right; split_and!]; try reflexivity.
    + split; [done|]. simpl. rewrite He. right. exists h. unfold receiving. simpl.
      split_and!; try done; lia.
    + done.
    + by rewrite Hcb, drop_all.
    + simpl. rewrite <-app_assoc, Hcons, Hcb, drop_all, app_nil_r. done.
Qed.

(** ** The loop refines the specification *)

Definition push_ok (d : FrameDecoder) (bytes : Buffer) (frames : list Frame)
    (r : option (FrameDecoder * list Frame)) : Prop :=
  ∃ d' fs, r = Some (d', frames ++ fs) ∧ decoder_inv d' ∧
    max_payload_size_ d' = max_payload_size_ d ∧
    parses (max_payload_size_ d) (consumed d ++ bytes) fs (decoder_status d').

(** From the payload phase on, the rest of the loop meets its specification if the loop
    does so with the remaining fuel. *)
Lemma push_loop_payload fuel d bytes frames h :
  (∀ d bytes frames, decoder_inv d → error_ d = None → (length bytes ≤ fuel)%nat →
     push_ok d bytes frames (push_loop fuel d bytes frames)) →
  length (header_bytes_ d) = frame_header_size → receiving d h → error_ d = None →
  (length bytes + payload_bytes_size_ d ≤ fuel + length (payload_ d))%nat →
  push_ok d bytes frames
    (match push_payload d bytes frames with
     | None => None
     | Some (d, bytes, frames) => push_loop fuel d bytes frames
     end).
Proof.
  intros IH Hl Hrec He Hfuel.
  destruct (push_payload_spec d bytes frames h) as (d' & bytes' & p & Hm & Hi & He' & Hout); auto.
  pose proof Hrec as (_ & _ & Hd & Hv & _).
  destruct Hout as [(-> & Hc & Hc' & Hp & Hlen)|(-> & Hc)].
  - destruct (IH d' bytes' (frames ++ [mkFrame h p])) as (d2 & fs & -> & Hi2 & Hm2 & Hps);
      [done|done|lia|].
    exists d2, (mkFrame h p :: fs). rewrite <-app_assoc. split_and!; [done|done|congruence|].
    rewrite Hc. rewrite Hm, Hc' in Hps. by apply (parses_frame _ (header_bytes_ d) h p).
  - assert (push_loop fuel d' [] frames = Some (d', frames)) as -> by (destruct fuel; done).
    exists d', []. rewrite app_nil_r. split_and!; [done|done|done|].
    rewrite <-Hc, <-Hm. unfold decoder_status. rewrite He'. by apply parses_consumed.
Qed.

Lemma push_loop_ok fuel d bytes frames :
  decoder_inv d → error_ d = None → (length bytes ≤ fuel)%nat →
  push_ok d bytes frames (push_loop fuel d bytes frames).
Proof.
  revert d bytes frames. induction fuel as [|fuel IH]; intros d bytes frames Hi He Hfuel.
  all: destruct (decide (bytes = [])) as [->|Hne];
    [exists d, []; rewrite !app_nil_r; split_and!; try done;
     unfold decoder_status; rewrite He; by apply parses_consumed|].
  { destruct bytes; simpl in *; [done|lia]. }
  cbn [push_loop]. rewrite bool_decide_eq_false_2, He by done.
  rewrite bool_decide_eq_false_2 by (intros [? ?]; done). simpl.
  destruct Hi as [Hl Hi]. rewrite He in Hi. destruct Hi as [Hidle|(h & Hrec & Hlt)].
  - destruct (push_header d bytes) as [[d1 bytes1] brk] eqn:Hph.
    apply push_header_idle in Hph as (Hm & Hl1 & Hout); auto.
    destruct Hout as [(-> & He1 & Hi1 & Hc)|[(h & -> & He1 & Hrej & Hc & Hd & Hbad)
      |(h & -> & He1 & Hrec & Hb0 & Hc & Hlt)]].
    + assert (decoder_inv d1) by (split; [done|]; rewrite He1; by left).
      exists d1, []. rewrite app_nil_r. split_and!; auto.
      rewrite <-Hc, <-Hm. unfold decoder_status. rewrite He1. by apply parses_consumed.
    + exists d1, []. rewrite app_nil_r. split_and!; auto.
      * split; [done|]. by rewrite He1.
      * rewrite Hc. unfold decoder_status. rewrite He1. by apply parses_malformed.
    + destruct (push_loop_payload fuel d1 bytes1 frames h) as (d2 & fs & Hr & Hi2 & Hm2 & Hps);
        auto; [lia|]. rewrite Hm in Hps, Hm2.
      exists d2, fs. split_and!; auto. rewrite Hc.
      unfold consumed in Hps. destruct Hrec as (Hh & _).
      by rewrite Hh, Hb0, take_0, app_nil_r in Hps.
  - unfold push_header. rewrite (proj1 Hrec). apply (push_loop_payload fuel d bytes frames h); auto. lia.
Qed.

Lemma push_spec d bytes :
  decoder_inv d → error_ d = None →
  ∃ d' fs, push d bytes = Some (d', fs) ∧ decoder_inv d' ∧
    max_payload_size_ d' = max_payload_size_ d ∧
    parses (max_payload_size_ d) (consumed d ++ bytes) fs (decoder_status d').
Proof. intros Hi He. apply (push_loop_ok (length bytes) d bytes []); auto. Qed.

Lemma push_error d bytes e : error_ d = Some e → push d bytes = Some (d, []).
Proof.
  intros He. unfold push. destruct bytes; cbn [push_loop length]; [done|].
  by rewrite He, orb_true_r.
Qed.

Lemma push_inv d bytes :
  decoder_inv d → ∃ d' fs, push d bytes = Some (d', fs) ∧ decoder_inv d' ∧
    max_payload_size_ d' = max_payload_size_ d.
Proof.
  intros Hi. destruct (error_ d) as [e|] eqn:He.
  - rewrite (push_error _ _ e) by done. eauto.
  - destruct (push_spec d bytes) as (d' & fs & ? & ? & ? & _); eauto.
Qed.

(** Any sequence of pushes refines the specification on the concatenated bytes. *)
Lemma push_all_spec chunks : ∀ d,
  decoder_inv d → error_ d = None →
  ∃ d' fs, push_all d chunks = Some (d', fs) ∧ decoder_inv d' ∧
    max_payload_size_ d' = max_payload_size_ d ∧
    parses (max_payload_size_ d) (consumed d ++ concat chunks) fs (decoder_status d').
Proof.
  induction chunks as [|chunk chunks IH]; intros d Hi He.
  { exists d, []. rewrite app_nil_r. split_and!; auto.
    unfold decoder_status. rewrite He. by apply parses_consumed. }
  destruct (push_spec d chunk Hi He) as (d1 & fs1 & Hp1 & Hi1 & Hm1 & Hs1).
  cbn [push_all concat]. rewrite Hp1, app_assoc. unfold decoder_status in Hs1.
  destruct (error_ d1) as [e|] eqn:He1.
  - assert (push_all d1 chunks = Some (d1, [])) as ->.
    { clear -He1. induction chunks as [|c cs IH]; [done|]. simpl. by rewrite (push_error _ _ e), IH. }
    exists d1, (fs1 ++ []). rewrite app_nil_r. split_and!; auto.
    unfold decoder_status. rewrite He1. by apply parses_malformed_more.
  - destruct (IH d1 Hi1 He1) as (d2 & fs2 & -> & Hi2 & Hm2 & Hs2).
    exists d2, (fs1 ++ fs2). split_and!; auto; [congruence|].
    rewrite Hm1 in Hs2. eapply parses_resume; eauto.
Qed.

Lemma push_all_new m chunks :
  ∃ d fs, push_all (new_decoder m) chunks = Some (d, fs) ∧ decoder_inv d ∧
    max_payload_size_ d = m ∧ parses m (concat chunks) fs (decoder_status d).
Proof. exact (push_all_spec chunks (new_decoder m) (new_decoder_inv m) eq_refl). Qed.

Lemma decoder_payload_bound d :
  0 ≤ max_payload_size_ d → decoder_inv d →
  Z.of_nat (length (payload_ d)) ≤ max_payload_size_ d.
Proof.
  intros Hm [_ Hi]. destruct (error_ d) as [e|].
  - destruct Hi as (h & _ & _ & _ & _ & -> & _). done.
  - destruct Hi as [(_ & _ & -> & _)|(h & (_ & _ & _ & Hv & -> & _) & _)]; [done|apply Hv].
Qed.

(** Any chunking of encoded valid frames decodes to them. *)
Lemma push_all_encode m fs chunks :
  Forall (λ f, header_wf (header f) ∧ frame_valid f m) fs →
  concat chunks = concat (encode_frame <$> fs) →
  ∃ d, push_all (new_decoder m) chunks = Some (d, fs) ∧
    decoder_error d = None ∧ has_incomplete_frame d = false.
Proof.
  intros Hfs Hc. destruct (push_all_new m chunks) as (d & fs' & Hp & Hi & Hm & Hs).
  assert (parses m (concat chunks) fs (Incomplete [])) as Hs'.
  { pose proof (parses_encode m fs [] [] (Incomplete []) Hfs) as H.
    rewrite !app_nil_r in H. rewrite Hc. apply H, parses_short, header_size_pos. }
  destruct (parses_det _ _ _ _ _ _ Hs Hs') as [-> Hst]. exists d. unfold decoder_status in Hst.
  destruct (error_ d) eqn:He; [done|]. injection Hst as Hst. split_and!; [done|done|].
  apply not_true_iff_false. rewrite has_incomplete_frame_spec by done. auto.
Qed.

(** ** Properties *)

(** C1: every chunking of the encoding of a sequence of valid frames decodes to exactly
    that sequence, without an error and without leftover bytes: [FrameDecoder::push]
    inverts [encode_frame] however the transport fragments the stream. *)
Theorem push_roundtrip m fs chunks :
  Forall (λ f, header_wf (header f) ∧ frame_valid f m) fs →
  concat chunks = concat (encode_frame <$> fs) →
  ∃ d, push_all (new_decoder m) chunks = Some (d, fs) ∧
    decoder_error d = None ∧ has_incomplete_frame d = false.
Proof. apply push_all_encode. Qed.

(** The frames a decoder returns, its error and whether it holds an incomplete frame
    depend only on the bytes received, never on how [push] calls split them, for arbitrary
    (also malformed) input. *)
Theorem push_chunking_independent m chunks chunks' :
  concat chunks = concat chunks' →
  ∃ d d' fs, push_all (new_decoder m) chunks = Some (d, fs) ∧
    push_all (new_decoder m) chunks' = Some (d', fs) ∧
    decoder_error d = decoder_error d' ∧
    (decoder_error d = None → has_incomplete_frame d = has_incomplete_frame d').
Proof.
  intros Hc. destruct (push_all_new m chunks) as (d & fs & Hp & Hi & Hm & Hs).
  destruct (push_all_new m chunks') as (d' & fs' & Hp' & Hi' & Hm' & Hs').
  rewrite Hc in Hs. destruct (parses_det _ _ _ _ _ _ Hs Hs') as [-> Hst].
  exists d, d', fs'. unfold decoder_status, decoder_error in *.
  destruct (error_ d) eqn:He, (error_ d') eqn:He'; simplify_eq; split_and!; auto; try done.
  intros _. apply eq_true_iff_eq. rewrite !has_incomplete_frame_spec by done.
  split; congruence.
Qed.

(** C2: [push] refines the declarative parser [parses]: on a decoder without error it
    returns (it terminates and never dereferences an empty optional), keeps the invariant,
    and the bytes held before the call followed by the new bytes parse to the returned
    frames and to the decoder's new status. *)
Theorem push_refines_parses d bytes :
  decoder_inv d → decoder_error d = None →
  ∃ d' fs, push d bytes = Some (d', fs) ∧ decoder_inv d' ∧
    parses (max_payload_size_ d) (consumed d ++ bytes) fs (decoder_status d').
Proof. intros Hi He. destruct (push_spec d bytes) as (d' & fs & ? & ? & _ & ?); eauto. Qed.

(** Whatever bytes arrive, every frame handed to the connection passes
    [validate_frame], and the payload buffer never grows beyond the configured limit. *)
Theorem push_only_valid_frames m chunks :
  0 ≤ m ≤ uint32_max →
  ∃ d fs, push_all (new_decoder m) chunks = Some (d, fs) ∧
    Forall (λ f, validate_frame f m = FrameValidationError.none) fs ∧
    Z.of_nat (length (payload_ d)) ≤ m.
Proof.
  intros Hm. destruct (push_all_new m chunks) as (d & fs & Hp & Hi & Hmd & Hs).
  exists d, fs. split_and!; [done| |].
  - eapply Forall_impl; [apply (parses_valid m _ _ _ (proj2 Hm) Hs)|].
    intros f Hf. by apply validate_frame_none.
  - rewrite <-Hmd. apply decoder_payload_bound; [lia|done].
Qed.

(** A malformed header after valid frames is detected however the bytes are split:
    the valid frames before it are delivered, the error is the verdict of [validate_frame]
    on that header, and later bytes produce nothing. *)
Theorem push_malformed_header m fs h rest chunks more :
  Forall (λ f, header_wf (header f) ∧ frame_valid f m) fs →
  header_wf h → ¬ header_valid h m →
  concat chunks = concat (encode_frame <$> fs) ++ encode_frame_header h ++ rest →
  ∃ d, push_all (new_decoder m) chunks = Some (d, fs) ∧
    decoder_error d = Some (validate_frame (mkFrame h []) m) ∧
    push d more = Some (d, []).
Proof.
  intros Hfs Hwf Hbad Hc. destruct (push_all_new m chunks) as (d & fs' & Hp & Hi & Hm & Hs).
  assert (parses m (concat chunks) (fs ++ []) (Malformed (validate_frame (mkFrame h []) m))) as Hs'.
  { rewrite Hc. apply parses_encode; [done|].
    apply parses_malformed; [apply length_encode_frame_header| |done].
    rewrite <-(app_nil_r (encode_frame_header h)). by apply decode_encode_header. }
  rewrite app_nil_r in Hs'. destruct (parses_det _ _ _ _ _ _ Hs Hs') as [-> Hst].
  exists d. unfold decoder_status in Hst. destruct (error_ d) as [e|] eqn:He; [|done].
  injection Hst as ->. split_and!; [done|done|]. by eapply push_error.
Qed.

(** After [reset] a decoder, in whatever state its input left it, behaves like a newly
    constructed one on every further input. *)
Theorem reset_behaves_like_new d chunks :
  decoder_inv d →
  ∃ d1 d2 fs, push_all (reset d) chunks = Some (d1, fs) ∧
    push_all (new_decoder (max_payload_size_ d)) chunks = Some (d2, fs) ∧
    decoder_error d1 = decoder_error d2.
Proof.
  intros Hi. destruct (push_all_spec chunks (reset d)) as (d1 & fs1 & Hp1 & Hi1 & _ & Hs1);
    [by apply reset_inv|done|].
  destruct (push_all_new (max_payload_size_ d) chunks) as (d2 & fs2 & Hp2 & Hi2 & _ & Hs2).
  change (consumed (reset d)) with (take 0 (header_bytes_ d)) in Hs1. rewrite take_0 in Hs1.
  destruct (parses_det _ _ _ _ _ _ Hs1 Hs2) as [-> Hst]. exists d1, d2, fs2.
  unfold decoder_status, decoder_error in *.
  destruct (error_ d1), (error_ d2); split_and!; congruence.
Qed.

(** ** Witnesses *)

Definition sample_request : Frame :=
  mkFrame (mkHeader current_protocol_version FrameType.request FrameFlags.none (mkId 7) 3)
    [x01; x02; x03].

Definition sample_cancel : Frame :=
  mkFrame (mkHeader current_protocol_version FrameType.request
    (flags_or FrameFlags.cancel FrameFlags.end_of_stream) (mkId 9) 0) [].

Definition sample_bytes : Buffer := encode_frame sample_request ++ encode_frame sample_cancel.

(** A header without a stream, which [validate_frame] rejects. *)
Definition bad_header : FrameHeader :=
  mkHeader current_protocol_version FrameType.request FrameFlags.none default_id 0.

Lemma push_roundtrip_witness :
  ∃ d, push_all (new_decoder 32) [take 5 sample_bytes; drop 5 sample_bytes]
      = Some (d, [sample_request; sample_cancel]) ∧
    decoder_error d = None ∧ has_incomplete_frame d = false.
Proof. apply push_roundtrip; [vm_decide|vm_compute; reflexivity]. Defined.

Lemma push_chunking_independent_witness :
  ∃ d d' fs, push_all (new_decoder 32) [take 20 sample_bytes; drop 20 sample_bytes] = Some (d, fs) ∧
    push_all (new_decoder 32) [sample_bytes] = Some (d', fs) ∧
    decoder_error d = decoder_error d' ∧
    (decoder_error d = None → has_incomplete_frame d = has_incomplete_frame d').
Proof. apply push_chunking_independent. vm_compute. reflexivity. Defined.

Lemma push_refines_parses_witness :
  ∃ d' fs, push (new_decoder 32) sample_bytes = Some (d', fs) ∧ decoder_inv d' ∧
    parses 32 (consumed (new_decoder 32) ++ sample_bytes) fs (decoder_status d').
Proof. apply (push_refines_parses (new_decoder 32)); [apply new_decoder_inv|reflexivity]. Defined.

Lemma push_only_valid_frames_witness :
  ∃ d fs, push_all (new_decoder 2) [sample_bytes] = Some (d, fs) ∧
    Forall (λ f, validate_frame f 2 = FrameValidationError.none) fs ∧
    Z.of_nat (length (payload_ d)) ≤ 2.
Proof. apply push_only_valid_frames. vm_decide. Defined.

Lemma push_malformed_header_witness :
  ∃ d, push_all (new_decoder 32)
      [encode_frame sample_request; encode_frame_header bad_header ++ [x2a]]
      = Some (d, [sample_request]) ∧
    decoder_error d = Some FrameValidationError.invalid_stream ∧
    push d sample_bytes = Some (d, []).
Proof.
  apply (push_malformed_header 32 [sample_request] bad_header [x2a]);
    [vm_decide|vm_decide|vm_decide|vm_compute; reflexivity].
Defined.

Lemma reset_behaves_like_new_witness :
  ∃ d1 d2 fs, push_all (reset (new_decoder 32)) [sample_bytes] = Some (d1, fs) ∧
    push_all (new_decoder 32) [sample_bytes] = Some (d2, fs) ∧
    decoder_error d1 = decoder_error d2.
Proof. apply (reset_behaves_like_new (new_decoder 32)). apply new_decoder_inv. Defined.
