(* ===== verification/ProtocolViolation.v ===== *)
(** * Protocol violations and error frames

    [include/rillnet/protocol_violation.hpp]: the status reported for a malformed frame, the
    error frame that carries a status to the peer, and its decoding. *)

From S2P Require Import Prelude Identifiers Status Frame FrameCodec.

Local Open Scope Z_scope.
Local Open Scope rill_scope.

Definition status_for_frame_validation (e : FrameValidationError) : StatusCode :=
  if decide (e = FrameValidationError.unsupported_version)
  then StatusCode.unsupported_version else StatusCode.malformed_frame.

Definition make_error_frame (s : StreamId) (status : StatusCode) : Frame :=
  let v := StatusCode.code status in
  let p := replicate 2 x00 in
  let p := <[0%nat := u8 (Z.land (Z.shiftr v 8) 255)]> p in
  let p := <[1%nat := u8 (Z.land v 255)]> p in
  mkFrame
    (mkHeader (version default_header) FrameType.response
       (flags_or FrameFlags.error FrameFlags.end_of_stream) s
       (uwrap 32 (Z.of_nat (length p))))
    p.

Definition decode_error_status (frame : Frame) : option StatusCode :=
  if negb (bool_decide (length (payload frame) = 2%nat)) then None
  else
    let v := Z.lor (Z.shiftl (b2z (payload frame).[0]) 8) (b2z (payload frame).[1]) in
    match v with
    | 2000 | 2001 | 2002 | 2003 | 3000 | 3001 | 3002 | 4000 | 5000 | 6000 | 7000 =>
        Some (StatusCode.cast v)
    | _ => None
    end.

Definition frame_validation_message (e : FrameValidationError) : string :=
  match e with
  | FrameValidationError.unsupported_version => "unsupported protocol version"
  | FrameValidationError.unknown_frame_type => "unknown frame type"
  | FrameValidationError.unknown_flags => "unknown frame flags"
  | FrameValidationError.invalid_flag_combination => "invalid frame flag combination"
  | FrameValidationError.invalid_stream => "invalid stream identifier"
  | FrameValidationError.payload_length_mismatch => "payload length mismatch"
  | FrameValidationError.payload_too_large => "payload exceeds configured limit"
  | FrameValidationError.none => "no frame validation error"
  end.

(** ** Lemmas *)

(** The statuses a peer accepts in an error frame. *)
Definition wire_statuses : list StatusCode :=
  [StatusCode.protocol_error; StatusCode.unsupported_version; StatusCode.malformed_frame;
   StatusCode.unknown_stream; StatusCode.serialization_error; StatusCode.unknown_message_type;
   StatusCode.decode_error; StatusCode.operation_error; StatusCode.timeout_error;
   StatusCode.cancelled; StatusCode.resource_limit_exceeded].

Lemma make_error_frame_payload s status :
  payload (make_error_frame s status) = be_bytes 2 (StatusCode.code status).
Proof.
  unfold make_error_frame. cbn -[Z.pow Z.shiftr Z.land].
  rewrite (u8_shiftr _ 8 1), u8_land_255 by lia. by rewrite Z.div_1_r.
Qed.

(** [decode_error_status] as a test on the 16-bit value. *)
Lemma decode_error_status_val f a b :
  payload f = [a; b] →
  decode_error_status f =
    if decide (StatusCode.cast (be_val [a; b]) ∈ wire_statuses)
    then Some (StatusCode.cast (be_val [a; b])) else None.
Proof.
  intros Hp. unfold decode_error_status. rewrite Hp. cbn -[Z.shiftl decide be_val].
  rewrite lor_shiftl_8. replace (be_val [a; b]) with (b2z a * 256 + b2z b) by (cbn; lia).
  pose proof (b2z_range a). pose proof (b2z_range b).
  generalize dependent (b2z a * 256 + b2z b). intros v. case_decide as Hin.
  - rewrite !list_elem_of_In in Hin. simpl in Hin.
    repeat destruct Hin as [[= <-]|Hin]; try done.
  - repeat case_match; subst; try done; exfalso; apply Hin; vm_decide.
Qed.

Lemma error_frame_decode s status :
  status_wf status →
  decode_error_status (make_error_frame s status) =
    if decide (status ∈ wire_statuses) then Some status else None.
Proof.
  intros Hwf. unfold status_wf, in_u in Hwf.
  erewrite decode_error_status_val by apply make_error_frame_payload.
  change [u8 _; u8 _] with (be_bytes 2 (StatusCode.code status)).
  rewrite be_val_be_bytes, Z.mod_small by done. by destruct status.
Qed.

Lemma error_frame_valid s status m :
  2 ≤ m → value s ≠ 0 → frame_valid (make_error_frame s status) m.
Proof.
  intros Hm Hs. split; [|done]. unfold header_valid. split_and!; try done; auto.
  vm_compute. naive_solver.
Qed.

(** ** Properties *)

(** An error frame is valid, survives the wire, and its status is recovered by the
    peer exactly when it is one of the eleven statuses [decode_error_status] accepts; any
    other 16-bit status, in particular every transport status, is reported as malformed. *)
Theorem error_frame_roundtrip s status m :
  2 ≤ m → value s ≠ 0 → stream_wf s → status_wf status →
  validate_frame (make_error_frame s status) m = FrameValidationError.none ∧
  header_wf (header (make_error_frame s status)) ∧
  decode_error_status (make_error_frame s status) =
    (if decide (status ∈ wire_statuses) then Some status else None).
Proof.
  intros Hm Hs Hsw Hw. split_and!.
  - by apply validate_frame_none, error_frame_valid.
  - split; [vm_decide|]. split; [done|vm_decide].
  - by apply error_frame_decode.
Qed.

Lemma error_frame_roundtrip_witness :
  validate_frame (make_error_frame (mkId 5) StatusCode.decode_error) 16 = FrameValidationError.none ∧
  header_wf (header (make_error_frame (mkId 5) StatusCode.decode_error)) ∧
  decode_error_status (make_error_frame (mkId 5) StatusCode.decode_error) =
    (if decide (StatusCode.decode_error ∈ wire_statuses) then Some StatusCode.decode_error else None).
Proof. apply error_frame_roundtrip; vm_decide. Defined.
