(* ===== verification/Lifecycle.v ===== *)
(** * Connection and operation life cycles

    [include/rillnet/lifecycle.hpp]: the two state machines, with the transitions they
    accept. *)

From S2P Require Import Prelude.

Module ConnectionState.
Inductive ConnectionState :=
  | created
  | connecting
  | accepting
  | active
  | draining
  | closing
  | closed.
End ConnectionState.
Abbreviation ConnectionState := ConnectionState.ConnectionState.

Module OperationState.
Inductive OperationState :=
  | created
  | active
  | completed
  | failed
  | cancelled.
End OperationState.
Abbreviation OperationState := OperationState.OperationState.

Module LifecycleTransitionError.
Inductive LifecycleTransitionError :=
  | none
  | invalid_transition.
End LifecycleTransitionError.
Abbreviation LifecycleTransitionError := LifecycleTransitionError.LifecycleTransitionError.

#[export] Instance ConnectionState_eq_dec : EqDecision ConnectionState.
Proof. solve_decision. Defined.

#[export] Instance OperationState_eq_dec : EqDecision OperationState.
Proof. solve_decision. Defined.

#[export] Instance LifecycleTransitionError_eq_dec : EqDecision LifecycleTransitionError.
Proof. solve_decision. Defined.

(** [can_transition] is overloaded in C++, once per state machine. *)
Definition connection_can_transition (from to : ConnectionState) : bool :=
  match from with
  | ConnectionState.created =>
      bool_decide (to = ConnectionState.connecting) || bool_decide (to = ConnectionState.accepting)
  | ConnectionState.connecting
  | ConnectionState.accepting => bool_decide (to = ConnectionState.active)
  | ConnectionState.active =>
      bool_decide (to = ConnectionState.draining) || bool_decide (to = ConnectionState.closing)
      || bool_decide (to = ConnectionState.closed)
  | ConnectionState.draining =>
      bool_decide (to = ConnectionState.closing) || bool_decide (to = ConnectionState.closed)
  | ConnectionState.closing => bool_decide (to = ConnectionState.closed)
  | ConnectionState.closed => false
  end.

Definition operation_can_transition (from to : OperationState) : bool :=
  match from with
  | OperationState.created => bool_decide (to = OperationState.active)
  | OperationState.active =>
      bool_decide (to = OperationState.completed) || bool_decide (to = OperationState.failed)
      || bool_decide (to = OperationState.cancelled)
  | OperationState.completed
  | OperationState.failed
  | OperationState.cancelled => false
  end.

(** The [transition] member functions: the state is unchanged when the transition is not
    allowed. *)
Definition connection_transition (state_ next : ConnectionState)
    : LifecycleTransitionError * ConnectionState :=
  if negb (connection_can_transition state_ next)
  then (LifecycleTransitionError.invalid_transition, state_)
  else (LifecycleTransitionError.none, next).

Definition operation_transition (state_ next : OperationState)
    : LifecycleTransitionError * OperationState :=
  if negb (operation_can_transition state_ next)
  then (LifecycleTransitionError.invalid_transition, state_)
  else (LifecycleTransitionError.none, next).

(** ** Lemmas *)

Definition op_terminal (s : OperationState) : bool :=
  match s with
  | OperationState.completed | OperationState.failed | OperationState.cancelled => true
  | _ => false
  end.

(** A state machine is driven by a sequence of requested states; the accepted ones are its
    history. *)
Fixpoint connection_history (s : ConnectionState) (reqs : list ConnectionState)
    : list ConnectionState * ConnectionState :=
  match reqs with
  | [] => ([], s)
  | next :: reqs' =>
      let '(err, s') := connection_transition s next in
      let '(hist, final) := connection_history s' reqs' in
      ((if decide (err = LifecycleTransitionError.none) then [next] else []) ++ hist, final)
  end.

Definition connection_rank (s : ConnectionState) : nat :=
  match s with
  | ConnectionState.created => 0
  | ConnectionState.connecting | ConnectionState.accepting => 1
  | ConnectionState.active => 2
  | ConnectionState.draining => 3
  | ConnectionState.closing => 4
  | ConnectionState.closed => 5
  end.

Lemma connection_can_transition_rank s t :
  connection_can_transition s t = true → connection_rank s < connection_rank t.
Proof. destruct s, t; simpl; try done; lia. Qed.

Lemma connection_transition_rank s t :
  connection_rank s ≤ connection_rank (connection_transition s t).2.
Proof.
  unfold connection_transition. destruct (connection_can_transition s t) eqn:E; simpl; [|done].
  apply connection_can_transition_rank in E. lia.
Qed.

Lemma connection_history_rank reqs s :
  length (connection_history s reqs).1 + connection_rank s
    ≤ connection_rank (connection_history s reqs).2.
Proof.
  revert s. induction reqs as [|next reqs IH]; intros s; simpl; [lia|].
  unfold connection_transition. destruct (connection_can_transition s next) eqn:E; simpl.
  - specialize (IH next). destruct (connection_history next reqs) as [hist final]. simpl in *.
    apply connection_can_transition_rank in E. lia.
  - specialize (IH s). destruct (connection_history s reqs) as [hist final]. simpl in *. lia.
Qed.

(** Draining, closing and closed are never left for an earlier phase. *)
Lemma connection_shutting_down_stable s t :
  3 ≤ connection_rank s → 3 ≤ connection_rank (connection_transition s t).2.
Proof. pose proof (connection_transition_rank s t). lia. Qed.

Lemma connection_transition_closed s t :
  (connection_transition s t).2 = ConnectionState.closed ↔
  s = ConnectionState.closed ∨ t = ConnectionState.closed ∧ 2 ≤ connection_rank s.
Proof. destruct s, t; cbn; naive_solver lia. Qed.

Lemma op_terminal_transition s t :
  op_terminal s = true → operation_transition s t = (LifecycleTransitionError.invalid_transition, s).
Proof. destruct s, t; done. Qed.

Lemma operation_transition_terminal s t :
  op_terminal t = true →
  operation_transition s t =
    (if decide (s = OperationState.active) then (LifecycleTransitionError.none, t)
     else (LifecycleTransitionError.invalid_transition, s)).
Proof. destruct s, t; done. Qed.

(** A connection is created, active, draining or closed between two steps. *)
Definition settled_state (s : ConnectionState) : Prop :=
  s ≠ ConnectionState.connecting ∧ s ≠ ConnectionState.accepting ∧ s ≠ ConnectionState.closing.

Lemma settled_transition s next :
  next = ConnectionState.draining ∨ next = ConnectionState.closed → settled_state s →
  settled_state (connection_transition s next).2.
Proof. intros [-> | ->] (? & ? & ?); destruct s; done. Qed.

(** ** Properties *)

(** Whatever transitions are requested, at most five are ever accepted, every accepted
    one moves the connection strictly forward, and a closed connection accepts none. *)
Theorem connection_lifecycle_forward reqs s :
  length (connection_history s reqs).1 + connection_rank s
    ≤ connection_rank (connection_history s reqs).2 ∧
  length (connection_history s reqs).1 ≤ 5 ∧
  connection_history ConnectionState.closed reqs = ([], ConnectionState.closed).
Proof.
  pose proof (connection_history_rank reqs s) as H. split_and!; [done| |].
  - assert (connection_rank (connection_history s reqs).2 ≤ 5)
      by (destruct (connection_history s reqs).2; simpl; lia). lia.
  - clear. induction reqs as [|next reqs IH]; simpl; [done|]. by rewrite IH.
Qed.
