(* ===== verification/Diagnostics.v ===== *)
(** * Diagnostics

    [include/rillnet/diagnostics.hpp]: the events reported to the application and the
    notification function, which swallows whatever the observer throws. *)

From S2P Require Import Prelude Identifiers Status.

Local Open Scope Z_scope.

Module DiagnosticsEventType.
Inductive DiagnosticsEventType :=
  | connection_opened
  | connection_closed
  | request_started
  | request_completed
  | cancellation
  | timeout
  | protocol_error
  | bytes_transferred
  | message_transferred.
End DiagnosticsEventType.
Abbreviation DiagnosticsEventType := DiagnosticsEventType.DiagnosticsEventType.

#[export] Instance DiagnosticsEventType_eq_dec : EqDecision DiagnosticsEventType.
Proof. solve_decision. Defined.

Record DiagnosticsEvent := mkEvent {
  ev_type : DiagnosticsEventType;
  ev_stream : StreamId;
  ev_status : StatusCode;
  ev_bytes : Z;
  ev_inbound : bool;
  ev_message : string;
}.

#[export] Instance DiagnosticsEvent_eq_dec : EqDecision DiagnosticsEvent.
Proof. solve_decision. Defined.

(** The constructor with its trailing arguments defaulted. *)
Definition event_of_type (t : DiagnosticsEventType) : DiagnosticsEvent :=
  mkEvent t default_id StatusCode.ok 0 false EmptyString.

Definition event_on_stream (t : DiagnosticsEventType) (s : StreamId) : DiagnosticsEvent :=
  mkEvent t s StatusCode.ok 0 false EmptyString.

(** What a call of the application's observer does. *)
Inductive observer_outcome := observer_returned | observer_threw.

Record DiagnosticsHooks := mkHooks {
  on_event : option (DiagnosticsEvent → observer_outcome);
}.

(** The calls of the observer that a notification makes: none without an observer; one
    otherwise, whether it returns or throws. *)
Definition notify_diagnostics (hooks : DiagnosticsHooks) (e : DiagnosticsEvent)
    : list DiagnosticsEvent :=
  match on_event hooks with
  | None => []
  | Some observer =>
      match observer e with
      | observer_returned => [e]
      | observer_threw => [e]
      end
  end.

(** An observer that never throws, for the witnesses. *)
Definition listening_hooks : DiagnosticsHooks := mkHooks (Some (λ _, observer_returned)).

Lemma notify_diagnostics_length hooks e : (length (notify_diagnostics hooks e) ≤ 1)%nat.
Proof. unfold notify_diagnostics. repeat case_match; simpl; lia. Qed.

Lemma notify_diagnostics_elem hooks e e' : e' ∈ notify_diagnostics hooks e → e' = e.
Proof. unfold notify_diagnostics. repeat case_match; set_solver. Qed.

(** ** Counting events *)

(** How often a predicate holds in a list. *)
Definition count {A} (P : A → bool) (l : list A) : nat := length (List.filter P l).

Definition is_started (e : DiagnosticsEvent) : bool :=
  bool_decide (ev_type e = DiagnosticsEventType.request_started).

Definition is_ended (e : DiagnosticsEvent) : bool :=
  bool_decide (ev_type e = DiagnosticsEventType.request_completed)
  || bool_decide (ev_type e = DiagnosticsEventType.cancellation)
  || bool_decide (ev_type e = DiagnosticsEventType.timeout).

Definition is_closed_event (e : DiagnosticsEvent) : bool :=
  bool_decide (ev_type e = DiagnosticsEventType.connection_closed).

(** The number of observers. *)
Definition listeners (hooks : DiagnosticsHooks) : nat :=
  match on_event hooks with Some _ => 1%nat | None => 0%nat end.

Lemma count_app {A} (P : A → bool) l l' : count P (l ++ l') = (count P l + count P l')%nat.
Proof. unfold count. rewrite List.filter_app, length_app. done. Qed.

Lemma count_singleton {A} (P : A → bool) x : count P [x] = if P x then 1%nat else 0%nat.
Proof. unfold count. simpl. by destruct (P x). Qed.

Lemma count_le {A} (P Q : A → bool) l : (∀ x, P x = true → Q x = true) → (count P l ≤ count Q l)%nat.
Proof.
  intros HPQ. unfold count. induction l as [|x l IH]; simpl; [done|]. specialize (HPQ x).
  destruct (P x); [rewrite HPQ by done; simpl; lia|]. destruct (Q x); simpl; lia.
Qed.

Lemma count_insert {A} (P : A → bool) l i x y :
  l !! i = Some x →
  (count P (<[i := y]> l) + (if P x then 1 else 0) = count P l + (if P y then 1 else 0))%nat.
Proof.
  revert i. induction l as [|z l IH]; intros [|i]; simpl; try done.
  - intros [= ->]. unfold count. simpl. destruct (P x), (P y); simpl; lia.
  - intros Hi. specialize (IH i Hi). unfold count in *. simpl. destruct (P z); simpl; lia.
Qed.

Lemma notify_replicate hooks e : notify_diagnostics hooks e = replicate (listeners hooks) e.
Proof. unfold notify_diagnostics, listeners. by destruct (on_event hooks); [case_match|]. Qed.

Lemma count_notify hooks P e :
  count P (notify_diagnostics hooks e) = (listeners hooks * if P e then 1 else 0)%nat.
Proof.
  rewrite notify_replicate. unfold listeners, count.
  destruct (on_event hooks); simpl; [destruct (P e)|]; done.
Qed.

(** The events of a class that name stream [s]. *)
Definition on_stream (s : StreamId) (P : DiagnosticsEvent → bool) (e : DiagnosticsEvent) : bool :=
  bool_decide (ev_stream e = s) && P e.

Lemma count_on_stream_zero s P es : count P es = 0%nat → count (on_stream s P) es = 0%nat.
Proof.
  unfold count. induction es as [|e es IH]; [done|]. simpl. unfold on_stream at 1.
  destruct (P e); simpl; [lia|]. by rewrite andb_false_r.
Qed.

Lemma count_on_stream_notify hooks s P e :
  count (on_stream s P) (notify_diagnostics hooks e)
  = if bool_decide (ev_stream e = s) then count P (notify_diagnostics hooks e) else 0%nat.
Proof. rewrite !count_notify. unfold on_stream. destruct (bool_decide _); simpl; [done|lia]. Qed.

(** Events that are none of these. *)
Definition neutral (es : list DiagnosticsEvent) : Prop :=
  count is_started es = 0%nat ∧ count is_ended es = 0%nat ∧ count is_closed_event es = 0%nat.

Lemma neutral_notify hooks e :
  is_started e = false → is_ended e = false → is_closed_event e = false →
  neutral (notify_diagnostics hooks e).
Proof. intros Hs He Hc. unfold neutral. rewrite !count_notify, Hs, He, Hc. lia. Qed.

Lemma neutral_app es es' : neutral es → neutral es' → neutral (es ++ es').
Proof. unfold neutral. rewrite !count_app. lia. Qed.
