(* ===== verification/Operation.v ===== *)
(** * Operations

    [include/rillnet/operation.hpp]: one request/response exchange, with its life cycle, its
    terminal result, its deadline and the completion handler that is called once. *)

From S2P Require Import Prelude Identifiers Status Lifecycle.

Local Open Scope Z_scope.

(** ** [OperationResult] *)

(** What [CancellationError::what] returns. *)
Definition cancellation_error_what : string := "operation cancelled".

Record OperationResult := mkResult {
  res_status : StatusCode;
  res_message : string;
}.

Definition result_success (message : string) : OperationResult := mkResult StatusCode.ok message.

Definition result_failure (status : StatusCode) (message : string) : OperationResult :=
  mkResult status message.

Definition result_ok (r : OperationResult) : bool := bool_decide (res_status r = StatusCode.ok).

(** ** [Operation]

    A completion handler is a function of the result; what it does is recorded as a list
    of effects of type [E] (in the connections, calls of the diagnostics observer).  Time
    points of the steady clock are integers. *)

Record Operation (E : Type) := mkOperation {
  op_stream : StreamId;
  op_lifecycle : OperationState;
  op_result : option OperationResult;
  op_deadline : option Z;
  op_cancellation_requested : bool;
  op_timed_out : bool;
  op_completion_handler : option (OperationResult → list E);
}.
Arguments mkOperation {E}.
Arguments op_stream {E}.
Arguments op_lifecycle {E}.
Arguments op_result {E}.
Arguments op_deadline {E}.
Arguments op_cancellation_requested {E}.
Arguments op_timed_out {E}.
Arguments op_completion_handler {E}.

Section operation.
Context {E : Type}.
Implicit Types op : Operation E.

Definition new_operation (s : StreamId) (h : option (OperationResult → list E)) : Operation E :=
  mkOperation s OperationState.created None None false false h.

Definition is_terminal op : bool :=
  bool_decide (op_lifecycle op = OperationState.completed)
  || bool_decide (op_lifecycle op = OperationState.failed)
  || bool_decide (op_lifecycle op = OperationState.cancelled).

Definition activate op : LifecycleTransitionError * Operation E :=
  let '(err, st) := operation_transition (op_lifecycle op) OperationState.active in
  (err, mkOperation (op_stream op) st (op_result op) (op_deadline op)
          (op_cancellation_requested op) (op_timed_out op) (op_completion_handler op)).

Definition set_deadline (deadline : Z) op : bool * Operation E :=
  if is_terminal op then (false, op)
  else (true, mkOperation (op_stream op) (op_lifecycle op) (op_result op) (Some deadline)
                (op_cancellation_requested op) (op_timed_out op) (op_completion_handler op)).

Definition request_cancellation op : bool * Operation E :=
  if is_terminal op then (false, op)
  else (true, mkOperation (op_stream op) (op_lifecycle op) (op_result op) (op_deadline op)
                true (op_timed_out op) (op_completion_handler op)).

Definition set_completion_handler (h : option (OperationResult → list E)) op : Operation E :=
  mkOperation (op_stream op) (op_lifecycle op) (op_result op) (op_deadline op)
    (op_cancellation_requested op) (op_timed_out op) h.

(** [finish] commits the result and calls the handler; the third component is what the
    handler did. *)
Definition finish (terminal_state : OperationState) (r : OperationResult) op
    : bool * Operation E * list E :=
  match operation_transition (op_lifecycle op) terminal_state with
  | (LifecycleTransitionError.invalid_transition, _) => (false, op, [])
  | (LifecycleTransitionError.none, st) =>
      (true,
       mkOperation (op_stream op) st (Some r) (op_deadline op)
         (op_cancellation_requested op) (op_timed_out op) (op_completion_handler op),
       match op_completion_handler op with Some h => h r | None => [] end)
  end.

Definition complete (message : string) op : bool * Operation E * list E :=
  finish OperationState.completed (result_success message) op.

Definition fail_op (status : StatusCode) (message : string) op : bool * Operation E * list E :=
  if decide (status = StatusCode.ok) then (false, op, [])
  else finish OperationState.failed (result_failure status message) op.

Definition cancel (message : string) op : bool * Operation E * list E :=
  let '(requested, op) := request_cancellation op in
  if negb requested then (false, op, [])
  else finish OperationState.cancelled (result_failure StatusCode.cancelled message) op.

Definition timeout (message : string) op : bool * Operation E * list E :=
  let '(did_timeout, op, eff) :=
    finish OperationState.failed (result_failure StatusCode.timeout_error message) op in
  (did_timeout,
   mkOperation (op_stream op) (op_lifecycle op) (op_result op) (op_deadline op)
     (op_cancellation_requested op) (op_timed_out op || did_timeout) (op_completion_handler op),
   eff).

(** ** Calls and call sequences *)

(** The public methods that change an operation, with their arguments. *)
Inductive OpCall :=
  | CallActivate
  | CallSetDeadline (deadline : Z)
  | CallRequestCancellation
  | CallSetHandler (h : option (OperationResult → list E))
  | CallComplete (message : string)
  | CallFail (status : StatusCode) (message : string)
  | CallCancel (message : string)
  | CallTimeout (message : string).

Definition run_call op (c : OpCall) : Operation E * list E :=
  match c with
  | CallActivate => ((activate op).2, [])
  | CallSetDeadline d => ((set_deadline d op).2, [])
  | CallRequestCancellation => ((request_cancellation op).2, [])
  | CallSetHandler h => (set_completion_handler h op, [])
  | CallComplete m => let '(_, op, eff) := complete m op in (op, eff)
  | CallFail s m => let '(_, op, eff) := fail_op s m op in (op, eff)
  | CallCancel m => let '(_, op, eff) := cancel m op in (op, eff)
  | CallTimeout m => let '(_, op, eff) := timeout m op in (op, eff)
  end.

Fixpoint run_calls op (cs : list OpCall) : Operation E * list E :=
  match cs with
  | [] => (op, [])
  | c :: cs' =>
      let '(op1, eff1) := run_call op c in
      let '(op2, eff2) := run_calls op1 cs' in
      (op2, eff1 ++ eff2)
  end.

(** ** Invariant *)

(** The result is present exactly in the terminal states and agrees with the state; a
    timed-out operation failed with [timeout_error]; a cancelled one was asked to cancel. *)
Definition op_inv op : Prop :=
  match op_lifecycle op with
  | OperationState.created | OperationState.active =>
      op_result op = None ∧ op_timed_out op = false
  | OperationState.completed =>
      (∃ m, op_result op = Some (mkResult StatusCode.ok m)) ∧ op_timed_out op = false
  | OperationState.failed =>
      ∃ s m, op_result op = Some (mkResult s m) ∧ s ≠ StatusCode.ok ∧
        (op_timed_out op = true → s = StatusCode.timeout_error)
  | OperationState.cancelled =>
      (∃ m, op_result op = Some (mkResult StatusCode.cancelled m)) ∧
      op_cancellation_requested op = true ∧ op_timed_out op = false
  end.

Lemma is_terminal_op_terminal op : is_terminal op = op_terminal (op_lifecycle op).
Proof. unfold is_terminal. by destruct (op_lifecycle op). Qed.

Lemma op_inv_result op : op_inv op → is_Some (op_result op) ↔ is_terminal op = true.
Proof.
  rewrite is_terminal_op_terminal. unfold op_inv, op_terminal.
  destruct (op_lifecycle op).
  - intros [-> _]. split; [by intros []|done].
  - intros [-> _]. split; [by intros []|done].
  - intros [[m ->] _]. split; eauto.
  - intros (s & m & -> & _). split; eauto.
  - intros [[m ->] _]. split; eauto.
Qed.

Lemma new_operation_inv s h : op_inv (new_operation s h).
Proof. done. Qed.

(** A terminal operation ignores every call; only its handler slot can still change. *)
Lemma run_call_terminal op c :
  is_terminal op = true →
  (run_call op c).2 = [] ∧ op_result (run_call op c).1 = op_result op ∧
  is_terminal (run_call op c).1 = true.
Proof.
  intros Ht. pose proof Ht as Ht'. rewrite is_terminal_op_terminal in Ht'.
  destruct c; cbn [run_call]; unfold activate, set_deadline, request_cancellation,
    set_completion_handler, complete, fail_op, cancel, timeout, request_cancellation, finish;
    rewrite ?Ht, ?op_terminal_transition by done; simpl; try done.
  case_decide; done.
Qed.

Lemma run_call_inv op c : op_inv op → op_inv (run_call op c).1.
Proof.
  intros Hi. destruct (is_terminal op) eqn:Ht; rewrite is_terminal_op_terminal in Ht.
  - destruct c; cbn [run_call]; unfold activate, set_deadline, request_cancellation,
      complete, fail_op, cancel, timeout, request_cancellation, finish;
      rewrite ?is_terminal_op_terminal, ?Ht, ?op_terminal_transition by done; simpl; try done.
    + case_decide; done.
    + unfold op_inv in *. simpl. rewrite orb_false_r. done.
  - destruct op as [s [] r dl cr to h]; try done; destruct Hi as [Hr Hto]; simpl in *; subst;
      destruct c; cbn [run_call]; unfold activate, set_deadline, request_cancellation,
        set_completion_handler, complete, fail_op, cancel, timeout, finish; simpl; try done;
      try case_decide; unfold op_inv, result_success, result_failure; simpl; eauto; naive_solver.
Qed.

(** What a call on a live operation does: it stays live and silent, or it becomes terminal
    and the handler installed at that moment is called once, with the committed result. *)
Lemma run_call_live op c :
  op_inv op → is_terminal op = false →
  (is_terminal (run_call op c).1 = false ∧ (run_call op c).2 = []) ∨
  (∃ r, op_result (run_call op c).1 = Some r ∧ is_terminal (run_call op c).1 = true ∧
     (run_call op c).2 = match op_completion_handler op with Some h => h r | None => [] end).
Proof.
  intros _ Ht. rewrite is_terminal_op_terminal in Ht.
  destruct op as [s [] r dl cr to h]; try done; destruct c; cbn [run_call];
    unfold activate, set_deadline, request_cancellation, set_completion_handler, complete,
      fail_op, cancel, timeout, request_cancellation, finish; simpl; auto;
    try case_decide; simpl; eauto.
Qed.

Lemma run_calls_terminal cs op :
  is_terminal op = true →
  (run_calls op cs).2 = [] ∧ op_result (run_calls op cs).1 = op_result op.
Proof.
  revert op. induction cs as [|c cs IH]; intros op Ht; cbn [run_calls]; [done|].
  destruct (run_call_terminal op c Ht) as (He & Hr & Ht').
  destruct (run_call op c) as [op1 eff1]. simpl in *. subst.
  destruct (IH op1 Ht') as [He2 Hr2]. destruct (run_calls op1 cs). simpl in *. split; congruence.
Qed.

Lemma run_calls_inv cs op : op_inv op → op_inv (run_calls op cs).1.
Proof.
  revert op. induction cs as [|c cs IH]; intros op Hi; cbn [run_calls]; [done|].
  pose proof (run_call_inv op c Hi) as H1. destruct (run_call op c) as [op1 eff1].
  pose proof (IH op1 H1) as H2. by destruct (run_calls op1 cs).
Qed.

(** The handlers that are installed at some point of a call sequence. *)
Fixpoint handlers_of (h : option (OperationResult → list E)) (cs : list OpCall)
    : list (option (OperationResult → list E)) :=
  match cs with
  | [] => [h]
  | CallSetHandler h' :: cs' => h :: handlers_of h' cs'
  | _ :: cs' => h :: handlers_of h cs'
  end.

Lemma run_call_handler op c :
  op_completion_handler (run_call op c).1 =
    match c with CallSetHandler h => h | _ => op_completion_handler op end.
Proof.
  destruct c; cbn [run_call]; unfold activate, set_deadline, request_cancellation, complete,
    fail_op, cancel, timeout, finish, request_cancellation; repeat case_match; simplify_eq;
    simpl; try done; repeat case_match; simplify_eq; done.
Qed.

Lemma run_calls_effects cs op :
  op_inv op → is_terminal op = false →
  match op_result (run_calls op cs).1 with
  | None => (run_calls op cs).2 = []
  | Some r => ∃ h, h ∈ handlers_of (op_completion_handler op) cs ∧
      (run_calls op cs).2 = match h with Some h => h r | None => [] end
  end.
Proof.
  revert op. induction cs as [|c cs IH]; intros op Hi Ht.
  { simpl. assert (op_result op = None) as ->; [|done].
    apply eq_None_not_Some. rewrite op_inv_result, Ht by done. done. }
  pose proof (run_call_handler op c) as Hh. pose proof (run_call_inv op c Hi) as Hi1.
  destruct (run_call_live op c Hi Ht) as [[Ht1 He1]|(r & Hr & Ht1 & He1)];
    cbn [run_calls]; destruct (run_call op c) as [op1 eff1]; simpl in *; subst.
  - specialize (IH op1 Hi1 Ht1). destruct (run_calls op1 cs) as [op2 eff2]. simpl in *.
    destruct (op_result op2); [|done]. destruct IH as (h & Hin & ->).
    exists h. split; [|done]. rewrite Hh in Hin. destruct c; set_solver.
  - destruct (run_calls_terminal cs op1 Ht1) as [He2 Hr2].
    destruct (run_calls op1 cs) as [op2 eff2]. simpl in *. rewrite Hr2, Hr, He2, app_nil_r.
    exists (op_completion_handler op). split; [|done]. destruct c; set_solver.
Qed.

(** A call that ends operations: it leaves a terminal operation as it is, and commits a result
    other than success to an active one, calling the handler with it. *)
Definition ending (f : Operation E → bool * Operation E * list E) : Prop :=
  ∀ op, op_inv op → op_lifecycle op ≠ OperationState.created →
    if is_terminal op then f op = (false, op, [])
    else ∃ op' r,
      f op = (true, op', match op_completion_handler op with Some h => h r | None => [] end) ∧
      op_inv op' ∧ is_terminal op' = true ∧ op_lifecycle op' ≠ OperationState.completed ∧
      op_stream op' = op_stream op ∧ op_completion_handler op' = op_completion_handler op ∧
      op_result op' = Some r ∧ res_status r ≠ StatusCode.ok.

Local Ltac solve_ending op :=
  intros Hi Hc; destruct op as [s [] r dl cr to h]; try done; simpl;
  unfold op_inv in Hi; simpl in Hi.

Lemma fail_op_ending status message : status ≠ StatusCode.ok → ending (fail_op status message).
Proof.
  intros Hs op. unfold fail_op. rewrite decide_False by done. solve_ending op; try done.
  destruct Hi as [-> ->]. eexists _, _. split; [done|]. unfold op_inv. simpl. naive_solver.
Qed.

Lemma cancel_ending message : ending (cancel message).
Proof.
  intros op. solve_ending op; try done. destruct Hi as [-> ->].
  eexists _, _. split; [done|]. unfold op_inv. simpl. naive_solver.
Qed.

Lemma timeout_ending message : ending (timeout message).
Proof.
  intros op. solve_ending op.
  2-4: unfold timeout, finish; simpl; by rewrite orb_false_r.
  destruct Hi as [-> ->]. eexists _, _. split; [done|]. unfold op_inv. simpl. naive_solver.
Qed.

(** What the calls commit when they succeed. *)
Lemma finish_result st r op op' es :
  finish st r op = (true, op', es) → op_stream op' = op_stream op ∧ op_result op' = Some r.
Proof. unfold finish. destruct (operation_transition _ _) as [[] ?]; by intros [= <- _]. Qed.

Lemma timeout_result message op op' es :
  timeout message op = (true, op', es) →
  op_stream op' = op_stream op ∧ op_result op' = Some (mkResult StatusCode.timeout_error message).
Proof.
  unfold timeout. destruct (finish _ _ op) as [[[] op1] ev] eqn:Hf; [|done].
  intros [= <- _]. by apply finish_result in Hf.
Qed.

Lemma fail_op_result status message op op' es :
  fail_op status message op = (true, op', es) →
  op_stream op' = op_stream op ∧ op_result op' = Some (mkResult status message).
Proof. unfold fail_op. case_decide; [done|]. apply finish_result. Qed.

Lemma complete_live message op :
  op_inv op → op_lifecycle op ≠ OperationState.created → is_terminal op = false →
  ∃ op', complete message op =
      (true, op', match op_completion_handler op with Some h => h (result_success message) | None => [] end) ∧
    op_inv op' ∧ op_lifecycle op' = OperationState.completed ∧
    op_stream op' = op_stream op ∧ op_completion_handler op' = op_completion_handler op ∧
    op_result op' = Some (result_success message).
Proof.
  solve_ending op; try done. destruct Hi as [-> ->]. intros _.
  eexists. split; [done|]. unfold op_inv, result_success. simpl. naive_solver.
Qed.

(** ** Properties *)

(** C29: along every sequence of calls on a new operation, at most one terminal result is
    committed: as long as there is none the handler has not run, and once there is one the
    handlers' effects are exactly those of one call, of a handler that had been installed,
    with that result.  The result agrees with the state, timeout and cancellation flags. *)
Theorem operation_commits_once s h cs :
  op_inv (run_calls (new_operation s h) cs).1 ∧
  match op_result (run_calls (new_operation s h) cs).1 with
  | None => (run_calls (new_operation s h) cs).2 = []
  | Some r => ∃ h', h' ∈ handlers_of h cs ∧
      (run_calls (new_operation s h) cs).2 = match h' with Some f => f r | None => [] end
  end.
Proof.
  split; [apply run_calls_inv, new_operation_inv|].
  exact (run_calls_effects cs (new_operation s h) (new_operation_inv s h) eq_refl).
Qed.

(** A committed result is final: no later call changes it or runs a handler. *)
Theorem operation_result_final op cs :
  is_terminal op = true →
  op_result (run_calls op cs).1 = op_result op ∧ (run_calls op cs).2 = [].
Proof. intros Ht. destruct (run_calls_terminal cs op Ht). done. Qed.

End operation.

Lemma operation_result_final_witness :
  let op := (run_calls (E := nat) (new_operation (mkId 1) (Some (λ _, [1%nat])))
    [CallActivate; CallTimeout "late"]).1 in
  op_result (run_calls op [CallComplete "response"; CallCancel "no"]).1 = op_result op ∧
  (run_calls op [CallComplete "response"; CallCancel "no"]).2 = [].
Proof. apply operation_result_final. reflexivity. Defined.
