(* ===== verification/StreamIdAllocator.v ===== *)
(** * Stream identifier allocation

    [include/rillnet/stream_id_allocator.hpp]: the allocator of the stream identifiers one
    endpoint may open, with reuse of released identifiers and an inclusive maximum. *)

From S2P Require Import Prelude Identifiers Status.

Local Open Scope Z_scope.

Module StreamInitiator.
Inductive StreamInitiator := client | server.
End StreamInitiator.
Abbreviation StreamInitiator := StreamInitiator.StreamInitiator.

#[export] Instance StreamInitiator_eq_dec : EqDecision StreamInitiator.
Proof. solve_decision. Defined.

(** ** [StreamIdAllocation] *)

Record StreamIdAllocation := mkAllocation {
  allocation_stream : option StreamId;
  allocation_status : StatusCode;
}.

Definition allocation_success (s : StreamId) : StreamIdAllocation :=
  mkAllocation (Some s) StatusCode.ok.

Definition allocation_exhausted : StreamIdAllocation :=
  mkAllocation None StatusCode.resource_limit_exceeded.

Definition allocation_ok (a : StreamIdAllocation) : bool :=
  bool_decide (is_Some (allocation_stream a)).

(** ** [StreamIdAllocator] *)

Record StreamIdAllocator := mkAllocator {
  initiator_ : StreamInitiator;
  next_ : Z;
  maximum_ : Z;
  in_use_ : gset Z;
  available_ : gset Z;
}.

Definition first_id (i : StreamInitiator) : Z :=
  match i with StreamInitiator.client => 1 | StreamInitiator.server => 2 end.

Definition last_id (i : StreamInitiator) (maximum : Z) : Z :=
  match i with
  | StreamInitiator.client =>
      if maximum mod 2 =? 1 then maximum
      else if maximum =? 0 then 0 else maximum - 1
  | StreamInitiator.server =>
      if maximum mod 2 =? 0 then maximum else maximum - 1
  end.

Definition new_allocator (i : StreamInitiator) (maximum : Z) : StreamIdAllocator :=
  mkAllocator i (first_id i) (last_id i maximum) ∅ ∅.

Definition allocator_maximum (a : StreamIdAllocator) : StreamId := mkId (maximum_ a).

Definition exhausted (a : StreamIdAllocator) : bool := next_ a =? 0.

(** [*set.begin()] of a [std::set]: the least element. *)
Definition set_begin (s : gset Z) : option Z :=
  foldr (λ x acc, Some (from_option (Z.min x) x acc)) None (elements s).

Definition allocate (a : StreamIdAllocator) : StreamIdAllocation * StreamIdAllocator :=
  match set_begin (available_ a) with
  | Some v =>
      (allocation_success (mkId v),
       mkAllocator (initiator_ a) (next_ a) (maximum_ a)
         ({[v]} ∪ in_use_ a) (available_ a ∖ {[v]}))
  | None =>
      if (next_ a =? 0) || (next_ a >? maximum_ a) then
        (allocation_exhausted,
         mkAllocator (initiator_ a) 0 (maximum_ a) (in_use_ a) (available_ a))
      else
        let s := next_ a in
        (allocation_success (mkId s),
         mkAllocator (initiator_ a)
           (if uwrap 64 (maximum_ a - next_ a) <? 2 then 0 else uwrap 64 (next_ a + 2))
           (maximum_ a) ({[s]} ∪ in_use_ a) (available_ a))
  end.

Definition release (s : StreamId) (a : StreamIdAllocator) : StreamIdAllocator :=
  let v := value s in
  if (v =? 0) || (v >? maximum_ a) || negb (v mod 2 =? first_id (initiator_ a) mod 2) then a
  else if decide (v ∈ in_use_ a) then
    mkAllocator (initiator_ a) (next_ a) (maximum_ a) (in_use_ a ∖ {[v]}) ({[v]} ∪ available_ a)
  else a.

(** ** Abstraction

    The identifiers an endpoint owns, and the set of those in use. *)

Definition owned (i : StreamInitiator) (maximum : Z) (x : Z) : Prop :=
  first_id i ≤ x ≤ maximum ∧ x mod 2 = first_id i mod 2.

(** Allocation picks the least owned identifier that is not in use, and fails only when all
    are in use. *)
Definition spec_allocate (i : StreamInitiator) (maximum : Z) (used : gset Z)
    (r : StreamIdAllocation) (used' : gset Z) : Prop :=
  (∃ x, r = allocation_success (mkId x) ∧ owned i maximum x ∧ (x ∉ used) ∧
     (∀ y, owned i maximum y → y < x → y ∈ used) ∧ used' = {[x]} ∪ used) ∨
  (r = allocation_exhausted ∧ (∀ y, owned i maximum y → y ∈ used) ∧ used' = used).

Definition spec_release (s : StreamId) (used used' : gset Z) : Prop :=
  used' = used ∖ {[value s]}.

(** ** Invariant *)

(** The identifiers handed out so far are the owned ones below [next_] (all of them once
    [next_] is zero), and each is either in use or available. *)
Definition alloc_inv (a : StreamIdAllocator) : Prop :=
  in_u 64 (maximum_ a) ∧
  (maximum_ a = 0 ∨ maximum_ a mod 2 = first_id (initiator_ a) mod 2) ∧
  in_use_ a ## available_ a ∧
  (∀ x, x ∈ (in_use_ a ∪ available_ a) ↔
     owned (initiator_ a) (maximum_ a) x ∧ (next_ a = 0 ∨ x < next_ a)) ∧
  (next_ a = 0 ∨
     next_ a mod 2 = first_id (initiator_ a) mod 2 ∧
     (next_ a = first_id (initiator_ a) ∨ first_id (initiator_ a) ≤ next_ a ≤ maximum_ a)).

Lemma set_begin_foldr (l : list Z) :
  match foldr (λ x acc, Some (from_option (Z.min x) x acc)) None l with
  | None => l = []
  | Some m => m ∈ l ∧ ∀ y, y ∈ l → m ≤ y
  end.
Proof.
  induction l as [|x l IH]; simpl; [done|].
  destruct (foldr _ None l) as [m|]; simpl.
  - destruct IH as [Hin Hle]. destruct (Z.min_spec x m) as [[? ->]|[? ->]];
      (split; [set_solver|]); intros y [->|Hy]%elem_of_cons; try lia;
      specialize (Hle y Hy); lia.
  - subst. split; [set_solver|]. intros y ->%list_elem_of_singleton. lia.
Qed.

Lemma set_begin_Some s m : set_begin s = Some m → m ∈ s ∧ ∀ y, y ∈ s → m ≤ y.
Proof.
  unfold set_begin. intros H. pose proof (set_begin_foldr (elements s)) as H'.
  rewrite H in H'. set_solver.
Qed.

Lemma set_begin_None s : set_begin s = None → s = ∅.
Proof.
  unfold set_begin. intros H. pose proof (set_begin_foldr (elements s)) as H'.
  rewrite H in H'. by apply elements_empty_iff, leibniz_equiv in H'.
Qed.

Lemma first_id_cases i : first_id i = 1 ∧ first_id i mod 2 = 1 ∨ first_id i = 2 ∧ first_id i mod 2 = 0.
Proof. destruct i; auto. Qed.

Lemma last_id_spec i maximum :
  in_u 64 maximum →
  in_u 64 (last_id i maximum) ∧
  (last_id i maximum = 0 ∨ last_id i maximum mod 2 = first_id i mod 2) ∧
  ∀ x, owned i (last_id i maximum) x ↔ owned i maximum x.
Proof.
  unfold in_u, owned, last_id. intros Hm.
  pose proof (Z.mod_pos_bound maximum 2).
  pose proof (Z.div_mod maximum 2).
  destruct i; simpl; repeat case_match;
    rewrite ?Z.eqb_eq, ?Z.eqb_neq in *; (split; [lia|split]);
    try (intros x; pose proof (Z.div_mod x 2)); try lia; Z.to_euclidean_division_equations; lia.
Qed.

Lemma new_allocator_inv i maximum : in_u 64 maximum → alloc_inv (new_allocator i maximum).
Proof.
  intros Hm. destruct (last_id_spec i maximum Hm) as (H1 & H2 & _).
  unfold alloc_inv, new_allocator; simpl. split_and!; auto; [set_solver|].
  intros x. split; [set_solver|]. unfold owned. destruct i; simpl; lia.
Qed.

(** What [allocate] makes of [next_] when it hands [n] out. *)
Definition step (maximum n : Z) : Z := if maximum - n <? 2 then 0 else uwrap 64 (n + 2).

(** With [n] handed out, the identifiers below the new [next_] are those below [n] and [n]. *)
Lemma step_owned i maximum n x :
  owned i maximum n → 1 ≤ n → maximum < 2 ^ 64 →
  owned i maximum x ∧ (step maximum n = 0 ∨ x < step maximum n) ↔ x = n ∨ owned i maximum x ∧ x < n.
Proof.
  intros Hn H1 Hm. assert (owned i maximum x → x < n + 2 → x ≤ n) as Hpar
    by (unfold owned in *; Z.to_euclidean_division_equations; lia).
  assert (owned i maximum x → x ≤ maximum) as Hmax by (unfold owned; lia).
  assert (n ≤ maximum) as Hnm by (unfold owned in Hn; lia).
  unfold step, uwrap. destruct (Z.ltb_spec (maximum - n) 2) as [Hs|Hs].
  - split; [|naive_solver]. intros [Hx _]. destruct (decide (x = n)); [auto|]. right. split; [done|].
    specialize (Hpar Hx). specialize (Hmax Hx). lia.
  - rewrite Z.mod_small by lia. split.
    + intros [Hx [|]]; [lia|]. destruct (decide (x = n)); [auto|]. right. specialize (Hpar Hx). split; [done|lia].
    + intros [->|[Hx ?]]; split; auto; right; lia.
Qed.

Lemma step_next i maximum n :
  owned i maximum n → 1 ≤ n ∧ maximum < 2 ^ 64 →
  step maximum n = 0 ∨ step maximum n mod 2 = first_id i mod 2 ∧
    (step maximum n = first_id i ∨ first_id i ≤ step maximum n ≤ maximum).
Proof.
  intros [Hn Hp] [H1 Hm]. unfold step, uwrap. destruct (Z.ltb_spec (maximum - n) 2) as [Hs|Hs]; [by left|right].
  rewrite (Z.mod_small (n + 2)) by lia. split; [|lia].
  rewrite <-Hp, <-(Z.mod_add n 1 2) by lia. done.
Qed.

(** An available identifier below every unused one is the one to hand out. *)
Lemma allocate_refines a :
  alloc_inv a →
  alloc_inv (allocate a).2 ∧ initiator_ (allocate a).2 = initiator_ a ∧
  maximum_ (allocate a).2 = maximum_ a ∧
  spec_allocate (initiator_ a) (maximum_ a) (in_use_ a) (allocate a).1 (in_use_ (allocate a).2).
Proof.
  intros (Hm & Hpar & Hdisj & Hdom & Hnext). unfold allocate.
  destruct (set_begin (available_ a)) as [v|] eqn:Hb.
  - apply set_begin_Some in Hb as [Hin Hmin]. simpl.
    assert (v ∈ in_use_ a ∪ available_ a) as Hv by set_solver.
    apply Hdom in Hv as [Hown Hlt].
    split_and!; [|done|done|].
    + split; [done|split; [done|split; [simpl; set_solver|split; [|done]]]].
      intros x. simpl. rewrite <-Hdom. destruct (decide (x = v)); set_solver.
    + left. exists v. split_and!; auto; [set_solver|]. intros y Hy Hyv.
      assert (y ∈ in_use_ a ∪ available_ a) as Hy' by (apply Hdom; split; [done|lia]).
      apply elem_of_union in Hy' as [|Hy']; [done|]. specialize (Hmin y Hy'). lia.
  - apply set_begin_None in Hb. rewrite Hb in *.
    assert (∀ x, x ∈ in_use_ a ↔ owned (initiator_ a) (maximum_ a) x ∧ (next_ a = 0 ∨ x < next_ a))
      as Hd by (intros x; rewrite <-Hdom; set_solver).
    rewrite Z.gtb_ltb.
    destruct (Z.eqb_spec (next_ a) 0) as [H0|H0];
      [|destruct (Z.ltb_spec (maximum_ a) (next_ a)) as [Hgt|Hle]]; simpl.
    1,2: split_and!; [|done|done|right; split_and!; [done| |done]].
    + split; [done|split; [done|split; [simpl; set_solver|split; [|by left]]]].
      intros x. simpl. rewrite union_empty_r_L, Hd. naive_solver.
    + intros y Hy. apply Hd. auto.
    + split; [done|split; [done|split; [simpl; set_solver|split; [|by left]]]].
      intros x. simpl. rewrite union_empty_r_L, Hd. unfold owned. lia.
    + intros y Hy. apply Hd. split; [done|]. unfold owned in Hy. lia.
    + destruct Hnext as [|[Hnp Hnb]]; [done|].
      assert (owned (initiator_ a) (maximum_ a) (next_ a)) as Hown by (unfold owned; lia).
      assert (∀ y, owned (initiator_ a) (maximum_ a) y → y < next_ a → y ∈ in_use_ a) as Hbelow
        by (intros; apply Hd; auto).
      assert (next_ a ∉ in_use_ a) as Hfresh by (rewrite Hd; lia).
      unfold in_u in Hm.
      assert (1 ≤ next_ a) by (destruct (first_id_cases (initiator_ a)); lia).
      assert (uwrap 64 (maximum_ a - next_ a) = maximum_ a - next_ a) as -> by (apply Z.mod_small; lia).
      change (if _ <? 2 then 0 else _) with (step (maximum_ a) (next_ a)).
      split_and!; [|done|done|left; exists (next_ a); split_and!; done].
      split; [done|split; [done|split; [simpl; set_solver|split; simpl]]].
      * intros x. rewrite union_empty_r_L, elem_of_union, elem_of_singleton, Hd.
        rewrite (step_owned _ _ (next_ a) x Hown) by lia. naive_solver.
      * apply (step_next _ _ (next_ a) Hown). lia.
Qed.

Lemma release_refines s a :
  alloc_inv a →
  alloc_inv (release s a) ∧ initiator_ (release s a) = initiator_ a ∧
  maximum_ (release s a) = maximum_ a ∧ spec_release s (in_use_ a) (in_use_ (release s a)).
Proof.
  intros Hi. pose proof Hi as (Hm & Hpar & Hdisj & Hdom & Hnext).
  assert (∀ x, x ∈ in_use_ a → owned (initiator_ a) (maximum_ a) x) as Hown.
  { intros x Hx. apply Hdom. set_solver. }
  unfold release, spec_release. set (v := value s).
  destruct (_ || _ || _) eqn:Hg; [|case_decide as Hin].
  - split_and!; auto. assert (v ∉ in_use_ a); [|set_solver].
    intros Hv. apply Hown in Hv as [Hb Hp]. rewrite Z.gtb_ltb in Hg.
    destruct (Z.eqb_spec v 0), (Z.ltb_spec (maximum_ a) v),
      (Z.eqb_spec (v mod 2) (first_id (initiator_ a) mod 2)); simpl in Hg; try done; try lia.
    destruct (first_id_cases (initiator_ a)); lia.
  - simpl. split_and!; auto.
    split; [done|split; [done|split; [simpl; set_solver|split; [|done]]]].
    intros x. simpl. rewrite <-Hdom. destruct (decide (x = v)); set_solver.
  - split_and!; auto. set_solver.
Qed.

(** ** Sequences of operations *)

Inductive AllocOp := OpAllocate | OpRelease (s : StreamId).

Definition alloc_step (a : StreamIdAllocator) (o : AllocOp) : StreamIdAllocator :=
  match o with
  | OpAllocate => (allocate a).2
  | OpRelease s => release s a
  end.

Definition alloc_run (a : StreamIdAllocator) (ops : list AllocOp) : StreamIdAllocator :=
  foldl alloc_step a ops.

Lemma alloc_run_inv ops a :
  alloc_inv a →
  alloc_inv (alloc_run a ops) ∧ initiator_ (alloc_run a ops) = initiator_ a ∧
  maximum_ (alloc_run a ops) = maximum_ a.
Proof.
  revert a. induction ops as [|o ops IH]; intros a Hi; [done|]. simpl.
  assert (alloc_inv (alloc_step a o) ∧ initiator_ (alloc_step a o) = initiator_ a ∧
    maximum_ (alloc_step a o) = maximum_ a) as (Hi' & Hini & Hmax).
  { destruct o; simpl.
    - destruct (allocate_refines a Hi) as (? & ? & ? & _). done.
    - destruct (release_refines s a Hi) as (? & ? & ? & _). done. }
  destruct (IH _ Hi') as (? & ? & ?). split_and!; congruence.
Qed.

Lemma owned_side i maximum x :
  owned i maximum x →
  is_client_stream (mkId x) = bool_decide (i = StreamInitiator.client) ∧
  is_server_stream (mkId x) = bool_decide (i = StreamInitiator.server).
Proof.
  intros [Hb Hp]. unfold is_client_stream, is_server_stream, is_valid, invalid_value. simpl.
  destruct i; simpl in *; rewrite Hp; destruct (Z.eqb_spec x 0); simpl; try lia; done.
Qed.

(** ** Properties *)

(** C27: what [allocate] hands out, after any sequence of allocations and releases on an
    allocator with inclusive maximum [maximum]: the least identifier of the endpoint's own
    parity that is not in use, a released one included, or exhaustion, which happens only
    when every such identifier is in use.  The 64-bit counter never wraps around, and an
    identifier in use is never handed out a second time.  This is what the code does and
    what its test [ReleasesIdentifiersForReuseExactlyOnce] checks; [docs/identifiers.md]
    promises something else, that an identifier is never used again for the lifetime of the
    allocator, which holds only as long as nothing is released. *)
Theorem allocate_least_unused i maximum ops :
  in_u 64 maximum →
  let a := alloc_run (new_allocator i maximum) ops in
  spec_allocate i maximum (in_use_ a) (allocate a).1 (in_use_ (allocate a).2).
Proof.
  intros Hm a. destruct (alloc_run_inv ops (new_allocator i maximum)) as (Hi & Hini & Hmax);
    [by apply new_allocator_inv|]. fold a in Hi, Hini, Hmax. simpl in Hini, Hmax.
  destruct (allocate_refines a Hi) as (_ & _ & _ & Hs). rewrite Hini, Hmax in Hs.
  destruct (last_id_spec i maximum Hm) as (_ & _ & Heq).
  destruct Hs as [(x & ? & Hx & ? & Hl & ?)|(? & Hl & ?)]; [left; exists x|right]; split_and!; auto.
  - by apply Heq.
  - intros y Hy. by apply Hl, Heq.
  - intros y Hy. by apply Hl, Heq.
Qed.

(** After any history, [release] frees exactly the given identifier: an identifier of
    the other endpoint, one above the maximum, or one that is not in use leaves the set in
    use unchanged, so that a second release has no effect. *)
Theorem release_frees_exactly i maximum ops s :
  in_u 64 maximum →
  let a := alloc_run (new_allocator i maximum) ops in
  in_use_ (release s a) = in_use_ a ∖ {[value s]} ∧
  release s (release s a) = release s a ∧
  (value s ∉ in_use_ a → release s a = a).
Proof.
  intros Hm a. destruct (alloc_run_inv ops (new_allocator i maximum)) as (Hi & _);
    [by apply new_allocator_inv|]. fold a in Hi.
  destruct (release_refines s a Hi) as (_ & _ & _ & Hr).
  assert (Hnot : ∀ b, value s ∉ in_use_ b → release s b = b).
  { intros b Hb. unfold release. case_match; [done|]. by rewrite decide_False. }
  split_and!; [done| |by apply Hnot]. apply Hnot. rewrite Hr. set_solver.
Qed.

(** Every identifier an allocator hands out belongs to its own side of the
    client/server partition, so that two endpoints never collide. *)
Theorem allocate_own_side i maximum ops s :
  in_u 64 maximum →
  allocation_stream (allocate (alloc_run (new_allocator i maximum) ops)).1 = Some s →
  is_valid s = true ∧
  is_client_stream s = bool_decide (i = StreamInitiator.client) ∧
  is_server_stream s = bool_decide (i = StreamInitiator.server).
Proof.
  intros Hm Ha. destruct (alloc_run_inv ops (new_allocator i maximum)) as (Hi & Hini & _);
    [by apply new_allocator_inv|]. simpl in Hini.
  destruct (allocate_refines _ Hi) as (_ & _ & _ & [(x & Hr & Hx & _)|(Hr & _)]);
    rewrite Hr in Ha; [|done]. injection Ha as <-. rewrite Hini in Hx.
  destruct (owned_side _ _ _ Hx) as [-> ->]. split_and!; [|done|done].
  apply is_valid_true. simpl. destruct Hx as [Hx _], i; simpl in Hx; lia.
Qed.

(** Released identifiers are handed out again: after allocating and releasing, the
    same identifier is returned, on every allocator that can allocate at all.
    [docs/identifiers.md] states the opposite ("never reused for the lifetime of an
    allocator"). *)
Theorem released_identifier_is_reused i maximum :
  in_u 64 maximum → first_id i ≤ maximum →
  let a := new_allocator i maximum in
  let s : StreamId := mkId (first_id i) in
  allocation_stream (allocate a).1 = Some s ∧
  allocation_stream (allocate (release s (allocate a).2)).1 = Some s.
Proof.
  intros Hm Hle a s.
  assert (Hown : owned i maximum (first_id i)) by (split; [lia|done]).
  assert (Hgen : ∀ b, alloc_inv b → initiator_ b = i → maximum_ b = last_id i maximum →
    first_id i ∉ in_use_ b → allocation_stream (allocate b).1 = Some s).
  { intros b Hb Hini Hmax Hnin. destruct (last_id_spec i maximum Hm) as (_ & _ & Heq).
    destruct (allocate_refines b Hb) as (_ & _ & _ & Hs). rewrite Hini, Hmax in Hs.
    destruct Hs as [(x & -> & Hx & _ & Hl & _)|(_ & Hl & _)].
    - simpl. do 2 f_equal. destruct (decide (first_id i < x)) as [Hlt|].
      + destruct Hnin. apply Hl; [by apply Heq|done].
      + destruct Hx as [Hx _]. lia.
    - destruct Hnin. by apply Hl, Heq. }
  pose proof (new_allocator_inv i maximum Hm) as Hi.
  destruct (allocate_refines a Hi) as (Hi1 & Hini1 & Hmax1 & _).
  destruct (release_refines s _ Hi1) as (Hi2 & Hini2 & Hmax2 & Hr).
  split; apply Hgen; auto; try (simpl in *; congruence).
  - set_solver.
  - rewrite Hr. set_solver.
Qed.

(** ** Witnesses *)

Lemma allocate_least_unused_witness :
  let a := alloc_run (new_allocator StreamInitiator.client 7)
             [OpAllocate; OpAllocate; OpAllocate; OpAllocate] in
  spec_allocate StreamInitiator.client 7 (in_use_ a) (allocate a).1 (in_use_ (allocate a).2).
Proof. apply allocate_least_unused. vm_decide. Defined.

Lemma release_frees_exactly_witness :
  let a := alloc_run (new_allocator StreamInitiator.server 8) [OpAllocate; OpAllocate] in
  in_use_ (release (mkId 4) a) = in_use_ a ∖ {[4]} ∧
  release (mkId 4) (release (mkId 4) a) = release (mkId 4) a ∧
  (4 ∉ in_use_ a → release (mkId 4) a = a).
Proof. apply (release_frees_exactly StreamInitiator.server 8 _ (mkId 4)). vm_decide. Defined.

Lemma allocate_own_side_witness :
  is_valid (mkId 3 : StreamId) = true ∧ is_client_stream (mkId 3) = true ∧
  is_server_stream (mkId 3) = false.
Proof.
  apply (allocate_own_side StreamInitiator.client 9 [OpAllocate] (mkId 3));
    [vm_decide|vm_compute; reflexivity].
Defined.

Lemma released_identifier_is_reused_witness :
  let a := new_allocator StreamInitiator.client (2 ^ 64 - 1) in
  allocation_stream (allocate a).1 = Some (mkId 1) ∧
  allocation_stream (allocate (release (mkId 1) (allocate a).2)).1 = Some (mkId 1).
Proof. apply (released_identifier_is_reused StreamInitiator.client); vm_decide. Defined.
