(* ===== verification/Codec.v ===== *)
(** * Codecs

    [include/rillnet/codec.hpp]: the results of encoding and decoding, the [Codec] concept
    as a class (with the round-trip law its comment states), and the built-in [PodCodec] as
    an instance. *)

From S2P Require Import Prelude Identifiers Status Frame.

(** ** Results *)

Record EncodeResult := mkEncodeResult {
  enc_payload : option Buffer;
  enc_status : StatusCode;
  enc_message : string;
}.

Definition encode_ok (r : EncodeResult) : bool := bool_decide (enc_status r = StatusCode.ok).

Definition encode_success (p : Buffer) : EncodeResult :=
  mkEncodeResult (Some p) StatusCode.ok EmptyString.

Definition encode_failure (status : StatusCode) (message : string) : EncodeResult :=
  mkEncodeResult None status message.

Record DecodeResult (T : Type) := mkDecodeResult {
  dec_value : option T;
  dec_status : StatusCode;
  dec_message : string;
}.
Arguments mkDecodeResult {T}.
Arguments dec_value {T}.
Arguments dec_status {T}.
Arguments dec_message {T}.

Definition decode_ok {T} (r : DecodeResult T) : bool := bool_decide (dec_status r = StatusCode.ok).

Definition decode_success {T} (v : T) : DecodeResult T :=
  mkDecodeResult (Some v) StatusCode.ok EmptyString.

Definition decode_failure {T} (status : StatusCode) (message : string) : DecodeResult T :=
  mkDecodeResult None status message.

(** ** The [Codec] concept

    The C++ message types an application uses are a type [TypeIndex] of names (what
    [std::type_index] compares) with a denotation [msg].  [supports t] is
    [Codec<CodecType, T>], a compile-time fact about [T]. *)

Class Codec (TypeIndex : Type) (msg : TypeIndex → Type) := {
  supports : TypeIndex → bool;
  codec_encode : ∀ t : TypeIndex, msg t → EncodeResult;
  codec_decode : ∀ t : TypeIndex, Buffer → DecodeResult (msg t);
}.

(** What the framework relies on.  Results are built by their factories, so a successful
    encoding carries a payload; and a codec turns values into payloads {e and back}. *)
Class CodecLaws (TypeIndex : Type) (msg : TypeIndex → Type) `{C : !Codec TypeIndex msg} : Prop := {
  codec_encode_factory t v :
    (∃ p, codec_encode t v = encode_success p) ∨
    (∃ s m, s ≠ StatusCode.ok ∧ codec_encode t v = encode_failure s m);
  codec_roundtrip t v p :
    codec_encode t v = encode_success p → codec_decode t p = decode_success v;
}.

(** ** [PodCodec]

    A trivially copyable value is its object representation: [sizeof(T)] bytes, which
    [std::memcpy] copies. *)

Section pod.
Context {TypeIndex : Type} (pod_sizeof : TypeIndex → nat) (trivially_copyable : TypeIndex → bool).

Definition pod_value (t : TypeIndex) : Type := { bs : Buffer | length bs = pod_sizeof t }.

Definition pod_encode (t : TypeIndex) (v : pod_value t) : EncodeResult := encode_success (`v).

Definition pod_decode (t : TypeIndex) (p : Buffer) : DecodeResult (pod_value t) :=
  match decide (length p = pod_sizeof t) with
  | right _ => decode_failure StatusCode.decode_error "payload size does not match decoded type"
  | left H => decode_success (exist _ p H)
  end.

Definition PodCodec : Codec TypeIndex pod_value := {|
  supports := trivially_copyable;
  codec_encode := pod_encode;
  codec_decode := pod_decode;
|}.

Lemma pod_decode_encode t v p : pod_encode t v = encode_success p → pod_decode t p = decode_success v.
Proof.
  intros [= <-]. unfold pod_decode. destruct v as [bs Hbs]. simpl.
  destruct (decide _) as [H|H]; [|done]. do 2 f_equal. f_equal. apply proof_irrel.
Qed.

Lemma PodCodec_laws : CodecLaws TypeIndex pod_value (C := PodCodec).
Proof. split; [left; eauto|exact pod_decode_encode]. Qed.

End pod.
