(* ===== verification/MessageRegistry.v ===== *)
(** * The message registry

    [include/rillnet/message_registry.hpp]: per protocol version, the two-way association
    of C++ message types with wire message types. *)

From S2P Require Import Prelude Identifiers Status Codec.

Local Open Scope Z_scope.

Module MessageRegistrationError.
Inductive MessageRegistrationError :=
  | none
  | invalid_id
  | duplicate_id
  | duplicate_type
  | unsupported_message_type.
End MessageRegistrationError.
Abbreviation MessageRegistrationError := MessageRegistrationError.MessageRegistrationError.

#[export] Instance MessageRegistrationError_eq_dec : EqDecision MessageRegistrationError.
Proof. solve_decision. Defined.

Record MessageRegistrationResult := mkRegistrationResult {
  reg_error : MessageRegistrationError;
  reg_message : string;
}.

Definition registration_ok (r : MessageRegistrationResult) : bool :=
  bool_decide (reg_error r = MessageRegistrationError.none).

Definition registration_failure (e : MessageRegistrationError) (m : string)
    : MessageRegistrationResult := mkRegistrationResult e m.

Section registry.
Context {TypeIndex : Type} `{Countable TypeIndex} {msg : TypeIndex → Type} `{C : !Codec TypeIndex msg}.

Record VersionRegistrations := mkRegistrations {
  by_id : gmap MessageType TypeIndex;
  by_type : gmap TypeIndex MessageType;
}.

(** [registrations_] is a [std::map] from versions. *)
Record MessageRegistry := mkRegistry {
  registrations_ : gmap ProtocolVersion VersionRegistrations;
}.

Definition new_registry : MessageRegistry := mkRegistry ∅.

Definition no_registrations : VersionRegistrations := mkRegistrations ∅ ∅.

(** [register_message<Message>(version, id)].  [registrations_[version]] inserts an empty
    entry when the version is new, also when the registration then fails. *)
Definition register_message (t : TypeIndex) (ver : ProtocolVersion) (id : MessageType)
    (reg : MessageRegistry) : MessageRegistrationResult * MessageRegistry :=
  if negb (is_valid id) then
    (registration_failure MessageRegistrationError.invalid_id "message id must be non-zero", reg)
  else
    let registrations := default no_registrations (registrations_ reg !! ver) in
    let reg := mkRegistry (<[ver := registrations]> (registrations_ reg)) in
    if decide (is_Some (by_id registrations !! id)) then
      (registration_failure MessageRegistrationError.duplicate_id
         "message id is already registered", reg)
    else if decide (is_Some (by_type registrations !! t)) then
      (registration_failure MessageRegistrationError.duplicate_type
         "message type is already registered", reg)
    else if negb (supports t) then
      (registration_failure MessageRegistrationError.unsupported_message_type
         "message type is not supported by the registry codec", reg)
    else
      (mkRegistrationResult MessageRegistrationError.none EmptyString,
       mkRegistry (<[ver := mkRegistrations (<[id := t]> (by_id registrations))
                              (<[t := id]> (by_type registrations))]> (registrations_ reg))).

(** [register_message<Message>(std::uint32_t)]: the current version. *)
Definition register_message_current (t : TypeIndex) (id : Z) (reg : MessageRegistry) :=
  register_message t current_protocol_version (mkId id) reg.

Definition contains_type (t : TypeIndex) (ver : ProtocolVersion) (reg : MessageRegistry) : bool :=
  match registrations_ reg !! ver with
  | None => false
  | Some r => bool_decide (is_Some (by_type r !! t))
  end.

Definition contains_id (ver : ProtocolVersion) (id : MessageType) (reg : MessageRegistry) : bool :=
  match registrations_ reg !! ver with
  | None => false
  | Some r => bool_decide (is_Some (by_id r !! id))
  end.

(** [message_type<Message>(version)]: the wire type of a C++ type. *)
Definition message_type_of (t : TypeIndex) (ver : ProtocolVersion) (reg : MessageRegistry)
    : option MessageType :=
  match registrations_ reg !! ver with
  | None => None
  | Some r => by_type r !! t
  end.

(** [message_type(version, id)]: the C++ type of a wire type. *)
Definition message_type_at (ver : ProtocolVersion) (id : MessageType) (reg : MessageRegistry)
    : option TypeIndex :=
  match registrations_ reg !! ver with
  | None => None
  | Some r => by_id r !! id
  end.

(** The overloads for the current version. *)
Definition contains_type_current (t : TypeIndex) (reg : MessageRegistry) : bool :=
  contains_type t current_protocol_version reg.

Definition contains_id_current (id : MessageType) (reg : MessageRegistry) : bool :=
  contains_id current_protocol_version id reg.

Definition message_type_of_current (t : TypeIndex) (reg : MessageRegistry) : option MessageType :=
  message_type_of t current_protocol_version reg.

Definition message_type_at_current (id : MessageType) (reg : MessageRegistry) : option TypeIndex :=
  message_type_at current_protocol_version id reg.

(** [VersionRegistry]: a reference to the registry together with a version; the registry it
    refers to is passed to its member functions. *)
Record VersionRegistry := mkVersionRegistry {
  vr_version : ProtocolVersion;
}.

Definition for_version (ver : ProtocolVersion) : VersionRegistry := mkVersionRegistry ver.

Definition vr_register_message (t : TypeIndex) (id : MessageType) (vr : VersionRegistry)
    (reg : MessageRegistry) : MessageRegistrationResult * MessageRegistry :=
  register_message t (vr_version vr) id reg.

Definition vr_contains_type (t : TypeIndex) (vr : VersionRegistry) (reg : MessageRegistry) : bool :=
  contains_type t (vr_version vr) reg.

Definition vr_contains_id (id : MessageType) (vr : VersionRegistry) (reg : MessageRegistry) : bool :=
  contains_id (vr_version vr) id reg.

Definition vr_message_type_of (t : TypeIndex) (vr : VersionRegistry) (reg : MessageRegistry)
    : option MessageType :=
  message_type_of t (vr_version vr) reg.

Definition vr_message_type_at (id : MessageType) (vr : VersionRegistry) (reg : MessageRegistry)
    : option TypeIndex :=
  message_type_at (vr_version vr) id reg.

(** ** Invariant *)

(** The two maps of every version are inverse to each other, identifiers are valid and fit
    32 bits, and only types the codec supports are registered. *)
Definition registry_inv (reg : MessageRegistry) : Prop :=
  ∀ ver id t,
    (message_type_at ver id reg = Some t ↔ message_type_of t ver reg = Some id) ∧
    (message_type_of t ver reg = Some id →
       is_valid id = true ∧ message_type_wf id ∧ supports t = true).

Lemma new_registry_inv : registry_inv new_registry.
Proof. intros ver id t. unfold message_type_at, message_type_of. simpl. by rewrite lookup_empty. Qed.

(** Creating the empty entry of a version changes no lookup. *)
Lemma touch_version_lookup ver ver' reg r :
  r = default no_registrations (registrations_ reg !! ver) →
  (∀ id, message_type_at ver' id (mkRegistry (<[ver := r]> (registrations_ reg)))
     = message_type_at ver' id reg) ∧
  (∀ t, message_type_of t ver' (mkRegistry (<[ver := r]> (registrations_ reg)))
     = message_type_of t ver' reg).
Proof.
  intros ->. unfold message_type_at, message_type_of. simpl. split; intros x;
    destruct (decide (ver = ver')) as [->|]; rewrite ?lookup_insert_eq, ?lookup_insert_ne by done;
    try done; destruct (registrations_ reg !! ver'); simpl; by rewrite ?lookup_empty.
Qed.

(** The outcome of a registration in terms of the lookups. *)
Lemma register_message_spec t ver id reg :
  let r := register_message t ver id reg in
  (reg_error r.1 ≠ MessageRegistrationError.none ∧
   (∀ v i, message_type_at v i r.2 = message_type_at v i reg) ∧
   (∀ t' v, message_type_of t' v r.2 = message_type_of t' v reg)) ∨
  (reg_error r.1 = MessageRegistrationError.none ∧
   is_valid id = true ∧ supports t = true ∧
   message_type_at ver id reg = None ∧ message_type_of t ver reg = None ∧
   (∀ v i, message_type_at v i r.2 =
      if decide (v = ver ∧ i = id) then Some t else message_type_at v i reg) ∧
   (∀ t' v, message_type_of t' v r.2 =
      if decide (v = ver ∧ t' = t) then Some id else message_type_of t' v reg)).
Proof.
  unfold register_message. destruct (is_valid id) eqn:Hid; simpl; [|by left].
  set (rs := default no_registrations (registrations_ reg !! ver)).
  assert (Hat : ∀ i, message_type_at ver i reg = by_id rs !! i).
  { intros i. unfold message_type_at, rs. destruct (registrations_ reg !! ver); simpl; [done|].
    by rewrite lookup_empty. }
  assert (Hof : ∀ t', message_type_of t' ver reg = by_type rs !! t').
  { intros t'. unfold message_type_of, rs. destruct (registrations_ reg !! ver); simpl; [done|].
    by rewrite lookup_empty. }
  pose proof (touch_version_lookup ver) as Htouch.
  case_decide as Hdid; simpl.
  { left. split; [done|]. split; intros; by apply Htouch. }
  case_decide as Hdty; simpl.
  { left. split; [done|]. split; intros; by apply Htouch. }
  destruct (supports t) eqn:Hsup; simpl.
  2: { left. split; [done|]. split; intros; by apply Htouch. }
  right. rewrite Hat, Hof. apply eq_None_not_Some in Hdid. apply eq_None_not_Some in Hdty.
  split_and!; auto; intros x y; unfold message_type_at, message_type_of; simpl;
    rewrite insert_insert_eq, lookup_insert; case_decide as Hv; subst; simpl.
  - rewrite lookup_insert. fold (message_type_at x y reg). rewrite Hat.
    repeat case_decide; naive_solver.
  - rewrite decide_False by naive_solver. done.
  - rewrite lookup_insert. fold (message_type_of x y reg). rewrite Hof.
    repeat case_decide; naive_solver.
  - rewrite decide_False by naive_solver. done.
Qed.

Lemma register_message_inv t ver id reg :
  message_type_wf id → registry_inv reg → registry_inv (register_message t ver id reg).2.
Proof.
  intros Hwf Hi v i t'. destruct (register_message_spec t ver id reg)
    as [(_ & Ha & Ho)|(_ & Hid & Hsup & Hna & Hno & Ha & Ho)].
  - rewrite Ha, Ho. apply Hi.
  - rewrite Ha, Ho. destruct (Hi v i t') as [Hiff Hval].
    case_decide as H1; case_decide as H2; [| | |done].
    + destruct H1 as [-> ->], H2 as [_ ->]. split; [done|auto].
    + destruct H1 as [-> ->]. rewrite Hna in Hiff. split; [|done]. split.
      * intros [= <-]. destruct H2. done.
      * intros Hx. apply Hiff in Hx. done.
    + destruct H2 as [-> ->]. rewrite Hno in Hiff. split.
      * split; [intros Hx; by apply Hiff in Hx|]. intros [= <-]. destruct H1. done.
      * intros [= <-]. auto.
Qed.

(** A history of registration requests, whatever their outcomes. *)
Fixpoint register_all (reqs : list (TypeIndex * ProtocolVersion * MessageType))
    (reg : MessageRegistry) : MessageRegistry :=
  match reqs with
  | [] => reg
  | (t, ver, id) :: reqs' => register_all reqs' (register_message t ver id reg).2
  end.

Lemma register_all_inv reqs reg :
  Forall (λ '(_, _, id), message_type_wf id) reqs →
  registry_inv reg → registry_inv (register_all reqs reg).
Proof.
  intros Hf. revert reg. induction Hf as [|[[t ver] id] reqs Hid _ IH]; intros reg Hi; [done|].
  apply IH, register_message_inv; auto.
Qed.

(** The verdict of a registration, by precedence of the checks. *)
Definition registration_verdict (t : TypeIndex) (ver : ProtocolVersion) (id : MessageType)
    (reg : MessageRegistry) : MessageRegistrationError :=
  if negb (is_valid id) then MessageRegistrationError.invalid_id
  else if contains_id ver id reg then MessageRegistrationError.duplicate_id
  else if contains_type t ver reg then MessageRegistrationError.duplicate_type
  else if negb (supports t) then MessageRegistrationError.unsupported_message_type
  else MessageRegistrationError.none.

Lemma register_message_verdict t ver id reg :
  reg_error (register_message t ver id reg).1 = registration_verdict t ver id reg.
Proof.
  unfold register_message, registration_verdict, contains_id, contains_type.
  destruct (is_valid id); simpl; [|done].
  destruct (registrations_ reg !! ver) as [rs|]; simpl.
  - repeat case_decide; repeat case_bool_decide; simpl; try done.
    by destruct (supports t).
  - rewrite !lookup_empty. repeat case_decide; try (destruct (is_Some_None ltac:(eassumption))).
    by destruct (supports t).
Qed.

Lemma register_all_stable reqs reg t ver id :
  message_type_of t ver reg = Some id → message_type_of t ver (register_all reqs reg) = Some id.
Proof.
  revert reg. induction reqs as [|[[t' ver'] id'] reqs IH]; intros reg Hreg; [done|].
  apply IH. destruct (register_message_spec t' ver' id' reg)
    as [(_ & _ & Ho)|(_ & _ & _ & _ & Hno & _ & Ho)]; rewrite Ho; [done|].
  case_decide as Hd; [|done]. destruct Hd as [-> ->]. congruence.
Qed.

(** ** Properties *)

(** C36: after any history of registration requests, accepted or refused, the message types
    and the wire identifiers of each protocol version are in one-to-one correspondence,
    both lookups agree, and every registered identifier is non-zero and every registered
    type supported by the codec. *)
Theorem registry_bijective reqs ver t id :
  Forall (λ '(_, _, i), message_type_wf i) reqs →
  let reg := register_all reqs new_registry in
  (message_type_at ver id reg = Some t ↔ message_type_of t ver reg = Some id) ∧
  (message_type_of t ver reg = Some id →
     is_valid id = true ∧ supports t = true ∧
     ∀ t', message_type_of t' ver reg = Some id → t' = t).
Proof.
  intros Hf reg. pose proof (register_all_inv reqs new_registry Hf new_registry_inv) as Hi.
  fold reg in Hi. destruct (Hi ver id t) as [Hiff Hval]. split; [done|]. intros Ht.
  destruct (Hval Ht) as (? & _ & ?). split_and!; auto. intros t' Ht'.
  apply (proj1 (Hi ver id t')) in Ht'. apply Hiff in Ht. congruence.
Qed.

(** The outcome of a registration is determined by its checks in their order; a refused
    registration changes no lookup, an accepted one adds exactly its pair, and no later
    request removes or changes a registration. *)
Theorem register_message_outcome t ver id reg more :
  let r := register_message t ver id reg in
  reg_error r.1 = registration_verdict t ver id reg ∧
  (registration_ok r.1 = false →
     (∀ v i, message_type_at v i r.2 = message_type_at v i reg) ∧
     (∀ t' v, message_type_of t' v r.2 = message_type_of t' v reg)) ∧
  (registration_ok r.1 = true →
     message_type_of t ver (register_all more r.2) = Some id ∧
     ∀ t' v, v ≠ ver ∨ t' ≠ t → message_type_of t' v r.2 = message_type_of t' v reg).
Proof.
  intros r. split; [apply register_message_verdict|]. unfold registration_ok.
  destruct (register_message_spec t ver id reg) as [(He & Ha & Ho)|(He & _ & _ & _ & _ & _ & Ho)];
    fold r in He, Ho; split; intros Hok.
  - done.
  - by apply bool_decide_eq_true in Hok.
  - by apply bool_decide_eq_false in Hok.
  - split.
    + apply register_all_stable. by rewrite Ho, decide_True.
    + intros t' v Hne. rewrite Ho, decide_False; [done|]. intros [-> ->]. by destruct Hne.
Qed.

End registry.

Lemma registry_bijective_witness :
  let C := PodCodec (TypeIndex := nat) (λ t, t) (λ _, true) in
  let reg := register_all (C := C) [(4%nat, current_protocol_version, mkId 100);
      (8%nat, current_protocol_version, mkId 100); (8%nat, current_protocol_version, mkId 200)]
      new_registry in
  (message_type_at current_protocol_version (mkId 200) reg = Some 8%nat ↔
     message_type_of 8%nat current_protocol_version reg = Some (mkId 200)) ∧
  (message_type_of 8%nat current_protocol_version reg = Some (mkId 200) →
     is_valid (mkId 200 : MessageType) = true ∧ supports (Codec := C) 8%nat = true ∧
     ∀ t', message_type_of t' current_protocol_version reg = Some (mkId 200) → t' = 8%nat).
Proof.
  apply (registry_bijective (C := PodCodec (TypeIndex := nat) (λ t, t) (λ _, true))).
  repeat constructor; vm_compute; congruence.
Defined.
