(* ===== verification/MessageCodec.v ===== *)
(** * Typed messages on the wire

    [include/rillnet/message_codec.hpp]: a typed message becomes a frame payload made of its
    4-byte wire message type and its codec-encoded body, and back. *)

From S2P Require Import Prelude Identifiers Status Frame FrameCodec FrameDecoder Codec MessageRegistry.

Local Open Scope Z_scope.

Definition message_type_size : nat := 4.

Record FrameEncodeResult := mkFrameEncodeResult {
  fe_frame : option Frame;
  fe_status : StatusCode;
  fe_message : string;
}.

Definition frame_encode_ok (r : FrameEncodeResult) : bool :=
  bool_decide (fe_status r = StatusCode.ok).

Definition frame_encode_success (f : Frame) : FrameEncodeResult :=
  mkFrameEncodeResult (Some f) StatusCode.ok EmptyString.

Definition frame_encode_failure (status : StatusCode) (message : string) : FrameEncodeResult :=
  mkFrameEncodeResult None status message.

Definition peek_message_type (p : Buffer) : option MessageType :=
  if decide (length p < message_type_size)%nat then None else Some (mkId (read_be32 p 0)).

Section message_codec.
Context {TypeIndex : Type} `{Countable TypeIndex} {msg : TypeIndex → Type} `{C : !Codec TypeIndex msg}.

(** [*encoded.payload] after [encoded.ok()]: a codec builds its results with the factories
    ([CodecLaws]), so the payload is there; an engaged status without payload is returned
    as it is. *)
Definition encode_message_payload (reg : MessageRegistry (TypeIndex := TypeIndex)) (t : TypeIndex)
    (v : msg t) (ver : ProtocolVersion) : EncodeResult :=
  match message_type_of t ver reg with
  | None => encode_failure StatusCode.unknown_message_type "message type is not registered"
  | Some wire_type =>
      let encoded := codec_encode t v in
      if negb (encode_ok encoded) then encoded
      else
        match enc_payload encoded with
        | None => encoded
        | Some body =>
            let p := replicate (message_type_size + length body) x00 in
            let p := write_be32 p 0 (value wire_type) in
            encode_success (take message_type_size p ++ body)
        end
  end.

Definition decode_message_payload (reg : MessageRegistry (TypeIndex := TypeIndex)) (t : TypeIndex)
    (p : Buffer) (ver : ProtocolVersion) : DecodeResult (msg t) :=
  match peek_message_type p with
  | None =>
      decode_failure StatusCode.decode_error "payload is too small to contain a message type"
  | Some wire_type =>
      if decide (message_type_of t ver reg = Some wire_type) then
        codec_decode t (drop message_type_size p)
      else
        decode_failure StatusCode.unknown_message_type "payload message type does not match Message"
  end.

Definition encode_message (reg : MessageRegistry (TypeIndex := TypeIndex)) (t : TypeIndex)
    (v : msg t) (s : StreamId) (frame_type : FrameType) (fl : FrameFlags)
    (max_payload_size : Z) (ver : ProtocolVersion) : FrameEncodeResult :=
  let encoded := encode_message_payload reg t v ver in
  if negb (encode_ok encoded) then
    frame_encode_failure (enc_status encoded) (enc_message encoded)
  else
    match enc_payload encoded with
    | None => frame_encode_failure (enc_status encoded) (enc_message encoded)
    | Some p =>
        if Z.of_nat (length p) >? max_payload_size then
          frame_encode_failure StatusCode.resource_limit_exceeded
            "encoded message exceeds the maximum payload size"
        else
          frame_encode_success
            (mkFrame (mkHeader ver frame_type fl s (uwrap 32 (Z.of_nat (length p)))) p)
    end.

(** With the trailing arguments defaulted, as the connections call it. *)
Definition encode_message_default (reg : MessageRegistry (TypeIndex := TypeIndex)) (t : TypeIndex)
    (v : msg t) (s : StreamId) (frame_type : FrameType) : FrameEncodeResult :=
  encode_message reg t v s frame_type FrameFlags.none default_max_payload_size
    current_protocol_version.

Definition decode_message (reg : MessageRegistry (TypeIndex := TypeIndex)) (t : TypeIndex)
    (frame : Frame) : DecodeResult (msg t) :=
  decode_message_payload reg t (payload frame) (version (header frame)).

(** ** Lemmas *)

Lemma write_prefix (body : Buffer) v :
  take message_type_size (write_be32 (replicate (message_type_size + length body) x00) 0 v)
    = be_bytes 4 v.
Proof.
  unfold message_type_size. cbn [Nat.add replicate]. rewrite write_be32_bytes.
  by rewrite take_app_length'.
Qed.

Lemma peek_prefix v (body : Buffer) :
  0 ≤ v < 2 ^ 32 → peek_message_type (be_bytes 4 v ++ body) = Some (mkId v).
Proof.
  intros Hv. unfold peek_message_type.
  rewrite decide_False by (rewrite length_app, length_be_bytes; unfold message_type_size; lia).
  rewrite read_be32_val. do 2 f_equal.
  change (be_val _) with (be_val (be_bytes 4 v)). rewrite be_val_be_bytes.
  by apply Z.mod_small.
Qed.

Context `{!CodecLaws TypeIndex msg}.

(** Encoding a payload, branch by branch. *)
Lemma encode_message_payload_spec reg t v ver :
  (message_type_of t ver reg = None ∧ encode_message_payload reg t v ver =
     encode_failure StatusCode.unknown_message_type "message type is not registered") ∨
  (∃ id s m, message_type_of t ver reg = Some id ∧ s ≠ StatusCode.ok ∧
     codec_encode t v = encode_failure s m ∧
     encode_message_payload reg t v ver = encode_failure s m) ∨
  (∃ id body, message_type_of t ver reg = Some id ∧ codec_encode t v = encode_success body ∧
     encode_message_payload reg t v ver = encode_success (be_bytes 4 (value id) ++ body)).
Proof.
  unfold encode_message_payload. destruct (message_type_of t ver reg) as [id|]; [|by left].
  right. destruct (codec_encode_factory t v) as [[body ->]|(s & m & Hs & ->)].
  - right. exists id, body. unfold encode_ok. cbn [enc_status enc_payload encode_success].
    rewrite bool_decide_eq_true_2 by done. cbn [negb]. by rewrite write_prefix.
  - left. exists id, s, m. unfold encode_ok. simpl. by rewrite bool_decide_eq_false_2.
Qed.

Lemma encode_message_success reg t v s ty fl mx ver f :
  encode_message reg t v s ty fl mx ver = frame_encode_success f →
  ∃ id body, message_type_of t ver reg = Some id ∧ codec_encode t v = encode_success body ∧
    payload f = be_bytes 4 (value id) ++ body ∧ Z.of_nat (length (payload f)) ≤ mx ∧
    header f = mkHeader ver ty fl s (uwrap 32 (Z.of_nat (length (payload f)))).
Proof.
  unfold encode_message.
  destruct (encode_message_payload_spec reg t v ver)
    as [(_ & ->)|[(id & s' & m & _ & Hs & _ & ->)|(id & body & Hid & Henc & ->)]].
  - done.
  - unfold encode_ok. simpl. rewrite bool_decide_eq_false_2 by done. done.
  - unfold encode_ok. cbn [enc_status enc_payload encode_success].
    rewrite bool_decide_eq_true_2 by done. cbn [negb]. rewrite Z.gtb_ltb.
    destruct (Z.ltb_spec mx (Z.of_nat (length (be_bytes 4 (value id) ++ body)))) as [|Hle]; [done|].
    intros [= <-]. exists id, body. done.
Qed.

(** The result is built by one of the factories. *)
Lemma encode_message_factory reg t v s ty :
  (∃ f, encode_message_default reg t v s ty = frame_encode_success f) ∨
  (∃ st m, st ≠ StatusCode.ok ∧ encode_message_default reg t v s ty = frame_encode_failure st m).
Proof.
  unfold encode_message_default, encode_message.
  destruct (encode_message_payload_spec reg t v current_protocol_version)
    as [(_ & ->)|[(id & s' & m & _ & Hs & _ & ->)|(id & body & Hid & Henc & ->)]].
  - right. eexists _, _. split; [|reflexivity]. done.
  - right. exists s', m. unfold encode_ok. simpl. by rewrite bool_decide_eq_false_2 by done.
  - unfold encode_ok. cbn [enc_status enc_payload encode_success].
    rewrite bool_decide_eq_true_2 by done. cbn [negb].
    destruct (_ >? _); [right; eexists _, _; split; [|reflexivity]; done|left; eauto].
Qed.

Lemma decode_message_encode reg t v s ty fl mx ver f :
  registry_inv reg →
  encode_message reg t v s ty fl mx ver = frame_encode_success f →
  decode_message reg t f = decode_success v ∧
  (∀ t', t' ≠ t → decode_message reg t' f =
     decode_failure StatusCode.unknown_message_type "payload message type does not match Message").
Proof.
  intros Hi Henc. apply encode_message_success in Henc as (id & body & Hid & Hbody & Hp & _ & Hh).
  destruct (Hi ver id t) as [Hiff Hval]. destruct (Hval Hid) as (_ & Hwf & _).
  unfold decode_message, decode_message_payload. rewrite Hh, Hp. cbn [version].
  rewrite peek_prefix by apply Hwf. destruct id as [i]. cbn [value] in *. split.
  - rewrite decide_True by done. rewrite drop_app_length' by done. by apply codec_roundtrip.
  - intros t' Hne. rewrite decide_False; [done|]. intros Ht'.
    apply (proj1 (Hi ver (mkId i) t')) in Ht'. apply Hiff in Hid. congruence.
Qed.

(** A frame that [encode_message] built for a known frame type and a valid stream is valid
    on the wire. *)
Lemma encode_message_valid reg t v s ty f :
  value s ≠ 0 → stream_wf s → ty = FrameType.request ∨ ty = FrameType.response →
  encode_message_default reg t v s ty = frame_encode_success f →
  header_wf (header f) ∧ frame_valid f default_max_payload_size.
Proof.
  intros Hs Hsw Hty Henc. unfold encode_message_default in Henc.
  apply encode_message_success in Henc as (id & body & _ & _ & _ & Hmax & Hh).
  assert (default_max_payload_size < 2 ^ 32) as Hm by done.
  assert (uwrap 32 (Z.of_nat (length (payload f))) = Z.of_nat (length (payload f))) as Hw
    by (apply Z.mod_small; lia).
  unfold header_wf, frame_valid, header_valid, uint32_max. rewrite Hh, Hw. simpl.
  split_and!; try done; try (unfold in_u; lia). intros [? _]. done.
Qed.

(** ** Properties *)

(** A typed message survives the wire: encoded by one endpoint, split into arbitrary
    chunks and decoded by another endpoint that shares the registry, it yields one frame,
    which decodes to the same value at its own type and is refused as
    [unknown_message_type] at every other type. *)
Theorem message_wire_roundtrip reg t v s ty f chunks :
  registry_inv reg →
  value s ≠ 0 → stream_wf s → ty = FrameType.request ∨ ty = FrameType.response →
  encode_message_default reg t v s ty = frame_encode_success f →
  concat chunks = encode_frame f →
  ∃ d, push_all (new_decoder default_max_payload_size) chunks = Some (d, [f]) ∧
    decoder_error d = None ∧ has_incomplete_frame d = false ∧
    stream (header f) = s ∧ type (header f) = ty ∧
    decode_message reg t f = decode_success v ∧
    ∀ t', t' ≠ t → dec_status (decode_message reg t' f) = StatusCode.unknown_message_type.
Proof.
  intros Hi Hs Hsw Hty Henc Hc.
  destruct (encode_message_valid reg t v s ty f Hs Hsw Hty Henc) as [Hwf Hv].
  destruct (push_all_encode default_max_payload_size [f] chunks) as (d & Hp & He & Hinc).
  { constructor; [done|constructor]. }
  { simpl. by rewrite app_nil_r. }
  destruct (decode_message_encode reg t v s ty _ _ _ f Hi Henc) as [Hd Hd'].
  pose proof (encode_message_success reg t v s ty _ _ _ f Henc) as (_ & _ & _ & _ & _ & _ & Hh).
  exists d. rewrite Hh. split_and!; auto. intros t' Hne. by rewrite Hd'.
Qed.

(** [encode_message] reports an unregistered type as [unknown_message_type], passes a
    codec failure through unchanged, reports an oversized payload as
    [resource_limit_exceeded], and otherwise succeeds with a header that describes exactly
    the payload: prefix and body. *)
Theorem encode_message_outcome reg t v s ty fl mx ver :
  let r := encode_message reg t v s ty fl mx ver in
  match message_type_of t ver reg with
  | None => fe_frame r = None ∧ fe_status r = StatusCode.unknown_message_type
  | Some id =>
      (∃ st m, codec_encode t v = encode_failure st m ∧ r = frame_encode_failure st m) ∨
      (∃ body, codec_encode t v = encode_success body ∧
         let p := be_bytes 4 (value id) ++ body in
         if decide (Z.of_nat (length p) ≤ mx)
         then r = frame_encode_success
                (mkFrame (mkHeader ver ty fl s (uwrap 32 (Z.of_nat (length p)))) p)
         else fe_frame r = None ∧ fe_status r = StatusCode.resource_limit_exceeded)
  end.
Proof.
  unfold encode_message.
  destruct (encode_message_payload_spec reg t v ver)
    as [(-> & ->)|[(id & st & m & -> & Hs & Hc & ->)|(id & body & -> & Henc & ->)]].
  - done.
  - left. exists st, m. unfold encode_ok. simpl. by rewrite bool_decide_eq_false_2.
  - right. exists body. split; [done|]. unfold encode_ok.
    cbn [enc_status enc_payload encode_success]. rewrite bool_decide_eq_true_2 by done.
    cbn [negb]. rewrite Z.gtb_ltb. case_decide as Hle.
    + rewrite (proj2 (Z.ltb_ge _ _)) by lia. done.
    + rewrite (proj2 (Z.ltb_lt _ _)) by lia. done.
Qed.

End message_codec.

(** ** Witness: two plain-data message types of two and eight bytes *)

Definition demo_codec : Codec nat (pod_value (λ t, t)) := PodCodec (λ t, t) (λ _, true).

Definition demo_registry : MessageRegistry (TypeIndex := nat) :=
  register_all (C := demo_codec)
    [(2%nat, current_protocol_version, mkId 100); (8%nat, current_protocol_version, mkId 200)]
    new_registry.

Definition demo_message : pod_value (λ t : nat, t) 2%nat := exist _ [x2a; x07] eq_refl.

Definition demo_frame : Frame :=
  mkFrame (mkHeader current_protocol_version FrameType.request FrameFlags.none (mkId 1) 6)
    [x00; x00; x00; x64; x2a; x07].

Lemma demo_registry_inv : registry_inv (C := demo_codec) demo_registry.
Proof.
  apply register_all_inv; [|apply new_registry_inv].
  repeat constructor; vm_compute; congruence.
Qed.

Lemma message_wire_roundtrip_witness :
  ∃ d, push_all (new_decoder default_max_payload_size)
      [take 9 (encode_frame demo_frame); drop 9 (encode_frame demo_frame)] = Some (d, [demo_frame]) ∧
    decoder_error d = None ∧ has_incomplete_frame d = false ∧
    stream (header demo_frame) = mkId 1 ∧ type (header demo_frame) = FrameType.request ∧
    decode_message (C := demo_codec) demo_registry 2%nat demo_frame = decode_success demo_message ∧
    ∀ t', t' ≠ 2%nat → dec_status (decode_message (C := demo_codec) demo_registry t' demo_frame)
      = StatusCode.unknown_message_type.
Proof.
  eapply (message_wire_roundtrip (C := demo_codec) (CodecLaws0 := PodCodec_laws _ _)
    demo_registry 2%nat demo_message);
    [apply demo_registry_inv|vm_decide|vm_decide|by left|vm_compute; reflexivity
    |vm_compute; reflexivity].
Defined.

(** The hypothesis on the codec in [encode_message_outcome] holds of [PodCodec]. *)
Lemma encode_message_outcome_witness :
  fe_frame (encode_message (C := demo_codec) demo_registry 3%nat (exist _ [x00; x01; x02] eq_refl)
    (mkId 1) FrameType.request FrameFlags.none 64 current_protocol_version) = None ∧
  fe_status (encode_message (C := demo_codec) demo_registry 3%nat (exist _ [x00; x01; x02] eq_refl)
    (mkId 1) FrameType.request FrameFlags.none 64 current_protocol_version)
    = StatusCode.unknown_message_type.
Proof.
  exact (encode_message_outcome (C := demo_codec) (CodecLaws0 := PodCodec_laws _ _) demo_registry 3%nat
    (exist _ [x00; x01; x02] eq_refl) (mkId 1) FrameType.request FrameFlags.none 64
    current_protocol_version).
Defined.
