(* ===== verification/Transport.v ===== *)
(** * Transports

    [include/rillnet/transport.hpp] and [include/rillnet/tcp_transport.hpp]: the byte-stream
    interface the connections use, as a class with its documented laws, and the TCP
    transport as an instance.  What the socket answers to an operation comes from the
    environment and is an argument of the operation. *)

From S2P Require Import Prelude Frame.

(** ** Answers of the environment *)

(** [socket_.async_read_some] transfers some bytes or ends with an error code, of which
    [eof] is singled out. *)
Inductive ReadIo :=
  | IoRead (bytes : Buffer)
  | IoReadEof
  | IoReadError (what : string).

(** [async_write] transfers the complete buffer or ends with an error code. *)
Inductive WriteIo :=
  | IoWritten
  | IoWriteError (what : string).

(** ** What the interface returns *)

(** [read] returns the bytes it stored in the buffer (their number is the returned count) or
    throws [boost::system::system_error]. *)
Inductive ReadResult :=
  | ReadBytes (bytes : Buffer)
  | ReadThrow (what : string).

Inductive WriteOutcome :=
  | WriteDone
  | WriteThrow (what : string).

(** ** The interface *)

(** [read] and [write] are coroutines that suspend at most once, in the socket operation.
    The [begin] half runs until then: [t_read_begin] is false when [read] returns zero bytes
    at once, [t_write_begin] the exception that [write] throws at once, if it does not
    suspend.  The [end] half runs when the socket has
    answered; other coroutines may have run, and closed the transport, in between. *)
Class Transport (T : Type) := {
  t_is_open : T → bool;
  t_close : T → T;
  t_read_begin : T → bool;
  t_read_end : ReadIo → T → ReadResult * T;
  t_write_begin : T → option string;
  t_write_end : WriteIo → T → WriteOutcome * T;
}.

(** The documented contract: [close] releases the connection and may be repeated; nothing
    reopens a closed transport; a closed transport starts no transfer. *)
Class TransportLaws (T : Type) `{!Transport T} : Prop := {
  t_close_closes t : t_is_open (t_close t) = false;
  t_close_idemp t : t_close (t_close t) = t_close t;
  t_read_begin_closed t : t_is_open t = false → t_read_begin t = false;
  t_write_begin_closed t : t_is_open t = false → is_Some (t_write_begin t);
  t_read_end_closed io t : t_is_open t = false → t_is_open (t_read_end io t).2 = false;
  t_write_end_closed io t : t_is_open t = false → t_is_open (t_write_end io t).2 = false;
}.

(** ** [TcpTransport] *)

Record TcpTransport := mkTcpTransport {
  socket_is_open : bool;
  open_ : bool;
}.

(** The constructor takes a connected socket. *)
Definition new_tcp_transport : TcpTransport := mkTcpTransport true true.

Definition tcp_is_open (t : TcpTransport) : bool := open_ t && socket_is_open t.

Definition tcp_close (t : TcpTransport) : TcpTransport :=
  if negb (open_ t) then t else mkTcpTransport false false.

(** The destructor. *)
Definition tcp_destroy (t : TcpTransport) : TcpTransport := tcp_close t.

Definition tcp_read_begin (t : TcpTransport) : bool := if negb (tcp_is_open t) then false else true.

Definition tcp_read_end (io : ReadIo) (t : TcpTransport) : ReadResult * TcpTransport :=
  match io with
  | IoReadEof => (ReadBytes [], tcp_close t)
  | IoReadError what => (ReadThrow what, tcp_close t)
  | IoRead bytes => (ReadBytes bytes, t)
  end.

(** The text of [boost::asio::error::not_connected]. *)
Definition not_connected : string := "Transport endpoint is not connected".

Definition tcp_write_begin (t : TcpTransport) : option string :=
  if negb (tcp_is_open t) then Some not_connected else None.

Definition tcp_write_end (io : WriteIo) (t : TcpTransport) : WriteOutcome * TcpTransport :=
  match io with
  | IoWriteError what => (WriteThrow what, tcp_close t)
  | IoWritten => (WriteDone, t)
  end.

#[export] Instance TcpTransport_transport : Transport TcpTransport := {|
  t_is_open := tcp_is_open;
  t_close := tcp_close;
  t_read_begin := tcp_read_begin;
  t_read_end := tcp_read_end;
  t_write_begin := tcp_write_begin;
  t_write_end := tcp_write_end;
|}.

#[export] Instance TcpTransport_laws : TransportLaws TcpTransport.
Proof.
  split; cbn; unfold tcp_is_open, tcp_close, tcp_read_begin, tcp_write_begin, tcp_is_open.
  - by intros [[] []].
  - by intros [[] []].
  - by intros [[] []].
  - intros [[] []]; try done; simpl; eauto.
  - intros [] [[] []]; done.
  - intros [] [[] []]; done.
Qed.

(** ** Properties *)

(** What happens to a transport over its life: transfers that were started end, and the
    owner closes it, in any order. *)
Inductive TransportOp := OpClose | OpReadEnd (io : ReadIo) | OpWriteEnd (io : WriteIo).

Definition transport_step {T} `{!Transport T} (t : T) (o : TransportOp) : T :=
  match o with
  | OpClose => t_close t
  | OpReadEnd io => (t_read_end io t).2
  | OpWriteEnd io => (t_write_end io t).2
  end.

Definition transport_run {T} `{!Transport T} (t : T) (os : list TransportOp) : T :=
  fold_left transport_step os t.

(** What ends a transport: the owner's [close], the end of the stream, a failed transfer. *)
Definition closes (o : TransportOp) : bool :=
  match o with
  | OpClose | OpReadEnd IoReadEof | OpReadEnd (IoReadError _) | OpWriteEnd (IoWriteError _) => true
  | _ => false
  end.

Lemma tcp_run_open os t : tcp_is_open (transport_run t os) = tcp_is_open t && forallb (negb ∘ closes) os.
Proof.
  revert t. induction os as [|o os IH]; intros t; [by rewrite andb_true_r|].
  change (transport_run t (o :: os)) with (transport_run (transport_step t o) os).
  cbn [forallb]. rewrite IH, andb_assoc. f_equal.
  destruct o as [|[]|[]], t as [[] []]; done.
Qed.

(** Whatever order transfers end and the owner closes in, a TCP transport is open
    exactly until the first close, end of stream or failed transfer; from then on a read
    returns no bytes and a write throws, both without touching the socket, and closing again
    changes nothing. *)
Theorem tcp_transport_closes_once os :
  let t := transport_run new_tcp_transport os in
  t_is_open t = forallb (negb ∘ closes) os ∧
  t_read_begin t = t_is_open t ∧
  t_write_begin t = (if t_is_open t then None else Some not_connected) ∧
  (if t_is_open t then True else t_close t = t).
Proof.
  cbv zeta. pose proof (tcp_run_open os new_tcp_transport) as Ho. cbn in Ho |- *.
  unfold tcp_read_begin, tcp_write_begin. rewrite Ho. split_and!; [done|by destruct (forallb _ os)..|].
  assert (open_ (transport_run new_tcp_transport os) = socket_is_open (transport_run new_tcp_transport os))
    as Hsame.
  { clear Ho. assert (open_ new_tcp_transport = socket_is_open new_tcp_transport) as H by done.
    revert H. generalize new_tcp_transport. induction os as [|o os IH]; intros t H; [done|].
    apply IH. destruct o as [|[]|[]], t as [[] []]; done. }
  unfold tcp_is_open in Ho. rewrite <-Hsame, andb_diag in Ho.
  destruct (forallb _ os); [done|]. unfold tcp_close. by rewrite Ho.
Qed.
