(* ===== verification/Channel.v ===== *)
(** * Channels

    [boost::asio::experimental::channel], which the write queue and the connections use to
    hand messages between coroutines, is third-party code.  It is a class here: a type
    constructor with the operations the sources call and, as laws, their documented
    behaviour in terms of a view of the channel.  [ListChannel] shows that the laws can be
    met. *)

From S2P Require Import Prelude.

Local Open Scope Z_scope.

(** What is observable of a channel: its capacity, the buffered messages, the number of
    receive operations waiting for a message, the completions of receive operations whose
    coroutines have not resumed yet ([None] is an error), whether it is closed, and, as
    history, how many receive operations were started on it. *)
Record ChanView (A : Type) := mkChan {
  cv_capacity : Z;
  cv_buffer : list A;
  cv_waiting : nat;
  cv_done : list (option A);
  cv_closed : bool;
  cv_receives : nat;
}.
Arguments mkChan {A}.
Arguments cv_capacity {A}.
Arguments cv_buffer {A}.
Arguments cv_waiting {A}.
Arguments cv_done {A}.
Arguments cv_closed {A}.
Arguments cv_receives {A}.

(** ** Documented behaviour, on views *)

Definition view_make {A} (capacity : Z) : ChanView A := mkChan capacity [] 0 [] false 0.

(** [try_send] never suspends: it completes a waiting receive, or buffers the message if
    there is room, or fails; it fails on a closed channel.  A message that is not accepted is
    not moved from, so the sender may offer it again. *)
Definition view_try_send {A} (a : A) (c : ChanView A) : bool * ChanView A :=
  if cv_closed c then (false, c)
  else
    match cv_waiting c with
    | S w => (true, mkChan (cv_capacity c) (cv_buffer c) w (cv_done c ++ [Some a]) false (cv_receives c))
    | O =>
        if decide (Z.of_nat (length (cv_buffer c)) < cv_capacity c) then
          (true, mkChan (cv_capacity c) (cv_buffer c ++ [a]) 0 (cv_done c) false (cv_receives c))
        else (false, c)
    end.

(** [async_receive] takes the oldest buffered message, also from a closed channel; with none
    it fails on a closed channel and waits on an open one. *)
Definition view_async_receive {A} (c : ChanView A) : ChanView A :=
  match cv_buffer c with
  | a :: rest =>
      mkChan (cv_capacity c) rest (cv_waiting c) (cv_done c ++ [Some a]) (cv_closed c) (S (cv_receives c))
  | [] =>
      if cv_closed c
      then mkChan (cv_capacity c) [] (cv_waiting c) (cv_done c ++ [None]) true (S (cv_receives c))
      else mkChan (cv_capacity c) [] (S (cv_waiting c)) (cv_done c) false (S (cv_receives c))
  end.

(** The completion of the oldest finished receive operation. *)
Definition view_resume {A} (c : ChanView A) : option (option A * ChanView A) :=
  match cv_done c with
  | [] => None
  | r :: rest =>
      Some (r, mkChan (cv_capacity c) (cv_buffer c) (cv_waiting c) rest (cv_closed c) (cv_receives c))
  end.

(** [close] fails the waiting receives and keeps the buffered messages. *)
Definition view_close {A} (c : ChanView A) : ChanView A :=
  mkChan (cv_capacity c) (cv_buffer c) 0 (cv_done c ++ replicate (cv_waiting c) None) true
    (cv_receives c).

(** ** The interface *)

Class Channel (Ch : Type → Type) := {
  ch_make : ∀ {A}, Z → Ch A;
  ch_try_send : ∀ {A}, A → Ch A → bool * Ch A;
  ch_async_receive : ∀ {A}, Ch A → Ch A;
  ch_resume : ∀ {A}, Ch A → option (option A * Ch A);
  ch_close : ∀ {A}, Ch A → Ch A;
  ch_view : ∀ {A}, Ch A → ChanView A;
}.

Class ChannelLaws (Ch : Type → Type) `{!Channel Ch} : Prop := {
  ch_view_make {A} n : ch_view (ch_make n : Ch A) = view_make n;
  ch_view_try_send {A} (a : A) (c : Ch A) :
    ((ch_try_send a c).1, ch_view (ch_try_send a c).2) = view_try_send a (ch_view c);
  ch_view_async_receive {A} (c : Ch A) :
    ch_view (ch_async_receive c) = view_async_receive (ch_view c);
  ch_view_resume {A} (c : Ch A) :
    (prod_map id ch_view <$> ch_resume c) = view_resume (ch_view c);
  ch_view_close {A} (c : Ch A) : ch_view (ch_close c) = view_close (ch_view c);
}.

(** ** A channel that meets the laws *)

Definition ListChannel (A : Type) : Type := ChanView A.

#[export] Instance ListChannel_channel : Channel ListChannel := {|
  ch_make := @view_make;
  ch_try_send := @view_try_send;
  ch_async_receive := @view_async_receive;
  ch_resume := @view_resume;
  ch_close := @view_close;
  ch_view := λ _ c, c;
|}.

#[export] Instance ListChannel_laws : ChannelLaws ListChannel.
Proof.
  split; intros; cbn; try done.
  - by destruct (view_try_send a c).
  - unfold view_resume. by destruct (cv_done c).
Qed.

(** ** Consequences of the laws *)

(** The messages accepted and not yet consumed, oldest first. *)
Definition view_pending {A} (c : ChanView A) : list A := omap id (cv_done c) ++ cv_buffer c.

(** A waiting receive and a buffered message exclude each other; the buffer respects the
    capacity; a closed channel has no waiting receive; a receive fails only on a closed
    channel whose buffer is empty. *)
Definition view_wf {A} (c : ChanView A) : Prop :=
  (cv_waiting c ≠ 0%nat → cv_buffer c = []) ∧
  Z.of_nat (length (cv_buffer c)) ≤ Z.max 0 (cv_capacity c) ∧
  (cv_closed c = true → cv_waiting c = 0%nat) ∧
  (cv_closed c = false → Forall is_Some (cv_done c)) ∧
  (None ∈ cv_done c → cv_buffer c = []).

Lemma view_make_wf {A} n : view_wf (view_make n : ChanView A).
Proof. unfold view_wf. simpl. split_and!; try done. lia. Qed.

Lemma all_Some_not_None {A} (l : list (option A)) : Forall is_Some l → None ∉ l.
Proof. rewrite Forall_forall. intros H Hin. by destruct (H _ Hin). Qed.

Lemma view_try_send_true {A} (a : A) c c' :
  view_wf c → view_try_send a c = (true, c') →
  view_wf c' ∧ cv_closed c = false ∧ cv_closed c' = false ∧ cv_capacity c' = cv_capacity c ∧
  view_pending c' = view_pending c ++ [a] ∧
  (cv_waiting c' + length (cv_done c') = cv_waiting c + length (cv_done c))%nat.
Proof.
  intros (Hw & Hb & Hcl & Hs & Hn). unfold view_try_send.
  destruct (cv_closed c) eqn:Hc; [done|].
  destruct (cv_waiting c) as [|w] eqn:Hwc; [case_decide; [|done]|]; intros [= <-];
    unfold view_wf, view_pending; simpl.
  - split_and!; auto; try done; [rewrite length_app; simpl; lia| |by rewrite app_assoc].
    intros Hin. by apply all_Some_not_None in Hin; [|auto].
  - rewrite Hw in * by done. split_and!; auto; try done.
    + intros _. apply Forall_app. split; [auto|]. repeat constructor. eauto.
    + rewrite omap_app. simpl. by rewrite !app_nil_r.
    + rewrite length_app. simpl. lia.
Qed.

Lemma view_try_send_false {A} (a : A) c c' :
  view_try_send a c = (false, c') →
  c' = c ∧ (cv_closed c = false → cv_waiting c = 0%nat ∧ cv_capacity c ≤ Z.of_nat (length (cv_buffer c))).
Proof.
  unfold view_try_send. destruct (cv_closed c); [naive_solver|].
  destruct (cv_waiting c); [case_decide|]; naive_solver lia.
Qed.

(** A [try_send] as a signal: whether or not it succeeds, a receive that is outstanding on
    the open channel has completed afterwards. *)
Lemma view_try_send_signal {A} (a : A) c b c' :
  view_wf c → view_try_send a c = (b, c') →
  view_wf c' ∧ cv_closed c' = cv_closed c ∧
  (cv_waiting c' + length (cv_done c') = cv_waiting c + length (cv_done c))%nat ∧
  (cv_closed c = false → (cv_waiting c + length (cv_done c) ≠ 0)%nat → cv_done c' ≠ []).
Proof.
  intros Hw Hs. destruct b.
  - destruct (view_try_send_true _ _ _ Hw Hs) as (? & ? & ? & _ & _ & Hn).
    split_and!; auto; [congruence|]. intros Hc Hne. unfold view_try_send in Hs. rewrite Hc in Hs.
    destruct (cv_waiting c); [case_decide; [|done]|]; injection Hs as <-; simpl in *.
    + by destruct (cv_done c).
    + by intros [_ ?]%app_nil.
  - apply view_try_send_false in Hs as [-> Hf]. split_and!; auto.
    intros Hc Hne. destruct (Hf Hc) as [Hz _]. rewrite Hz in Hne. by destruct (cv_done c).
Qed.

Lemma view_async_receive_spec {A} (c : ChanView A) :
  view_wf c →
  view_wf (view_async_receive c) ∧ cv_closed (view_async_receive c) = cv_closed c ∧
  cv_capacity (view_async_receive c) = cv_capacity c ∧
  view_pending (view_async_receive c) = view_pending c ∧
  (cv_waiting (view_async_receive c) + length (cv_done (view_async_receive c))
    = S (cv_waiting c + length (cv_done c)))%nat.
Proof.
  intros (Hw & Hb & Hcl & Hs & Hn). unfold view_async_receive.
  destruct (cv_buffer c) as [|a rest] eqn:Hbuf; [destruct (cv_closed c) eqn:Hc|];
    unfold view_wf, view_pending; simpl; rewrite ?Hbuf, ?omap_app, ?length_app; simpl;
    split_and!; auto; try done; try lia.
  - by rewrite !app_nil_r.
  - intros Hne. by apply Hw in Hne.
  - simpl in Hb. lia.
  - intros Hc. apply Forall_app. split; [auto|]. repeat constructor. eauto.
  - intros [Hin|Hin]%elem_of_app; [by apply Hn in Hin|set_solver].
  - by rewrite <-app_assoc.
Qed.

Lemma view_resume_spec {A} (c c' : ChanView A) r :
  view_wf c → view_resume c = Some (r, c') →
  view_wf c' ∧ cv_closed c' = cv_closed c ∧ cv_capacity c' = cv_capacity c ∧
  view_pending c = match r with Some a => a :: view_pending c' | None => view_pending c' end ∧
  (r = None → cv_closed c = true) ∧ cv_waiting c' = cv_waiting c ∧
  length (cv_done c) = S (length (cv_done c')).
Proof.
  intros (Hw & Hb & Hcl & Hs & Hn). unfold view_resume.
  destruct (cv_done c) as [|r' rest] eqn:Hd; [done|]. intros [= -> <-].
  unfold view_wf, view_pending. simpl. rewrite Hd. split_and!; auto.
  - intros Hc. specialize (Hs Hc). by inversion Hs.
  - set_solver.
  - by destruct r.
  - intros ->. destruct (cv_closed c); [done|]. specialize (Hs eq_refl).
    inversion Hs as [|? ? [? ?] _]. done.
Qed.

Lemma view_close_spec {A} (c : ChanView A) :
  view_wf c →
  view_wf (view_close c) ∧ cv_closed (view_close c) = true ∧
  cv_capacity (view_close c) = cv_capacity c ∧
  view_pending (view_close c) = view_pending c ∧
  (cv_waiting (view_close c) + length (cv_done (view_close c))
    = cv_waiting c + length (cv_done c))%nat.
Proof.
  intros (Hw & Hb & Hcl & Hs & Hn). unfold view_close, view_wf, view_pending. simpl.
  rewrite length_app, length_replicate. split_and!; auto; try done; [| |lia].
  { intros [Hin|Hin]%elem_of_app; [auto|]. apply Hw. by destruct (cv_waiting c); [set_solver|]. }
  rewrite omap_app. assert (∀ n, omap id (replicate n None) = @nil A) as ->.
  { intros n. by induction n. }
  by rewrite app_nil_r.
Qed.

(** Only [async_receive] starts a receive operation. *)
Lemma view_try_send_receives {A} (a : A) c b c' :
  view_try_send a c = (b, c') → cv_receives c' = cv_receives c.
Proof. unfold view_try_send. repeat case_match; intros; by simplify_eq. Qed.

Lemma view_resume_receives {A} (c c' : ChanView A) r :
  view_resume c = Some (r, c') → cv_receives c' = cv_receives c.
Proof. unfold view_resume. repeat case_match; intros; by simplify_eq. Qed.

Lemma view_async_receive_receives {A} (c : ChanView A) :
  cv_receives (view_async_receive c) = S (cv_receives c).
Proof. unfold view_async_receive. by repeat case_match. Qed.

(** Receives beyond the waiting ones do not wait: once the messages or the closing of the
    channel have answered them, they stay answered. *)
Lemma view_resume_waiting {A} (c c' : ChanView A) r :
  view_resume c = Some (r, c') →
  cv_waiting c' = cv_waiting c ∧ cv_buffer c' = cv_buffer c ∧ cv_closed c' = cv_closed c.
Proof. unfold view_resume. repeat case_match; intros; by simplify_eq. Qed.
