(* ===== verification/Timer.v ===== *)
(** * Timers

    [boost::asio::steady_timer], on which a request waits for its deadline, is third-party
    code: a class with the operations the sources call and, as laws, their documented
    behaviour in terms of a view of the timer.  [ViewTimer] shows that the laws can be met. *)

From S2P Require Import Prelude.

Local Open Scope Z_scope.

(** A timer with at most one wait operation: none, outstanding, or cancelled and not yet
    completed. *)
Inductive TimerWait := NoWait | Waiting | WaitCancelled.

Record TimerView := mkTimerView {
  tv_expiry : option Z;
  tv_wait : TimerWait;
}.

(** ** Documented behaviour, on views *)

Definition view_timer : TimerView := mkTimerView None NoWait.

(** [cancel] makes an outstanding wait complete with an error. *)
Definition view_cancel (t : TimerView) : TimerView :=
  mkTimerView (tv_expiry t) (match tv_wait t with Waiting => WaitCancelled | w => w end).

(** [expires_at] sets the expiry and cancels an outstanding wait. *)
Definition view_expires_at (deadline : Z) (t : TimerView) : TimerView :=
  mkTimerView (Some deadline) (tv_wait (view_cancel t)).

Definition view_async_wait (t : TimerView) : TimerView := mkTimerView (tv_expiry t) Waiting.

(** The completion of the wait: without an error when the timer has expired; with an error
    only when it was cancelled.  A wait that had expired before the call of [cancel], and
    whose handler was only waiting to run, completes without an error all the same. *)
Definition view_complete (error : bool) (t : TimerView) : option TimerView :=
  match tv_wait t, error with
  | NoWait, _ | Waiting, true => None
  | Waiting, false | WaitCancelled, _ => Some (mkTimerView (tv_expiry t) NoWait)
  end.

(** ** The interface *)

Class SteadyTimer (Tm : Type) := {
  tm_make : Tm;
  tm_expires_at : Z → Tm → Tm;
  tm_async_wait : Tm → Tm;
  tm_cancel : Tm → Tm;
  tm_complete : bool → Tm → option Tm;
  tm_view : Tm → TimerView;
}.

Class SteadyTimerLaws (Tm : Type) `{!SteadyTimer Tm} : Prop := {
  tm_view_make : tm_view tm_make = view_timer;
  tm_view_expires_at d t : tm_view (tm_expires_at d t) = view_expires_at d (tm_view t);
  tm_view_async_wait t : tm_view (tm_async_wait t) = view_async_wait (tm_view t);
  tm_view_cancel t : tm_view (tm_cancel t) = view_cancel (tm_view t);
  tm_view_complete e t : tm_view <$> tm_complete e t = view_complete e (tm_view t);
}.

(** ** A timer that meets the laws *)

Definition ViewTimer : Type := TimerView.

#[export] Instance ViewTimer_timer : SteadyTimer ViewTimer := {|
  tm_make := view_timer;
  tm_expires_at := view_expires_at;
  tm_async_wait := view_async_wait;
  tm_cancel := view_cancel;
  tm_complete := view_complete;
  tm_view := λ t, t;
|}.

#[export] Instance ViewTimer_laws : SteadyTimerLaws ViewTimer.
Proof. split; intros; cbn; try done. by destruct (view_complete e t). Qed.

(** A timer that a wait is outstanding on. *)
Definition waiting (t : TimerView) : bool := match tv_wait t with NoWait => false | _ => true end.

Lemma view_complete_waiting e t t' :
  view_complete e t = Some t' → waiting t = true ∧ waiting t' = false ∧ tv_expiry t' = tv_expiry t.
Proof. unfold view_complete, waiting. destruct (tv_wait t), e; intros [= <-]; done. Qed.
