(* ===== verification/WriteQueue.v ===== *)
(** * The write queue

    [include/rillnet/write_queue.hpp]: the single ordered write path of a connection.
    [enqueue] and [run] are coroutines; each is cut at its suspension points into the
    functions that execute between two of them, and [qstep] interleaves them. *)

From S2P Require Import Prelude Identifiers Status Frame FrameCodec FrameDecoder Diagnostics Transport Channel.

Local Open Scope Z_scope.

(** ** Results and limits *)

Record WriteResult := mkWriteResult {
  wr_status : StatusCode;
  wr_message : string;
}.

Definition write_ok (r : WriteResult) : bool := bool_decide (wr_status r = StatusCode.ok).

Definition write_success : WriteResult := mkWriteResult StatusCode.ok EmptyString.

Definition write_failure (status : StatusCode) (message : string) : WriteResult :=
  mkWriteResult status message.

(** [std::numeric_limits<std::size_t>::max()], also [unbounded_capacity]. *)
Definition size_max : Z := 2 ^ 64 - 1.

Record WriteQueueLimits := mkLimits {
  max_frames : Z;
  max_bytes : Z;
}.

Definition default_limits : WriteQueueLimits := mkLimits size_max size_max.

Definition limits_wf (l : WriteQueueLimits) : Prop := in_u 64 (max_frames l) ∧ in_u 64 (max_bytes l).

Definition space_signal_capacity (l : WriteQueueLimits) : Z :=
  if (max_frames l =? size_max) || (max_frames l =? 0) then 1 else max_frames l.

Definition queued_bytes (f : Frame) : Z :=
  Z.of_nat frame_header_size + Z.of_nat (length (payload f)).

Section write_queue.
Context {Ch : Type → Type} `{!Channel Ch} {T : Type} `{!Transport T}.

(** ** State *)

(** The write observer is called with the frame and the number of bytes written; what it
    does is a list of diagnostics notifications.  [transport_] is a reference: the
    transport is passed to the functions that use it. *)
Record WriteQueue := mkQueue {
  limits_ : WriteQueueLimits;
  queued_bytes_ : Z;
  closed_ : bool;
  channel_ : Ch Frame;
  space_channel_ : Ch unit;
  write_observer_ : option (Frame → Z → list DiagnosticsEvent);
}.

Definition new_queue (limits : WriteQueueLimits)
    (observer : option (Frame → Z → list DiagnosticsEvent)) : WriteQueue :=
  mkQueue limits 0 false (ch_make (max_frames limits)) (ch_make (space_signal_capacity limits))
    observer.

(** The constructor with a bound on the number of frames only. *)
Definition new_queue_frames (frames : Z) : WriteQueue := new_queue (mkLimits frames size_max) None.

(** ** Operations *)

Definition close (q : WriteQueue) : WriteQueue :=
  mkQueue (limits_ q) (queued_bytes_ q) true (ch_close (channel_ q)) (ch_close (space_channel_ q))
    (write_observer_ q).

Definition can_fit (q : WriteQueue) (bytes : Z) : bool :=
  negb (closed_ q) && negb (max_frames (limits_ q) =? 0) && (bytes <=? max_bytes (limits_ q))
  && (queued_bytes_ q <=? max_bytes (limits_ q) - bytes).

Definition try_enqueue_frame (f : Frame) (q : WriteQueue) : WriteResult * WriteQueue :=
  let bytes := queued_bytes f in
  if negb (can_fit q bytes) then
    (write_failure StatusCode.resource_limit_exceeded "write queue capacity exceeded", q)
  else
    let '(sent, channel) := ch_try_send f (channel_ q) in
    if negb sent then
      (write_failure StatusCode.resource_limit_exceeded "write queue is closed or full",
       mkQueue (limits_ q) (queued_bytes_ q) (closed_ q) channel (space_channel_ q)
         (write_observer_ q))
    else
      (write_success,
       mkQueue (limits_ q) (uwrap 64 (queued_bytes_ q + bytes)) (closed_ q) channel
         (space_channel_ q) (write_observer_ q)).

Definition try_enqueue (f : Frame) (q : WriteQueue) : WriteResult * WriteQueue :=
  try_enqueue_frame f q.

(** [enqueue] either returns or suspends in [space_channel_.async_receive]. *)
Inductive EnqueueStep :=
  | EnqueueReturned (r : WriteResult)
  | EnqueueWaiting.

(** One round of the [while (true)] loop. *)
Definition enqueue_round (f : Frame) (q : WriteQueue) : EnqueueStep * WriteQueue :=
  let '(result, q) := try_enqueue_frame f q in
  if write_ok result then (EnqueueReturned result, q)
  else if closed_ q then (EnqueueReturned result, q)
  else (EnqueueWaiting,
        mkQueue (limits_ q) (queued_bytes_ q) (closed_ q) (channel_ q)
          (ch_async_receive (space_channel_ q)) (write_observer_ q)).

Definition enqueue (f : Frame) (q : WriteQueue) : EnqueueStep * WriteQueue :=
  if (queued_bytes f >? max_bytes (limits_ q)) || (max_frames (limits_ q) =? 0) then
    (EnqueueReturned
       (write_failure StatusCode.resource_limit_exceeded "write queue capacity exceeded"), q)
  else enqueue_round f q.

(** The coroutine resumes when a receive on [space_channel_] has completed; [None] is an
    error code, whose text is [what]. *)
Definition enqueue_resume (f : Frame) (what : string) (q : WriteQueue)
    : option (EnqueueStep * WriteQueue) :=
  match ch_resume (space_channel_ q) with
  | None => None
  | Some (r, space) =>
      let q := mkQueue (limits_ q) (queued_bytes_ q) (closed_ q) (channel_ q) space
                 (write_observer_ q) in
      match r with
      | None => Some (EnqueueReturned (write_failure StatusCode.resource_limit_exceeded what), q)
      | Some _ => Some (enqueue_round f q)
      end
  end.

(** Where the [run] coroutine is. *)
Inductive RunPc :=
  | RunNotStarted
  | RunReceiving
  | RunWriting (f : Frame)
  | RunReturned (r : WriteResult).

(** The head of the loop: [channel_.async_receive]. *)
Definition run_receive (q : WriteQueue) : RunPc * WriteQueue :=
  (RunReceiving,
   mkQueue (limits_ q) (queued_bytes_ q) (closed_ q) (ch_async_receive (channel_ q))
     (space_channel_ q) (write_observer_ q)).

(** The [catch] handler of a failed write. *)
Definition run_write_failed (what : string) (q : WriteQueue) (t : T) : RunPc * WriteQueue * T :=
  (RunReturned (write_failure StatusCode.transport_error what), close q, t_close t).

(** The receive has completed: return on an error, otherwise account for the frame, signal
    space and start writing. *)
Definition run_resume (q : WriteQueue) (t : T) : option (RunPc * WriteQueue * T) :=
  match ch_resume (channel_ q) with
  | None => None
  | Some (None, channel) =>
      Some (RunReturned write_success,
            mkQueue (limits_ q) (queued_bytes_ q) (closed_ q) channel (space_channel_ q)
              (write_observer_ q), t)
  | Some (Some f, channel) =>
      let q := mkQueue (limits_ q) (uwrap 64 (queued_bytes_ q - queued_bytes f)) (closed_ q) channel
                 (ch_try_send tt (space_channel_ q)).2 (write_observer_ q) in
      match t_write_begin t with
      | None => Some (RunWriting f, q, t)
      | Some what => Some (run_write_failed what q t)
      end
  end.

(** [transport_.write(encoded)] has completed. *)
Definition run_written (f : Frame) (io : WriteIo) (q : WriteQueue) (t : T)
    : RunPc * WriteQueue * T * list DiagnosticsEvent :=
  match t_write_end io t with
  | (WriteDone, t) =>
      let events :=
        match write_observer_ q with
        | Some observer => observer f (Z.of_nat (length (encode_frame f)))
        | None => []
        end in
      let '(pc, q) := run_receive q in (pc, q, t, events)
  | (WriteThrow what, t) => (run_write_failed what q t, [])
  end.

(** ** Interleavings *)

(** A queue with the coroutines that use it: the [run] coroutine and the suspended [enqueue]
    calls with their frames.  The remaining fields record history: the frames accepted into
    the queue, the frames whose write completed, the bytes so written, and the frame whose
    write failed, if any. *)
Record QSys := mkSys {
  qs_queue : WriteQueue;
  qs_transport : T;
  qs_run : RunPc;
  qs_waiters : list Frame;
  qs_accepted : list Frame;
  qs_written : list Frame;
  qs_wire : Buffer;
  qs_failed : list Frame;
}.

Definition init_sys (limits : WriteQueueLimits)
    (observer : option (Frame → Z → list DiagnosticsEvent)) (t : T) : QSys :=
  mkSys (new_queue limits observer) t RunNotStarted [] [] [] [] [].

(** The frame of a call that returned is accepted if the result says so; a call that
    suspends joins the waiters. *)
Definition accepted_by (f : Frame) (r : EnqueueStep) : list Frame :=
  match r with
  | EnqueueReturned r => if write_ok r then [f] else []
  | EnqueueWaiting => []
  end.

Definition waits_after (f : Frame) (r : EnqueueStep) : list Frame :=
  match r with EnqueueReturned _ => [] | EnqueueWaiting => [f] end.

(** The frame that [run] received is lost if it returns instead of writing it. *)
Definition failed_by (pc : RunPc) (q : WriteQueue) : list Frame :=
  match pc, ch_resume (channel_ q) with
  | RunReturned _, Some (Some f, _) => [f]
  | _, _ => []
  end.

Inductive qstep : QSys → QSys → Prop :=
  | qstep_try_enqueue s f r q :
      try_enqueue f (qs_queue s) = (r, q) →
      qstep s (mkSys q (qs_transport s) (qs_run s) (qs_waiters s)
        (qs_accepted s ++ accepted_by f (EnqueueReturned r)) (qs_written s) (qs_wire s) (qs_failed s))
  | qstep_enqueue s f r q :
      enqueue f (qs_queue s) = (r, q) →
      qstep s (mkSys q (qs_transport s) (qs_run s) (qs_waiters s ++ waits_after f r)
        (qs_accepted s ++ accepted_by f r) (qs_written s) (qs_wire s) (qs_failed s))
  | qstep_enqueue_resume s before f after what r q :
      qs_waiters s = before ++ f :: after →
      enqueue_resume f what (qs_queue s) = Some (r, q) →
      qstep s (mkSys q (qs_transport s) (qs_run s) (before ++ after ++ waits_after f r)
        (qs_accepted s ++ accepted_by f r) (qs_written s) (qs_wire s) (qs_failed s))
  | qstep_run_start s pc q :
      qs_run s = RunNotStarted →
      run_receive (qs_queue s) = (pc, q) →
      qstep s (mkSys q (qs_transport s) pc (qs_waiters s) (qs_accepted s) (qs_written s)
        (qs_wire s) (qs_failed s))
  | qstep_run_resume s pc q t :
      qs_run s = RunReceiving →
      run_resume (qs_queue s) (qs_transport s) = Some (pc, q, t) →
      qstep s (mkSys q t pc (qs_waiters s) (qs_accepted s) (qs_written s)
        (qs_wire s) (failed_by pc (qs_queue s)))
  | qstep_run_written s f io pc q t events :
      qs_run s = RunWriting f →
      run_written f io (qs_queue s) (qs_transport s) = (pc, q, t, events) →
      qstep s (match (t_write_end io (qs_transport s)).1 with
        | WriteDone => mkSys q t pc (qs_waiters s) (qs_accepted s) (qs_written s ++ [f])
            (qs_wire s ++ encode_frame f) (qs_failed s)
        | WriteThrow _ => mkSys q t pc (qs_waiters s) (qs_accepted s) (qs_written s)
            (qs_wire s) [f]
        end)
  | qstep_close s :
      qstep s (mkSys (close (qs_queue s)) (qs_transport s) (qs_run s) (qs_waiters s)
        (qs_accepted s) (qs_written s) (qs_wire s) (qs_failed s))
  | qstep_transport_close s :
      qstep s (mkSys (qs_queue s) (t_close (qs_transport s)) (qs_run s) (qs_waiters s)
        (qs_accepted s) (qs_written s) (qs_wire s) (qs_failed s)).

Definition qreachable (limits : WriteQueueLimits)
    (observer : option (Frame → Z → list DiagnosticsEvent)) (t : T) (s : QSys) : Prop :=
  rtc qstep (init_sys limits observer t) s.

(** ** Invariant of the queue *)

(** The frames accepted and not yet taken by [run]. *)
Definition pending (q : WriteQueue) : list Frame := view_pending (ch_view (channel_ q)).

Definition total_bytes (fs : list Frame) : Z := foldr (λ f acc, queued_bytes f + acc) 0 fs.

Record queue_inv (q : WriteQueue) : Prop := {
  qi_limits : limits_wf (limits_ q);
  qi_chan : view_wf (ch_view (channel_ q));
  qi_space : view_wf (ch_view (space_channel_ q));
  qi_capacity : cv_capacity (ch_view (channel_ q)) = max_frames (limits_ q);
  qi_chan_closed : cv_closed (ch_view (channel_ q)) = closed_ q;
  qi_space_closed : cv_closed (ch_view (space_channel_ q)) = closed_ q;
  qi_bytes : queued_bytes_ q = total_bytes (pending q);
  qi_bound : queued_bytes_ q ≤ max_bytes (limits_ q);
}.

(** The receive operations outstanding on a channel. *)
Definition receives {A} (c : Ch A) : nat :=
  (cv_waiting (ch_view c) + length (cv_done (ch_view c)))%nat.

Lemma queued_bytes_pos f : 0 < queued_bytes f.
Proof. unfold queued_bytes, frame_header_size. lia. Qed.

Lemma total_bytes_nonneg fs : 0 ≤ total_bytes fs.
Proof. induction fs as [|f fs IH]; simpl; [lia|]. pose proof (queued_bytes_pos f). lia. Qed.

Lemma total_bytes_app fs fs' : total_bytes (fs ++ fs') = total_bytes fs + total_bytes fs'.
Proof. induction fs as [|f fs IH]; simpl; lia. Qed.

Context `{!ChannelLaws Ch} `{!TransportLaws T}.

Lemma new_queue_inv limits observer : limits_wf limits → queue_inv (new_queue limits observer).
Proof.
  intros Hl. split; unfold pending; simpl; rewrite ?ch_view_make; try done.
  - apply view_make_wf.
  - apply view_make_wf.
  - destruct Hl as [_ [? _]]. lia.
Qed.

Lemma close_inv q :
  queue_inv q →
  queue_inv (close q) ∧ pending (close q) = pending q ∧ closed_ (close q) = true ∧
  receives (channel_ (close q)) = receives (channel_ q) ∧
  receives (space_channel_ (close q)) = receives (space_channel_ q).
Proof.
  intros [Hl Hc Hs Hcap Hcc Hsc Hb Hm]. unfold pending, receives in *; simpl.
  rewrite !ch_view_close.
  destruct (view_close_spec _ Hc) as (? & ? & ? & Hp & ?).
  destruct (view_close_spec _ Hs) as (? & ? & ? & ? & ?).
  split_and!; auto. split; unfold pending; simpl; rewrite ?ch_view_close; auto; congruence.
Qed.

(** [try_send] on a channel of the queue, through the laws. *)
Lemma try_send_view {A} (a : A) (c : Ch A) b c' :
  ch_try_send a c = (b, c') → view_try_send a (ch_view c) = (b, ch_view c').
Proof. intros H. rewrite <-ch_view_try_send, H. done. Qed.

Lemma try_enqueue_frame_spec f q r q' :
  queue_inv q → try_enqueue_frame f q = (r, q') →
  queue_inv q' ∧ limits_ q' = limits_ q ∧ closed_ q' = closed_ q ∧
  space_channel_ q' = space_channel_ q ∧ receives (channel_ q') = receives (channel_ q) ∧
  (write_ok r = true ∧ closed_ q = false ∧ pending q' = pending q ++ [f] ∨
   write_ok r = false ∧ pending q' = pending q ∧
   (closed_ q = false → max_frames (limits_ q) ≠ 0 → queued_bytes f ≤ max_bytes (limits_ q) →
      pending q ≠ [])).
Proof.
  intros Hi. pose proof Hi as [Hl Hc Hs Hcap Hcc Hsc Hb Hm].
  unfold try_enqueue_frame. destruct (can_fit q (queued_bytes f)) eqn:Hfit; simpl.
  2: { intros [= <- <-]. split_and!; auto. right. split_and!; auto.
    intros Hcl Hmf Hle Hp. rewrite Hp in Hb. unfold can_fit in Hfit. rewrite Hcl, Hb in Hfit.
    simpl in Hfit. destruct (Z.eqb_spec (max_frames (limits_ q)) 0); [done|].
    destruct (Z.leb_spec (queued_bytes f) (max_bytes (limits_ q))); [|lia]. simpl in Hfit.
    destruct (Z.leb_spec 0 (max_bytes (limits_ q) - queued_bytes f)); [done|lia]. }
  unfold can_fit in Hfit. rewrite !andb_true_iff, !negb_true_iff, !Z.leb_le, Z.eqb_neq in Hfit.
  destruct Hfit as [[[Hcl Hmf] Hle] Hfit].
  destruct (ch_try_send f (channel_ q)) as [sent c'] eqn:Hsend. apply try_send_view in Hsend.
  destruct sent; simpl.
  - apply view_try_send_true in Hsend as (Hc' & _ & Hcc' & Hcap' & Hp' & Hn'); [|done].
    intros [= <- <-]. pose proof (queued_bytes_pos f). pose proof (total_bytes_nonneg (pending q)).
    destruct Hl as [Hl1 [Hl2 Hl3]].
    assert (uwrap 64 (queued_bytes_ q + queued_bytes f) = queued_bytes_ q + queued_bytes f) as Hw
      by (apply Z.mod_small; lia).
    assert (pending (mkQueue (limits_ q) (queued_bytes_ q + queued_bytes f) (closed_ q) c'
      (space_channel_ q) (write_observer_ q)) = pending q ++ [f]) as Hpend by done.
    rewrite Hw. split_and!; auto.
    split; simpl; auto; try congruence; [done| |lia].
    rewrite Hpend, total_bytes_app, Hb. simpl. lia.
  - apply view_try_send_false in Hsend as [Hceq Hfull]. intros [= <- <-].
    unfold pending, receives in *. simpl. rewrite Hceq in *.
    split_and!; auto.
    + split; unfold pending; simpl; rewrite ?Hceq; auto.
    + right. split_and!; auto. intros _ _ _. destruct Hfull as [_ Hcapb]; [congruence|].
      rewrite Hcap in Hcapb. destruct Hl as [[Hl1 _] _]. unfold view_pending.
      destruct (cv_buffer (ch_view (channel_ q))); simpl in *; [lia|].
      intros Hnil. by apply app_nil in Hnil as [_ Hnil].
Qed.

(** The observer and the limits are fixed at construction. *)
Lemma try_enqueue_constant f q :
  write_observer_ (try_enqueue f q).2 = write_observer_ q ∧ limits_ (try_enqueue f q).2 = limits_ q.
Proof. unfold try_enqueue, try_enqueue_frame. by repeat case_match. Qed.

Lemma enqueue_round_constant f q :
  write_observer_ (enqueue_round f q).2 = write_observer_ q ∧ limits_ (enqueue_round f q).2 = limits_ q.
Proof.
  unfold enqueue_round. pose proof (try_enqueue_constant f q) as Hc. unfold try_enqueue in Hc.
  destruct (try_enqueue_frame f q) as [r q1]. simpl in Hc. by repeat case_match.
Qed.

Lemma enqueue_constant f q r q' :
  enqueue f q = (r, q') → write_observer_ q' = write_observer_ q ∧ limits_ q' = limits_ q.
Proof.
  unfold enqueue. case_match; [by intros [= <- <-]|]. intros He.
  pose proof (enqueue_round_constant f q) as Hc. by rewrite He in Hc.
Qed.

Lemma enqueue_resume_constant f what q r q' :
  enqueue_resume f what q = Some (r, q') →
  write_observer_ q' = write_observer_ q ∧ limits_ q' = limits_ q.
Proof.
  unfold enqueue_resume. destruct (ch_resume (space_channel_ q)) as [[[u|] space]|]; [|by intros [= <- <-]|done].
  intros [= He]. set (q1 := mkQueue _ _ _ _ space _) in He.
  pose proof (enqueue_round_constant f q1) as Hc. by rewrite He in Hc.
Qed.

Lemma run_resume_constant q t pc q' t' :
  run_resume q t = Some (pc, q', t') →
  write_observer_ q' = write_observer_ q ∧ limits_ q' = limits_ q.
Proof.
  unfold run_resume. destruct (ch_resume (channel_ q)) as [[[f|] c]|]; [|by intros [= <- <- <-]|done].
  by destruct (t_write_begin t); intros [= <- <- <-].
Qed.

Lemma run_written_constant f io q t pc q' t' es :
  run_written f io q t = (pc, q', t', es) →
  write_observer_ q' = write_observer_ q ∧ limits_ q' = limits_ q.
Proof. unfold run_written. destruct (t_write_end io t) as [[|what] t1]; by intros [= <- <- <- <-]. Qed.

(** Re-initiating a receive on the space channel. *)
Lemma queue_inv_space q space' :
  queue_inv q → view_wf (ch_view space') → cv_closed (ch_view space') = closed_ q →
  queue_inv (mkQueue (limits_ q) (queued_bytes_ q) (closed_ q) (channel_ q) space' (write_observer_ q)).
Proof. intros [] ? ?. by split. Qed.

Lemma async_receive_view {A} (c : Ch A) :
  view_wf (ch_view c) →
  view_wf (ch_view (ch_async_receive c)) ∧
  cv_closed (ch_view (ch_async_receive c)) = cv_closed (ch_view c) ∧
  cv_capacity (ch_view (ch_async_receive c)) = cv_capacity (ch_view c) ∧
  view_pending (ch_view (ch_async_receive c)) = view_pending (ch_view c) ∧
  receives (ch_async_receive c) = S (receives c).
Proof. intros H. unfold receives. rewrite ch_view_async_receive. by apply view_async_receive_spec. Qed.

Definition round_outcome (f : Frame) (q : WriteQueue) (r : EnqueueStep) (q' : WriteQueue) : Prop :=
  queue_inv q' ∧ limits_ q' = limits_ q ∧ closed_ q' = closed_ q ∧
  receives (channel_ q') = receives (channel_ q) ∧
  pending q' = pending q ++ accepted_by f r ∧
  (accepted_by f r ≠ [] → closed_ q = false) ∧
  match r with
  | EnqueueReturned _ => space_channel_ q' = space_channel_ q
  | EnqueueWaiting => closed_ q = false ∧ pending q ≠ [] ∧
      receives (space_channel_ q') = S (receives (space_channel_ q))
  end.

Lemma enqueue_round_spec f q r q' :
  queue_inv q → max_frames (limits_ q) ≠ 0 → queued_bytes f ≤ max_bytes (limits_ q) →
  enqueue_round f q = (r, q') →
  round_outcome f q r q' ∧ (closed_ q = false → pending q' ≠ []).
Proof.
  intros Hi Hmf Hle. unfold enqueue_round. destruct (try_enqueue_frame f q) as [res q1] eqn:Ht.
  apply try_enqueue_frame_spec in Ht as (Hi1 & Hl1 & Hc1 & Hs1 & Hr1 & Hout); [|done].
  destruct Hout as [(Hok & Hcl & Hp)|(Hok & Hp & Hne)]; rewrite Hok.
  - intros [= <- <-]. unfold round_outcome, accepted_by. rewrite Hok. split_and!; auto.
    intros _. rewrite Hp. by intros [_ ?]%app_nil.
  - rewrite Hc1. destruct (closed_ q) eqn:Hcl; intros [= <- <-];
      unfold round_outcome, accepted_by; rewrite ?Hok, ?app_nil_r; simpl.
    + split_and!; auto; congruence.
    + destruct (async_receive_view (space_channel_ q1)) as (Hv & Hvc & _ & _ & Hvr);
        [apply Hi1|]. pose proof (qi_space_closed _ Hi1) as Hsc.
      assert (pending q ≠ []) as Hpne by auto.
      split_and!; auto; try congruence.
      * rewrite <-Hc1. apply queue_inv_space; [done|done|congruence].
      * intros _. change (pending _) with (pending q1). congruence.
Qed.

Lemma resume_view {A} (c c' : Ch A) r :
  view_wf (ch_view c) → ch_resume c = Some (r, c') →
  view_resume (ch_view c) = Some (r, ch_view c') ∧ view_wf (ch_view c') ∧
  cv_closed (ch_view c') = cv_closed (ch_view c) ∧
  cv_capacity (ch_view c') = cv_capacity (ch_view c) ∧
  view_pending (ch_view c) = option_list r ++ view_pending (ch_view c') ∧
  (r = None → cv_closed (ch_view c) = true ∧ (receives c' = 0%nat → view_pending (ch_view c') = [])) ∧
  receives c = S (receives c').
Proof.
  intros Hw Hr. pose proof (ch_view_resume c) as Hv. rewrite Hr in Hv. simpl in Hv.
  symmetry in Hv. split; [done|]. unfold receives.
  destruct (view_resume_spec _ _ _ Hw Hv) as (? & ? & ? & Hp & Hn & Hwt & Hd).
  split_and!; auto; [by destruct r|intros ->; split; [auto|]|lia].
  intros Hz. unfold view_pending. destruct Hw as (_ & _ & _ & _ & Hbuf).
  destruct (cv_done (ch_view c')) eqn:Hd'; [|simpl in Hz; lia]. simpl.
  unfold view_resume in Hv. destruct (cv_done (ch_view c)) as [|r rest]; [done|].
  injection Hv as -> Heq. rewrite <-Heq. simpl. apply Hbuf. set_solver.
Qed.

Lemma enqueue_spec f q r q' :
  queue_inv q → enqueue f q = (r, q') →
  round_outcome f q r q' ∧
  (r = EnqueueWaiting → max_frames (limits_ q) ≠ 0 ∧ queued_bytes f ≤ max_bytes (limits_ q)).
Proof.
  intros Hi. unfold enqueue. case_match eqn:Hg.
  - intros [= <- <-]. unfold round_outcome. simpl. rewrite app_nil_r. split_and!; done.
  - apply orb_false_iff in Hg as [Hg1 Hg2]. rewrite Z.gtb_ltb, Z.ltb_ge in Hg1.
    apply Z.eqb_neq in Hg2. intros H. split; [by apply enqueue_round_spec in H as [? _]|done].
Qed.

Lemma enqueue_resume_spec f what q r q' :
  queue_inv q → max_frames (limits_ q) ≠ 0 → queued_bytes f ≤ max_bytes (limits_ q) →
  enqueue_resume f what q = Some (r, q') →
  queue_inv q' ∧ limits_ q' = limits_ q ∧ closed_ q' = closed_ q ∧
  receives (channel_ q') = receives (channel_ q) ∧
  pending q' = pending q ++ accepted_by f r ∧
  (accepted_by f r ≠ [] → closed_ q = false) ∧
  (length (waits_after f r) + receives (space_channel_ q) = S (receives (space_channel_ q')))%nat ∧
  (closed_ q = false → pending q' ≠ []).
Proof.
  intros Hi Hmf Hle. unfold enqueue_resume.
  destruct (ch_resume (space_channel_ q)) as [[u space]|] eqn:Hr; [|done].
  apply resume_view in Hr as (_ & Hw & Hc & _ & _ & Hnone & Hrec); [|apply Hi].
  pose proof (qi_space_closed _ Hi) as Hsc.
  pose proof (queue_inv_space q space Hi Hw ltac:(congruence)) as Hi1.
  destruct u as [u|].
  - intros [= Heq]. apply enqueue_round_spec in Heq as [(? & ? & ? & ? & Hp & Hcl & Hsp) Hne]; [|done..].
    simpl in *. split_and!; auto.
    destruct r; simpl; [rewrite Hsp|destruct Hsp as (_ & _ & ->)]; simpl; lia.
  - intros [= <- <-]. destruct Hnone as [Hcc _]; [done|]. simpl. rewrite app_nil_r.
    split_and!; auto; congruence.
Qed.

Lemma run_receive_spec q pc q' :
  queue_inv q → run_receive q = (pc, q') →
  pc = RunReceiving ∧ queue_inv q' ∧ limits_ q' = limits_ q ∧ closed_ q' = closed_ q ∧
  space_channel_ q' = space_channel_ q ∧ pending q' = pending q ∧
  receives (channel_ q') = S (receives (channel_ q)).
Proof.
  intros Hi [= <- <-].
  destruct (async_receive_view (channel_ q)) as (? & ? & ? & Hp & ?); [apply Hi|].
  split_and!; auto. destruct Hi. split; unfold pending in *; simpl; auto; congruence.
Qed.

(** Taking a frame returns its bytes to the budget and wakes a waiting [enqueue]. *)
Lemma run_resume_spec q t pc q' t' :
  queue_inv q → receives (channel_ q) = 1%nat → run_resume q t = Some (pc, q', t') →
  queue_inv q' ∧ limits_ q' = limits_ q ∧
  receives (channel_ q') = 0%nat ∧ receives (space_channel_ q') = receives (space_channel_ q) ∧
  ((∃ f, pc = RunWriting f ∧ closed_ q' = closed_ q ∧ pending q = f :: pending q' ∧ t' = t ∧
      failed_by pc q = [] ∧
      (closed_ q = false → receives (space_channel_ q) ≠ 0%nat →
        cv_done (ch_view (space_channel_ q')) ≠ [])) ∨
   (∃ f what, pc = RunReturned (write_failure StatusCode.transport_error what) ∧
      t_write_begin t = Some what ∧
      closed_ q' = true ∧ pending q = f :: pending q' ∧ failed_by pc q = [f]) ∨
   pc = RunReturned write_success ∧ t' = t ∧ closed_ q = true ∧ closed_ q' = true ∧
     pending q = [] ∧ pending q' = [] ∧ failed_by pc q = []).
Proof.
  intros Hi Hone. unfold run_resume, failed_by.
  destruct (ch_resume (channel_ q)) as [[r c']|] eqn:Hr; [|done].
  pose proof Hi as [Hl Hc Hs Hcap Hcc Hsc Hb Hm].
  apply resume_view in Hr as (_ & Hw & Hc' & Hcap' & Hp & Hnone & Hrec); [|done].
  destruct r as [f|]; simpl in *.
  - destruct (ch_try_send tt (space_channel_ q)) as [sent space] eqn:Hsend.
    apply try_send_view, view_try_send_signal in Hsend as (Hs' & Hsc' & Hsr & Hwake); [|done].
    assert (uwrap 64 (queued_bytes_ q - queued_bytes f) = queued_bytes_ q - queued_bytes f) as ->.
    { unfold pending in Hb. rewrite Hp in Hb. simpl in Hb.
      pose proof (total_bytes_nonneg (view_pending (ch_view c'))).
      pose proof (queued_bytes_pos f). destruct Hl as [_ [? ?]]. apply Z.mod_small. lia. }
    set (q1 := mkQueue _ _ _ c' _ _).
    assert (queue_inv q1) as Hi1.
    { unfold pending in *. rewrite Hp in Hb. simpl in Hb. pose proof (queued_bytes_pos f).
      split; unfold pending; simpl; auto; try congruence; lia. }
    assert (receives (channel_ q1) = 0%nat ∧ receives (space_channel_ q1) = receives (space_channel_ q))
      as [Hr1 Hsp1] by (unfold receives in *; simpl; lia).
    destruct (t_write_begin t) as [what|]; intros [= <- <- <-].
    + destruct (close_inv q1 Hi1) as (? & ? & ? & ? & ?). split_and!; try congruence; [done|].
      right; left. exists f, what. split_and!; try done. by unfold pending in *; simpl in *; congruence.
    + split_and!; auto. left. exists f. split_and!; auto.
      intros Ho Hne. apply Hwake; [congruence|done].
  - intros [= <- <- <-]. destruct Hnone as [Hclosed Hempty]; [done|].
    assert (view_pending (ch_view c') = []) as Hnil by (apply Hempty; lia).
    unfold pending in *. simpl. rewrite Hnil in Hp.
    split_and!; auto; try lia.
    + split; unfold pending; simpl; auto; congruence.
    + right; right. split_and!; auto; congruence.
Qed.

(** The queue's invariant through the end of a write. *)
Lemma run_written_inv f io q t pc q' t' es :
  queue_inv q → run_written f io q t = (pc, q', t', es) →
  queue_inv q' ∧
  (es = [] ∨ ∃ observer, write_observer_ q = Some observer ∧
     es = observer f (Z.of_nat (length (encode_frame f)))).
Proof.
  intros Hi. unfold run_written. destruct (t_write_end io t) as [[|what] t1].
  - destruct (run_receive q) as [pc1 q1] eqn:Hr. intros [= <- <- <- <-].
    apply run_receive_spec in Hr as (_ & ? & _); [|done]. split; [done|].
    destruct (write_observer_ q); eauto.
  - intros [= <- <- <- <-]. split; [by apply close_inv|auto].
Qed.

(** ** Invariant of the interleaved system *)

(** The frame that [run] has taken and whose write has not completed. *)
Definition in_flight (s : QSys) : list Frame :=
  match qs_run s with RunWriting f => [f] | _ => qs_failed s end.

Definition frame_fits (limits : WriteQueueLimits) (f : Frame) : Prop :=
  max_frames limits ≠ 0 ∧ queued_bytes f ≤ max_bytes limits.

Record sys_inv (limits : WriteQueueLimits) (s : QSys) : Prop := {
  si_queue : queue_inv (qs_queue s);
  si_limits : limits_ (qs_queue s) = limits;
  si_order : qs_accepted s = qs_written s ++ in_flight s ++ pending (qs_queue s);
  si_wire : qs_wire s = concat (encode_frame <$> qs_written s);
  si_run : receives (channel_ (qs_queue s)) = match qs_run s with RunReceiving => 1%nat | _ => 0%nat end;
  si_waiters : receives (space_channel_ (qs_queue s)) = length (qs_waiters s);
  si_fit : Forall (frame_fits limits) (qs_waiters s);
  si_wake : qs_waiters s ≠ [] → closed_ (qs_queue s) = false →
    pending (qs_queue s) ≠ [] ∨ cv_done (ch_view (space_channel_ (qs_queue s))) ≠ [];
  si_returned :
    match qs_run s with
    | RunReturned r => closed_ (qs_queue s) = true ∧
        (if write_ok r then qs_failed s = [] ∧ pending (qs_queue s) = [] else length (qs_failed s) = 1%nat)
    | _ => qs_failed s = []
    end;
}.

Lemma init_sys_inv limits observer t : limits_wf limits → sys_inv limits (init_sys limits observer t).
Proof.
  intros Hl. split; simpl; auto using new_queue_inv; unfold pending, receives; simpl;
    by rewrite ?ch_view_make.
Qed.

(** A step of an enqueuing coroutine, seen from the system: it appends what it accepted, and
    keeps the waiting bookkeeping. *)
Lemma sys_inv_enqueue limits s q waiters accepted :
  sys_inv limits s → queue_inv q → limits_ q = limits → closed_ q = closed_ (qs_queue s) →
  receives (channel_ q) = receives (channel_ (qs_queue s)) →
  pending q = pending (qs_queue s) ++ accepted → (accepted ≠ [] → closed_ (qs_queue s) = false) →
  receives (space_channel_ q) = length waiters → Forall (frame_fits limits) waiters →
  (waiters ≠ [] → closed_ (qs_queue s) = false →
    pending q ≠ [] ∨ cv_done (ch_view (space_channel_ q)) ≠ []) →
  sys_inv limits (mkSys q (qs_transport s) (qs_run s) waiters (qs_accepted s ++ accepted)
    (qs_written s) (qs_wire s) (qs_failed s)).
Proof.
  intros [] Hq Hl Hc Hr Hp Hacc Hsp Hfit Hwake. split; simpl; auto; unfold in_flight in *; simpl.
  - rewrite Hp, si_order0. by rewrite <-!app_assoc.
  - congruence.
  - intros ? ?. apply Hwake; [done|congruence].
  - destruct (qs_run s); try done. destruct si_returned0 as [Hcl Hf]. rewrite Hcl in *.
    split; [done|]. destruct (write_ok r); [|done]. destruct Hf as [? Hnil]. split; [done|].
    rewrite Hp, Hnil. destruct accepted; [done|]. by specialize (Hacc ltac:(done)).
Qed.

Lemma sys_inv_try_enqueue_step limits s f r q :
  sys_inv limits s → try_enqueue f (qs_queue s) = (r, q) →
  sys_inv limits (mkSys q (qs_transport s) (qs_run s) (qs_waiters s)
    (qs_accepted s ++ accepted_by f (EnqueueReturned r)) (qs_written s) (qs_wire s) (qs_failed s)).
Proof.
  intros Hs Ht. pose proof Hs as [].
  apply try_enqueue_frame_spec in Ht as (Hi & Hl & Hc & Hsp & Hr & Hout); [|done].
  assert (pending q = pending (qs_queue s) ++ accepted_by f (EnqueueReturned r)) as Hp.
  { simpl. destruct Hout as [(-> & _ & ->)|(-> & -> & _)]; [done|by rewrite app_nil_r]. }
  apply sys_inv_enqueue; auto; try congruence.
  - simpl. by destruct Hout as [(-> & ? & _)|(-> & _)].
  - intros Hw Hop. destruct (si_wake0 Hw Hop); [left|right; congruence].
    rewrite Hp. by intros [? _]%app_nil.
Qed.

Lemma sys_inv_enqueue_step limits s f r q :
  sys_inv limits s → enqueue f (qs_queue s) = (r, q) →
  sys_inv limits (mkSys q (qs_transport s) (qs_run s) (qs_waiters s ++ waits_after f r)
    (qs_accepted s ++ accepted_by f r) (qs_written s) (qs_wire s) (qs_failed s)).
Proof.
  intros Hs He. pose proof Hs as [].
  apply enqueue_spec in He as [(Hi & Hl & Hc & Hr & Hp & Hacc & Hsp) Hwait]; [|done].
  apply sys_inv_enqueue; auto; try congruence.
  - rewrite length_app. destruct r; simpl; [rewrite Hsp|destruct Hsp as (_ & _ & ->)]; lia.
  - apply Forall_app. split; [done|]. destruct r; simpl; [done|]. rewrite si_limits0 in Hwait.
    constructor; [by apply Hwait|done].
  - intros Hw Hop. rewrite Hp. destruct r; simpl in *.
    + rewrite app_nil_r in Hw. rewrite Hsp. destruct (si_wake0 Hw Hop); [left|by right].
      by intros [? _]%app_nil.
    + left. destruct Hsp as (_ & ? & _). by rewrite app_nil_r.
Qed.

Lemma sys_inv_resume_step limits s before f after what r q :
  sys_inv limits s → qs_waiters s = before ++ f :: after →
  enqueue_resume f what (qs_queue s) = Some (r, q) →
  sys_inv limits (mkSys q (qs_transport s) (qs_run s) (before ++ after ++ waits_after f r)
    (qs_accepted s ++ accepted_by f r) (qs_written s) (qs_wire s) (qs_failed s)).
Proof.
  intros Hs Hw He. pose proof Hs as []. rewrite Hw in *.
  apply Forall_app in si_fit0 as [Hf1 Hf2]. inversion Hf2 as [|? ? [Hmf Hb] Hf3]; subst.
  apply enqueue_resume_spec in He as (Hi & Hl & Hc & Hr & Hp & Hacc & Hsp & Hne);
    [|done..].
  apply sys_inv_enqueue; auto; try congruence.
  - rewrite !length_app in *. simpl in *. lia.
  - rewrite !Forall_app. split_and!; auto. destruct r; simpl; [done|]. by repeat constructor.
Qed.

(** A step of the [run] coroutine: the queue changes, the accepted frames do not. *)
Lemma sys_inv_run_step limits s pc q t :
  sys_inv limits s → qs_run s = RunReceiving →
  run_resume (qs_queue s) (qs_transport s) = Some (pc, q, t) →
  sys_inv limits (mkSys q t pc (qs_waiters s) (qs_accepted s) (qs_written s)
    (qs_wire s) (failed_by pc (qs_queue s))).
Proof.
  intros [] Hrun Hr. unfold in_flight in *. rewrite Hrun in *.
  apply run_resume_spec in Hr as (Hi & Hl & Hch & Hsp & Hcase); [|done..].
  destruct Hcase as [(f & -> & Hc & Hp & -> & Hf & Hwake)|[(f & what & -> & _ & Hc & Hp & Hf)|
    (-> & -> & Hcl & Hc & Hp & Hp' & Hf)]];
    rewrite Hf; split; simpl; auto; unfold in_flight; simpl; try congruence; try done.
  - by rewrite si_order0, si_returned0, Hp.
  - intros Hw Hop. right. apply Hwake; [congruence|]. rewrite si_waiters0. by destruct (qs_waiters s).
  - by rewrite si_order0, si_returned0, Hp.
  - by rewrite si_order0, si_returned0, Hp, Hp'.
Qed.

Lemma sys_inv_receive_step limits s pc q t wr wi :
  sys_inv limits s → receives (channel_ (qs_queue s)) = 0%nat → qs_failed s = [] →
  qs_accepted s = wr ++ pending (qs_queue s) → wi = concat (encode_frame <$> wr) →
  run_receive (qs_queue s) = (pc, q) →
  sys_inv limits (mkSys q t pc (qs_waiters s) (qs_accepted s) wr wi (qs_failed s)).
Proof.
  intros [] H0 Hf Hacc Hwi Hr.
  apply run_receive_spec in Hr as (-> & Hi & Hl & Hc & Hsp & Hp & Hrec); [|done].
  split; simpl; unfold in_flight; simpl; auto; rewrite ?Hsp, ?Hp, ?Hc, ?Hrec, ?H0, ?Hf; auto.
  congruence.
Qed.

Lemma sys_inv_written_step limits s f io pc q t events :
  sys_inv limits s → qs_run s = RunWriting f →
  run_written f io (qs_queue s) (qs_transport s) = (pc, q, t, events) →
  sys_inv limits (match (t_write_end io (qs_transport s)).1 with
    | WriteDone => mkSys q t pc (qs_waiters s) (qs_accepted s) (qs_written s ++ [f])
        (qs_wire s ++ encode_frame f) (qs_failed s)
    | WriteThrow _ => mkSys q t pc (qs_waiters s) (qs_accepted s) (qs_written s) (qs_wire s) [f]
    end).
Proof.
  intros Hs Hrun. pose proof Hs as []. unfold in_flight in *. rewrite Hrun in *.
  unfold run_written. destruct (t_write_end io (qs_transport s)) as [[|what] t1]; simpl.
  - destruct (run_receive (qs_queue s)) as [pc1 q1] eqn:Hrr. intros [= <- <- <- _].
    eapply sys_inv_receive_step; try done.
    + by rewrite si_order0, <-app_assoc.
    + by rewrite fmap_app, concat_app, si_wire0, <-(app_nil_r (encode_frame f)).
  - intros [= <- <- <- _].
    destruct (close_inv _ si_queue0) as (Hi & Hp & Hc & Hr & Hsp).
    simpl in Hr, Hsp.
    split; simpl; unfold in_flight; simpl; rewrite ?Hp, ?Hr, ?Hsp, ?Hc; auto; try done.
Qed.

Lemma sys_inv_close_step limits s :
  sys_inv limits s →
  sys_inv limits (mkSys (close (qs_queue s)) (qs_transport s) (qs_run s) (qs_waiters s)
    (qs_accepted s) (qs_written s) (qs_wire s) (qs_failed s)).
Proof.
  intros []. destruct (close_inv _ si_queue0) as (Hi & Hp & Hc & Hr & Hsp).
  simpl in Hr, Hsp.
  split; simpl; unfold in_flight in *; simpl; rewrite ?Hp, ?Hr, ?Hsp, ?Hc; auto; try done.
  by destruct (qs_run s); [..|destruct si_returned0].
Qed.

Lemma qstep_inv limits s s' : sys_inv limits s → qstep s s' → sys_inv limits s'.
Proof.
  intros Hs Hstep.
  destruct Hstep as [| |s before f after what r q Hw Hr|s pc q Hrun Hr| | | |].
  - by apply sys_inv_try_enqueue_step.
  - by apply sys_inv_enqueue_step.
  - by eapply sys_inv_resume_step.
  - pose proof Hs as []. unfold in_flight in *. rewrite Hrun in *.
    eapply sys_inv_receive_step; try done. by rewrite si_order0, si_returned0.
  - by apply sys_inv_run_step.
  - by eapply sys_inv_written_step.
  - by apply sys_inv_close_step.
  - by destruct Hs; split.
Qed.

Lemma qreachable_inv limits observer t s :
  limits_wf limits → qreachable limits observer t s → sys_inv limits s.
Proof.
  intros Hl Hr. unfold qreachable in Hr.
  remember (init_sys limits observer t) as s0 eqn:Hs0.
  assert (sys_inv limits s0) as H0' by (subst; by apply init_sys_inv). clear Hs0.
  induction Hr; eauto using qstep_inv.
Qed.

(** ** Draining *)

(** The next step of the [run] coroutine, the socket accepting what it writes; [None] when
    the coroutine is suspended or has returned. *)
Definition run_advance (s : QSys) : option QSys :=
  match qs_run s with
  | RunNotStarted =>
      let '(pc, q) := run_receive (qs_queue s) in
      Some (mkSys q (qs_transport s) pc (qs_waiters s) (qs_accepted s) (qs_written s)
        (qs_wire s) (qs_failed s))
  | RunReceiving =>
      '(pc, q, t) ← run_resume (qs_queue s) (qs_transport s);
      Some (mkSys q t pc (qs_waiters s) (qs_accepted s) (qs_written s)
        (qs_wire s) (failed_by pc (qs_queue s)))
  | RunWriting f =>
      let '(pc, q, t, _) := run_written f IoWritten (qs_queue s) (qs_transport s) in
      Some (match (t_write_end IoWritten (qs_transport s)).1 with
        | WriteDone => mkSys q t pc (qs_waiters s) (qs_accepted s) (qs_written s ++ [f])
            (qs_wire s ++ encode_frame f) (qs_failed s)
        | WriteThrow _ => mkSys q t pc (qs_waiters s) (qs_accepted s) (qs_written s)
            (qs_wire s) [f]
        end)
  | RunReturned _ => None
  end.

Fixpoint run_drive (fuel : nat) (s : QSys) : QSys :=
  match fuel with
  | O => s
  | S fuel => match run_advance s with Some s' => run_drive fuel s' | None => s end
  end.

Lemma run_advance_qstep s s' : run_advance s = Some s' → qstep s s'.
Proof.
  unfold run_advance. destruct (qs_run s) eqn:Hrun.
  - intros [= <-]. by eapply qstep_run_start.
  - destruct (run_resume (qs_queue s) (qs_transport s)) as [[[pc q] t]|] eqn:Hr; [|done].
    intros [= <-]. by eapply qstep_run_resume.
  - destruct (run_written f IoWritten (qs_queue s) (qs_transport s)) as [[[pc q] t] ev] eqn:Hw.
    intros [= <-]. by eapply qstep_run_written.
  - done.
Qed.

Lemma run_drive_steps n s : rtc qstep s (run_drive n s).
Proof.
  revert s. induction n as [|n IH]; intros s; simpl; [done|].
  destruct (run_advance s) eqn:Ha; [|done].
  eapply rtc_l; [by apply run_advance_qstep|apply IH].
Qed.

(** A [run] coroutine that waits for a frame can go on as soon as there is one, or the queue
    is closed. *)
Lemma run_resume_enabled limits s :
  sys_inv limits s → qs_run s = RunReceiving →
  closed_ (qs_queue s) = true ∨ pending (qs_queue s) ≠ [] →
  is_Some (run_resume (qs_queue s) (qs_transport s)).
Proof.
  intros [] Hrun Hor. rewrite Hrun in si_run0. unfold run_resume.
  destruct (ch_resume (channel_ (qs_queue s))) as [[[f|] c]|] eqn:Hr;
    [destruct (t_write_begin (qs_transport s)); eauto|eauto|]. exfalso.
  pose proof (ch_view_resume (channel_ (qs_queue s))) as Hv. rewrite Hr in Hv. simpl in Hv.
  unfold view_resume in Hv.
  destruct (cv_done (ch_view (channel_ (qs_queue s)))) as [|] eqn:Hd; [|done].
  unfold receives in si_run0. rewrite Hd in si_run0. simpl in si_run0.
  pose proof (qi_chan _ si_queue0) as (Hw & _ & Hcl & _).
  rewrite (qi_chan_closed _ si_queue0) in Hcl.
  destruct Hor as [Hc|Hp]; [specialize (Hcl Hc); lia|].
  apply Hp. unfold pending, view_pending. rewrite Hd, Hw by lia. done.
Qed.

(** A transport that accepts whatever is written to it. *)
Definition accepts_writes (t : T) : Prop :=
  t_write_begin t = None ∧ t_write_end IoWritten t = (WriteDone, t).

Lemma run_drive_receiving n limits s :
  sys_inv limits s → qs_run s = RunReceiving → closed_ (qs_queue s) = true →
  accepts_writes (qs_transport s) →
  length (pending (qs_queue s)) = n →
  let s' := run_drive (2 * n + 1) s in
  qs_run s' = RunReturned write_success ∧ qs_accepted s' = qs_accepted s.
Proof.
  revert s. induction n as [n IH] using lt_wf_ind; intros s Hs Hrun Hc [Ht0 Ht] Hn. cbv zeta.
  destruct (run_resume_enabled limits s Hs Hrun (or_introl Hc)) as [[[pc q] t] Hr].
  pose proof (si_run _ _ Hs) as Hone. rewrite Hrun in Hone.
  pose proof (run_resume_spec _ _ _ _ _ (si_queue _ _ Hs) Hone Hr) as (Hi & _ & _ & _ & Hcase).
  pose proof (sys_inv_run_step _ _ _ _ _ Hs Hrun Hr) as Hs1.
  assert (run_advance s = Some (mkSys q t pc (qs_waiters s) (qs_accepted s) (qs_written s)
    (qs_wire s) (failed_by pc (qs_queue s)))) as Hadv by (unfold run_advance; by rewrite Hrun, Hr).
  rewrite Nat.add_1_r. simpl. rewrite Hadv.
  destruct Hcase as [(f & -> & Hcl & Hp & -> & _)|[(f & what & _ & Hthrow & _)|(-> & _)]];
    [|congruence|].
  2: { destruct (n + (n + 0))%nat; split; reflexivity. }
  rewrite Hp in Hn. simpl in Hn. destruct n as [|n]; [done|]. injection Hn as Hn.
  replace (S n + (S n + 0))%nat with (S (2 * n + 1))%nat by lia.
  cbn [run_drive run_advance qs_run qs_queue qs_transport].
  destruct (run_written f IoWritten q (qs_transport s)) as [[[pc2 q2] t2] ev] eqn:Hw.
  pose proof (sys_inv_written_step limits _ f IoWritten pc2 q2 t2 ev Hs1 eq_refl Hw) as Hs2.
  simpl in Hs2. unfold run_written in Hw. rewrite Ht in Hw, Hs2 |- *.
  cbn beta iota zeta in Hw. simpl in Hs2 |- *.
  destruct (run_receive q) as [pc3 q3] eqn:Hrr. injection Hw as <- <- <- _.
  apply run_receive_spec in Hrr as (-> & _ & _ & Hc3 & _ & Hp3 & _); [|done].
  change (n + (n + 0) + 1)%nat with (2 * n + 1)%nat.
  apply (IH n) in Hs2; simpl; [done|lia|done|congruence|done|congruence].
Qed.

(** Steps enough for the [run] coroutine to return once the queue is closed: two per pending
    frame, one for the receive that fails, and one if it is not at the receive. *)
Definition drain_fuel (s : QSys) : nat :=
  2 * length (pending (qs_queue s)) + match qs_run s with RunReceiving => 1 | _ => 2 end.

Lemma run_drive_drains limits s :
  sys_inv limits s → closed_ (qs_queue s) = true →
  (∀ r, qs_run s ≠ RunReturned r) →
  accepts_writes (qs_transport s) →
  qs_run (run_drive (drain_fuel s) s) = RunReturned write_success ∧
  qs_accepted (run_drive (drain_fuel s) s) = qs_accepted s.
Proof.
  intros Hs Hc Hnr Ht. unfold drain_fuel.
  destruct (qs_run s) as [| |f|r] eqn:Hrun; [| | |by destruct (Hnr r)].
  2: by eapply run_drive_receiving.
  all: replace (2 * length (pending (qs_queue s)) + 2)%nat
    with (S (2 * length (pending (qs_queue s)) + 1)) by lia; cbn [run_drive].
  all: destruct (run_advance s) as [s1|] eqn:Ha; [|unfold run_advance in Ha; rewrite Hrun in Ha].
  - pose proof (qstep_inv _ _ _ Hs (run_advance_qstep _ _ Ha)) as Hs1.
    unfold run_advance in Ha. rewrite Hrun in Ha.
    destruct (run_receive (qs_queue s)) as [pc q] eqn:Hr. injection Ha as <-.
    apply run_receive_spec in Hr as (-> & _ & _ & Hc3 & _ & Hp3 & _); [|apply Hs].
    apply (run_drive_receiving (length (pending (qs_queue s)))) in Hs1; simpl; [done|done|congruence..].
  - done.
  - pose proof (qstep_inv _ _ _ Hs (run_advance_qstep _ _ Ha)) as Hs1.
    unfold run_advance in Ha. rewrite Hrun in Ha. unfold run_written in Ha. rewrite (proj2 Ht) in Ha.
    cbn beta iota zeta in Ha.
    destruct (run_receive (qs_queue s)) as [pc q] eqn:Hr. simpl in Ha. injection Ha as <-.
    apply run_receive_spec in Hr as (-> & _ & _ & Hc3 & _ & Hp3 & _); [|apply Hs].
    apply (run_drive_receiving (length (pending (qs_queue s)))) in Hs1; simpl; [done|done|congruence..].
  - by destruct (run_written f IoWritten (qs_queue s) (qs_transport s)) as [[[? ?] ?] ?].
Qed.

(** ** Properties *)

(** C26: under every interleaving of [enqueue], [try_enqueue], [close] and [run], frames are
    written in exactly the order in which they were accepted, each at most once and none
    skipped, and the bytes on the wire are the encodings of the written frames one after the
    other: writes never overlap. *)
Theorem write_order_fifo limits observer t s :
  limits_wf limits → qreachable limits observer t s →
  qs_accepted s = qs_written s ++ in_flight s ++ pending (qs_queue s) ∧
  qs_wire s = concat (encode_frame <$> qs_written s) ∧ (length (in_flight s) ≤ 1)%nat.
Proof.
  intros Hl Hr. destruct (qreachable_inv _ _ _ _ Hl Hr). split_and!; [done|done|].
  unfold in_flight. destruct (qs_run s) as [| | |r]; rewrite ?si_returned0; simpl; try lia.
  destruct si_returned0 as [_ Hf]. destruct (write_ok r); [destruct Hf as [-> _]|rewrite Hf]; simpl; lia.
Qed.

(** C35: the byte counter is always exactly the size of the queued frames, so it never wraps
    around and never exceeds the configured limit; the buffered frames never exceed the
    configured number. *)
Theorem write_queue_bounded limits observer t s :
  limits_wf limits → qreachable limits observer t s →
  queued_bytes_ (qs_queue s) = total_bytes (pending (qs_queue s)) ∧
  total_bytes (pending (qs_queue s)) ≤ max_bytes limits ∧
  Z.of_nat (length (cv_buffer (ch_view (channel_ (qs_queue s))))) ≤ max_frames limits.
Proof.
  intros Hl Hr. destruct (qreachable_inv _ _ _ _ Hl Hr) as [Hq <- _ _ _ _ _ _ _].
  pose proof (qi_bytes _ Hq). pose proof (qi_bound _ Hq). split_and!; [done|congruence|].
  pose proof (qi_chan _ Hq) as (_ & Hb & _). rewrite (qi_capacity _ Hq) in Hb.
  destruct Hl as [[? _] _]. lia.
Qed.

(** No wake-up is lost: as long as an [enqueue] call waits for space and the queue is
    open, either a waiting call can resume or the [run] coroutine can make a step that takes
    a frame or finishes a write.  Backpressure never deadlocks. *)
Theorem enqueue_no_deadlock limits observer t s :
  limits_wf limits → qreachable limits observer t s →
  qs_waiters s ≠ [] → closed_ (qs_queue s) = false →
  is_Some (run_advance s) ∨ ∀ f what, f ∈ qs_waiters s → is_Some (enqueue_resume f what (qs_queue s)).
Proof.
  intros Hl Hr Hw Hop. pose proof (qreachable_inv _ _ _ _ Hl Hr) as Hs.
  destruct (si_wake _ _ Hs Hw Hop) as [Hp|Hd].
  - left. unfold run_advance. destruct (qs_run s) eqn:Hrun; [eauto| | |].
    + destruct (run_resume_enabled _ _ Hs Hrun (or_intror Hp)) as [[[pc q] t'] ->]. eauto.
    + destruct (run_written f IoWritten (qs_queue s) (qs_transport s)) as [[[? ?] ?] ?]. eauto.
    + pose proof (si_returned _ _ Hs) as Hret. rewrite Hrun in Hret. destruct Hret. congruence.
  - right. intros f what _. unfold enqueue_resume.
    pose proof (ch_view_resume (space_channel_ (qs_queue s))) as Hv. unfold view_resume in Hv.
    destruct (cv_done (ch_view (space_channel_ (qs_queue s)))) as [|? ?]; [done|].
    destruct (ch_resume (space_channel_ (qs_queue s))) as [[[u|] c]|]; [eauto..|done].
Qed.

(** Once the queue is closed and the transport accepts the writes, [run] returns
    successfully within two steps per pending frame, with every accepted frame written. *)
Theorem closed_queue_drains limits observer t s :
  limits_wf limits → qreachable limits observer t s →
  closed_ (qs_queue s) = true → (∀ r, qs_run s ≠ RunReturned r) →
  accepts_writes (qs_transport s) →
  let s' := run_drive (drain_fuel s) s in
  qs_run s' = RunReturned write_success ∧ qs_written s' = qs_accepted s ∧
  qs_wire s' = concat (encode_frame <$> qs_accepted s).
Proof.
  intros Hl Hr Hc Hnr Ht. pose proof (qreachable_inv _ _ _ _ Hl Hr) as Hs. cbv zeta.
  destruct (run_drive_drains limits s Hs Hc Hnr Ht) as [Hret Hacc].
  assert (qreachable limits observer t (run_drive (drain_fuel s) s)) as Hr'.
  { unfold qreachable in *. etrans; [exact Hr|apply run_drive_steps]. }
  destruct (qreachable_inv _ _ _ _ Hl Hr') as [_ _ Ho Hwire _ _ _ _ Hfin].
  unfold in_flight in Ho. rewrite Hret in *. simpl in Hfin. destruct Hfin as (_ & Hf & Hp).
  rewrite Hf, Hp, app_nil_r in Ho. split_and!; [done|congruence|congruence].
Qed.

(** [try_enqueue] accepts a frame exactly when the queue is open, its bytes fit next to
    the queued ones and the channel has a waiting receiver or a free slot; an accepted frame
    goes to the end of the queue, and a refused one leaves the queue as it was and is
    reported as [resource_limit_exceeded]. *)
Theorem try_enqueue_exact limits observer t s f :
  limits_wf limits → qreachable limits observer t s →
  let q := qs_queue s in
  let '(r, q') := try_enqueue f q in
  (write_ok r = true ↔
     closed_ q = false ∧ max_frames limits ≠ 0 ∧
     total_bytes (pending q) + queued_bytes f ≤ max_bytes limits ∧
     (cv_waiting (ch_view (channel_ q)) ≠ 0%nat ∨
      Z.of_nat (length (cv_buffer (ch_view (channel_ q)))) < max_frames limits)) ∧
  (write_ok r = true → r = write_success ∧ pending q' = pending q ++ [f]) ∧
  (write_ok r = false →
     wr_status r = StatusCode.resource_limit_exceeded ∧ pending q' = pending q ∧
     queued_bytes_ q' = queued_bytes_ q).
Proof.
  intros Hl Hr. destruct (qreachable_inv _ _ _ _ Hl Hr) as [Hq <- _ _ _ _ _ _ _]. cbv zeta.
  destruct (try_enqueue f (qs_queue s)) as [r q'] eqn:Ht. pose proof Ht as Hspec.
  apply try_enqueue_frame_spec in Hspec as (_ & _ & _ & _ & _ & Hout); [|done].
  unfold try_enqueue, try_enqueue_frame, can_fit in Ht. rewrite <-(qi_bytes _ Hq).
  pose proof (qi_chan_closed _ Hq) as Hcc. pose proof (qi_capacity _ Hq) as Hcap.
  pose proof (queued_bytes_pos f). pose proof (total_bytes_nonneg (pending (qs_queue s))) as Hnn.
  rewrite <-(qi_bytes _ Hq) in Hnn.
  destruct (closed_ (qs_queue s)) eqn:Hc; simpl in Ht; [simplify_eq; naive_solver|].
  destruct (Z.eqb_spec (max_frames (limits_ (qs_queue s))) 0); simpl in Ht; [simplify_eq; naive_solver|].
  destruct (Z.leb_spec (queued_bytes f) (max_bytes (limits_ (qs_queue s)))); simpl in Ht;
    [|simplify_eq; naive_solver lia].
  destruct (Z.leb_spec (queued_bytes_ (qs_queue s)) (max_bytes (limits_ (qs_queue s)) - queued_bytes f));
    simpl in Ht; [|simplify_eq; naive_solver lia].
  destruct (ch_try_send f (channel_ (qs_queue s))) as [sent c'] eqn:Hsend.
  apply try_send_view in Hsend. unfold view_try_send in Hsend. rewrite Hcc, Hcap in Hsend.
  destruct (cv_waiting (ch_view (channel_ (qs_queue s)))); [case_decide|];
    injection Hsend as <- _; simplify_eq; naive_solver lia.
Qed.

(** Whatever the peer's socket delivers in whatever pieces of a wire that carries the
    written frames, a decoder with the same payload limit recovers exactly the written
    frames, in order, provided every accepted frame is valid. *)
Theorem written_frames_decode limits observer t s m chunks :
  limits_wf limits → qreachable limits observer t s →
  Forall (λ f, header_wf (header f) ∧ frame_valid f m) (qs_accepted s) →
  concat chunks = qs_wire s →
  ∃ d, push_all (new_decoder m) chunks = Some (d, qs_written s) ∧
    decoder_error d = None ∧ has_incomplete_frame d = false.
Proof.
  intros Hl Hr Hv Hch. destruct (qreachable_inv _ _ _ _ Hl Hr) as [_ _ Ho Hw _ _ _ _ _].
  apply push_all_encode; [|congruence]. rewrite Ho, Forall_app in Hv. apply Hv.
Qed.

End write_queue.

(** ** Witnesses *)

(** A queue for one frame: a frame is buffered, a second [enqueue] waits, the [run] coroutine
    starts and takes the first frame; then the queue may be closed. *)
Section sample.
Local Abbreviation Sys := (QSys (Ch := ListChannel) (T := TcpTransport)).

Definition sample_limits : WriteQueueLimits := mkLimits 1 1000.

Definition do_enqueue (f : Frame) (s : Sys) : Sys :=
  let '(r, q) := enqueue f (qs_queue s) in
  mkSys q (qs_transport s) (qs_run s) (qs_waiters s ++ waits_after f r)
    (qs_accepted s ++ accepted_by f r) (qs_written s) (qs_wire s) (qs_failed s).

Definition do_close (s : Sys) : Sys :=
  mkSys (close (qs_queue s)) (qs_transport s) (qs_run s) (qs_waiters s)
    (qs_accepted s) (qs_written s) (qs_wire s) (qs_failed s).

Definition sample_sys : Sys :=
  run_drive 3 (do_enqueue sample_cancel (do_enqueue sample_request
    (init_sys sample_limits None new_tcp_transport))).

Lemma do_enqueue_step f s : qstep s (do_enqueue f s).
Proof. unfold do_enqueue. destruct (enqueue f (qs_queue s)) as [r q] eqn:He. by constructor. Qed.

Lemma sample_sys_reachable : qreachable sample_limits None new_tcp_transport sample_sys.
Proof.
  unfold qreachable, sample_sys.
  eapply rtc_l; [apply (do_enqueue_step sample_request)|].
  eapply rtc_l; [apply (do_enqueue_step sample_cancel)|]. apply run_drive_steps.
Qed.

Lemma sample_closed_reachable : qreachable sample_limits None new_tcp_transport (do_close sample_sys).
Proof. eapply rtc_r; [apply sample_sys_reachable|]. apply qstep_close. Qed.

Lemma sample_limits_wf : limits_wf sample_limits.
Proof. unfold limits_wf, in_u. simpl. lia. Qed.

Lemma write_order_fifo_witness :
  qs_accepted sample_sys = [sample_request] ∧
  qs_accepted sample_sys = qs_written sample_sys ++ in_flight sample_sys ++ pending (qs_queue sample_sys).
Proof.
  split; [vm_compute; reflexivity|].
  apply (write_order_fifo sample_limits None new_tcp_transport sample_sys
    sample_limits_wf sample_sys_reachable).
Defined.

Lemma write_queue_bounded_witness :
  Z.of_nat (length (cv_buffer (ch_view (channel_ (qs_queue sample_sys))))) ≤ max_frames sample_limits.
Proof.
  apply (write_queue_bounded sample_limits None new_tcp_transport sample_sys
    sample_limits_wf sample_sys_reachable).
Defined.

Lemma enqueue_no_deadlock_witness :
  qs_waiters sample_sys = [sample_cancel] ∧
  (is_Some (run_advance sample_sys) ∨
   ∀ f what, f ∈ qs_waiters sample_sys → is_Some (enqueue_resume f what (qs_queue sample_sys))).
Proof.
  split; [vm_compute; reflexivity|].
  apply (enqueue_no_deadlock sample_limits None new_tcp_transport sample_sys
    sample_limits_wf sample_sys_reachable); vm_compute; [discriminate|reflexivity].
Defined.

Lemma closed_queue_drains_witness :
  let s' := run_drive (drain_fuel (do_close sample_sys)) (do_close sample_sys) in
  qs_run s' = RunReturned write_success ∧ qs_written s' = qs_accepted (do_close sample_sys).
Proof.
  destruct (closed_queue_drains sample_limits None new_tcp_transport (do_close sample_sys)
    sample_limits_wf sample_closed_reachable) as (H1 & H2 & _); [..|split; [exact H1|exact H2]].
  - reflexivity.
  - intros r. vm_compute. discriminate.
  - split; reflexivity.
Defined.

Lemma try_enqueue_exact_witness :
  let '(r, q') := try_enqueue sample_request (qs_queue sample_sys) in
  write_ok r = true ∧ r = write_success.
Proof.
  pose proof (try_enqueue_exact sample_limits None new_tcp_transport sample_sys sample_request
    sample_limits_wf sample_sys_reachable) as H. cbv zeta in H.
  assert (write_ok (try_enqueue sample_request (qs_queue sample_sys)).1 = true) as Hok
    by (vm_compute; reflexivity).
  destruct (try_enqueue sample_request (qs_queue sample_sys)) as [r q'].
  destruct H as (_ & H & _). split; [exact Hok|]. apply H, Hok.
Defined.

Lemma written_frames_decode_witness :
  let s := run_drive 4 (do_enqueue sample_request (init_sys sample_limits None new_tcp_transport)) in
  qs_written s = [sample_request] ∧
  ∃ d, push_all (new_decoder 100) [qs_wire s] = Some (d, qs_written s) ∧
    decoder_error d = None ∧ has_incomplete_frame d = false.
Proof.
  split; [vm_compute; reflexivity|].
  apply (written_frames_decode sample_limits None new_tcp_transport).
  - exact sample_limits_wf.
  - eapply rtc_l; [apply (do_enqueue_step sample_request)|apply run_drive_steps].
  - vm_decide.
  - vm_compute. reflexivity.
Defined.

End sample.
