(* ===== verification/ClientConnection.v ===== *)
(** * The client connection

    [include/rillnet/client_connection.hpp]: one connection with the requests that are
    outstanding on it.  A [PendingRequest] is shared ([std::shared_ptr]) between the
    connection's table, the caller's [RequestOperation] and the timer's handler, so the model
    keeps these objects in a store and passes their locations around.  Coroutines are cut at
    their suspension points, as in [WriteQueue]. *)

From S2P Require Import Prelude Identifiers Status Frame FrameCodec FrameDecoder ProtocolViolation.
From S2P Require Import Lifecycle Diagnostics Operation StreamIdAllocator Codec MessageRegistry MessageCodec.
From S2P Require Import Transport Channel Timer WriteQueue.

Local Open Scope Z_scope.

(** ** Pieces of the run-time *)

(** The order in which an [unordered_map] is traversed is unspecified: [map_begin] is any
    function that yields an entry of a non-empty map. *)
Class MapBegin := map_begin : gmap StreamId nat → option (StreamId * nat).

Class MapBeginLaws `{!MapBegin} : Prop := {
  map_begin_empty m : map_begin m = None → m = ∅;
  map_begin_entry m k l : map_begin m = Some (k, l) → m !! k = Some l;
}.

(** ** The connection *)

Section client.
Context {Ch : Type → Type} `{!Channel Ch} {Tm : Type} `{!SteadyTimer Tm}.
Context {T : Type} `{!Transport T} `{!MapBegin}.
Context {TypeIndex : Type} `{Countable TypeIndex} {msg : TypeIndex → Type} `{C : !Codec TypeIndex msg}.

(** The members that never change after construction. *)
Context (registry_ : MessageRegistry (TypeIndex := TypeIndex)) (diagnostics_ : DiagnosticsHooks).

Record PendingRequest := mkPending {
  pr_channel : Ch Frame;
  pr_timer : Tm;
  pr_operation : Operation DiagnosticsEvent;
  pr_removed : bool;
  pr_stream_released : bool;
}.

Definition new_pending (s : StreamId) (h : OperationResult → list DiagnosticsEvent) : PendingRequest :=
  mkPending (ch_make 1) tm_make (activate (new_operation s (Some h))).2 false false.

(** The members that change, the store of the [PendingRequest] objects (a location is a
    position in it) and the calls of the diagnostics observer so far. *)
Record ClientConnection := mkClient {
  transport_ : T;
  write_queue_ : WriteQueue (Ch := Ch);
  stream_ids_ : StreamIdAllocator;
  decoder_ : FrameDecoder;
  pending_ : gmap StreamId nat;
  terminal_streams_ : gset StreamId;
  lifecycle_ : ConnectionState;
  closed_notified_ : bool;
  heap_ : list PendingRequest;
  log_ : list DiagnosticsEvent;
}.

Implicit Types c : ClientConnection.

Definition set_transport (t : T) c : ClientConnection :=
  mkClient t (write_queue_ c) (stream_ids_ c) (decoder_ c) (pending_ c) (terminal_streams_ c)
    (lifecycle_ c) (closed_notified_ c) (heap_ c) (log_ c).
Definition set_write_queue (q : WriteQueue (Ch := Ch)) c : ClientConnection :=
  mkClient (transport_ c) q (stream_ids_ c) (decoder_ c) (pending_ c) (terminal_streams_ c)
    (lifecycle_ c) (closed_notified_ c) (heap_ c) (log_ c).
Definition set_stream_ids (a : StreamIdAllocator) c : ClientConnection :=
  mkClient (transport_ c) (write_queue_ c) a (decoder_ c) (pending_ c) (terminal_streams_ c)
    (lifecycle_ c) (closed_notified_ c) (heap_ c) (log_ c).
Definition set_decoder (d : FrameDecoder) c : ClientConnection :=
  mkClient (transport_ c) (write_queue_ c) (stream_ids_ c) d (pending_ c) (terminal_streams_ c)
    (lifecycle_ c) (closed_notified_ c) (heap_ c) (log_ c).
Definition set_pending (p : gmap StreamId nat) c : ClientConnection :=
  mkClient (transport_ c) (write_queue_ c) (stream_ids_ c) (decoder_ c) p (terminal_streams_ c)
    (lifecycle_ c) (closed_notified_ c) (heap_ c) (log_ c).
Definition set_terminal_streams (s : gset StreamId) c : ClientConnection :=
  mkClient (transport_ c) (write_queue_ c) (stream_ids_ c) (decoder_ c) (pending_ c) s
    (lifecycle_ c) (closed_notified_ c) (heap_ c) (log_ c).
Definition set_lifecycle (s : ConnectionState) c : ClientConnection :=
  mkClient (transport_ c) (write_queue_ c) (stream_ids_ c) (decoder_ c) (pending_ c)
    (terminal_streams_ c) s (closed_notified_ c) (heap_ c) (log_ c).
Definition set_closed_notified (b : bool) c : ClientConnection :=
  mkClient (transport_ c) (write_queue_ c) (stream_ids_ c) (decoder_ c) (pending_ c)
    (terminal_streams_ c) (lifecycle_ c) b (heap_ c) (log_ c).
Definition set_heap (h : list PendingRequest) c : ClientConnection :=
  mkClient (transport_ c) (write_queue_ c) (stream_ids_ c) (decoder_ c) (pending_ c)
    (terminal_streams_ c) (lifecycle_ c) (closed_notified_ c) h (log_ c).

Definition log_events (es : list DiagnosticsEvent) c : ClientConnection :=
  mkClient (transport_ c) (write_queue_ c) (stream_ids_ c) (decoder_ c) (pending_ c)
    (terminal_streams_ c) (lifecycle_ c) (closed_notified_ c) (heap_ c) (log_ c ++ es).

Definition notify (e : DiagnosticsEvent) c : ClientConnection :=
  log_events (notify_diagnostics diagnostics_ e) c.

(** The lambda the constructor gives to the write queue. *)
Definition write_observer (f : Frame) (bytes : Z) : list DiagnosticsEvent :=
  notify_diagnostics diagnostics_
    (mkEvent DiagnosticsEventType.bytes_transferred default_id StatusCode.ok bytes false EmptyString)
  ++ notify_diagnostics diagnostics_
    (mkEvent DiagnosticsEventType.message_transferred (stream (header f)) StatusCode.ok 0 false
       EmptyString).

Definition new_client (t : T) (limits : WriteQueueLimits) (maximum_stream_id : Z) : ClientConnection :=
  mkClient t (new_queue limits (Some write_observer))
    (new_allocator StreamInitiator.client maximum_stream_id)
    (new_decoder default_max_payload_size) ∅ ∅ ConnectionState.created false [] [].

Definition state c : ConnectionState := lifecycle_ c.

(** [lifecycle_.transition(next)], the result ignored. *)
Definition transition (next : ConnectionState) c : ClientConnection :=
  set_lifecycle (connection_transition (lifecycle_ c) next).2 c.

(** [*pending = f( *pending)] for the object at [l]. *)
Definition modify (l : nat) (f : PendingRequest → PendingRequest) c : ClientConnection :=
  set_heap (alter f l (heap_ c)) c.

Definition close_channel (l : nat) c : ClientConnection :=
  modify l (λ p, mkPending (ch_close (pr_channel p)) (pr_timer p) (pr_operation p) (pr_removed p)
                   (pr_stream_released p)) c.

Definition cancel_timer (l : nat) c : ClientConnection :=
  modify l (λ p, mkPending (pr_channel p) (tm_cancel (pr_timer p)) (pr_operation p)
                   (pr_removed p) (pr_stream_released p)) c.

(** A call of an [Operation] method that may complete the operation, on the object at [l]. *)
Definition call_operation (l : nat)
    (f : Operation DiagnosticsEvent → bool * Operation DiagnosticsEvent * list DiagnosticsEvent)
    c : bool * ClientConnection :=
  match heap_ c !! l with
  | None => (false, c)
  | Some p =>
      let '(b, op, events) := f (pr_operation p) in
      (b, log_events events
            (set_heap (<[l := mkPending (pr_channel p) (pr_timer p) op (pr_removed p)
                               (pr_stream_released p)]> (heap_ c)) c))
  end.

(** [pending->operation.stream()] *)
Definition stream_of (l : nat) c : StreamId :=
  match heap_ c !! l with Some p => op_stream (pr_operation p) | None => default_id end.

(** ** Releasing a pending request *)

Definition cleanup_pending (l : nat) (release_stream : bool) c : ClientConnection :=
  match heap_ c !! l with
  | None => c
  | Some p =>
      let s := op_stream (pr_operation p) in
      let c :=
        if negb (pr_removed p) then
          let c := modify l (λ p, mkPending (pr_channel p) (tm_cancel (pr_timer p))
                                    (pr_operation p) true (pr_stream_released p)) c in
          match pending_ c !! s with
          | Some l' => if decide (l' = l) then set_pending (delete s (pending_ c)) c else c
          | None => c
          end
        else c in
      if release_stream && negb (pr_stream_released p) then
        let c := modify l (λ p, mkPending (pr_channel p) (pr_timer p) (pr_operation p)
                                  (pr_removed p) true) c in
        set_stream_ids (release s (stream_ids_ c)) c
      else c
  end.

Definition cancellation_frame (s : StreamId) : Frame :=
  mkFrame (mkHeader (version default_header) FrameType.request
             (flags_or FrameFlags.cancel FrameFlags.end_of_stream) s 0) [].

Definition send_cancellation (s : StreamId) c : ClientConnection :=
  set_write_queue (try_enqueue (cancellation_frame s) (write_queue_ c)).2 c.

Definition notify_closed c : ClientConnection :=
  if closed_notified_ c then c
  else
    notify (mkEvent DiagnosticsEventType.connection_closed default_id StatusCode.connection_closed 0
              false "connection closed")
      (set_closed_notified true c).

(** ** Ending requests *)

(** The loop runs until the table is empty.  Every round removes an entry of it
    ([fail_pending_empties]), so the number of entries is enough fuel. *)
Fixpoint fail_pending_loop (fuel : nat) (status : StatusCode) (message : string) c : ClientConnection :=
  match fuel with
  | O => c
  | S fuel =>
      match map_begin (pending_ c) with
      | None => c
      | Some (_, l) =>
          let c := (call_operation l (fail_op status message) c).2 in
          let c := close_channel l c in
          let c := cleanup_pending l false c in
          fail_pending_loop fuel status message c
      end
  end.

Definition fail_pending (status : StatusCode) (message : string) c : ClientConnection :=
  fail_pending_loop (size (pending_ c)) status message c.

Definition timeout_pending (l : nat) c : ClientConnection :=
  let '(timed_out, c) := call_operation l (timeout "operation deadline exceeded") c in
  if negb timed_out then c
  else
    let c := send_cancellation (stream_of l c) c in
    let c := close_channel l c in
    cleanup_pending l false c.

Definition cancel_pending (l : nat) (message : string) c : bool * ClientConnection :=
  let '(cancelled, c) := call_operation l (cancel message) c in
  if negb cancelled then (false, c)
  else
    let c := send_cancellation (stream_of l c) c in
    let c := close_channel l c in
    (true, cleanup_pending l false c).

Definition discard_pending (l : nat) c : ClientConnection :=
  let c :=
    if negb (match heap_ c !! l with Some p => is_terminal (pr_operation p) | None => true end) then
      let c := (call_operation l (cancel "operation handle released") c).2 in
      let c := send_cancellation (stream_of l c) c in
      close_channel l c
    else c in
  cleanup_pending l true c.

Definition fail_connection (status : StatusCode) (message : string) c : ClientConnection :=
  let c :=
    if decide (status_category status = StatusCategory.protocol) then
      notify (mkEvent DiagnosticsEventType.protocol_error default_id status 0 true message) c
    else c in
  let c := fail_pending status message c in
  set_transport (t_close (transport_ c)) c.

Definition begin_shutdown c : ClientConnection :=
  let c :=
    if decide (lifecycle_ c = ConnectionState.created) then
      transition ConnectionState.active (transition ConnectionState.connecting c)
    else c in
  if decide (lifecycle_ c = ConnectionState.active) then transition ConnectionState.draining c else c.

(** ** Incoming frames *)

Definition mark_terminal (frame : Frame) c : ClientConnection :=
  if has_flag (flags (header frame)) FrameFlags.end_of_stream then
    set_terminal_streams ({[stream (header frame)]} ∪ terminal_streams_ c) c
  else c.

Definition dispatch (frame : Frame) c : ClientConnection :=
  if negb (bool_decide (type (header frame) = FrameType.response)) then
    fail_connection StatusCode.malformed_frame "client received a non-response frame" c
  else
    match pending_ c !! stream (header frame) with
    | None => fail_connection StatusCode.unknown_stream "response received for an unknown stream" c
    | Some l =>
        if decide (stream (header frame) ∈ terminal_streams_ c) then
          fail_connection StatusCode.malformed_frame "duplicate terminal frame" c
        else if has_flag (flags (header frame)) FrameFlags.cancel then
          mark_terminal frame (cancel_pending l "operation cancelled by peer" c).2
        else if has_flag (flags (header frame)) FrameFlags.error then
          match decode_error_status frame with
          | None => fail_connection StatusCode.malformed_frame "malformed protocol error payload" c
          | Some status =>
              let c := (call_operation l (fail_op status "peer rejected the operation") c).2 in
              let c := close_channel l c in
              let c := cleanup_pending l true c in
              mark_terminal frame c
          end
        else
          let '(completed, c) := call_operation l (complete "response received") c in
          if negb completed then
            fail_connection StatusCode.malformed_frame "duplicate terminal frame" c
          else
            let c := cancel_timer l c in
            let c := modify l (λ p, mkPending (ch_try_send frame (pr_channel p)).2 (pr_timer p)
                                      (pr_operation p) (pr_removed p) (pr_stream_released p)) c in
            let c := cleanup_pending l true c in
            mark_terminal frame c
    end.

(** The [for] loop over the decoded frames, with its [break]. *)
Fixpoint dispatch_frames (frames : list Frame) c : ClientConnection :=
  match frames with
  | [] => c
  | frame :: frames =>
      let c := notify (mkEvent DiagnosticsEventType.message_transferred (stream (header frame))
                         StatusCode.ok 0 true EmptyString) c in
      let c := dispatch frame c in
      if negb (t_is_open (transport_ c)) then c else dispatch_frames frames c
  end.

(** Where the [read_loop] coroutine is. *)
Inductive ReadPc := ReadNotStarted | ReadWaiting | ReadEnded.

(** What follows the loop. *)
Definition read_loop_exit c : ReadPc * ClientConnection :=
  let c := fail_pending StatusCode.connection_closed "connection closed while awaiting a response" c in
  let c := set_write_queue (close (write_queue_ c)) c in
  let c := transition ConnectionState.closed c in
  (ReadEnded, notify_closed c).

(** The head of the loop, up to the suspension in [transport_->read]. *)
Definition read_loop_head c : ReadPc * ClientConnection :=
  if t_is_open (transport_ c) then
    if t_read_begin (transport_ c) then (ReadWaiting, c) else read_loop_exit c
  else read_loop_exit c.

(** The socket has answered. *)
Definition read_loop_resume (io : ReadIo) c : option (ReadPc * ClientConnection) :=
  let '(r, t) := t_read_end io (transport_ c) in
  let c := set_transport t c in
  match r with
  | ReadThrow _ => Some (read_loop_exit c)
  | ReadBytes [] => Some (read_loop_exit c)
  | ReadBytes bytes =>
      let c := notify (mkEvent DiagnosticsEventType.bytes_transferred default_id StatusCode.ok
                         (Z.of_nat (length bytes)) true EmptyString) c in
      '(d, frames) ← push (decoder_ c) bytes;
      let c := dispatch_frames frames (set_decoder d c) in
      match decoder_error (decoder_ c) with
      | Some error =>
          Some (read_loop_exit
            (fail_connection (status_for_frame_validation error) (frame_validation_message error) c))
      | None => Some (read_loop_head c)
      end
  end.

(** [run] up to the two coroutines it starts: the write queue's [run], then [read_loop]. *)
Definition run c : ClientConnection * RunPc * ReadPc :=
  let c :=
    if decide (lifecycle_ c = ConnectionState.created) then
      notify (event_of_type DiagnosticsEventType.connection_opened)
        (transition ConnectionState.active (transition ConnectionState.connecting c))
    else c in
  let '(run_pc, q) := run_receive (write_queue_ c) in
  let c := set_write_queue q c in
  let '(read_pc, c) := read_loop_head c in
  (c, run_pc, read_pc).

(** ** Requests *)

Record StartRequestResult := mkStartResult {
  sr_operation : option nat;
  sr_status : StatusCode;
  sr_message : string;
}.

Definition start_ok (r : StartRequestResult) : bool := bool_decide (sr_status r = StatusCode.ok).

Definition start_success (l : nat) : StartRequestResult :=
  mkStartResult (Some l) StatusCode.ok EmptyString.

Definition start_failure (status : StatusCode) (message : string) : StartRequestResult :=
  mkStartResult None status message.

(** The completion handler of a request. *)
Definition request_handler (s : StreamId) (r : OperationResult) : list DiagnosticsEvent :=
  let type :=
    if decide (res_status r = StatusCode.cancelled) then DiagnosticsEventType.cancellation
    else if decide (res_status r = StatusCode.timeout_error) then DiagnosticsEventType.timeout
    else DiagnosticsEventType.request_completed in
  notify_diagnostics diagnostics_ (mkEvent type s (res_status r) 0 false (res_message r)).

(** [start_request] returns, or suspends in [write_queue_.enqueue(frame)]. *)
Inductive StartStep :=
  | StartReturned (r : StartRequestResult)
  | StartEnqueuing (l : nat) (f : Frame).

(** The frame was accepted or refused. *)
Definition start_request_sent (l : nat) (sent : WriteResult) c : StartRequestResult * ClientConnection :=
  if negb (write_ok sent) then
    let c := (call_operation l (fail_op (wr_status sent) (wr_message sent)) c).2 in
    let c := close_channel l c in
    let c := cleanup_pending l true c in
    (start_failure (wr_status sent) (wr_message sent), c)
  else (start_success l, c).

(** The [enqueue] call has returned or suspended. *)
Definition start_request_enqueue (l : nat) (f : Frame) (r : EnqueueStep) c : StartStep * ClientConnection :=
  match r with
  | EnqueueWaiting => (StartEnqueuing l f, c)
  | EnqueueReturned sent =>
      let '(r, c) := start_request_sent l sent c in (StartReturned r, c)
  end.

Definition start_request (t : TypeIndex) (v : msg t) c : StartStep * ClientConnection :=
  if bool_decide (state c = ConnectionState.draining) || bool_decide (state c = ConnectionState.closing)
     || bool_decide (state c = ConnectionState.closed) then
    (StartReturned (start_failure StatusCode.connection_closed "connection is shutting down"), c)
  else
    let '(allocation, ids) := allocate (stream_ids_ c) in
    let c := set_stream_ids ids c in
    match allocation_stream allocation with
    | None =>
        (StartReturned (start_failure (allocation_status allocation) "stream identifiers exhausted"), c)
    | Some s =>
        let encoded := encode_message_default registry_ t v s FrameType.request in
        match (if frame_encode_ok encoded then fe_frame encoded else None) with
        | None => (StartReturned (start_failure (fe_status encoded) (fe_message encoded)), c)
        | Some f =>
            let l := length (heap_ c) in
            let c := set_heap (heap_ c ++ [new_pending s (request_handler s)]) c in
            (* [emplace] keeps the entry of a key that is present *)
            let c := set_pending (match pending_ c !! s with
                                  | Some _ => pending_ c
                                  | None => <[s := l]> (pending_ c)
                                  end) c in
            let c := notify (event_on_stream DiagnosticsEventType.request_started s) c in
            let '(r, q) := enqueue f (write_queue_ c) in
            start_request_enqueue l f r (set_write_queue q c)
        end
    end.

(** The suspended [enqueue] resumes. *)
Definition start_request_resume (l : nat) (f : Frame) (what : string) c
    : option (StartStep * ClientConnection) :=
  '(r, q) ← enqueue_resume f what (write_queue_ c);
  Some (start_request_enqueue l f r (set_write_queue q c)).

(** The overload with a deadline, after the plain [start_request] has returned. *)
Definition start_request_deadline (deadline : Z) (started : StartRequestResult) c
    : StartRequestResult * ClientConnection :=
  if negb (start_ok started) then (started, c)
  else
    match sr_operation started with
    | None => (started, c)
    | Some l =>
        (started,
         modify l (λ p, mkPending (pr_channel p)
                          (tm_async_wait (tm_expires_at deadline (pr_timer p)))
                          (set_deadline deadline (pr_operation p)).2 (pr_removed p)
                          (pr_stream_released p)) c)
    end.

(** The overload with a timeout: the deadline it computes before it starts. *)
Definition start_request_timeout (now timeout : Z) : Z := now + timeout.

(** The timer's handler, when the wait completes: [error] tells whether it was cancelled. *)
Definition timer_handler (l : nat) (error : bool) c : option ClientConnection :=
  p ← heap_ c !! l;
  timer ← tm_complete error (pr_timer p);
  let c := modify l (λ p, mkPending (pr_channel p) timer (pr_operation p) (pr_removed p)
                            (pr_stream_released p)) c in
  Some (if negb error then timeout_pending l c else c).

(** ** [RequestOperation] *)

Record RequestOperation := mkHandle {
  ro_connection : bool;
  ro_pending : option nat;
}.

Definition empty_handle : RequestOperation := mkHandle false None.

Definition handle_of (l : nat) : RequestOperation := mkHandle true (Some l).

(** The object a non-empty handle refers to. *)
Definition handle_target (h : RequestOperation) : option nat :=
  if ro_connection h then ro_pending h else None.

Definition handle_destroy (h : RequestOperation) c : ClientConnection :=
  match handle_target h with Some l => discard_pending l c | None => c end.

(** The move constructor: the new handle and what is left of the other one. *)
Definition handle_move (other : RequestOperation) : RequestOperation * RequestOperation :=
  (mkHandle (ro_connection other) (ro_pending other), mkHandle false None).

(** Move assignment between different handles. *)
Definition handle_assign (h other : RequestOperation) c
    : RequestOperation * RequestOperation * ClientConnection :=
  let c := match handle_target h with Some l => discard_pending l c | None => c end in
  (mkHandle (ro_connection other) (ro_pending other), mkHandle false None, c).

Definition handle_stream (h : RequestOperation) c : StreamId :=
  match ro_pending h with Some l => stream_of l c | None => default_id end.

Definition handle_cancel (h : RequestOperation) (message : string) c : bool * ClientConnection :=
  match handle_target h with None => (false, c) | Some l => cancel_pending l message c end.

(** [async_wait] returns, or suspends in [pending_->channel.async_receive]. *)
Inductive WaitStep (R : Type) :=
  | WaitReturned (r : R)
  | WaitReceiving (l : nat).
Arguments WaitReturned {R}.
Arguments WaitReceiving {R}.

Definition async_wait (t : TypeIndex) (h : RequestOperation) c
    : WaitStep (DecodeResult (msg t)) * ClientConnection :=
  match handle_target h with
  | None =>
      (WaitReturned (decode_failure StatusCode.operation_error "operation handle is empty"), c)
  | Some l =>
      (WaitReceiving l,
       modify l (λ p, mkPending (ch_async_receive (pr_channel p)) (pr_timer p) (pr_operation p)
                        (pr_removed p) (pr_stream_released p)) c)
  end.

(** The result of a finished receive: the frame's message, or what ended the operation. *)
Definition wait_result (t : TypeIndex) (received : option Frame) (op : Operation DiagnosticsEvent)
    : DecodeResult (msg t) :=
  match received with
  | None =>
      match op_result op with
      | Some r => decode_failure (res_status r) (res_message r)
      | None =>
          decode_failure StatusCode.connection_closed "connection closed while awaiting a response"
      end
  | Some frame => decode_message registry_ t frame
  end.

Definition async_wait_resume (t : TypeIndex) (l : nat) c
    : option (DecodeResult (msg t) * ClientConnection) :=
  p ← heap_ c !! l;
  '(received, channel) ← ch_resume (pr_channel p);
  let c := modify l (λ p, mkPending channel (pr_timer p) (pr_operation p) (pr_removed p)
                            (pr_stream_released p)) c in
  let c := cleanup_pending l true c in
  Some (wait_result t received (pr_operation p), c).

(** [request]: the request once it has been started, and its end, where the local handle is
    destroyed. *)
Definition request_started (t : TypeIndex) (started : StartRequestResult) c
    : WaitStep (DecodeResult (msg t)) * ClientConnection :=
  if negb (start_ok started) then
    (WaitReturned (decode_failure (sr_status started) (sr_message started)), c)
  else
    async_wait t (match sr_operation started with Some l => handle_of l | None => empty_handle end) c.

Definition request_resume (t : TypeIndex) (l : nat) c : option (DecodeResult (msg t) * ClientConnection) :=
  '(r, c) ← async_wait_resume t l c;
  Some (r, handle_destroy (handle_of l) c).

(** ** Shutting down *)

Inductive ShutdownStep := ShutdownWaiting | ShutdownDone.

(** What follows the polling loop. *)
Definition shutdown_finish c : ClientConnection :=
  let c :=
    if decide (pending_ c = ∅) then c
    else fail_pending StatusCode.connection_closed "connection drain period expired" c in
  let c := set_transport (t_close (transport_ c)) c in
  let c := transition ConnectionState.closed c in
  notify_closed c.

(** The condition of the polling loop at time [now]. *)
Definition shutdown_poll (now deadline : Z) c : ShutdownStep * ClientConnection :=
  if negb (bool_decide (pending_ c = ∅)) && (now <? deadline) then (ShutdownWaiting, c)
  else (ShutdownDone, shutdown_finish c).

(** [drain_period] is counted from [start]; [now] is when the loop condition is evaluated. *)
Definition shutdown (start now drain_period : Z) c : ShutdownStep * ClientConnection :=
  shutdown_poll now (start + drain_period) (begin_shutdown c).

(** The poll timer has completed, with an error if it was cancelled. *)
Definition shutdown_resume (error : bool) (now deadline : Z) c : ShutdownStep * ClientConnection :=
  if error then (ShutdownDone, shutdown_finish c) else shutdown_poll now deadline c.

(** ** Invariant *)

Context `{!ChannelLaws Ch} `{!TransportLaws T} `{!MapBeginLaws} `{!CodecLaws TypeIndex msg}.

(** A request that is still in the table has an active operation and a channel that is open
    and has carried nothing.  A request leaves the table exactly when its operation
    becomes terminal; then its channel is closed, or the response was sent on it, so that
    one receive on it does not wait.  The stream identifier is given back only after that. *)
Record obj_inv (p : PendingRequest) : Prop := {
  oi_op : op_inv (pr_operation p);
  oi_activated : op_lifecycle (pr_operation p) ≠ OperationState.created;
  oi_handler : op_completion_handler (pr_operation p) = Some (request_handler (op_stream (pr_operation p)));
  oi_removed : pr_removed p = is_terminal (pr_operation p);
  oi_chan : view_wf (ch_view (pr_channel p));
  oi_capacity : cv_capacity (ch_view (pr_channel p)) = 1;
  oi_live : pr_removed p = false →
    cv_closed (ch_view (pr_channel p)) = false ∧ view_pending (ch_view (pr_channel p)) = [];
  oi_ended : pr_removed p = true →
    cv_closed (ch_view (pr_channel p)) = true ∨
    op_lifecycle (pr_operation p) = OperationState.completed;
  oi_released : pr_stream_released p = true → pr_removed p = true;
  oi_started : (receives (pr_channel p) ≤ cv_receives (ch_view (pr_channel p)))%nat;
  oi_answered : pr_removed p = true → (cv_receives (ch_view (pr_channel p)) ≤ 1)%nat →
    cv_waiting (ch_view (pr_channel p)) = 0%nat ∧
    (cv_closed (ch_view (pr_channel p)) = false → cv_receives (ch_view (pr_channel p)) = 0%nat →
       cv_buffer (ch_view (pr_channel p)) ≠ []);
}.

Local Abbreviation listeners := (listeners diagnostics_).

Record conn_inv c : Prop := {
  ci_ids : alloc_inv (stream_ids_ c);
  ci_client : initiator_ (stream_ids_ c) = StreamInitiator.client;
  ci_queue : queue_inv (write_queue_ c);
  ci_observer : write_observer_ (write_queue_ c) = Some write_observer;
  ci_decoder : decoder_inv (decoder_ c);
  ci_objects l p : heap_ c !! l = Some p → obj_inv p;
  ci_table s l : pending_ c !! s = Some l →
    ∃ p, heap_ c !! l = Some p ∧ op_stream (pr_operation p) = s ∧ pr_removed p = false;
  ci_live l p : heap_ c !! l = Some p → pr_removed p = false →
    pending_ c !! op_stream (pr_operation p) = Some l;
  ci_in_use l p : heap_ c !! l = Some p → pr_stream_released p = false →
    value (op_stream (pr_operation p)) ∈ in_use_ (stream_ids_ c);
  ci_distinct l l' p p' : heap_ c !! l = Some p → heap_ c !! l' = Some p' →
    pr_stream_released p = false → pr_stream_released p' = false →
    op_stream (pr_operation p) = op_stream (pr_operation p') → l = l';
  ci_size : (size (pending_ c) + count pr_removed (heap_ c) = length (heap_ c))%nat;
  ci_started : count is_started (log_ c) = (listeners * length (heap_ c))%nat;
  ci_ended : count is_ended (log_ c) = (listeners * count pr_removed (heap_ c))%nat;
  ci_closed_event : count is_closed_event (log_ c) = (listeners * if closed_notified_ c then 1 else 0)%nat;
  ci_closed : lifecycle_ c = ConnectionState.closed → pending_ c = ∅;
  ci_state : settled_state (lifecycle_ c);
}.

Lemma count_request_handler s r :
  count is_started (request_handler s r) = 0%nat ∧
  count is_ended (request_handler s r) = listeners ∧
  count is_closed_event (request_handler s r) = 0%nat.
Proof.
  unfold request_handler. rewrite !count_notify. unfold is_started, is_ended, is_closed_event. simpl.
  destruct (decide (res_status r = StatusCode.cancelled));
    [|destruct (decide (res_status r = StatusCode.timeout_error))]; simpl; lia.
Qed.

Lemma neutral_write_observer f n : neutral (write_observer f n).
Proof. apply neutral_app; by apply neutral_notify. Qed.

(** *** Changes the invariant does not see *)

Lemma inv_log es c : neutral es → conn_inv c → conn_inv (log_events es c).
Proof.
  intros (Hs & He & Hc) []. split; simpl; auto; rewrite count_app, ?Hs, ?He, ?Hc; lia.
Qed.

Lemma inv_notify e c :
  is_started e = false → is_ended e = false → is_closed_event e = false →
  conn_inv c → conn_inv (notify e c).
Proof. intros. by apply inv_log; [apply neutral_notify|]. Qed.

Lemma inv_transport t c : conn_inv c → conn_inv (set_transport t c).
Proof. by intros []. Qed.

Lemma inv_terminal ts c : conn_inv c → conn_inv (set_terminal_streams ts c).
Proof. by intros []. Qed.

Lemma inv_decoder d c : decoder_inv d → conn_inv c → conn_inv (set_decoder d c).
Proof. intros ? []. by split. Qed.

Lemma inv_write_queue q c :
  queue_inv q → write_observer_ q = write_observer_ (write_queue_ c) →
  conn_inv c → conn_inv (set_write_queue q c).
Proof. intros ? ? []. split; simpl; auto. congruence. Qed.

Lemma inv_lifecycle st c :
  settled_state st → (st = ConnectionState.closed → pending_ c = ∅) →
  conn_inv c → conn_inv (set_lifecycle st c).
Proof. intros ? ? []. by split. Qed.

Lemma transition_inv next c :
  next = ConnectionState.draining ∨ next = ConnectionState.closed →
  (next = ConnectionState.closed → pending_ c = ∅) → conn_inv c → conn_inv (transition next c).
Proof.
  intros Hn He Hc. apply inv_lifecycle; [| |done].
  - apply settled_transition; [done|apply Hc].
  - intros [Hcl|[-> _]]%connection_transition_closed; [by apply (ci_closed _ Hc)|auto].
Qed.

(** The two transitions of a new connection. *)
Lemma activate_inv c :
  lifecycle_ c = ConnectionState.created → conn_inv c →
  conn_inv (transition ConnectionState.active (transition ConnectionState.connecting c)).
Proof.
  intros Hl Hc. unfold transition. rewrite Hl. simpl.
  change (conn_inv (set_lifecycle ConnectionState.active c)). by apply inv_lifecycle.
Qed.

Lemma inv_mark_terminal f c : conn_inv c → conn_inv (mark_terminal f c).
Proof. intros. unfold mark_terminal. case_match; [by apply inv_terminal|done]. Qed.

Lemma mark_terminal_fields f c :
  heap_ (mark_terminal f c) = heap_ c ∧ pending_ (mark_terminal f c) = pending_ c ∧
  stream_ids_ (mark_terminal f c) = stream_ids_ c ∧ transport_ (mark_terminal f c) = transport_ c ∧
  write_queue_ (mark_terminal f c) = write_queue_ c ∧ lifecycle_ (mark_terminal f c) = lifecycle_ c.
Proof. unfold mark_terminal. by case_match. Qed.

Lemma inv_send_cancellation s c : conn_inv c → conn_inv (send_cancellation s c).
Proof.
  intros Hc. destruct (try_enqueue_constant (cancellation_frame s) (write_queue_ c)) as [Ho _].
  apply inv_write_queue; [|done..]. clear Ho.
  destruct (try_enqueue (cancellation_frame s) (write_queue_ c)) as [r q] eqn:Ht.
  by apply try_enqueue_frame_spec in Ht as [? _]; [|apply Hc].
Qed.

Lemma inv_notify_closed c : conn_inv c → conn_inv (notify_closed c).
Proof.
  intros Hc. unfold notify_closed. destruct (closed_notified_ c) eqn:Hn; [done|].
  destruct Hc. rewrite Hn in *. unfold notify. split; simpl; auto; rewrite count_app, count_notify.
  all: simpl in *; lia.
Qed.

#[local] Hint Resolve inv_log inv_notify inv_transport inv_terminal inv_mark_terminal : rill.
#[local] Hint Resolve inv_send_cancellation inv_notify_closed transition_inv activate_inv : rill.

(** *** Replacing one object *)

(** The net effect of ending or touching a request: the object at [l] becomes [p']; if that
    removes it, its table entry goes; if that releases its stream, the identifier is given
    back. *)
Definition settle (l : nat) (p p' : PendingRequest) c : ClientConnection :=
  let s := op_stream (pr_operation p) in
  set_stream_ids
    (if pr_stream_released p' && negb (pr_stream_released p) then release s (stream_ids_ c)
     else stream_ids_ c)
    (set_pending
       (if pr_removed p' && negb (pr_removed p) then delete s (pending_ c) else pending_ c)
       (set_heap (<[l := p']> (heap_ c)) c)).

(** The events the transition logs: one terminal event exactly when the request leaves the
    table. *)
Definition settle_events (p p' : PendingRequest) (es : list DiagnosticsEvent) : Prop :=
  count is_started es = 0%nat ∧ count is_closed_event es = 0%nat ∧
  count is_ended es = (listeners * if pr_removed p' && negb (pr_removed p) then 1 else 0)%nat.

Record settles (p p' : PendingRequest) : Prop := {
  st_obj : obj_inv p';
  st_stream : op_stream (pr_operation p') = op_stream (pr_operation p);
  st_removed : pr_removed p = true → pr_removed p' = true;
  st_released : pr_stream_released p = true → pr_stream_released p' = true;
}.

Lemma settle_table c l p p' s k :
  conn_inv c → heap_ c !! l = Some p → settles p p' →
  pending_ (settle l p p' c) !! s = Some k → pending_ c !! s = Some k ∧ (k = l → pr_removed p' = false).
Proof.
  intros Hc Hl Hs. simpl. destruct (pr_removed p' && negb (pr_removed p)) eqn:Hr.
  - rewrite lookup_delete_Some. intros [Hne Hk]. split; [done|]. intros ->.
    destruct (ci_table _ Hc _ _ Hk) as (p0 & Hp0 & Hst & _). congruence.
  - intros Hk. split; [done|]. intros ->.
    destruct (ci_table _ Hc _ _ Hk) as (p0 & Hp0 & Hst & Hrem). simplify_eq.
    rewrite Hrem, andb_true_r in Hr. done.
Qed.

Lemma settle_live c l p p' :
  conn_inv c → heap_ c !! l = Some p → settles p p' → pr_removed p' = false →
  pr_removed p = false ∧ pending_ (settle l p p' c) = pending_ c.
Proof.
  intros Hc Hl Hs Hr. assert (pr_removed p = false) as Hp.
  { destruct (pr_removed p) eqn:E; [|done]. by rewrite (st_removed _ _ Hs E) in Hr. }
  split; [done|]. simpl. by rewrite Hr.
Qed.

Lemma settle_in_use c l p p' :
  conn_inv c → heap_ c !! l = Some p → settles p p' →
  let c' := settle l p p' c in
  alloc_inv (stream_ids_ c') ∧ initiator_ (stream_ids_ c') = StreamInitiator.client ∧
  ∀ k q, heap_ c' !! k = Some q → pr_stream_released q = false →
    value (op_stream (pr_operation q)) ∈ in_use_ (stream_ids_ c').
Proof.
  intros Hc Hl Hs. simpl. pose proof (ci_ids _ Hc) as Ha.
  destruct (release_refines (op_stream (pr_operation p)) _ Ha) as (Hra & Hrc & _ & Hru).
  assert (∀ k q, <[l:=p']> (heap_ c) !! k = Some q → pr_stream_released q = false →
    value (op_stream (pr_operation q)) ∈ in_use_ (stream_ids_ c)) as Hin.
  { intros k q Hk Hq. destruct (decide (k = l)) as [->|Hne].
    - rewrite list_lookup_insert_eq in Hk by (by eapply lookup_lt_Some). simplify_eq.
      rewrite (st_stream _ _ Hs). eapply ci_in_use; [done..|].
      destruct (pr_stream_released p) eqn:E; [|done]. by rewrite (st_released _ _ Hs E) in Hq.
    - rewrite list_lookup_insert_ne in Hk by done. by eapply ci_in_use. }
  destruct (pr_stream_released p' && negb (pr_stream_released p)) eqn:Hr;
    [|by split_and!; [|apply Hc|]].
  apply andb_true_iff in Hr as [Hr' Hr]. apply negb_true_iff in Hr.
  split_and!; [done|by rewrite Hrc; apply Hc|]. intros k q Hk Hq. rewrite Hru.
  apply elem_of_difference. split; [by eapply Hin|]. rewrite elem_of_singleton. intros Heq.
  destruct (decide (k = l)) as [->|Hne].
  - rewrite list_lookup_insert_eq in Hk by (by eapply lookup_lt_Some). congruence.
  - rewrite list_lookup_insert_ne in Hk by done. apply Hne.
    eapply (ci_distinct _ Hc); [done..|].
    destruct (op_stream (pr_operation q)), (op_stream (pr_operation p)). simpl in Heq. congruence.
Qed.

Lemma settle_size c l p p' :
  conn_inv c → heap_ c !! l = Some p → settles p p' →
  let c' := settle l p p' c in
  (size (pending_ c') + count pr_removed (heap_ c') = length (heap_ c'))%nat.
Proof.
  intros Hc Hl Hs. pose proof Hc as []. pose proof (count_insert pr_removed (heap_ c) l p p' Hl) as Hcnt.
  simpl. rewrite length_insert. destruct (pr_removed p' && negb (pr_removed p)) eqn:Hr.
  - apply andb_true_iff in Hr as [Hr' Hr]. apply negb_true_iff in Hr.
    rewrite Hr, Hr' in Hcnt. rewrite (map_size_delete_Some _ _ (mk_is_Some _ _ (ci_live0 _ _ Hl Hr))).
    assert (size (pending_ c) ≠ 0)%nat; [|lia].
    intros Hz%map_size_empty_inv. pose proof (ci_live0 _ _ Hl Hr) as Hx. rewrite Hz in Hx. done.
  - assert (count pr_removed (<[l:=p']> (heap_ c)) = count pr_removed (heap_ c)); [|lia].
    pose proof (st_removed _ _ Hs). destruct (pr_removed p), (pr_removed p'); naive_solver lia.
Qed.

Lemma settle_inv c l p p' es :
  conn_inv c → heap_ c !! l = Some p → settles p p' → settle_events p p' es →
  conn_inv (log_events es (settle l p p' c)).
Proof.
  intros Hc Hl Hs (Hes & Hec & Hee). pose proof Hc as [].
  destruct (settle_in_use c l p p' Hc Hl Hs) as (Ha & Hi & Hu).
  assert (l < length (heap_ c))%nat as Hlt by (by eapply lookup_lt_Some).
  pose proof (count_insert pr_removed (heap_ c) l p p' Hl) as Hcnt.
  split; [exact Ha|exact Hi|done|done|done|..].
  - intros k q Hk. simpl in Hk. destruct (decide (k = l)) as [->|Hne].
    + rewrite list_lookup_insert_eq in Hk by done. simplify_eq. apply Hs.
    + rewrite list_lookup_insert_ne in Hk by done. eauto.
  - intros s k Hk. apply (settle_table c l p p' s k Hc Hl Hs) in Hk as [Hk Hkl].
    destruct (ci_table0 _ _ Hk) as (q & Hq & Hst & Hrem).
    simpl. destruct (decide (k = l)) as [->|Hne].
    + exists p'. rewrite list_lookup_insert_eq by done. simplify_eq.
      rewrite (st_stream _ _ Hs). auto.
    + exists q. by rewrite list_lookup_insert_ne.
  - intros k q Hk Hrem. simpl in Hk. destruct (decide (k = l)) as [->|Hne].
    + rewrite list_lookup_insert_eq in Hk by done. simplify_eq.
      destruct (settle_live c l p q Hc Hl Hs Hrem) as [Hp Hpend].
      change (pending_ (settle l p q c) !! op_stream (pr_operation q) = Some l).
      rewrite Hpend, (st_stream _ _ Hs). eauto.
    + rewrite list_lookup_insert_ne in Hk by done. pose proof (ci_live0 _ _ Hk Hrem) as Hkp.
      simpl. destruct (pr_removed p' && negb (pr_removed p)) eqn:Hr; [|done].
      rewrite lookup_delete_ne; [done|]. intros Heq.
      apply andb_true_iff in Hr as [_ Hr]. apply negb_true_iff in Hr.
      pose proof (ci_live0 _ _ Hl Hr) as Hlp. congruence.
  - exact Hu.
  - intros k k' q q' Hk Hk' Hr Hr' Heq. simpl in Hk, Hk'.
    assert (pr_stream_released p' = false → pr_stream_released p = false) as Hmono.
    { intros E. destruct (pr_stream_released p) eqn:E'; [|done].
      by rewrite (st_released _ _ Hs E') in E. }
    pose proof (st_stream _ _ Hs) as Hst.
    rewrite list_lookup_insert in Hk, Hk'. repeat case_decide; simplify_eq;
      naive_solver congruence.
  - by apply settle_size.
  - simpl. rewrite count_app, length_insert, Hes. lia.
  - simpl. rewrite count_app, Hee, ci_ended0.
    pose proof (st_removed _ _ Hs). destruct (pr_removed p), (pr_removed p'); simpl in *; naive_solver lia.
  - simpl. rewrite count_app, Hec. lia.
  - intros Hcl. simpl in *. specialize (ci_closed0 Hcl). rewrite ci_closed0.
    destruct (pr_removed p' && negb (pr_removed p)); [apply delete_empty|done].
  - done.
Qed.

(** *** Ending one request *)

Lemma alter_insert {A} (f : A → A) (h : list A) l x : h !! l = Some x → alter f l h = <[l := f x]> h.
Proof.
  revert l. induction h as [|y h IH]; intros [|l]; simpl; try done.
  - by intros [= ->].
  - intros Hl. f_equal/=. by apply IH.
Qed.

Lemma alter_inserted {A} (f : A → A) (h : list A) l x :
  (l < length h)%nat → alter f l (<[l := x]> h) = <[l := f x]> h.
Proof.
  intros Hl. erewrite alter_insert by (by rewrite list_lookup_insert_eq). apply list_insert_insert_eq.
Qed.

(** The object after [cleanup_pending]. *)
Definition cleaned (release_stream : bool) (p : PendingRequest) : PendingRequest :=
  mkPending (pr_channel p) (if pr_removed p then pr_timer p else tm_cancel (pr_timer p))
    (pr_operation p) true (pr_stream_released p || release_stream).

Definition channel_closed (p : PendingRequest) : PendingRequest :=
  mkPending (ch_close (pr_channel p)) (pr_timer p) (pr_operation p) (pr_removed p)
    (pr_stream_released p).

Definition with_operation (op : Operation DiagnosticsEvent) (p : PendingRequest) : PendingRequest :=
  mkPending (pr_channel p) (pr_timer p) op (pr_removed p) (pr_stream_released p).

(** The object [p1] that an unfinished update of [p] has left is cleaned up. *)
Lemma cleanup_settle c l p p1 rel es :
  conn_inv c → heap_ c !! l = Some p →
  op_stream (pr_operation p1) = op_stream (pr_operation p) → pr_removed p1 = pr_removed p →
  pr_stream_released p1 = pr_stream_released p →
  cleanup_pending l rel (log_events es (set_heap (<[l := p1]> (heap_ c)) c))
    = log_events es (settle l p (cleaned rel p1) c).
Proof.
  intros Hc Hl Hst Hrem Hrel. assert (l < length (heap_ c))%nat as Hlt by (by eapply lookup_lt_Some).
  destruct p1 as [ch tm op rm rl]. simpl in Hst, Hrem, Hrel. subst rm rl.
  unfold cleanup_pending, settle, cleaned, modify. simpl.
  rewrite list_lookup_insert_eq by done. simpl. rewrite Hst.
  destruct (pr_removed p) eqn:Hr; simpl.
  2: rewrite (ci_live _ Hc _ _ Hl Hr); rewrite decide_True by done.
  all: destruct (pr_stream_released p), rel; simpl;
    unfold log_events, set_stream_ids, set_pending, set_heap; simpl;
    by rewrite ?alter_inserted by done.
Qed.

(** Closing the channel of a finished request and cleaning it up. *)
Lemma settles_closed p op rel :
  obj_inv p → op_inv op → is_terminal op = true → op_stream op = op_stream (pr_operation p) →
  op_completion_handler op = op_completion_handler (pr_operation p) →
  settles p (cleaned rel (channel_closed (with_operation op p))).
Proof.
  intros [] Hop Ht Hst Hh. destruct (view_close_spec _ oi_chan0) as (Hw & Hc & Hcap & _ & Hrec).
  split; simpl; auto; [|by intros ->].
  unfold receives in *. split; simpl; auto; unfold receives; rewrite ?ch_view_close; auto; try congruence.
  - intros Hcr. rewrite is_terminal_op_terminal, Hcr in Ht. done.
  - rewrite Hrec. done.
Qed.

(** What an ending call and the cleanup after it do to the connection. *)
Lemma end_request_settles f rel l c p :
  conn_inv c → heap_ c !! l = Some p → ending f →
  ∃ op es,
    f (pr_operation p) = (negb (pr_removed p), op, es) ∧
    call_operation l f c = (negb (pr_removed p),
      log_events es (set_heap (<[l := with_operation op p]> (heap_ c)) c)) ∧
    (pr_removed p = true → op = pr_operation p ∧ es = []) ∧
    op_inv op ∧ is_terminal op = true ∧
    cleanup_pending l rel (close_channel l (call_operation l f c).2)
      = log_events es (settle l p (cleaned rel (channel_closed (with_operation op p))) c) ∧
    settles p (cleaned rel (channel_closed (with_operation op p))) ∧
    settle_events p (cleaned rel (channel_closed (with_operation op p))) es.
Proof.
  intros Hc Hl Hf. pose proof (ci_objects _ Hc _ _ Hl) as Ho.
  assert (l < length (heap_ c))%nat as Hlt by (by eapply lookup_lt_Some).
  pose proof (Hf _ (oi_op _ Ho) (oi_activated _ Ho)) as Hcall.
  rewrite <-(oi_removed _ Ho) in Hcall.
  assert (∃ op es, f (pr_operation p) = (negb (pr_removed p), op, es) ∧
    (pr_removed p = true → op = pr_operation p ∧ es = []) ∧
    op_inv op ∧ is_terminal op = true ∧ op_stream op = op_stream (pr_operation p) ∧
    op_completion_handler op = op_completion_handler (pr_operation p) ∧
    settle_events p (cleaned rel (channel_closed (with_operation op p))) es)
    as (op & es & Heq & Hsame & Hop & Ht & Hst & Hh & Hes).
  { unfold settle_events. simpl. destruct (pr_removed p) eqn:Hr.
    - exists (pr_operation p), []. split_and!; auto; try (unfold count; simpl; lia).
      + apply Ho.
      + by rewrite <-(oi_removed _ Ho).
    - destruct Hcall as (op' & r & Hcall & ? & ? & _ & ? & ? & _). rewrite (oi_handler _ Ho) in Hcall.
      exists op', (request_handler (op_stream (pr_operation p)) r).
      destruct (count_request_handler (op_stream (pr_operation p)) r) as (? & ? & ?).
      split_and!; auto; [done|simpl; lia]. }
  exists op, es. pose proof (settles_closed p op rel Ho Hop Ht Hst Hh) as Hsettles.
  assert (call_operation l f c = (negb (pr_removed p),
    log_events es (set_heap (<[l:=with_operation op p]> (heap_ c)) c))) as Hco.
  { unfold call_operation. by rewrite Hl, Heq. }
  split_and!; auto. rewrite Hco. simpl.
  rewrite <-(cleanup_settle c l p (channel_closed (with_operation op p)) rel es Hc Hl); [|done..].
  f_equal. unfold close_channel, modify, log_events, set_heap. simpl. by rewrite alter_inserted by done.
Qed.

Lemma end_request_inv f rel l c :
  conn_inv c → ending f → conn_inv (cleanup_pending l rel (close_channel l (call_operation l f c).2)).
Proof.
  intros Hc Hf. destruct (heap_ c !! l) as [p|] eqn:Hl.
  - destruct (end_request_settles f rel l c p Hc Hl Hf) as (op & es & _ & _ & _ & _ & _ & -> & Hs & He).
    by apply settle_inv.
  - unfold call_operation, close_channel, modify, cleanup_pending. rewrite Hl. simpl.
    assert (alter (λ p0, mkPending (ch_close (pr_channel p0)) (pr_timer p0) (pr_operation p0)
      (pr_removed p0) (pr_stream_released p0)) l (heap_ c) = heap_ c) as Hsame.
    { apply list_eq. intros k. destruct (decide (k = l)) as [->|Hne].
      - by rewrite list_lookup_alter_eq, Hl.
      - by rewrite list_lookup_alter_ne. }
    rewrite Hsame, Hl. destruct Hc. by split.
Qed.

(** The queue plays no part in ending a request. *)
Lemma call_operation_write_queue l f q c :
  call_operation l f (set_write_queue q c) =
    ((call_operation l f c).1, set_write_queue q (call_operation l f c).2).
Proof.
  unfold call_operation. simpl. destruct (heap_ c !! l) as [p|]; [|done].
  by destruct (f (pr_operation p)) as [[b op] es].
Qed.

(** A call that did not end the request changes nothing. *)
Lemma call_operation_refused l f c :
  conn_inv c → ending f → (call_operation l f c).1 = false → (call_operation l f c).2 = c.
Proof.
  intros Hc Hf. destruct (heap_ c !! l) as [p|] eqn:Hl.
  - destruct (end_request_settles f false l c p Hc Hl Hf) as (op & es & _ & -> & Hsame & _).
    simpl. intros Hr. apply negb_false_iff in Hr. destruct (Hsame Hr) as [-> ->].
    destruct c, p. unfold log_events, set_heap, with_operation. simpl in *.
    by rewrite app_nil_r, list_insert_id.
  - unfold call_operation. by rewrite Hl.
Qed.

(** A cancellation frame sent in between only changes the queue. *)
Lemma cancelled_inv f rel l c :
  conn_inv c → ending f →
  conn_inv (cleanup_pending l rel (close_channel l
    (send_cancellation (stream_of l (call_operation l f c).2) (call_operation l f c).2))).
Proof.
  intros Hc Hf. set (s := stream_of l _).
  pose proof (inv_send_cancellation s c Hc) as Hq.
  pose proof (end_request_inv f rel l (send_cancellation s c) Hq Hf) as Hinv.
  unfold send_cancellation in *. rewrite call_operation_write_queue in Hinv. simpl in Hinv.
  assert (write_queue_ (call_operation l f c).2 = write_queue_ c) as ->; [|done].
  unfold call_operation. destruct (heap_ c !! l) as [p|]; [|done].
  by destruct (f (pr_operation p)) as [[b op] es].
Qed.

Lemma timeout_pending_inv l c : conn_inv c → conn_inv (timeout_pending l c).
Proof.
  intros Hc. unfold timeout_pending.
  pose proof (cancelled_inv (timeout "operation deadline exceeded") false l c Hc (timeout_ending _)).
  pose proof (call_operation_refused l (timeout "operation deadline exceeded") c Hc (timeout_ending _)).
  destruct (call_operation l _ c) as [[] c1]; simpl in *; [done|]. by replace c1 with c by (symmetry; auto).
Qed.

Lemma cancel_pending_inv l m c : conn_inv c → conn_inv (cancel_pending l m c).2.
Proof.
  intros Hc. unfold cancel_pending.
  pose proof (cancelled_inv (cancel m) false l c Hc (cancel_ending _)).
  pose proof (call_operation_refused l (cancel m) c Hc (cancel_ending _)).
  destruct (call_operation l _ c) as [[] c1]; simpl in *; [done|]. by replace c1 with c by (symmetry; auto).
Qed.

(** Touching an object without ending its request. *)
Lemma modify_inv l f c :
  conn_inv c →
  (∀ p, heap_ c !! l = Some p → settles p (f p) ∧ pr_removed (f p) = pr_removed p ∧
     pr_stream_released (f p) = pr_stream_released p) →
  conn_inv (modify l f c).
Proof.
  intros Hc Hf. destruct (heap_ c !! l) as [p|] eqn:Hl.
  - destruct (Hf p eq_refl) as (Hs & Hr & Hrel).
    assert (modify l f c = log_events [] (settle l p (f p) c)) as ->.
    { unfold modify, settle. rewrite Hr, Hrel, !andb_negb_r, (alter_insert _ _ _ p) by done.
      unfold log_events, set_heap, set_pending, set_stream_ids. simpl. by rewrite app_nil_r. }
    apply settle_inv; auto. unfold settle_events. rewrite Hr, andb_negb_r. unfold count. simpl. lia.
  - unfold modify. assert (alter f l (heap_ c) = heap_ c) as ->; [|by destruct Hc].
    apply list_eq. intros k. destruct (decide (k = l)) as [->|Hne].
    + by rewrite list_lookup_alter_eq, Hl.
    + by rewrite list_lookup_alter_ne.
Qed.

Lemma cleanup_removed_inv l p rel c :
  conn_inv c → heap_ c !! l = Some p → pr_removed p = true → conn_inv (cleanup_pending l rel c).
Proof.
  intros Hc Hl Hr. pose proof (ci_objects _ Hc _ _ Hl) as Ho.
  pose proof (cleanup_settle c l p p rel [] Hc Hl eq_refl eq_refl eq_refl) as Heq.
  assert (log_events [] (set_heap (<[l:=p]> (heap_ c)) c) = c) as Hsame.
  { unfold log_events, set_heap. simpl. rewrite app_nil_r, list_insert_id by done. by destruct c. }
  rewrite Hsame in Heq. rewrite Heq. apply settle_inv; auto.
  - destruct Ho. split; simpl; auto; [|by intros ->]. split; simpl; auto; try congruence.
  - unfold settle_events. simpl. rewrite Hr. unfold count. simpl. lia.
Qed.

Lemma discard_pending_inv l c : conn_inv c → conn_inv (discard_pending l c).
Proof.
  intros Hc. unfold discard_pending. destruct (heap_ c !! l) as [p|] eqn:Hl; simpl.
  - destruct (is_terminal (pr_operation p)) eqn:Ht; simpl.
    + eapply cleanup_removed_inv; eauto. by rewrite (oi_removed _ (ci_objects _ Hc _ _ Hl)).
    + apply cancelled_inv; [done|apply cancel_ending].
  - unfold cleanup_pending. by rewrite Hl.
Qed.

(** *** Failing every pending request *)

Definition failed_with (status : StatusCode) (message : string) (p p' : PendingRequest) : Prop :=
  op_stream (pr_operation p') = op_stream (pr_operation p) ∧
  op_result (pr_operation p') = Some (mkResult status message) ∧
  pr_removed p' = true ∧ cv_closed (ch_view (pr_channel p')) = true.

Record failed_all (status : StatusCode) (message : string) c c' : Prop := {
  fa_inv : conn_inv c';
  fa_empty : pending_ c' = ∅;
  fa_transport : transport_ c' = transport_ c;
  fa_queue : write_queue_ c' = write_queue_ c;
  fa_ids : stream_ids_ c' = stream_ids_ c;
  fa_decoder : decoder_ c' = decoder_ c;
  fa_lifecycle : lifecycle_ c' = lifecycle_ c;
  fa_notified : closed_notified_ c' = closed_notified_ c;
  fa_length : length (heap_ c') = length (heap_ c);
  fa_removed l p : heap_ c !! l = Some p → pr_removed p = true → heap_ c' !! l = Some p;
  fa_live l p : heap_ c !! l = Some p → pr_removed p = false →
    ∃ p', heap_ c' !! l = Some p' ∧ failed_with status message p p';
}.

Lemma fail_pending_loop_spec n status message c :
  status ≠ StatusCode.ok → conn_inv c → (size (pending_ c) ≤ n)%nat →
  failed_all status message c (fail_pending_loop n status message c).
Proof.
  intros Hs. revert c. induction n as [|n IH]; intros c Hc Hn.
  - assert (pending_ c = ∅) as Hemp by (apply map_size_empty_inv; lia). simpl.
    split; auto. intros l p Hl Hr. pose proof (ci_live _ Hc _ _ Hl Hr) as Hx.
    by rewrite Hemp in Hx.
  - simpl. destruct (map_begin (pending_ c)) as [[s l]|] eqn:Hb.
    2: { apply map_begin_empty in Hb. split; auto. intros l p Hl Hr.
      pose proof (ci_live _ Hc _ _ Hl Hr) as Hx. by rewrite Hb in Hx. }
    apply map_begin_entry in Hb. destruct (ci_table _ Hc _ _ Hb) as (p & Hl & Hst & Hr).
    destruct (end_request_settles _ false l c p Hc Hl (fail_op_ending status message Hs))
      as (op & es & Hf & _ & _ & Hop & Ht & -> & Hset & Hes).
    set (p1 := cleaned false (channel_closed (with_operation op p))) in *.
    pose proof (settle_inv c l p p1 es Hc Hl Hset Hes) as Hc1.
    assert (l < length (heap_ c))%nat as Hlt by (by eapply lookup_lt_Some).
    assert (failed_with status message p p1) as Hp1.
    { unfold failed_with. split_and!; [apply Hset| |done|simpl; by rewrite ch_view_close].
      rewrite Hr in Hf. apply (fail_op_result _ _ _ _ _ Hf). }
    assert (size (pending_ (settle l p p1 c)) ≤ n)%nat as Hsz.
    { simpl. rewrite Hr. simpl. rewrite Hst, map_size_delete_Some by eauto. lia. }
    destruct (IH _ Hc1 Hsz). split; auto; simpl in *.
    + rewrite fa_ids0. by rewrite orb_false_r, andb_negb_r.
    + by rewrite fa_length0, length_insert.
    + intros k q Hk Hq. apply fa_removed0; [|done]. rewrite list_lookup_insert_ne; [done|].
      intros ->. congruence.
    + intros k q Hk Hq. destruct (decide (k = l)) as [->|Hne].
      * simplify_eq. exists p1. split; [|done]. apply fa_removed0; [|apply Hp1].
        by rewrite list_lookup_insert_eq.
      * apply fa_live0; [|done]. by rewrite list_lookup_insert_ne.
Qed.

(** The observer only hears more. *)
Lemma fail_pending_log n status message c :
  ∃ es, log_ (fail_pending_loop n status message c) = log_ c ++ es.
Proof.
  revert c. induction n as [|n IH]; intros c; simpl; [exists []; by rewrite app_nil_r|].
  destruct (map_begin (pending_ c)) as [[s l]|]; [|exists []; by rewrite app_nil_r].
  set (c1 := cleanup_pending l false _). destruct (IH c1) as [es ->].
  assert (∃ es1, log_ c1 = log_ c ++ es1) as [es1 ->]; [|exists (es1 ++ es); by rewrite app_assoc].
  unfold c1, cleanup_pending, close_channel, modify, call_operation.
  destruct (heap_ c !! l) as [p|] eqn:Hl; simpl.
  - destruct (fail_op status message (pr_operation p)) as [[b op] ev]. simpl.
    repeat case_match; simpl; eauto.
  - exists []. rewrite app_nil_r. by repeat case_match.
Qed.

Lemma fail_pending_spec status message c :
  status ≠ StatusCode.ok → conn_inv c →
  failed_all status message c (fail_pending status message c).
Proof. intros. by apply fail_pending_loop_spec. Qed.

Lemma fail_connection_inv status message c :
  status ≠ StatusCode.ok → conn_inv c →
  conn_inv (fail_connection status message c) ∧ pending_ (fail_connection status message c) = ∅ ∧
  t_is_open (transport_ (fail_connection status message c)) = false ∧
  lifecycle_ (fail_connection status message c) = lifecycle_ c.
Proof.
  intros Hs Hc. unfold fail_connection. set (c1 := if decide _ then _ else _).
  assert (conn_inv c1 ∧ lifecycle_ c1 = lifecycle_ c) as [Hc1 Hl1].
  { unfold c1. case_decide; [|done]. split; [by apply inv_notify|done]. }
  destruct (fail_pending_spec status message c1 Hs Hc1). split_and!; simpl; auto.
  - by apply inv_transport.
  - apply t_close_closes.
  - congruence.
Qed.

(** *** Delivering a response *)

Lemma decode_error_status_not_ok f st : decode_error_status f = Some st → st ≠ StatusCode.ok.
Proof.
  unfold decode_error_status. destruct (negb _); [done|]. cbv zeta.
  set (v := Z.lor _ _). clearbody v. intros Hst ->. destruct v as [|v|]; try done.
  repeat (destruct v as [v|v|]; try done).
Qed.

(** The channel of a live request takes the response. *)
Lemma live_try_send p f :
  obj_inv p → pr_removed p = false →
  let ch := (ch_try_send f (pr_channel p)).2 in
  view_wf (ch_view ch) ∧ cv_capacity (ch_view ch) = 1 ∧ view_pending (ch_view ch) = [f] ∧
  cv_closed (ch_view ch) = false ∧ receives ch = receives (pr_channel p) ∧
  cv_receives (ch_view ch) = cv_receives (ch_view (pr_channel p)) ∧
  ((cv_receives (ch_view ch) ≤ 1)%nat → cv_waiting (ch_view ch) = 0%nat ∧
     (cv_receives (ch_view ch) = 0%nat → cv_buffer (ch_view ch) ≠ [])).
Proof.
  intros [] Hr. destruct (oi_live0 Hr) as [Hc Hp].
  destruct (ch_try_send f (pr_channel p)) as [b ch] eqn:Hs. simpl. apply try_send_view in Hs.
  unfold view_pending in Hp. apply app_nil in Hp as [Hd Hb].
  destruct b.
  - destruct (view_try_send_true _ _ _ oi_chan0 Hs) as (? & _ & ? & ? & Hpend & ?).
    pose proof (view_try_send_receives _ _ _ _ Hs) as Hrec.
    unfold view_pending in Hpend. rewrite Hd, Hb in Hpend.
    split_and!; auto; [congruence|]. rewrite Hrec. intros Hle. unfold receives in oi_started0.
    unfold view_try_send in Hs. rewrite Hc in Hs.
    destruct (cv_waiting (ch_view (pr_channel p))) as [|w]; [case_decide; [|done]|];
      injection Hs as Hs; rewrite <-Hs; simpl.
    + rewrite Hb. done.
    + split; lia.
  - destruct (view_try_send_false _ _ _ Hs) as [_ Hfull]. destruct (Hfull Hc) as [_ Hcap].
    rewrite Hb, oi_capacity0 in Hcap. simpl in Hcap. lia.
Qed.

(** The object of a request whose response has arrived. *)
Definition responded (frame : Frame) (op : Operation DiagnosticsEvent) (p : PendingRequest) : PendingRequest :=
  mkPending (ch_try_send frame (pr_channel p)).2 (tm_cancel (pr_timer p)) op (pr_removed p)
    (pr_stream_released p).

Lemma respond_settles frame l c p :
  conn_inv c → heap_ c !! l = Some p → pr_removed p = false →
  ∃ op es,
    call_operation l (complete "response received") c =
      (true, log_events es (set_heap (<[l := with_operation op p]> (heap_ c)) c)) ∧
    op_lifecycle op = OperationState.completed ∧
    op_result op = Some (result_success "response received") ∧
    es = request_handler (op_stream (pr_operation p)) (result_success "response received") ∧
    cleanup_pending l true
      (modify l (λ p, mkPending (ch_try_send frame (pr_channel p)).2 (pr_timer p) (pr_operation p)
                        (pr_removed p) (pr_stream_released p))
         (cancel_timer l (call_operation l (complete "response received") c).2))
      = log_events es (settle l p (cleaned true (responded frame op p)) c) ∧
    settles p (cleaned true (responded frame op p)) ∧
    settle_events p (cleaned true (responded frame op p)) es.
Proof.
  intros Hc Hl Hr. pose proof (ci_objects _ Hc _ _ Hl) as Ho.
  assert (l < length (heap_ c))%nat as Hlt by (by eapply lookup_lt_Some).
  destruct (live_try_send p frame Ho Hr) as (Hw & Hcap & _ & _ & Hrc & Hrs & Hans).
  destruct (complete_live "response received" (pr_operation p)) as (op & Hco & Hop & Hst & Hstr & Hh & Hres);
    [apply Ho|apply Ho|by rewrite <-(oi_removed _ Ho)|].
  rewrite (oi_handler _ Ho) in Hco, Hh.
  exists op, (request_handler (op_stream (pr_operation p)) (result_success "response received")).
  assert (call_operation l (complete "response received") c =
    (true, log_events (request_handler (op_stream (pr_operation p)) (result_success "response received"))
       (set_heap (<[l := with_operation op p]> (heap_ c)) c))) as Hcall.
  { unfold call_operation. by rewrite Hl, Hco. }
  split_and!; auto.
  - rewrite Hcall. simpl.
    rewrite <-(cleanup_settle c l p (responded frame op p) true _ Hc Hl); [|done..].
    f_equal. unfold cancel_timer, modify, log_events, set_heap. simpl.
    by rewrite !alter_inserted by done.
  - split; simpl; auto; [|by intros ->].
    split; simpl; auto; try congruence.
    + by rewrite is_terminal_op_terminal, Hst.
    + rewrite Hrc, Hrs. apply Ho.
    + intros _ Hle. destruct (Hans Hle). auto.
  - unfold settle_events. simpl. rewrite Hr.
    destruct (count_request_handler (op_stream (pr_operation p)) (result_success "response received"))
      as (? & ? & ?). simpl. lia.
Qed.

Lemma dispatch_inv frame c : conn_inv c → conn_inv (dispatch frame c).
Proof.
  intros Hc. unfold dispatch. destruct (negb _); [by apply fail_connection_inv|].
  destruct (pending_ c !! stream (header frame)) as [l|] eqn:Hl; [|by apply fail_connection_inv].
  case_decide; [by apply fail_connection_inv|].
  destruct (has_flag _ FrameFlags.cancel); [by apply inv_mark_terminal, cancel_pending_inv|].
  destruct (has_flag _ FrameFlags.error).
  - destruct (decode_error_status frame) as [st|] eqn:Hst; [|by apply fail_connection_inv].
    apply inv_mark_terminal, end_request_inv; [done|].
    eapply fail_op_ending, decode_error_status_not_ok, Hst.
  - destruct (ci_table _ Hc _ _ Hl) as (p & Hp & _ & Hr).
    destruct (respond_settles frame l c p Hc Hp Hr) as (op & es & Hcall & _ & _ & _ & Hcl & Hs & He).
    rewrite Hcall in *. simpl in Hcl |- *. rewrite Hcl. apply inv_mark_terminal. by apply settle_inv.
Qed.

Lemma dispatch_frames_inv frames c : conn_inv c → conn_inv (dispatch_frames frames c).
Proof.
  revert c. induction frames as [|f fs IH]; intros c Hc; simpl; [done|].
  assert (conn_inv (dispatch f (notify (mkEvent DiagnosticsEventType.message_transferred
    (stream (header f)) StatusCode.ok 0 true EmptyString) c))) by (by apply dispatch_inv, inv_notify).
  destruct (negb _); auto.
Qed.

Lemma close_write_queue_inv c : conn_inv c → conn_inv (set_write_queue (close (write_queue_ c)) c).
Proof. intros Hc. apply inv_write_queue; [apply close_inv, Hc|done|done]. Qed.

Lemma read_loop_exit_inv c :
  conn_inv c → conn_inv (read_loop_exit c).2 ∧ pending_ (read_loop_exit c).2 = ∅.
Proof.
  intros Hc. unfold read_loop_exit. cbn [snd].
  destruct (fail_pending_spec StatusCode.connection_closed
    "connection closed while awaiting a response" c) as [Hi He _ _ _ _ _ _ _ _ _]; [done..|].
  set (c1 := fail_pending _ _ _) in *.
  assert (conn_inv (transition ConnectionState.closed (set_write_queue (close (write_queue_ c1)) c1))) as Hc2.
  { apply transition_inv; [auto|done|by apply close_write_queue_inv]. }
  split; [by apply inv_notify_closed|]. unfold notify_closed. by case_match.
Qed.

Lemma read_loop_head_inv c : conn_inv c → conn_inv (read_loop_head c).2.
Proof.
  intros Hc. unfold read_loop_head. destruct (read_loop_exit_inv c Hc).
  by destruct (t_is_open _); [destruct (t_read_begin _)|].
Qed.

(** The read loop never gets stuck: the decoder always answers. *)
Lemma read_loop_resume_inv io c :
  conn_inv c → ∃ pc c', read_loop_resume io c = Some (pc, c') ∧ conn_inv c'.
Proof.
  intros Hc. unfold read_loop_resume. destruct (t_read_end io (transport_ c)) as [r t].
  pose proof (inv_transport t c Hc) as Hc1. destruct (read_loop_exit_inv _ Hc1) as [Hx _].
  destruct r as [[|b bytes]|what].
  1,3: destruct (read_loop_exit (set_transport t c)); eauto.
  cbv zeta. set (c2 := notify _ _).
  assert (conn_inv c2) as Hc2 by (by apply inv_notify).
  destruct (push_inv (decoder_ c2) (b :: bytes)) as (d & fs & -> & Hd & _); [apply Hc2|]. simpl.
  pose proof (dispatch_frames_inv fs (set_decoder d c2) (inv_decoder _ _ Hd Hc2)) as Hc3.
  destruct (decoder_error _) as [e|].
  - destruct (fail_connection_inv (status_for_frame_validation e) (frame_validation_message e) _
      ltac:(unfold status_for_frame_validation; case_decide; done) Hc3) as [Hf _].
    destruct (read_loop_exit_inv _ Hf) as [He _].
    destruct (read_loop_exit (fail_connection _ _ _)). eauto.
  - pose proof (read_loop_head_inv _ Hc3) as Hh. destruct (read_loop_head _). eauto.
Qed.

(** *** Starting a request *)

Lemma new_pending_inv s : obj_inv (new_pending s (request_handler s)).
Proof.
  split; simpl; unfold receives; rewrite ?ch_view_make; try done.
Qed.

(** The allocator's fresh identifier is not in the table. *)
Lemma fresh_not_pending c s :
  conn_inv c → value s ∉ in_use_ (stream_ids_ c) →
  pending_ c !! s = None ∧
  ∀ l p, heap_ c !! l = Some p → pr_stream_released p = false → op_stream (pr_operation p) ≠ s.
Proof.
  intros Hc Hf. assert (∀ l p, heap_ c !! l = Some p → pr_stream_released p = false →
    op_stream (pr_operation p) ≠ s) as Hne.
  { intros l p Hl Hr <-. by apply Hf, (ci_in_use _ Hc l p). }
  split; [|done]. destruct (pending_ c !! s) as [l|] eqn:Hl; [|done].
  destruct (ci_table _ Hc _ _ Hl) as (p & Hp & Hs & Hr). exfalso.
  apply (Hne l p Hp); [|done]. pose proof (oi_released _ (ci_objects _ Hc _ _ Hp)) as Hrel.
  destruct (pr_stream_released p); [|done]. rewrite Hrel in Hr; done.
Qed.

(** The connection once the new request is registered. *)
Definition registered (s : StreamId) (ids : StreamIdAllocator) c : ClientConnection :=
  notify (event_on_stream DiagnosticsEventType.request_started s)
    (set_pending (<[s := length (heap_ c)]> (pending_ c))
      (set_heap (heap_ c ++ [new_pending s (request_handler s)]) (set_stream_ids ids c))).

Lemma registered_inv s ids c :
  conn_inv c → lifecycle_ c ≠ ConnectionState.closed → alloc_inv ids →
  initiator_ ids = StreamInitiator.client → value s ∉ in_use_ (stream_ids_ c) →
  in_use_ ids = {[value s]} ∪ in_use_ (stream_ids_ c) →
  conn_inv (registered s ids c).
Proof.
  intros Hc Hcl Ha Hi Hf Hu. destruct (fresh_not_pending c s Hc Hf) as [Hnone Hne].
  destruct Hc. set (p0 := new_pending s (request_handler s)).
  assert (∀ l p, (heap_ c ++ [p0]) !! l = Some p ↔
    heap_ c !! l = Some p ∨ l = length (heap_ c) ∧ p = p0) as Hlk.
  { intros l p. rewrite lookup_app_Some, list_lookup_singleton_Some.
    split; [intros [?|[? [? ?]]]; [auto|right; split; [lia|done]]|].
    intros [?|[-> ->]]; [auto|right; split; [lia|split; [lia|done]]]. }
  split; simpl; auto.
  - intros l p [Hl|[-> ->]]%Hlk; [eauto|apply new_pending_inv].
  - intros k l. rewrite lookup_insert_Some. intros [[<- <-]|[Hk Hl]].
    + exists p0. split; [apply Hlk; auto|done].
    + destruct (ci_table0 _ _ Hl) as (p & ? & ? & ?). exists p. split; [apply Hlk; auto|done].
  - intros l p [Hl|[-> ->]]%Hlk Hr; [|by rewrite lookup_insert_eq].
    rewrite lookup_insert_ne; [eauto|]. intros Heq.
    pose proof (ci_live0 _ _ Hl Hr) as Hx. rewrite <-Heq in Hx. congruence.
  - intros l p [Hl|[-> ->]]%Hlk Hr; rewrite Hu; [|set_solver]. apply elem_of_union_r. eauto.
  - intros l l' p p' [Hl|[-> ->]]%Hlk [Hl'|[-> ->]]%Hlk Hr Hr' Heq; eauto.
    + exfalso. by apply (Hne l p Hl Hr).
    + exfalso. by apply (Hne l' p' Hl' Hr').
  - rewrite map_size_insert_None, count_app, length_app by done. unfold count at 2. simpl. lia.
  - rewrite count_app, count_notify, length_app. simpl. lia.
  - rewrite !count_app, count_notify. unfold count at 3. simpl. lia.
  - rewrite count_app, count_notify. simpl. lia.
  - done.
Qed.

Lemma start_request_enqueue_inv l f r c : conn_inv c → conn_inv (start_request_enqueue l f r c).2.
Proof.
  intros Hc. destruct r as [sent|]; [|done]. unfold start_request_enqueue, start_request_sent.
  destruct (write_ok sent) eqn:Hok; simpl; [done|]. apply end_request_inv; [done|].
  apply fail_op_ending. unfold write_ok in Hok. by apply bool_decide_eq_false in Hok.
Qed.

Lemma enqueue_inv f c r q :
  conn_inv c → enqueue f (write_queue_ c) = (r, q) → conn_inv (set_write_queue q c).
Proof.
  intros Hc He. destruct (enqueue_constant _ _ _ _ He).
  apply enqueue_spec in He as [(? & _) _]; [|apply Hc]. by apply inv_write_queue.
Qed.

(** What [start_request] does before the frame is offered to the queue. *)
Inductive start_outcome (t : TypeIndex) (v : msg t) c : StartStep * ClientConnection → Prop :=
  | start_refused :
      connection_rank (lifecycle_ c) ≥ 3 →
      start_outcome t v c
        (StartReturned (start_failure StatusCode.connection_closed "connection is shutting down"), c)
  | start_exhausted ids :
      allocate (stream_ids_ c) = (allocation_exhausted, ids) →
      start_outcome t v c
        (StartReturned (start_failure StatusCode.resource_limit_exceeded "stream identifiers exhausted"),
         set_stream_ids ids c)
  | start_not_encoded s ids status message :
      allocate (stream_ids_ c) = (allocation_success s, ids) →
      encode_message_default registry_ t v s FrameType.request = frame_encode_failure status message →
      status ≠ StatusCode.ok →
      start_outcome t v c (StartReturned (start_failure status message), set_stream_ids ids c)
  | start_offered s ids f r q :
      lifecycle_ c ≠ ConnectionState.closed →
      allocate (stream_ids_ c) = (allocation_success s, ids) →
      encode_message_default registry_ t v s FrameType.request = frame_encode_success f →
      enqueue f (write_queue_ c) = (r, q) →
      start_outcome t v c
        (start_request_enqueue (length (heap_ c)) f r (set_write_queue q (registered s ids c))).

Lemma start_request_spec t v c :
  conn_inv c → start_outcome t v c (start_request t v c).
Proof.
  intros Hc. unfold start_request, state.
  destruct (_ || _ || _) eqn:Hg.
  { apply start_refused. destruct (lifecycle_ c); try done; simpl; lia. }
  destruct (allocate (stream_ids_ c)) as [a ids] eqn:Ha.
  destruct (allocate_refines _ (ci_ids _ Hc)) as (_ & _ & _ & Hspec). rewrite Ha in Hspec.
  simpl in Hspec. destruct Hspec as [(x & -> & _ & Hx & _)|(-> & _)]; simpl.
  2: by apply start_exhausted.
  destruct (encode_message_factory registry_ t v (mkId x) FrameType.request)
    as [[f Hf]|(st & m & Hst & Hf)]; rewrite Hf; simpl.
  - destruct (fresh_not_pending c (mkId x) Hc Hx) as [Hnone _]. rewrite Hnone.
    destruct (enqueue f (write_queue_ c)) as [r q] eqn:He.
    apply (start_offered t v c (mkId x) ids f r q); auto.
    by destruct (lifecycle_ c).
  - unfold frame_encode_ok. simpl. rewrite bool_decide_eq_false_2 by done.
    by eapply start_not_encoded.
Qed.

Lemma start_request_inv t v c : conn_inv c → conn_inv (start_request t v c).2.
Proof.
  intros Hc. destruct (allocate_refines _ (ci_ids _ Hc)) as (Ha & Hi & _ & Hspec).
  assert (∀ a ids, allocate (stream_ids_ c) = (a, ids) → conn_inv (set_stream_ids ids c)) as Hids.
  { intros a ids Heq. rewrite Heq in *. simpl in *.
    assert (in_use_ (stream_ids_ c) ⊆ in_use_ ids) as Hsub.
    { destruct Hspec as [(x & _ & _ & _ & _ & ->)|(_ & _ & ->)]; set_solver. }
    destruct Hc. split; simpl; eauto. congruence. }
  destruct (start_request_spec t v c Hc) as [|ids Heq|s ids ? ? Heq|s ids f r q Hcl Heq _ He]; simpl; eauto.
  apply start_request_enqueue_inv. rewrite Heq in *. simpl in *.
  destruct Hspec as [(x & [= ->] & _ & Hx & _ & Hu)|([=] & _)].
  eapply (enqueue_inv f (registered (mkId x) ids c)); [|exact He].
  apply registered_inv; auto. rewrite Hi. apply Hc.
Qed.

Lemma start_request_resume_inv l f what c r c' :
  conn_inv c → frame_fits (limits_ (write_queue_ c)) f →
  start_request_resume l f what c = Some (r, c') → conn_inv c'.
Proof.
  intros Hc [Hmf Hb]. unfold start_request_resume.
  destruct (enqueue_resume f what (write_queue_ c)) as [[r1 q]|] eqn:He; [|done].
  destruct (enqueue_resume_constant _ _ _ _ _ He) as [Hobs _].
  apply enqueue_resume_spec in He as (Hq & _); [|apply Hc|done..].
  intros [= Heq]. pose proof (start_request_enqueue_inv l f r1 _ (inv_write_queue q c Hq Hobs Hc)) as Hx.
  by rewrite Heq in Hx.
Qed.

(** *** Handles, timers and shutdown *)

Lemma set_deadline_settles d p tm :
  obj_inv p →
  settles p (mkPending (pr_channel p) tm (set_deadline d (pr_operation p)).2 (pr_removed p)
    (pr_stream_released p)).
Proof.
  intros []. unfold set_deadline. destruct (is_terminal (pr_operation p)) eqn:Ht; simpl.
  - split; simpl; auto. split; simpl; auto; congruence.
  - split; simpl; auto. split; simpl; auto; try congruence.
    rewrite oi_removed0, <-Ht. reflexivity.
Qed.

Lemma start_request_deadline_inv d r c : conn_inv c → conn_inv (start_request_deadline d r c).2.
Proof.
  intros Hc. unfold start_request_deadline. destruct (negb _); [done|].
  destruct (sr_operation r) as [l|]; [|done]. apply modify_inv; [done|]. intros p Hp. simpl.
  split_and!; auto. apply set_deadline_settles, (ci_objects _ Hc _ _ Hp).
Qed.

Lemma timer_handler_inv l e c c' : conn_inv c → timer_handler l e c = Some c' → conn_inv c'.
Proof.
  intros Hc. unfold timer_handler. destruct (heap_ c !! l) as [p0|]; [|done]. simpl.
  destruct (tm_complete e (pr_timer p0)) as [tm|]; [|done]. simpl. set (c1 := modify l _ c).
  assert (conn_inv c1) as Hc1.
  { apply modify_inv; [done|]. intros p Hp. split_and!; auto.
    destruct (ci_objects _ Hc _ _ Hp). split; simpl; auto. split; simpl; auto. }
  intros [= <-]. destruct e; [done|]. by apply timeout_pending_inv.
Qed.

Lemma async_wait_inv t h c : conn_inv c → conn_inv (async_wait t h c).2.
Proof.
  intros Hc. unfold async_wait. destruct (handle_target h) as [l|]; [|done].
  apply modify_inv; [done|]. intros p Hp. split_and!; auto.
  destruct (ci_objects _ Hc _ _ Hp). destruct (async_receive_view (pr_channel p) oi_chan0)
    as (Hw & Hcl & Hcap & Hpend & Hrec).
  split; simpl; auto. split; simpl; auto; rewrite ?Hcl, ?Hcap, ?Hpend, ?Hrec; auto;
    rewrite ch_view_async_receive, view_async_receive_receives; [lia|].
  intros Hr Hle. destruct (oi_answered0 Hr) as [Hwait Hbuf]; [lia|]. split; [|lia].
  unfold view_async_receive. destruct (cv_buffer _) eqn:Hb; [|done].
  destruct (cv_closed _) eqn:Hclosed; [done|]. by destruct (Hbuf eq_refl ltac:(lia)).
Qed.

(** A receive completes only after the operation has ended. *)
Lemma wait_resume_removed c l p r ch :
  conn_inv c → heap_ c !! l = Some p → ch_resume (pr_channel p) = Some (r, ch) → pr_removed p = true.
Proof.
  intros Hc Hl Hr. destruct (ci_objects _ Hc _ _ Hl).
  apply resume_view in Hr as (_ & _ & _ & _ & Hp & Hn & _); [|done].
  destruct (pr_removed p); [done|]. destruct (oi_live0 eq_refl) as [Hcl Hpend].
  rewrite Hpend in Hp. destruct r; [done|]. destruct Hn; [done|]. congruence.
Qed.

Lemma async_wait_resume_inv t l c r c' :
  conn_inv c → async_wait_resume t l c = Some (r, c') → conn_inv c'.
Proof.
  intros Hc. unfold async_wait_resume. destruct (heap_ c !! l) as [p|] eqn:Hl; [|done]. simpl.
  destruct (ch_resume (pr_channel p)) as [[rcv ch]|] eqn:Hr; [|done]. simpl. intros [= _ <-].
  pose proof (wait_resume_removed c l p rcv ch Hc Hl Hr) as Hrem.
  pose proof (ci_objects _ Hc _ _ Hl) as Ho.
  apply resume_view in Hr as (Hv & Hw & Hcl & Hcap & Hp & Hn & Hrec); [|apply Ho].
  set (p1 := mkPending ch (pr_timer p) (pr_operation p) (pr_removed p) (pr_stream_released p)).
  assert (settles p p1) as Hs.
  { destruct Ho. destruct (view_resume_waiting _ _ _ Hv) as (Hvw & Hvb & _).
    pose proof (view_resume_receives _ _ _ Hv) as Hvr.
    split; simpl; auto. split; simpl; auto; try congruence; rewrite ?Hcl, ?Hvr, ?Hvw, ?Hvb; auto.
    lia. }
  assert (conn_inv (modify l (λ p0, mkPending ch (pr_timer p0) (pr_operation p0) (pr_removed p0)
    (pr_stream_released p0)) c)) as Hc1.
  { apply modify_inv; [done|]. intros q Hq. simplify_eq. done. }
  eapply (cleanup_removed_inv l p1); [done| |done]. simpl.
  rewrite (alter_insert _ _ _ p) by done. rewrite list_lookup_insert_eq; [done|].
  by eapply lookup_lt_Some.
Qed.

Lemma handle_destroy_inv h c : conn_inv c → conn_inv (handle_destroy h c).
Proof. intros. unfold handle_destroy. case_match; [by apply discard_pending_inv|done]. Qed.

Lemma begin_shutdown_inv c : conn_inv c → conn_inv (begin_shutdown c).
Proof.
  intros Hc. unfold begin_shutdown. set (c1 := if decide (lifecycle_ c = _) then _ else _).
  assert (conn_inv c1) as Hc1.
  { unfold c1. destruct (decide _); [by apply activate_inv|done]. }
  clearbody c1. destruct (decide _); [apply transition_inv; auto; done|done].
Qed.

Lemma begin_shutdown_state c :
  settled_state (lifecycle_ c) →
  lifecycle_ (begin_shutdown c) =
    (if decide (lifecycle_ c = ConnectionState.closed) then ConnectionState.closed
     else ConnectionState.draining).
Proof.
  intros (? & ? & ?). unfold begin_shutdown, transition, set_lifecycle.
  destruct c as [? ? ? ? ? ? st ? ? ?]; simpl in *. by destruct st.
Qed.

Lemma shutdown_finish_spec c :
  conn_inv c →
  conn_inv (shutdown_finish c) ∧ pending_ (shutdown_finish c) = ∅ ∧
  t_is_open (transport_ (shutdown_finish c)) = false ∧
  lifecycle_ (shutdown_finish c) =
    (connection_transition (lifecycle_ c) ConnectionState.closed).2 ∧
  closed_notified_ (shutdown_finish c) = true.
Proof.
  intros Hc. unfold shutdown_finish. set (c1 := if decide _ then _ else _).
  assert (conn_inv c1 ∧ pending_ c1 = ∅ ∧ lifecycle_ c1 = lifecycle_ c) as (Hc1 & He & Hl).
  { unfold c1. case_decide; [done|].
    by destruct (fail_pending_spec StatusCode.connection_closed "connection drain period expired" c). }
  set (c2 := transition _ _).
  assert (conn_inv c2) as Hc2 by (apply transition_inv; [auto|done|by apply inv_transport]).
  split_and!; [by apply inv_notify_closed|..]; unfold notify_closed;
    destruct (closed_notified_ c2) eqn:Hn; try done; simpl; try (by rewrite Hl); apply t_close_closes.
Qed.

Lemma shutdown_poll_inv now deadline c : conn_inv c → conn_inv (shutdown_poll now deadline c).2.
Proof.
  intros Hc. unfold shutdown_poll. destruct (_ && _); [done|]. by apply shutdown_finish_spec.
Qed.

Lemma run_inv c : conn_inv c → conn_inv (run c).1.1.
Proof.
  intros Hc. unfold run. set (c1 := if decide _ then _ else _).
  assert (conn_inv c1) as Hc1.
  { unfold c1. destruct (decide _); auto with rill. }
  destruct (run_receive (write_queue_ c1)) as [pc q] eqn:Hr.
  assert (write_observer_ q = write_observer_ (write_queue_ c1)) as Hobs by (by injection Hr as _ <-).
  apply run_receive_spec in Hr as (_ & Hq & _); [|apply Hc1].
  pose proof (read_loop_head_inv _ (inv_write_queue q c1 Hq Hobs Hc1)) as Hx.
  by destruct (read_loop_head _) as [rpc c2].
Qed.

Lemma new_client_inv t limits maximum :
  limits_wf limits → in_u 64 maximum → conn_inv (new_client t limits maximum).
Proof.
  intros Hl Hm. split; simpl; try done.
  - by apply new_allocator_inv.
  - by apply new_queue_inv.
  - apply new_decoder_inv.
  all: unfold count; simpl; lia.
Qed.

(** ** Interleavings *)

(** The steps of the connection and of the coroutines that use it, each running from one
    suspension point to the next.  What the socket, the clock and the timers answer, what the
    application calls and in which order the coroutines run is arbitrary. *)
Inductive cstep : ClientConnection → ClientConnection → Prop :=
  | cstep_run c : cstep c (run c).1.1
  | cstep_start c t v : cstep c (start_request t v c).2
  | cstep_start_resume c l f what r c' :
      frame_fits (limits_ (write_queue_ c)) f →
      start_request_resume l f what c = Some (r, c') → cstep c c'
  | cstep_deadline c d r : cstep c (start_request_deadline d r c).2
  | cstep_timer c l e c' : timer_handler l e c = Some c' → cstep c c'
  | cstep_cancel c h m : cstep c (handle_cancel h m c).2
  | cstep_wait c t h : cstep c (async_wait t h c).2
  | cstep_wait_resume c t l r c' : async_wait_resume t l c = Some (r, c') → cstep c c'
  | cstep_destroy c h : cstep c (handle_destroy h c)
  | cstep_assign c h other : cstep c (handle_assign h other c).2
  | cstep_read c io pc c' : read_loop_resume io c = Some (pc, c') → cstep c c'
  | cstep_write c pc q t :
      receives (channel_ (write_queue_ c)) = 1%nat →
      run_resume (write_queue_ c) (transport_ c) = Some (pc, q, t) →
      cstep c (set_transport t (set_write_queue q c))
  | cstep_written c f io pc q t es :
      run_written f io (write_queue_ c) (transport_ c) = (pc, q, t, es) →
      cstep c (log_events es (set_transport t (set_write_queue q c)))
  | cstep_shutdown c start now period : cstep c (shutdown start now period c).2
  | cstep_shutdown_resume c e now deadline : cstep c (shutdown_resume e now deadline c).2.

Definition creachable (t : T) (limits : WriteQueueLimits) (maximum : Z) c : Prop :=
  rtc cstep (new_client t limits maximum) c.

Lemma cstep_inv c c' : conn_inv c → cstep c c' → conn_inv c'.
Proof.
  intros Hc Hstep. destruct Hstep as [|c t v|c l f what r c' Hf Hr| | |c h m|c t h|c t l r c' Hr|
    c h|c h other|c io pc c' Hr|c pc q t Hone Hr|c f io pc q t es Hw|c start now period|c e now d].
  - by apply run_inv.
  - by apply start_request_inv.
  - by eapply start_request_resume_inv.
  - by apply start_request_deadline_inv.
  - by eapply timer_handler_inv.
  - unfold handle_cancel. case_match; [by apply cancel_pending_inv|done].
  - by apply async_wait_inv.
  - by eapply async_wait_resume_inv.
  - by apply handle_destroy_inv.
  - unfold handle_assign. simpl. case_match; [by apply discard_pending_inv|done].
  - destruct (read_loop_resume_inv io c Hc) as (pc1 & c1 & Heq & ?). congruence.
  - apply inv_transport. destruct (run_resume_constant _ _ _ _ _ Hr) as [Ho _].
    apply run_resume_spec in Hr as (Hq & _); [|apply Hc|done]. by apply inv_write_queue.
  - destruct (run_written_constant _ _ _ _ _ _ _ _ Hw) as [Ho _].
    destruct (run_written_inv _ _ _ _ _ _ _ _ (ci_queue _ Hc) Hw) as [Hq Hes].
    apply inv_log; [|by apply inv_transport, inv_write_queue].
    destruct Hes as [->|(ob & Hob & ->)]; [done|]. rewrite (ci_observer _ Hc) in Hob.
    injection Hob as <-. apply neutral_write_observer.
  - by apply shutdown_poll_inv, begin_shutdown_inv.
  - unfold shutdown_resume. destruct e; [by apply shutdown_finish_spec|by apply shutdown_poll_inv].
Qed.

Lemma creachable_inv t limits maximum c :
  limits_wf limits → in_u 64 maximum → creachable t limits maximum c → conn_inv c.
Proof.
  intros Hl Hm Hr. unfold creachable in Hr. remember (new_client t limits maximum) as c0 eqn:Hc0.
  assert (conn_inv c0) as Hi by (subst; by apply new_client_inv). clear Hc0.
  induction Hr; eauto using cstep_inv.
Qed.

(** ** Properties *)

(** C11: every request is accounted for: at any moment the requests that were started are
    exactly those that have ended, each reported to the observer by one terminal event, and
    those in the table; and the closing of the connection is reported at most once. *)
Theorem client_requests_accounted t limits maximum c :
  limits_wf limits → in_u 64 maximum → creachable t limits maximum c →
  count is_started (log_ c) = (listeners * length (heap_ c))%nat ∧
  count is_started (log_ c) = (count is_ended (log_ c) + listeners * size (pending_ c))%nat ∧
  (count is_closed_event (log_ c) ≤ 1)%nat.
Proof.
  intros Hl Hm Hr. destruct (creachable_inv _ _ _ _ Hl Hm Hr).
  split_and!; [done|rewrite ci_started0, ci_ended0; nia|]. rewrite ci_closed_event0.
  unfold listeners. destruct (on_event _), (closed_notified_ c); simpl; lia.
Qed.

(** At any moment the table maps exactly the streams of the unfinished requests to
    them; unfinished requests have pairwise different streams, each a client stream that
    the allocator holds in use. *)
Theorem client_streams_exclusive t limits maximum c s l :
  limits_wf limits → in_u 64 maximum → creachable t limits maximum c →
  (pending_ c !! s = Some l ↔
     ∃ p, heap_ c !! l = Some p ∧ op_stream (pr_operation p) = s ∧
       is_terminal (pr_operation p) = false) ∧
  (is_Some (pending_ c !! s) → is_client_stream s = true ∧ value s ∈ in_use_ (stream_ids_ c)).
Proof.
  intros Hl Hm Hr. pose proof (creachable_inv _ _ _ _ Hl Hm Hr) as Hc. split; [split|].
  - intros Hs. destruct (ci_table _ Hc _ _ Hs) as (p & Hp & Hst & Hrem). exists p.
    by rewrite <-(oi_removed _ (ci_objects _ Hc _ _ Hp)).
  - intros (p & Hp & <- & Ht). apply (ci_live _ Hc); [done|].
    by rewrite (oi_removed _ (ci_objects _ Hc _ _ Hp)).
  - intros [k Hk]. destruct (ci_table _ Hc _ _ Hk) as (p & Hp & <- & Hrem).
    assert (value (op_stream (pr_operation p)) ∈ in_use_ (stream_ids_ c)) as Hu.
    { apply (ci_in_use _ Hc k); [done|]. pose proof (oi_released _ (ci_objects _ Hc _ _ Hp)) as Hx.
      destruct (pr_stream_released p); [rewrite Hx in Hrem|]; done. }
    split; [|done]. destruct (ci_ids _ Hc) as (_ & _ & _ & Hdom & _).
    assert (owned (initiator_ (stream_ids_ c)) (maximum_ (stream_ids_ c))
      (value (op_stream (pr_operation p)))) as Hown by (apply Hdom; set_solver).
    apply owned_side in Hown as [Hside _]. rewrite (ci_client _ Hc) in Hside.
    by destruct (op_stream (pr_operation p)).
Qed.

(** A response for a request in the table. *)
Lemma dispatch_response_eq c frame l p :
  conn_inv c →
  type (header frame) = FrameType.response →
  has_flag (flags (header frame)) FrameFlags.cancel = false →
  has_flag (flags (header frame)) FrameFlags.error = false →
  pending_ c !! stream (header frame) = Some l → heap_ c !! l = Some p → pr_removed p = false →
  stream (header frame) ∉ terminal_streams_ c →
  ∃ op es, op_result op = Some (result_success "response received") ∧
    dispatch frame c = mark_terminal frame (log_events es (settle l p (cleaned true (responded frame op p)) c)).
Proof.
  intros Hc Hty Hcan Herr Hs Hp Hrem Hterm.
  destruct (respond_settles frame l c p Hc Hp Hrem) as (op & es & Hcall & _ & Hres & _ & Hcl & _ & _).
  exists op, es. split; [done|]. unfold dispatch. rewrite Hty, bool_decide_eq_true_2 by done. simpl.
  rewrite Hs, decide_False, Hcan, Herr by done. rewrite Hcall in *. simpl in *. by rewrite Hcl.
Qed.

Lemma dispatch_response_spec c frame l p :
  conn_inv c →
  type (header frame) = FrameType.response →
  has_flag (flags (header frame)) FrameFlags.cancel = false →
  has_flag (flags (header frame)) FrameFlags.error = false →
  pending_ c !! stream (header frame) = Some l → heap_ c !! l = Some p →
  stream (header frame) ∉ terminal_streams_ c →
  let c' := dispatch frame c in
  (∃ op, heap_ c' = <[l := cleaned true (responded frame op p)]> (heap_ c) ∧
     op_result op = Some (result_success "response received") ∧
     view_pending (ch_view (ch_try_send frame (pr_channel p)).2) = [frame]) ∧
  pending_ c' = delete (stream (header frame)) (pending_ c) ∧
  in_use_ (stream_ids_ c') = in_use_ (stream_ids_ c) ∖ {[value (stream (header frame))]} ∧
  transport_ c' = transport_ c ∧ write_queue_ c' = write_queue_ c ∧ lifecycle_ c' = lifecycle_ c.
Proof.
  intros Hc Hty Hcan Herr Hs Hp Hterm.
  destruct (ci_table _ Hc _ _ Hs) as (p0 & Hp0 & Hst & Hrem). rewrite Hp in Hp0. injection Hp0 as <-.
  pose proof (ci_objects _ Hc _ _ Hp) as Ho.
  destruct (dispatch_response_eq c frame l p Hc Hty Hcan Herr Hs Hp Hrem Hterm) as (op & es & Hres & Hd).
  destruct (live_try_send p frame Ho Hrem) as (_ & _ & Hpend & _).
  assert (pr_stream_released p = false) as Hrel.
  { pose proof (oi_released _ Ho) as Hx. destruct (pr_stream_released p); [rewrite Hx in Hrem|]; done. }
  destruct (release_refines (op_stream (pr_operation p)) _ (ci_ids _ Hc)) as (_ & _ & _ & Hu).
  cbv zeta. rewrite Hd. clear Hd.
  destruct (mark_terminal_fields frame
    (log_events es (settle l p (cleaned true (responded frame op p)) c))) as (-> & -> & -> & -> & -> & ->).
  split_and!; try done; simpl.
  - by exists op.
  - by rewrite Hrem, Hst.
  - rewrite Hrel. simpl. by rewrite Hu, Hst.
Qed.

(** C12: a response that carries neither the cancel nor the error flag, on a stream on which
    the connection has not seen a last frame before, is routed to the request of its stream
    and to no other: that request's operation completes and its channel carries the frame,
    its table entry goes and its stream identifier is free again, while every other request,
    the table's other entries, the transport and the write queue are untouched.  (The set of
    the streams on which a last frame was seen is never cleared: on a stream that is used a
    second time the response is a violation instead.) *)
Theorem dispatch_routes_response t limits maximum c frame l p :
  limits_wf limits → in_u 64 maximum → creachable t limits maximum c →
  type (header frame) = FrameType.response →
  has_flag (flags (header frame)) FrameFlags.cancel = false →
  has_flag (flags (header frame)) FrameFlags.error = false →
  pending_ c !! stream (header frame) = Some l → heap_ c !! l = Some p →
  stream (header frame) ∉ terminal_streams_ c →
  let c' := dispatch frame c in
  (∃ p', heap_ c' = <[l := p']> (heap_ c) ∧
     op_result (pr_operation p') = Some (result_success "response received") ∧
     view_pending (ch_view (pr_channel p')) = [frame]) ∧
  pending_ c' = delete (stream (header frame)) (pending_ c) ∧
  in_use_ (stream_ids_ c') = in_use_ (stream_ids_ c) ∖ {[value (stream (header frame))]} ∧
  transport_ c' = transport_ c ∧ write_queue_ c' = write_queue_ c ∧ lifecycle_ c' = lifecycle_ c.
Proof.
  intros Hl Hm Hr Hty Hcan Herr Hs Hp Hterm. pose proof (creachable_inv _ _ _ _ Hl Hm Hr) as Hc.
  destruct (dispatch_response_spec c frame l p Hc Hty Hcan Herr Hs Hp Hterm) as [(op & Hh & Hres & Hv) Hrest].
  split; [|done]. by exists (cleaned true (responded frame op p)).
Qed.

(** What the dispatcher objects to in a frame: the status and the text it fails the
    connection with. *)
Definition violation (frame : Frame) c : option (StatusCode * string) :=
  if negb (bool_decide (type (header frame) = FrameType.response)) then
    Some (StatusCode.malformed_frame, "client received a non-response frame")
  else if decide (pending_ c !! stream (header frame) = None) then
    Some (StatusCode.unknown_stream, "response received for an unknown stream")
  else if decide (stream (header frame) ∈ terminal_streams_ c) then
    Some (StatusCode.malformed_frame, "duplicate terminal frame")
  else if has_flag (flags (header frame)) FrameFlags.cancel then None
  else if has_flag (flags (header frame)) FrameFlags.error
          && bool_decide (decode_error_status frame = None) then
    Some (StatusCode.malformed_frame, "malformed protocol error payload")
  else None.

Lemma dispatch_violation frame c status message :
  violation frame c = Some (status, message) →
  dispatch frame c = fail_connection status message c ∧ status ≠ StatusCode.ok ∧
  status_category status = StatusCategory.protocol.
Proof.
  unfold violation, dispatch. destruct (negb _); [by intros [= <- <-]|].
  destruct (pending_ c !! stream (header frame)) as [l|]; simpl.
  - case_decide; [by intros [= <- <-]|]. destruct (has_flag _ FrameFlags.cancel); [done|].
    destruct (has_flag _ FrameFlags.error); simpl; [|done].
    destruct (decode_error_status frame); simpl; [done|by intros [= <- <-]].
  - by intros [= <- <-].
Qed.

Lemma violation_fails_all c frame status message :
  conn_inv c → violation frame c = Some (status, message) →
  let c' := dispatch frame c in
  pending_ c' = ∅ ∧ t_is_open (transport_ c') = false ∧
  (∃ es, log_ c' = log_ c ++ notify_diagnostics diagnostics_
     (mkEvent DiagnosticsEventType.protocol_error default_id status 0 true message) ++ es) ∧
  (∀ l p, heap_ c !! l = Some p → pr_removed p = true → heap_ c' !! l = Some p) ∧
  (∀ l p, heap_ c !! l = Some p → pr_removed p = false →
     ∃ p', heap_ c' !! l = Some p' ∧ failed_with status message p p').
Proof.
  intros Hc Hv.
  destruct (dispatch_violation _ _ _ _ Hv) as (-> & Hs & Hcat). cbv zeta.
  unfold fail_connection. rewrite decide_True by done. set (c1 := notify _ c).
  assert (conn_inv c1) as Hc1 by (by apply inv_notify).
  destruct (fail_pending_spec status message c1 Hs Hc1). simpl.
  split_and!; [done|apply t_close_closes| |exact fa_removed0|exact fa_live0].
  destruct (fail_pending_log (size (pending_ c1)) status message c1) as [es Hes].
  exists es. unfold fail_pending. rewrite Hes. simpl. by rewrite <-app_assoc.
Qed.

(** C31: a frame that violates the protocol takes the connection down and nothing else: the
    observer is told, every unfinished request fails with the reported status and has its
    channel closed, the table is emptied, the transport closed; finished requests keep
    their result. *)
Theorem dispatch_violation_fails_all t limits maximum c frame status message :
  limits_wf limits → in_u 64 maximum → creachable t limits maximum c →
  violation frame c = Some (status, message) →
  let c' := dispatch frame c in
  pending_ c' = ∅ ∧ t_is_open (transport_ c') = false ∧
  (∃ es, log_ c' = log_ c ++ notify_diagnostics diagnostics_
     (mkEvent DiagnosticsEventType.protocol_error default_id status 0 true message) ++ es) ∧
  (∀ l p, heap_ c !! l = Some p → pr_removed p = true → heap_ c' !! l = Some p) ∧
  (∀ l p, heap_ c !! l = Some p → pr_removed p = false →
     ∃ p', heap_ c' !! l = Some p' ∧ failed_with status message p p').
Proof. intros Hl Hm Hr. apply violation_fails_all. by eapply creachable_inv. Qed.

(** [fail_pending] terminates: after one round per table entry the table is empty, and
    every request that was in it has failed with the given status and message and has its
    channel closed; nothing else of the connection changes, whatever order the table is
    traversed in. *)
Theorem fail_pending_empties t limits maximum c status message :
  limits_wf limits → in_u 64 maximum → creachable t limits maximum c → status ≠ StatusCode.ok →
  failed_all status message c (fail_pending_loop (size (pending_ c)) status message c).
Proof.
  intros Hl Hm Hr Hs. apply fail_pending_loop_spec; [done| |done].
  by eapply creachable_inv.
Qed.

(** The [async_wait] on a request that has ended has its answer. *)
Lemma ended_wait_answered c ty l p :
  conn_inv c → heap_ c !! l = Some p → is_terminal (pr_operation p) = true →
  receives (pr_channel p) = 1%nat → (cv_receives (ch_view (pr_channel p)) ≤ 1)%nat →
  is_Some (async_wait_resume ty l c).
Proof.
  intros Hc Hp Ht Hone Hle. pose proof (ci_objects _ Hc _ _ Hp) as Ho.
  destruct (oi_answered _ Ho) as [Hw _]; [by rewrite (oi_removed _ Ho)|done|].
  unfold async_wait_resume. rewrite Hp. simpl.
  pose proof (ch_view_resume (pr_channel p)) as Hv. unfold view_resume in Hv.
  unfold receives in Hone. rewrite Hw in Hone.
  destruct (cv_done (ch_view (pr_channel p))) as [|? ?]; [done|].
  destruct (ch_resume (pr_channel p)) as [[r ch]|]; [|done]. simpl. eauto.
Qed.

(** C28: nobody waits for ever: as soon as a request has ended, the [async_wait] on its
    handle has its answer; and once the read loop has ended or a shutdown has finished,
    every request has ended. *)
Theorem client_wait_completes t limits maximum c ty :
  limits_wf limits → in_u 64 maximum → creachable t limits maximum c →
  (∀ l p, heap_ c !! l = Some p → is_terminal (pr_operation p) = true →
     receives (pr_channel p) = 1%nat → (cv_receives (ch_view (pr_channel p)) ≤ 1)%nat →
     is_Some (async_wait_resume ty l c)) ∧
  (∀ l p, heap_ (read_loop_exit c).2 !! l = Some p ∨ heap_ (shutdown_finish c) !! l = Some p →
     is_terminal (pr_operation p) = true).
Proof.
  intros Hl Hm Hr. pose proof (creachable_inv _ _ _ _ Hl Hm Hr) as Hc. split.
  - intros l p. by apply ended_wait_answered.
  - assert (∀ c', conn_inv c' → pending_ c' = ∅ → ∀ l p, heap_ c' !! l = Some p →
      is_terminal (pr_operation p) = true) as Hall.
    { intros c' Hc' He l p Hp. rewrite <-(oi_removed _ (ci_objects _ Hc' _ _ Hp)).
      destruct (pr_removed p) eqn:Hrem; [done|].
      pose proof (ci_live _ Hc' _ _ Hp Hrem) as Hx. by rewrite He in Hx. }
    destruct (read_loop_exit_inv c Hc), (shutdown_finish_spec c Hc) as (? & ? & _).
    intros l p [Hp|Hp]; eapply Hall in Hp; eauto.
Qed.

(** A request that [start_request] reports as started is registered under a stream
    identifier that was not in use, and the frame at the end of the write queue is a request
    on that stream which decodes to the message that was sent. *)
Theorem start_request_sends t limits maximum c ty v l c' :
  limits_wf limits → in_u 64 maximum → creachable t limits maximum c → registry_inv registry_ →
  start_request ty v c = (StartReturned (start_success l), c') →
  ∃ s f p, (value s ∉ in_use_ (stream_ids_ c)) ∧ pending_ c !! s = None ∧
    pending_ c' = <[s := l]> (pending_ c) ∧
    heap_ c' = heap_ c ++ [p] ∧ l = length (heap_ c) ∧ op_stream (pr_operation p) = s ∧
    pending (write_queue_ c') = pending (write_queue_ c) ++ [f] ∧
    stream (header f) = s ∧ type (header f) = FrameType.request ∧
    decode_message registry_ ty f = decode_success v.
Proof.
  intros Hl Hm Hr Hreg Hst. pose proof (creachable_inv _ _ _ _ Hl Hm Hr) as Hc.
  pose proof (start_request_spec ty v c Hc) as Hout. rewrite Hst in Hout.
  destruct (allocate_refines _ (ci_ids _ Hc)) as (_ & _ & _ & Hspec).
  inversion Hout as [| | |s ids f r q Hcl Ha Henc He Heq].
  rewrite Ha in Hspec. simpl in Hspec. destruct Hspec as [(x & [= ->] & _ & Hx & _ & Hu)|([=] & _)].
  destruct (fresh_not_pending c (mkId x) Hc Hx) as [Hnone _].
  apply enqueue_spec in He as [(_ & _ & _ & _ & Hpend & _) _]; [|apply Hc].
  destruct r as [sent|]; [|done]. unfold start_request_enqueue, start_request_sent in Heq.
  destruct (write_ok sent) eqn:Hok; simpl in Heq; [|done]. injection Heq as <- <-.
  exists (mkId x), f, (new_pending (mkId x) (request_handler (mkId x))). simpl.
  unfold accepted_by in Hpend. rewrite Hok in Hpend.
  pose proof (encode_message_success _ _ _ _ _ _ _ _ _ Henc) as
    (_ & _ & _ & _ & _ & _ & Hh).
  split_and!; auto; try (by rewrite Hh). by eapply decode_message_encode.
Qed.

(** The stream identifier that [start_request] takes for a message that then turns out not to
    be encodable. *)
Definition unencodable_stream (ty : TypeIndex) (v : msg ty) c : option StreamId :=
  if bool_decide (state c = ConnectionState.draining) || bool_decide (state c = ConnectionState.closing)
     || bool_decide (state c = ConnectionState.closed) then None
  else
    s ← allocation_stream (allocate (stream_ids_ c)).1;
    if frame_encode_ok (encode_message_default registry_ ty v s FrameType.request) then None else Some s.

(** C33: a request that [start_request] refuses leaves no trace in the table.  When it is
    refused because the message cannot be encoded, the stream identifier that was taken for
    it stays in use for good: it was free before, and no request that still has to give its
    identifier back holds it.  In every other case the identifiers in use are the same as
    before. *)
Theorem start_request_failure t limits maximum c ty v status message c' :
  limits_wf limits → in_u 64 maximum → creachable t limits maximum c →
  start_request ty v c = (StartReturned (start_failure status message), c') →
  pending_ c' = pending_ c ∧
  match unencodable_stream ty v c with
  | Some s =>
      encode_message_default registry_ ty v s FrameType.request = frame_encode_failure status message ∧
      (value s ∉ in_use_ (stream_ids_ c)) ∧
      in_use_ (stream_ids_ c') = {[value s]} ∪ in_use_ (stream_ids_ c) ∧
      heap_ c' = heap_ c ∧
      ∀ l p, heap_ c' !! l = Some p → op_stream (pr_operation p) = s → pr_stream_released p = true
  | None => in_use_ (stream_ids_ c') = in_use_ (stream_ids_ c)
  end.
Proof.
  intros Hl Hm Hr Hst. pose proof (creachable_inv _ _ _ _ Hl Hm Hr) as Hc.
  pose proof (start_request_spec ty v c Hc) as Hout. rewrite Hst in Hout.
  destruct (allocate_refines _ (ci_ids _ Hc)) as (Hai & Hini & _ & Hspec). unfold unencodable_stream, state.
  inversion Hout as [Hrank|ids Ha|s ids st m Ha Henc Hstatus|s ids f r q Hcl Ha Henc He Heq]; subst.
  - destruct (lifecycle_ c'); simpl in Hrank; try lia; done.
  - rewrite Ha in *. simpl in *. destruct Hspec as [(x & [=] & _)|(_ & _ & ->)].
    split; [done|]. by destruct (_ || _ || _).
  - rewrite Ha in Hspec |- *. simpl in *. destruct Hspec as [(x & [= ->] & _ & Hx & _ & Hu)|([=] & _)].
    unfold start_request, state in Hst. destruct (_ || _ || _).
    { injection Hst as _ _ Heq. apply (f_equal (in_use_ ∘ stream_ids_)) in Heq. simpl in Heq. set_solver. }
    rewrite Henc. unfold frame_encode_ok at 1. simpl. rewrite bool_decide_eq_false_2 by done. split; [done|].
    destruct (fresh_not_pending c (mkId x) Hc Hx) as [_ Hfree]. split_and!; try done.
    intros l p Hp Hs. destruct (pr_stream_released p) eqn:Hrel; [done|]. by destruct (Hfree l p).
  - rewrite Ha in *. simpl in *. destruct Hspec as [(x & [= ->] & _ & Hx & _ & Hu)|([=] & _)].
    destruct (fresh_not_pending c (mkId x) Hc Hx) as [Hnone _].
    assert (conn_inv (set_write_queue q (registered (mkId x) ids c))) as Hreg.
    { eapply (enqueue_inv f (registered (mkId x) ids c)); [|exact He].
      apply registered_inv; auto. rewrite Hini. apply Hc. }
    destruct r as [sent|]; [|done]. unfold start_request_enqueue, start_request_sent in Heq.
    destruct (write_ok sent) eqn:Hok; simpl in Heq; [done|]. injection Heq as _ _ <-.
    apply bool_decide_eq_false in Hok.
    destruct (end_request_settles _ true (length (heap_ c)) _
      (new_pending (mkId x) (request_handler (mkId x))) Hreg
      ltac:(simpl; by rewrite lookup_app_r, Nat.sub_diag by lia)
      (fail_op_ending (wr_status sent) (wr_message sent) Hok)) as (op & es & _ & _ & _ & _ & _ & -> & _ & _).
    simpl. rewrite delete_insert_id by done. split; [done|]. rewrite Henc. simpl.
    destruct (release_refines (mkId x) ids Hai) as (_ & _ & _ & Hrel).
    destruct (_ || _ || _); rewrite Hrel, Hu; simpl; set_solver.
Qed.

(** ** Identifiers that are used again *)

(** The client's identifiers below [s] are all in use. *)
Definition lower_in_use (s : StreamId) c : Prop :=
  ∀ y, 0 < y < value s → y mod 2 = 1 → y ∈ in_use_ (stream_ids_ c).

(** [start_request] has succeeded, or waits for room in the write queue. *)
Definition started (l : nat) (r : StartStep) : Prop :=
  r = StartReturned (start_success l) ∨ ∃ f, r = StartEnqueuing l f.

(** The next request takes the lowest identifier that is not in use. *)
Lemma start_takes_lowest ty v c s l r c' :
  conn_inv c → 0 < value s → value s mod 2 = 1 → value s ∉ in_use_ (stream_ids_ c) → lower_in_use s c →
  start_request ty v c = (r, c') → started l r →
  heap_ c' !! l = Some (new_pending s (request_handler s)) ∧ pending_ c' !! s = Some l ∧
  terminal_streams_ c' = terminal_streams_ c ∧ conn_inv c'.
Proof.
  intros Hc Hpos Hodd Hfree Hlow Hst Hok. pose proof (start_request_inv ty v c Hc) as Hc'.
  pose proof (start_request_spec ty v c Hc) as Hout. rewrite Hst in Hout, Hc'. simpl in Hc'.
  destruct (allocate_refines _ (ci_ids _ Hc)) as (_ & _ & _ & Hspec).
  inversion Hout as [Hrank|ids Ha|s' ids st m Ha Henc Hstatus|s' ids f r' q Hcl Ha Henc He Heq]; subst;
    try (by destruct Hok as [[=]|[? [=]]]).
  rewrite Ha in Hspec. simpl in Hspec. destruct Hspec as [(x & [= ->] & Hown & Hx & Hleast & _)|([=] & _)].
  assert (s = mkId x) as ->.
  { destruct s as [z]. simpl in *. f_equal. unfold owned in *. rewrite (ci_client _ Hc) in *. simpl in *.
    destruct (Z.lt_trichotomy x z) as [Hlt|[|Hlt]]; [|done|].
    - destruct Hx. apply Hlow; simpl; [lia|]. by destruct Hown as [_ ->].
    - destruct Hfree. apply Hleast; [|done]. split; [lia|done]. }
  unfold start_request_enqueue, start_request_sent in Heq.
  assert (r = StartReturned (start_success (length (heap_ c))) ∨ r = StartEnqueuing (length (heap_ c)) f) as Hr.
  { destruct r' as [sent|]; [|injection Heq as <- <-; by right]. destruct (write_ok sent); simpl in Heq;
      injection Heq as <- <-; [by left|]. by destruct Hok as [[=]|[? [=]]]. }
  assert (l = length (heap_ c)) as ->.
  { destruct Hr as [-> | ->], Hok as [[=]|[? [=]]]; congruence. }
  assert (c' = set_write_queue q (registered (mkId x) ids c)) as ->.
  { destruct r' as [sent|]; [|by injection Heq as _ <-]. destruct (write_ok sent); simpl in Heq; [by injection Heq as _ <-|].
    injection Heq as <- _. by destruct Hr as [[=]|[=]]. }
  simpl. split_and!; [by rewrite lookup_app_r, Nat.sub_diag by lia|by rewrite lookup_insert_eq|done|done].
Qed.

(** The identifier that a request holds is an odd one in use. *)
Lemma held_identifier c l p :
  conn_inv c → heap_ c !! l = Some p → pr_stream_released p = false →
  0 < value (op_stream (pr_operation p)) ∧ value (op_stream (pr_operation p)) mod 2 = 1 ∧
  value (op_stream (pr_operation p)) ∈ in_use_ (stream_ids_ c).
Proof.
  intros Hc Hp Hr. pose proof (ci_in_use _ Hc l p Hp Hr) as Hu.
  destruct (ci_ids _ Hc) as (_ & _ & _ & Hdom & _).
  assert (owned (initiator_ (stream_ids_ c)) (maximum_ (stream_ids_ c))
    (value (op_stream (pr_operation p)))) as [Hb Hpar] by (apply Hdom; set_solver).
  rewrite (ci_client _ Hc) in Hb, Hpar. simpl in *. split_and!; [lia|done|done].
Qed.


Lemma pending_identifier c s l :
  conn_inv c → pending_ c !! s = Some l → 0 < value s ∧ value s mod 2 = 1 ∧ value s ∈ in_use_ (stream_ids_ c).
Proof.
  intros Hc Hs. destruct (ci_table _ Hc _ _ Hs) as (p & Hp & <- & Hrem).
  pose proof (oi_released _ (ci_objects _ Hc _ _ Hp)) as Hrel.
  assert (pr_stream_released p = false) as Hr by (destruct (pr_stream_released p); [rewrite Hrel in Hrem|]; done).
  by apply (held_identifier c l p).
Qed.

(** The caller of a request that ended without a response has been told: the identifier of
    its stream is given back. *)
Lemma wait_resume_releases ty l c p r c' :
  conn_inv c → heap_ c !! l = Some p → pr_removed p = true → pr_stream_released p = false →
  async_wait_resume ty l c = Some (r, c') →
  conn_inv c' ∧ in_use_ (stream_ids_ c') = in_use_ (stream_ids_ c) ∖ {[value (op_stream (pr_operation p))]} ∧
  terminal_streams_ c' = terminal_streams_ c.
Proof.
  intros Hc Hp Hrem Hrel Hw. split; [by eapply async_wait_resume_inv|].
  destruct (release_refines (op_stream (pr_operation p)) _ (ci_ids _ Hc)) as (_ & _ & _ & Hu).
  unfold async_wait_resume in Hw. rewrite Hp in Hw. simpl in Hw.
  destruct (ch_resume (pr_channel p)) as [[rcv ch]|]; [|done]. simpl in Hw. injection Hw as _ <-.
  unfold cleanup_pending. simpl. rewrite list_lookup_alter_eq, Hp. simpl. rewrite Hrem, Hrel. simpl. done.
Qed.

(** C34: a stream identifier that is used again takes the connection down.  After a plain
    response that ends stream [s] for the first time, with the lower identifiers of the client in use, the next
    request takes [s] again; the first response on [s] after that, whatever it carries, is
    taken for a duplicate of the last frame: the transport is closed, and the new request and
    all other ones that are outstanding fail with [malformed_frame]. *)
Theorem recycled_stream_fails_connection t limits maximum c s l f1 ty v r c2 l' f2 :
  limits_wf limits → in_u 64 maximum → creachable t limits maximum c →
  pending_ c !! s = Some l → (s ∉ terminal_streams_ c) → lower_in_use s c →
  type (header f1) = FrameType.response → stream (header f1) = s →
  has_flag (flags (header f1)) FrameFlags.cancel = false →
  has_flag (flags (header f1)) FrameFlags.error = false →
  has_flag (flags (header f1)) FrameFlags.end_of_stream = true →
  start_request ty v (dispatch f1 c) = (r, c2) → started l' r →
  type (header f2) = FrameType.response → stream (header f2) = s →
  let c3 := dispatch f2 c2 in
  pending_ c2 !! s = Some l' ∧ pending_ c3 = ∅ ∧ t_is_open (transport_ c3) = false ∧
  ∀ k, k = l' ∨ (∃ p, heap_ c2 !! k = Some p ∧ is_terminal (pr_operation p) = false) →
    ∃ p', heap_ c3 !! k = Some p' ∧
      op_result (pr_operation p') = Some (mkResult StatusCode.malformed_frame "duplicate terminal frame").
Proof.
  intros Hl Hm Hr Hs Hterm Hlow Hty1 Hs1 Hcan Herr Heos Hst Hok Hty2 Hs2.
  pose proof (creachable_inv _ _ _ _ Hl Hm Hr) as Hc. cbv zeta.
  destruct (ci_table _ Hc _ _ Hs) as (p & Hp & _ & Hrem). destruct (pending_identifier c s l Hc Hs) as (Hpos & Hodd & _).
  rewrite <-Hs1 in Hs, Hterm.
  destruct (dispatch_response_spec c f1 l p Hc Hty1 Hcan Herr Hs Hp Hterm) as (_ & _ & Hu & _).
  destruct (dispatch_response_eq c f1 l p Hc Hty1 Hcan Herr Hs Hp Hrem Hterm) as (op & es & _ & Hd).
  rewrite Hs1 in Hu. destruct (start_takes_lowest ty v (dispatch f1 c) s l' r c2) as (Hp' & Hs' & Ht' & Hc2);
    [by apply dispatch_inv|done|done|rewrite Hu; set_solver| |done|done|].
  { intros y Hy Hyo. rewrite Hu. apply elem_of_difference. split; [by apply Hlow|]. rewrite elem_of_singleton. lia. }
  split; [done|].
  assert (violation f2 c2 = Some (StatusCode.malformed_frame, "duplicate terminal frame")) as Hv.
  { unfold violation. rewrite Hty2, bool_decide_eq_true_2, Hs2, decide_False by (done || by rewrite Hs'). simpl.
    rewrite decide_True; [done|]. rewrite Ht', Hd. unfold mark_terminal. rewrite Heos. simpl. set_solver. }
  destruct (violation_fails_all c2 f2 _ _ Hc2 Hv) as (He & Ho & _ & _ & Hfail). split; [done|]. split; [done|].
  intros k Hk. assert (∃ q, heap_ c2 !! k = Some q ∧ pr_removed q = false) as (q & Hq & Hqr).
  { destruct Hk as [->|(q & Hq & Hqt)]; [by eexists|]. exists q. split; [done|].
    by rewrite (oi_removed _ (ci_objects _ Hc2 _ _ Hq)). }
  destruct (Hfail k q Hq Hqr) as (q' & Hq' & _ & Hres & _). by exists q'.
Qed.

(** What the common part of [timeout_pending] and [cancel_pending] does to a running request. *)
Lemma end_early_outcome f l c p :
  conn_inv c → heap_ c !! l = Some p → pr_removed p = false → ending f →
  let s := op_stream (pr_operation p) in
  let c1 := (call_operation l f c).2 in
  let c' := cleanup_pending l false (close_channel l (send_cancellation (stream_of l c1) c1)) in
  ∃ op es, f (pr_operation p) = (true, op, es) ∧ (call_operation l f c).1 = true ∧
    heap_ c' = <[l := cleaned false (channel_closed (with_operation op p))]> (heap_ c) ∧
    pending_ c' = delete s (pending_ c) ∧ stream_ids_ c' = stream_ids_ c ∧
    write_queue_ c' = (try_enqueue (cancellation_frame s) (write_queue_ c)).2 ∧
    transport_ c' = transport_ c ∧ terminal_streams_ c' = terminal_streams_ c.
Proof.
  intros Hc Hp Hrem Hend. cbv zeta. set (s := op_stream (pr_operation p)).
  destruct (end_request_settles _ false l _ p (inv_send_cancellation s c Hc) Hp Hend)
    as (op & es & Hf & Hcall & _ & _ & _ & Hset & Hsettles & _).
  rewrite Hrem in Hf. exists op, es. split; [done|].
  unfold send_cancellation in *. rewrite call_operation_write_queue in Hset, Hcall.
  assert (stream_of l (call_operation l f c).2 = s) as Hs.
  { unfold call_operation, stream_of. rewrite Hp, Hf. simpl.
    rewrite list_lookup_insert_eq by (by eapply lookup_lt_Some). apply (st_stream _ _ Hsettles). }
  assert (write_queue_ (call_operation l f c).2 = write_queue_ c) as Hq
    by (unfold call_operation; by rewrite Hp, Hf).
  destruct (call_operation l f c) as [b c1]. simpl in Hcall, Hset, Hs, Hq. rewrite Hrem in Hcall.
  injection Hcall as -> _. cbn [snd fst]. rewrite Hs, Hq, Hset. simpl. rewrite Hrem. simpl.
  by rewrite orb_false_r, andb_negb_r.
Qed.

(** A deadline that expires ends only a request that is still running: a finished
    request is not touched; a running one fails with [timeout_error], its channel is closed,
    it leaves the table, a cancellation frame for its stream is offered to the write queue,
    and the stream identifier stays reserved until the handle lets go of it. *)
Theorem timeout_pending_outcome t limits maximum c l p :
  limits_wf limits → in_u 64 maximum → creachable t limits maximum c → heap_ c !! l = Some p →
  if is_terminal (pr_operation p) then timeout_pending l c = c
  else
    let c' := timeout_pending l c in
    let s := op_stream (pr_operation p) in
    (∃ p', heap_ c' = <[l := p']> (heap_ c) ∧
       failed_with StatusCode.timeout_error "operation deadline exceeded" p p') ∧
    pending_ c' = delete s (pending_ c) ∧ stream_ids_ c' = stream_ids_ c ∧
    write_queue_ c' = (try_enqueue (cancellation_frame s) (write_queue_ c)).2 ∧
    transport_ c' = transport_ c.
Proof.
  intros Hl Hm Hr Hp. pose proof (creachable_inv _ _ _ _ Hl Hm Hr) as Hc.
  pose proof (ci_objects _ Hc _ _ Hp) as Ho. rewrite <-(oi_removed _ Ho).
  pose proof (timeout_ending (E := DiagnosticsEvent) "operation deadline exceeded") as Hend.
  unfold timeout_pending. destruct (pr_removed p) eqn:Hrem.
  - pose proof (call_operation_refused l _ c Hc Hend) as Href.
    destruct (end_request_settles _ false l c p Hc Hp Hend) as (op & es & _ & Hcall & _).
    rewrite Hrem in Hcall. rewrite Hcall in *. simpl in *. auto.
  - destruct (end_early_outcome _ l c p Hc Hp Hrem Hend)
      as (op & es & Hf & Hb & Hheap & Hpend & Hids & Hq & Ht & _).
    destruct (call_operation l (timeout "operation deadline exceeded") c) as [b c1].
    simpl in Hb. subst b. cbv zeta. cbn [snd] in *. split_and!; try done. eexists. split; [done|].
    unfold failed_with. simpl. rewrite ch_view_close. by destruct (timeout_result _ _ _ _ Hf).
Qed.


End client.

(** ** Witnesses *)

(** A traversal order for the table. *)
#[export] Instance list_map_begin : MapBegin := λ m, head (map_to_list m).

#[export] Instance list_map_begin_laws : MapBeginLaws.
Proof.
  split; unfold map_begin, list_map_begin; intros m.
  - destruct (map_to_list m) eqn:Hm; [|done]. intros _. by apply map_to_list_empty_iff.
  - intros k l Hh. apply elem_of_map_to_list. destruct (map_to_list m); [done|].
    simpl in Hh. set_solver.
Qed.

Section sample.
#[local] Existing Instance demo_codec.
#[local] Instance demo_codec_laws : CodecLaws nat (pod_value (λ t, t)) := PodCodec_laws _ _.

Local Abbreviation Client := (ClientConnection (Ch := ListChannel) (Tm := ViewTimer) (T := TcpTransport)).

Definition client_start (c : Client) : Client :=
  (start_request demo_registry listening_hooks 2%nat demo_message c).2.

Definition client_dispatch (f : Frame) (c : Client) : Client := dispatch listening_hooks f c.

Definition client_new : Client := new_client listening_hooks new_tcp_transport sample_limits 9.

Definition client_run (c : Client) : Client := (run listening_hooks c).1.1.

(** A connection that is running and has one request outstanding, on stream 1. *)
Definition client_one : Client := client_start (client_run client_new).

(** The response on stream 1 that a server sends: the last frame of its stream. *)
Definition client_response : Frame :=
  mkFrame (mkHeader current_protocol_version FrameType.response FrameFlags.end_of_stream (mkId 1) 6)
    [x00; x00; x00; x64; x2a; x07].

Local Abbreviation reachable :=
  (creachable demo_registry listening_hooks new_tcp_transport sample_limits 9).

Lemma client_one_reachable : reachable client_one.
Proof.
  eapply rtc_l; [apply cstep_run|]. eapply rtc_l; [|apply rtc_refl].
  apply (cstep_start demo_registry listening_hooks _ 2%nat demo_message).
Qed.

Lemma client_range : in_u 64 9.
Proof. unfold in_u. lia. Qed.

Lemma client_requests_accounted_witness :
  count is_started (log_ client_one) =
    (count is_ended (log_ client_one) + listeners listening_hooks * size (pending_ client_one))%nat.
Proof.
  apply (client_requests_accounted demo_registry listening_hooks new_tcp_transport sample_limits 9
    client_one sample_limits_wf client_range client_one_reachable).
Defined.

Lemma client_streams_exclusive_witness :
  pending_ client_one !! (mkId 1 : StreamId) = Some 0%nat ∧ is_client_stream (mkId 1) = true.
Proof.
  assert (pending_ client_one !! (mkId 1 : StreamId) = Some 0%nat) as Hp by (vm_compute; reflexivity).
  split; [exact Hp|].
  apply (client_streams_exclusive demo_registry listening_hooks new_tcp_transport sample_limits 9
    client_one (mkId 1) 0%nat sample_limits_wf client_range client_one_reachable). eauto.
Defined.

Lemma dispatch_routes_response_witness :
  pending_ (client_dispatch client_response client_one) =
    delete (mkId 1) (pending_ client_one).
Proof.
  assert (∃ p, heap_ client_one !! 0%nat = Some p) as [p Hp] by (vm_compute; eauto).
  apply (dispatch_routes_response demo_registry listening_hooks new_tcp_transport sample_limits 9
    client_one client_response 0%nat p sample_limits_wf client_range client_one_reachable).
  - reflexivity.
  - vm_compute; reflexivity.
  - vm_compute; reflexivity.
  - vm_compute; reflexivity.
  - exact Hp.
  - vm_decide.
Defined.

Lemma dispatch_violation_fails_all_witness :
  pending_ (client_dispatch sample_request client_one) = ∅ ∧
  t_is_open (transport_ (client_dispatch sample_request client_one)) = false.
Proof.
  destruct (dispatch_violation_fails_all demo_registry listening_hooks new_tcp_transport sample_limits 9
    client_one sample_request StatusCode.malformed_frame "client received a non-response frame"
    sample_limits_wf client_range client_one_reachable) as (He & Ho & _).
  - vm_compute. reflexivity.
  - split; [exact He|exact Ho].
Defined.

Lemma fail_pending_empties_witness :
  size (pending_ client_one) = 1%nat ∧
  pending_ (fail_pending_loop (size (pending_ client_one)) StatusCode.connection_closed "closed"
    client_one) = ∅.
Proof.
  split; [vm_compute; reflexivity|]. eapply fa_empty.
  apply (fail_pending_empties demo_registry listening_hooks new_tcp_transport sample_limits 9
    client_one StatusCode.connection_closed "closed" sample_limits_wf client_range client_one_reachable).
  vm_decide.
Defined.

(** The caller waits, the response arrives. *)
Definition client_waiting : Client :=
  (async_wait (msg := pod_value (λ t, t)) 2%nat (handle_of 0) client_one).2.

Definition client_answered : Client :=
  match read_loop_resume listening_hooks (IoRead (encode_frame client_response)) client_waiting with
  | Some (_, c) => c
  | None => client_waiting
  end.

Lemma client_answered_reachable : reachable client_answered.
Proof.
  eapply rtc_r; [eapply rtc_r; [apply client_one_reachable|apply (cstep_wait _ _ _ 2%nat (handle_of 0))]|].
  unfold client_answered. fold client_waiting.
  destruct (read_loop_resume _ _ client_waiting) as [[pc c]|] eqn:Hr; [|vm_compute in Hr; discriminate].
  by eapply cstep_read.
Qed.

Lemma client_wait_completes_witness :
  is_Some (async_wait_resume demo_registry 2%nat 0 client_answered) ∧
  (async_wait_resume demo_registry 2%nat 0 client_answered) ≫= (λ r, dec_value r.1) = Some demo_message.
Proof.
  assert (∃ p, heap_ client_answered !! 0%nat = Some p ∧ is_terminal (pr_operation p) = true ∧
    receives (pr_channel p) = 1%nat ∧ (cv_receives (ch_view (pr_channel p)) ≤ 1)%nat)
    as (p & Hp & Ht & Ho & Hc) by (eexists; vm_compute; split_and!; reflexivity).
  destruct (client_wait_completes demo_registry listening_hooks new_tcp_transport sample_limits 9
    client_answered 2%nat sample_limits_wf client_range client_answered_reachable) as [Hw _].
  split; [exact (Hw 0%nat p Hp Ht Ho Hc)|vm_compute; reflexivity].
Defined.

Lemma start_request_sends_witness :
  ∃ s : StreamId, (value s ∉ in_use_ (stream_ids_ (client_run client_new))) ∧
    pending_ client_one = <[s := 0%nat]> (pending_ (client_run client_new)).
Proof.
  assert (reachable (client_run client_new)) as Hr
    by (eapply rtc_l; [apply cstep_run|apply rtc_refl]).
  assert ((start_request demo_registry listening_hooks 2%nat demo_message (client_run client_new)).1
    = StartReturned (start_success 0)) as Hok by (vm_compute; reflexivity).
  destruct (start_request demo_registry listening_hooks 2%nat demo_message (client_run client_new))
    as [r c'] eqn:Hs. cbn [fst] in Hok. subst r.
  destruct (start_request_sends demo_registry listening_hooks new_tcp_transport sample_limits 9
    (client_run client_new) 2%nat demo_message 0%nat c' sample_limits_wf client_range Hr
    demo_registry_inv Hs) as (s & f & p & Hfresh & _ & Hp & _).
  exists s. split; [exact Hfresh|]. unfold client_one, client_start. rewrite Hs. exact Hp.
Defined.

(** A message type that is not registered cannot be sent; the identifier is lost. *)
Lemma start_request_failure_witness :
  let c := client_run client_new in
  let c' := (start_request demo_registry listening_hooks 3%nat (exist _ [x00; x00; x00] eq_refl) c).2 in
  pending_ c' = pending_ c ∧ in_use_ (stream_ids_ c) = ∅ ∧ in_use_ (stream_ids_ c') = {[1]}.
Proof.
  cbv zeta. assert (reachable (client_run client_new)) as Hr
    by (eapply rtc_l; [apply cstep_run|apply rtc_refl]).
  assert ((start_request demo_registry listening_hooks 3%nat (exist _ [x00; x00; x00] eq_refl)
    (client_run client_new)).1 = StartReturned (start_failure StatusCode.unknown_message_type
    "message type is not registered")) as Hok by (vm_compute; reflexivity).
  destruct (start_request demo_registry listening_hooks 3%nat _ (client_run client_new))
    as [r c'] eqn:Hs. cbn [fst] in Hok. subst r.
  destruct (start_request_failure demo_registry listening_hooks new_tcp_transport sample_limits 9
    _ _ _ _ _ _ sample_limits_wf client_range Hr Hs) as [Hp Hleak]. split; [exact Hp|].
  assert (unencodable_stream demo_registry 3%nat (exist _ [x00; x00; x00] eq_refl) (client_run client_new)
    = Some (mkId 1)) as Hu by (vm_compute; reflexivity). rewrite Hu in Hleak.
  assert (in_use_ (stream_ids_ (client_run client_new)) = ∅) as Hempty by (vm_compute; reflexivity).
  split; [exact Hempty|]. destruct Hleak as (_ & _ & Hin & _). cbn [snd]. rewrite Hin, Hempty. apply union_empty_r_L.
Defined.

Lemma timeout_pending_outcome_witness :
  pending_ (timeout_pending 0 client_one) = delete (mkId 1) (pending_ client_one).
Proof.
  assert (∃ p, heap_ client_one !! 0%nat = Some p ∧ is_terminal (pr_operation p) = false ∧
    op_stream (pr_operation p) = mkId 1) as (p & Hp & Ht & Hs)
    by (eexists; vm_compute; split_and!; reflexivity).
  pose proof (timeout_pending_outcome demo_registry listening_hooks new_tcp_transport sample_limits 9
    client_one 0%nat p sample_limits_wf client_range client_one_reachable Hp) as Hout.
  rewrite Ht in Hout. destruct Hout as (_ & Hout & _). rewrite Hs in Hout. exact Hout.
Defined.


(** The client's second request, on stream 1 again. *)
Definition client_again : Client := client_start (client_dispatch client_response client_one).

Lemma client_one_lower : lower_in_use (mkId 1) client_one.
Proof. intros y Hy. simpl in Hy. lia. Qed.

Lemma recycled_stream_fails_connection_witness :
  t_is_open (transport_ client_again) = true ∧ pending_ client_again !! (mkId 1 : StreamId) = Some 1%nat ∧
  t_is_open (transport_ (client_dispatch client_response client_again)) = false ∧
  ∃ p, heap_ (client_dispatch client_response client_again) !! 1%nat = Some p ∧
    op_result (pr_operation p) = Some (mkResult StatusCode.malformed_frame "duplicate terminal frame").
Proof.
  split; [vm_compute; reflexivity|].
  assert ((start_request demo_registry listening_hooks 2%nat demo_message
    (client_dispatch client_response client_one)).1 = StartReturned (start_success 1)) as Hok by (vm_compute; reflexivity).
  unfold client_again, client_start.
  destruct (start_request demo_registry listening_hooks 2%nat demo_message (client_dispatch client_response client_one))
    as [r c2] eqn:Hst. cbn [fst snd] in *. subst r.
  destruct (recycled_stream_fails_connection demo_registry listening_hooks new_tcp_transport sample_limits 9
    client_one (mkId 1) 0 client_response 2%nat demo_message (StartReturned (start_success 1)) c2 1 client_response
    sample_limits_wf client_range client_one_reachable) as (Hs & _ & Ho & Hfail);
    [vm_compute; reflexivity|vm_decide|exact client_one_lower|vm_compute; reflexivity..|exact Hst|by left|
     vm_compute; reflexivity|vm_compute; reflexivity|].
  split; [exact Hs|]. split; [exact Ho|]. apply Hfail. by left.
Defined.

End sample.
