(* ===== verification/ClientRaces.v ===== *)
(** * Races at a client

    What happens when the end of a request crosses something that was already under way: a
    response that the server sent before it saw the cancellation, a deadline whose handler
    runs when the request has ended, a shutdown that comes before [run]. *)

From S2P Require Import Prelude Identifiers Status Frame FrameCodec FrameDecoder ProtocolViolation.
From S2P Require Import Lifecycle Diagnostics Operation StreamIdAllocator Codec MessageRegistry MessageCodec.
From S2P Require Import Transport Channel Timer WriteQueue ClientConnection.

Local Open Scope Z_scope.

Section races.
Context {Ch : Type → Type} `{!Channel Ch} `{!ChannelLaws Ch} {T : Type} `{!Transport T} `{!TransportLaws T}.
Context {Tm : Type} `{!SteadyTimer Tm} `{!SteadyTimerLaws Tm}.
Context `{!MapBegin} `{!MapBeginLaws}.
Context {TypeIndex : Type} `{Countable TypeIndex} {msg : TypeIndex → Type} `{C : !Codec TypeIndex msg}.
Context `{!CodecLaws TypeIndex msg}.
Context (registry_ : MessageRegistry (TypeIndex := TypeIndex)) (diagnostics_ : DiagnosticsHooks).

Implicit Types c : ClientConnection (Ch := Ch) (Tm := Tm) (T := T).

(** ** A response that crosses a cancellation *)

(** A frame on a stream that is not in the table takes the connection down. *)
Lemma unknown_stream_fails frame c :
  conn_inv diagnostics_ c → type (header frame) = FrameType.response →
  pending_ c !! stream (header frame) = None →
  let c' := dispatch diagnostics_ frame c in
  pending_ c' = ∅ ∧ t_is_open (transport_ c') = false ∧
  (∀ l p, heap_ c !! l = Some p → pr_removed p = false →
     ∃ p', heap_ c' !! l = Some p' ∧
       failed_with StatusCode.unknown_stream "response received for an unknown stream" p p').
Proof.
  intros Hc Hty Hn. cbv zeta.
  assert (violation frame c = Some (StatusCode.unknown_stream, "response received for an unknown stream"%string))
    as Hv by (unfold violation; by rewrite Hty, decide_True).
  destruct (dispatch_violation diagnostics_ _ _ _ _ Hv) as (-> & Hne & Hcat).
  unfold fail_connection. rewrite decide_True by done. set (c1 := notify _ _ c).
  assert (conn_inv diagnostics_ c1) as Hc1 by (by apply inv_notify).
  destruct (fail_pending_spec diagnostics_ _ "response received for an unknown stream" c1 Hne Hc1)
    as [_ He _ _ _ _ _ _ _ _ Hlive].
  simpl. split_and!; [done|apply t_close_closes|exact Hlive].
Qed.

(** The two ways a running request is ended by its own side. *)
Definition ended_early (l : nat) c c1 : Prop :=
  (∃ m, c1 = (cancel_pending l m c).2) ∨ c1 = timeout_pending l c.

Lemma ended_early_outcome l c c1 p :
  conn_inv diagnostics_ c → heap_ c !! l = Some p → pr_removed p = false → ended_early l c c1 →
  conn_inv diagnostics_ c1 ∧ pending_ c1 = delete (op_stream (pr_operation p)) (pending_ c) ∧
  ∀ l', l' ≠ l → heap_ c1 !! l' = heap_ c !! l'.
Proof.
  intros Hc Hp Hrem He.
  assert (∃ f, ending f ∧ (call_operation l f c).1 = true ∧
    c1 = cleanup_pending l false (close_channel l (send_cancellation
           (stream_of l (call_operation l f c).2) (call_operation l f c).2))) as (f & Hf & _ & ->).
  { destruct He as [[m ->]| ->].
    - pose proof (cancel_ending (E := DiagnosticsEvent) m) as Hf. exists (cancel m). split; [done|].
      destruct (end_early_outcome diagnostics_ _ l c p Hc Hp Hrem Hf) as (op & es & _ & Hb & _).
      unfold cancel_pending. destruct (call_operation _ _ c) as [b c1]. simpl in *. by subst.
    - pose proof (timeout_ending (E := DiagnosticsEvent) "operation deadline exceeded") as Hf.
      exists (timeout "operation deadline exceeded"). split; [done|].
      destruct (end_early_outcome diagnostics_ _ l c p Hc Hp Hrem Hf) as (op & es & _ & Hb & _).
      unfold timeout_pending. destruct (call_operation _ _ c) as [b c1]. simpl in *. by subst. }
  split; [by apply cancelled_inv|].
  destruct (end_early_outcome diagnostics_ f l c p Hc Hp Hrem Hf) as (op & es & _ & _ & Hh & Hpe & _).
  split; [done|]. intros l' Hne. rewrite Hh. by apply list_lookup_insert_ne.
Qed.

(** C24: a response that was sent before the server saw the cancellation takes the whole
    connection down: once a running request was cancelled or timed out, any response on its
    stream is taken for one on an unknown stream, the transport is closed and every other
    request fails with [unknown_stream]. *)
Theorem crossing_response_fails_connection t limits maximum c l p c1 frame :
  limits_wf limits → in_u 64 maximum → creachable registry_ diagnostics_ t limits maximum c →
  heap_ c !! l = Some p → is_terminal (pr_operation p) = false → ended_early l c c1 →
  type (header frame) = FrameType.response → stream (header frame) = op_stream (pr_operation p) →
  let c2 := dispatch diagnostics_ frame c1 in
  pending_ c2 = ∅ ∧ t_is_open (transport_ c2) = false ∧
  ∀ l' q, l' ≠ l → heap_ c !! l' = Some q → is_terminal (pr_operation q) = false →
    ∃ q', heap_ c2 !! l' = Some q' ∧
      failed_with StatusCode.unknown_stream "response received for an unknown stream" q q'.
Proof.
  intros Hl Hm Hr Hp Ht He Hty Hs. pose proof (creachable_inv _ _ _ _ _ _ Hl Hm Hr) as Hc.
  rewrite <-(oi_removed _ _ (ci_objects _ _ Hc _ _ Hp)) in Ht.
  destruct (ended_early_outcome l c c1 p Hc Hp Ht He) as (Hc1 & Hpe & Hh).
  destruct (unknown_stream_fails frame c1 Hc1 Hty) as (Hemp & Ho & Hfail).
  { by rewrite Hpe, Hs, lookup_delete_eq. }
  split_and!; [done..|]. intros l' q Hne Hq Hqt. apply Hfail; [by rewrite Hh|].
  by rewrite (oi_removed _ _ (ci_objects _ _ Hc _ _ Hq)).
Qed.

(** ** A deadline that expires late *)

Lemma timer_completes_once l e c c' p :
  heap_ c !! l = Some p → timer_handler l e c = Some c' →
  waiting (tm_view (pr_timer p)) = true ∧
  ∃ tm, tm_complete e (pr_timer p) = Some tm ∧ waiting (tm_view tm) = false ∧
    let c1 := modify l (λ p, mkPending (pr_channel p) tm (pr_operation p) (pr_removed p)
                               (pr_stream_released p)) c in
    c' = (if negb e then timeout_pending l c1 else c1).
Proof.
  intros Hp. unfold timer_handler. rewrite Hp. simpl.
  destruct (tm_complete e (pr_timer p)) as [tm|] eqn:E; [|done]. simpl. intros [= <-].
  pose proof (tm_view_complete e (pr_timer p)) as Hv. rewrite E in Hv. simpl in Hv.
  symmetry in Hv. apply view_complete_waiting in Hv as (? & ? & _). split; [done|]. by exists tm.
Qed.

Lemma timer_handler_idle l e c p :
  heap_ c !! l = Some p → waiting (tm_view (pr_timer p)) = false → timer_handler l e c = None.
Proof.
  intros Hp Hw. unfold timer_handler. rewrite Hp. simpl.
  destruct (tm_complete e (pr_timer p)) as [tm|] eqn:E; [|done].
  pose proof (tm_view_complete e (pr_timer p)) as Hv. rewrite E in Hv. symmetry in Hv.
  apply view_complete_waiting in Hv as (? & _). congruence.
Qed.

Lemma waiting_cancel tm : waiting (tm_view tm) = false → waiting (tm_view (tm_cancel tm)) = false.
Proof. rewrite tm_view_cancel. unfold waiting, view_cancel. simpl. by destruct (tv_wait _). Qed.

(** C25: the wait for a deadline completes at most once, and late completions are harmless:
    a wait that was cancelled, or one that completes when its request has already ended -
    which happens when the two race - leaves the connection as it is; one that completes
    while the request runs ends it, and only it, with [timeout_error]. *)
Theorem timer_handler_outcome t limits maximum c l p error c' :
  limits_wf limits → in_u 64 maximum → creachable registry_ diagnostics_ t limits maximum c →
  heap_ c !! l = Some p → timer_handler l error c = Some c' →
  (∀ error', timer_handler l error' c' = None) ∧
  (∀ l', l' ≠ l → heap_ c' !! l' = heap_ c !! l') ∧
  if error || is_terminal (pr_operation p) then
    pending_ c' = pending_ c ∧ write_queue_ c' = write_queue_ c ∧ transport_ c' = transport_ c ∧
    stream_ids_ c' = stream_ids_ c ∧ log_ c' = log_ c ∧
    ∃ p', heap_ c' !! l = Some p' ∧ pr_operation p' = pr_operation p ∧ pr_channel p' = pr_channel p
  else
    pending_ c' = delete (op_stream (pr_operation p)) (pending_ c) ∧ transport_ c' = transport_ c ∧
    ∃ p', heap_ c' !! l = Some p' ∧
      failed_with StatusCode.timeout_error "operation deadline exceeded" p p'.
Proof.
  intros Hl Hm Hr Hp Hh. pose proof (creachable_inv _ _ _ _ _ _ Hl Hm Hr) as Hc.
  destruct (timer_completes_once l error c c' p Hp Hh) as (_ & tm & _ & Hw & ->). cbv zeta.
  set (c1 := modify l _ c).
  set (p1 := mkPending (pr_channel p) tm (pr_operation p) (pr_removed p) (pr_stream_released p)).
  assert (heap_ c1 = <[l := p1]> (heap_ c)) as Hh1 by (unfold c1; simpl; by rewrite (alter_insert _ _ _ _ Hp)).
  assert (heap_ c1 !! l = Some p1) as Hp1
    by (rewrite Hh1; apply list_lookup_insert_eq; by eapply lookup_lt_Some).
  assert (∀ l', l' ≠ l → heap_ c1 !! l' = heap_ c !! l') as Hrest
    by (intros l' Hne; rewrite Hh1; by apply list_lookup_insert_ne).
  assert (conn_inv diagnostics_ c1) as Hc1.
  { apply modify_inv; [done|]. intros q Hq. split_and!; auto.
    destruct (ci_objects _ _ Hc _ _ Hq). split; simpl; auto. split; simpl; auto. }
  assert (pr_removed p1 = is_terminal (pr_operation p)) as Hrm by apply (ci_objects _ _ Hc _ _ Hp).
  destruct error; simpl.
  { split_and!; auto; [intros e; by eapply timer_handler_idle|]. by exists p1. }
  destruct (is_terminal (pr_operation p)) eqn:Ht.
  - assert (timeout_pending l c1 = c1) as ->.
    { pose proof (timeout_ending (E := DiagnosticsEvent) "operation deadline exceeded") as Hend.
      pose proof (call_operation_refused diagnostics_ l _ c1 Hc1 Hend) as Href. unfold timeout_pending.
      destruct (end_request_settles diagnostics_ _ false l c1 p1 Hc1 Hp1 Hend) as (op & es & _ & Hcall & _).
      rewrite Hrm in Hcall. rewrite Hcall in *. simpl in *. auto. }
    split_and!; auto; [intros e; by eapply timer_handler_idle|]. by exists p1.
  - pose proof (timeout_ending (E := DiagnosticsEvent) "operation deadline exceeded") as Hend.
    destruct (end_early_outcome diagnostics_ _ l c1 p1 Hc1 Hp1 Hrm Hend)
      as (op & es & Hf & Hb & Hheap & Hpend & _ & _ & Htr & _).
    unfold timeout_pending. destruct (call_operation l (timeout "operation deadline exceeded") c1) as [b c2].
    simpl in Hb. subst b. cbn [snd] in *. set (c3 := cleanup_pending l false _) in *. cbn [negb].
    assert (l < length (heap_ c1))%nat as Hlt by (by eapply lookup_lt_Some).
    split_and!; [| | |done|].
    + intros e. eapply timer_handler_idle; [rewrite Hheap; by apply list_lookup_insert_eq|]. simpl.
      destruct (pr_removed p); [done|by apply waiting_cancel].
    + intros l' Hne. rewrite Hheap, list_lookup_insert_ne by done. by apply Hrest.
    + by rewrite Hpend.
    + eexists. split; [rewrite Hheap; by apply list_lookup_insert_eq|].
      unfold failed_with. simpl. rewrite ch_view_close. by destruct (timeout_result _ _ _ _ Hf).
Qed.

(** ** A shutdown before [run] *)

(** A connection that is shut down before it runs reports that it was closed and never
    that it was opened; [run] then ends at once. *)
Theorem shutdown_before_run t limits maximum start now period :
  let c := (shutdown diagnostics_ start now period (new_client diagnostics_ t limits maximum)).2 in
  let '(c', _, rpc) := run diagnostics_ c in
  rpc = ReadEnded ∧ state c' = ConnectionState.closed ∧ closed_ (write_queue_ c') = true ∧
  log_ c' = notify_diagnostics diagnostics_
    (mkEvent DiagnosticsEventType.connection_closed default_id StatusCode.connection_closed 0 false
       "connection closed").
Proof.
  cbv zeta. unfold shutdown, shutdown_poll, begin_shutdown. simpl.
  rewrite bool_decide_eq_true_2 by done. simpl. unfold shutdown_finish. simpl.
  rewrite decide_True by done. unfold run. simpl.
  unfold read_loop_head. simpl. rewrite t_close_closes. simpl. unfold fail_pending. simpl.
  by rewrite map_size_empty.
Qed.

End races.

(** ** Witnesses *)

Section sample.
#[local] Existing Instance demo_codec.
#[local] Instance demo_races_codec_laws : CodecLaws nat (pod_value (λ t, t)) := PodCodec_laws _ _.

Local Abbreviation Client := (ClientConnection (Ch := ListChannel) (Tm := ViewTimer) (T := TcpTransport)).
Local Abbreviation reachable :=
  (creachable demo_registry listening_hooks new_tcp_transport sample_limits 9).

(** Two requests, on streams 1 and 3. *)
Definition client_two : Client := client_start client_one.

Lemma client_two_reachable : reachable client_two.
Proof.
  eapply rtc_r; [apply client_one_reachable|].
  apply (cstep_start demo_registry listening_hooks _ 2%nat demo_message).
Qed.

(** The first is cancelled, its response arrives: the second fails. *)
Lemma crossing_response_fails_connection_witness :
  ∃ q', heap_ (client_dispatch client_response (cancel_pending 0 "changed my mind" client_two).2) !! 1%nat = Some q' ∧
    op_result (pr_operation q')
      = Some (mkResult StatusCode.unknown_stream "response received for an unknown stream").
Proof.
  assert (∃ p q, heap_ client_two = [p; q] ∧ is_terminal (pr_operation p) = false ∧
    is_terminal (pr_operation q) = false ∧ op_stream (pr_operation p) = mkId 1) as (p & q & Hh & Hp & Hq & Hs)
    by (eexists _, _; split_and!; vm_compute; reflexivity).
  destruct (crossing_response_fails_connection demo_registry listening_hooks new_tcp_transport sample_limits 9
    client_two 0 p (cancel_pending 0 "changed my mind" client_two).2 client_response
    sample_limits_wf client_range client_two_reachable) as (_ & _ & Hfail).
  - by rewrite Hh.
  - done.
  - left. by eexists.
  - reflexivity.
  - rewrite Hs. reflexivity.
  - destruct (Hfail 1%nat q) as (q' & Hq' & _ & Hres & _); [done|by rewrite Hh|done|].
    exists q'. split; [exact Hq'|exact Hres].
Defined.

(** The first request has a deadline, which expires. *)
Definition client_deadline : Client := (start_request_deadline 50 (start_success 0) client_one).2.

Definition client_expired : Client := default client_deadline (timer_handler 0 false client_deadline).

Lemma client_deadline_reachable : reachable client_deadline.
Proof. eapply rtc_r; [apply client_one_reachable|]. apply cstep_deadline. Qed.

Lemma timer_handler_outcome_witness :
  pending_ client_expired = ∅ ∧ ∀ error', timer_handler 0 error' client_expired = None.
Proof.
  assert (∃ p, heap_ client_deadline !! 0%nat = Some p) as [p Hp] by (eexists; vm_compute; reflexivity).
  split; [vm_compute; reflexivity|].
  apply (timer_handler_outcome demo_registry listening_hooks new_tcp_transport sample_limits 9
    client_deadline 0 p false client_expired sample_limits_wf client_range client_deadline_reachable Hp).
  vm_compute. reflexivity.
Defined.

Lemma shutdown_before_run_witness :
  log_ (run listening_hooks (shutdown listening_hooks 0 0 10 client_new).2).1.1
    = [mkEvent DiagnosticsEventType.connection_closed default_id StatusCode.connection_closed 0 false
         "connection closed"].
Proof.
  pose proof (shutdown_before_run (Ch := ListChannel) (Tm := ViewTimer) listening_hooks new_tcp_transport
    sample_limits 9 0 0 10) as Hr. cbv zeta in Hr. fold client_new in Hr.
  destruct (run listening_hooks _) as [[c pc] rpc]. destruct Hr as (_ & _ & _ & Hlog). simpl.
  rewrite Hlog. vm_compute. reflexivity.
Defined.

End sample.
