(* ===== verification/ServerConnection.v ===== *)
(** * The server connection

    [include/rillnet/server_connection.hpp]: one connection that dispatches request frames to
    typed handlers.  Every request that is accepted runs as a coroutine of its own
    ([run_handler]); the coroutines are part of the state, cut at their suspension points.
    What an application's handler does between its call and its end comes from the
    environment: it returns some response, or throws. *)

From S2P Require Import Prelude Identifiers Status Frame FrameCodec FrameDecoder ProtocolViolation.
From S2P Require Import Lifecycle Diagnostics Operation Codec MessageRegistry MessageCodec.
From S2P Require Import Transport Channel WriteQueue.

Local Open Scope Z_scope.

(** The order in which a range-based [for] visits an [unordered_map] is unspecified. *)
Class MapTraversal := map_traversal : gmap StreamId nat → list (StreamId * nat).

Class MapTraversalLaws `{!MapTraversal} : Prop :=
  map_traversal_entries m : map_traversal m ≡ₚ map_to_list m.

Section server.
Context {Ch : Type → Type} `{!Channel Ch} {T : Type} `{!Transport T} `{!MapTraversal}.
Context {TypeIndex : Type} `{Countable TypeIndex} {msg : TypeIndex → Type} `{C : !Codec TypeIndex msg}.
Context (registry_ : MessageRegistry (TypeIndex := TypeIndex)) (diagnostics_ : DiagnosticsHooks).

(** ** State *)

(** A registered handler: its [Request] and [Response] types. *)
Record RequestHandler := mkHandler {
  rh_request : TypeIndex;
  rh_response : TypeIndex;
}.

(** Where a [run_handler] coroutine is: not yet started, in the application's handler, or in
    [write_queue_.enqueue(response)]. *)
Inductive HandlerPc :=
  | HandlerSpawned
  | HandlerCalled
  | HandlerEnqueuing (response : Frame).

Record HandlerTask := mkTask {
  task_handler : RequestHandler;
  task_frame : Frame;
  task_operation : nat;
  task_pc : HandlerPc;
}.

Definition task_stream (k : HandlerTask) : StreamId := stream (header (task_frame k)).

(** The members that change, the store of the shared [Operation] objects, the coroutines
    that were spawned and have not ended, and the calls of the diagnostics observer. *)
Record ServerConnection := mkServer {
  transport_ : T;
  write_queue_ : WriteQueue (Ch := Ch);
  decoder_ : FrameDecoder;
  handlers_ : gmap MessageType RequestHandler;
  operations_ : gmap StreamId nat;
  terminal_streams_ : gset StreamId;
  active_handlers_ : Z;
  reading_ : bool;
  lifecycle_ : ConnectionState;
  closed_notified_ : bool;
  store_ : list (Operation DiagnosticsEvent);
  tasks_ : list HandlerTask;
  log_ : list DiagnosticsEvent;
}.

Implicit Types c : ServerConnection.

Definition set_transport (t : T) c : ServerConnection :=
  mkServer t (write_queue_ c) (decoder_ c) (handlers_ c) (operations_ c) (terminal_streams_ c)
    (active_handlers_ c) (reading_ c) (lifecycle_ c) (closed_notified_ c) (store_ c) (tasks_ c) (log_ c).
Definition set_write_queue (q : WriteQueue (Ch := Ch)) c : ServerConnection :=
  mkServer (transport_ c) q (decoder_ c) (handlers_ c) (operations_ c) (terminal_streams_ c)
    (active_handlers_ c) (reading_ c) (lifecycle_ c) (closed_notified_ c) (store_ c) (tasks_ c) (log_ c).
Definition set_decoder (d : FrameDecoder) c : ServerConnection :=
  mkServer (transport_ c) (write_queue_ c) d (handlers_ c) (operations_ c) (terminal_streams_ c)
    (active_handlers_ c) (reading_ c) (lifecycle_ c) (closed_notified_ c) (store_ c) (tasks_ c) (log_ c).
Definition set_handlers (h : gmap MessageType RequestHandler) c : ServerConnection :=
  mkServer (transport_ c) (write_queue_ c) (decoder_ c) h (operations_ c) (terminal_streams_ c)
    (active_handlers_ c) (reading_ c) (lifecycle_ c) (closed_notified_ c) (store_ c) (tasks_ c) (log_ c).
Definition set_terminal_streams (s : gset StreamId) c : ServerConnection :=
  mkServer (transport_ c) (write_queue_ c) (decoder_ c) (handlers_ c) (operations_ c) s
    (active_handlers_ c) (reading_ c) (lifecycle_ c) (closed_notified_ c) (store_ c) (tasks_ c) (log_ c).
Definition set_reading (b : bool) c : ServerConnection :=
  mkServer (transport_ c) (write_queue_ c) (decoder_ c) (handlers_ c) (operations_ c)
    (terminal_streams_ c) (active_handlers_ c) b (lifecycle_ c) (closed_notified_ c) (store_ c)
    (tasks_ c) (log_ c).
Definition set_lifecycle (s : ConnectionState) c : ServerConnection :=
  mkServer (transport_ c) (write_queue_ c) (decoder_ c) (handlers_ c) (operations_ c)
    (terminal_streams_ c) (active_handlers_ c) (reading_ c) s (closed_notified_ c) (store_ c)
    (tasks_ c) (log_ c).
Definition set_closed_notified (b : bool) c : ServerConnection :=
  mkServer (transport_ c) (write_queue_ c) (decoder_ c) (handlers_ c) (operations_ c)
    (terminal_streams_ c) (active_handlers_ c) (reading_ c) (lifecycle_ c) b (store_ c) (tasks_ c)
    (log_ c).
Definition set_store (s : list (Operation DiagnosticsEvent)) c : ServerConnection :=
  mkServer (transport_ c) (write_queue_ c) (decoder_ c) (handlers_ c) (operations_ c)
    (terminal_streams_ c) (active_handlers_ c) (reading_ c) (lifecycle_ c) (closed_notified_ c) s
    (tasks_ c) (log_ c).

(** The three members that describe the running handlers change together. *)
Definition set_running (ops : gmap StreamId nat) (n : Z) (ks : list HandlerTask) c : ServerConnection :=
  mkServer (transport_ c) (write_queue_ c) (decoder_ c) (handlers_ c) ops (terminal_streams_ c) n
    (reading_ c) (lifecycle_ c) (closed_notified_ c) (store_ c) ks (log_ c).

Definition log_events (es : list DiagnosticsEvent) c : ServerConnection :=
  mkServer (transport_ c) (write_queue_ c) (decoder_ c) (handlers_ c) (operations_ c)
    (terminal_streams_ c) (active_handlers_ c) (reading_ c) (lifecycle_ c) (closed_notified_ c)
    (store_ c) (tasks_ c) (log_ c ++ es).

Definition notify (e : DiagnosticsEvent) c : ServerConnection :=
  log_events (notify_diagnostics diagnostics_ e) c.

Definition write_observer (f : Frame) (bytes : Z) : list DiagnosticsEvent :=
  notify_diagnostics diagnostics_
    (mkEvent DiagnosticsEventType.bytes_transferred default_id StatusCode.ok bytes false EmptyString)
  ++ notify_diagnostics diagnostics_
    (mkEvent DiagnosticsEventType.message_transferred (stream (header f)) StatusCode.ok 0 false
       EmptyString).

Definition new_server (t : T) (limits : WriteQueueLimits) : ServerConnection :=
  mkServer t (new_queue limits (Some write_observer)) (new_decoder default_max_payload_size) ∅ ∅ ∅ 0
    true ConnectionState.created false [] [] [].

Definition state c : ConnectionState := lifecycle_ c.

Definition transition (next : ConnectionState) c : ServerConnection :=
  set_lifecycle (connection_transition (lifecycle_ c) next).2 c.

(** A call of an [Operation] method on the object at [l], its result and its effects. *)
Definition call_operation (l : nat)
    (f : Operation DiagnosticsEvent → bool * Operation DiagnosticsEvent * list DiagnosticsEvent)
    c : bool * ServerConnection :=
  match store_ c !! l with
  | None => (false, c)
  | Some op =>
      let '(b, op, events) := f op in
      (b, log_events events (set_store (<[l := op]> (store_ c)) c))
  end.

(** [request_cancellation] has no effects to log. *)
Definition silent (f : Operation DiagnosticsEvent → bool * Operation DiagnosticsEvent)
    (op : Operation DiagnosticsEvent) : bool * Operation DiagnosticsEvent * list DiagnosticsEvent :=
  (f op, []).

(** ** Helpers *)

Definition send_operation_error (s : StreamId) (status : StatusCode) c : ServerConnection :=
  set_write_queue (try_enqueue (make_error_frame s status) (write_queue_ c)).2 c.

Definition mark_terminal (frame : Frame) c : ServerConnection :=
  if has_flag (flags (header frame)) FrameFlags.end_of_stream then
    set_terminal_streams ({[stream (header frame)]} ∪ terminal_streams_ c) c
  else c.

Definition close_queue_when_idle c : ServerConnection :=
  if negb (reading_ c) && (active_handlers_ c =? 0) then
    set_write_queue (close (write_queue_ c)) c
  else c.

Definition fail_connection (status : StatusCode) (message : string) c : ServerConnection :=
  let c :=
    if decide (status_category status = StatusCategory.protocol) then
      notify (mkEvent DiagnosticsEventType.protocol_error default_id status 0 true message) c
    else c in
  set_transport (t_close (transport_ c)) c.

Definition notify_closed c : ServerConnection :=
  if closed_notified_ c then c
  else
    notify (mkEvent DiagnosticsEventType.connection_closed default_id StatusCode.connection_closed 0
              false "connection closed")
      (set_closed_notified true c).

Definition begin_shutdown c : ServerConnection :=
  let c :=
    if decide (lifecycle_ c = ConnectionState.created) then
      transition ConnectionState.active (transition ConnectionState.accepting c)
    else c in
  if decide (lifecycle_ c = ConnectionState.active) then transition ConnectionState.draining c else c.

Definition fail_operation (l : nat) c : ServerConnection :=
  let c := (call_operation l (silent request_cancellation) c).2 in
  (call_operation l (fail_op StatusCode.connection_closed
                       "connection closed while processing a request") c).2.

Definition fail_operations_on_connection_close c : ServerConnection :=
  foldl (λ c '(_, l), fail_operation l c) c (map_traversal (operations_ c)).

(** ** Requests *)

(** [handle<Request, Handler>]. *)
Definition handle (request response : TypeIndex) c : ServerConnection :=
  match message_type_of request current_protocol_version registry_ with
  | None => c
  | Some id => set_handlers (<[id := mkHandler request response]> (handlers_ c)) c
  end.

(** The completion handler of an operation. *)
Definition request_handler (s : StreamId) (r : OperationResult) : list DiagnosticsEvent :=
  let type :=
    if decide (res_status r = StatusCode.cancelled) then DiagnosticsEventType.cancellation
    else if decide (res_status r = StatusCode.timeout_error) then DiagnosticsEventType.timeout
    else DiagnosticsEventType.request_completed in
  notify_diagnostics diagnostics_ (mkEvent type s (res_status r) 0 false (res_message r)).

Definition new_request_operation (s : StreamId) : Operation DiagnosticsEvent :=
  (activate (set_completion_handler (Some (request_handler s)) (new_operation s None))).2.

Definition dispatch (frame : Frame) c : ServerConnection :=
  let s := stream (header frame) in
  if bool_decide (lifecycle_ c = ConnectionState.draining)
     || bool_decide (lifecycle_ c = ConnectionState.closing)
     || bool_decide (lifecycle_ c = ConnectionState.closed) then
    mark_terminal frame (send_operation_error s StatusCode.connection_closed c)
  else if negb (bool_decide (type (header frame) = FrameType.request)) then
    fail_connection StatusCode.malformed_frame "server received a non-request frame" c
  else if decide (s ∈ terminal_streams_ c) then
    fail_connection StatusCode.malformed_frame "duplicate terminal frame" c
  else if has_flag (flags (header frame)) FrameFlags.cancel then
    match operations_ c !! s with
    | Some l => mark_terminal frame (call_operation l (cancel "operation cancelled by peer") c).2
    | None => fail_connection StatusCode.unknown_stream "cancellation for an unknown stream" c
    end
  else
    match peek_message_type (payload frame) with
    | None => mark_terminal frame (send_operation_error s StatusCode.decode_error c)
    | Some message_type =>
        match handlers_ c !! message_type with
        | None => mark_terminal frame (send_operation_error s StatusCode.unknown_message_type c)
        | Some handler =>
            match operations_ c !! s with
            | Some _ => set_transport (t_close (transport_ c)) c
            | None =>
                let l := length (store_ c) in
                let c := set_store (store_ c ++ [new_request_operation s]) c in
                let c := notify (event_on_stream DiagnosticsEventType.request_started s) c in
                set_running (<[s := l]> (operations_ c)) (uwrap 64 (active_handlers_ c + 1))
                  (tasks_ c ++ [mkTask handler frame l HandlerSpawned]) c
            end
        end
    end.

Fixpoint dispatch_frames (frames : list Frame) c : ServerConnection :=
  match frames with
  | [] => c
  | frame :: frames =>
      let c := notify (mkEvent DiagnosticsEventType.message_transferred (stream (header frame))
                         StatusCode.ok 0 true EmptyString) c in
      let c := dispatch frame c in
      if negb (t_is_open (transport_ c)) then c else dispatch_frames frames c
  end.

(** ** Handler coroutines *)

(** The end of [run_handler], for the coroutine at position [i]. *)
Definition handler_end (i : nat) (k : HandlerTask) c : ServerConnection :=
  close_queue_when_idle
    (set_running (delete (task_stream k) (operations_ c)) (uwrap 64 (active_handlers_ c - 1))
       (delete i (tasks_ c)) c).

Definition set_task_pc (i : nat) (k : HandlerTask) (pc : HandlerPc) c : ServerConnection :=
  set_running (operations_ c) (active_handlers_ c)
    (<[i := mkTask (task_handler k) (task_frame k) (task_operation k) pc]> (tasks_ c)) c.

(** The coroutine starts: it decodes the request and calls the application's handler. *)
Definition handler_start (i : nat) (k : HandlerTask) c : ServerConnection :=
  let request := decode_message registry_ (rh_request (task_handler k)) (task_frame k) in
  if negb (decode_ok request) then
    let c := (call_operation (task_operation k) (fail_op (dec_status request) (dec_message request)) c).2 in
    let c := send_operation_error (task_stream k) (dec_status request) c in
    handler_end i k c
  else set_task_pc i k HandlerCalled c.

(** The [enqueue] of the response has returned or suspended. *)
Definition handler_enqueue (i : nat) (k : HandlerTask) (f : Frame) (r : EnqueueStep) c : ServerConnection :=
  match r with
  | EnqueueReturned _ => handler_end i k c
  | EnqueueWaiting => set_task_pc i k (HandlerEnqueuing f) c
  end.

(** [frame->header.flags |= FrameFlags::end_of_stream] *)
Definition end_stream (f : Frame) : Frame :=
  let h := header f in
  mkFrame (mkHeader (version h) (type h) (flags_or_assign (flags h) FrameFlags.end_of_stream)
             (stream h) (payload_size h)) (payload f).

(** The application's handler returned a response. *)
Definition handler_returned (i : nat) (k : HandlerTask) (v : msg (rh_response (task_handler k))) c
    : ServerConnection :=
  let encoded := encode_message_default registry_ (rh_response (task_handler k)) v (task_stream k)
                   FrameType.response in
  match (if frame_encode_ok encoded then fe_frame encoded else None) with
  | None => handler_end i k c
  | Some f =>
      let '(completed, c) := call_operation (task_operation k) (complete "response ready") c in
      if negb completed then handler_end i k c
      else
        let f := end_stream f in
        let '(r, q) := enqueue f (write_queue_ c) in
        handler_enqueue i k f r (set_write_queue q c)
  end.

(** The application's handler threw: the exception is dropped. *)
Definition handler_threw (i : nat) (k : HandlerTask) c : ServerConnection := handler_end i k c.

(** The suspended [enqueue] resumes. *)
Definition handler_resume (i : nat) (k : HandlerTask) (f : Frame) (what : string) c
    : option ServerConnection :=
  '(r, q) ← enqueue_resume f what (write_queue_ c);
  Some (handler_enqueue i k f r (set_write_queue q c)).

(** [SessionContext], as the application's handler sees it. *)
Definition is_cancelled (k : HandlerTask) c : bool :=
  match store_ c !! task_operation k with
  | Some op => op_cancellation_requested op
  | None => false
  end.

(** [stream_id], the member the constructor copies from the frame. *)
Definition session_stream_id (k : HandlerTask) : StreamId := task_stream k.

(** [throw_if_cancelled]: the text of the exception, if it throws. *)
Definition throw_if_cancelled (k : HandlerTask) c : option string :=
  if is_cancelled k c then Some cancellation_error_what else None.

(** ** The read loop *)

Inductive ReadPc := ReadNotStarted | ReadWaiting | ReadEnded.

Definition read_loop_exit (connection_lost : bool) c : ReadPc * ServerConnection :=
  let c := if connection_lost then fail_operations_on_connection_close c else c in
  let c := set_reading false c in
  let c := close_queue_when_idle c in
  let c := transition ConnectionState.closed c in
  (ReadEnded, notify_closed c).

(** The head of the loop.  A [read] that returns zero bytes at once ends it. *)
Definition read_loop_head c : ReadPc * ServerConnection :=
  if t_is_open (transport_ c) then
    if t_read_begin (transport_ c) then (ReadWaiting, c)
    else read_loop_exit (negb (t_is_open (transport_ c))) c
  else read_loop_exit false c.

Definition read_loop_resume (io : ReadIo) c : option (ReadPc * ServerConnection) :=
  let '(r, t) := t_read_end io (transport_ c) in
  let c := set_transport t c in
  match r with
  | ReadThrow _ => Some (read_loop_exit true c)
  | ReadBytes [] => Some (read_loop_exit (negb (t_is_open (transport_ c))) c)
  | ReadBytes bytes =>
      let c := notify (mkEvent DiagnosticsEventType.bytes_transferred default_id StatusCode.ok
                         (Z.of_nat (length bytes)) true EmptyString) c in
      '(d, frames) ← push (decoder_ c) bytes;
      let c := dispatch_frames frames (set_decoder d c) in
      match decoder_error (decoder_ c) with
      | Some error =>
          let c := notify (mkEvent DiagnosticsEventType.protocol_error default_id
                             (status_for_frame_validation error) 0 true
                             (frame_validation_message error)) c in
          Some (read_loop_exit false (set_transport (t_close (transport_ c)) c))
      | None => Some (read_loop_head c)
      end
  end.

Definition run c : ServerConnection * RunPc * ReadPc :=
  let c :=
    if decide (lifecycle_ c = ConnectionState.created) then
      notify (event_of_type DiagnosticsEventType.connection_opened)
        (transition ConnectionState.active (transition ConnectionState.accepting c))
    else c in
  let '(run_pc, q) := run_receive (write_queue_ c) in
  let c := set_write_queue q c in
  let '(read_pc, c) := read_loop_head c in
  (c, run_pc, read_pc).

(** ** Shutting down *)

Inductive ShutdownStep := ShutdownWaiting | ShutdownDone.

Definition shutdown_finish c : ServerConnection :=
  let c := if negb (active_handlers_ c =? 0) then fail_operations_on_connection_close c else c in
  let c := set_transport (t_close (transport_ c)) c in
  let c := transition ConnectionState.closed c in
  notify_closed c.

Definition shutdown_poll (now deadline : Z) c : ShutdownStep * ServerConnection :=
  if negb (active_handlers_ c =? 0) && (now <? deadline) then (ShutdownWaiting, c)
  else (ShutdownDone, shutdown_finish c).

Definition shutdown (start now drain_period : Z) c : ShutdownStep * ServerConnection :=
  shutdown_poll now (start + drain_period) (begin_shutdown c).

Definition shutdown_resume (error : bool) (now deadline : Z) c : ShutdownStep * ServerConnection :=
  if error then (ShutdownDone, shutdown_finish c) else shutdown_poll now deadline c.

(** ** Invariant *)

Context `{!ChannelLaws Ch} `{!TransportLaws T} `{!MapTraversalLaws} `{!CodecLaws TypeIndex msg}.

Local Abbreviation listeners := (listeners diagnostics_).

Record operation_ok (op : Operation DiagnosticsEvent) : Prop := {
  ok_inv : op_inv op;
  ok_activated : op_lifecycle op ≠ OperationState.created;
  ok_handler : op_completion_handler op = Some (request_handler (op_stream op));
}.

(** The operations on stream [s], and those of them that have ended. *)
Definition op_on (s : StreamId) (op : Operation DiagnosticsEvent) : bool := bool_decide (op_stream op = s).
Definition op_ended_on (s : StreamId) (op : Operation DiagnosticsEvent) : bool := op_on s op && is_terminal op.

(** The table holds exactly the streams whose handler runs, each with its own operation, and
    the counter counts them; the observer has heard of every request once when it started
    and once if its operation ended, with its stream. *)
Record server_inv c : Prop := {
  vi_queue : queue_inv (write_queue_ c);
  vi_observer : write_observer_ (write_queue_ c) = Some write_observer;
  vi_decoder : decoder_inv (decoder_ c);
  vi_store l op : store_ c !! l = Some op → operation_ok op;
  vi_streams : NoDup (task_stream <$> tasks_ c);
  vi_tasks k : k ∈ tasks_ c → operations_ c !! task_stream k = Some (task_operation k);
  vi_table s l : operations_ c !! s = Some l →
    s ∈ task_stream <$> tasks_ c ∧ ∃ op, store_ c !! l = Some op ∧ op_stream op = s;
  vi_size : size (operations_ c) = length (tasks_ c);
  vi_active : active_handlers_ c = uwrap 64 (Z.of_nat (length (tasks_ c)));
  vi_fits k f : k ∈ tasks_ c → task_pc k = HandlerEnqueuing f → frame_fits (limits_ (write_queue_ c)) f;
  vi_started : count is_started (log_ c) = (listeners * length (store_ c))%nat;
  vi_ended : count is_ended (log_ c) = (listeners * count is_terminal (store_ c))%nat;
  vi_started_on s : count (on_stream s is_started) (log_ c) = (listeners * count (op_on s) (store_ c))%nat;
  vi_ended_on s : count (on_stream s is_ended) (log_ c) = (listeners * count (op_ended_on s) (store_ c))%nat;
  vi_closed_event : count is_closed_event (log_ c) = (listeners * if closed_notified_ c then 1 else 0)%nat;
  vi_state : settled_state (lifecycle_ c);
}.

(** *** Changes the invariant does not see *)

Lemma sinv_log es c : neutral es → server_inv c → server_inv (log_events es c).
Proof.
  intros (Hs & He & Hc) []. split; simpl; auto; try intros s;
    rewrite count_app, ?(count_on_stream_zero _ _ _ Hs), ?(count_on_stream_zero _ _ _ He), ?Hs, ?He, ?Hc; auto; try lia.
  all: by rewrite Nat.add_0_r.
Qed.

Lemma sinv_notify e c :
  is_started e = false → is_ended e = false → is_closed_event e = false →
  server_inv c → server_inv (notify e c).
Proof. intros. by apply sinv_log; [apply neutral_notify|]. Qed.

Lemma sinv_transport t c : server_inv c → server_inv (set_transport t c).
Proof. by intros []. Qed.

Lemma sinv_terminal ts c : server_inv c → server_inv (set_terminal_streams ts c).
Proof. by intros []. Qed.

Lemma sinv_handlers h c : server_inv c → server_inv (set_handlers h c).
Proof. by intros []. Qed.

Lemma sinv_reading b c : server_inv c → server_inv (set_reading b c).
Proof. by intros []. Qed.

Lemma sinv_decoder d c : decoder_inv d → server_inv c → server_inv (set_decoder d c).
Proof. intros ? []. by split. Qed.

Lemma sinv_lifecycle st c : settled_state st → server_inv c → server_inv (set_lifecycle st c).
Proof. intros ? []. by split. Qed.

Lemma sinv_write_queue q c :
  queue_inv q → write_observer_ q = write_observer_ (write_queue_ c) →
  limits_ q = limits_ (write_queue_ c) → server_inv c → server_inv (set_write_queue q c).
Proof.
  intros ? ? Hl []. split; simpl; auto; [congruence|]. rewrite Hl. done.
Qed.

Lemma sinv_mark_terminal f c : server_inv c → server_inv (mark_terminal f c).
Proof. intros. unfold mark_terminal. case_match; [by apply sinv_terminal|done]. Qed.

Lemma sinv_send_error s st c : server_inv c → server_inv (send_operation_error s st c).
Proof.
  intros Hc. destruct (try_enqueue_constant (make_error_frame s st) (write_queue_ c)) as [Ho Hl].
  apply sinv_write_queue; [|done..]. clear Ho Hl.
  destruct (try_enqueue (make_error_frame s st) (write_queue_ c)) as [r q] eqn:Ht.
  by apply try_enqueue_frame_spec in Ht as [? _]; [|apply Hc].
Qed.

Lemma sinv_close_queue c : server_inv c → server_inv (close_queue_when_idle c).
Proof.
  intros Hc. unfold close_queue_when_idle. destruct (_ && _); [|done].
  apply sinv_write_queue; [apply close_inv, Hc|done..].
Qed.

Lemma sinv_notify_closed c : server_inv c → server_inv (notify_closed c).
Proof.
  intros Hc. unfold notify_closed. destruct (closed_notified_ c) eqn:Hn; [done|].
  destruct Hc. rewrite Hn in *. unfold notify. split; simpl; auto; try intros s;
    rewrite count_app, ?count_on_stream_notify, ?count_notify, ?vi_started_on0, ?vi_ended_on0.
  all: simpl in *; try destruct (bool_decide _); lia.
Qed.

Lemma sinv_fail_connection st m c : server_inv c → server_inv (fail_connection st m c).
Proof.
  intros Hc. apply sinv_transport. case_decide; [by apply sinv_notify|done].
Qed.

Lemma sinv_transition next c :
  next = ConnectionState.draining ∨ next = ConnectionState.closed →
  server_inv c → server_inv (transition next c).
Proof. intros Hn Hc. apply sinv_lifecycle; [apply settled_transition; [done|apply Hc]|done]. Qed.

Lemma sinv_activate c :
  lifecycle_ c = ConnectionState.created → server_inv c →
  server_inv (transition ConnectionState.active (transition ConnectionState.accepting c)).
Proof.
  intros Hl Hc. unfold transition. rewrite Hl. simpl.
  change (server_inv (set_lifecycle ConnectionState.active c)). by apply sinv_lifecycle.
Qed.

#[local] Hint Resolve sinv_log sinv_notify sinv_transport sinv_terminal sinv_handlers sinv_reading : rill.
#[local] Hint Resolve sinv_mark_terminal sinv_send_error sinv_close_queue sinv_notify_closed : rill.
#[local] Hint Resolve sinv_fail_connection sinv_transition sinv_activate : rill.

(** *** Calls on an operation *)

Lemma server_handler_count s r :
  count is_started (request_handler s r) = 0%nat ∧
  count is_ended (request_handler s r) = listeners ∧
  count is_closed_event (request_handler s r) = 0%nat.
Proof.
  unfold request_handler. rewrite !count_notify. unfold is_started, is_ended, is_closed_event. simpl.
  destruct (decide (res_status r = StatusCode.cancelled));
    [|destruct (decide (res_status r = StatusCode.timeout_error))]; simpl; lia.
Qed.

Lemma server_handler_stream s s' r :
  count (on_stream s is_ended) (request_handler s' r)
  = if bool_decide (s' = s) then count is_ended (request_handler s' r) else 0%nat.
Proof. apply count_on_stream_notify. Qed.

(** A call is lawful if it keeps an operation well-formed, never revives it, and reports its
    end, with its stream, exactly when it ends it. *)
Definition lawful (f : Operation DiagnosticsEvent → bool * Operation DiagnosticsEvent * list DiagnosticsEvent) : Prop :=
  ∀ op, operation_ok op →
    let '(_, op', es) := f op in
    operation_ok op' ∧ op_stream op' = op_stream op ∧
    (is_terminal op = true → is_terminal op' = true) ∧
    count is_started es = 0%nat ∧ count is_closed_event es = 0%nat ∧
    count is_ended es = (listeners * if is_terminal op' && negb (is_terminal op) then 1 else 0)%nat ∧
    ∀ s, count (on_stream s is_ended) es = if op_on s op then count is_ended es else 0%nat.

Lemma ending_lawful f : ending f → lawful f.
Proof.
  intros Hf op Ho. pose proof Ho as []. specialize (Hf op ok_inv0 ok_activated0). destruct (is_terminal op) eqn:Ht.
  - rewrite Hf. rewrite Ht. split_and!; auto; try intros s; try destruct (op_on s op); unfold count; simpl; lia.
  - destruct Hf as (op' & r & -> & Hi & Ht' & _ & Hs & Hh & _). rewrite ok_handler0 in *.
    destruct (server_handler_count (op_stream op) r) as (? & ? & ?). rewrite Ht'. simpl.
    split_and!; auto; [|lia|intros; apply server_handler_stream]. split; [done| |congruence].
    intros Hc. rewrite is_terminal_op_terminal, Hc in Ht'. done.
Qed.

Lemma complete_lawful m : lawful (complete m).
Proof.
  intros op Ho. pose proof Ho as []. destruct (is_terminal op) eqn:Ht.
  - unfold complete, finish. rewrite op_terminal_transition by (by rewrite <-is_terminal_op_terminal).
    rewrite Ht. split_and!; auto; try intros s; try destruct (op_on s op); unfold count; simpl; lia.
  - destruct (complete_live m op ok_inv0 ok_activated0 Ht) as (op' & -> & Hi & Hst & Hs & Hh & _).
    rewrite ok_handler0 in *. destruct (server_handler_count (op_stream op) (result_success m)) as (? & ? & ?).
    assert (is_terminal op' = true) as Ht' by (by rewrite is_terminal_op_terminal, Hst).
    rewrite Ht'. simpl. split_and!; auto; [|lia|intros; apply server_handler_stream].
    split; [done|by rewrite Hst|congruence].
Qed.

Lemma request_cancellation_lawful : lawful (silent request_cancellation).
Proof.
  intros op Ho. pose proof Ho as []. unfold silent, request_cancellation. destruct (is_terminal op) eqn:Ht.
  - rewrite Ht. split_and!; auto; try intros s; try destruct (op_on s op); unfold count; simpl; lia.
  - destruct op as [s [] r dl cr to h]; try done; simpl; split_and!; auto; try intros s'; try destruct (op_on _ _);
      unfold count; simpl; try lia; done.
Qed.

Lemma call_operation_lawful l f c : lawful f → server_inv c → server_inv (call_operation l f c).2.
Proof.
  intros Hf Hc. unfold call_operation. destruct (store_ c !! l) as [op|] eqn:Hl; [|done].
  pose proof (vi_store _ Hc _ _ Hl) as Ho. specialize (Hf op Ho).
  destruct (f op) as [[b op'] es]. destruct Hf as (Ho' & Hs & Hmono & Hes & Hec & Hee & Hon).
  assert (l < length (store_ c))%nat as Hlt by (by eapply lookup_lt_Some).
  pose proof (count_insert is_terminal (store_ c) l op op' Hl) as Hcnt.
  destruct Hc. split; simpl; auto; try (intros s; rewrite count_app);
    rewrite ?length_insert, ?count_app, ?Hes, ?Hec, ?Hee; auto; try lia.
  - intros k o Hk. destruct (decide (k = l)) as [->|Hne].
    + rewrite list_lookup_insert_eq in Hk by done. by simplify_eq.
    + rewrite list_lookup_insert_ne in Hk by done. eauto.
  - intros s k Hk. destruct (vi_table0 s k Hk) as (Hin & o & Ho1 & Hst). split; [done|].
    destruct (decide (k = l)) as [->|Hne].
    + exists op'. rewrite list_lookup_insert_eq by done. split; [done|]. congruence.
    + exists o. by rewrite list_lookup_insert_ne.
  - rewrite vi_ended0. destruct (is_terminal op), (is_terminal op'); simpl in *; naive_solver lia.
  - pose proof (count_insert (op_on s) (store_ c) l op op' Hl) as Hcs.
    rewrite (count_on_stream_zero _ _ _ Hes), vi_started_on0. unfold op_on in *. rewrite Hs in Hcs. lia.
  - pose proof (count_insert (op_ended_on s) (store_ c) l op op' Hl) as Hcs. rewrite Hon, Hee, vi_ended_on0.
    unfold op_ended_on, op_on in *. rewrite Hs in Hcs.
    destruct (bool_decide _), (is_terminal op), (is_terminal op'); simpl in *; naive_solver lia.
Qed.

#[local] Hint Resolve call_operation_lawful ending_lawful cancel_ending fail_op_ending : rill.
#[local] Hint Resolve complete_lawful request_cancellation_lawful : rill.

Lemma fail_operation_inv l c : server_inv c → server_inv (fail_operation l c).
Proof.
  intros Hc. apply call_operation_lawful; [by apply ending_lawful, fail_op_ending|auto with rill].
Qed.

Lemma fail_operations_inv c : server_inv c → server_inv (fail_operations_on_connection_close c).
Proof.
  unfold fail_operations_on_connection_close. generalize (map_traversal (operations_ c)) as l.
  intros l. revert c. induction l as [|[s k] l IH]; intros c Hc; simpl; [done|].
  by apply IH, fail_operation_inv.
Qed.

(** *** Handler coroutines *)

Lemma handler_end_inv i k c : tasks_ c !! i = Some k → server_inv c → server_inv (handler_end i k c).
Proof.
  intros Hi Hc. apply sinv_close_queue. destruct Hc.
  pose proof (delete_Permutation (tasks_ c) i k Hi) as Hp.
  pose proof (fmap_Permutation task_stream _ _ Hp) as Hps.
  rewrite Hps in vi_streams0. simpl in vi_streams0. apply NoDup_cons in vi_streams0 as [Hk Hnd].
  assert (operations_ c !! task_stream k = Some (task_operation k)) as Hop
    by (apply vi_tasks0; by eapply list_elem_of_lookup_2).
  assert (length (tasks_ c) = S (length (delete i (tasks_ c)))) as Hlen by (by rewrite Hp at 1).
  assert (∀ k', k' ∈ delete i (tasks_ c) → k' ∈ tasks_ c) as Hsub
    by (intros k' Hk'; rewrite Hp; set_solver).
  split; simpl; auto.
  - intros k' Hk'. rewrite lookup_delete_ne; [auto|]. intros Heq. apply Hk. rewrite Heq.
    by apply list_elem_of_fmap_2.
  - intros s l. rewrite lookup_delete_Some. intros [Hne Hs].
    destruct (vi_table0 s l Hs) as (Hin & ?). split; [|done]. rewrite Hps in Hin. set_solver.
  - rewrite map_size_delete_Some by eauto. rewrite vi_size0, Hlen. done.
  - rewrite vi_active0, Hlen. unfold uwrap. rewrite Zminus_mod_idemp_l. f_equal. lia.
  - intros k' f Hk'. apply vi_fits0. auto.
Qed.

Lemma set_task_pc_inv i k pc c :
  tasks_ c !! i = Some k → (∀ f, pc = HandlerEnqueuing f → frame_fits (limits_ (write_queue_ c)) f) →
  server_inv c → server_inv (set_task_pc i k pc c).
Proof.
  intros Hi Hf []. unfold set_task_pc. set (k' := mkTask (task_handler k) (task_frame k) (task_operation k) pc).
  assert (task_stream <$> <[i:=k']> (tasks_ c) = task_stream <$> tasks_ c) as Hfm.
  { rewrite list_fmap_insert. apply list_insert_id. by rewrite list_lookup_fmap, Hi. }
  assert (∀ x, x ∈ <[i:=k']> (tasks_ c) → x = k' ∨ x ∈ tasks_ c) as Hin.
  { intros x [j Hj]%list_elem_of_lookup. apply list_lookup_insert_Some in Hj as [(_ & -> & _)|[_ Hj]];
      [by left|right; by eapply list_elem_of_lookup_2]. }
  split; simpl; auto; rewrite ?Hfm, ?length_insert; auto.
  - intros x [->|Hx]%Hin; [|auto]. apply (vi_tasks0 k). by eapply list_elem_of_lookup_2.
  - intros x f [->|Hx]%Hin; [by apply Hf|by apply vi_fits0].
Qed.

Lemma handler_start_inv i k c : tasks_ c !! i = Some k → server_inv c → server_inv (handler_start i k c).
Proof.
  intros Hi Hc. unfold handler_start. destruct (decode_ok _) eqn:Hd; simpl.
  - by apply set_task_pc_inv.
  - assert (tasks_ (send_operation_error (task_stream k) (dec_status (decode_message registry_
      (rh_request (task_handler k)) (task_frame k))) (call_operation (task_operation k)
      (fail_op (dec_status (decode_message registry_ (rh_request (task_handler k)) (task_frame k)))
        (dec_message (decode_message registry_ (rh_request (task_handler k)) (task_frame k)))) c).2)
      !! i = Some k) as Hi'.
    { simpl. unfold call_operation. destruct (store_ c !! _); [|done].
      by destruct (fail_op _ _ _) as [[? ?] ?]. }
    apply handler_end_inv; [done|]. apply sinv_send_error, call_operation_lawful; [|done].
    apply ending_lawful, fail_op_ending. unfold decode_ok in Hd. by apply bool_decide_eq_false in Hd.
Qed.

Lemma handler_enqueue_inv i k f r c :
  tasks_ c !! i = Some k → (r = EnqueueWaiting → frame_fits (limits_ (write_queue_ c)) f) →
  server_inv c → server_inv (handler_enqueue i k f r c).
Proof.
  intros Hi Hf Hc. destruct r; simpl; [by apply handler_end_inv|].
  apply set_task_pc_inv; [done| |done]. intros f' [= <-]. auto.
Qed.

(** A call on an operation touches neither the coroutines nor the queue. *)
Lemma call_operation_frame l f c :
  tasks_ (call_operation l f c).2 = tasks_ c ∧ write_queue_ (call_operation l f c).2 = write_queue_ c ∧
  operations_ (call_operation l f c).2 = operations_ c.
Proof.
  unfold call_operation. destruct (store_ c !! l) as [op|]; [|done].
  by destruct (f op) as [[b op'] es].
Qed.

Lemma handler_returned_inv i k v c :
  tasks_ c !! i = Some k → server_inv c → server_inv (handler_returned i k v c).
Proof.
  intros Hi Hc. unfold handler_returned. destruct (if frame_encode_ok _ then _ else _) as [f|];
    [|by apply handler_end_inv].
  pose proof (call_operation_lawful (task_operation k) _ c (complete_lawful "response ready") Hc) as Hc1.
  destruct (call_operation_frame (task_operation k) (complete "response ready") c) as (Ht & _ & _).
  destruct (call_operation _ _ c) as [b c1]. simpl in *. rewrite <-Ht in Hi.
  destruct b; simpl; [|by apply handler_end_inv].
  destruct (enqueue (end_stream f) (write_queue_ c1)) as [r q] eqn:He.
  destruct (enqueue_constant _ _ _ _ He) as [Ho Hl].
  apply enqueue_spec in He as [(Hq & _) Hfit]; [|apply Hc1].
  apply handler_enqueue_inv; [done| |by apply sinv_write_queue].
  intros ->. simpl. rewrite Hl. by apply Hfit.
Qed.

Lemma handler_resume_inv i k f what c c' :
  tasks_ c !! i = Some k → task_pc k = HandlerEnqueuing f → server_inv c →
  handler_resume i k f what c = Some c' → server_inv c'.
Proof.
  intros Hi Hpc Hc. unfold handler_resume.
  destruct (enqueue_resume f what (write_queue_ c)) as [[r q]|] eqn:He; [|done]. intros [= <-].
  assert (frame_fits (limits_ (write_queue_ c)) f) as [Hmf Hb].
  { apply (vi_fits _ Hc k); [by eapply list_elem_of_lookup_2|done]. }
  destruct (enqueue_resume_constant _ _ _ _ _ He) as [Ho Hl].
  apply enqueue_resume_spec in He as (Hq & _); [|apply Hc|done..].
  apply handler_enqueue_inv; [done| |by apply sinv_write_queue]. intros _. simpl. by rewrite Hl.
Qed.

(** *** Dispatching *)

(** The connection once a request is accepted. *)
Definition accepted (handler : RequestHandler) (frame : Frame) c : ServerConnection :=
  let s := stream (header frame) in
  let l := length (store_ c) in
  set_running (<[s := l]> (operations_ c)) (uwrap 64 (active_handlers_ c + 1))
    (tasks_ c ++ [mkTask handler frame l HandlerSpawned])
    (notify (event_on_stream DiagnosticsEventType.request_started s)
       (set_store (store_ c ++ [new_request_operation s]) c)).

Lemma new_request_operation_ok s : operation_ok (new_request_operation s).
Proof. by split. Qed.

Lemma accepted_inv handler frame c :
  operations_ c !! stream (header frame) = None → server_inv c → server_inv (accepted handler frame c).
Proof.
  intros Hnone []. set (k := mkTask handler frame (length (store_ c)) HandlerSpawned).
  assert (stream (header frame) ∉ task_stream <$> tasks_ c) as Hfresh.
  { intros (k' & Hk' & Hin)%list_elem_of_fmap. pose proof (vi_tasks0 k' Hin) as Hx.
    rewrite <-Hk' in Hx. congruence. }
  split; simpl; auto.
  - intros l op [Hl|[_ Hl]]%lookup_app_Some; [eauto|].
    apply list_lookup_singleton_Some in Hl as [_ <-]. apply new_request_operation_ok.
  - rewrite fmap_app. apply NoDup_app. split_and!; [done| |by apply NoDup_singleton].
    intros x Hx. simpl. rewrite list_elem_of_singleton. intros ->. by apply Hfresh.
  - intros k' [Hk'| ->%list_elem_of_singleton]%elem_of_app; [|by rewrite lookup_insert_eq].
    rewrite lookup_insert_ne; [auto|]. intros Heq. apply Hfresh. rewrite Heq.
    by apply list_elem_of_fmap_2.
  - intros s l. rewrite lookup_insert_Some, fmap_app. intros [[<- <-]|[Hne Hs]].
    + split; [apply elem_of_app; right; by apply list_elem_of_singleton|].
      exists (new_request_operation (stream (header frame))). split; [|done].
      by rewrite lookup_app_r, Nat.sub_diag by lia.
    + destruct (vi_table0 s l Hs) as (Hin & op & Hop & Hst). split; [apply elem_of_app; auto|].
      exists op. split; [|done]. by apply lookup_app_l_Some.
  - rewrite map_size_insert_None, length_app by done. simpl. lia.
  - rewrite vi_active0, length_app. simpl. unfold uwrap. rewrite Zplus_mod_idemp_l. f_equal. lia.
  - intros k' f [Hk'| ->%list_elem_of_singleton]%elem_of_app; [by apply vi_fits0|done].
  - rewrite count_app, count_notify, length_app. simpl. lia.
  - rewrite !count_app, count_notify. unfold count at 3. simpl. lia.
  - intros s. rewrite !count_app, count_on_stream_notify, count_notify, vi_started_on0, count_singleton.
    unfold op_on at 3. simpl. destruct (bool_decide _); simpl; lia.
  - intros s. rewrite !count_app, count_on_stream_notify, count_notify, vi_ended_on0, count_singleton.
    unfold op_ended_on at 3. simpl. rewrite andb_false_r. destruct (bool_decide _); simpl; lia.
  - rewrite count_app, count_notify. simpl. lia.
Qed.

Lemma server_dispatch_inv frame c : server_inv c → server_inv (dispatch frame c).
Proof.
  intros Hc. unfold dispatch. cbv zeta.
  destruct (_ || _ || _); [auto with rill|]. destruct (negb _); [auto with rill|].
  case_decide; [auto with rill|]. destruct (has_flag _ _).
  - destruct (operations_ c !! _); auto with rill.
  - destruct (peek_message_type _) as [mt|]; [|auto with rill].
    destruct (handlers_ c !! mt) as [h|]; [|auto with rill].
    destruct (operations_ c !! _) eqn:Ho; [auto with rill|]. by apply (accepted_inv h frame c).
Qed.

Lemma server_dispatch_frames_inv frames c : server_inv c → server_inv (dispatch_frames frames c).
Proof.
  revert c. induction frames as [|f fs IH]; intros c Hc; simpl; [done|].
  assert (server_inv (dispatch f (notify (mkEvent DiagnosticsEventType.message_transferred
    (stream (header f)) StatusCode.ok 0 true EmptyString) c))) by (by apply server_dispatch_inv, sinv_notify).
  destruct (negb _); auto.
Qed.

Lemma server_read_exit_inv lost c : server_inv c → server_inv (read_loop_exit lost c).2.
Proof.
  intros Hc. unfold read_loop_exit. cbn [snd].
  destruct lost; auto 8 using fail_operations_inv with rill.
Qed.

Lemma server_read_head_inv c : server_inv c → server_inv (read_loop_head c).2.
Proof.
  intros Hc. unfold read_loop_head.
  destruct (t_is_open _); [destruct (t_read_begin _)|]; [done|by apply server_read_exit_inv..].
Qed.

Lemma server_read_resume_inv io c :
  server_inv c → ∃ pc c', read_loop_resume io c = Some (pc, c') ∧ server_inv c'.
Proof.
  intros Hc. unfold read_loop_resume. destruct (t_read_end io (transport_ c)) as [r t].
  pose proof (sinv_transport t c Hc) as Hc1.
  destruct r as [[|b bytes]|what].
  - pose proof (server_read_exit_inv (negb (t_is_open t)) _ Hc1) as Hx.
    simpl. destruct (read_loop_exit _ (set_transport t c)). eauto.
  - cbv zeta. set (c2 := notify _ _).
    assert (server_inv c2) as Hc2 by (by apply sinv_notify).
    destruct (push_inv (decoder_ c2) (b :: bytes)) as (d & fs & -> & Hd & _); [apply Hc2|]. simpl.
    pose proof (server_dispatch_frames_inv fs (set_decoder d c2) (sinv_decoder _ _ Hd Hc2)) as Hc3.
    set (c3 := dispatch_frames _ _) in *. destruct (decoder_error _) as [e|].
    + assert (server_inv (set_transport (t_close (transport_ c3)) (notify (mkEvent
        DiagnosticsEventType.protocol_error default_id (status_for_frame_validation e) 0 true
        (frame_validation_message e)) c3))) as Hc4 by (by apply sinv_transport, sinv_notify).
      pose proof (server_read_exit_inv false _ Hc4) as Hx.
      eexists _, _. split; [f_equal; apply surjective_pairing|exact Hx].
    + pose proof (server_read_head_inv _ Hc3) as Hh. destruct (read_loop_head _). eauto.
  - pose proof (server_read_exit_inv true _ Hc1) as Hx. destruct (read_loop_exit _ _). eauto.
Qed.

Lemma server_run_inv c : server_inv c → server_inv (run c).1.1.
Proof.
  intros Hc. unfold run. set (c1 := if decide _ then _ else _).
  assert (server_inv c1) as Hc1.
  { unfold c1. destruct (decide _); [|done]. apply sinv_notify; try done. by apply sinv_activate. }
  destruct (run_receive (write_queue_ c1)) as [pc q] eqn:Hr.
  assert (write_observer_ q = write_observer_ (write_queue_ c1) ∧ limits_ q = limits_ (write_queue_ c1))
    as [Hobs Hlim] by (by injection Hr as _ <-).
  apply run_receive_spec in Hr as (_ & Hq & _); [|apply Hc1].
  pose proof (server_read_head_inv _ (sinv_write_queue q c1 Hq Hobs Hlim Hc1)) as Hx.
  by destruct (read_loop_head _) as [rpc c2].
Qed.

Lemma server_begin_shutdown_inv c : server_inv c → server_inv (begin_shutdown c).
Proof.
  intros Hc. unfold begin_shutdown. set (c1 := if decide (lifecycle_ c = _) then _ else _).
  assert (server_inv c1) as Hc1.
  { unfold c1. destruct (decide _); [by apply sinv_activate|done]. }
  clearbody c1. destruct (decide _); [apply sinv_transition; auto|done].
Qed.

Lemma server_shutdown_finish_inv c : server_inv c → server_inv (shutdown_finish c).
Proof.
  intros Hc. unfold shutdown_finish. destruct (negb _); auto 8 using fail_operations_inv with rill.
Qed.

Lemma server_shutdown_poll_inv now deadline c : server_inv c → server_inv (shutdown_poll now deadline c).2.
Proof.
  intros Hc. unfold shutdown_poll. destruct (_ && _); [done|]. by apply server_shutdown_finish_inv.
Qed.

Lemma new_server_inv t limits : limits_wf limits → server_inv (new_server t limits).
Proof.
  intros Hl. split; simpl; try done.
  - by apply new_queue_inv.
  - apply new_decoder_inv.
  - constructor.
  - intros k Hk. set_solver.
  - intros k f Hk. set_solver.
  all: unfold count; simpl; lia.
Qed.

(** ** Interleavings *)

Inductive sstep : ServerConnection → ServerConnection → Prop :=
  | sstep_run c : sstep c (run c).1.1
  | sstep_handle c request response : sstep c (handle request response c)
  | sstep_handler_start c i k :
      tasks_ c !! i = Some k → task_pc k = HandlerSpawned → sstep c (handler_start i k c)
  | sstep_handler_returned c i k v :
      tasks_ c !! i = Some k → task_pc k = HandlerCalled → sstep c (handler_returned i k v c)
  | sstep_handler_threw c i k :
      tasks_ c !! i = Some k → task_pc k = HandlerCalled → sstep c (handler_threw i k c)
  | sstep_handler_resume c i k f what c' :
      tasks_ c !! i = Some k → task_pc k = HandlerEnqueuing f →
      handler_resume i k f what c = Some c' → sstep c c'
  | sstep_read c io pc c' : read_loop_resume io c = Some (pc, c') → sstep c c'
  | sstep_write c pc q t :
      receives (channel_ (write_queue_ c)) = 1%nat →
      run_resume (write_queue_ c) (transport_ c) = Some (pc, q, t) →
      sstep c (set_transport t (set_write_queue q c))
  | sstep_written c f io pc q t es :
      run_written f io (write_queue_ c) (transport_ c) = (pc, q, t, es) →
      sstep c (log_events es (set_transport t (set_write_queue q c)))
  | sstep_shutdown c start now period : sstep c (shutdown start now period c).2
  | sstep_shutdown_resume c e now deadline : sstep c (shutdown_resume e now deadline c).2.

Definition sreachable (t : T) (limits : WriteQueueLimits) c : Prop := rtc sstep (new_server t limits) c.

Lemma sstep_inv c c' : server_inv c → sstep c c' → server_inv c'.
Proof.
  intros Hc Hstep. destruct Hstep as [|c rq rs|c i k Hi Hpc|c i k v Hi Hpc|c i k Hi Hpc|
    c i k f what c' Hi Hpc Hr|c io pc c' Hr|c pc q t Hone Hr|c f io pc q t es Hw|c st now pd|c e now d].
  - by apply server_run_inv.
  - unfold handle. case_match; [by apply sinv_handlers|done].
  - by apply handler_start_inv.
  - by apply handler_returned_inv.
  - by apply handler_end_inv.
  - by eapply handler_resume_inv.
  - destruct (server_read_resume_inv io c Hc) as (pc1 & c1 & Heq & ?). congruence.
  - apply sinv_transport. destruct (run_resume_constant _ _ _ _ _ Hr) as [Ho Hl].
    apply run_resume_spec in Hr as (Hq & _); [|apply Hc|done]. by apply sinv_write_queue.
  - destruct (run_written_constant _ _ _ _ _ _ _ _ Hw) as [Ho Hl].
    destruct (run_written_inv _ _ _ _ _ _ _ _ (vi_queue _ Hc) Hw) as [Hq Hes].
    apply sinv_log; [|by apply sinv_transport, sinv_write_queue].
    destruct Hes as [->|(ob & Hob & ->)]; [done|]. rewrite (vi_observer _ Hc) in Hob.
    injection Hob as <-. apply neutral_app; by apply neutral_notify.
  - by apply server_shutdown_poll_inv, server_begin_shutdown_inv.
  - unfold shutdown_resume. destruct e; [by apply server_shutdown_finish_inv|by apply server_shutdown_poll_inv].
Qed.

Lemma sreachable_inv t limits c : limits_wf limits → sreachable t limits c → server_inv c.
Proof.
  intros Hl Hr. unfold sreachable in Hr. remember (new_server t limits) as c0 eqn:Hc0.
  assert (server_inv c0) as Hi by (subst; by apply new_server_inv). clear Hc0.
  induction Hr; eauto using sstep_inv.
Qed.

(** ** Properties *)

(** C13: at any moment exactly one handler runs per stream in the table, each with an
    operation of its own, and the counter that decides when the write queue may be closed is
    their number, as long as it fits 64 bits.  The observer has heard, for each stream, of
    exactly one start per request accepted on it and of exactly one end per operation on it
    that has ended, and of no end of an operation that runs: as many starts as ends on a
    stream whose operations have all ended, and never more ends than starts. *)
Theorem server_handlers_exclusive t limits c :
  limits_wf limits → sreachable t limits c →
  NoDup (task_stream <$> tasks_ c) ∧
  (∀ s, is_Some (operations_ c !! s) ↔ s ∈ task_stream <$> tasks_ c) ∧
  (∀ k, k ∈ tasks_ c → operations_ c !! task_stream k = Some (task_operation k) ∧
    ∃ op, store_ c !! task_operation k = Some op ∧ op_stream op = task_stream k) ∧
  active_handlers_ c = uwrap 64 (Z.of_nat (size (operations_ c))) ∧
  (in_u 64 (Z.of_nat (size (operations_ c))) → active_handlers_ c = Z.of_nat (size (operations_ c))) ∧
  count is_started (log_ c) = (listeners * length (store_ c))%nat ∧
  ∀ s,
    count (on_stream s is_started) (log_ c) = (listeners * count (op_on s) (store_ c))%nat ∧
    count (on_stream s is_ended) (log_ c) = (listeners * count (op_ended_on s) (store_ c))%nat ∧
    (count (on_stream s is_ended) (log_ c) ≤ count (on_stream s is_started) (log_ c))%nat.
Proof.
  intros Hl Hr. destruct (sreachable_inv _ _ _ Hl Hr). rewrite vi_size0.
  split; [done|]. split; [|split; [|split; [done|split; [|split; [done|]]]]].
  - intros s. split; [intros [l Hs]; by destruct (vi_table0 s l Hs)|].
    intros (k & -> & Hk)%list_elem_of_fmap. rewrite (vi_tasks0 k Hk). eauto.
  - intros k Hk. pose proof (vi_tasks0 k Hk) as Hop. split; [done|]. by destruct (vi_table0 _ _ Hop).
  - intros Hin. rewrite vi_active0. by apply uwrap_id.
  - intros s. split; [done|]. split; [done|]. rewrite vi_started_on0, vi_ended_on0. apply Nat.mul_le_mono_l.
    apply count_le. intros op. unfold op_ended_on. by intros [? _]%andb_true_iff.
Qed.

(** The response frame of a handler. *)
Definition response_frame (k : HandlerTask) (v : msg (rh_response (task_handler k))) : option Frame :=
  end_stream <$> fe_frame (encode_message_default registry_ (rh_response (task_handler k)) v
                             (task_stream k) FrameType.response).

Lemma handler_end_queue i k c : pending (write_queue_ (handler_end i k c)) = pending (write_queue_ c).
Proof.
  unfold handler_end, close_queue_when_idle. simpl. destruct (_ && _); [|done]. simpl.
  unfold pending. simpl. rewrite ch_view_close. unfold view_close, view_pending. simpl.
  rewrite omap_app. assert (∀ n, omap id (replicate n None) = @nil Frame) as ->.
  { intros n. by induction n. }
  by rewrite app_nil_r.
Qed.

(** C14: when a handler returns, its response is offered to the write queue exactly once and
    only if the request is still running: a request that was cancelled, or whose response
    cannot be encoded, sends nothing.  A frame that is sent is a response that ends the
    request's stream, carries no other flag and decodes to the handler's value. *)
Theorem handler_response_once t limits c i k v op :
  limits_wf limits → sreachable t limits c → registry_inv registry_ →
  tasks_ c !! i = Some k → store_ c !! task_operation k = Some op →
  let c' := handler_returned i k v c in
  match response_frame k v with
  | Some f =>
      (if is_terminal op then pending (write_queue_ c') = pending (write_queue_ c)
       else pending (write_queue_ c') =
              pending (write_queue_ c) ++ accepted_by f (enqueue f (write_queue_ c)).1) ∧
      stream (header f) = task_stream k ∧ type (header f) = FrameType.response ∧
      flags (header f) = FrameFlags.end_of_stream ∧
      decode_message registry_ (rh_response (task_handler k)) f = decode_success v
  | None => pending (write_queue_ c') = pending (write_queue_ c)
  end.
Proof.
  intros Hl Hr Hreg Hi Hop. pose proof (sreachable_inv _ _ _ Hl Hr) as Hc. cbv zeta.
  pose proof (vi_store _ Hc _ _ Hop) as [Hoi Hoa Hoh].
  unfold response_frame, handler_returned.
  destruct (encode_message_factory registry_ (rh_response (task_handler k)) v (task_stream k)
    FrameType.response) as [[f Hf]|(st & m & Hst & Hf)]; rewrite Hf; simpl.
  2: { unfold frame_encode_ok. simpl. rewrite bool_decide_eq_false_2 by done. apply handler_end_queue. }
  pose proof (encode_message_success _ _ _ _ _ _ _ _ _ Hf) as (_ & _ & _ & _ & _ & _ & Hh).
  split_and!; try (by rewrite Hh); [|by rewrite <-(proj1 (decode_message_encode _ _ _ _ _ _ _ _ _ Hreg Hf))].
  unfold call_operation. rewrite Hop. destruct (is_terminal op) eqn:Ht.
  - unfold complete, finish. rewrite op_terminal_transition by (by rewrite <-is_terminal_op_terminal).
    simpl. by rewrite handler_end_queue.
  - destruct (complete_live "response ready" op Hoi Hoa Ht) as (op' & -> & _). simpl.
    destruct (enqueue (end_stream f) (write_queue_ c)) as [r q] eqn:He.
    apply enqueue_spec in He as [(_ & _ & _ & _ & Hpend & _) _]; [|apply Hc].
    destruct r; simpl; [rewrite handler_end_queue|]; exact Hpend.
Qed.

(** C15: on a connection that is active - not yet shutting down -, a cancellation from the
    peer on a stream that the connection has not seen a last frame on, for a request whose
    operation still runs, reaches the handler and silences it: the session reports it as
    cancelled, and whatever the handler returns afterwards, nothing is sent.  (While the
    connection drains, a cancellation is dropped like every other frame.) *)
Theorem cancellation_silences_handler t limits c frame i k v :
  limits_wf limits → sreachable t limits c →
  lifecycle_ c = ConnectionState.active → type (header frame) = FrameType.request →
  has_flag (flags (header frame)) FrameFlags.cancel = true →
  stream (header frame) ∉ terminal_streams_ c →
  tasks_ c !! i = Some k → task_stream k = stream (header frame) →
  (∀ op, store_ c !! task_operation k = Some op → is_terminal op = false) →
  let c' := dispatch frame c in
  is_cancelled k c' = true ∧ tasks_ c' = tasks_ c ∧
  pending (write_queue_ (handler_returned i k v c')) = pending (write_queue_ c').
Proof.
  intros Hl Hr Hact Hty Hcan Hterm Hi Hks Hlive. pose proof (sreachable_inv _ _ _ Hl Hr) as Hc.
  assert (operations_ c !! stream (header frame) = Some (task_operation k)) as Hop.
  { rewrite <-Hks. apply (vi_tasks _ Hc). by eapply list_elem_of_lookup_2. }
  destruct (vi_table _ Hc _ _ Hop) as (_ & op & Hst & _). specialize (Hlive op Hst).
  pose proof (vi_store _ Hc _ _ Hst) as [Hoi Hoa Hoh].
  destruct op as [s [] res dl cr to h]; try done; clear Hlive.
  assert (task_operation k < length (store_ c))%nat as Hlt by (by eapply lookup_lt_Some).
  cbv zeta. unfold dispatch. rewrite Hact, Hty. simpl. rewrite decide_False by done.
  rewrite Hcan, Hop. unfold call_operation. rewrite Hst. simpl. unfold is_cancelled.
  set (op' := mkOperation _ OperationState.cancelled _ _ _ _ _).
  assert (∀ f c1, store_ (mark_terminal f c1) = store_ c1 ∧ tasks_ (mark_terminal f c1) = tasks_ c1)
    as Hmark by (intros f c1; unfold mark_terminal; by case_match).
  destruct (Hmark frame (log_events (match h with Some h0 => h0 (result_failure StatusCode.cancelled
    "operation cancelled by peer") | None => [] end) (set_store (<[task_operation k:=op']> (store_ c)) c)))
    as [Hms Hmt].
  rewrite Hms, Hmt. simpl. rewrite list_lookup_insert_eq by done. split_and!; try done.
  unfold handler_returned. destruct (if frame_encode_ok _ then _ else _); [|apply handler_end_queue].
  unfold call_operation. rewrite Hms. simpl. rewrite list_lookup_insert_eq by done. simpl.
  by rewrite handler_end_queue.
Qed.

End server.

(** ** Witnesses *)

#[export] Instance list_map_traversal : MapTraversal := map_to_list.

#[export] Instance list_map_traversal_laws : MapTraversalLaws.
Proof. by intros m. Qed.

Section sample.
#[local] Existing Instance demo_codec.
#[local] Instance demo_server_codec_laws : CodecLaws nat (pod_value (λ t, t)) := PodCodec_laws _ _.

Local Abbreviation Server := (ServerConnection (Ch := ListChannel) (T := TcpTransport) (TypeIndex := nat)).

(** A running connection with one handler, from messages of type 2 to messages of type 2. *)
Definition server_ready : Server :=
  (run listening_hooks
    (handle demo_registry 2%nat 2%nat (new_server listening_hooks new_tcp_transport sample_limits))).1.1.

(** It has read a request on stream 1. *)
Definition server_spawned : Server :=
  match read_loop_resume listening_hooks (IoRead (encode_frame demo_frame)) server_ready with
  | Some (_, c) => c
  | None => server_ready
  end.

Definition server_task : HandlerTask := mkTask (mkHandler 2%nat 2%nat) demo_frame 0 HandlerSpawned.

(** The handler was called. *)
Definition server_called : Server := handler_start demo_registry 0 server_task server_spawned.

Definition server_called_task : HandlerTask := mkTask (mkHandler 2%nat 2%nat) demo_frame 0 HandlerCalled.

Local Abbreviation reachable := (sreachable demo_registry listening_hooks new_tcp_transport sample_limits).

Lemma server_called_reachable : reachable server_called.
Proof.
  eapply rtc_l; [apply (sstep_handle _ _ _ 2%nat 2%nat)|].
  eapply rtc_l; [apply sstep_run|]. fold server_ready.
  eapply rtc_l with server_spawned.
  - unfold server_spawned. destruct (read_loop_resume _ _ server_ready) as [[pc c]|] eqn:Hr;
      [|vm_compute in Hr; discriminate]. by eapply sstep_read.
  - eapply rtc_l; [|apply rtc_refl]. apply sstep_handler_start; [vm_compute; reflexivity|reflexivity].
Qed.

Lemma server_handlers_exclusive_witness :
  length (tasks_ server_called) = 1%nat ∧ NoDup (task_stream <$> tasks_ server_called) ∧
  active_handlers_ server_called = 1 ∧
  count (on_stream (mkId 1) is_started) (log_ server_called) = 1%nat ∧
  count (on_stream (mkId 1) is_ended) (log_ server_called) = 0%nat.
Proof.
  split; [vm_compute; reflexivity|].
  destruct (server_handlers_exclusive demo_registry listening_hooks new_tcp_transport sample_limits
    server_called sample_limits_wf server_called_reachable) as (Hnd & _ & _ & _ & Hact & _ & Hon).
  destruct (Hon (mkId 1)) as (Hs & He & _). split; [exact Hnd|].
  split; [apply Hact; vm_compute; split; congruence|]. split; [rewrite Hs|rewrite He]; vm_compute; reflexivity.
Defined.

(** The response the handler's value is sent in. *)
Definition server_response : Frame :=
  mkFrame (mkHeader current_protocol_version FrameType.response FrameFlags.end_of_stream (mkId 1) 6)
    [x00; x00; x00; x64; x2a; x07].

Lemma server_response_frame :
  response_frame demo_registry server_called_task demo_message = Some server_response.
Proof. vm_compute. reflexivity. Qed.

Lemma server_response_accepted :
  accepted_by server_response (enqueue server_response (write_queue_ server_called)).1 = [server_response].
Proof. vm_compute. reflexivity. Qed.

Lemma handler_response_once_witness :
  decode_message demo_registry 2%nat server_response = decode_success demo_message ∧
  pending (write_queue_ (handler_returned demo_registry 0 server_called_task demo_message server_called))
    = pending (write_queue_ server_called) ++ [server_response].
Proof.
  assert (∃ op, store_ server_called !! task_operation server_called_task = Some op ∧
    is_terminal op = false) as (op & Hop & Ht) by (eexists; vm_compute; split; reflexivity).
  pose proof (handler_response_once demo_registry listening_hooks new_tcp_transport sample_limits
    server_called 0 server_called_task demo_message op sample_limits_wf server_called_reachable
    demo_registry_inv ltac:(vm_compute; reflexivity) Hop) as Hout. cbv zeta in Hout.
  rewrite server_response_frame, Ht, server_response_accepted in Hout.
  destruct Hout as (Hq & _ & _ & _ & Hd). split; [exact Hd|exact Hq].
Defined.

(** The peer's cancellation of stream 1. *)
Definition server_cancel : Frame :=
  mkFrame (mkHeader current_protocol_version FrameType.request
             (flags_or FrameFlags.cancel FrameFlags.end_of_stream) (mkId 1) 0) [].

Lemma cancellation_silences_handler_witness :
  is_cancelled server_called_task (dispatch listening_hooks server_cancel server_called) = true ∧
  tasks_ (dispatch listening_hooks server_cancel server_called) = tasks_ server_called.
Proof.
  destruct (cancellation_silences_handler demo_registry listening_hooks new_tcp_transport sample_limits
    server_called server_cancel 0 server_called_task demo_message sample_limits_wf server_called_reachable)
    as (H1 & H2 & _).
  - vm_compute; reflexivity.
  - reflexivity.
  - vm_compute; reflexivity.
  - vm_decide.
  - vm_compute; reflexivity.
  - reflexivity.
  - intros op Hop. vm_compute in Hop. injection Hop as <-. vm_compute. reflexivity.
  - split; [exact H1|exact H2].
Defined.

End sample.
