(* ===== verification/ServerFaults.v ===== *)
(** * How a server connection breaks

    What the handlers that are running learn when the connection is lost, when the peer
    violates the protocol, and when a cancellation crosses the response of its request. *)

From S2P Require Import Prelude Identifiers Status Frame FrameCodec FrameDecoder ProtocolViolation.
From S2P Require Import Lifecycle Diagnostics Operation Codec MessageRegistry MessageCodec.
From S2P Require Import Transport Channel WriteQueue ServerConnection.

Local Open Scope Z_scope.

Section faults.
Context {Ch : Type → Type} `{!Channel Ch} `{!ChannelLaws Ch} {T : Type} `{!Transport T} `{!TransportLaws T}.
Context `{!MapTraversal} `{!MapTraversalLaws}.
Context {TypeIndex : Type} `{Countable TypeIndex} {msg : TypeIndex → Type} `{C : !Codec TypeIndex msg}.
Context `{!CodecLaws TypeIndex msg}.
Context (registry_ : MessageRegistry (TypeIndex := TypeIndex)) (diagnostics_ : DiagnosticsHooks).

Local Abbreviation Task := (HandlerTask (TypeIndex := TypeIndex)).

Implicit Types (c : ServerConnection (Ch := Ch) (T := T) (TypeIndex := TypeIndex)) (k : Task).

(** ** Losing the connection *)

(** What becomes of an operation. *)
Definition lost (op : Operation DiagnosticsEvent) : Operation DiagnosticsEvent :=
  (fail_op StatusCode.connection_closed "connection closed while processing a request"
     (request_cancellation op).2).1.2.

Lemma lost_terminal op : is_terminal op = true → lost op = op.
Proof.
  intros Ht. unfold lost, request_cancellation. rewrite Ht. simpl. unfold fail_op. simpl. unfold finish.
  by rewrite op_terminal_transition by (by rewrite <-is_terminal_op_terminal).
Qed.

Lemma lost_live op :
  operation_ok diagnostics_ op → is_terminal op = false →
  op_cancellation_requested (lost op) = true ∧ is_terminal (lost op) = true ∧
  op_result (lost op)
    = Some (mkResult StatusCode.connection_closed "connection closed while processing a request").
Proof.
  intros [Hi Ha Hh] Ht. destruct op as [s [] r dl cr to h]; try done.
Qed.

Lemma lost_idemp op : operation_ok diagnostics_ op → lost (lost op) = lost op.
Proof.
  intros Ho. destruct (is_terminal op) eqn:Ht; [by rewrite !(lost_terminal op Ht)|].
  apply lost_terminal. by apply lost_live.
Qed.

Lemma fail_operation_store l c : store_ (fail_operation l c) = alter lost l (store_ c).
Proof.
  unfold fail_operation, call_operation. destruct (store_ c !! l) as [op|] eqn:Hl; simpl.
  - unfold silent. destruct (request_cancellation op) as [b op1] eqn:Hr. simpl.
    rewrite list_lookup_insert_eq by (by eapply lookup_lt_Some).
    destruct (fail_op _ _ op1) as [[b2 op2] es] eqn:Hf. simpl. rewrite list_insert_insert_eq.
    apply list_eq. intros i. destruct (decide (i = l)) as [->|Hne].
    + rewrite list_lookup_insert_eq by (by eapply lookup_lt_Some).
      rewrite list_lookup_alter_eq, Hl. simpl. unfold lost. rewrite Hr. cbn [snd]. by rewrite Hf.
    + by rewrite list_lookup_insert_ne, list_lookup_alter_ne.
  - rewrite Hl. simpl. apply list_eq. intros i. destruct (decide (i = l)) as [->|Hne];
      [by rewrite list_lookup_alter_eq, Hl|by rewrite list_lookup_alter_ne].
Qed.

(** Only the store and the log change. *)
Lemma fail_operation_rest l c :
  tasks_ (fail_operation l c) = tasks_ c ∧ write_queue_ (fail_operation l c) = write_queue_ c ∧
  active_handlers_ (fail_operation l c) = active_handlers_ c.
Proof. unfold fail_operation, call_operation. by repeat case_match. Qed.

Lemma fail_all_store (ops : list (StreamId * nat)) c l :
  server_inv diagnostics_ c →
  store_ (foldl (λ c '(_, l), fail_operation l c) c ops) !! l
    = (if decide (l ∈ ops.*2) then lost else id) <$> store_ c !! l.
Proof.
  revert c. induction ops as [|[s l0] ops IH]; intros c Hc; cbn [foldl].
  { by destruct (store_ c !! l). }
  rewrite IH by (by apply fail_operation_inv). rewrite fail_operation_store, fmap_cons. cbn [snd].
  destruct (decide (l = l0)) as [->|Hne].
  - rewrite list_lookup_alter_eq. rewrite (decide_True (P := l0 ∈ l0 :: ops.*2)) by set_solver.
    destruct (store_ c !! l0) as [op|] eqn:Hl; [|done]. simpl. f_equal.
    case_decide; [|done]. apply lost_idemp. by eapply vi_store.
  - rewrite list_lookup_alter_ne by done. f_equal.
    destruct (decide (l ∈ ops.*2)), (decide (l ∈ l0 :: ops.*2)); set_solver.
Qed.

Lemma fail_all_rest (ops : list (StreamId * nat)) c :
  tasks_ (foldl (λ c '(_, l), fail_operation l c) c ops) = tasks_ c ∧
  write_queue_ (foldl (λ c '(_, l), fail_operation l c) c ops) = write_queue_ c ∧
  active_handlers_ (foldl (λ c '(_, l), fail_operation l c) c ops) = active_handlers_ c.
Proof.
  revert c. induction ops as [|[s l0] ops IH]; intros c; simpl; [done|].
  destruct (IH (fail_operation l0 c)) as (-> & -> & ->).
  by destruct (fail_operation_rest l0 c) as (-> & -> & ->).
Qed.

(** What follows the loop changes neither the handlers nor their operations, unless the
    connection was lost. *)
Lemma read_exit_rest (lost_ : bool) c :
  let c0 := if lost_ then fail_operations_on_connection_close c else c in
  let c' := (read_loop_exit diagnostics_ lost_ c).2 in
  tasks_ c' = tasks_ c0 ∧ store_ c' = store_ c0 ∧ transport_ c' = transport_ c0 ∧
  active_handlers_ c' = active_handlers_ c0 ∧ reading_ c' = false ∧
  write_queue_ c' = (if active_handlers_ c0 =? 0 then close (write_queue_ c0) else write_queue_ c0).
Proof.
  cbv zeta. unfold read_loop_exit. simpl. set (c0 := if lost_ then _ else c).
  unfold notify_closed, close_queue_when_idle. simpl.
  destruct (active_handlers_ c0 =? 0); simpl; by destruct (closed_notified_ _).
Qed.

(** A handler whose operation has ended sends nothing. *)
Lemma ended_handler_silent i k (v : msg (rh_response (task_handler k))) c op :
  store_ c !! task_operation k = Some op → is_terminal op = true →
  pending (write_queue_ (handler_returned registry_ i k v c)) = pending (write_queue_ c).
Proof.
  intros Hop Ht. unfold handler_returned.
  destruct (if frame_encode_ok _ then _ else _); [|apply handler_end_queue].
  unfold call_operation. rewrite Hop. unfold complete, finish.
  rewrite op_terminal_transition by (by rewrite <-is_terminal_op_terminal). simpl.
  by rewrite handler_end_queue.
Qed.


(** ** Violations *)

(** What the dispatcher objects to in a frame: the status and the text it fails the
    connection with. *)
Definition server_violation (frame : Frame) c : option (StatusCode * string) :=
  if bool_decide (lifecycle_ c = ConnectionState.draining)
     || bool_decide (lifecycle_ c = ConnectionState.closing)
     || bool_decide (lifecycle_ c = ConnectionState.closed) then None
  else if negb (bool_decide (type (header frame) = FrameType.request)) then
    Some (StatusCode.malformed_frame, "server received a non-request frame"%string)
  else if decide (stream (header frame) ∈ terminal_streams_ c) then
    Some (StatusCode.malformed_frame, "duplicate terminal frame"%string)
  else if has_flag (flags (header frame)) FrameFlags.cancel
          && bool_decide (operations_ c !! stream (header frame) = None) then
    Some (StatusCode.unknown_stream, "cancellation for an unknown stream"%string)
  else None.

Lemma server_dispatch_violation frame c status message :
  server_violation frame c = Some (status, message) →
  dispatch diagnostics_ frame c = fail_connection diagnostics_ status message c ∧
  status_category status = StatusCategory.protocol.
Proof.
  unfold server_violation, dispatch. destruct (_ || _ || _); [done|]. destruct (negb _); [by intros [= <- <-]|].
  case_decide; [by intros [= <- <-]|]. destruct (has_flag _ _); [|done]. simpl.
  case_bool_decide as Hop; [|done]. intros [= <- <-]. by rewrite Hop.
Qed.

(** Failing the connection: the observer is told, the transport is closed, and that is all. *)
Lemma fail_connection_rest status message c :
  status_category status = StatusCategory.protocol →
  let c' := fail_connection diagnostics_ status message c in
  t_is_open (transport_ c') = false ∧ tasks_ c' = tasks_ c ∧ store_ c' = store_ c ∧
  active_handlers_ c' = active_handlers_ c ∧ write_queue_ c' = write_queue_ c ∧
  decoder_ c' = decoder_ c ∧
  log_ c' = log_ c ++ notify_diagnostics diagnostics_
    (mkEvent DiagnosticsEventType.protocol_error default_id status 0 true message).
Proof.
  intros Hs. unfold fail_connection. rewrite decide_True by done. simpl.
  split_and!; try done. apply t_close_closes.
Qed.

(** The bytes end in something the connection does not survive: a frame the dispatcher
    objects to, or bytes that are no frame. *)
Definition breaks (bytes : Buffer) c : Prop :=
  ∃ d frames, bytes ≠ [] ∧ push (decoder_ c) bytes = Some (d, frames) ∧
    match frames with
    | [] => is_Some (decoder_error d)
    | [frame] => decoder_error d = None ∧ is_Some (server_violation frame c)
    | _ => False
    end.

(** C23: when the peer violates the protocol, the handlers that are running are not told:
    the transport is closed and the read loop ends, but no operation is cancelled or failed,
    and as long as a handler runs the write queue stays open, so that its response is still
    accepted - for a transport that is closed. *)
Theorem violation_spares_handlers c io bytes :
  (t_read_end io (transport_ c)).1 = ReadBytes bytes → breaks bytes c →
  ∃ c', read_loop_resume diagnostics_ io c = Some (ReadEnded, c') ∧
    t_is_open (transport_ c') = false ∧ tasks_ c' = tasks_ c ∧ store_ c' = store_ c ∧
    (∀ k, is_cancelled k c' = is_cancelled k c) ∧
    (active_handlers_ c ≠ 0 → write_queue_ c' = write_queue_ c).
Proof.
  intros Hio (d & frames & Hne & Hpush & Hbreak). unfold read_loop_resume.
  destruct (t_read_end io (transport_ c)) as [r t1]. simpl in Hio. subst r. cbv zeta.
  destruct bytes as [|b bytes]; [done|]. set (c1 := notify _ _ (set_transport t1 c)).
  change (decoder_ c1) with (decoder_ c). rewrite Hpush. cbn [mbind option_bind].
  assert (∀ c2, t_is_open (transport_ c2) = false → tasks_ c2 = tasks_ c → store_ c2 = store_ c →
    active_handlers_ c2 = active_handlers_ c → write_queue_ c2 = write_queue_ c →
    ∃ c', Some (read_loop_exit diagnostics_ false c2) = Some (ReadEnded, c') ∧
      t_is_open (transport_ c') = false ∧ tasks_ c' = tasks_ c ∧ store_ c' = store_ c ∧
      (∀ k, is_cancelled k c' = is_cancelled k c) ∧
      (active_handlers_ c ≠ 0 → write_queue_ c' = write_queue_ c)) as Hexit.
  { intros c2 Ho Ht Hs Ha Hq. pose proof (read_exit_rest false c2) as (Ht' & Hs' & Htr & _ & _ & Hq').
    exists (read_loop_exit diagnostics_ false c2).2. split; [reflexivity|].
    set (c' := (read_loop_exit diagnostics_ false c2).2) in *.
    split_and!; [by rewrite Htr|congruence|congruence| |].
    - intros k. unfold is_cancelled. by rewrite Hs', Hs.
    - intros Hz. rewrite Hq', Ha, Hq. by destruct (Z.eqb_spec (active_handlers_ c) 0). }
  destruct frames as [|frame [|? ?]]; [| |done].
  - destruct Hbreak as [e He]. simpl. rewrite He. apply Hexit; try done. apply t_close_closes.
  - destruct Hbreak as [He [[st m] Hv]]. cbn [dispatch_frames]. set (c2 := notify _ _ (set_decoder d c1)).
    assert (server_violation frame c2 = Some (st, m)) as Hv2 by exact Hv.
    destruct (server_dispatch_violation frame c2 st m Hv2) as [-> Hcat].
    destruct (fail_connection_rest st m c2 Hcat) as (Ho & Ht & Hs & Ha & Hq & Hd & _).
    rewrite Ho. cbn [negb]. rewrite Hd. change (decoder_ c2) with d. rewrite He.
    unfold read_loop_head. rewrite Ho. by apply Hexit.
Qed.

(** A cancellation that crosses the response of its request takes the whole connection
    down: once the handler has ended, the cancellation is one for an unknown stream, the
    observer hears of a protocol error, the transport is closed, and the other handlers go
    on without being told. *)
Theorem crossing_cancellation_fails_connection c i k frame :
  lifecycle_ c = ConnectionState.active → tasks_ c !! i = Some k →
  type (header frame) = FrameType.request → has_flag (flags (header frame)) FrameFlags.cancel = true →
  stream (header frame) = task_stream k → (task_stream k ∉ terminal_streams_ c) →
  let c' := dispatch diagnostics_ frame (handler_end i k c) in
  t_is_open (transport_ c') = false ∧ tasks_ c' = delete i (tasks_ c) ∧ store_ c' = store_ c ∧
  log_ c' = log_ c ++ notify_diagnostics diagnostics_
    (mkEvent DiagnosticsEventType.protocol_error default_id StatusCode.unknown_stream 0 true
       "cancellation for an unknown stream").
Proof.
  intros Hact Hi Hty Hcan Hs Hterm. cbv zeta.
  assert (lifecycle_ (handler_end i k c) = lifecycle_ c ∧ terminal_streams_ (handler_end i k c) = terminal_streams_ c ∧
    operations_ (handler_end i k c) = delete (task_stream k) (operations_ c) ∧
    tasks_ (handler_end i k c) = delete i (tasks_ c) ∧ store_ (handler_end i k c) = store_ c ∧
    log_ (handler_end i k c) = log_ c) as (Hlc & Htm & Hop & Ht & Hst & Hlog)
    by (unfold handler_end, close_queue_when_idle; simpl; by case_match).
  assert (server_violation frame (handler_end i k c)
    = Some (StatusCode.unknown_stream, "cancellation for an unknown stream"%string)) as Hv.
  { unfold server_violation. rewrite Hlc, Hact, Hty, Htm, Hs, Hcan, Hop. simpl.
    rewrite decide_False by done. by rewrite lookup_delete_eq. }
  destruct (server_dispatch_violation _ _ _ _ Hv) as [-> Hcat].
  destruct (fail_connection_rest _ "cancellation for an unknown stream" (handler_end i k c) Hcat)
    as (Ho & Ht' & Hs' & _ & _ & _ & Hlog').
  split_and!; [done|congruence..|]. by rewrite Hlog', Hlog.
Qed.

(** A second request on a stream whose handler runs closes the transport, and nobody is told. *)
Lemma second_request_closes_silently c frame message_type handler l :
  lifecycle_ c = ConnectionState.active → type (header frame) = FrameType.request →
  stream (header frame) ∉ terminal_streams_ c →
  has_flag (flags (header frame)) FrameFlags.cancel = false →
  peek_message_type (payload frame) = Some message_type → handlers_ c !! message_type = Some handler →
  operations_ c !! stream (header frame) = Some l →
  let c' := dispatch diagnostics_ frame c in
  t_is_open (transport_ c') = false ∧ log_ c' = log_ c ∧ write_queue_ c' = write_queue_ c ∧
  tasks_ c' = tasks_ c ∧ store_ c' = store_ c.
Proof.
  intros Hact Hty Hterm Hcan Hp Hh Hop. cbv zeta. unfold dispatch. rewrite Hact, Hty. simpl.
  rewrite decide_False by done. rewrite Hcan, Hp, Hh, Hop. simpl. split_and!; try done. apply t_close_closes.
Qed.

End faults.

(** ** Witnesses *)

Section sample.
#[local] Existing Instance demo_codec.
#[local] Instance demo_faults_codec_laws : CodecLaws nat (pod_value (λ t, t)) := PodCodec_laws _ _.


(** The peer sends a response to the server while the handler runs. *)
Lemma violation_spares_handlers_witness :
  ∃ c', read_loop_resume listening_hooks (IoRead (encode_frame server_response)) server_called
      = Some (ReadEnded, c') ∧
    t_is_open (transport_ c') = false ∧ is_cancelled server_called_task c' = false ∧
    closed_ (write_queue_ c') = false.
Proof.
  destruct (violation_spares_handlers listening_hooks server_called (IoRead (encode_frame server_response))
    (encode_frame server_response)) as (c' & Hr & Ho & _ & _ & Hk & Hq).
  - vm_compute. reflexivity.
  - eexists _, _. split; [by vm_compute|]. split; [vm_compute; reflexivity|].
    split; [vm_compute; reflexivity|]. eexists. vm_compute. reflexivity.
  - exists c'. rewrite Hk, Hq by (by vm_compute). split_and!; [exact Hr|exact Ho|vm_compute; reflexivity..].
Defined.

(** The handler ends, then the cancellation of its request arrives. *)
Lemma crossing_cancellation_fails_connection_witness :
  t_is_open (transport_ (dispatch listening_hooks server_cancel (handler_end 0 server_called_task server_called)))
    = false.
Proof.
  apply (crossing_cancellation_fails_connection listening_hooks server_called 0 server_called_task server_cancel).
  - vm_compute. reflexivity.
  - vm_compute. reflexivity.
  - reflexivity.
  - vm_compute. reflexivity.
  - reflexivity.
  - vm_decide.
Defined.

End sample.
