(* ===== verification/ServerShutdown.v ===== *)
(** * Shutting a server connection down

    [ServerConnection::shutdown]: what it does to the handlers that run, what a connection
    that is draining does with the frames it receives, and that a connection that has been
    shut down stays so. *)

From S2P Require Import Prelude Identifiers Status Frame FrameCodec FrameDecoder ProtocolViolation.
From S2P Require Import Lifecycle Diagnostics Operation Codec MessageRegistry MessageCodec.
From S2P Require Import Transport Channel WriteQueue ServerConnection ServerFaults.

Local Open Scope Z_scope.

Section shutdown.
Context {Ch : Type → Type} `{!Channel Ch} `{!ChannelLaws Ch} {T : Type} `{!Transport T} `{!TransportLaws T}.
Context `{!MapTraversal} `{!MapTraversalLaws}.
Context {TypeIndex : Type} `{Countable TypeIndex} {msg : TypeIndex → Type} `{C : !Codec TypeIndex msg}.
Context `{!CodecLaws TypeIndex msg}.
Context (registry_ : MessageRegistry (TypeIndex := TypeIndex)) (diagnostics_ : DiagnosticsHooks).

Local Abbreviation Task := (HandlerTask (TypeIndex := TypeIndex)).

Implicit Types (c : ServerConnection (Ch := Ch) (T := T) (TypeIndex := TypeIndex)) (k : Task).

(** The connection takes no more requests. *)
Definition refusing c : Prop :=
  lifecycle_ c = ConnectionState.draining ∨ lifecycle_ c = ConnectionState.closing ∨
  lifecycle_ c = ConnectionState.closed.

(** The operation of every handler that runs has ended. *)
Definition all_told c : Prop :=
  ∀ k, k ∈ tasks_ c → ∃ op, store_ c !! task_operation k = Some op ∧ is_terminal op = true.

Record retired c : Prop := {
  rt_transport : t_is_open (transport_ c) = false;
  rt_lifecycle : lifecycle_ c = ConnectionState.closed;
  rt_told : all_told c;
}.

(** ** Failing the operations *)

Lemma fail_operations_rest c :
  tasks_ (fail_operations_on_connection_close c) = tasks_ c ∧
  write_queue_ (fail_operations_on_connection_close c) = write_queue_ c ∧
  active_handlers_ (fail_operations_on_connection_close c) = active_handlers_ c.
Proof. apply fail_all_rest. Qed.

(** The operation of a running handler is one of those in the table. *)
Lemma task_in_table c k :
  server_inv diagnostics_ c → k ∈ tasks_ c →
  task_operation k ∈ (map_traversal (operations_ c)).*2 ∧ ∃ op, store_ c !! task_operation k = Some op.
Proof.
  intros Hc Hk. pose proof (vi_tasks _ _ Hc k Hk) as Ho. split.
  - apply list_elem_of_fmap. exists (task_stream k, task_operation k). split; [done|].
    rewrite map_traversal_entries. by apply elem_of_map_to_list.
  - destruct (vi_table _ _ Hc _ _ Ho) as (_ & op & Hop & _). by exists op.
Qed.

Lemma fail_operations_lost c k :
  server_inv diagnostics_ c → k ∈ tasks_ c →
  ∃ op, store_ c !! task_operation k = Some op ∧
    store_ (fail_operations_on_connection_close c) !! task_operation k = Some (lost op).
Proof.
  intros Hc Hk. destruct (task_in_table c k Hc Hk) as [Hin [op Hop]]. exists op. split; [done|].
  unfold fail_operations_on_connection_close. rewrite (fail_all_store diagnostics_ _ c _ Hc).
  by rewrite decide_True, Hop by done.
Qed.

Lemma lost_is_terminal op : operation_ok diagnostics_ op → is_terminal (lost op) = true.
Proof.
  intros Ho. destruct (is_terminal op) eqn:Ht; [by rewrite lost_terminal|]. by apply (lost_live diagnostics_ op Ho Ht).
Qed.

(** ** Shutting down *)

Lemma begin_shutdown_refusing c : server_inv diagnostics_ c → refusing (begin_shutdown c).
Proof.
  intros Hc. destruct (vi_state _ _ Hc) as (Ha & Hb & Hd). unfold refusing, begin_shutdown, transition.
  destruct c as [t q d h os ts a r [] cn st ks lg]; simpl in *; auto; done.
Qed.

Lemma begin_shutdown_rest c :
  transport_ (begin_shutdown c) = transport_ c ∧ write_queue_ (begin_shutdown c) = write_queue_ c ∧
  store_ (begin_shutdown c) = store_ c ∧ tasks_ (begin_shutdown c) = tasks_ c ∧
  active_handlers_ (begin_shutdown c) = active_handlers_ c ∧ log_ (begin_shutdown c) = log_ c.
Proof. unfold begin_shutdown. by repeat case_decide. Qed.

(** Fewer handlers than the counter can count. *)
Definition countable_tasks c : Prop := Z.of_nat (length (tasks_ c)) < 2 ^ 64.

Lemma no_active_handlers c :
  server_inv diagnostics_ c → countable_tasks c → (active_handlers_ c =? 0) = bool_decide (tasks_ c = []).
Proof.
  intros Hc Hlt. rewrite (vi_active _ _ Hc). unfold uwrap. rewrite Z.mod_small by (unfold countable_tasks in Hlt; lia).
  destruct (tasks_ c); [done|]. rewrite bool_decide_eq_false_2 by done. apply Z.eqb_neq. simpl. lia.
Qed.

Lemma server_finish_spec c :
  server_inv diagnostics_ c → countable_tasks c → refusing c →
  let c' := shutdown_finish diagnostics_ c in
  t_is_open (transport_ c') = false ∧ lifecycle_ c' = ConnectionState.closed ∧ closed_notified_ c' = true ∧
  tasks_ c' = tasks_ c ∧ write_queue_ c' = write_queue_ c ∧
  ∀ k, k ∈ tasks_ c → ∃ op, store_ c !! task_operation k = Some op ∧ store_ c' !! task_operation k = Some (lost op).
Proof.
  intros Hc Hlt Hr. cbv zeta. unfold shutdown_finish. rewrite no_active_handlers by done.
  set (c1 := if negb _ then _ else c).
  assert (tasks_ c1 = tasks_ c ∧ write_queue_ c1 = write_queue_ c ∧ lifecycle_ c1 = lifecycle_ c ∧
    ∀ k, k ∈ tasks_ c → ∃ op, store_ c !! task_operation k = Some op ∧ store_ c1 !! task_operation k = Some (lost op))
    as (Ht & Hq & Hl & Hs).
  { unfold c1. case_bool_decide as He; simpl.
    - rewrite He. split_and!; try done. intros k Hk. by apply not_elem_of_nil in Hk.
    - destruct (fail_operations_rest c) as (Ht & Hq & _). split_and!; try done.
      + unfold fail_operations_on_connection_close. generalize (map_traversal (operations_ c)). intros ops.
        clear. revert c. induction ops as [|[s l] ops IH]; intros c; simpl; [done|]. rewrite IH.
        unfold fail_operation, call_operation. by repeat case_match.
      + intros k Hk. by apply fail_operations_lost. }
  assert (∀ c2, notify_closed diagnostics_ c2 = c2 ∧ closed_notified_ c2 = true ∨
    ∃ es, notify_closed diagnostics_ c2 = log_events es (set_closed_notified true c2)) as Hn.
  { intros c2. unfold notify_closed. destruct (closed_notified_ c2); [by left|right; by eexists]. }
  set (c2 := transition _ _). assert (lifecycle_ c2 = ConnectionState.closed) as Hcl.
  { unfold c2, transition. simpl. rewrite Hl. by destruct Hr as [-> |[-> | ->]]. }
  destruct (Hn c2) as [[-> Hnot]|[es ->]]; simpl; split_and!; try done; apply t_close_closes.
Qed.

(** What a handler that runs finds when the shutdown has not waited for it: its session
    throws, its operation has failed; an operation that had ended is as it was. *)
Definition told (op op' : Operation DiagnosticsEvent) : Prop :=
  if is_terminal op then op' = op
  else op_cancellation_requested op' = true ∧ is_terminal op' = true ∧
    op_result op' = Some (mkResult StatusCode.connection_closed "connection closed while processing a request").

Lemma told_lost op : operation_ok diagnostics_ op → told op (lost op).
Proof.
  intros Ho. unfold told. destruct (is_terminal op) eqn:Ht; [by apply lost_terminal|].
  by apply (lost_live diagnostics_).
Qed.

(** One round of the waiting loop. *)
Definition drain_round (step : ShutdownStep) (error : bool) (now deadline : Z) c c' : Prop :=
  refusing c' ∧ tasks_ c' = tasks_ c ∧ write_queue_ c' = write_queue_ c ∧
  match step with
  | ShutdownWaiting =>
      tasks_ c ≠ [] ∧ now < deadline ∧ store_ c' = store_ c ∧ transport_ c' = transport_ c ∧ log_ c' = log_ c
  | ShutdownDone =>
      (tasks_ c = [] ∨ deadline ≤ now ∨ error = true) ∧ retired c' ∧ closed_notified_ c' = true ∧
      ∀ k, k ∈ tasks_ c → ∃ op op', store_ c !! task_operation k = Some op ∧
        store_ c' !! task_operation k = Some op' ∧ told op op'
  end.

Lemma drain_finish error now deadline c :
  server_inv diagnostics_ c → countable_tasks c → refusing c →
  tasks_ c = [] ∨ deadline ≤ now ∨ error = true →
  drain_round ShutdownDone error now deadline c (shutdown_finish diagnostics_ c).
Proof.
  intros Hc Hlt Hr Hwhy. destruct (server_finish_spec c Hc Hlt Hr) as (Ho & Hl & Hn & Ht & Hq & Hs).
  assert (∀ k, k ∈ tasks_ c → ∃ op op', store_ c !! task_operation k = Some op ∧
    store_ (shutdown_finish diagnostics_ c) !! task_operation k = Some op' ∧ told op op' ∧ is_terminal op' = true)
    as Htold.
  { intros k Hk. destruct (Hs k Hk) as (op & Hop & Hop'). pose proof (vi_store _ _ Hc _ _ Hop) as Hok.
    exists op, (lost op). auto using told_lost, lost_is_terminal. }
  unfold drain_round. split_and!; try done; [by right; right| |].
  - split; [done..|]. intros k Hk. rewrite Ht in Hk. destruct (Htold k Hk) as (op & op' & _ & ? & _ & ?). eauto.
  - intros k Hk. destruct (Htold k Hk) as (op & op' & ? & ? & ? & _). eauto.
Qed.

Lemma drain_poll now deadline c :
  server_inv diagnostics_ c → countable_tasks c → refusing c →
  drain_round (shutdown_poll diagnostics_ now deadline c).1 false now deadline c
    (shutdown_poll diagnostics_ now deadline c).2.
Proof.
  intros Hc Hlt Hr. unfold shutdown_poll. rewrite no_active_handlers by done.
  case_bool_decide as He; simpl; [by apply drain_finish; auto|].
  destruct (Z.ltb_spec now deadline); simpl; [|by apply drain_finish; auto].
  by split_and!.
Qed.

(** With no handler left, the next round is the last. *)
Lemma idle_shutdown_finishes error now deadline c :
  server_inv diagnostics_ c → refusing c → tasks_ c = [] →
  let c' := (shutdown_resume diagnostics_ error now deadline c).2 in
  retired c' ∧ write_queue_ c' = write_queue_ c.
Proof.
  intros Hc Hr Hk. assert (countable_tasks c) as Hct by (unfold countable_tasks; by rewrite Hk). cbv zeta.
  assert (shutdown_resume diagnostics_ error now deadline c = (ShutdownDone, shutdown_finish diagnostics_ c)) as ->.
  { unfold shutdown_resume, shutdown_poll. rewrite no_active_handlers by done.
    rewrite bool_decide_eq_true_2 by done. by destruct error. }
  by destruct (drain_finish error now deadline c Hc Hct Hr (or_introl Hk)) as (_ & _ & Hq & _ & Hret & _).
Qed.

Lemma drain_begin start now period c :
  server_inv diagnostics_ c → countable_tasks c →
  let r := shutdown diagnostics_ start now period c in drain_round r.1 false now (start + period) c r.2.
Proof.
  intros Hc Hlt. cbv zeta. unfold shutdown. destruct (begin_shutdown_rest c) as (Htr & Hq & Hs & Ht & _ & Hlog).
  pose proof (drain_poll now (start + period) (begin_shutdown c) (server_begin_shutdown_inv _ _ Hc)
    ltac:(unfold countable_tasks; by rewrite Ht) (begin_shutdown_refusing c Hc)) as Hd.
  unfold drain_round in *. by rewrite Ht, Hq, Hs, Htr, Hlog in Hd.
Qed.

Lemma drain_resume error now deadline c :
  server_inv diagnostics_ c → countable_tasks c → refusing c →
  let r := shutdown_resume diagnostics_ error now deadline c in drain_round r.1 error now deadline c r.2.
Proof. intros Hc Hlt Hr. destruct error; cbv zeta; [by apply drain_finish; auto|by apply drain_poll]. Qed.


(** ** A connection that is draining *)

(** A connection that drains answers every frame it receives - a cancellation too - with
    [connection_closed], if the write queue has room: the handler the cancellation is for is
    not told and goes on, and a frame that breaks the protocol breaks nothing. *)
Theorem draining_drops_frames c frame :
  refusing c →
  let c' := dispatch diagnostics_ frame c in
  write_queue_ c' = (try_enqueue (make_error_frame (stream (header frame)) StatusCode.connection_closed)
    (write_queue_ c)).2 ∧
  tasks_ c' = tasks_ c ∧ store_ c' = store_ c ∧ operations_ c' = operations_ c ∧
  active_handlers_ c' = active_handlers_ c ∧ transport_ c' = transport_ c ∧ log_ c' = log_ c ∧
  ∀ k, is_cancelled k c' = is_cancelled k c.
Proof.
  intros Hr. cbv zeta. unfold dispatch.
  assert (bool_decide (lifecycle_ c = ConnectionState.draining) || bool_decide (lifecycle_ c = ConnectionState.closing)
    || bool_decide (lifecycle_ c = ConnectionState.closed) = true) as -> by (by destruct Hr as [-> |[-> | ->]]).
  unfold mark_terminal. by destruct (has_flag _ _).
Qed.

(** ** A connection that is shut down *)

(** What a connection never does again: open its transport, step back in its life cycle,
    change an operation that has ended; and once it is closed, start a handler. *)
Record fades c c' : Prop := {
  fd_lifecycle : (connection_rank (lifecycle_ c) ≤ connection_rank (lifecycle_ c'))%nat;
  fd_transport : t_is_open (transport_ c) = false → t_is_open (transport_ c') = false;
  fd_store l op : store_ c !! l = Some op → is_terminal op = true → store_ c' !! l = Some op;
  fd_length : lifecycle_ c = ConnectionState.closed → length (store_ c') = length (store_ c);
  fd_tasks k' : lifecycle_ c = ConnectionState.closed → k' ∈ tasks_ c' →
    ∃ k, k ∈ tasks_ c ∧ task_frame k = task_frame k' ∧ task_operation k = task_operation k';
}.

Lemma rank_closed s : (5 ≤ connection_rank s)%nat → s = ConnectionState.closed.
Proof. destruct s; simpl; intros; done || lia. Qed.

Lemma fades_closed c c' :
  fades c c' → lifecycle_ c = ConnectionState.closed → lifecycle_ c' = ConnectionState.closed.
Proof. intros Hf Hl. apply rank_closed. pose proof (fd_lifecycle _ _ Hf) as Hr. by rewrite Hl in Hr. Qed.

Lemma fades_refusing c c' : fades c c' → refusing c → refusing c'.
Proof.
  intros [Hr _ _ _ _] H3'. unfold refusing in *.
  assert (3 ≤ connection_rank (lifecycle_ c))%nat as Hge by (destruct H3' as [E|[E|E]]; rewrite E; simpl; lia).
  destruct (lifecycle_ c'); simpl in Hr; auto; lia.
Qed.

#[export] Instance fades_preorder : PreOrder fades.
Proof.
  split.
  - intros c. split; eauto.
  - intros c1 c2 c3 H12 H23. pose proof (fades_closed _ _ H12) as Hl2.
    destruct H12 as [Hr1 Ht1 Hs1 Hn1 Hk1], H23 as [Hr2 Ht2 Hs2 Hn2 Hk2]. split; auto; [lia| |].
    + intros Hl. rewrite Hn2; auto.
    + intros k' Hl Hk'. destruct (Hk2 k' (Hl2 Hl) Hk') as (k & Hk & ? & ?).
      destruct (Hk1 k Hl Hk) as (k0 & ? & ? & ?). exists k0. split_and!; congruence.
Qed.

(** A change of the other members. *)
Lemma fades_same c c' :
  lifecycle_ c' = lifecycle_ c → (t_is_open (transport_ c) = false → t_is_open (transport_ c') = false) →
  store_ c' = store_ c → tasks_ c' = tasks_ c → fades c c'.
Proof. intros Hl Ht Hs Hk. split; rewrite ?Hl, ?Hs, ?Hk; eauto. Qed.

Lemma call_operation_fades l f c :
  (∀ op, is_terminal op = true → (f op).1.2 = op) → fades c (call_operation l f c).2.
Proof.
  intros Hf. unfold call_operation. destruct (store_ c !! l) as [op|] eqn:Hl; [|reflexivity].
  specialize (Hf op). destruct (f op) as [[b op'] es]. simpl in *. split; simpl; rewrite ?length_insert; eauto.
  intros l' op0 Hl' Ht. destruct (decide (l' = l)) as [->|Hne]; [|by rewrite list_lookup_insert_ne].
  rewrite list_lookup_insert_eq by (by eapply lookup_lt_Some). rewrite Hl in Hl'. injection Hl' as <-.
  by rewrite Hf.
Qed.

Lemma finish_ended next r (op : Operation DiagnosticsEvent) :
  is_terminal op = true → (finish next r op).1.2 = op.
Proof.
  intros Ht. unfold finish. by rewrite op_terminal_transition by (by rewrite <-is_terminal_op_terminal).
Qed.

Lemma fail_op_ended status message (op : Operation DiagnosticsEvent) :
  is_terminal op = true → (fail_op status message op).1.2 = op.
Proof. intros Ht. unfold fail_op. case_decide; [done|by apply finish_ended]. Qed.

Lemma fail_operation_fades l c : fades c (fail_operation l c).
Proof.
  unfold fail_operation. etrans; [|apply call_operation_fades; intros op; apply fail_op_ended].
  apply call_operation_fades. intros op Ht. unfold silent, request_cancellation. by rewrite Ht.
Qed.

Lemma fail_operations_fades c : fades c (fail_operations_on_connection_close c).
Proof.
  unfold fail_operations_on_connection_close. generalize (map_traversal (operations_ c)). intros ops.
  revert c. induction ops as [|[s l] ops IH]; intros c; simpl; [reflexivity|].
  etrans; [apply fail_operation_fades|apply IH].
Qed.

Lemma transition_fades next c : fades c (transition next c).
Proof. split; eauto. apply connection_transition_rank. Qed.

Lemma notify_closed_fades c : fades c (notify_closed diagnostics_ c).
Proof. unfold notify_closed. destruct (closed_notified_ c); by apply fades_same. Qed.

Lemma close_queue_fades c : fades c (close_queue_when_idle c).
Proof. unfold close_queue_when_idle. destruct (_ && _); by apply fades_same. Qed.

Lemma close_transport_fades c : fades c (set_transport (t_close (transport_ c)) c).
Proof. apply fades_same; try done. intros _. apply t_close_closes. Qed.

Lemma handler_end_fades i k c : fades c (handler_end i k c).
Proof.
  unfold handler_end. etrans; [|apply close_queue_fades]. split; eauto.
  intros k' _ Hk'. exists k'. split_and!; try done. eapply elem_of_submseteq; [done|].
  apply submseteq_delete.
Qed.

Lemma set_task_pc_fades i k pc c : tasks_ c !! i = Some k → fades c (set_task_pc i k pc c).
Proof.
  intros Hi. split; eauto. intros k' _ Hk'.
  apply list_elem_of_lookup in Hk' as [j Hj]. apply list_lookup_insert_Some in Hj as [(_ & <- & _)|[_ Hj]].
  - exists k. split_and!; try done. by eapply list_elem_of_lookup_2.
  - exists k'. split_and!; try done. by eapply list_elem_of_lookup_2.
Qed.

Lemma handler_enqueue_fades i k f r c : tasks_ c !! i = Some k → fades c (handler_enqueue i k f r c).
Proof. intros Hi. destruct r; [apply handler_end_fades|by apply set_task_pc_fades]. Qed.

Lemma mark_terminal_fades f c : fades c (mark_terminal f c).
Proof. unfold mark_terminal. destruct (has_flag _ _); by apply fades_same. Qed.

Lemma fail_connection_fades status message c : fades c (fail_connection diagnostics_ status message c).
Proof. unfold fail_connection. apply fades_same; try (by case_decide). intros _. apply t_close_closes. Qed.

Lemma cancel_ended message (op : Operation DiagnosticsEvent) : is_terminal op = true → (cancel message op).1.2 = op.
Proof. intros Ht. unfold cancel, request_cancellation. by rewrite Ht. Qed.

Lemma dispatch_fades frame c : fades c (dispatch diagnostics_ frame c).
Proof.
  assert (∀ s st, fades c (mark_terminal frame (send_operation_error s st c))) as Herr.
  { intros s st. etrans; [|apply mark_terminal_fades]. by apply fades_same. }
  unfold dispatch. destruct (_ || _) eqn:Href; [done|]. destruct (negb _); [apply fail_connection_fades|].
  destruct (decide (stream (header frame) ∈ terminal_streams_ c)); [apply fail_connection_fades|].
  destruct (has_flag _ _).
  { destruct (operations_ c !! _); [|apply fail_connection_fades]. etrans; [|apply mark_terminal_fades].
    apply call_operation_fades. intros op. apply cancel_ended. }
  destruct (peek_message_type _); [|done]. destruct (handlers_ c !! _); [|done].
  destruct (operations_ c !! _); [apply close_transport_fades|]. split; simpl; try done.
  - intros l op Hl _. by apply lookup_app_l_Some.
  - intros Hcl. rewrite Hcl in Href. done.
  - intros k' Hcl. rewrite Hcl in Href. done.
Qed.

Lemma dispatch_frames_fades frames c : fades c (dispatch_frames diagnostics_ frames c).
Proof.
  revert c. induction frames as [|frame frames IH]; intros c; simpl; [reflexivity|].
  set (c1 := notify _ _ c). trans (dispatch diagnostics_ frame c1).
  - trans c1; [by apply fades_same|apply dispatch_fades].
  - destruct (negb _); [reflexivity|apply IH].
Qed.

Lemma read_exit_fades b c : fades c (read_loop_exit diagnostics_ b c).2.
Proof.
  unfold read_loop_exit. simpl. etrans; [|apply notify_closed_fades]. etrans; [|apply transition_fades].
  etrans; [|apply close_queue_fades]. set (c0 := if b then _ else c). trans c0; [|by apply fades_same].
  unfold c0. destruct b; [apply fail_operations_fades|reflexivity].
Qed.

Lemma read_head_fades c : fades c (read_loop_head diagnostics_ c).2.
Proof. unfold read_loop_head. repeat case_match; try apply read_exit_fades; reflexivity. Qed.

Lemma read_resume_fades io c pc c' : read_loop_resume diagnostics_ io c = Some (pc, c') → fades c c'.
Proof.
  unfold read_loop_resume. destruct (t_read_end io (transport_ c)) as [r t1] eqn:Hend.
  assert (fades c (set_transport t1 c)) as Ht.
  { apply fades_same; try done. intros Ho. simpl. pose proof (t_read_end_closed io _ Ho) as Hx. by rewrite Hend in Hx. }
  assert (∀ r' c1, fades c c1 → Some r' = Some (pc, c') → fades c1 r'.2 → fades c c') as Hvia.
  { intros r' c1 H1' [= ->] H2'. by etrans. }
  cbv zeta. destruct r as [[|b bytes]|what]; try (intros Heq; eapply Hvia; [exact Ht|exact Heq|apply read_exit_fades]).
  set (c1 := notify _ _ _). destruct (push _ _) as [[d frames]|]; simpl; [|done].
  set (c2 := dispatch_frames _ _ _). assert (fades c c2) as Hc2.
  { trans c1; [trans (set_transport t1 c); [done|by apply fades_same]|].
    trans (set_decoder d c1); [by apply fades_same|apply dispatch_frames_fades]. }
  destruct (decoder_error _); intros Heq; (eapply Hvia; [exact Hc2|exact Heq|]).
  - etrans; [|apply read_exit_fades]. apply fades_same; try done. intros _. apply t_close_closes.
  - apply read_head_fades.
Qed.

Lemma run_write_failed_closed what (q : WriteQueue (Ch := Ch)) (t : T) :
  t_is_open (run_write_failed what q t).2 = false.
Proof. apply t_close_closes. Qed.

Lemma writer_resume_closed (q : WriteQueue (Ch := Ch)) (t : T) pc q' t' :
  run_resume q t = Some (pc, q', t') → t_is_open t = false → t_is_open t' = false.
Proof.
  unfold run_resume. destruct (ch_resume _) as [[[f|] ch]|]; [|by intros [= <- <- <-]|done].
  destruct (t_write_begin t); intros [= <- <- <-]; [intros _; apply t_close_closes|done].
Qed.

Lemma writer_written_closed f io (q : WriteQueue (Ch := Ch)) (t : T) pc q' t' es :
  run_written f io q t = (pc, q', t', es) → t_is_open t = false → t_is_open t' = false.
Proof.
  unfold run_written. intros Hw Ho. pose proof (t_write_end_closed io t Ho) as Hx.
  destruct (t_write_end io t) as [[|what] t1]; injection Hw as <- <- <- <-; [done|apply t_close_closes].
Qed.

Lemma shutdown_finish_fades c : fades c (shutdown_finish diagnostics_ c).
Proof.
  unfold shutdown_finish. etrans; [|apply notify_closed_fades]. etrans; [|apply transition_fades].
  etrans; [|apply close_transport_fades]. destruct (negb _); [apply fail_operations_fades|reflexivity].
Qed.

Lemma shutdown_poll_fades now deadline c : fades c (shutdown_poll diagnostics_ now deadline c).2.
Proof. unfold shutdown_poll. destruct (_ && _); [reflexivity|apply shutdown_finish_fades]. Qed.

Lemma begin_shutdown_fades c : fades c (begin_shutdown c).
Proof.
  unfold begin_shutdown. set (c0 := if decide _ then _ else c). trans c0.
  - unfold c0. case_decide; [|reflexivity]. etrans; apply transition_fades.
  - case_decide; [apply transition_fades|reflexivity].
Qed.

Lemma handler_returned_fades i k v c : tasks_ c !! i = Some k → fades c (handler_returned registry_ i k v c).
Proof.
  intros Hi. unfold handler_returned. destruct (if frame_encode_ok _ then _ else _) as [f|]; [|apply handler_end_fades].
  pose proof (call_operation_fades (task_operation k) (complete "response ready") c (λ op, finish_ended _ _ op)) as Hcall.
  assert (tasks_ (call_operation (task_operation k) (complete "response ready") c).2 = tasks_ c) as Hk
    by (unfold call_operation; by repeat case_match).
  destruct (call_operation _ _ c) as [b c1]. simpl in *. etrans; [exact Hcall|].
  destruct b; simpl; [|apply handler_end_fades]. destruct (enqueue _ _) as [r q].
  trans (set_write_queue q c1); [by apply fades_same|]. apply handler_enqueue_fades. simpl. by rewrite Hk.
Qed.

Lemma handler_start_fades i k c : tasks_ c !! i = Some k → fades c (handler_start registry_ i k c).
Proof.
  intros Hi. unfold handler_start. destruct (negb _); [|by apply set_task_pc_fades].
  set (f := fail_op _ _). set (c1 := (call_operation (task_operation k) f c).2).
  assert (fades c c1) as Hcall by (apply call_operation_fades; intros op; apply fail_op_ended).
  etrans; [exact Hcall|]. etrans; [|apply handler_end_fades]. by apply fades_same.
Qed.

Lemma sstep_fades c c' : sstep registry_ diagnostics_ c c' → fades c c'.
Proof.
  intros Hstep. destruct Hstep as [c|c rq rs|c i k Hi Hpc|c i k v Hi Hpc|c i k Hi Hpc|
    c i k f what c' Hi Hpc Hr|c io pc c' Hr|c pc q t Hone Hr|c f io pc q t es Hw|c st now pd|c e now d].
  - unfold run. set (c0 := if decide _ then _ else c). assert (fades c c0) as Hf.
    { unfold c0. case_decide; [|reflexivity]. trans (transition ConnectionState.accepting c); [apply transition_fades|].
      etrans; [apply transition_fades|by apply fades_same]. }
    destruct (run_receive _) as [rpc q]. pose proof (read_head_fades (set_write_queue q c0)) as Hh.
    destruct (read_loop_head _ _) as [hpc c1]. simpl in *. etrans; [exact Hf|]. etrans; [|exact Hh]. by apply fades_same.
  - unfold handle. case_match; by apply fades_same.
  - by apply handler_start_fades.
  - by apply handler_returned_fades.
  - apply handler_end_fades.
  - unfold handler_resume in Hr. destruct (enqueue_resume _ _ _) as [[r q]|]; simpl in Hr; [|done].
    injection Hr as <-. trans (set_write_queue q c); [by apply fades_same|by apply handler_enqueue_fades].
  - by eapply read_resume_fades.
  - apply fades_same; try done. simpl. by eapply writer_resume_closed.
  - apply fades_same; try done. simpl. by eapply writer_written_closed.
  - unfold shutdown. etrans; [apply begin_shutdown_fades|apply shutdown_poll_fades].
  - unfold shutdown_resume. destruct e; [apply shutdown_finish_fades|apply shutdown_poll_fades].
Qed.

Lemma fades_retired c c' : fades c c' → retired c → retired c'.
Proof.
  intros Hf [Ht Hl Ha]. split; [by apply Hf|by eapply fades_closed|].
  intros k' Hk'. destruct (fd_tasks _ _ Hf k' Hl Hk') as (k & Hin & _ & Hop).
  destruct (Ha k Hin) as (op & Hlk & Hterm). exists op. rewrite <-Hop. split; [by eapply fd_store|done].
Qed.

(** C17: a connection that has been shut down stays so, whatever its coroutines do afterwards:
    its transport is never open again, no handler and no operation is ever started, and the
    operations that have ended keep their results. *)
Theorem shut_down_for_good c c' :
  retired c → rtc (sstep registry_ diagnostics_) c c' →
  retired c' ∧ length (store_ c') = length (store_ c) ∧
  (∀ l op, store_ c !! l = Some op → is_terminal op = true → store_ c' !! l = Some op) ∧
  (∀ k', k' ∈ tasks_ c' → ∃ k, k ∈ tasks_ c ∧ task_frame k = task_frame k' ∧ task_operation k = task_operation k').
Proof.
  intros Hr Hsteps. assert (fades c c') as Hf.
  { clear Hr. induction Hsteps as [|c1 c2 c3 Hs _ IH]; [reflexivity|]. etrans; [by apply sstep_fades|done]. }
  split; [by eapply fades_retired|]. destruct Hr as [_ Hl _], Hf as [_ _ Hs Hn Hk]. auto.
Qed.

End shutdown.

(** ** Witnesses *)

Section sample.
#[local] Existing Instance demo_codec.
#[local] Instance demo_shutdown_codec_laws : CodecLaws nat (pod_value (λ t, t)) := PodCodec_laws _ _.

Local Abbreviation Server := (ServerConnection (Ch := ListChannel) (T := TcpTransport) (TypeIndex := nat)).

(** The drain period of [server_called] is over while its handler runs. *)
Definition server_overdue : Server := (shutdown listening_hooks 0 5 5 server_called).2.

(** It waits for the handler. *)
Definition server_draining : Server := (shutdown listening_hooks 0 0 5 server_called).2.

Lemma server_called_countable : countable_tasks server_called.
Proof. vm_compute. reflexivity. Qed.

Lemma server_overdue_retired : retired server_overdue.
Proof.
  assert (drain_round (shutdown_poll listening_hooks 5 (0 + 5) (begin_shutdown server_called)).1 false 5 (0 + 5)
    (begin_shutdown server_called) server_overdue) as Hd.
  { apply drain_poll.
    - apply server_begin_shutdown_inv. exact (sreachable_inv _ _ _ _ _ sample_limits_wf server_called_reachable).
    - vm_compute. reflexivity.
    - left. vm_compute. reflexivity. }
  assert ((shutdown_poll listening_hooks 5 (0 + 5) (begin_shutdown server_called)).1 = ShutdownDone) as Hs
    by (vm_compute; reflexivity).
  rewrite Hs in Hd. apply Hd.
Qed.


(** The cancellation of the running request arrives while the connection drains. *)
Lemma draining_drops_frames_witness :
  is_cancelled server_called_task (dispatch listening_hooks server_cancel server_draining) = false ∧
  is_cancelled server_called_task (dispatch listening_hooks server_cancel server_called) = true.
Proof.
  split; [|vm_compute; reflexivity].
  destruct (draining_drops_frames listening_hooks server_draining server_cancel) as (_ & _ & _ & _ & _ & _ & _ & Hk).
  - left. vm_compute. reflexivity.
  - rewrite Hk. vm_compute. reflexivity.
Defined.

(** The handler returns after the shutdown. *)
Lemma shut_down_for_good_witness :
  retired (handler_returned demo_registry 0 server_called_task demo_message server_overdue).
Proof.
  apply (shut_down_for_good demo_registry listening_hooks server_overdue _ server_overdue_retired).
  eapply rtc_l; [|apply rtc_refl]. apply sstep_handler_returned; [vm_compute; reflexivity|reflexivity].
Defined.

End sample.
