(* ===== verification/ServerReads.v ===== *)
(** * A server connection and the cuts of its input

    The transport decides how many bytes a read returns.  Two connections are [alike] when
    they differ only in the representation of the decoder and in the events that report the
    sizes of transfers; reading the same bytes in other pieces leads to alike connections,
    and alike connections behave alike in every step. *)

From S2P Require Import Prelude Identifiers Status Frame FrameCodec FrameDecoder ProtocolViolation.
From S2P Require Import Lifecycle Diagnostics Operation Codec MessageRegistry MessageCodec.
From S2P Require Import Transport Channel WriteQueue ServerConnection.

Local Open Scope Z_scope.

(** ** Decoders *)

(** The decoders stand at the same point of the same bytes. *)
Definition same_decoder (d d' : FrameDecoder) : Prop :=
  decoder_inv d ∧ decoder_inv d' ∧ max_payload_size_ d = max_payload_size_ d' ∧
  decoder_status d = decoder_status d'.

Lemma same_decoder_error d d' : same_decoder d d' → error_ d = error_ d'.
Proof. intros (_ & _ & _ & Hs). unfold decoder_status in Hs. by destruct (error_ d), (error_ d'); simplify_eq. Qed.

(** On the same bytes they yield the same frames and stay together. *)
Lemma push_same d d' bytes :
  same_decoder d d' → ∃ d1 d1' fs, push d bytes = Some (d1, fs) ∧ push d' bytes = Some (d1', fs) ∧ same_decoder d1 d1'.
Proof.
  intros Hd. pose proof (same_decoder_error _ _ Hd) as He. destruct Hd as (Hi & Hi' & Hm & Hs).
  destruct (error_ d') as [e|] eqn:He'.
  { rewrite (push_error d _ e), (push_error d' _ e) by done. by exists d, d', []. }
  destruct (push_spec d bytes Hi He) as (d1 & fs & Hp & Hi1 & Hm1 & Hps).
  destruct (push_spec d' bytes Hi' He') as (d1' & fs' & Hp' & Hi1' & Hm1' & Hps').
  assert (consumed d = consumed d') as Hc.
  { unfold decoder_status in Hs. rewrite He, He' in Hs. by injection Hs. }
  rewrite Hc, Hm in Hps. destruct (parses_det _ _ _ _ _ _ Hps Hps') as [-> Hst].
  exists d1, d1', fs'. split_and!; [done|done|]. split_and!; [done|done|congruence|done].
Qed.

(** Bytes may be handed over in two pieces. *)
Lemma push_split d b1 b2 d1 fs1 d2 fs2 :
  decoder_inv d → error_ d = None → push d b1 = Some (d1, fs1) → error_ d1 = None → push d1 b2 = Some (d2, fs2) →
  ∃ d', push d (b1 ++ b2) = Some (d', fs1 ++ fs2) ∧ same_decoder d' d2.
Proof.
  intros Hi He Hp1 He1 Hp2. destruct (push_spec d b1 Hi He) as (x1 & y1 & Hx1 & Hi1 & Hm1 & Hps1).
  rewrite Hp1 in Hx1. injection Hx1 as <- <-.
  destruct (push_spec d1 b2 Hi1 He1) as (x2 & y2 & Hx2 & Hi2 & Hm2 & Hps2).
  rewrite Hp2 in Hx2. injection Hx2 as <- <-.
  destruct (push_spec d (b1 ++ b2) Hi He) as (d' & fs & Hp & Hi' & Hm' & Hps).
  unfold decoder_status in Hps1. rewrite He1 in Hps1. rewrite Hm1 in Hps2.
  pose proof (parses_resume _ _ _ _ _ _ _ Hps1 Hps2) as Hboth. rewrite <-app_assoc in Hboth.
  destruct (parses_det _ _ _ _ _ _ Hps Hboth) as [-> Hst]. exists d'. split; [done|].
  split_and!; [done|done|congruence|done].
Qed.

Lemma same_decoder_refl d : decoder_inv d → same_decoder d d.
Proof. unfold same_decoder. by intros. Qed.

Lemma same_decoder_sym d d' : same_decoder d d' → same_decoder d' d.
Proof. intros (? & ? & ? & ?). by split_and!. Qed.

Lemma same_decoder_trans d1 d2 d3 : same_decoder d1 d2 → same_decoder d2 d3 → same_decoder d1 d3.
Proof. intros (? & ? & ? & ?) (? & ? & ? & ?). split_and!; congruence || done. Qed.

Section reads.
Context {Ch : Type → Type} `{!Channel Ch} `{!ChannelLaws Ch} `{!MapTraversal} `{!MapTraversalLaws}.
Context {TypeIndex : Type} `{Countable TypeIndex} {msg : TypeIndex → Type} `{C : !Codec TypeIndex msg}.
Context `{!CodecLaws TypeIndex msg}.
Context (registry_ : MessageRegistry (TypeIndex := TypeIndex)) (diagnostics_ : DiagnosticsHooks).

Local Abbreviation Connection := (ServerConnection (Ch := Ch) (T := TcpTransport) (TypeIndex := TypeIndex)).
Implicit Types c : Connection.

(** ** Alike connections *)

(** The events but for those that report the size of a transfer. *)
Definition quiet (es : list DiagnosticsEvent) : list DiagnosticsEvent :=
  filter (λ e, ev_type e ≠ DiagnosticsEventType.bytes_transferred) es.

Lemma quiet_app es es' : quiet (es ++ es') = quiet es ++ quiet es'.
Proof. apply filter_app. Qed.

(** The connection with another decoder and with a longer past. *)
Definition graft (d : FrameDecoder) (past : list DiagnosticsEvent) c : Connection :=
  mkServer (transport_ c) (write_queue_ c) d (handlers_ c) (operations_ c) (terminal_streams_ c)
    (active_handlers_ c) (reading_ c) (lifecycle_ c) (closed_notified_ c) (store_ c) (tasks_ c) (past ++ log_ c).

(** What is left without decoder and log. *)
Definition core c : Connection :=
  mkServer (transport_ c) (write_queue_ c) (new_decoder 0) (handlers_ c) (operations_ c) (terminal_streams_ c)
    (active_handlers_ c) (reading_ c) (lifecycle_ c) (closed_notified_ c) (store_ c) (tasks_ c) [].

Lemma graft_core c : graft (decoder_ c) (log_ c) (core c) = c.
Proof. destruct c. unfold graft. simpl. by rewrite app_nil_r. Qed.

Record alike c c' : Prop := {
  al_core : core c = core c';
  al_decoder : same_decoder (decoder_ c) (decoder_ c');
  al_log : quiet (log_ c) = quiet (log_ c');
}.

Lemma alike_refl c : decoder_inv (decoder_ c) → alike c c.
Proof. intros Hd. split; [done|by apply same_decoder_refl|done]. Qed.

Lemma alike_trans c1 c2 c3 : alike c1 c2 → alike c2 c3 → alike c1 c3.
Proof. intros [? ? ?] [? ? ?]. split; [congruence|by eapply same_decoder_trans|congruence]. Qed.

(** ** Operations that look at neither *)

Definition framed (F : Connection → Connection) : Prop :=
  ∀ d past c, F (graft d past c) = graft d past (F c).

Lemma framed_alike F c c' : framed F → alike c c' → alike (F c) (F c').
Proof.
  intros HF [Hc Hd Hl]. rewrite <-(graft_core c), <-(graft_core c'), !HF, Hc. set (x := F (core c')).
  split; [done|exact Hd|]. simpl. by rewrite !quiet_app, Hl.
Qed.

Lemma framed_comp F G : framed F → framed G → framed (λ c, G (F c)).
Proof. intros HF HG d past c. by rewrite HF, HG. Qed.

Lemma framed_log_events es : framed (log_events es).
Proof. intros d past c. unfold graft, log_events. simpl. by rewrite app_assoc. Qed.

Lemma call_operation_framed l f d past c :
  call_operation l f (graft d past c) = ((call_operation l f c).1, graft d past (call_operation l f c).2).
Proof.
  unfold call_operation. simpl. destruct (store_ c !! l) as [op|]; [|done].
  destruct (f op) as [[b op'] es]. unfold graft, log_events, set_store. simpl. by rewrite app_assoc.
Qed.

Lemma framed_call l f : framed (λ c, (call_operation l f c).2).
Proof. intros d past c. by rewrite call_operation_framed. Qed.

Lemma framed_mark_terminal f : framed (mark_terminal f).
Proof. unfold mark_terminal. destruct (has_flag _ _); done. Qed.

Lemma framed_fail_connection status message : framed (fail_connection diagnostics_ status message).
Proof. intros d past c. unfold fail_connection. case_decide; unfold graft; simpl; by rewrite ?app_assoc. Qed.

Lemma framed_notify_closed : framed (notify_closed diagnostics_).
Proof. intros d past c. unfold notify_closed. simpl. destruct (closed_notified_ c); [done|]. unfold graft. simpl. by rewrite app_assoc. Qed.

Lemma framed_close_queue : framed close_queue_when_idle.
Proof. intros d past c. unfold close_queue_when_idle. simpl. by destruct (_ && _). Qed.

Lemma framed_fail_operations : framed fail_operations_on_connection_close.
Proof.
  intros d past c. unfold fail_operations_on_connection_close. simpl. generalize (map_traversal (operations_ c)).
  intros ops. revert c. induction ops as [|[s l] ops IH]; intros c; simpl; [done|]. rewrite <-IH. f_equal.
  apply (framed_comp _ _ (framed_call _ _) (framed_call _ _)).
Qed.

Lemma framed_dispatch f : framed (dispatch diagnostics_ f).
Proof.
  intros d past c. unfold dispatch. simpl. destruct (_ || _).
  { rewrite <-framed_mark_terminal. done. }
  destruct (negb _); [apply framed_fail_connection|]. destruct (decide _); [apply framed_fail_connection|].
  destruct (has_flag _ _).
  { destruct (operations_ c !! _); [|apply framed_fail_connection]. rewrite call_operation_framed. simpl.
    by rewrite framed_mark_terminal. }
  destruct (peek_message_type _); [|rewrite <-framed_mark_terminal; done].
  destruct (handlers_ c !! _); [|rewrite <-framed_mark_terminal; done].
  destruct (operations_ c !! _); [done|]. unfold graft. simpl. by rewrite app_assoc.
Qed.

Lemma framed_dispatch_frames fs : framed (dispatch_frames diagnostics_ fs).
Proof.
  induction fs as [|f fs IH]; intros d past c; [done|]. cbn [dispatch_frames].
  assert (∀ e, notify diagnostics_ e (graft d past c) = graft d past (notify diagnostics_ e c)) as ->
    by (intros e; apply framed_log_events).
  set (c1 := notify diagnostics_ _ c). rewrite (framed_dispatch f d past c1). set (x := dispatch _ f c1).
  change (transport_ (graft d past x)) with (transport_ x). destruct (negb _); [done|apply IH].
Qed.

(** The same for operations that also say where the loop stands. *)
Definition framed_pc {A} (F : Connection → A * Connection) : Prop :=
  ∀ d past c, F (graft d past c) = ((F c).1, graft d past (F c).2).

Lemma framed_pc_alike {A} (F : Connection → A * Connection) c c' :
  framed_pc F → alike c c' → (F c).1 = (F c').1 ∧ alike (F c).2 (F c').2.
Proof.
  intros HF Ha. split.
  - rewrite <-(graft_core c), <-(graft_core c'), !HF, (al_core _ _ Ha). done.
  - apply (framed_alike (λ c, (F c).2)); [|done]. intros d past x. by rewrite HF.
Qed.

Lemma framed_read_exit lost : framed_pc (read_loop_exit diagnostics_ lost).
Proof.
  intros d past c. unfold read_loop_exit. cbn [fst snd]. f_equal.
  set (c0 := if lost then fail_operations_on_connection_close c else c).
  assert ((if lost then fail_operations_on_connection_close (graft d past c) else graft d past c) = graft d past c0)
    as -> by (unfold c0; destruct lost; [apply framed_fail_operations|done]).
  change (set_reading false (graft d past c0)) with (graft d past (set_reading false c0)).
  rewrite framed_close_queue. set (c1 := close_queue_when_idle _).
  change (transition ConnectionState.closed (graft d past c1)) with (graft d past (transition ConnectionState.closed c1)).
  apply framed_notify_closed.
Qed.

Lemma framed_read_head : framed_pc (read_loop_head diagnostics_).
Proof.
  intros d past c. unfold read_loop_head. change (transport_ (graft d past c)) with (transport_ c).
  destruct (t_is_open (transport_ c)); [destruct (t_read_begin (transport_ c)); [done|]|]; apply framed_read_exit.
Qed.

(** ** Reading *)

(** The rest of a read, once the decoder has been given the bytes. *)
Definition after_push (fs : list Frame) c : ReadPc * Connection :=
  let c := dispatch_frames diagnostics_ fs c in
  match decoder_error (decoder_ c) with
  | Some error =>
      let c := notify diagnostics_ (mkEvent DiagnosticsEventType.protocol_error default_id
                 (status_for_frame_validation error) 0 true (frame_validation_message error)) c in
      read_loop_exit diagnostics_ false (set_transport (t_close (transport_ c)) c)
  | None => read_loop_head diagnostics_ c
  end.

(** The event of a read of [n] bytes. *)
Definition read_event (n : nat) : DiagnosticsEvent :=
  mkEvent DiagnosticsEventType.bytes_transferred default_id StatusCode.ok (Z.of_nat n) true EmptyString.

Lemma read_unfold b bytes c d fs :
  push (decoder_ c) (b :: bytes) = Some (d, fs) →
  read_loop_resume diagnostics_ (IoRead (b :: bytes)) c
    = Some (after_push fs (set_decoder d (notify diagnostics_ (read_event (length (b :: bytes))) c))).
Proof.
  intros Hp. unfold read_loop_resume. cbn [t_read_end TcpTransport_transport tcp_read_end].
  set (c0 := set_transport (transport_ c) c). assert (c0 = c) as -> by (by destruct c).
  cbv zeta. set (c1 := notify _ _ c). change (decoder_ c1) with (decoder_ c). rewrite Hp. cbn [mbind option_bind].
  unfold after_push. by destruct (decoder_error _).
Qed.

Lemma after_push_alike fs c c' :
  alike c c' → (after_push fs c).1 = (after_push fs c').1 ∧ alike (after_push fs c).2 (after_push fs c').2.
Proof.
  intros Ha. unfold after_push. pose proof (framed_alike _ _ _ (framed_dispatch_frames fs) Ha) as Hd.
  set (x := dispatch_frames _ fs c) in *. set (x' := dispatch_frames _ fs c') in *.
  unfold decoder_error. rewrite (same_decoder_error _ _ (al_decoder _ _ Hd)).
  destruct (error_ (decoder_ x')) as [e|]; [|by apply (framed_pc_alike _ _ _ framed_read_head)].
  apply (framed_pc_alike _ _ _ (framed_read_exit false)).
  refine (framed_alike (λ c, set_transport (t_close (transport_ c)) (notify diagnostics_ _ c)) _ _ _ Hd).
  intros d past y. unfold graft. simpl. by rewrite app_assoc.
Qed.

Lemma framed_same F c : framed F → decoder_ (F c) = decoder_ c.
Proof. intros HF. by rewrite <-(graft_core c), HF. Qed.

Lemma dispatch_frames_app fs1 fs2 c :
  t_is_open (transport_ (dispatch_frames diagnostics_ fs1 c)) = true →
  dispatch_frames diagnostics_ (fs1 ++ fs2) c
    = dispatch_frames diagnostics_ fs2 (dispatch_frames diagnostics_ fs1 c).
Proof.
  revert c. induction fs1 as [|f fs1 IH]; intros c; [done|]. cbn [dispatch_frames app].
  destruct (t_is_open (transport_ (dispatch diagnostics_ f _))) eqn:Ho; cbn [negb]; [apply IH|congruence].
Qed.

Lemma head_waiting c c' : read_loop_head diagnostics_ c = (ReadWaiting, c') → c' = c ∧ t_is_open (transport_ c) = true.
Proof. unfold read_loop_head, read_loop_exit. repeat case_match; by intros [= <-]. Qed.

(** A read after which the loop goes on. *)
Lemma after_push_waiting fs c c' :
  after_push fs c = (ReadWaiting, c') →
  c' = dispatch_frames diagnostics_ fs c ∧ t_is_open (transport_ c') = true ∧ error_ (decoder_ c') = None.
Proof.
  unfold after_push. destruct (decoder_error _) eqn:He; [done|]. intros [-> Ho]%head_waiting. done.
Qed.

Lemma framed_set_decoder F d c : framed F → F (set_decoder d c) = set_decoder d (F c).
Proof.
  intros HF. assert (set_decoder d c = graft d (log_ c) (core c)) as -> by (by rewrite <-(graft_core c) at 1).
  rewrite HF. rewrite <-(graft_core c) at 3. by rewrite HF.
Qed.

Lemma quiet_read n : quiet (notify_diagnostics diagnostics_ (read_event n)) = [].
Proof. unfold notify_diagnostics. destruct (on_event diagnostics_) as [o|]; [by destruct (o _)|done]. Qed.

(** Another decoder and other sizes reported. *)
Lemma alike_again d d' n c :
  same_decoder d d' → alike (set_decoder d c) (set_decoder d' (notify diagnostics_ (read_event n) c)).
Proof.
  intros Hd. split; [done|done|]. simpl. by rewrite quiet_app, quiet_read, app_nil_r.
Qed.

Lemma alike_sym c c' : alike c c' → alike c' c.
Proof. intros [? ? ?]. split; [done|by apply same_decoder_sym|done]. Qed.

(** Two reads in one. *)
Lemma read_split b1 b2 c c1 pc c2 :
  decoder_inv (decoder_ c) → error_ (decoder_ c) = None → b2 ≠ [] →
  read_loop_resume diagnostics_ (IoRead b1) c = Some (ReadWaiting, c1) →
  read_loop_resume diagnostics_ (IoRead b2) c1 = Some (pc, c2) →
  ∃ c', read_loop_resume diagnostics_ (IoRead (b1 ++ b2)) c = Some (pc, c') ∧ alike c' c2.
Proof.
  intros Hi He Hb2 Hr1 Hr2. destruct b1 as [|x1 b1]; [done|]. destruct b2 as [|x2 b2]; [done|].
  destruct (push_inv (decoder_ c) (x1 :: b1) Hi) as (d1 & fs1 & Hp1 & Hi1 & _).
  rewrite (read_unfold _ _ _ _ _ Hp1) in Hr1. apply Some_inj, after_push_waiting in Hr1 as (-> & Ho & He1).
  set (s1 := set_decoder d1 _) in *. set (a := dispatch_frames _ fs1 s1) in *.
  assert (decoder_ a = d1) as Hda by (by apply (framed_same _ s1 (framed_dispatch_frames fs1))).
  rewrite Hda in He1. destruct (push_inv d1 (x2 :: b2) Hi1) as (d2 & fs2 & Hp2 & _). 
  rewrite (read_unfold x2 b2 a d2 fs2) in Hr2 by (by rewrite Hda).
  destruct (push_split _ _ _ _ _ _ _ Hi He Hp1 He1 Hp2) as (d & Hp & Hd).
  rewrite <-app_comm_cons in Hp. rewrite <-app_comm_cons, (read_unfold _ _ _ _ _ Hp).
  set (s := set_decoder d _). set (n := length (x2 :: b2)) in *.
  set (s2 := set_decoder d2 (notify diagnostics_ (read_event n) a)) in *.
  assert (alike (dispatch_frames diagnostics_ fs1 s) s2) as Ha.
  { pose proof (framed_dispatch_frames fs1) as HF. assert (same_decoder d2 d2) as Hd2 by (split_and!; apply Hd || done).
    assert (alike s (set_decoder d2 s1)) as Hs.
    { eapply alike_trans; [apply alike_sym, (alike_again d2 d)|exact (alike_again d2 d2 _ c Hd2)]. by apply same_decoder_sym. }
    apply (framed_alike _ _ _ HF) in Hs. rewrite (framed_set_decoder _ d2 s1 HF) in Hs.
    eapply alike_trans; [exact Hs|]. by apply alike_again. }
  assert (after_push (fs1 ++ fs2) s = after_push fs2 (dispatch_frames diagnostics_ fs1 s)) as ->.
  { unfold after_push. rewrite dispatch_frames_app; [done|].
    change (t_is_open (transport_ (core (dispatch_frames diagnostics_ fs1 s))) = true). by rewrite (al_core _ _ Ha). }
  destruct (after_push_alike fs2 _ _ Ha) as [Hpc Hal]. apply Some_inj in Hr2. rewrite Hr2 in Hpc, Hal.
  destruct (after_push fs2 (dispatch_frames diagnostics_ fs1 s)) as [pc' c']. simpl in *. subst pc'. by exists c'.
Qed.

(** ** Any number of reads *)

Fixpoint read_chunks (bs : list Buffer) c : option (ReadPc * Connection) :=
  match bs with
  | [] => Some (ReadWaiting, c)
  | b :: bs =>
      match read_loop_resume diagnostics_ (IoRead b) c with
      | Some (ReadWaiting, c1) => read_chunks bs c1
      | r => r
      end
  end.

Lemma read_waiting_decoder b c c1 :
  decoder_inv (decoder_ c) → read_loop_resume diagnostics_ (IoRead b) c = Some (ReadWaiting, c1) →
  decoder_inv (decoder_ c1) ∧ error_ (decoder_ c1) = None.
Proof.
  intros Hi. destruct b as [|x b]; [done|]. destruct (push_inv (decoder_ c) (x :: b) Hi) as (d & fs & Hp & Hd & _).
  rewrite (read_unfold _ _ _ _ _ Hp). intros (-> & _ & He)%Some_inj%after_push_waiting. split; [|done].
  by rewrite (framed_same _ _ (framed_dispatch_frames fs)).
Qed.

Lemma read_chunks_whole bs b c c1 pc c2 :
  decoder_inv (decoder_ c) → error_ (decoder_ c) = None → b ≠ [] →
  read_chunks bs c = Some (ReadWaiting, c1) → read_loop_resume diagnostics_ (IoRead b) c1 = Some (pc, c2) →
  ∃ c', read_loop_resume diagnostics_ (IoRead (concat bs ++ b)) c = Some (pc, c') ∧ alike c' c2.
Proof.
  revert c. induction bs as [|b0 bs IH]; intros c Hi He Hb Hbs Hr; cbn [read_chunks concat app] in *.
  { injection Hbs as ->. exists c2. split; [done|]. apply alike_refl. destruct b as [|x b]; [done|].
    destruct (push_inv (decoder_ c1) (x :: b) Hi) as (d & fs & Hp & Hd & _).
    rewrite (read_unfold _ _ _ _ _ Hp) in Hr. apply Some_inj in Hr.
    destruct (after_push_alike fs _ _ (alike_refl (set_decoder d (notify diagnostics_ (read_event (length (x :: b))) c1)) Hd))
      as [_ [_ Hdec _]]. rewrite Hr in Hdec. apply Hdec. }
  destruct (read_loop_resume diagnostics_ (IoRead b0) c) as [[[] c0]|] eqn:Hr0; try done.
  destruct (read_waiting_decoder _ _ _ Hi Hr0) as [Hi0 He0].
  destruct (IH c0 Hi0 He0 Hb Hbs Hr) as (c0' & Hr0' & Ha).
  destruct (read_split b0 (concat bs ++ b) c c0 pc c0' Hi He) as (c' & Hc' & Ha'); [|done|done|].
  - intros [_ ->]%app_nil. done.
  - exists c'. rewrite <-app_assoc. split; [done|by eapply alike_trans].
Qed.

(** C30: how the transport cuts the bytes it delivers does not matter to a server connection:
    if the same bytes arrive in two different sequences of reads, the last of which may end
    the read loop, then the loops stand at the same point and the connections are [alike] -
    the same handlers, operations, queue, transport and life cycle, and the same events but
    for those that report the sizes of the reads. *)
Theorem server_reads_uncut t limits c bs b c1 pc c2 bs' b' c1' pc' c2' :
  limits_wf limits → sreachable registry_ diagnostics_ t limits c → decoder_error (decoder_ c) = None →
  concat bs ++ b = concat bs' ++ b' → b ≠ [] → b' ≠ [] →
  read_chunks bs c = Some (ReadWaiting, c1) → read_loop_resume diagnostics_ (IoRead b) c1 = Some (pc, c2) →
  read_chunks bs' c = Some (ReadWaiting, c1') → read_loop_resume diagnostics_ (IoRead b') c1' = Some (pc', c2') →
  pc = pc' ∧ alike c2 c2'.
Proof.
  intros Hl Hr He Heq Hb Hb' H1' H2' H3' H4'.
  pose proof (vi_decoder _ _ (sreachable_inv _ _ _ _ _ Hl Hr)) as Hi.
  destruct (read_chunks_whole _ _ _ _ _ _ Hi He Hb H1' H2') as (x & Hx & Ha).
  destruct (read_chunks_whole _ _ _ _ _ _ Hi He Hb' H3' H4') as (x' & Hx' & Ha').
  rewrite Heq, Hx' in Hx. injection Hx as -> ->. split; [done|].
  eapply alike_trans; [by apply alike_sym|done].
Qed.

(** ** Alike connections behave alike *)

Lemma alike_fields c c' :
  alike c c' → transport_ c = transport_ c' ∧ write_queue_ c = write_queue_ c' ∧ tasks_ c = tasks_ c'.
Proof.
  intros [Hc _ _]. split_and!; [apply (f_equal transport_) in Hc|apply (f_equal write_queue_) in Hc|
    apply (f_equal tasks_) in Hc]; exact Hc.
Qed.

Lemma framed_handler_end i k : framed (handler_end i k).
Proof. intros d past c. unfold handler_end. by rewrite <-framed_close_queue. Qed.

Lemma framed_handler_enqueue i k f r : framed (handler_enqueue i k f r).
Proof. destruct r; [apply framed_handler_end|done]. Qed.

Lemma framed_handler_start i k : framed (handler_start registry_ i k).
Proof.
  intros d past c. unfold handler_start. destruct (negb _); [|done].
  by rewrite call_operation_framed, <-framed_handler_end.
Qed.

Lemma framed_handler_returned i k v : framed (handler_returned registry_ i k v).
Proof.
  intros d past c. unfold handler_returned. destruct (if frame_encode_ok _ then _ else _); [|apply framed_handler_end].
  rewrite call_operation_framed. destruct (call_operation _ _ c) as [b c1]. cbn [fst snd].
  destruct (negb b); [apply framed_handler_end|]. change (write_queue_ (graft d past c1)) with (write_queue_ c1).
  destruct (enqueue _ _) as [r q]. by rewrite <-framed_handler_enqueue.
Qed.

Lemma framed_run : framed (λ c, (run diagnostics_ c).1.1).
Proof.
  intros d past c. unfold run. change (lifecycle_ (graft d past c)) with (lifecycle_ c).
  set (c0 := if decide _ then _ else c).
  assert ((if decide (lifecycle_ c = ConnectionState.created) then notify diagnostics_
    (event_of_type DiagnosticsEventType.connection_opened)
    (transition ConnectionState.active (transition ConnectionState.accepting (graft d past c))) else graft d past c)
    = graft d past c0) as ->.
  { unfold c0. case_decide; [|done]. exact (framed_log_events _ d past (transition ConnectionState.active (transition ConnectionState.accepting c))). }
  change (write_queue_ (graft d past c0)) with (write_queue_ c0). destruct (run_receive _) as [rpc q].
  change (set_write_queue q (graft d past c0)) with (graft d past (set_write_queue q c0)).
  rewrite framed_read_head. by destruct (read_loop_head _ _).
Qed.

Lemma framed_shutdown_finish : framed (shutdown_finish diagnostics_).
Proof.
  intros d past c. unfold shutdown_finish. change (active_handlers_ (graft d past c)) with (active_handlers_ c).
  set (c0 := if negb _ then _ else c).
  assert ((if negb (active_handlers_ c =? 0) then fail_operations_on_connection_close (graft d past c)
    else graft d past c) = graft d past c0) as ->
    by (unfold c0; destruct (negb _); [apply framed_fail_operations|done]).
  exact (framed_notify_closed d past (transition ConnectionState.closed (set_transport (t_close (transport_ c0)) c0))).
Qed.

Lemma framed_shutdown_poll now deadline : framed_pc (shutdown_poll diagnostics_ now deadline).
Proof.
  intros d past c. unfold shutdown_poll. change (active_handlers_ (graft d past c)) with (active_handlers_ c).
  destruct (_ && _); [done|]. by rewrite framed_shutdown_finish.
Qed.

Lemma framed_begin_shutdown : framed begin_shutdown.
Proof. intros d past c. unfold begin_shutdown. simpl. by repeat case_decide. Qed.

Lemma read_alike io c c' pc c1 :
  alike c c' → read_loop_resume diagnostics_ io c = Some (pc, c1) →
  ∃ c1', read_loop_resume diagnostics_ io c' = Some (pc, c1') ∧ alike c1 c1'.
Proof.
  intros Ha. destruct (alike_fields _ _ Ha) as (Ht & _ & _).
  assert (∀ lost t, alike c c' → ∃ c1', Some (read_loop_exit diagnostics_ lost (set_transport t c')) = Some (ReadEnded, c1') ∧
    alike (read_loop_exit diagnostics_ lost (set_transport t c)).2 c1') as Hexit.
  { intros lost t _. eexists. split; [reflexivity|].
    apply (framed_pc_alike (λ c, read_loop_exit diagnostics_ lost (set_transport t c))); [|done].
    intros d past x. exact (framed_read_exit lost d past (set_transport t x)). }
  destruct io as [[|x b]| |what].
  1,3,4: unfold read_loop_resume; rewrite <-Ht; cbn; intros [= <- <-]; by apply Hexit.
  destruct (push_same _ _ (x :: b) (al_decoder _ _ Ha)) as (d & d' & fs & Hp & Hp' & Hd).
  rewrite (read_unfold _ _ _ _ _ Hp), (read_unfold _ _ _ _ _ Hp').
  set (e := read_event _). assert (alike (set_decoder d (notify diagnostics_ e c)) (set_decoder d' (notify diagnostics_ e c'))) as Hs.
  { destruct (framed_alike _ _ _ (framed_log_events (notify_diagnostics diagnostics_ e)) Ha) as [Hc _ Hl]. by split. }
  destruct (after_push_alike fs _ _ Hs) as [Hpc Hal]. intros [= Hr]. rewrite Hr in Hpc, Hal. simpl in *.
  eexists. rewrite (surjective_pairing (after_push fs _)), <-Hpc. by split.
Qed.

(** The difference stays invisible: whatever step one of two alike connections can make,
    the other can make the same one, and they are alike again. *)
Theorem alike_simulates c c' c1 :
  alike c c' → sstep registry_ diagnostics_ c c1 →
  ∃ c1', sstep registry_ diagnostics_ c' c1' ∧ alike c1 c1'.
Proof.
  intros Ha Hs. destruct (alike_fields _ _ Ha) as (Ht & Hq & Hk).
  assert (∀ F, framed F → (∀ x, tasks_ x = tasks_ c' → sstep registry_ diagnostics_ x (F x)) →
    ∃ c1', sstep registry_ diagnostics_ c' c1' ∧ alike (F c) c1') as Hsame.
  { intros F HF Hst. exists (F c'). split; [by apply Hst|by apply framed_alike]. }
  destruct Hs as [c|c rq rs|c i k Hi Hpc|c i k v Hi Hpc|c i k Hi Hpc|c i k f what c1 Hi Hpc Hr|c io pc c1 Hr|
    c pc q t Hone Hr|c f io pc q t es Hw|c st now pd|c e now dl]; rewrite ?Hk in *.
  - apply (Hsame _ framed_run). constructor.
  - apply Hsame; [unfold handle; by destruct (message_type_of _ _ _)|constructor].
  - apply (Hsame _ (framed_handler_start i k)). intros x Hx. constructor; congruence.
  - apply (Hsame _ (framed_handler_returned i k v)). intros x Hx. constructor; congruence.
  - apply (Hsame _ (framed_handler_end i k)). intros x Hx. apply sstep_handler_threw; congruence.
  - unfold handler_resume in Hr. rewrite Hq in Hr. destruct (enqueue_resume f what (write_queue_ c')) as [[r q]|] eqn:E; [|done].
    injection Hr as <-. exists (handler_enqueue i k f r (set_write_queue q c')). split.
    + eapply sstep_handler_resume; [done|done|]. unfold handler_resume. by rewrite E.
    + apply (framed_alike (λ c, handler_enqueue i k f r (set_write_queue q c))); [|done].
      intros d past x. exact (framed_handler_enqueue i k f r d past (set_write_queue q x)).
  - destruct (read_alike _ _ _ _ _ Ha Hr) as (c1' & Hr' & Ha'). exists c1'. split; [by eapply sstep_read|done].
  - rewrite Hq in Hone, Hr. rewrite Ht in Hr. exists (set_transport t (set_write_queue q c')).
    split; [by eapply sstep_write|]. by apply (framed_alike (λ c, set_transport t (set_write_queue q c))).
  - rewrite Hq, Ht in Hw. exists (log_events es (set_transport t (set_write_queue q c'))).
    split; [by eapply sstep_written|].
    apply (framed_alike (λ c, log_events es (set_transport t (set_write_queue q c)))); [|done].
    intros d past x. exact (framed_log_events es d past (set_transport t (set_write_queue q x))).
  - apply (Hsame (λ c, (shutdown diagnostics_ st now pd c).2)); [|constructor].
    intros d past x. unfold shutdown. by rewrite framed_begin_shutdown, framed_shutdown_poll.
  - apply (Hsame (λ c, (shutdown_resume diagnostics_ e now dl c).2)); [|constructor].
    intros d past x. unfold shutdown_resume. destruct e; [apply framed_shutdown_finish|]. by rewrite framed_shutdown_poll.
Qed.

End reads.

(** ** Witnesses *)

Section sample.
#[local] Existing Instance demo_codec.
#[local] Instance demo_reads_codec_laws : CodecLaws nat (pod_value (λ t, t)) := PodCodec_laws _ _.

Local Abbreviation Server := (ServerConnection (Ch := ListChannel) (T := TcpTransport) (TypeIndex := nat)).

Lemma server_ready_reachable :
  sreachable demo_registry listening_hooks new_tcp_transport sample_limits server_ready.
Proof.
  eapply rtc_l; [apply (sstep_handle _ _ _ 2%nat 2%nat)|]. eapply rtc_l; [apply sstep_run|apply rtc_refl].
Qed.

(** The request arrives in two pieces. *)
Definition first_piece : Buffer := take 7 (encode_frame demo_frame).
Definition second_piece : Buffer := drop 7 (encode_frame demo_frame).

Definition server_half : Server :=
  match read_loop_resume listening_hooks (IoRead first_piece) server_ready with Some (_, c) => c | None => server_ready end.

Definition server_whole : Server :=
  match read_loop_resume listening_hooks (IoRead second_piece) server_half with Some (_, c) => c | None => server_half end.

Lemma server_reads_uncut_witness : alike server_whole server_spawned ∧ log_ server_whole ≠ log_ server_spawned.
Proof.
  split; [|by vm_compute].
  apply (server_reads_uncut demo_registry listening_hooks new_tcp_transport sample_limits server_ready
    [first_piece] second_piece server_half ReadWaiting server_whole [] (encode_frame demo_frame) server_ready
    ReadWaiting server_spawned sample_limits_wf server_ready_reachable); vm_compute; reflexivity || done.
Defined.

Lemma server_whole_alike : alike server_spawned server_whole.
Proof.
  destruct (read_split listening_hooks first_piece second_piece server_ready server_half ReadWaiting server_whole)
    as (c & Hc & Ha); [by apply new_decoder_inv|vm_compute; reflexivity|by vm_compute|vm_compute; reflexivity..|].
  assert (first_piece ++ second_piece = encode_frame demo_frame) as Hb by apply take_drop.
  rewrite Hb in Hc. unfold server_spawned. by rewrite Hc.
Qed.

Lemma alike_simulates_witness :
  ∃ c, sstep demo_registry listening_hooks server_whole c ∧ alike server_called c.
Proof.
  apply (alike_simulates demo_registry listening_hooks server_spawned server_whole server_called server_whole_alike).
  apply sstep_handler_start; [vm_compute; reflexivity|reflexivity].
Defined.

End sample.
