(* ===== verification/EndToEnd.v ===== *)
(** * Client and server together

    What one endpoint sends, as the other endpoint takes it: the response of a server's
    handler at the client that waits for it, or at one that has given the request up and
    started another, and the reply of a server that is draining. *)

From S2P Require Import Prelude Identifiers Status Frame FrameCodec FrameDecoder ProtocolViolation.
From S2P Require Import Lifecycle Diagnostics Operation StreamIdAllocator Codec MessageRegistry MessageCodec.
From S2P Require Import Transport Channel Timer WriteQueue.
From S2P Require Import ServerConnection.
From S2P Require Import ClientConnection.

Local Open Scope Z_scope.

Section end_to_end.
Context {Ch : Type → Type} `{!Channel Ch} `{!ChannelLaws Ch} {T : Type} `{!Transport T} `{!TransportLaws T}.
Context {Tm : Type} `{!SteadyTimer Tm}.
Context `{!MapBegin} `{!MapBeginLaws} `{!MapTraversal} `{!MapTraversalLaws}.
Context {TypeIndex : Type} `{Countable TypeIndex} {msg : TypeIndex → Type} `{C : !Codec TypeIndex msg}.
Context `{!CodecLaws TypeIndex msg}.

(** Both endpoints share the registry; each has its own observer. *)
Context (registry : MessageRegistry (TypeIndex := TypeIndex)) (client_hooks server_hooks : DiagnosticsHooks).

Local Abbreviation Client := (ClientConnection (Ch := Ch) (Tm := Tm) (T := T)).
Local Abbreviation Server := (ServerConnection (Ch := Ch) (T := T) (TypeIndex := TypeIndex)).

(** The frame of a handler's response is one a client takes as a plain response. *)
Lemma response_frame_plain (k : HandlerTask (TypeIndex := TypeIndex)) v f :
  registry_inv registry → response_frame registry k v = Some f →
  type (header f) = FrameType.response ∧ stream (header f) = task_stream k ∧
  has_flag (flags (header f)) FrameFlags.cancel = false ∧
  has_flag (flags (header f)) FrameFlags.error = false ∧
  decode_message registry (rh_response (task_handler k)) f = decode_success v.
Proof.
  intros Hreg. unfold response_frame.
  destruct (encode_message_factory registry (rh_response (task_handler k)) v (task_stream k)
    FrameType.response) as [[f0 Hf]|(st & m & Hst & Hf)]; rewrite Hf; [|done].
  simpl. intros [= <-].
  pose proof (encode_message_success _ _ _ _ _ _ _ _ _ Hf) as (_ & _ & _ & _ & _ & _ & Hh).
  unfold end_stream. rewrite Hh. simpl. split_and!; try done.
  rewrite <-(proj1 (decode_message_encode _ _ _ _ _ _ _ _ _ Hreg Hf)).
  unfold decode_message. simpl. by rewrite Hh.
Qed.

(** A caller that waits after the response has arrived gets it. *)
Lemma wait_after_response (cc : Client) ty l p f op :
  conn_inv client_hooks cc → heap_ cc !! l = Some (cleaned true (responded f op p)) →
  view_pending (ch_view (ch_try_send f (pr_channel p)).2) = [f] →
  receives (ch_try_send f (pr_channel p)).2 = 0%nat →
  ∃ cc', async_wait_resume registry ty l (async_wait (msg := msg) ty (handle_of l) cc).2
    = Some (decode_message registry ty f, cc').
Proof.
  intros Hc Hl Hp Hr. unfold async_wait_resume, async_wait. simpl.
  rewrite list_lookup_alter_eq, Hl. simpl.
  set (ch := (ch_try_send f (pr_channel p)).2) in *.
  pose proof (ch_view_async_receive ch) as Hv. unfold receives in Hr.
  unfold view_pending in Hp. destruct (cv_done (ch_view ch)) eqn:Hd; [|simpl in Hr; lia].
  simpl in Hp. unfold view_async_receive in Hv. rewrite Hp, Hd in Hv. simpl in Hv.
  pose proof (ch_view_resume (ch_async_receive ch)) as Hres. rewrite Hv in Hres.
  unfold view_resume in Hres. simpl in Hres.
  destruct (ch_resume (ch_async_receive ch)) as [[r ch']|]; [|done]. simpl in Hres.
  injection Hres as -> _. simpl. eauto.
Qed.

(** The value a server's handler returns is the value the client's caller gets: the
    response frame of the handler, arriving at a client that has a request on that stream,
    makes [async_wait] return exactly that value. *)
Theorem response_reaches_caller t limits maximum (cc : Client) (k : HandlerTask (TypeIndex := TypeIndex)) v f l p :
  limits_wf limits → in_u 64 maximum → creachable registry client_hooks t limits maximum cc →
  registry_inv registry → response_frame registry k v = Some f →
  pending_ cc !! task_stream k = Some l → heap_ cc !! l = Some p →
  (task_stream k ∉ terminal_streams_ cc) → receives (pr_channel p) = 0%nat →
  let cc1 := dispatch client_hooks f cc in
  ∃ cc2, async_wait_resume registry (rh_response (task_handler k)) l
    (async_wait (msg := msg) (rh_response (task_handler k)) (handle_of l) cc1).2
    = Some (decode_success v, cc2).
Proof.
  intros Hl Hm Hr Hreg Hf Hs Hp Hterm Hrec. pose proof (creachable_inv _ _ _ _ _ _ Hl Hm Hr) as Hc.
  destruct (response_frame_plain k v f Hreg Hf) as (Hty & Hst & Hcan & Herr & Hd). cbv zeta.
  rewrite <-Hst in Hs, Hterm. rewrite <-Hd.
  destruct (dispatch_response_spec client_hooks cc f l p Hc Hty Hcan Herr Hs Hp Hterm)
    as [(op & Hh & _ & Hv) _].
  destruct (ci_table _ _ Hc _ _ Hs) as (p0 & Hp0 & _ & Hrem). rewrite Hp in Hp0. injection Hp0 as <-.
  destruct (live_try_send _ p f (ci_objects _ _ Hc _ _ Hp) Hrem) as (_ & _ & _ & _ & Hrc & _).
  apply (wait_after_response _ _ _ p _ op); [by apply dispatch_inv| |done|by rewrite Hrc].
  rewrite Hh, list_lookup_insert_eq; [done|]. by eapply lookup_lt_Some.
Qed.

(** C21: the answer to a request that was given up is delivered to another request.  Take a
    request on stream [s] that has ended while its identifier is not yet given back, which is
    the state of a request that timed out or was cancelled until its caller has been told,
    with the lower identifiers of the client in use and no last frame seen on [s] so far.
    Once its caller has been told, the next
    request takes [s]; and a response that a server's handler computed for the old request
    on [s] makes the caller of the new request get the old request's answer. *)
Theorem late_answer_misdelivered t limits maximum (cc : Client) l p ty r cc1 ty' v' r' cc2 l'
    (k : HandlerTask (TypeIndex := TypeIndex)) v f :
  limits_wf limits → in_u 64 maximum → creachable registry client_hooks t limits maximum cc →
  registry_inv registry →
  let s := op_stream (pr_operation p) in
  heap_ cc !! l = Some p → is_terminal (pr_operation p) = true → pr_stream_released p = false →
  (s ∉ terminal_streams_ cc) → lower_in_use s cc →
  async_wait_resume (msg := msg) registry ty l cc = Some (r, cc1) →
  start_request registry client_hooks ty' v' cc1 = (r', cc2) → started l' r' →
  task_stream k = s → response_frame registry k v = Some f →
  pending_ cc2 !! s = Some l' ∧
  ∃ cc3, async_wait_resume registry (rh_response (task_handler k)) l'
      (async_wait (msg := msg) (rh_response (task_handler k)) (handle_of l') (dispatch client_hooks f cc2)).2
    = Some (decode_success v, cc3).
Proof.
  intros Hl Hm Hr Hreg s Hp Ht Hrel Hterm Hlow Hw Hst Hok Hk Hf.
  pose proof (creachable_inv _ _ _ _ _ _ Hl Hm Hr) as Hc.
  rewrite <-(oi_removed _ _ (ci_objects _ _ Hc _ _ Hp)) in Ht.
  destruct (held_identifier _ cc l p Hc Hp Hrel) as (Hpos & Hodd & _).
  destruct (wait_resume_releases registry client_hooks ty l cc p r cc1 Hc Hp Ht Hrel Hw) as (Hc1 & Hu & Ht1). fold s in Hu.
  destruct (start_takes_lowest registry client_hooks ty' v' cc1 s l' r' cc2) as (Hp2 & Hs2 & Ht2 & Hc2);
    [done|done|done|rewrite Hu; set_solver| |done|done|].
  { intros y Hy Hyo. rewrite Hu. apply elem_of_difference. split; [by apply Hlow|]. rewrite elem_of_singleton. lia. }
  split; [done|]. destruct (response_frame_plain k v f Hreg Hf) as (Hty & Hfs & Hcan & Herr & Hdec).
  rewrite <-Hdec. rewrite Hk in Hfs.
  destruct (dispatch_response_spec client_hooks cc2 f l'
    (new_pending s (request_handler client_hooks s)) Hc2 Hty Hcan Herr) as [(op & Hh & _ & Hv) _];
    [by rewrite Hfs|exact Hp2|by rewrite Hfs, Ht2, Ht1|].
  destruct (live_try_send _ _ f (ci_objects _ _ Hc2 _ _ Hp2) eq_refl) as (_ & _ & _ & _ & Hrc & _).
  apply (wait_after_response _ _ _ (new_pending s (request_handler client_hooks s)) _ op); [by apply dispatch_inv| |done|].
  - rewrite Hh, list_lookup_insert_eq; [done|]. by eapply lookup_lt_Some.
  - rewrite Hrc. simpl. unfold receives. by rewrite ch_view_make.
Qed.

(** C18: a server that is draining answers every frame with a [connection_closed] error
    frame, which no client accepts: instead of failing the one request it concerns, it takes
    the client's connection down and fails all its requests with [malformed_frame]. *)
Theorem draining_reply_fails_client t limits maximum (cc : Client) (sc : Server) frame l :
  limits_wf limits → in_u 64 maximum → creachable registry client_hooks t limits maximum cc →
  ServerConnection.lifecycle_ sc = ConnectionState.draining →
  pending_ cc !! stream (header frame) = Some l → (stream (header frame) ∉ terminal_streams_ cc) →
  let reply := make_error_frame (stream (header frame)) StatusCode.connection_closed in
  ServerConnection.write_queue_ (ServerConnection.dispatch server_hooks frame sc)
    = (try_enqueue reply (ServerConnection.write_queue_ sc)).2 ∧
  let cc' := dispatch client_hooks reply cc in
  pending_ cc' = ∅ ∧ t_is_open (transport_ cc') = false ∧
  ∀ l p, heap_ cc !! l = Some p → pr_removed p = false →
    ∃ p', heap_ cc' !! l = Some p' ∧
      failed_with StatusCode.malformed_frame "malformed protocol error payload" p p'.
Proof.
  intros Hl Hm Hr Hdr Hs Hterm. pose proof (creachable_inv _ _ _ _ _ _ Hl Hm Hr) as Hc. cbv zeta.
  split.
  { unfold ServerConnection.dispatch. rewrite Hdr. simpl. unfold ServerConnection.mark_terminal.
    by destruct (has_flag _ _). }
  assert (violation (make_error_frame (stream (header frame)) StatusCode.connection_closed) cc
    = Some (StatusCode.malformed_frame, "malformed protocol error payload"%string)) as Hv.
  { unfold violation. simpl. rewrite Hs. simpl. by rewrite decide_False by done. }
  destruct (dispatch_violation client_hooks _ _ _ _ Hv) as (-> & Hne & Hcat).
  unfold fail_connection. rewrite decide_True by done. set (c1 := notify _ _ cc).
  assert (conn_inv client_hooks c1) as Hc1 by (by apply inv_notify).
  destruct (fail_pending_spec client_hooks _ "malformed protocol error payload" c1 Hne Hc1)
    as [_ He _ _ _ _ _ _ _ _ Hlive].
  simpl. split_and!; [done|apply t_close_closes|exact Hlive].
Qed.

End end_to_end.

(** ** Witnesses *)

Section sample.
#[local] Existing Instance demo_codec.
#[local] Instance demo_end_codec_laws : CodecLaws nat (pod_value (λ t, t)) := PodCodec_laws _ _.

Lemma response_reaches_caller_witness :
  ∃ cc2, async_wait_resume demo_registry 2%nat 0
    (async_wait (msg := pod_value (λ t, t)) 2%nat (handle_of 0)
       (dispatch listening_hooks server_response client_one)).2
    = Some (decode_success demo_message, cc2).
Proof.
  assert (∃ p, heap_ client_one !! 0%nat = Some p ∧ receives (pr_channel p) = 0%nat) as (p & Hp & Hr)
    by (eexists; vm_compute; split; reflexivity).
  apply (response_reaches_caller demo_registry listening_hooks new_tcp_transport sample_limits 9
    client_one server_called_task demo_message server_response 0 p sample_limits_wf client_range
    client_one_reachable demo_registry_inv server_response_frame).
  - vm_compute; reflexivity.
  - exact Hp.
  - vm_decide.
  - exact Hr.
Defined.

Local Abbreviation Client := (ClientConnection (Ch := ListChannel) (Tm := ViewTimer) (T := TcpTransport)).

(** The request on stream 1 has a deadline, which expires while its caller waits. *)
Definition client_given_up : Client :=
  let c := (start_request_deadline 50 (start_success 0) client_one).2 in
  let c := (async_wait (msg := pod_value (λ t, t)) 2%nat (handle_of 0) c).2 in
  default c (timer_handler 0 false c).

Lemma client_given_up_reachable :
  creachable demo_registry listening_hooks new_tcp_transport sample_limits 9 client_given_up.
Proof.
  eapply rtc_r; [eapply rtc_r; [eapply rtc_r; [apply client_one_reachable|apply (cstep_deadline _ _ _ 50 (start_success 0))]|
    apply (cstep_wait _ _ _ 2%nat (handle_of 0))]|].
  apply (cstep_timer _ _ _ 0 false). vm_compute. reflexivity.
Qed.

(** The caller gets the timeout and starts another request, which waits for room in the write
    queue; the answer that the server had computed for the first one is the answer it gets. *)
Lemma late_answer_misdelivered_witness :
  ∃ r c1 r' c2 c3,
    async_wait_resume (msg := pod_value (λ t, t)) demo_registry 2%nat 0 client_given_up = Some (r, c1) ∧
    r = decode_failure StatusCode.timeout_error "operation deadline exceeded" ∧
    start_request demo_registry listening_hooks 2%nat demo_message c1 = (r', c2) ∧
    pending_ c2 !! (mkId 1 : StreamId) = Some 1%nat ∧
    async_wait_resume demo_registry 2%nat 1
      (async_wait (msg := pod_value (λ t, t)) 2%nat (handle_of 1) (dispatch listening_hooks server_response c2)).2
    = Some (decode_success demo_message, c3).
Proof.
  assert (∃ p, heap_ client_given_up !! 0%nat = Some p ∧ is_terminal (pr_operation p) = true ∧
    pr_stream_released p = false ∧ op_stream (pr_operation p) = mkId 1) as (p & Hp & Ht & Hrel & Hs)
    by (eexists; split_and!; vm_compute; reflexivity).
  destruct (async_wait_resume (msg := pod_value (λ t, t)) demo_registry 2%nat 0 client_given_up)
    as [[r c1]|] eqn:Hw; [|vm_compute in Hw; discriminate].
  assert (c1 = from_option snd client_given_up
    (async_wait_resume (msg := pod_value (λ t, t)) demo_registry 2%nat 0 client_given_up)) as Hc1 by (by rewrite Hw).
  assert (Some r = fst <$> (async_wait_resume (msg := pod_value (λ t, t)) demo_registry 2%nat 0 client_given_up))
    as Hr by (by rewrite Hw).
  assert (r = decode_failure StatusCode.timeout_error "operation deadline exceeded") as Hr'
    by (apply Some_inj; rewrite Hr; vm_compute; reflexivity).
  assert (started 1 (start_request demo_registry listening_hooks 2%nat demo_message c1).1) as Hok
    by (rewrite Hc1; right; eexists; vm_compute; reflexivity).
  destruct (start_request demo_registry listening_hooks 2%nat demo_message c1) as [r' c2] eqn:Hst. cbn [fst] in Hok.
  destruct (late_answer_misdelivered demo_registry listening_hooks new_tcp_transport sample_limits 9 client_given_up 0 p
    2%nat r c1 2%nat demo_message r' c2 1 server_called_task demo_message server_response sample_limits_wf client_range
    client_given_up_reachable demo_registry_inv Hp Ht Hrel) as (Hs' & c3 & Hc3).
  - rewrite Hs. vm_decide.
  - rewrite Hs. intros y Hy. simpl in Hy. lia.
  - exact Hw.
  - exact Hst.
  - exact Hok.
  - rewrite Hs. vm_compute. reflexivity.
  - exact server_response_frame.
  - rewrite Hs in Hs'. exists r, c1, r', c2, c3. split; [reflexivity|]. split; [exact Hr'|]. split; [exact Hst|].
    split; [exact Hs'|exact Hc3].
Defined.

Lemma draining_reply_fails_client_witness :
  pending_ (dispatch listening_hooks
    (make_error_frame (mkId 1) StatusCode.connection_closed) client_one) = ∅.
Proof.
  destruct (draining_reply_fails_client demo_registry listening_hooks listening_hooks new_tcp_transport
    sample_limits 9 client_one (ServerConnection.begin_shutdown server_called) demo_frame 0
    sample_limits_wf client_range client_one_reachable) as (_ & Hp & _).
  - vm_compute; reflexivity.
  - vm_compute; reflexivity.
  - vm_decide.
  - exact Hp.
Defined.

End sample.
