(* ===== verification/Link.v ===== *)
(** * One direction of a connection

    What lies between the write queue of one endpoint and the decoder of the other: the bytes
    a socket has accepted, those the peer has read, and the frames they stand for.  The
    lemmas relate the frames that an endpoint puts into its queue to the frames that its
    peer's decoder returns, however the bytes are cut on the way. *)

From S2P Require Import Prelude Identifiers Status Frame FrameCodec FrameDecoder Diagnostics.
From S2P Require Import Transport Channel WriteQueue.

Local Open Scope Z_scope.

#[local] Arguments encode_frame : simpl never.

(** ** Frames that survive the wire *)

Definition valid_stream (s : StreamId) : Prop := value s ≠ 0 ∧ stream_wf s.

Definition wire_ok (f : Frame) : Prop :=
  header_wf (header f) ∧ frame_valid f default_max_payload_size.

Lemma wire_ok_stream f : wire_ok f → valid_stream (stream (header f)).
Proof. intros [(_ & Hs & _) ((_ & _ & _ & _ & Hv & _) & _)]. by split. Qed.

(** ** Reading a prefix of encoded frames *)

Lemma parses_total m bytes : ∃ fs st, parses m bytes fs st.
Proof.
  destruct (push_spec (new_decoder m) bytes) as (d & fs & _ & _ & _ & Hp);
    [apply new_decoder_inv|done|]. simpl in Hp. eauto.
Qed.

(** Cut anywhere, the encoding of valid frames yields the frames that are complete and never
    an error. *)
Lemma parses_prefix m fs bs more decoded st :
  Forall (λ f, header_wf (header f) ∧ frame_valid f m) fs →
  bs ++ more = concat (encode_frame <$> fs) → parses m bs decoded st →
  decoded `prefix_of` fs ∧ ∃ r, st = Incomplete r.
Proof.
  intros Hfs Heq Hp.
  assert (parses m (bs ++ more) fs (Incomplete [])) as Hall.
  { pose proof (parses_encode m fs [] [] (Incomplete []) Hfs) as H. rewrite !app_nil_r in H.
    rewrite Heq. apply H, parses_short, header_size_pos. }
  destruct st as [r|e].
  - destruct (parses_total m (r ++ more)) as (fs' & st' & Hr).
    destruct (parses_det _ _ _ _ _ _ (parses_resume _ _ _ _ _ _ _ Hp Hr) Hall) as [<- _].
    split; [by exists fs'|eauto].
  - apply parses_malformed_more with (more := more) in Hp.
    by destruct (parses_det _ _ _ _ _ _ Hp Hall).
Qed.

(** ** The link *)

(** The bytes put on the wire, the frames they complete, the frame whose write has begun and
    has not completed, how much of it is on the wire; and on the other side the number of
    bytes read and the frames decoded from them. *)
Record Link := mkLink {
  lk_wire : Buffer;
  lk_done : list Frame;
  lk_current : option Frame;
  lk_partial : nat;
  lk_read : nat;
  lk_decoded : list Frame;
}.

Definition new_link : Link := mkLink [] [] None 0 0 [].

(** [run] has taken a frame and writes it. *)
Definition link_start (pc : RunPc) (k : Link) : Link :=
  match pc with
  | RunWriting f => mkLink (lk_wire k) (lk_done k) (Some f) 0 (lk_read k) (lk_decoded k)
  | _ => k
  end.

(** The socket accepts the next [n] bytes of the frame. *)
Definition link_transfer (n : nat) (k : Link) : option Link :=
  match lk_current k with
  | None => None
  | Some f =>
      if decide (lk_partial k + n ≤ length (encode_frame f))%nat then
        Some (mkLink (lk_wire k ++ take n (drop (lk_partial k) (encode_frame f))) (lk_done k)
                (lk_current k) (lk_partial k + n) (lk_read k) (lk_decoded k))
      else None
  end.

(** The write has completed, when all bytes are on the wire, or failed. *)
Definition link_written (outcome : WriteOutcome) (k : Link) : option Link :=
  match outcome, lk_current k with
  | WriteThrow _, _ => Some k
  | WriteDone, Some f =>
      if decide (lk_partial k = length (encode_frame f)) then
        Some (mkLink (lk_wire k) (lk_done k ++ [f]) None 0 (lk_read k) (lk_decoded k))
      else None
  | WriteDone, None => None
  end.

(** The peer reads [bytes], which must be the next ones, and decodes [fs]. *)
Definition link_read (bytes : Buffer) (fs : list Frame) (k : Link) : option Link :=
  if decide (bytes `prefix_of` drop (lk_read k) (lk_wire k)) then
    Some (mkLink (lk_wire k) (lk_done k) (lk_current k) (lk_partial k)
            (lk_read k + length bytes) (lk_decoded k ++ fs))
  else None.

(** What a read hands to the decoder: the bytes, the decoder afterwards and the frames. *)
Definition decode_read (r : ReadResult) (d : FrameDecoder) : Buffer * FrameDecoder * list Frame :=
  match r with
  | ReadThrow _ => ([], d, [])
  | ReadBytes bytes =>
      match push d bytes with
      | Some (d', fs) => (bytes, d', fs)
      | None => ([], d, [])
      end
  end.

Lemma link_start_decoded pc k : lk_decoded (link_start pc k) = lk_decoded k.
Proof. by destruct pc. Qed.

Lemma link_written_decoded o k k' : link_written o k = Some k' → lk_decoded k' = lk_decoded k.
Proof. unfold link_written. intros Hk. by repeat case_match; simplify_eq. Qed.

Lemma link_transfer_decoded n k k' : link_transfer n k = Some k' → lk_decoded k' = lk_decoded k.
Proof. unfold link_transfer. intros Hk. by repeat case_match; simplify_eq. Qed.

(** The frames put on the wire, the last of them perhaps in part. *)
Definition lk_line (k : Link) : list Frame := lk_done k ++ option_list (lk_current k).

Section link.
Context {Ch : Type → Type} `{!Channel Ch} `{!ChannelLaws Ch} {T : Type} `{!Transport T} `{!TransportLaws T}.
Implicit Types (q : WriteQueue (Ch := Ch)) (t : T).

(** ** What the endpoint does to its queue *)

(** An endpoint that emits frames of a class into its queue, without taking any out. *)
Record emits (P : Frame → Prop) q q' : Prop := {
  em_inv : queue_inv q → queue_inv q';
  em_pending : queue_inv q → ∃ new, pending q' = pending q ++ new ∧ Forall P new;
  em_receives : queue_inv q → receives (channel_ q') = receives (channel_ q);
  em_limits : limits_ q' = limits_ q;
}.

#[export] Instance emits_preorder P : PreOrder (emits P).
Proof.
  split.
  - intros q. split; try done. intros _. exists []. by rewrite app_nil_r.
  - intros q1 q2 q3 [Hi1 Hp1 Hr1 Hl1] [Hi2 Hp2 Hr2 Hl2].
    split; [auto| |intros H; rewrite Hr2; auto|congruence].
    intros H. destruct (Hp1 H) as (n1 & E1 & F1), (Hp2 (Hi1 H)) as (n2 & E2 & F2).
    exists (n1 ++ n2). rewrite E2, E1, app_assoc. split; [done|]. by apply Forall_app.
Qed.

Lemma emits_impl (P Q : Frame → Prop) q q' : (∀ f, P f → Q f) → emits P q q' → emits Q q q'.
Proof.
  intros HPQ [Hi Hp Hr Hl]. split; auto. intros H. destruct (Hp H) as (new & E & F). exists new.
  split; [done|]. by eapply Forall_impl.
Qed.

Lemma emits_close (P : Frame → Prop) q : emits P q (close q).
Proof.
  split; [..|done]; intros H; destruct (close_inv q H) as (Hi & Hp & _ & Hr & _); auto.
  exists []. by rewrite app_nil_r.
Qed.

Lemma emits_try_enqueue (P : Frame → Prop) f q : P f → emits P q (try_enqueue f q).2.
Proof.
  intros Hf. split; [..|apply try_enqueue_constant]; unfold try_enqueue; intros H;
    destruct (try_enqueue_frame f q) as [r q'] eqn:E; simpl;
    destruct (try_enqueue_frame_spec f q r q' H E) as (Hi & _ & _ & _ & Hr & Hc); auto.
  destruct Hc as [(_ & _ & ->)|(_ & -> & _)]; [exists [f]; auto|exists []; by rewrite app_nil_r].
Qed.

Lemma emits_accepted (P : Frame → Prop) f r q q' :
  P f → limits_ q' = limits_ q →
  (queue_inv q → queue_inv q' ∧ receives (channel_ q') = receives (channel_ q) ∧
     pending q' = pending q ++ accepted_by f r) → emits P q q'.
Proof.
  intros Hf Hl H. split; [..|done]; intros Hq; destruct (H Hq) as (Hi & Hr & Hp); auto.
  exists (accepted_by f r). split; [done|]. destruct r as [r|]; simpl; [destruct (write_ok r)|]; auto.
Qed.

Lemma emits_enqueue (P : Frame → Prop) f q r q' : P f → enqueue f q = (r, q') → emits P q q'.
Proof.
  intros Hf E. apply (emits_accepted P f r); [done|by eapply enqueue_constant|]. intros Hq.
  destruct (enqueue_spec f q r q' Hq E) as [(Hi & _ & _ & Hr & Hp & _) _]. auto.
Qed.

Lemma emits_enqueue_resume (P : Frame → Prop) f what q r q' :
  P f → frame_fits (limits_ q) f → enqueue_resume f what q = Some (r, q') → emits P q q'.
Proof.
  intros Hf [Hm Hb] E. apply (emits_accepted P f r); [done|by eapply enqueue_resume_constant|]. intros Hq.
  destruct (enqueue_resume_spec f what q r q' Hq Hm Hb E) as (Hi & _ & _ & Hr & Hp & _). auto.
Qed.

(** ** The invariant of a link *)

(** Everything on the wire and everything that will follow it is of the class [P] of the
    sending endpoint; the receiving decoder stands where the bytes read so far lead. *)
Record link_inv (P : Frame → Prop) (pc : RunPc) q (k : Link) (d : FrameDecoder) : Prop := {
  li_line : Forall P (lk_line k);
  li_pending : Forall P (pending q);
  li_receives : receives (channel_ q) = match pc with RunReceiving => 1%nat | _ => 0%nat end;
  li_wire : lk_wire k = concat (encode_frame <$> lk_done k)
              ++ take (lk_partial k) (concat (encode_frame <$> option_list (lk_current k)));
  li_run :
    match pc with
    | RunNotStarted | RunReceiving => lk_current k = None ∧ lk_partial k = 0%nat
    | RunWriting f => lk_current k = Some f
    | RunReturned _ => True
    end;
  li_read : (lk_read k ≤ length (lk_wire k))%nat;
  li_limit : max_payload_size_ d = default_max_payload_size;
  li_decoded : parses default_max_payload_size (take (lk_read k) (lk_wire k)) (lk_decoded k)
                 (decoder_status d);
  li_partial : (lk_partial k ≤ length (concat (encode_frame <$> option_list (lk_current k))))%nat;
}.

Lemma new_link_inv P limits observer :
  limits_wf limits →
  link_inv P RunNotStarted (new_queue limits observer) new_link (new_decoder default_max_payload_size).
Proof.
  intros Hl. split; simpl; try done; unfold pending, receives; simpl; rewrite ?ch_view_make; try done.
  apply parses_short, header_size_pos.
Qed.

Lemma link_inv_impl (P Q : Frame → Prop) pc q k d :
  (∀ f, P f → Q f) → link_inv P pc q k d → link_inv Q pc q k d.
Proof. intros H []. split; auto; by eapply Forall_impl. Qed.

Lemma link_inv_emits P pc q q' k d :
  queue_inv q → emits P q q' → link_inv P pc q k d → link_inv P pc q' k d.
Proof.
  intros Hq [_ Hp Hr _] []. destruct (Hp Hq) as (new & Hn & Hf). split; auto.
  - rewrite Hn. by apply Forall_app.
  - by rewrite Hr.
Qed.

Lemma link_inv_run P q q' pc k d :
  queue_inv q → run_receive q = (pc, q') → link_inv P RunNotStarted q k d → link_inv P pc q' k d.
Proof.
  intros Hq E []. destruct (run_receive_spec q pc q' Hq E) as (-> & _ & _ & _ & _ & Hp & Hr).
  split; auto; [by rewrite Hp|by rewrite Hr, li_receives0].
Qed.

Lemma link_inv_resume P q t pc q' t' k d :
  queue_inv q → run_resume q t = Some (pc, q', t') → link_inv P RunReceiving q k d →
  link_inv P pc q' (link_start pc k) d.
Proof.
  intros Hq E []. destruct li_run0 as [Hc Hp].
  destruct (run_resume_spec q t pc q' t' Hq li_receives0 E)
    as (Hi & _ & Hr & _ & [(f & -> & _ & Hpe & _)|[(f & what & -> & _ & _ & Hpe & _)|(-> & _ & _ & _ & Hpe & Hpe' & _)]]);
    rewrite Hpe in li_pending0.
  - apply Forall_cons in li_pending0 as [Hf Hrest]. unfold lk_line in *. rewrite Hc, app_nil_r in li_line0.
    rewrite Hc, Hp in li_wire0. split; simpl; auto.
    + unfold lk_line. simpl. apply Forall_app. auto.
    + lia.
  - apply Forall_cons in li_pending0 as [Hf Hrest]. split; simpl; auto.
  - split; simpl; auto. by rewrite Hpe'.
Qed.

Lemma link_inv_transfer P pc q n k k' d :
  link_transfer n k = Some k' → link_inv P pc q k d → link_inv P pc q k' d.
Proof.
  unfold link_transfer. destruct (lk_current k) as [f|] eqn:Hc; [|done]. case_decide as Hn; [|done].
  intros [= <-] []. unfold lk_line in *. rewrite Hc in *. simpl in *. rewrite app_nil_r in *.
  split; simpl; auto.
  - rewrite app_nil_r, li_wire0, <-app_assoc. f_equal. apply take_take_drop.
  - destruct pc; try done; by destruct li_run0.
  - rewrite length_app. lia.
  - rewrite take_app_le by done. done.
  - by rewrite app_nil_r.
Qed.

Lemma link_inv_written P q t f io pc q' t' es k k' d :
  queue_inv q → run_written f io q t = (pc, q', t', es) → link_written (t_write_end io t).1 k = Some k' →
  link_inv P (RunWriting f) q k d → link_inv P pc q' k' d.
Proof.
  intros Hq E Hk []. unfold run_written in E. unfold lk_line in *. rewrite li_run0 in *.
  destruct (t_write_end io t) as [[|what] t1]; simpl in Hk.
  - rewrite li_run0 in Hk. case_decide as Hfull; [|done]. injection Hk as <-. destruct (run_receive q) as [pc1 q1] eqn:Er.
    injection E as <- <- _ _. destruct (run_receive_spec q pc1 q1 Hq Er) as (-> & _ & _ & _ & _ & Hp & Hr).
    split; unfold lk_line in *; simpl; auto.
    + by rewrite app_nil_r.
    + by rewrite Hp.
    + by rewrite Hr, li_receives0.
    + rewrite li_wire0, Hfull. simpl. rewrite !app_nil_r, fmap_app, concat_app, firstn_all. simpl.
      by rewrite app_nil_r.
  - injection Hk as <-. injection E as <- <- _ _. destruct (close_inv q Hq) as (_ & Hp & _ & Hr & _).
    split; unfold lk_line in *; rewrite ?li_run0; auto; [by rewrite Hp|by rewrite Hr].
Qed.

(** The bytes on the wire are those of the frames, the last of them perhaps in part. *)
Lemma link_wire_prefix P pc q k d :
  link_inv P pc q k d → lk_wire k `prefix_of` concat (encode_frame <$> lk_line k).
Proof.
  intros []. rewrite li_wire0. unfold lk_line. rewrite fmap_app, concat_app. apply prefix_app, prefix_take.
Qed.

(** The frames decoded are the first ones of the line, and there is no error. *)
Lemma link_integrity P pc q k d :
  (∀ f, P f → header_wf (header f) ∧ frame_valid f default_max_payload_size) →
  link_inv P pc q k d → lk_decoded k `prefix_of` lk_line k ∧ error_ d = None.
Proof.
  intros HP []. assert (∃ more, take (lk_read k) (lk_wire k) ++ more = concat (encode_frame <$> lk_line k))
    as (more & Hmore).
  { exists (drop (lk_read k) (lk_wire k)
      ++ drop (lk_partial k) (concat (encode_frame <$> option_list (lk_current k)))).
    rewrite app_assoc, take_drop, li_wire0, <-app_assoc, take_drop. unfold lk_line.
    by rewrite fmap_app, concat_app. }
  destruct (parses_prefix _ _ _ _ _ _ (Forall_impl _ _ _ li_line0 HP) Hmore li_decoded0) as [Hpre [r Hr]].
  split; [done|]. unfold decoder_status in Hr. by destruct (error_ d).
Qed.

Lemma link_inv_read P pc q k k' d bytes d' fs :
  (∀ f, P f → header_wf (header f) ∧ frame_valid f default_max_payload_size) →
  decoder_inv d → push d bytes = Some (d', fs) → link_read bytes fs k = Some k' →
  link_inv P pc q k d → link_inv P pc q k' d'.
Proof.
  intros HP Hd Hpush Hk Hl. destruct (link_integrity P pc q k d HP Hl) as [_ He].
  destruct (push_spec d bytes Hd He) as (d1 & fs1 & Hp1 & _ & Hm & Hps). simplify_eq.
  unfold link_read in Hk. case_decide as Hpre; [|done]. injection Hk as <-.
  destruct Hl as [Hline Hpend Hrec Hw Hrun Hread Hlim Hdec]. destruct Hpre as [rest Hrest].
  assert (length (drop (lk_read k) (lk_wire k)) = length bytes + length rest)%nat as Hlen
    by (by rewrite Hrest, length_app).
  rewrite length_drop in Hlen. split; simpl; auto; [lia|congruence|].
  unfold decoder_status in Hdec. rewrite He in Hdec. rewrite Hlim in Hps.
  rewrite <-take_take_drop, Hrest, take_app_length.
  by eapply parses_resume.
Qed.

(** Nothing was read. *)
Lemma link_read_nil k : link_read [] [] k = Some k.
Proof.
  unfold link_read. rewrite decide_True by apply prefix_nil. destruct k. simpl.
  by rewrite Nat.add_0_r, app_nil_r.
Qed.

(** A read that ends in whatever way. *)
Lemma link_inv_decode P pc q k k' d r bytes d' fs :
  (∀ f, P f → wire_ok f) → decoder_inv d → decode_read r d = (bytes, d', fs) →
  link_read bytes fs k = Some k' → link_inv P pc q k d →
  link_inv P pc q k' d' ∧ decoder_inv d' ∧ lk_decoded k' = lk_decoded k ++ fs.
Proof.
  intros HP Hd Hr Hk Hl. destruct r as [bs|what]; simpl in Hr.
  - destruct (push_inv d bs Hd) as (d1 & fs1 & Hp & Hd1 & _). rewrite Hp in Hr. injection Hr as <- <- <-.
    split_and!; [exact (link_inv_read P pc q k k' d bs d1 fs1 HP Hd Hp Hk Hl)|done|]. unfold link_read in Hk. case_decide; [|done].
    by injection Hk as <-.
  - injection Hr as <- <- <-. rewrite link_read_nil in Hk. injection Hk as <-. by rewrite app_nil_r.
Qed.

End link.
