(* ===== verification/ClientTraffic.v ===== *)
(** * What a client puts on the wire and what it holds

    Two things about every step of a [ClientConnection], whatever else it does: the frames it
    emits are valid, and each is a cancellation or carries a request that was started; and the
    frames that wait in a request's channel were decoded from the peer's bytes and belong to
    the request's stream. *)

From S2P Require Import Prelude Identifiers Status Frame FrameCodec FrameDecoder ProtocolViolation.
From S2P Require Import Lifecycle Diagnostics Operation StreamIdAllocator Codec MessageRegistry MessageCodec.
From S2P Require Import Transport Channel Timer WriteQueue Link ClientConnection.

Local Open Scope Z_scope.

#[local] Arguments encode_frame : simpl never.

(** ** Frames that survive the wire *)

Lemma cancellation_wire_ok s : valid_stream s → wire_ok (cancellation_frame s).
Proof.
  intros [Hs Hw]. split; [split; [vm_decide|]; split; [done|vm_decide]|].
  split; [|split; [done|vm_decide]]. unfold header_valid. split_and!; try done; vm_compute; naive_solver.
Qed.

Section client_traffic.
Context {Ch : Type → Type} `{!Channel Ch} `{!ChannelLaws Ch} {T : Type} `{!Transport T} `{!TransportLaws T}.
Context {Tm : Type} `{!SteadyTimer Tm}.
Context `{!MapBegin} `{!MapBeginLaws}.
Context {TypeIndex : Type} `{Countable TypeIndex} {msg : TypeIndex → Type} `{C : !Codec TypeIndex msg}.
Context `{!CodecLaws TypeIndex msg}.
Context (registry_ : MessageRegistry (TypeIndex := TypeIndex)) (diagnostics_ : DiagnosticsHooks).

Implicit Types c : ClientConnection (Ch := Ch) (Tm := Tm) (T := T).

(** A call of [start_request] that registered a request: its stream and the value it was
    given. *)
Record Request := mkRequest {
  rq_stream : StreamId;
  rq_type : TypeIndex;
  rq_value : msg rq_type;
}.

Definition request_frame (r : Request) (f : Frame) : Prop :=
  encode_message_default registry_ (rq_type r) (rq_value r) (rq_stream r) FrameType.request
    = frame_encode_success f.

(** The frames a client emits, given the requests it has started. *)
Definition up_frame (rs : list Request) (f : Frame) : Prop :=
  wire_ok f ∧ (f = cancellation_frame (stream (header f)) ∨ ∃ r, r ∈ rs ∧ request_frame r f).

(** ** The objects *)

(** A frame that a client hands to the caller of a request. *)
Definition plain_response (f : Frame) : Prop :=
  type (header f) = FrameType.response ∧ has_flag (flags (header f)) FrameFlags.cancel = false ∧
  has_flag (flags (header f)) FrameFlags.error = false.

(** The frames in the channel of a request, given the frames decoded so far. *)
Record object_ok (D : list Frame) (p : PendingRequest (Ch := Ch) (Tm := Tm)) : Prop := {
  oo_stream : valid_stream (op_stream (pr_operation p));
  oo_chan : view_wf (ch_view (pr_channel p));
  oo_held : Forall (λ f, f ∈ D ∧ plain_response f ∧ stream (header f) = op_stream (pr_operation p))
              (view_pending (ch_view (pr_channel p)));
}.

Definition streams_of c : list StreamId := (λ p, op_stream (pr_operation p)) <$> heap_ c.

Record client_ok (D : list Frame) c : Prop := {
  ck_queue : queue_inv (write_queue_ c);
  ck_objects : Forall (object_ok D) (heap_ c);
}.

(** A step that starts no request and decodes nothing. *)
Record advanced rs (D : list Frame) c c' : Prop := {
  av_ok : client_ok D c';
  av_emits : emits (up_frame rs) (write_queue_ c) (write_queue_ c');
  av_streams : streams_of c' = streams_of c;
  av_decoder : decoder_ c' = decoder_ c;
}.

Definition advances rs D c c' : Prop := client_ok D c → advanced rs D c c'.

#[export] Instance advances_preorder rs D : PreOrder (advances rs D).
Proof.
  split; [intros c Hc; by split|]. intros c1 c2 c3 H12 H23 Hc. destruct (H12 Hc) as [Hc2 He Hs Hd].
  destruct (H23 Hc2) as [Hc3 He' Hs' Hd']. split; [done|by etrans|congruence..].
Qed.

(** ** Basic changes *)

Section changes.
Context (rs : list Request) (D : list Frame).

Local Abbreviation adv := (advances rs D).

Lemma adv_same c c' :
  write_queue_ c' = write_queue_ c → heap_ c' = heap_ c → decoder_ c' = decoder_ c → adv c c'.
Proof. intros Hq Hh Hd [Hi Ho]. split; [split; congruence|by rewrite Hq|unfold streams_of; by rewrite Hh|done]. Qed.

Lemma adv_queue q c :
  (queue_inv (write_queue_ c) → emits (up_frame rs) (write_queue_ c) q) → adv c (set_write_queue q c).
Proof.
  intros He [Hi Ho]. specialize (He Hi). split; [split; [by apply (em_inv _ _ _ He)|done]|done|done|done].
Qed.

Lemma adv_alter l f c :
  (∀ p, object_ok D p → object_ok D (f p) ∧ op_stream (pr_operation (f p)) = op_stream (pr_operation p)) →
  adv c (set_heap (alter f l (heap_ c)) c).
Proof.
  intros Hf [Hi Ho]. split; [|done| |done].
  - split; [done|]. simpl. apply Forall_alter; [done|]. intros p Hp Hok. by apply Hf.
  - unfold streams_of. simpl. apply list_eq. intros i. rewrite !list_lookup_fmap.
    destruct (decide (i = l)) as [->|Hne]; [|by rewrite list_lookup_alter_ne].
    rewrite list_lookup_alter_eq. destruct (heap_ c !! l) as [p|] eqn:Hp; [|done]. simpl. f_equal.
    apply Hf. by eapply Forall_lookup_1.
Qed.

(** A change of an object that leaves its channel and its stream alone. *)
Lemma adv_modify_rest l f c :
  (∀ p, pr_channel (f p) = pr_channel p ∧ op_stream (pr_operation (f p)) = op_stream (pr_operation p)) →
  adv c (modify l f c).
Proof.
  intros Hf. apply adv_alter. intros p [Hs Hw Hh]. destruct (Hf p) as [Hch Hst].
  split; [|done]. split; by rewrite ?Hst, ?Hch.
Qed.

Lemma adv_close_channel l c : adv c (close_channel l c).
Proof.
  apply adv_alter. intros p [Hs Hw Hh]. split; [|done]. split; simpl; try done; rewrite ch_view_close;
    destruct (view_close_spec _ Hw) as (Hw' & _ & _ & Hp & _); [done|by rewrite Hp].
Qed.

Lemma adv_cancel_timer l c : adv c (cancel_timer l c).
Proof. by apply adv_modify_rest. Qed.

(** Calls of operation methods keep the stream. *)
Definition keeps_stream
    (f : Operation DiagnosticsEvent → bool * Operation DiagnosticsEvent * list DiagnosticsEvent) : Prop :=
  ∀ op, op_stream (f op).1.2 = op_stream op.

Lemma finish_keeps st r : keeps_stream (finish st r).
Proof. intros op. unfold finish. by destruct (operation_transition _ _) as [[] ?]. Qed.

Lemma fail_op_keeps status m : keeps_stream (fail_op status m).
Proof. intros op. unfold fail_op. case_decide; [done|apply finish_keeps]. Qed.

Lemma complete_keeps m : keeps_stream (complete m).
Proof. apply finish_keeps. Qed.

Lemma cancel_keeps m : keeps_stream (cancel m).
Proof.
  intros op. unfold cancel. assert (op_stream (request_cancellation op).2 = op_stream op) as Hs
    by (unfold request_cancellation; by case_match).
  destruct (request_cancellation op) as [b op1]. simpl in Hs. rewrite <-Hs.
  destruct (negb b); [done|apply finish_keeps].
Qed.

Lemma timeout_keeps m : keeps_stream (timeout m).
Proof.
  intros op. unfold timeout.
  pose proof (finish_keeps OperationState.failed (result_failure StatusCode.timeout_error m) op) as Hk.
  by destruct (finish _ _ op) as [[b op1] es].
Qed.

Lemma adv_call_operation l f c : keeps_stream f → adv c (call_operation l f c).2.
Proof.
  intros Hf. unfold call_operation. destruct (heap_ c !! l) as [p|] eqn:Hp; [|done].
  pose proof (Hf (pr_operation p)) as Hs. destruct (f (pr_operation p)) as [[b op] es]. simpl in *.
  trans (modify l (λ p, mkPending (pr_channel p) (pr_timer p) (mkOperation (op_stream (pr_operation p))
    (op_lifecycle op) (op_result op) (op_deadline op) (op_cancellation_requested op) (op_timed_out op)
    (op_completion_handler op)) (pr_removed p) (pr_stream_released p)) c); [by apply adv_modify_rest|].
  apply adv_same; try done. simpl. rewrite (alter_insert _ _ _ _ Hp). f_equal. f_equal. rewrite <-Hs. by destruct op.
Qed.

#[local] Hint Resolve fail_op_keeps complete_keeps cancel_keeps timeout_keeps : rill.
#[local] Hint Resolve adv_close_channel adv_cancel_timer adv_call_operation : rill.

(** ** The handlers *)

Lemma adv_cleanup l rel c : adv c (cleanup_pending l rel c).
Proof.
  unfold cleanup_pending. destruct (heap_ c !! l) as [p|]; [|done].
  set (c1 := if negb (pr_removed p) then _ else c).
  trans c1.
  - unfold c1. destruct (negb (pr_removed p)); [|done].
    etrans; [by apply (adv_modify_rest l (λ p, mkPending (pr_channel p) (tm_cancel (pr_timer p))
      (pr_operation p) true (pr_stream_released p)))|].
    repeat case_match; try done. by apply adv_same.
  - destruct (rel && _); [|done].
    etrans; [by apply (adv_modify_rest l (λ p, mkPending (pr_channel p) (pr_timer p)
      (pr_operation p) (pr_removed p) true))|]. by apply adv_same.
Qed.

Lemma stream_of_valid l c p : client_ok D c → heap_ c !! l = Some p → valid_stream (stream_of l c).
Proof. intros [_ Ho] Hp. unfold stream_of. rewrite Hp. by eapply Forall_lookup_1, oo_stream in Ho. Qed.

Lemma adv_send_cancellation l c : is_Some (heap_ c !! l) → adv c (send_cancellation (stream_of l c) c).
Proof.
  intros [p Hp] Hc. pose proof (stream_of_valid l c p Hc Hp) as Hv. apply adv_queue; [|done].
  intros _. apply emits_try_enqueue. split; [by apply cancellation_wire_ok|by left].
Qed.

Lemma call_operation_present l f c : (call_operation l f c).1 = true → is_Some (heap_ (call_operation l f c).2 !! l).
Proof.
  unfold call_operation. destruct (heap_ c !! l) as [p|] eqn:Hp; [|done].
  destruct (f (pr_operation p)) as [[b op] es]. simpl. intros _.
  rewrite list_lookup_insert_eq by (by eapply lookup_lt_Some). by eexists.
Qed.

(** The common part of [timeout_pending] and [cancel_pending]. *)
Lemma adv_cancelled l c :
  is_Some (heap_ c !! l) →
  adv c (cleanup_pending l false (close_channel l (send_cancellation (stream_of l c) c))).
Proof. intros Hp. etrans; [by apply adv_send_cancellation|]. etrans; [apply adv_close_channel|apply adv_cleanup]. Qed.

Lemma adv_timeout_pending l c : adv c (timeout_pending l c).
Proof.
  unfold timeout_pending. pose proof (adv_call_operation l (timeout "operation deadline exceeded") c) as Ha.
  pose proof (call_operation_present l (timeout "operation deadline exceeded") c) as Hp.
  destruct (call_operation _ _ c) as [b c1]. simpl in *. etrans; [apply Ha; auto with rill|].
  destruct b; [|done]. apply adv_cancelled. auto.
Qed.

Lemma adv_cancel_pending l m c : adv c (cancel_pending l m c).2.
Proof.
  unfold cancel_pending. pose proof (adv_call_operation l (cancel m) c) as Ha.
  pose proof (call_operation_present l (cancel m) c) as Hp.
  destruct (call_operation _ _ c) as [b c1]. simpl in *. etrans; [apply Ha; auto with rill|].
  destruct b; [|done]. apply adv_cancelled. auto.
Qed.

Lemma adv_discard_pending l c : adv c (discard_pending l c).
Proof.
  unfold discard_pending. etrans; [|apply adv_cleanup].
  destruct (heap_ c !! l) as [p|] eqn:Hl; [|done]. destruct (is_terminal (pr_operation p)); [done|]. simpl.
  etrans; [by apply (adv_call_operation l (cancel "operation handle released")); auto with rill|].
  etrans; [apply adv_send_cancellation|apply adv_close_channel].
  unfold call_operation. rewrite Hl. destruct (cancel _ _) as [[b op] es]. simpl.
  rewrite list_lookup_insert_eq by (by eapply lookup_lt_Some). by eexists.
Qed.

Lemma adv_fail_pending status m c : adv c (fail_pending status m c).
Proof.
  unfold fail_pending. generalize (size (pending_ c)). intros n. revert c.
  induction n as [|n IH]; intros c; simpl; [done|]. destruct (map_begin (pending_ c)) as [[s l]|]; [|done].
  etrans; [by apply (adv_call_operation l (fail_op status m)); auto with rill|].
  etrans; [apply adv_close_channel|]. etrans; [apply adv_cleanup|apply IH].
Qed.

Lemma adv_notify e c : adv c (notify diagnostics_ e c).
Proof. by apply adv_same. Qed.

Lemma adv_mark_terminal f c : adv c (mark_terminal f c).
Proof. unfold mark_terminal. case_match; [by apply adv_same|done]. Qed.

Lemma adv_notify_closed c : adv c (notify_closed diagnostics_ c).
Proof. unfold notify_closed. case_match; [done|by apply adv_same]. Qed.

Lemma adv_fail_connection status m c : adv c (fail_connection diagnostics_ status m c).
Proof.
  unfold fail_connection. set (c1 := if decide _ then _ else c).
  trans c1; [unfold c1; case_decide; [apply adv_notify|done]|].
  etrans; [apply adv_fail_pending|by apply adv_same].
Qed.

#[local] Hint Resolve adv_cleanup adv_cancel_pending adv_fail_connection adv_mark_terminal : rill.

Lemma alter_missing {A} (f : A → A) (h : list A) l : h !! l = None → alter f l h = h.
Proof.
  intros Hn. apply list_eq. intros i. destruct (decide (i = l)) as [->|Hne];
    [by rewrite list_lookup_alter_eq, Hn|by rewrite list_lookup_alter_ne].
Qed.

(** A response waits in the channel of the request it belongs to. *)
Lemma adv_respond frame l c :
  frame ∈ D → plain_response frame → (∀ p, heap_ c !! l = Some p → op_stream (pr_operation p) = stream (header frame)) →
  adv c (modify l (λ p, mkPending (ch_try_send frame (pr_channel p)).2 (pr_timer p) (pr_operation p)
                          (pr_removed p) (pr_stream_released p)) c).
Proof.
  intros Hf Hpl Hl [Hi Ho]. unfold modify.
  assert (heap_ c !! l = None ∨ is_Some (heap_ c !! l)) as [Hn|[p Hp]] by (destruct (heap_ c !! l); eauto).
  { apply adv_same; try done. simpl. by apply alter_missing. }
  rewrite (alter_insert _ _ _ _ Hp).
  assert (object_ok D (mkPending (ch_try_send frame (pr_channel p)).2 (pr_timer p) (pr_operation p)
    (pr_removed p) (pr_stream_released p))) as Hok.
  { pose proof (Forall_lookup_1 _ _ _ _ Ho Hp) as [Hs Hw Hh]. specialize (Hl p Hp).
    destruct (ch_try_send frame (pr_channel p)) as [b ch] eqn:E. apply try_send_view in E.
    split; simpl; [done|by eapply view_try_send_signal in E as (? & _)|]. destruct b.
    - apply view_try_send_true in E as (_ & _ & _ & _ & -> & _); [|done]. apply Forall_app. auto.
    - apply view_try_send_false in E as [-> _]. done. }
  split; [split; [done|]|done| |done]; simpl.
  - by apply Forall_insert.
  - unfold streams_of. simpl. rewrite list_fmap_insert. simpl. apply list_insert_id.
    by rewrite list_lookup_fmap, Hp.
Qed.

Lemma adv_dispatch frame c : conn_inv diagnostics_ c → frame ∈ D → adv c (dispatch diagnostics_ frame c).
Proof.
  intros Hc Hf. unfold dispatch. destruct (negb _) eqn:Hty; [auto with rill|].
  apply negb_false_iff, bool_decide_eq_true in Hty.
  destruct (pending_ c !! stream (header frame)) as [l|] eqn:Hs; [|auto with rill].
  destruct (ci_table _ _ Hc _ _ Hs) as (p & Hp & Hst & _).
  case_decide; [auto with rill|].
  destruct (has_flag _ FrameFlags.cancel) eqn:Hcan; [etrans; [apply adv_cancel_pending|apply adv_mark_terminal]|].
  destruct (has_flag _ FrameFlags.error) eqn:Herr.
  - destruct (decode_error_status frame) as [status|]; [|auto with rill].
    etrans; [by apply (adv_call_operation l (fail_op status "peer rejected the operation")); auto with rill|].
    etrans; [apply adv_close_channel|]. etrans; [apply adv_cleanup|apply adv_mark_terminal].
  - pose proof (adv_call_operation l (complete "response received") c (complete_keeps _)) as Ha.
    assert (∀ q, heap_ (call_operation l (complete "response received") c).2 !! l = Some q →
      op_stream (pr_operation q) = stream (header frame)) as Hq.
    { unfold call_operation. rewrite Hp. pose proof (complete_keeps "response received" (pr_operation p)) as Hk.
      destruct (complete _ _) as [[b op] es]. simpl in *. intros q.
      rewrite list_lookup_insert_eq by (by eapply lookup_lt_Some). intros [= <-]. simpl. congruence. }
    destruct (call_operation _ _ c) as [b c1]. simpl in *. etrans; [exact Ha|].
    destruct b; [|apply adv_fail_connection]. simpl. etrans; [apply (adv_cancel_timer l)|].
    etrans; [apply (adv_respond frame l); [done..|]|etrans; [apply adv_cleanup|apply adv_mark_terminal]].
    intros q. simpl. rewrite list_lookup_alter_eq. intros (q0 & Hq0 & ->)%fmap_Some. simpl. eauto.
Qed.

Lemma adv_dispatch_frames frames c :
  conn_inv diagnostics_ c → Forall (λ f, f ∈ D) frames → adv c (dispatch_frames diagnostics_ frames c).
Proof.
  intros Hc Hf. revert c Hc. induction Hf as [|f frames Hf _ IH]; intros c Hc; [done|]. simpl.
  set (c1 := notify _ _ c). assert (conn_inv diagnostics_ c1) as Hc1 by (by apply inv_notify).
  etrans; [apply adv_notify|]. fold c1. etrans; [by apply (adv_dispatch f)|]. case_match; [done|].
  by apply IH, dispatch_inv.
Qed.

Lemma adv_close_queue c : adv c (set_write_queue (close (write_queue_ c)) c).
Proof. apply adv_queue. intros _. apply emits_close. Qed.

Lemma adv_transition st c : adv c (transition st c).
Proof. by apply adv_same. Qed.

Lemma adv_read_exit c : adv c (read_loop_exit diagnostics_ c).2.
Proof.
  unfold read_loop_exit. simpl. etrans; [apply adv_fail_pending|]. etrans; [apply adv_close_queue|].
  etrans; [apply adv_transition|apply adv_notify_closed].
Qed.

Lemma adv_read_head c : adv c (read_loop_head diagnostics_ c).2.
Proof. unfold read_loop_head. repeat case_match; try done; apply adv_read_exit. Qed.

(** The read loop after the socket's answer: all frames it dispatches were decoded from the
    bytes it read. *)
Lemma read_resume_traffic io c pc c' bytes d fs :
  conn_inv diagnostics_ c → client_ok D c →
  read_loop_resume diagnostics_ io c = Some (pc, c') →
  decode_read (t_read_end io (transport_ c)).1 (decoder_ c) = (bytes, d, fs) →
  Forall (λ f, f ∈ D) fs →
  advanced rs D (set_decoder d c) c'.
Proof.
  intros Hc Hok. unfold read_loop_resume. destruct (t_read_end io (transport_ c)) as [r t]. cbv zeta. cbn [fst].
  assert (client_ok D (set_decoder d c)) as Hok' by (by destruct Hok).
  assert (adv (set_decoder (decoder_ c) c) (read_loop_exit diagnostics_ (set_transport t c)).2) as Hexit
    by (etrans; [by apply (adv_same _ (set_transport t c))|apply adv_read_exit]).
  destruct r as [bs|what]; cbn [decode_read].
  - destruct (push_inv (decoder_ c) bs) as (d1 & fs1 & Hp & Hd1 & _); [apply Hc|]. rewrite Hp.
    intros Hr [= <- <- <-] Hfs. destruct bs as [|b bs].
    { injection Hr as <- <-. injection Hp as <- <-.
      exact (Hexit Hok'). }
    set (c1 := notify _ _ (set_transport t c)) in Hr. change (decoder_ c1) with (decoder_ c) in Hr.
    rewrite Hp in Hr. simpl in Hr.
    assert (conn_inv diagnostics_ (set_decoder d1 c1)) as Hc1
      by (apply inv_decoder; [done|]; apply inv_notify; [done..|by apply inv_transport]).
    assert (adv (set_decoder d1 c) (set_decoder d1 c1)) as H01 by (by apply adv_same).
    pose proof (adv_dispatch_frames fs1 _ Hc1 Hfs) as H12.
    destruct (decoder_error _) as [e|].
    + injection Hr as _ <-.
      match goal with |- advanced _ _ _ ?c2 => assert (adv (set_decoder d1 c) c2) as Hx end; [|exact (Hx Hok')].
      etrans; [exact H01|]. etrans; [exact H12|]. etrans; [apply adv_fail_connection|apply adv_read_exit].
    + injection Hr as Hr. apply (f_equal snd) in Hr. cbn [snd] in Hr. rewrite <-Hr.
      match goal with |- advanced _ _ _ ?c2 => assert (adv (set_decoder d1 c) c2) as Hx end; [|exact (Hx Hok')].
      etrans; [exact H01|]. etrans; [exact H12|]. apply adv_read_head.
  - intros [= <- <-] [= <- <- <-] _.
    exact (Hexit Hok').
Qed.

(** *** Requests, handles, timers and shutdown *)

Lemma adv_start_sent l f r c : adv c (start_request_enqueue l f r c).2.
Proof.
  destruct r as [sent|]; [|done]. unfold start_request_enqueue, start_request_sent.
  destruct (negb (write_ok sent)); [|done]. simpl.
  etrans; [by apply (adv_call_operation l (fail_op (wr_status sent) (wr_message sent))); auto with rill|].
  etrans; [apply adv_close_channel|apply adv_cleanup].
Qed.

Lemma start_resume_traffic l f what c r c' :
  client_ok D c → up_frame rs f → frame_fits (limits_ (write_queue_ c)) f →
  start_request_resume l f what c = Some (r, c') →
  advanced rs D c c' ∧ (∀ l' f', r = StartEnqueuing l' f' → l' = l ∧ f' = f).
Proof.
  intros Hok Hf Hfit. unfold start_request_resume.
  destruct (enqueue_resume f what (write_queue_ c)) as [[r1 q]|] eqn:He; [|done]. intros [= Heq].
  assert (adv c (start_request_enqueue l f r1 (set_write_queue q c)).2) as Ha.
  { etrans; [apply (adv_queue q)|apply adv_start_sent]. intros _. by eapply emits_enqueue_resume. }
  rewrite Heq in Ha. split; [by apply Ha|]. intros l' f' ->.
  destruct r1 as [sent|]; simpl in Heq; [by destruct (start_request_sent l sent _)|]. by injection Heq.
Qed.

Lemma adv_deadline d r c : adv c (start_request_deadline d r c).2.
Proof.
  unfold start_request_deadline. destruct (negb _); [done|]. destruct (sr_operation r) as [l|]; [|done].
  apply adv_modify_rest. intros p. unfold set_deadline. by destruct (is_terminal _).
Qed.

Lemma adv_timer l e c c' : timer_handler l e c = Some c' → adv c c'.
Proof.
  unfold timer_handler. destruct (heap_ c !! l) as [p|]; [|done]. simpl.
  destruct (tm_complete e (pr_timer p)) as [tm|]; [|done]. simpl. intros [= <-].
  etrans; [apply (adv_modify_rest l (λ p, mkPending (pr_channel p) tm (pr_operation p) (pr_removed p)
    (pr_stream_released p))); done|]. destruct e; [done|apply adv_timeout_pending].
Qed.

Lemma adv_handle_cancel h m c : adv c (handle_cancel h m c).2.
Proof. unfold handle_cancel. case_match; [apply adv_cancel_pending|done]. Qed.

Lemma adv_handle_destroy h c : adv c (handle_destroy h c).
Proof. unfold handle_destroy. case_match; [apply adv_discard_pending|done]. Qed.

Lemma adv_handle_assign h other c : adv c (handle_assign h other c).2.
Proof. unfold handle_assign. simpl. case_match; [apply adv_discard_pending|done]. Qed.

Lemma adv_async_wait ty h c : adv c (async_wait (msg := msg) ty h c).2.
Proof.
  unfold async_wait. destruct (handle_target h) as [l|]; [|done]. apply adv_alter.
  intros p [Hs Hw Hh]. split; [|done].
  destruct (async_receive_view (pr_channel p) Hw) as (Hw' & _ & _ & Hp & _).
  split; simpl; [done..|by rewrite Hp].
Qed.

(** What a caller of [async_wait] gets was decoded from the peer's bytes, for the stream of
    its request. *)
Lemma wait_resume_traffic ty l c r c' :
  client_ok D c → async_wait_resume (msg := msg) registry_ ty l c = Some (r, c') →
  advanced rs D c c' ∧
  (∀ v, dec_value r = Some v → ∃ f, f ∈ D ∧ plain_response f ∧
     streams_of c !! l = Some (stream (header f)) ∧ r = decode_message registry_ ty f).
Proof.
  intros Hok. unfold async_wait_resume. destruct (heap_ c !! l) as [p|] eqn:Hl; [|done]. simpl.
  destruct (ch_resume (pr_channel p)) as [[rcv ch]|] eqn:Hr; [|done]. simpl. intros [= <- <-].
  pose proof (Forall_lookup_1 _ _ _ _ (ck_objects _ _ Hok) Hl) as [Hs Hw Hh].
  apply resume_view in Hr as (_ & Hw' & _ & _ & Hp & _); [|done]. rewrite Hp in Hh.
  apply Forall_app in Hh as [Hrcv Hh]. split.
  - assert (advanced rs D c (modify l (λ p, mkPending ch (pr_timer p) (pr_operation p) (pr_removed p)
      (pr_stream_released p)) c)) as [A1 A2 A3 A4].
    { unfold modify. rewrite (alter_insert _ _ _ _ Hl). destruct Hok as [Hq Ho].
      split; [split; [done|by apply Forall_insert]|done| |done].
      unfold streams_of. simpl. rewrite list_fmap_insert. simpl. apply list_insert_id.
      by rewrite list_lookup_fmap, Hl. }
    destruct (adv_cleanup l true _ A1) as [G1 G2 G3 G4]. split; [done|by etrans|congruence..].
  - intros v Hv. destruct rcv as [f|]; simpl in *.
    + apply Forall_singleton in Hrcv as (HD & Hpl & Hst). exists f.
      split_and!; auto. unfold streams_of. rewrite list_lookup_fmap, Hl. simpl. by rewrite Hst.
    + by destruct (op_result (pr_operation p)).
Qed.

Lemma adv_shutdown_finish c : adv c (shutdown_finish diagnostics_ c).
Proof.
  unfold shutdown_finish. set (c1 := if decide _ then c else _).
  trans c1; [unfold c1; case_decide; [done|apply adv_fail_pending]|].
  etrans; [by apply (adv_same _ (set_transport (t_close (transport_ c1)) c1))|].
  etrans; [apply adv_transition|apply adv_notify_closed].
Qed.

Lemma adv_shutdown_poll now deadline c : adv c (shutdown_poll diagnostics_ now deadline c).2.
Proof. unfold shutdown_poll. destruct (_ && _); [done|apply adv_shutdown_finish]. Qed.

Lemma adv_shutdown start now period c : adv c (shutdown diagnostics_ start now period c).2.
Proof.
  unfold shutdown. etrans; [|apply adv_shutdown_poll]. unfold begin_shutdown.
  repeat case_decide; by apply adv_same.
Qed.

Lemma adv_shutdown_resume e now deadline c : adv c (shutdown_resume diagnostics_ e now deadline c).2.
Proof. unfold shutdown_resume. destruct e; [apply adv_shutdown_finish|apply adv_shutdown_poll]. Qed.

End changes.

(** ** Starting a request *)

(** The entry a call of [start_request] adds to the history. *)
Definition started (ty : TypeIndex) (v : msg ty) c c' : list Request :=
  if decide (length (heap_ c) < length (heap_ c'))%nat then
    [mkRequest (stream_of (length (heap_ c)) c') ty v]
  else [].

Lemma up_frame_app rs rs' f : up_frame rs f → up_frame (rs ++ rs') f.
Proof.
  intros [Hw Hf]. split; [done|]. destruct Hf as [Hf|(r & Hr & Hf)]; [by left|right].
  exists r. split; [apply elem_of_app; by left|done].
Qed.

Lemma client_ok_app D D' c : client_ok D c → client_ok (D ++ D') c.
Proof.
  intros [Hq Ho]. split; [done|]. eapply Forall_impl; [exact Ho|]. intros p [Hs Hw Hh]. split; auto.
  eapply Forall_impl; [exact Hh|]. intros f (Hf & ?). split; [apply elem_of_app; by left|done].
Qed.

Lemma allocate_valid c s ids :
  conn_inv diagnostics_ c → allocate (stream_ids_ c) = (allocation_success s, ids) → valid_stream s.
Proof.
  intros Hc Ha. destruct (allocate_refines _ (ci_ids _ _ Hc)) as (_ & _ & _ & Hs). rewrite Ha in Hs.
  destruct (ci_ids _ _ Hc) as (Hm & _). unfold in_u in Hm.
  destruct Hs as [(x & [= ->] & [Hx _] & _)|([=] & _)]. rewrite (ci_client _ _ Hc) in Hx. simpl in Hx.
  split; [simpl; lia|]. unfold stream_wf, in_u. simpl. lia.
Qed.

Lemma new_pending_ok D s h : valid_stream s → object_ok D (new_pending s h).
Proof.
  intros Hs. split; simpl; [done|rewrite ch_view_make; apply view_make_wf|by rewrite ch_view_make].
Qed.

(** What a started request changes: a stream more, its frame offered to the queue. *)
Record request_traffic rs D (ty : TypeIndex) (v : msg ty) c (r : StartStep) c' : Prop := {
  rt_ok : client_ok D c';
  rt_emits : emits (up_frame (rs ++ started ty v c c')) (write_queue_ c) (write_queue_ c');
  rt_streams : streams_of c' = streams_of c ++ (rq_stream <$> started ty v c c');
  rt_decoder : decoder_ c' = decoder_ c;
  rt_waiting l f : r = StartEnqueuing l f →
    up_frame (rs ++ started ty v c c') f ∧ frame_fits (limits_ (write_queue_ c')) f;
}.

Lemma streams_length c c' : streams_of c' = streams_of c → length (heap_ c') = length (heap_ c).
Proof. intros Hs. apply (f_equal length) in Hs. unfold streams_of in Hs. by rewrite !length_fmap in Hs. Qed.

Lemma started_same ty v c c' : length (heap_ c') = length (heap_ c) → started ty v c c' = [].
Proof. intros Hl. unfold started. rewrite decide_False by lia. done. Qed.

Lemma start_request_traffic rs D ty v c :
  conn_inv diagnostics_ c → client_ok D c →
  request_traffic rs D ty v c (start_request registry_ diagnostics_ ty v c).1
    (start_request registry_ diagnostics_ ty v c).2.
Proof.
  intros Hc Hok. destruct (start_request_spec registry_ diagnostics_ ty v c Hc)
    as [|ids Heq|s ids ? ? Heq|s ids f r q Hcl Ha Hf He].
  1-3: split; simpl; rewrite ?started_same by done; rewrite ?app_nil_r; done || (by destruct Hok).
  pose proof (allocate_valid _ _ _ Hc Ha) as Hs. destruct Hok as [Hq Ho].
  set (c1 := set_write_queue q (registered diagnostics_ s ids c)).
  set (rq := mkRequest s ty v).
  assert (up_frame (rs ++ [rq]) f) as Hup.
  { split; [eapply encode_message_valid; [apply Hs..|by left|exact Hf]|]. right. exists rq.
    split; [apply elem_of_app; right; by apply list_elem_of_singleton|done]. }
  pose proof (emits_enqueue (up_frame (rs ++ [rq])) _ _ _ _ Hup He) as Hem.
  assert (client_ok D c1) as Hok1.
  { split; [by apply (em_inv _ _ _ Hem)|]. simpl. apply Forall_app. split; [done|].
    apply Forall_singleton. by apply new_pending_ok. }
  destruct (adv_start_sent (rs ++ [rq]) D (length (heap_ c)) f r c1 Hok1) as [Hok2 Hem2 Hst2 Hdec2].
  pose proof (streams_length _ _ Hst2) as Hlen. unfold c1 in Hlen at 2. simpl in Hlen.
  rewrite length_app in Hlen. simpl in Hlen. set (c2 := (start_request_enqueue _ f r c1).2) in *.
  assert (streams_of c2 = streams_of c ++ [s]) as Hst.
  { rewrite Hst2. unfold streams_of. simpl. by rewrite fmap_app. }
  assert (started ty v c c2 = [rq]) as Hstarted.
  { unfold started. rewrite decide_True by lia. unfold rq. do 2 f_equal. unfold stream_of.
    assert (streams_of c2 !! length (heap_ c) = Some s) as Hl.
    { rewrite Hst. unfold streams_of. by rewrite lookup_app_r, length_fmap, Nat.sub_diag by (by rewrite length_fmap). }
    unfold streams_of in Hl. rewrite list_lookup_fmap in Hl. by destruct (heap_ c2 !! _); simplify_eq/=. }
  split; rewrite ?Hstarted; [done|by etrans|done|done|].
  intros l' f' Heq. destruct r as [sent|]; simpl in Heq; [by destruct (start_request_sent _ _ _)|].
  injection Heq as <- <-. split; [done|]. destruct (enqueue_spec _ _ _ _ Hq He) as [_ Hfit].
  rewrite (em_limits _ _ _ Hem2). simpl. rewrite (em_limits _ _ _ Hem). by apply Hfit.
Qed.

(** ** [run] *)

Lemma run_traffic rs D c c' pc rpc k d :
  conn_inv diagnostics_ c → client_ok D c → run diagnostics_ c = (c', pc, rpc) →
  link_inv (up_frame rs) RunNotStarted (write_queue_ c) k d →
  client_ok D c' ∧ link_inv (up_frame rs) pc (write_queue_ c') k d ∧
  streams_of c' = streams_of c ∧ decoder_ c' = decoder_ c ∧
  limits_ (write_queue_ c') = limits_ (write_queue_ c).
Proof.
  intros Hc Hok. unfold run. set (c1 := if decide _ then _ else c).
  assert (advanced rs D c c1) as [Hok1 He1 Hs1 Hd1].
  { assert (advances rs D c c1) as Ha by (unfold c1; case_decide; by apply adv_same). by apply Ha. }
  destruct (run_receive (write_queue_ c1)) as [pc1 q] eqn:Hr.
  pose proof (run_receive_spec _ _ _ (ck_queue _ _ Hok1) Hr) as (_ & Hq & _).
  assert (client_ok D (set_write_queue q c1)) as Hok2 by (split; [done|apply Hok1]).
  pose proof (adv_read_head rs D (set_write_queue q c1) Hok2) as [Hok3 He3 Hs3 Hd3].
  destruct (read_loop_head diagnostics_ (set_write_queue q c1)) as [rpc1 c2]. simpl in *.
  intros [= <- <- <-] Hl. split_and!; [done| |by etrans; [exact Hs3|]|by etrans; [exact Hd3|]|].
  - eapply link_inv_emits; [|exact He3|]; [done|]. eapply link_inv_run; [|exact Hr|]; [apply Hok1|].
    eapply link_inv_emits; [|exact He1|done]. apply Hok.
  - rewrite (em_limits _ _ _ He3). simpl. rewrite <-(em_limits _ _ _ He1). by injection Hr as _ <-.
Qed.

End client_traffic.
