(* ===== verification/ServerTraffic.v ===== *)
(** * What a server puts on the wire and what it holds

    Two things about every step of a [ServerConnection]: the frames it emits are valid, and
    each is an error frame or carries the value that a handler returned; and the coroutines
    it runs were spawned for requests decoded from the peer's bytes. *)

From S2P Require Import Prelude Identifiers Status Frame FrameCodec FrameDecoder ProtocolViolation.
From S2P Require Import Lifecycle Diagnostics Operation Codec MessageRegistry MessageCodec.
From S2P Require Import Transport Channel WriteQueue Link ServerConnection.

Local Open Scope Z_scope.

#[local] Arguments encode_frame : simpl never.

Lemma error_wire_ok s status : valid_stream s → wire_ok (make_error_frame s status).
Proof.
  intros [Hs Hw]. split; [|by apply error_frame_valid]. split; [vm_decide|]. split; [done|vm_decide].
Qed.

Section server_traffic.
Context {Ch : Type → Type} `{!Channel Ch} `{!ChannelLaws Ch} {T : Type} `{!Transport T} `{!TransportLaws T}.
Context `{!MapTraversal} `{!MapTraversalLaws}.
Context {TypeIndex : Type} `{Countable TypeIndex} {msg : TypeIndex → Type} `{C : !Codec TypeIndex msg}.
Context `{!CodecLaws TypeIndex msg}.
Context (registry_ : MessageRegistry (TypeIndex := TypeIndex)) (diagnostics_ : DiagnosticsHooks).

Local Abbreviation Task := (HandlerTask (TypeIndex := TypeIndex)).

Implicit Types (c : ServerConnection (Ch := Ch) (T := T) (TypeIndex := TypeIndex)) (k : Task).

#[export] Instance RequestHandler_eq_dec : EqDecision (RequestHandler (TypeIndex := TypeIndex)).
Proof. solve_decision. Defined.

#[export] Instance HandlerPc_eq_dec : EqDecision HandlerPc.
Proof. solve_decision. Defined.

#[export] Instance HandlerTask_eq_dec : EqDecision Task.
Proof. solve_decision. Defined.

(** A handler that returned: the coroutine that called it and the value it returned. *)
Record Answer := mkAnswer {
  an_task : Task;
  an_value : msg (rh_response (task_handler an_task));
}.

Definition answer_frame (a : Answer) (f : Frame) : Prop :=
  response_frame registry_ (an_task a) (an_value a) = Some f.

(** The frames a server emits, given the values its handlers returned. *)
Definition down_frame (A : list Answer) (f : Frame) : Prop :=
  wire_ok f ∧ ((∃ s status, f = make_error_frame s status) ∨ ∃ a, a ∈ A ∧ answer_frame a f).

(** The coroutine's frame decodes to a request of its handler. *)
Definition called_with (D : list Frame) k : Prop :=
  task_frame k ∈ D ∧ decode_ok (decode_message (msg := msg) registry_ (rh_request (task_handler k)) (task_frame k)) = true.

(** The coroutines, given the frames decoded and the values returned so far. *)
Definition task_ok (D : list Frame) (A : list Answer) k : Prop :=
  task_frame k ∈ D ∧
  match task_pc k with
  | HandlerSpawned => True
  | HandlerCalled => called_with D k
  | HandlerEnqueuing f => down_frame A f
  end.

Record server_ok (D : list Frame) (A : list Answer) c : Prop := {
  sk_queue : queue_inv (write_queue_ c);
  sk_tasks : Forall (task_ok D A) (tasks_ c);
}.

(** A step in which no handler returns and nothing is decoded. *)
Record sadvanced D A c c' : Prop := {
  sv_ok : server_ok D A c';
  sv_emits : emits (down_frame A) (write_queue_ c) (write_queue_ c');
  sv_decoder : decoder_ c' = decoder_ c;
}.

Definition sadvances D A c c' : Prop := server_ok D A c → sadvanced D A c c'.

#[export] Instance sadvances_preorder D A : PreOrder (sadvances D A).
Proof.
  split; [intros c Hc; by split|]. intros c1 c2 c3 H12 H23 Hc. destruct (H12 Hc) as [Hc2 He Hd].
  destruct (H23 Hc2) as [Hc3 He' Hd']. split; [done|by etrans|congruence].
Qed.

Section changes.
Context (D : list Frame) (A : list Answer) (HD : Forall wire_ok D).

Local Abbreviation adv := (sadvances D A).

Lemma decoded_valid f : f ∈ D → valid_stream (stream (header f)).
Proof. intros Hf. apply wire_ok_stream. by eapply Forall_forall in HD. Qed.

(** ** Basic changes *)

Lemma sadv_same c c' :
  write_queue_ c' = write_queue_ c → tasks_ c' = tasks_ c → decoder_ c' = decoder_ c → adv c c'.
Proof. intros Hq Ht Hd [Hi Ho]. split; [split; congruence|by rewrite Hq|done]. Qed.

Lemma sadv_queue q c : emits (down_frame A) (write_queue_ c) q → adv c (set_write_queue q c).
Proof. intros He [Hi Ho]. split; [split; [by apply (em_inv _ _ _ He)|done]|done|done]. Qed.

Lemma sadv_tasks ops n ks c :
  (Forall (task_ok D A) (tasks_ c) → Forall (task_ok D A) ks) → adv c (set_running ops n ks c).
Proof. intros Hks [Hi Ho]. split; [split; [done|by apply Hks]|done|done]. Qed.

Lemma sadv_call_operation l f c : adv c (call_operation l f c).2.
Proof. apply sadv_same; unfold call_operation; by repeat case_match. Qed.

Lemma sadv_send_error s status c : valid_stream s → adv c (send_operation_error s status c).
Proof.
  intros Hs. apply sadv_queue, emits_try_enqueue. split; [by apply error_wire_ok|left; eauto].
Qed.

Lemma sadv_mark_terminal f c : adv c (mark_terminal f c).
Proof. unfold mark_terminal. case_match; [by apply sadv_same|done]. Qed.

Lemma sadv_close_when_idle c : adv c (close_queue_when_idle c).
Proof. unfold close_queue_when_idle. case_match; [apply sadv_queue, emits_close|done]. Qed.

Lemma sadv_fail_connection status m c : adv c (fail_connection diagnostics_ status m c).
Proof. unfold fail_connection. case_decide; by apply sadv_same. Qed.

Lemma sadv_transition st c : adv c (transition st c).
Proof. by apply sadv_same. Qed.

Lemma sadv_notify_closed c : adv c (notify_closed diagnostics_ c).
Proof. unfold notify_closed. case_match; [done|by apply sadv_same]. Qed.

Lemma sadv_fail_operations c : adv c (fail_operations_on_connection_close c).
Proof.
  unfold fail_operations_on_connection_close. generalize (map_traversal (operations_ c)). intros ops.
  revert c. induction ops as [|[s l] ops IH]; intros c; simpl; [done|]. etrans; [|apply IH].
  unfold fail_operation. etrans; apply sadv_call_operation.
Qed.

#[local] Hint Resolve sadv_mark_terminal sadv_fail_connection : rill.

(** ** Requests *)

Lemma sadv_dispatch frame c : frame ∈ D → adv c (dispatch diagnostics_ frame c).
Proof.
  intros Hf. pose proof (decoded_valid _ Hf) as Hs. unfold dispatch.
  assert (∀ st, adv c (mark_terminal frame (send_operation_error (stream (header frame)) st c))) as Herr
    by (intros st; etrans; [by apply sadv_send_error|apply sadv_mark_terminal]).
  destruct (_ || _ || _); [done|]. destruct (negb _); [auto with rill|]. case_decide; [auto with rill|].
  destruct (has_flag _ FrameFlags.cancel).
  { case_match; [|auto with rill]. etrans; [apply sadv_call_operation|apply sadv_mark_terminal]. }
  destruct (peek_message_type _) as [mt|]; [|done]. destruct (handlers_ c !! mt) as [h|]; [|done].
  case_match; [by apply sadv_same|].
  etrans; [by apply (sadv_same _ (notify diagnostics_ (event_on_stream DiagnosticsEventType.request_started
    (stream (header frame))) (set_store (store_ c ++ [new_request_operation diagnostics_ (stream (header frame))]) c)))|].
  apply sadv_tasks. intros Hks. apply Forall_app. split; [done|]. by apply Forall_singleton.
Qed.

Lemma sadv_dispatch_frames frames c :
  Forall (λ f, f ∈ D) frames → adv c (dispatch_frames diagnostics_ frames c).
Proof.
  intros Hf. revert c. induction Hf as [|f frames Hf _ IH]; intros c; [done|]. simpl.
  set (c1 := notify _ _ c). trans c1; [by apply sadv_same|].
  etrans; [by apply (sadv_dispatch f)|]. case_match; [done|apply IH].
Qed.

(** ** Handler coroutines *)

Lemma sadv_handler_end i k c : adv c (handler_end i k c).
Proof.
  unfold handler_end. etrans; [|apply sadv_close_when_idle]. apply sadv_tasks, Forall_delete.
Qed.

Lemma sadv_set_task_pc i k pc c :
  task_ok D A (mkTask (task_handler k) (task_frame k) (task_operation k) pc) → adv c (set_task_pc i k pc c).
Proof. intros Hk. apply sadv_tasks. intros Hks. by apply Forall_insert. Qed.

Lemma sadv_handler_start i k c : task_frame k ∈ D → adv c (handler_start registry_ i k c).
Proof.
  intros Hk. unfold handler_start. destruct (decode_ok _) eqn:Hok; simpl.
  - by apply sadv_set_task_pc.
  - etrans; [apply sadv_call_operation|]. etrans; [by apply sadv_send_error, decoded_valid|].
    apply sadv_handler_end.
Qed.

Lemma sadv_handler_enqueue i k f r c :
  task_frame k ∈ D → down_frame A f → adv c (handler_enqueue i k f r c).
Proof.
  intros Hk Hf. unfold handler_enqueue. destruct r; [apply sadv_handler_end|by apply sadv_set_task_pc].
Qed.

(** The frame of a response is valid on the wire. *)
Lemma end_stream_wire_ok f :
  flags (header f) = FrameFlags.none → wire_ok f → wire_ok (end_stream f).
Proof.
  intros Hfl [Hwf [(Hv & Hty & _ & _ & Hs & Hp) Hrest]]. split; [done|]. split; [|done].
  unfold header_valid, end_stream. simpl. rewrite Hfl. split_and!; try done; vm_compute; naive_solver.
Qed.

(** The value that the handler returned must be in the history. *)
Lemma sadv_handler_returned i k v c :
  task_frame k ∈ D → mkAnswer k v ∈ A → adv c (handler_returned registry_ i k v c).
Proof.
  intros Hk Hv. unfold handler_returned.
  destruct (encode_message_factory registry_ (rh_response (task_handler k)) v (task_stream k)
    FrameType.response) as [[f Hf]|(st & m & Hst & Hf)]; rewrite Hf; simpl.
  2: { unfold frame_encode_ok. simpl. rewrite bool_decide_eq_false_2 by done. apply sadv_handler_end. }
  assert (down_frame A (end_stream f)) as Hdown.
  { split.
    - destruct (decoded_valid _ Hk) as [Hs Hw]. apply end_stream_wire_ok.
      + by destruct (encode_message_success _ _ _ _ _ _ _ _ _ Hf) as (_ & _ & _ & _ & _ & _ & ->).
      + exact (encode_message_valid registry_ _ v (task_stream k) FrameType.response f Hs Hw (or_intror eq_refl) Hf).
    - right. exists (mkAnswer k v). split; [done|]. unfold answer_frame, response_frame. simpl. by rewrite Hf. }
  pose proof (sadv_call_operation (task_operation k) (complete "response ready") c) as Hc1.
  destruct (call_operation _ _ c) as [b c1]. simpl in Hc1. etrans; [exact Hc1|].
  destruct b; [|apply sadv_handler_end]. simpl. destruct (enqueue (end_stream f) (write_queue_ c1)) as [r q] eqn:He.
  etrans; [apply (sadv_queue q); by eapply emits_enqueue|by apply sadv_handler_enqueue].
Qed.

Lemma handler_resume_traffic i k f what c c' :
  server_inv diagnostics_ c → tasks_ c !! i = Some k → task_pc k = HandlerEnqueuing f →
  handler_resume i k f what c = Some c' → adv c c'.
Proof.
  intros Hc Hi Hpc. unfold handler_resume.
  destruct (enqueue_resume f what (write_queue_ c)) as [[r q]|] eqn:He; [|done]. simpl. intros [= <-] Hok.
  pose proof (Forall_lookup_1 _ _ _ _ (sk_tasks _ _ _ Hok) Hi) as [Hk Hf]. rewrite Hpc in Hf.
  pose proof (vi_fits _ _ Hc k f (list_elem_of_lookup_2 _ _ _ Hi) Hpc) as Hfit. revert Hok.
  match goal with |- _ → sadvanced _ _ _ ?c2 => assert (adv c c2) as Hx end; [|exact Hx].
  etrans; [apply (sadv_queue q); by eapply emits_enqueue_resume|by apply sadv_handler_enqueue].
Qed.

(** ** The read loop and shutdown *)

Lemma sadv_read_exit lost c : adv c (read_loop_exit diagnostics_ lost c).2.
Proof.
  unfold read_loop_exit. simpl. set (c1 := if lost then _ else c).
  trans c1; [unfold c1; destruct lost; [apply sadv_fail_operations|done]|].
  etrans; [by apply (sadv_same _ (set_reading false c1))|]. etrans; [apply sadv_close_when_idle|].
  etrans; [apply sadv_transition|apply sadv_notify_closed].
Qed.

Lemma sadv_read_head c : adv c (read_loop_head diagnostics_ c).2.
Proof. unfold read_loop_head. repeat case_match; try done; apply sadv_read_exit. Qed.

Lemma server_read_traffic io c pc c' bytes d fs :
  server_inv diagnostics_ c →
  read_loop_resume diagnostics_ io c = Some (pc, c') →
  decode_read (t_read_end io (transport_ c)).1 (decoder_ c) = (bytes, d, fs) →
  Forall (λ f, f ∈ D) fs → adv (set_decoder d c) c'.
Proof.
  intros Hc. unfold read_loop_resume. destruct (t_read_end io (transport_ c)) as [r t]. cbv zeta. cbn [fst].
  assert (∀ b, adv (set_decoder (decoder_ c) c) (read_loop_exit diagnostics_ b (set_transport t c)).2) as Hexit
    by (intros b; etrans; [by apply (sadv_same _ (set_transport t c))|apply sadv_read_exit]).
  destruct r as [bs|what]; cbn [decode_read].
  - destruct (push_inv (decoder_ c) bs) as (d1 & fs1 & Hp & Hd1 & _); [apply Hc|]. rewrite Hp.
    intros Hr [= <- <- <-] Hfs. destruct bs as [|b bs].
    { injection Hr as <- <-. injection Hp as <- <-. exact (Hexit _). }
    set (c1 := notify _ _ (set_transport t c)) in Hr. change (decoder_ c1) with (decoder_ c) in Hr.
    rewrite Hp in Hr. simpl in Hr. trans (set_decoder d1 c1); [by apply sadv_same|].
    etrans; [by apply (sadv_dispatch_frames fs1)|].
    destruct (decoder_error _) as [e|].
    + injection Hr as _ <-. etrans; [|apply (sadv_read_exit false)]. by apply sadv_same.
    + injection Hr as Hr. apply (f_equal snd) in Hr. cbn [snd] in Hr. rewrite <-Hr. apply sadv_read_head.
  - intros [= <- <-] [= <- <- <-] _. exact (Hexit true).
Qed.

Lemma sadv_handle request response c : adv c (handle registry_ request response c).
Proof. unfold handle. case_match; [by apply sadv_same|done]. Qed.

Lemma sadv_shutdown_finish c : adv c (shutdown_finish diagnostics_ c).
Proof.
  unfold shutdown_finish. set (c1 := if negb _ then _ else c).
  trans c1; [unfold c1; case_match; [apply sadv_fail_operations|done]|].
  etrans; [by apply (sadv_same _ (set_transport (t_close (transport_ c1)) c1))|].
  etrans; [apply sadv_transition|apply sadv_notify_closed].
Qed.

Lemma sadv_shutdown_poll now deadline c : adv c (shutdown_poll diagnostics_ now deadline c).2.
Proof. unfold shutdown_poll. destruct (_ && _); [done|apply sadv_shutdown_finish]. Qed.

Lemma sadv_shutdown start now period c : adv c (shutdown diagnostics_ start now period c).2.
Proof.
  unfold shutdown. etrans; [|apply sadv_shutdown_poll]. unfold begin_shutdown.
  repeat case_decide; by apply sadv_same.
Qed.

Lemma sadv_shutdown_resume e now deadline c : adv c (shutdown_resume diagnostics_ e now deadline c).2.
Proof. unfold shutdown_resume. destruct e; [apply sadv_shutdown_finish|apply sadv_shutdown_poll]. Qed.

Lemma server_run_traffic c c' pc rpc lk d :
  server_ok D A c → run diagnostics_ c = (c', pc, rpc) →
  link_inv (down_frame A) RunNotStarted (write_queue_ c) lk d →
  server_ok D A c' ∧ link_inv (down_frame A) pc (write_queue_ c') lk d ∧ decoder_ c' = decoder_ c.
Proof.
  intros Hok. unfold run. set (c1 := if decide _ then _ else c).
  assert (sadvanced D A c c1) as [Hok1 He1 Hd1].
  { assert (adv c c1) as Ha by (unfold c1; case_decide; by apply sadv_same). by apply Ha. }
  destruct (run_receive (write_queue_ c1)) as [pc1 q] eqn:Hr.
  pose proof (run_receive_spec _ _ _ (sk_queue _ _ _ Hok1) Hr) as (_ & Hq & _).
  assert (server_ok D A (set_write_queue q c1)) as Hok2 by (split; [done|apply Hok1]).
  pose proof (sadv_read_head (set_write_queue q c1) Hok2) as [Hok3 He3 Hd3].
  destruct (read_loop_head diagnostics_ (set_write_queue q c1)) as [rpc1 c2]. simpl in *.
  intros [= <- <- <-] Hl. split_and!; [done| |by etrans; [exact Hd3|]].
  eapply link_inv_emits; [|exact He3|]; [done|]. eapply link_inv_run; [|exact Hr|]; [apply Hok1|].
  eapply link_inv_emits; [|exact He1|done]. apply Hok.
Qed.

End changes.

(** ** Growing histories *)

Lemma down_frame_app A A' f : down_frame A f → down_frame (A ++ A') f.
Proof.
  intros [Hw Hf]. split; [done|]. destruct Hf as [Hf|(a & Ha & Hf)]; [by left|right].
  exists a. split; [apply elem_of_app; by left|done].
Qed.

Lemma server_ok_app D D' A A' c : server_ok D A c → server_ok (D ++ D') (A ++ A') c.
Proof.
  intros [Hq Ho]. split; [done|]. eapply Forall_impl; [exact Ho|]. intros k [Hf Hpc].
  assert (task_frame k ∈ D ++ D') as Hf' by (apply elem_of_app; by left). split; [done|].
  destruct (task_pc k); [done|by destruct Hpc|by apply down_frame_app].
Qed.

End server_traffic.
