(* ===== verification/Duplex.v ===== *)
(** * A client and a server over a connection

    The composed system: a [ClientConnection] and a [ServerConnection], the two byte streams
    between them, and everything either side can do next - the calls of the applications, the
    answers of the sockets, the completions of timers and receives - as one executable step.
    The bytes that arrive are those that were written, in order and cut arbitrarily. *)

From S2P Require Import Prelude Identifiers Status Frame FrameCodec FrameDecoder ProtocolViolation.
From S2P Require Import Lifecycle Diagnostics Operation StreamIdAllocator Codec MessageRegistry MessageCodec.
From S2P Require Import Transport Channel Timer WriteQueue Link.
From S2P Require Import ServerConnection.
From S2P Require Import ClientConnection.
From S2P Require Import ServerTraffic.
From S2P Require Import ClientTraffic.

Local Open Scope Z_scope.

#[local] Arguments encode_frame : simpl never.

Section duplex.
Context {Ch : Type → Type} `{!Channel Ch} {T : Type} `{!Transport T}.
Context {Tm : Type} `{!SteadyTimer Tm}.
Context `{!MapBegin} `{!ServerConnection.MapTraversal}.
Context {TypeIndex : Type} `{Countable TypeIndex} {msg : TypeIndex → Type} `{C : !Codec TypeIndex msg}.
Context (registry : MessageRegistry (TypeIndex := TypeIndex)) (client_hooks server_hooks : DiagnosticsHooks).

Local Abbreviation Client := (ClientConnection (Ch := Ch) (Tm := Tm) (T := T)).
Local Abbreviation Server := (ServerConnection.ServerConnection (Ch := Ch) (T := T) (TypeIndex := TypeIndex)).

(** ** State *)

(** The endpoints, where their write and read loops are, the calls of [start_request] that
    wait for space in the queue, the two directions of the connection, and the histories of
    the requests that were started and of the values that handlers returned. *)
Record Duplex := mkDuplex {
  dx_client : Client;
  dx_client_run : RunPc;
  dx_client_read : ReadPc;
  dx_starting : list (nat * Frame);
  dx_server : Server;
  dx_server_run : RunPc;
  dx_server_read : ServerConnection.ReadPc;
  dx_up : Link;
  dx_down : Link;
  dx_requests : list (Request (msg := msg));
  dx_answers : list (Answer (msg := msg));
}.

Definition new_duplex (ct st : T) (climits slimits : WriteQueueLimits) (maximum : Z) : Duplex :=
  mkDuplex (new_client client_hooks ct climits maximum) RunNotStarted ReadNotStarted []
    (ServerConnection.new_server server_hooks st slimits) RunNotStarted ServerConnection.ReadNotStarted new_link new_link [] [].

(** ** Actions *)

Inductive Action :=
  | ClientRun
  | ClientStart (ty : TypeIndex) (v : msg ty)
  | ClientStartResume (i : nat) (what : string)
  | ClientDeadline (deadline : Z) (started : StartRequestResult)
  | ClientTimer (l : nat) (error : bool)
  | ClientCancel (h : RequestOperation) (message : string)
  | ClientWait (ty : TypeIndex) (h : RequestOperation)
  | ClientWaitResume (ty : TypeIndex) (l : nat)
  | ClientDestroy (h : RequestOperation)
  | ClientAssign (h other : RequestOperation)
  | ClientRead (io : ReadIo)
  | ClientTake
  | ClientTransfer (n : nat)
  | ClientWritten (io : WriteIo)
  | ClientShutdown (start now period : Z)
  | ClientShutdownResume (error : bool) (now deadline : Z)
  | ServerRun
  | ServerHandle (request response : TypeIndex)
  | ServerTaskStart (i : nat)
  | ServerReturned (i : nat) (a : Answer (msg := msg))
  | ServerThrew (i : nat)
  | ServerTaskResume (i : nat) (what : string)
  | ServerRead (io : ReadIo)
  | ServerTake
  | ServerTransfer (n : nat)
  | ServerWritten (io : WriteIo)
  | ServerShutdown (start now period : Z)
  | ServerShutdownResume (error : bool) (now deadline : Z).

Definition set_client (c : Client) (x : Duplex) : Duplex :=
  mkDuplex c (dx_client_run x) (dx_client_read x) (dx_starting x) (dx_server x) (dx_server_run x)
    (dx_server_read x) (dx_up x) (dx_down x) (dx_requests x) (dx_answers x).

Definition set_server (c : Server) (x : Duplex) : Duplex :=
  mkDuplex (dx_client x) (dx_client_run x) (dx_client_read x) (dx_starting x) c (dx_server_run x)
    (dx_server_read x) (dx_up x) (dx_down x) (dx_requests x) (dx_answers x).

(** A call of [start_request] that has not returned goes on waiting. *)
Definition still_starting (r : StartStep) : list (nat * Frame) :=
  match r with StartEnqueuing l f => [(l, f)] | StartReturned _ => [] end.

Definition cli_start (ty : TypeIndex) (v : msg ty) (x : Duplex) : Duplex :=
  let c := dx_client x in
  let '(r, c') := start_request registry client_hooks ty v c in
  mkDuplex c' (dx_client_run x) (dx_client_read x) (dx_starting x ++ still_starting r) (dx_server x)
    (dx_server_run x) (dx_server_read x) (dx_up x) (dx_down x) (dx_requests x ++ started ty v c c')
    (dx_answers x).

Definition cli_start_resume (i : nat) (what : string) (x : Duplex) : option Duplex :=
  '(l, f) ← dx_starting x !! i;
  '(r, c) ← start_request_resume l f what (dx_client x);
  Some (mkDuplex c (dx_client_run x) (dx_client_read x) (delete i (dx_starting x) ++ still_starting r)
    (dx_server x) (dx_server_run x) (dx_server_read x) (dx_up x) (dx_down x) (dx_requests x) (dx_answers x)).

Definition cli_run (x : Duplex) : option Duplex :=
  match dx_client_run x with
  | RunNotStarted =>
      let '(c, pc, rpc) := run client_hooks (dx_client x) in
      Some (mkDuplex c pc rpc (dx_starting x) (dx_server x) (dx_server_run x) (dx_server_read x)
              (dx_up x) (dx_down x) (dx_requests x) (dx_answers x))
  | _ => None
  end.

Definition cli_read (io : ReadIo) (x : Duplex) : option Duplex :=
  match dx_client_read x with
  | ReadWaiting =>
      let c := dx_client x in
      let '(bytes, _, fs) := decode_read (t_read_end io (transport_ c)).1 (decoder_ c) in
      down ← link_read bytes fs (dx_down x);
      '(rpc, c') ← read_loop_resume client_hooks io c;
      Some (mkDuplex c' (dx_client_run x) rpc (dx_starting x) (dx_server x) (dx_server_run x)
              (dx_server_read x) (dx_up x) down (dx_requests x) (dx_answers x))
  | _ => None
  end.

Definition cli_take (x : Duplex) : option Duplex :=
  match dx_client_run x with
  | RunReceiving =>
      let c := dx_client x in
      '(pc, q, t) ← run_resume (write_queue_ c) (transport_ c);
      Some (mkDuplex (set_transport t (set_write_queue q c)) pc (dx_client_read x)
              (dx_starting x) (dx_server x) (dx_server_run x) (dx_server_read x)
              (link_start pc (dx_up x)) (dx_down x) (dx_requests x) (dx_answers x))
  | _ => None
  end.

Definition cli_written (io : WriteIo) (x : Duplex) : option Duplex :=
  match dx_client_run x with
  | RunWriting f =>
      let c := dx_client x in
      up ← link_written (t_write_end io (transport_ c)).1 (dx_up x);
      let '(pc, q, t, es) := run_written f io (write_queue_ c) (transport_ c) in
      Some (mkDuplex (log_events es (set_transport t (set_write_queue q c))) pc
              (dx_client_read x) (dx_starting x) (dx_server x) (dx_server_run x) (dx_server_read x)
              up (dx_down x) (dx_requests x) (dx_answers x))
  | _ => None
  end.

Definition srv_run (x : Duplex) : option Duplex :=
  match dx_server_run x with
  | RunNotStarted =>
      let '(c, pc, rpc) := ServerConnection.run server_hooks (dx_server x) in
      Some (mkDuplex (dx_client x) (dx_client_run x) (dx_client_read x) (dx_starting x) c pc rpc
              (dx_up x) (dx_down x) (dx_requests x) (dx_answers x))
  | _ => None
  end.

Definition srv_read (io : ReadIo) (x : Duplex) : option Duplex :=
  match dx_server_read x with
  | ServerConnection.ReadWaiting =>
      let c := dx_server x in
      let '(bytes, _, fs) := decode_read (t_read_end io (ServerConnection.transport_ c)).1 (ServerConnection.decoder_ c) in
      up ← link_read bytes fs (dx_up x);
      '(rpc, c') ← ServerConnection.read_loop_resume server_hooks io c;
      Some (mkDuplex (dx_client x) (dx_client_run x) (dx_client_read x) (dx_starting x) c'
              (dx_server_run x) rpc up (dx_down x) (dx_requests x) (dx_answers x))
  | _ => None
  end.

Definition srv_take (x : Duplex) : option Duplex :=
  match dx_server_run x with
  | RunReceiving =>
      let c := dx_server x in
      '(pc, q, t) ← run_resume (ServerConnection.write_queue_ c) (ServerConnection.transport_ c);
      Some (mkDuplex (dx_client x) (dx_client_run x) (dx_client_read x) (dx_starting x)
              (ServerConnection.set_transport t (ServerConnection.set_write_queue q c)) pc (dx_server_read x) (dx_up x)
              (link_start pc (dx_down x)) (dx_requests x) (dx_answers x))
  | _ => None
  end.

Definition srv_written (io : WriteIo) (x : Duplex) : option Duplex :=
  match dx_server_run x with
  | RunWriting f =>
      let c := dx_server x in
      down ← link_written (t_write_end io (ServerConnection.transport_ c)).1 (dx_down x);
      let '(pc, q, t, es) := run_written f io (ServerConnection.write_queue_ c) (ServerConnection.transport_ c) in
      Some (mkDuplex (dx_client x) (dx_client_run x) (dx_client_read x) (dx_starting x)
              (ServerConnection.log_events es (ServerConnection.set_transport t (ServerConnection.set_write_queue q c))) pc (dx_server_read x)
              (dx_up x) down (dx_requests x) (dx_answers x))
  | _ => None
  end.

(** The coroutine at position [i], if it is where the action expects it. *)
Definition srv_returned (i : nat) (a : Answer (msg := msg)) (x : Duplex) : option Duplex :=
  if decide (ServerConnection.tasks_ (dx_server x) !! i = Some (an_task a) ∧ ServerConnection.task_pc (an_task a) = ServerConnection.HandlerCalled) then
    Some (mkDuplex (dx_client x) (dx_client_run x) (dx_client_read x) (dx_starting x)
      (ServerConnection.handler_returned registry i (an_task a) (an_value a) (dx_server x)) (dx_server_run x)
      (dx_server_read x) (dx_up x) (dx_down x) (dx_requests x) (dx_answers x ++ [a]))
  else None.

Definition srv_task_start (i : nat) (x : Duplex) : option Duplex :=
  k ← ServerConnection.tasks_ (dx_server x) !! i;
  match task_pc k with
  | HandlerSpawned => Some (set_server (handler_start registry i k (dx_server x)) x)
  | _ => None
  end.

Definition srv_threw (i : nat) (x : Duplex) : option Duplex :=
  k ← ServerConnection.tasks_ (dx_server x) !! i;
  match task_pc k with
  | HandlerCalled => Some (set_server (handler_threw i k (dx_server x)) x)
  | _ => None
  end.

Definition srv_task_resume (i : nat) (what : string) (x : Duplex) : option Duplex :=
  k ← ServerConnection.tasks_ (dx_server x) !! i;
  match task_pc k with
  | HandlerEnqueuing f => c ← handler_resume i k f what (dx_server x); Some (set_server c x)
  | _ => None
  end.

Definition set_up (k : Link) (x : Duplex) : Duplex :=
  mkDuplex (dx_client x) (dx_client_run x) (dx_client_read x) (dx_starting x) (dx_server x)
    (dx_server_run x) (dx_server_read x) k (dx_down x) (dx_requests x) (dx_answers x).

Definition set_down (k : Link) (x : Duplex) : Duplex :=
  mkDuplex (dx_client x) (dx_client_run x) (dx_client_read x) (dx_starting x) (dx_server x)
    (dx_server_run x) (dx_server_read x) (dx_up x) k (dx_requests x) (dx_answers x).

(** One step of the system; [None] where the action is not possible. *)
Definition dstep (a : Action) (x : Duplex) : option Duplex :=
  let c := dx_client x in
  let s := dx_server x in
  match a with
  | ClientRun => cli_run x
  | ClientStart ty v => Some (cli_start ty v x)
  | ClientStartResume i what => cli_start_resume i what x
  | ClientDeadline d r => Some (set_client (start_request_deadline d r c).2 x)
  | ClientTimer l error => c' ← timer_handler l error c; Some (set_client c' x)
  | ClientCancel h m => Some (set_client (handle_cancel h m c).2 x)
  | ClientWait ty h => Some (set_client (async_wait (msg := msg) ty h c).2 x)
  | ClientWaitResume ty l => '(_, c') ← async_wait_resume (msg := msg) registry ty l c; Some (set_client c' x)
  | ClientDestroy h => Some (set_client (handle_destroy h c) x)
  | ClientAssign h other => Some (set_client (handle_assign h other c).2 x)
  | ClientRead io => cli_read io x
  | ClientTake => cli_take x
  | ClientTransfer n => k ← link_transfer n (dx_up x); Some (set_up k x)
  | ClientWritten io => cli_written io x
  | ClientShutdown start now period => Some (set_client (shutdown client_hooks start now period c).2 x)
  | ClientShutdownResume e now d => Some (set_client (shutdown_resume client_hooks e now d c).2 x)
  | ServerRun => srv_run x
  | ServerHandle rq rs => Some (set_server (handle registry rq rs s) x)
  | ServerTaskStart i => srv_task_start i x
  | ServerReturned i a => srv_returned i a x
  | ServerThrew i => srv_threw i x
  | ServerTaskResume i what => srv_task_resume i what x
  | ServerRead io => srv_read io x
  | ServerTake => srv_take x
  | ServerTransfer n => k ← link_transfer n (dx_down x); Some (set_down k x)
  | ServerWritten io => srv_written io x
  | ServerShutdown start now period =>
      Some (set_server (ServerConnection.shutdown server_hooks start now period s).2 x)
  | ServerShutdownResume e now d =>
      Some (set_server (ServerConnection.shutdown_resume server_hooks e now d s).2 x)
  end.

Fixpoint dsteps (actions : list Action) (x : Duplex) : option Duplex :=
  match actions with
  | [] => Some x
  | a :: actions => x' ← dstep a x; dsteps actions x'
  end.

(** ** Invariant *)

Context `{!ChannelLaws Ch} `{!TransportLaws T} `{!MapBeginLaws} `{!MapTraversalLaws} `{!CodecLaws TypeIndex msg}.

Record duplex_inv (x : Duplex) : Prop := {
  di_client : conn_inv client_hooks (dx_client x);
  di_server : server_inv server_hooks (dx_server x);
  di_client_ok : client_ok (lk_decoded (dx_down x)) (dx_client x);
  di_server_ok : server_ok registry (lk_decoded (dx_up x)) (dx_answers x) (dx_server x);
  di_up : link_inv (up_frame registry (dx_requests x)) (dx_client_run x) (write_queue_ (dx_client x))
            (dx_up x) (ServerConnection.decoder_ (dx_server x));
  di_down : link_inv (down_frame registry (dx_answers x)) (dx_server_run x)
              (ServerConnection.write_queue_ (dx_server x)) (dx_down x) (decoder_ (dx_client x));
  di_starting : Forall (λ lf, up_frame registry (dx_requests x) lf.2 ∧
                              frame_fits (limits_ (write_queue_ (dx_client x))) lf.2) (dx_starting x);
  di_requests : streams_of (dx_client x) = rq_stream <$> dx_requests x;
  di_answers : Forall (λ a, called_with (msg := msg) registry (lk_decoded (dx_up x)) (an_task a)) (dx_answers x);
}.

Lemma up_wire_ok rs f : up_frame (msg := msg) registry rs f → wire_ok f.
Proof. by intros [? _]. Qed.

Lemma down_wire_ok A f : down_frame (msg := msg) registry A f → wire_ok f.
Proof. by intros [? _]. Qed.

#[local] Hint Resolve up_wire_ok down_wire_ok : rill.

(** The frames decoded at either end were emitted at the other. *)
Lemma up_decoded x f :
  duplex_inv x → f ∈ lk_decoded (dx_up x) → up_frame registry (dx_requests x) f.
Proof.
  intros Hx Hf. destruct (link_integrity _ _ _ _ _ (up_wire_ok _) (di_up _ Hx)) as [Hp _].
  eapply Forall_forall; [apply (li_line _ _ _ _ _ (di_up _ Hx))|]. by eapply elem_of_prefix.
Qed.

Lemma down_decoded x f :
  duplex_inv x → f ∈ lk_decoded (dx_down x) → down_frame registry (dx_answers x) f.
Proof.
  intros Hx Hf. destruct (link_integrity _ _ _ _ _ (down_wire_ok _) (di_down _ Hx)) as [Hp _].
  eapply Forall_forall; [apply (li_line _ _ _ _ _ (di_down _ Hx))|]. by eapply elem_of_prefix.
Qed.

Lemma up_decoded_wire x : duplex_inv x → Forall wire_ok (lk_decoded (dx_up x)).
Proof. intros Hx. apply Forall_forall. intros f Hf. by eapply up_wire_ok, up_decoded. Qed.

Lemma starting_limits rs (ss : list (nat * Frame)) (q q' : WriteQueue (Ch := Ch)) :
  limits_ q' = limits_ q →
  Forall (λ lf, up_frame registry rs lf.2 ∧ frame_fits (limits_ q) lf.2) ss →
  Forall (λ lf, up_frame (msg := msg) registry rs lf.2 ∧ frame_fits (limits_ q') lf.2) ss.
Proof. by intros ->. Qed.

(** ** Steps of one endpoint *)

Lemma client_advance x c :
  duplex_inv x → conn_inv client_hooks c →
  advances (msg := msg) registry (dx_requests x) (lk_decoded (dx_down x)) (dx_client x) c →
  duplex_inv (set_client c x).
Proof.
  intros [] Hc Ha. destruct (Ha di_client_ok0) as [Hok He Hs Hd].
  split; simpl; auto.
  - eapply link_inv_emits; [|exact He|done]. apply di_client_ok0.
  - by rewrite Hd.
  - eapply starting_limits; [apply He|done].
  - congruence.
Qed.

Lemma server_advance x c :
  duplex_inv x → server_inv server_hooks c →
  sadvances registry (lk_decoded (dx_up x)) (dx_answers x) (dx_server x) c →
  duplex_inv (set_server c x).
Proof.
  intros [] Hc Ha. destruct (Ha di_server_ok0) as [Hok He Hd].
  split; simpl; auto.
  - by rewrite Hd.
  - eapply link_inv_emits; [|exact He|done]. apply di_server_ok0.
Qed.

Lemma cli_start_inv ty v x : duplex_inv x → duplex_inv (cli_start ty v x).
Proof.
  intros [Hc Hs Hck Hsk Hup Hdn Hst Hrq Han]. unfold cli_start.
  pose proof (start_request_inv registry client_hooks ty v _ Hc) as Hc'.
  pose proof (start_request_traffic registry client_hooks (dx_requests x) _ ty v _ Hc Hck) as [Q1 Q2 Q3 Q4 Q5].
  destruct (start_request registry client_hooks ty v (dx_client x)) as [r c']. simpl in *.
  split; simpl; auto.
  - eapply link_inv_emits; [|exact Q2|]; [apply Hck|]. eapply link_inv_impl; [|exact Hup].
    intros f. apply up_frame_app.
  - by rewrite Q4.
  - apply Forall_app. split.
    + eapply Forall_impl; [exact Hst|]. intros [l f] [Hf Hfit]. split; [by apply up_frame_app|].
      by rewrite (em_limits _ _ _ Q2).
    + destruct r as [r|l f]; simpl; [done|]. apply Forall_singleton. by eapply Q5.
  - by rewrite Q3, Hrq, fmap_app.
Qed.

Lemma cli_start_resume_inv i what x x' : duplex_inv x → cli_start_resume i what x = Some x' → duplex_inv x'.
Proof.
  intros Hx. unfold cli_start_resume. destruct (dx_starting x !! i) as [[l f]|] eqn:Hi; [|done]. simpl.
  destruct (start_request_resume l f what (dx_client x)) as [[r c]|] eqn:Hr; [|done]. simpl. intros [= <-].
  destruct (Forall_lookup_1 _ _ _ _ (di_starting _ Hx) Hi) as [Hf Hfit]. simpl in *.
  destruct (start_resume_traffic registry (dx_requests x) _ _ _ _ _ _ _ (di_client_ok _ Hx) Hf Hfit Hr)
    as [Ha Hwait].
  pose proof (client_advance x c Hx (start_request_resume_inv _ _ _ _ _ _ _ (di_client _ Hx) Hfit Hr) (λ _, Ha))
    as [Hc Hs Hck Hsk Hup Hdn Hst Hrq Han].
  split; simpl in *; auto. apply Forall_app. split; [by apply Forall_delete|].
  destruct r as [r|l' f']; simpl; [done|]. destruct (Hwait _ _ eq_refl) as [-> ->].
  apply Forall_singleton. simpl. by rewrite (em_limits _ _ _ (av_emits _ _ _ _ _ Ha)).
Qed.

Lemma cli_run_inv x x' : duplex_inv x → cli_run x = Some x' → duplex_inv x'.
Proof.
  intros [Hc Hs Hck Hsk Hup Hdn Hst Hrq Han]. unfold cli_run.
  destruct (dx_client_run x); try done. pose proof (run_inv client_hooks _ Hc) as Hc'.
  destruct (run client_hooks (dx_client x)) as [[c pc] rpc] eqn:Hr. intros [= <-].
  destruct (run_traffic registry client_hooks _ _ _ _ _ _ _ _ Hc Hck Hr Hup) as (Q1 & Q2 & Q3 & Q4 & Q5).
  split; simpl; auto; [by rewrite Q4|by eapply starting_limits|congruence].
Qed.

Lemma srv_run_inv x x' : duplex_inv x → srv_run x = Some x' → duplex_inv x'.
Proof.
  intros [Hc Hs Hck Hsk Hup Hdn Hst Hrq Han]. unfold srv_run.
  destruct (dx_server_run x); try done. pose proof (server_run_inv server_hooks _ Hs) as Hs'.
  destruct (ServerConnection.run server_hooks (dx_server x)) as [[c pc] rpc] eqn:Hr. intros [= <-].
  destruct (server_run_traffic registry server_hooks _ _ _ _ _ _ _ _ Hsk Hr Hdn) as (Q1 & Q2 & Q3).
  split; simpl; auto. by rewrite Q3.
Qed.

(** ** Reading and writing *)

Lemma cli_read_inv io x x' : duplex_inv x → cli_read io x = Some x' → duplex_inv x'.
Proof.
  intros Hx. unfold cli_read. destruct (dx_client_read x); try done.
  destruct (decode_read _ _) as [[bytes d] fs] eqn:Hdec.
  destruct (link_read bytes fs (dx_down x)) as [down|] eqn:Hk; [|done]. simpl.
  destruct (read_loop_resume client_hooks io (dx_client x)) as [[rpc c']|] eqn:Hr; [|done]. simpl.
  intros [= <-]. destruct Hx as [Hc Hs Hck Hsk Hup Hdn Hst Hrq Han].
  destruct (link_inv_decode _ _ _ _ _ _ _ _ _ _ (down_wire_ok _) (ci_decoder _ _ Hc) Hdec Hk Hdn)
    as (Hdn' & Hd & Hdd).
  assert (client_ok (lk_decoded down) (dx_client x)) as Hck' by (rewrite Hdd; by apply client_ok_app).
  destruct (read_loop_resume_inv client_hooks io (dx_client x) Hc) as (pc1 & c1 & Heq & Hc').
  rewrite Hr in Heq. injection Heq as <- <-.
  assert (duplex_inv (set_down down (set_client (set_decoder d (dx_client x)) x))) as Hx1.
  { split; simpl; auto; [by apply inv_decoder|by destruct Hck']. }
  assert (Forall (λ f, f ∈ lk_decoded down) fs) as Hfs.
  { apply Forall_forall. intros f Hf. rewrite Hdd. apply elem_of_app. by right. }
  pose proof (read_resume_traffic registry client_hooks (dx_requests x) _ io _ _ _ _ _ _ Hc Hck' Hr Hdec Hfs) as Ha.
  pose proof (client_advance _ c' Hx1 Hc' (λ _, Ha)) as Hx2. by destruct Hx2.
Qed.

Lemma srv_read_inv io x x' : duplex_inv x → srv_read io x = Some x' → duplex_inv x'.
Proof.
  intros Hx. unfold srv_read. destruct (dx_server_read x); try done.
  destruct (decode_read _ _) as [[bytes d] fs] eqn:Hdec.
  destruct (link_read bytes fs (dx_up x)) as [up|] eqn:Hk; [|done]. simpl.
  destruct (ServerConnection.read_loop_resume server_hooks io (dx_server x)) as [[rpc c']|] eqn:Hr; [|done]. simpl.
  intros [= <-]. destruct Hx as [Hc Hs Hck Hsk Hup Hdn Hst Hrq Han].
  destruct (link_inv_decode _ _ _ _ _ _ _ _ _ _ (up_wire_ok _) (vi_decoder _ _ Hs) Hdec Hk Hup)
    as (Hup' & Hd & Hdd).
  pose proof (server_ok_app _ _ fs _ [] _ Hsk) as Hsk'. rewrite <-Hdd, app_nil_r in Hsk'.
  destruct (server_read_resume_inv server_hooks io (dx_server x) Hs) as (pc1 & c1 & Heq & Hs').
  rewrite Hr in Heq. injection Heq as <- <-.
  assert (duplex_inv (set_up up (set_server (ServerConnection.set_decoder d (dx_server x)) x))) as Hx1.
  { split; simpl; auto; [by apply sinv_decoder|by destruct Hsk'|]. eapply Forall_impl; [exact Han|].
    intros a [Hf Ha]. split; [|done]. rewrite Hdd. apply elem_of_app. by left. }
  assert (Forall (λ f, f ∈ lk_decoded up) fs) as Hfs.
  { apply Forall_forall. intros f Hf. rewrite Hdd. apply elem_of_app. by right. }
  pose proof (server_read_traffic registry server_hooks (lk_decoded up) (dx_answers x) (up_decoded_wire _ Hx1)
    io _ _ _ _ _ _ Hs Hr Hdec Hfs) as Ha.
  pose proof (server_advance _ c' Hx1 Hs' Ha) as Hx2. by destruct Hx2.
Qed.

Lemma cli_take_inv x x' : duplex_inv x → cli_take x = Some x' → duplex_inv x'.
Proof.
  intros [Hc Hs Hck Hsk Hup Hdn Hst Hrq Han]. unfold cli_take. destruct (dx_client_run x); try done.
  destruct (run_resume _ _) as [[[pc q] t]|] eqn:Hr; [|done]. simpl. intros [= <-].
  pose proof (cstep_inv registry client_hooks _ _ Hc (cstep_write _ _ _ _ _ _ (li_receives _ _ _ _ _ Hup) Hr)) as Hc'.
  destruct (run_resume_constant _ _ _ _ _ Hr) as [_ Hl].
  split; simpl; rewrite ?link_start_decoded; auto; [split; [apply Hc'|apply Hck]| |by eapply starting_limits].
  eapply link_inv_resume; [|exact Hr|exact Hup]. apply Hc.
Qed.

Lemma srv_take_inv x x' : duplex_inv x → srv_take x = Some x' → duplex_inv x'.
Proof.
  intros [Hc Hs Hck Hsk Hup Hdn Hst Hrq Han]. unfold srv_take. destruct (dx_server_run x); try done.
  destruct (run_resume _ _) as [[[pc q] t]|] eqn:Hr; [|done]. simpl. intros [= <-].
  pose proof (sstep_inv registry server_hooks _ _ Hs (sstep_write _ _ _ _ _ _ (li_receives _ _ _ _ _ Hdn) Hr)) as Hs'.
  split; simpl; rewrite ?link_start_decoded; auto; [split; [apply Hs'|apply Hsk]|].
  eapply link_inv_resume; [|exact Hr|exact Hdn]. apply Hs.
Qed.

Lemma cli_written_inv io x x' : duplex_inv x → cli_written io x = Some x' → duplex_inv x'.
Proof.
  intros [Hc Hs Hck Hsk Hup Hdn Hst Hrq Han]. unfold cli_written. destruct (dx_client_run x) as [| |f|]; try done.
  destruct (link_written _ _) as [up|] eqn:Hk; [|done]. simpl.
  destruct (run_written f io _ _) as [[[pc q] t] es] eqn:Hw. intros [= <-].
  pose proof (cstep_inv registry client_hooks _ _ Hc (cstep_written _ _ _ _ _ _ _ _ _ Hw)) as Hc'.
  destruct (run_written_constant _ _ _ _ _ _ _ _ Hw) as [_ Hl].
  assert (lk_decoded up = lk_decoded (dx_up x)) as Hd by (by eapply link_written_decoded).
  split; simpl; auto; [split; [apply Hc'|apply Hck]|by rewrite Hd| |by eapply starting_limits|by rewrite Hd].
  eapply link_inv_written; [|exact Hw|exact Hk|exact Hup]. apply Hc.
Qed.

Lemma srv_written_inv io x x' : duplex_inv x → srv_written io x = Some x' → duplex_inv x'.
Proof.
  intros [Hc Hs Hck Hsk Hup Hdn Hst Hrq Han]. unfold srv_written. destruct (dx_server_run x) as [| |f|]; try done.
  destruct (link_written _ _) as [down|] eqn:Hk; [|done]. simpl.
  destruct (run_written f io _ _) as [[[pc q] t] es] eqn:Hw. intros [= <-].
  pose proof (sstep_inv registry server_hooks _ _ Hs (sstep_written _ _ _ _ _ _ _ _ _ Hw)) as Hs'.
  assert (lk_decoded down = lk_decoded (dx_down x)) as Hd by (by eapply link_written_decoded).
  split; simpl; auto; [by rewrite Hd|split; [apply Hs'|apply Hsk]|].
  eapply link_inv_written; [|exact Hw|exact Hk|exact Hdn]. apply Hs.
Qed.

(** ** Handler coroutines *)

Lemma srv_returned_inv i a x x' : duplex_inv x → srv_returned i a x = Some x' → duplex_inv x'.
Proof.
  intros Hx. unfold srv_returned. case_decide as Hi; [|done]. destruct Hi as [Hi Hpc]. intros [= <-].
  destruct Hx as [Hc Hs Hck Hsk Hup Hdn Hst Hrq Han]. destruct a as [k v]. simpl in *.
  destruct (Forall_lookup_1 _ _ _ _ (sk_tasks _ _ _ _ Hsk) Hi) as [Hk Hcalled]. rewrite Hpc in Hcalled.
  assert (duplex_inv (mkDuplex (dx_client x) (dx_client_run x) (dx_client_read x) (dx_starting x) (dx_server x)
    (dx_server_run x) (dx_server_read x) (dx_up x) (dx_down x) (dx_requests x) (dx_answers x ++ [mkAnswer k v])))
    as Hx1.
  { split; simpl; auto.
    - pose proof (server_ok_app _ _ [] _ [mkAnswer k v] _ Hsk) as Hsk'. by rewrite app_nil_r in Hsk'.
    - eapply link_inv_impl; [|exact Hdn]. intros f. apply down_frame_app.
    - apply Forall_app. split; [done|]. by apply Forall_singleton. }
  pose proof (server_advance _ (handler_returned registry i k v (dx_server x)) Hx1) as Hadv. simpl in Hadv.
  apply Hadv; [by apply handler_returned_inv|]. apply sadv_handler_returned; [by eapply up_decoded_wire in Hx1|done|].
  apply elem_of_app. right. by apply list_elem_of_singleton.
Qed.

Lemma srv_task_start_inv i x x' : duplex_inv x → srv_task_start i x = Some x' → duplex_inv x'.
Proof.
  intros Hx. unfold srv_task_start. destruct (ServerConnection.tasks_ _ !! i) as [k|] eqn:Hi; [|done]. simpl.
  destruct (task_pc k) eqn:Hpc; try done. intros [= <-].
  destruct (Forall_lookup_1 _ _ _ _ (sk_tasks _ _ _ _ (di_server_ok _ Hx)) Hi) as [Hk _].
  apply server_advance; [done|exact (handler_start_inv _ _ _ _ _ Hi (di_server _ Hx))|].
  apply sadv_handler_start; [by apply up_decoded_wire|done].
Qed.

Lemma srv_threw_inv i x x' : duplex_inv x → srv_threw i x = Some x' → duplex_inv x'.
Proof.
  intros Hx. unfold srv_threw. destruct (ServerConnection.tasks_ _ !! i) as [k|] eqn:Hi; [|done]. simpl.
  destruct (task_pc k) eqn:Hpc; try done. intros [= <-].
  apply server_advance; [done|exact (handler_end_inv _ _ _ _ Hi (di_server _ Hx))|]. apply sadv_handler_end.
Qed.

Lemma srv_task_resume_inv i what x x' : duplex_inv x → srv_task_resume i what x = Some x' → duplex_inv x'.
Proof.
  intros Hx. unfold srv_task_resume. destruct (ServerConnection.tasks_ _ !! i) as [k|] eqn:Hi; [|done]. simpl.
  destruct (task_pc k) as [| |f] eqn:Hpc; try done.
  destruct (handler_resume i k f what (dx_server x)) as [c|] eqn:Hr; [|done]. simpl. intros [= <-].
  apply server_advance; [done|exact (handler_resume_inv _ _ _ _ _ _ _ Hi Hpc (di_server _ Hx) Hr)|].
  by eapply handler_resume_traffic; [apply (di_server _ Hx)|..].
Qed.

Lemma transfer_inv_up n k x : duplex_inv x → link_transfer n (dx_up x) = Some k → duplex_inv (set_up k x).
Proof.
  intros [] Hk. pose proof (link_transfer_decoded _ _ _ Hk) as Hd.
  split; simpl; rewrite ?Hd; auto. by eapply link_inv_transfer.
Qed.

Lemma transfer_inv_down n k x : duplex_inv x → link_transfer n (dx_down x) = Some k → duplex_inv (set_down k x).
Proof.
  intros [] Hk. pose proof (link_transfer_decoded _ _ _ Hk) as Hd.
  split; simpl; rewrite ?Hd; auto. by eapply link_inv_transfer.
Qed.

(** ** Every step keeps the invariant *)

Lemma dstep_inv a x x' : duplex_inv x → dstep a x = Some x' → duplex_inv x'.
Proof.
  intros Hx Hstep. pose proof (di_client _ Hx) as Hc. pose proof (di_server _ Hx) as Hs.
  assert (∀ c, cstep (msg := msg) registry client_hooks (dx_client x) c →
    advances (msg := msg) registry (dx_requests x) (lk_decoded (dx_down x)) (dx_client x) c →
    duplex_inv (set_client c x)) as Hcl
    by (intros c Hst; by apply client_advance; [|by eapply cstep_inv]).
  assert (∀ c, sstep (msg := msg) registry server_hooks (dx_server x) c →
    sadvances registry (lk_decoded (dx_up x)) (dx_answers x) (dx_server x) c →
    duplex_inv (set_server c x)) as Hsv
    by (intros c Hst; by apply server_advance; [|by eapply sstep_inv]).
  destruct a; simpl in Hstep; try (injection Hstep as <-).
  - by eapply cli_run_inv.
  - by apply cli_start_inv.
  - by eapply cli_start_resume_inv.
  - apply Hcl; [constructor|apply adv_deadline].
  - destruct (timer_handler _ _ _) as [c|] eqn:E; [|done]. injection Hstep as <-.
    apply Hcl; [by eapply cstep_timer|by eapply adv_timer].
  - apply Hcl; [constructor|apply adv_handle_cancel].
  - apply Hcl; [constructor|apply adv_async_wait].
  - destruct (async_wait_resume _ _ _ _) as [[r c]|] eqn:E; [|done]. injection Hstep as <-.
    apply Hcl; [by eapply cstep_wait_resume|]. intros Hok. by eapply wait_resume_traffic.
  - apply Hcl; [constructor|apply adv_handle_destroy].
  - apply (Hcl (handle_assign h other (dx_client x)).2); [constructor|apply adv_handle_assign].
  - by eapply cli_read_inv.
  - by eapply cli_take_inv.
  - destruct (link_transfer _ _) as [k|] eqn:E; [|done]. injection Hstep as <-. by eapply transfer_inv_up.
  - by eapply cli_written_inv.
  - apply Hcl; [constructor|apply adv_shutdown].
  - apply Hcl; [constructor|apply adv_shutdown_resume].
  - by eapply srv_run_inv.
  - apply Hsv; [constructor|apply sadv_handle].
  - by eapply srv_task_start_inv.
  - by eapply srv_returned_inv.
  - by eapply srv_threw_inv.
  - by eapply srv_task_resume_inv.
  - by eapply srv_read_inv.
  - by eapply srv_take_inv.
  - destruct (link_transfer _ _) as [k|] eqn:E; [|done]. injection Hstep as <-. by eapply transfer_inv_down.
  - by eapply srv_written_inv.
  - apply Hsv; [constructor|apply sadv_shutdown].
  - apply Hsv; [constructor|apply sadv_shutdown_resume].
Qed.

Lemma new_duplex_inv ct st climits slimits maximum :
  limits_wf climits → limits_wf slimits → in_u 64 maximum →
  duplex_inv (new_duplex ct st climits slimits maximum).
Proof.
  intros Hc Hs Hm. pose proof (new_client_inv (Tm := Tm) (Ch := Ch) client_hooks ct climits maximum Hc Hm) as Hci.
  pose proof (new_server_inv (Ch := Ch) (TypeIndex := TypeIndex) server_hooks st slimits Hs) as Hsi.
  split; simpl; try done; [split; [apply Hci|done]|split; [apply Hsi|done]|by apply new_link_inv..].
Qed.

Lemma dsteps_inv actions x x' : duplex_inv x → dsteps actions x = Some x' → duplex_inv x'.
Proof.
  revert x. induction actions as [|a actions IH]; intros x Hx; simpl; [by intros [= <-]|].
  destruct (dstep a x) as [x1|] eqn:E; [|done]. simpl. apply IH. by eapply dstep_inv.
Qed.

(** ** What a value on one side says about the other *)

(** A frame from the server that decodes at some type carries a value that a handler with
    this response type returned. *)
Lemma down_value A f ty v :
  registry_inv registry → down_frame registry A f → plain_response f →
  dec_value (decode_message (msg := msg) registry ty f) = Some v →
  ∃ a, a ∈ A ∧ task_stream (an_task a) = stream (header f) ∧
    existT (rh_response (task_handler (an_task a))) (an_value a) = existT ty v.
Proof.
  intros Hreg [_ [(s & status & ->)|(a & Ha & Hf)]] (_ & _ & Herr) Hv.
  { by vm_compute in Herr. }
  exists a. split; [done|]. unfold answer_frame, response_frame in Hf.
  destruct (encode_message_factory registry (rh_response (task_handler (an_task a))) (an_value a)
    (task_stream (an_task a)) FrameType.response) as [[f0 Hf0]|(st & m & _ & Hf0)]; rewrite Hf0 in Hf; [|done].
  injection Hf as <-. destruct (decode_message_encode _ _ _ _ _ _ _ _ _ Hreg Hf0) as [Hd Hd'].
  assert (∀ ty', decode_message (msg := msg) registry ty' (end_stream f0) = decode_message registry ty' f0) as Hend
    by done. rewrite Hend in Hv.
  split; [simpl; by destruct (encode_message_success _ _ _ _ _ _ _ _ _ Hf0) as (_ & _ & _ & _ & _ & _ & ->)|].
  destruct (decide (ty = rh_response (task_handler (an_task a)))) as [->|Hne].
  - rewrite Hd in Hv. by injection Hv as ->.
  - by rewrite Hd' in Hv.
Qed.

(** A frame from the client that decodes at some type carries a value that was passed to
    [start_request]. *)
Lemma up_value rs f ty :
  registry_inv registry → up_frame registry rs f →
  decode_ok (decode_message (msg := msg) registry ty f) = true →
  ∃ r, r ∈ rs ∧ rq_stream r = stream (header f) ∧
    ∃ v, decode_message registry ty f = decode_success v ∧ existT (rq_type r) (rq_value r) = existT ty v.
Proof.
  intros Hreg [_ [Heq|(r & Hr & Hf)]] Hok; [by rewrite Heq in Hok|].
  exists r. split; [done|]. unfold request_frame, encode_message_default in Hf.
  destruct (decode_message_encode _ _ _ _ _ _ _ _ _ Hreg Hf) as [Hd Hd'].
  split; [by destruct (encode_message_success _ _ _ _ _ _ _ _ _ Hf) as (_ & _ & _ & _ & _ & _ & ->)|].
  destruct (decide (ty = rq_type r)) as [->|Hne]; [by exists (rq_value r)|].
  rewrite Hd' in Hok by done. done.
Qed.

(** ** Properties *)

Section reached.
Context (ct st : T) (climits slimits : WriteQueueLimits) (maximum : Z).

Lemma dreached_inv actions x :
  limits_wf climits → limits_wf slimits → in_u 64 maximum →
  dsteps actions (new_duplex ct st climits slimits maximum) = Some x → duplex_inv x.
Proof. intros ? ? ?. apply dsteps_inv. by apply new_duplex_inv. Qed.

(** C4: nothing is lost, made up or reordered between two endpoints: whatever either of
    them does, however the bytes are cut on the way, the frames that one end decodes are the
    first of those the other end wrote, and neither decoder ever reports a malformed frame;
    each frame the server decodes is a cancellation or the encoding of a request that was
    started, each frame the client decodes is an error frame or the encoding of a value that
    a handler returned. *)
Theorem duplex_wire_integrity actions x :
  limits_wf climits → limits_wf slimits → in_u 64 maximum →
  dsteps actions (new_duplex ct st climits slimits maximum) = Some x →
  (lk_decoded (dx_up x) `prefix_of` lk_line (dx_up x) ∧
     decoder_error (ServerConnection.decoder_ (dx_server x)) = None ∧
     Forall (up_frame registry (dx_requests x)) (lk_decoded (dx_up x))) ∧
  (lk_decoded (dx_down x) `prefix_of` lk_line (dx_down x) ∧
     decoder_error (decoder_ (dx_client x)) = None ∧
     Forall (down_frame registry (dx_answers x)) (lk_decoded (dx_down x))).
Proof.
  intros Hc Hs Hm Hr. pose proof (dreached_inv _ _ Hc Hs Hm Hr) as Hx.
  destruct (link_integrity _ _ _ _ _ (up_wire_ok _) (di_up _ Hx)) as [Hu Hue].
  destruct (link_integrity _ _ _ _ _ (down_wire_ok _) (di_down _ Hx)) as [Hd Hde].
  split_and!; try done; apply Forall_forall; intros f Hf; [by apply up_decoded|by apply down_decoded].
Qed.

(** C3: a typed call is type-safe end to end: if [async_wait] at type [ty] returns the value
    [v] for the request at [l], then on the request's stream some handler whose response type
    is [ty] returned exactly [v], and it had been called with exactly the value, at its
    request type, that the client passed to [start_request] for a request on that stream -
    for this very request, if the stream was used only once. *)
Theorem call_type_safe actions x ty l r c v :
  limits_wf climits → limits_wf slimits → in_u 64 maximum → registry_inv registry →
  dsteps actions (new_duplex ct st climits slimits maximum) = Some x →
  async_wait_resume (msg := msg) registry ty l (dx_client x) = Some (r, c) → dec_value r = Some v →
  ∃ a l' rq u, a ∈ dx_answers x ∧ dx_requests x !! l' = Some rq ∧
    (rq_stream <$> dx_requests x) !! l = Some (rq_stream rq) ∧ task_stream (an_task a) = rq_stream rq ∧
    existT (rh_response (task_handler (an_task a))) (an_value a) = existT ty v ∧
    decode_message registry (rh_request (task_handler (an_task a))) (task_frame (an_task a)) = decode_success u ∧
    existT (rq_type rq) (rq_value rq) = existT (rh_request (task_handler (an_task a))) u ∧
    ((∀ j, (rq_stream <$> dx_requests x) !! j = Some (rq_stream rq) → j = l) → l' = l).
Proof.
  intros Hc Hs Hm Hreg Hr Hw Hv. pose proof (dreached_inv _ _ Hc Hs Hm Hr) as Hx.
  destruct (wait_resume_traffic registry (dx_requests x) _ _ _ _ _ _ (di_client_ok _ Hx) Hw) as [_ Hval].
  destruct (Hval v Hv) as (f & Hf & Hpl & Hl & ->). rewrite (di_requests _ Hx) in Hl.
  destruct (down_value _ _ _ _ Hreg (down_decoded _ _ Hx Hf) Hpl Hv) as (a & Ha & Hst & Hav).
  destruct (proj1 (Forall_forall _ _) (di_answers _ Hx) a Ha) as [Hk Hok].
  destruct (up_value _ _ _ Hreg (up_decoded _ _ Hx Hk) Hok) as (rq & Hrq & Hs' & u & Hu & Huv).
  apply list_elem_of_lookup in Hrq as [l' Hl'].
  assert (task_stream (an_task a) = rq_stream rq) as Hsame by (unfold task_stream in *; congruence).
  assert (stream (header f) = rq_stream rq) as Hfs by congruence. rewrite Hfs in Hl.
  exists a, l', rq, u. split_and!; auto. intros Hone. apply Hone.
  by rewrite list_lookup_fmap, Hl'.
Qed.

End reached.

End duplex.

(** ** Witnesses and runs *)

Section sample.
#[local] Existing Instance demo_codec.
#[local] Instance demo_duplex_codec_laws : CodecLaws nat (pod_value (λ t, t)) := PodCodec_laws _ _.

Local Abbreviation demo_msg := (pod_value (λ t : nat, t)).
Local Abbreviation System :=
  (Duplex (Ch := ListChannel) (Tm := ViewTimer) (T := TcpTransport) (msg := demo_msg)).
Local Abbreviation Act := (Action (msg := demo_msg)).

Definition demo_system : System :=
  new_duplex listening_hooks listening_hooks new_tcp_transport new_tcp_transport sample_limits sample_limits 9.

Definition demo_steps (actions : list Act) : option System :=
  dsteps demo_registry listening_hooks listening_hooks actions demo_system.

(** Both connections run, the server answers messages of type 2 with messages of type 2. *)
Definition opening : list Act := [ServerHandle 2%nat 2%nat; ServerRun; ClientRun].

(** The frame [f] is written and arrives. *)
Definition sent_up (f : Frame) : list Act :=
  [ClientTake; ClientTransfer (length (encode_frame f)); ClientWritten IoWritten;
   ServerRead (IoRead (encode_frame f))].

Definition written_down (f : Frame) : list Act :=
  [ServerTake; ServerTransfer (length (encode_frame f)); ServerWritten IoWritten].

(** The values of two requests and of their answers. *)
Definition question_a : demo_msg 2%nat := demo_message.
Definition question_b : demo_msg 2%nat := exist _ [x0b; x0b] eq_refl.
Definition answer_a : demo_msg 2%nat := exist _ [xaa; xaa] eq_refl.

(** The server calls the handler for the first request on stream 1, which answers. *)
Definition answered (v : demo_msg 2%nat) : list Act :=
  [ServerTaskStart 0; ServerReturned 0 (mkAnswer server_called_task v)].

Definition answer_frame_a : Frame :=
  mkFrame (header server_response) [x00; x00; x00; x64; xaa; xaa].

(** A call that completes. *)
Definition plain_call : list Act :=
  opening ++ [ClientStart 2%nat question_a; ClientWait 2%nat (handle_of 0)] ++ sent_up demo_frame
  ++ answered answer_a ++ written_down answer_frame_a ++ [ClientRead (IoRead (encode_frame answer_frame_a))].

(** The request that times out before its answer is read: its caller waits, gets the timeout,
    and starts another request. *)
Definition late_answer : list Act :=
  opening ++ [ClientStart 2%nat question_a; ClientDeadline 50 (start_success 0); ClientWait 2%nat (handle_of 0)]
  ++ sent_up demo_frame ++ answered answer_a ++ written_down answer_frame_a
  ++ [ClientTimer 0 false; ClientWaitResume 2%nat 0; ClientTake; ClientDestroy (handle_of 0);
      ClientStart 2%nat question_b; ClientWait 2%nat (handle_of 1);
      ClientRead (IoRead (encode_frame answer_frame_a))].

(** The system after a run that is known to succeed. *)
Definition after (actions : list Act) : System := default demo_system (demo_steps actions).

Lemma plain_call_runs : demo_steps plain_call = Some (after plain_call).
Proof. vm_compute. reflexivity. Qed.

Lemma duplex_wire_integrity_witness :
  lk_decoded (dx_down (after plain_call)) = [answer_frame_a] ∧
  lk_decoded (dx_down (after plain_call)) `prefix_of` lk_line (dx_down (after plain_call)).
Proof.
  split; [vm_compute; reflexivity|].
  apply (duplex_wire_integrity demo_registry listening_hooks listening_hooks new_tcp_transport
    new_tcp_transport sample_limits sample_limits 9 plain_call (after plain_call)
    sample_limits_wf sample_limits_wf client_range plain_call_runs).
Defined.

Lemma call_type_safe_witness :
  ∃ a l', a ∈ dx_answers (after plain_call) ∧
    existT (rh_response (task_handler (an_task a))) (an_value a) = existT 2%nat answer_a ∧
    (rq_stream <$> dx_requests (after plain_call)) !! l' = Some (task_stream (an_task a)).
Proof.
  destruct (async_wait_resume (msg := demo_msg) demo_registry 2%nat 0 (dx_client (after plain_call)))
    as [[r c]|] eqn:Hw; [|by vm_compute in Hw].
  destruct (call_type_safe demo_registry listening_hooks listening_hooks new_tcp_transport
    new_tcp_transport sample_limits sample_limits 9 plain_call (after plain_call) 2%nat 0 r c answer_a
    sample_limits_wf sample_limits_wf client_range demo_registry_inv plain_call_runs Hw)
    as (a & l' & rq & u & Ha & Hl' & _ & Hs & Hv & _).
  - apply (f_equal (λ o, dec_value <$> (fst <$> o))) in Hw.
    enough (Some (dec_value r) = Some (Some answer_a)) by congruence.
    change (Some (dec_value r)) with (dec_value <$> (fst <$> Some (r, c))). rewrite <-Hw.
    vm_compute. reflexivity.
  - exists a, l'. split; [done|]. split; [done|]. by rewrite list_lookup_fmap, Hl', Hs.
Defined.

(** A run in which the answer to a request that timed out is delivered to the next one: the
    identifier of the request's stream is released as soon as its caller has the timeout,
    the next request takes it, and the answer that is still on its way is accepted as the
    answer to a request that the server has not even received. *)
Example late_answer_run :
  ∃ x, demo_steps late_answer = Some x ∧
    dx_requests x = [mkRequest (mkId 1) 2%nat question_a; mkRequest (mkId 1) 2%nat question_b] ∧
    lk_decoded (dx_up x) = [demo_frame] ∧
    decode_message demo_registry 2%nat demo_frame = decode_success question_a ∧
    dx_answers x = [mkAnswer server_called_task answer_a] ∧
    fst <$> async_wait_resume (msg := demo_msg) demo_registry 2%nat 1 (dx_client x)
      = Some (decode_success answer_a).
Proof.
  exists (after late_answer). split_and!; vm_compute; reflexivity.
Qed.

End sample.
