(* ===== verification/DrainLoss.v ===== *)
(** * What a shutdown of the server loses

    The composed system once the server's connection has been shut down: frames that wait in
    the server's write queue never leave it.  [ServerConnection::shutdown] waits for the
    handlers, and a handler has ended when its response is in the queue. *)

From S2P Require Import Prelude Identifiers Status Frame FrameCodec FrameDecoder ProtocolViolation.
From S2P Require Import Lifecycle Diagnostics Operation StreamIdAllocator Codec MessageRegistry MessageCodec.
From S2P Require Import Transport Channel Timer WriteQueue Link.
From S2P Require Import ServerConnection ServerShutdown.
From S2P Require Import ClientConnection.
From S2P Require Import ServerTraffic.
From S2P Require Import ClientTraffic.
From S2P Require Import Duplex.

Local Open Scope Z_scope.

#[local] Arguments encode_frame : simpl never.

Section drain_loss.
Context {Ch : Type → Type} `{!Channel Ch} `{!ChannelLaws Ch} {T : Type} `{!Transport T} `{!TransportLaws T}.
Context {Tm : Type} `{!SteadyTimer Tm} `{!MapBegin} `{!MapBeginLaws}.
Context `{!ServerConnection.MapTraversal} `{!MapTraversalLaws}.
Context {TypeIndex : Type} `{Countable TypeIndex} {msg : TypeIndex → Type} `{C : !Codec TypeIndex msg}.
Context `{!CodecLaws TypeIndex msg}.
Context (registry : MessageRegistry (TypeIndex := TypeIndex)) (client_hooks server_hooks : DiagnosticsHooks).

Local Abbreviation System := (Duplex (Ch := Ch) (Tm := Tm) (T := T) (msg := msg)).
Local Abbreviation inv := (duplex_inv registry client_hooks server_hooks).
Local Abbreviation step := (dstep registry client_hooks server_hooks).
Local Abbreviation steps := (dsteps registry client_hooks server_hooks).

(** The ways in which a step can have succeeded. *)
Local Ltac step_cases := repeat first [progress simplify_option_eq | case_match].

(** The actions of the client's side, and the bytes on their way to the client. *)
Definition leaves_server (a : Action (msg := msg)) : bool :=
  match a with
  | ServerRun | ServerHandle _ _ | ServerTaskStart _ | ServerReturned _ _ | ServerThrew _ | ServerTaskResume _ _
  | ServerRead _ | ServerTake | ServerWritten _ | ServerShutdown _ _ _ | ServerShutdownResume _ _ _ => false
  | _ => true
  end.

Lemma leaves_server_alone a (x x' : System) :
  leaves_server a = true → step a x = Some x' → dx_server x' = dx_server x.
Proof.
  intros Ha Hs. destruct a; try done; simpl in Hs;
    unfold cli_run, cli_start, cli_start_resume, cli_read, cli_take, cli_written in Hs;
    step_cases; done.
Qed.

(** The other actions are steps of the server's connection. *)
Lemma server_moves a (x x' : System) :
  inv x → leaves_server a = false → step a x = Some x' →
  sstep (msg := msg) registry server_hooks (dx_server x) (dx_server x').
Proof.
  intros Hx Ha Hs.
  destruct a as [| | | | | | | | | | | | | | | | |rq rs|i|i [k v]|i|i what|io| |n|io| |]; try done; simpl in Hs;
    try (injection Hs as <-; by constructor).
  - revert Hs. unfold srv_run. destruct (dx_server_run x); try done.
    pose proof (sstep_run (msg := msg) registry server_hooks (dx_server x)) as Hf.
    destruct (ServerConnection.run _ _) as [[c pc] rpc]. by intros [= <-].
  - revert Hs. unfold srv_task_start. destruct (ServerConnection.tasks_ _ !! i) as [k|] eqn:Hi; [|done]. simpl.
    destruct (task_pc k) eqn:Hpc; try done. intros [= <-]. by constructor.
  - revert Hs. unfold srv_returned. case_decide as Hi; [|done]. destruct Hi as [Hi Hpc]. intros [= <-].
    by constructor.
  - revert Hs. unfold srv_threw. destruct (ServerConnection.tasks_ _ !! i) as [k|] eqn:Hi; [|done]. simpl.
    destruct (task_pc k) eqn:Hpc; try done. intros [= <-]. by constructor.
  - revert Hs. unfold srv_task_resume. destruct (ServerConnection.tasks_ _ !! i) as [k|] eqn:Hi; [|done]. simpl.
    destruct (task_pc k) as [| |f] eqn:Hpc; try done.
    destruct (handler_resume _ _ _ _ _) eqn:Hr; [|done]. intros [= <-]. by eapply sstep_handler_resume.
  - revert Hs. unfold srv_read. destruct (dx_server_read x); try done. destruct (decode_read _ _) as [[bytes d] fs].
    destruct (link_read _ _ _); [|done]. simpl.
    destruct (ServerConnection.read_loop_resume _ _ _) as [[rpc c]|] eqn:Hr; [|done].
    intros [= <-]. by eapply sstep_read.
  - revert Hs. unfold srv_take. pose proof (li_receives _ _ _ _ _ (di_down _ _ _ _ Hx)) as Hrec.
    destruct (dx_server_run x); try done.
    destruct (run_resume _ _) as [[[pc q] t]|] eqn:Hr; [|done]. intros [= <-]. by eapply sstep_write.
  - revert Hs. unfold srv_written. destruct (dx_server_run x) as [| |f|]; try done. destruct (link_written _ _); [|done].
    simpl. destruct (run_written _ _ _ _) as [[[pc q] t] es] eqn:Hw. intros [= <-]. by eapply sstep_written.
Qed.

(** Whatever happens in the system, the server's connection only fades. *)
Lemma dstep_fades a (x x' : System) : inv x → step a x = Some x' → fades (dx_server x) (dx_server x').
Proof.
  intros Hx Hs. destruct (leaves_server a) eqn:Ha.
  - by rewrite (leaves_server_alone a x x').
  - eapply sstep_fades. by eapply server_moves.
Qed.

(** ** The bytes to the client *)

(** The frames on the wire, one that is being written included, are the same; without such a
    one the bytes are, too. *)
Record same_line (x x' : System) : Prop := {
  sl_line : lk_line (dx_down x') = lk_line (dx_down x);
  sl_wire : lk_current (dx_down x) = None →
    lk_current (dx_down x') = None ∧ lk_wire (dx_down x') = lk_wire (dx_down x);
}.

#[local] Instance same_line_preorder : PreOrder same_line.
Proof.
  split; [by split|]. intros x y z [Hl Hw] [Hl' Hw']. split; [congruence|].
  intros [Hc Hx]%Hw. destruct (Hw' Hc) as [? ?]. split; congruence.
Qed.

(** The write loop of a connection that has been shut down begins no write; a write that was
    under way may go on and complete. *)
Lemma retired_line a (x x' : System) : retired (dx_server x) → step a x = Some x' → same_line x x'.
Proof.
  intros [Ht _ _] Hs.
  destruct a as [| | | | | | | | | |io| | | | | | | | | | | | | |n|io| |]; simpl in Hs;
    try (injection Hs as <-; by split);
    try (unfold cli_run, cli_start, cli_start_resume, cli_take, cli_written, srv_run, srv_task_start, srv_returned,
           srv_threw, srv_task_resume, srv_read in Hs;
         step_cases; by split).
  - revert Hs. unfold cli_read. destruct (dx_client_read x); try done. destruct (decode_read _ _) as [[bytes d] fs].
    unfold link_read. case_decide; [|done]. simpl. destruct (read_loop_resume _ _ _) as [[rpc c]|]; [|done].
    intros [= <-]. by split.
  - revert Hs. unfold srv_take. destruct (dx_server_run x); try done. unfold run_resume.
    destruct (t_write_begin_closed _ Ht) as [what Hw]. rewrite Hw.
    destruct (ch_resume _) as [[[f|] ch]|]; simpl; [| |done]; intros [= <-]; by split.
  - revert Hs. unfold link_transfer. destruct (lk_current (dx_down x)) as [f|] eqn:Hc; [|done].
    case_decide; [|done]. intros [= <-]. split; simpl; [by unfold lk_line; simpl; rewrite Hc|congruence].
  - revert Hs. unfold srv_written. destruct (dx_server_run x) as [| |f|]; try done. unfold link_written.
    destruct (t_write_end io _) as [[|what] t]; simpl.
    + destruct (lk_current (dx_down x)) as [g|] eqn:Hc; [|done]. case_decide; [|done]. simpl.
      destruct (run_written _ _ _ _) as [[[pc q] t'] es]. intros [= <-]. split; simpl; [|congruence].
      unfold lk_line. simpl. by rewrite Hc, app_nil_r.
    + destruct (run_written _ _ _ _) as [[[pc q] t'] es]. intros [= <-]. by split.
Qed.

Lemma retired_steps actions (x x' : System) :
  inv x → retired (dx_server x) → steps actions x = Some x' → same_line x x'.
Proof.
  revert x. induction actions as [|a actions IH]; intros x Hx Hm; simpl; [by intros [= <-]|].
  destruct (step a x) as [x1|] eqn:Hs; [|done]. simpl. intros Hrest.
  transitivity x1; [by eapply retired_line|]. apply IH; [by eapply dstep_inv| |done].
  by eapply fades_retired; [eapply dstep_fades|].
Qed.

(** C19: shutting a server connection down loses the responses of handlers that had finished:
    when the last handler has ended, the shutdown closes the transport without waiting for
    the write queue.  Whatever happens later, the bytes on the wire and the frames that the
    client decodes stay among those of the frames that were on the wire at that moment, the
    one whose write was under way, if any, included; when no write was under way, not one
    more byte is put on the wire.  The frames in the queue, which the shutdown leaves there,
    never reach the client. *)
Theorem shutdown_discards_queue ct st climits slimits maximum before actions (x x1 x' : System) error now deadline :
  limits_wf climits → limits_wf slimits → in_u 64 maximum →
  steps before (new_duplex client_hooks server_hooks ct st climits slimits maximum) = Some x →
  refusing (dx_server x) → ServerConnection.tasks_ (dx_server x) = [] →
  step (ServerShutdownResume error now deadline) x = Some x1 → steps actions x1 = Some x' →
  pending (ServerConnection.write_queue_ (dx_server x1)) = pending (ServerConnection.write_queue_ (dx_server x)) ∧
  lk_line (dx_down x') = lk_line (dx_down x) ∧
  (lk_wire (dx_down x') `prefix_of` concat (encode_frame <$> lk_line (dx_down x))) ∧
  (lk_decoded (dx_down x') `prefix_of` lk_line (dx_down x)) ∧
  (lk_current (dx_down x) = None → lk_wire (dx_down x') = lk_wire (dx_down x)).
Proof.
  intros Hc Hs Hm Hb Href Hk Hstep Hact.
  pose proof (dreached_inv _ _ _ _ _ _ _ _ _ _ Hc Hs Hm Hb) as Hx.
  pose proof (dstep_inv _ _ _ _ _ _ Hx Hstep) as Hx1. simpl in Hstep. injection Hstep as <-.
  destruct (idle_shutdown_finishes server_hooks error now deadline (dx_server x) (di_server _ _ _ _ Hx) Href Hk)
    as [Hret Hq].
  match goal with H : steps actions ?y = _ |- _ => destruct (retired_steps actions y x' Hx1 ltac:(done) H) as [Hl Hw] end.
  pose proof (dsteps_inv _ _ _ _ _ _ Hx1 Hact) as Hx'. simpl in *. rewrite <-Hl.
  destruct (link_integrity _ _ _ _ _ (down_wire_ok registry _) (di_down _ _ _ _ Hx')) as [Hpre _].
  split_and!; [by rewrite Hq|done|exact (link_wire_prefix _ _ _ _ _ (di_down _ _ _ _ Hx'))|done|]. intros Hcur. by apply Hw.
Qed.

End drain_loss.

(** ** A run *)

Section sample.
#[local] Existing Instance demo_codec.
#[local] Instance demo_drain_codec_laws : CodecLaws nat (pod_value (λ t, t)) := PodCodec_laws _ _.

Local Abbreviation demo_msg := (pod_value (λ t : nat, t)).
Local Abbreviation Act := (Action (msg := demo_msg)).

(** The server is shut down with a period of 1000 while a handler runs; the handler answers,
    and its response is accepted by the write queue. *)
Definition drained_call : list Act :=
  opening ++ [ClientStart 2%nat question_a; ClientWait 2%nat (handle_of 0)] ++ sent_up demo_frame
  ++ [ServerTaskStart 0; ServerShutdown 0 0 1000; ServerReturned 0 (mkAnswer server_called_task answer_a)].

(** The timer of the shutdown completes before the write loop runs; then the write loop takes
    the response. *)
Definition drained_finish : Act := ServerShutdownResume false 1 1000.

Lemma drained_call_runs : demo_steps drained_call = Some (after drained_call).
Proof. vm_compute. reflexivity. Qed.

(** The shutdown ends at time 1 of 1000; the response, which the queue had accepted, is taken
    out of it and never written. *)
Lemma shutdown_discards_queue_witness :
  pending (ServerConnection.write_queue_ (dx_server (after drained_call))) = [answer_frame_a] ∧
  demo_steps (drained_call ++ [drained_finish; ServerTake])
    = Some (after (drained_call ++ [drained_finish; ServerTake])) ∧
  pending (ServerConnection.write_queue_ (dx_server (after (drained_call ++ [drained_finish; ServerTake])))) = [] ∧
  lk_decoded (dx_down (after (drained_call ++ [drained_finish; ServerTake]))) = [].
Proof.
  split; [vm_compute; reflexivity|]. split; [vm_compute; reflexivity|]. split; [vm_compute; reflexivity|].
  destruct (shutdown_discards_queue demo_registry listening_hooks listening_hooks new_tcp_transport new_tcp_transport
    sample_limits sample_limits 9 drained_call [ServerTake] (after drained_call) (after (drained_call ++ [drained_finish]))
    (after (drained_call ++ [drained_finish; ServerTake])) false 1 1000
    sample_limits_wf sample_limits_wf client_range drained_call_runs) as (_ & _ & _ & Hpre & _).
  - left. vm_compute. reflexivity.
  - vm_compute. reflexivity.
  - vm_compute. reflexivity.
  - vm_compute. reflexivity.
  - assert (lk_line (dx_down (after drained_call)) = []) as Hd by (vm_compute; reflexivity).
    rewrite Hd in Hpre. by apply prefix_nil_inv in Hpre.
Defined.

End sample.
