(* ===== verification/DuplexQueue.v ===== *)
(** * The server's write queue stays open while it is needed

    In the composed system: the counter of active handlers never wraps around, and the queue
    is closed only when the read loop has ended and no handler runs, or when the writer has
    failed.  So a handler's response is never refused because the queue was closed early. *)

From S2P Require Import Prelude Identifiers Status Frame FrameCodec FrameDecoder ProtocolViolation.
From S2P Require Import Lifecycle Diagnostics Operation StreamIdAllocator Codec MessageRegistry MessageCodec.
From S2P Require Import Transport Channel Timer WriteQueue Link.
From S2P Require Import ClientConnection.
From S2P Require Import ServerConnection.
From S2P Require Import ServerFaults.
From S2P Require Import ClientTraffic.
From S2P Require Import ServerTraffic.
From S2P Require Import Duplex.

Local Open Scope Z_scope.

#[local] Arguments encode_frame : simpl never.

(** ** At most as many streams as identifiers *)

Lemma valid_streams_few (l : list StreamId) :
  NoDup l → Forall valid_stream l → Z.of_nat (length l) < 2 ^ 64.
Proof.
  intros Hnd Hv. assert (value <$> l ⊆+ seqZ 1 (2 ^ 64 - 1)) as Hsub.
  { apply NoDup_submseteq.
    - apply NoDup_fmap_2_strong; [|done]. intros [x] [y] _ _. simpl. by intros ->.
    - intros x (s & -> & Hs)%list_elem_of_fmap. apply elem_of_seqZ.
      destruct (proj1 (Forall_forall _ _) Hv s Hs) as [Hne Hw]. unfold stream_wf, in_u in Hw. lia. }
  apply submseteq_length in Hsub. rewrite length_fmap, length_seqZ in Hsub. lia.
Qed.

Section queue.
Context {Ch : Type → Type} `{!Channel Ch} `{!ChannelLaws Ch} {T : Type} `{!Transport T} `{!TransportLaws T}.
Context {Tm : Type} `{!SteadyTimer Tm}.
Context `{!MapBegin} `{!MapBeginLaws} `{!MapTraversal} `{!MapTraversalLaws}.
Context {TypeIndex : Type} `{Countable TypeIndex} {msg : TypeIndex → Type} `{C : !Codec TypeIndex msg}.
Context `{!CodecLaws TypeIndex msg}.
Context (registry : MessageRegistry (TypeIndex := TypeIndex)) (client_hooks server_hooks : DiagnosticsHooks).

Implicit Types c : ServerConnection (Ch := Ch) (T := T) (TypeIndex := TypeIndex).

Local Abbreviation System := (Duplex (Ch := Ch) (Tm := Tm) (T := T) (msg := msg)).
Local Abbreviation inv := (duplex_inv registry client_hooks server_hooks).

(** ** Steps of the server *)

(** The reading side is done and no handler runs. *)
Definition idle c : Prop := reading_ c = false ∧ tasks_ c = [].

(** A step that closes the queue, if at all, only when it is not needed any more. *)
Record careful c c' : Prop := {
  cf_idle : idle c → idle c';
  cf_closed : closed_ (write_queue_ c') = true → closed_ (write_queue_ c) = true ∨ idle c';
  cf_reading : reading_ c' = reading_ c;
}.

#[export] Instance careful_preorder : PreOrder careful.
Proof.
  split; [by split; auto|]. intros c1 c2 c3 [Hi1 Hc1 Hr1] [Hi2 Hc2 Hr2]. split; [auto| |congruence].
  intros Hc. destruct (Hc2 Hc) as [Hc'|]; [|auto]. destruct (Hc1 Hc'); auto.
Qed.

Lemma careful_same c c' :
  closed_ (write_queue_ c') = closed_ (write_queue_ c) → tasks_ c' = tasks_ c → reading_ c' = reading_ c →
  careful c c'.
Proof. intros Hq Ht Hr. split; unfold idle; rewrite ?Ht, ?Hr, ?Hq; auto. Qed.

Lemma try_enqueue_closed f (q : WriteQueue (Ch := Ch)) : closed_ (try_enqueue f q).2 = closed_ q.
Proof. unfold try_enqueue, try_enqueue_frame. by repeat case_match. Qed.

Lemma careful_call l f c : careful c (call_operation l f c).2.
Proof. apply careful_same; unfold call_operation; by repeat case_match. Qed.

Lemma careful_fail_operations c : careful c (fail_operations_on_connection_close c).
Proof.
  unfold fail_operations_on_connection_close. generalize (map_traversal (operations_ c)). intros ops.
  revert c. induction ops as [|[s l] ops IH]; intros c; simpl; [done|]. etrans; [|apply IH].
  unfold fail_operation. etrans; apply careful_call.
Qed.

(** The counter is the number of handlers. *)
Lemma active_exact D A c :
  server_inv server_hooks c → server_ok (msg := msg) registry D A c → Forall wire_ok D →
  active_handlers_ c = Z.of_nat (length (tasks_ c)).
Proof.
  intros Hc Hok HD. rewrite (vi_active _ _ Hc). unfold uwrap. apply Z.mod_small. split; [lia|].
  rewrite <-(length_fmap task_stream). apply valid_streams_few; [apply Hc|]. apply Forall_fmap.
  eapply Forall_impl; [apply Hok|]. intros k [Hk _]. by eapply decoded_valid.
Qed.

(** [close_queue_when_idle] does what its name says. *)
Lemma close_when_idle_careful c :
  active_handlers_ c = Z.of_nat (length (tasks_ c)) → careful c (close_queue_when_idle c).
Proof.
  intros Ha. unfold close_queue_when_idle. destruct (reading_ c) eqn:Hr; simpl; [done|].
  destruct (Z.eqb_spec (active_handlers_ c) 0) as [Hz|]; [|done]. split; simpl; auto.
  intros _. right. split; [done|]. simpl. destruct (tasks_ c); [done|]. simpl in Ha. lia.
Qed.

Lemma enqueue_round_closed f (q : WriteQueue (Ch := Ch)) : closed_ (enqueue_round f q).2 = closed_ q.
Proof.
  unfold enqueue_round. pose proof (try_enqueue_closed f q) as Hc. unfold try_enqueue in Hc.
  destruct (try_enqueue_frame f q) as [r q1]. simpl in Hc. repeat case_match; simplify_eq/=; congruence.
Qed.

Lemma enqueue_closed f (q : WriteQueue (Ch := Ch)) r q' : enqueue f q = (r, q') → closed_ q' = closed_ q.
Proof.
  unfold enqueue. case_match; [by intros [= _ <-]|]. intros He.
  pose proof (enqueue_round_closed f q) as Hc. by rewrite He in Hc.
Qed.

Lemma enqueue_resume_closed f what (q : WriteQueue (Ch := Ch)) r q' :
  enqueue_resume f what q = Some (r, q') → closed_ q' = closed_ q.
Proof.
  unfold enqueue_resume. destruct (ch_resume (space_channel_ q)) as [[[u|] space]|]; [|by intros [= _ <-]|done].
  intros [= He]. set (q1 := mkQueue _ _ _ _ space _) in He.
  pose proof (enqueue_round_closed f q1) as Hc. by rewrite He in Hc.
Qed.

Section handlers.
Context (D : list Frame) (A : list (Answer (msg := msg))) (HD : Forall wire_ok D).

(** What is known of the state after the step. *)
Definition good c : Prop := server_inv server_hooks c ∧ server_ok registry D A c.

Lemma careful_handler_end i k c : good (handler_end i k c) → careful c (handler_end i k c).
Proof.
  intros [Hc Hok]. pose proof (active_exact _ _ _ Hc Hok HD) as Ha. unfold handler_end in *.
  set (c1 := set_running _ _ _ c) in *. trans c1.
  - split; simpl; auto. unfold idle. simpl. intros [Hr Ht]. rewrite Ht. by destruct i.
  - apply close_when_idle_careful. unfold close_queue_when_idle in Ha. by destruct (_ && _).
Qed.

Lemma careful_task_pc i k pc c : careful c (set_task_pc i k pc c).
Proof. split; simpl; auto. unfold idle. simpl. intros [Hr Ht]. rewrite Ht. by destruct i. Qed.

Lemma careful_handler_start i k c : good (handler_start registry i k c) → careful c (handler_start registry i k c).
Proof.
  unfold handler_start. destruct (negb _); intros Hg; [|apply careful_task_pc].
  etrans; [|by apply careful_handler_end]. etrans; [apply careful_call|].
  apply careful_same; try done. simpl. apply try_enqueue_closed.
Qed.

Lemma careful_handler_enqueue i k f r c :
  good (handler_enqueue i k f r c) → careful c (handler_enqueue i k f r c).
Proof. destruct r; simpl; intros Hg; [by apply careful_handler_end|apply careful_task_pc]. Qed.

Lemma careful_handler_returned i k v c :
  good (handler_returned registry i k v c) → careful c (handler_returned registry i k v c).
Proof.
  unfold handler_returned. destruct (if frame_encode_ok _ then _ else _) as [f|];
    [|intros Hg; by apply careful_handler_end].
  pose proof (careful_call (task_operation k) (complete "response ready") c) as Hc.
  destruct (call_operation _ _ c) as [b c1]. simpl in Hc. destruct b; simpl.
  - destruct (enqueue (end_stream f) (write_queue_ c1)) as [r q] eqn:He. intros Hg.
    etrans; [exact Hc|]. etrans; [|by apply careful_handler_enqueue].
    apply careful_same; try done. by eapply enqueue_closed.
  - intros Hg. etrans; [exact Hc|]. by apply careful_handler_end.
Qed.

Lemma careful_handler_resume i k f what c c' :
  handler_resume i k f what c = Some c' → good c' → careful c c'.
Proof.
  unfold handler_resume. destruct (enqueue_resume f what (write_queue_ c)) as [[r q]|] eqn:He; [|done].
  simpl. intros [= <-] Hg. etrans; [|by apply careful_handler_enqueue].
  apply careful_same; try done. by eapply enqueue_resume_closed.
Qed.

End handlers.

(** ** Shutting down *)

Lemma careful_shutdown_finish c : careful c (shutdown_finish server_hooks c).
Proof.
  unfold shutdown_finish. set (c1 := if negb _ then _ else c).
  trans c1; [unfold c1; case_match; [apply careful_fail_operations|done]|].
  apply careful_same; unfold notify_closed; by case_match.
Qed.

Lemma careful_shutdown_poll now deadline c : careful c (shutdown_poll server_hooks now deadline c).2.
Proof. unfold shutdown_poll. destruct (_ && _); [done|apply careful_shutdown_finish]. Qed.

Lemma careful_shutdown start now period c : careful c (shutdown server_hooks start now period c).2.
Proof.
  unfold shutdown. etrans; [|apply careful_shutdown_poll]. unfold begin_shutdown.
  repeat case_decide; by apply careful_same.
Qed.

Lemma careful_shutdown_resume e now deadline c : careful c (shutdown_resume server_hooks e now deadline c).2.
Proof. unfold shutdown_resume. destruct e; [apply careful_shutdown_finish|apply careful_shutdown_poll]. Qed.

(** ** The read loop *)

(** Dispatching touches neither. *)
Lemma dispatch_open frame c :
  closed_ (write_queue_ (dispatch server_hooks frame c)) = closed_ (write_queue_ c) ∧
  reading_ (dispatch server_hooks frame c) = reading_ c.
Proof.
  pose proof try_enqueue_closed as Htry. unfold dispatch, mark_terminal, fail_connection, call_operation.
  repeat case_match; simpl; auto.
Qed.

Lemma dispatch_frames_open frames c :
  closed_ (write_queue_ (dispatch_frames server_hooks frames c)) = closed_ (write_queue_ c) ∧
  reading_ (dispatch_frames server_hooks frames c) = reading_ c.
Proof.
  revert c. induction frames as [|f frames IH]; intros c; [done|]. simpl.
  set (c1 := notify _ _ c). destruct (dispatch_open f c1) as [Hc Hr].
  case_match; [by rewrite Hc, Hr|]. destruct (IH (dispatch server_hooks f c1)) as [-> ->]. by rewrite Hc, Hr.
Qed.

(** What the read loop leaves: it goes on and the queue is as it was, or it ends and the
    queue is closed only if no handler runs. *)
Definition read_result c (r : ReadPc * ServerConnection (Ch := Ch) (T := T) (TypeIndex := TypeIndex)) : Prop :=
  (r.1 = ReadWaiting ∧ reading_ r.2 = reading_ c ∨ r.1 = ReadEnded ∧ reading_ r.2 = false) ∧
  (closed_ (write_queue_ r.2) = true → closed_ (write_queue_ c) = true ∨ idle r.2).

Lemma read_exit_result (b : bool) c :
  active_handlers_ (read_loop_exit server_hooks b c).2
    = Z.of_nat (length (tasks_ (read_loop_exit server_hooks b c).2)) →
  read_result c (read_loop_exit server_hooks b c).
Proof.
  intros Ha. pose proof (read_exit_rest server_hooks b c) as (Ht & _ & _ & Hac & Hr & Hq).
  set (c' := (read_loop_exit server_hooks b c).2) in *.
  split; [right; split; [done|exact Hr]|]. fold c'. rewrite Hq.
  set (c0 := if b then fail_operations_on_connection_close c else c) in *.
  assert (write_queue_ c0 = write_queue_ c) as Hq0.
  { unfold c0. destruct b; [|done]. apply fail_all_rest. }
  destruct (Z.eqb_spec (active_handlers_ c0) 0) as [Hz|_]; [|rewrite Hq0; auto].
  intros _. right. split; [exact Hr|]. rewrite <-Hac, Ha in Hz. destruct (tasks_ c'); [done|]. simpl in Hz. lia.
Qed.

Lemma read_head_result c :
  active_handlers_ (read_loop_head server_hooks c).2
    = Z.of_nat (length (tasks_ (read_loop_head server_hooks c).2)) →
  read_result c (read_loop_head server_hooks c).
Proof.
  unfold read_loop_head. repeat case_match; try apply read_exit_result.
  intros _. split; [by left|by left].
Qed.

Lemma read_result_open c c0 r :
  closed_ (write_queue_ c0) = closed_ (write_queue_ c) → reading_ c0 = reading_ c →
  read_result c0 r → read_result c r.
Proof. unfold read_result. by intros -> ->. Qed.

Lemma read_resume_result io c pc c' :
  read_loop_resume server_hooks io c = Some (pc, c') →
  active_handlers_ c' = Z.of_nat (length (tasks_ c')) → read_result c (pc, c').
Proof.
  unfold read_loop_resume. destruct (t_read_end io (transport_ c)) as [r t]. cbv zeta.
  set (c1 := set_transport t c).
  assert (∀ b c2, closed_ (write_queue_ c2) = closed_ (write_queue_ c) → reading_ c2 = reading_ c →
    read_loop_exit server_hooks b c2 = (pc, c') → active_handlers_ c' = Z.of_nat (length (tasks_ c')) →
    read_result c (pc, c')) as Hexit.
  { intros b c2 Hq Hr He Ha. eapply read_result_open; [exact Hq|exact Hr|]. rewrite <-He.
    apply read_exit_result. by rewrite He. }
  destruct r as [[|b bytes]|what];
    [intros He%Some_inj; by eapply (Hexit _ c1)| |intros He%Some_inj; by eapply (Hexit _ c1)].
  set (c2 := notify _ _ c1). destruct (push (decoder_ c2) (b :: bytes)) as [[d frames]|]; [|done].
  cbn [mbind option_bind]. destruct (dispatch_frames_open frames (set_decoder d c2)) as [Hq Hr].
  destruct (decoder_error _); intros He%Some_inj.
  - by eapply Hexit; [..|exact He].
  - intros Ha. eapply read_result_open; [exact Hq|exact Hr|]. rewrite <-He. apply read_head_result. by rewrite He.
Qed.

(** ** The composed system *)

Definition writer_failed (pc : RunPc) : Prop :=
  ∃ r, pc = RunReturned r ∧ write_ok r = false.

Record queue_open (x : System) : Prop := {
  qo_started : dx_server_run x = RunNotStarted → dx_server_read x = ReadNotStarted;
  qo_reading : reading_ (dx_server x) = false ↔ dx_server_read x = ReadEnded;
  qo_closed : closed_ (write_queue_ (dx_server x)) = true →
    idle (dx_server x) ∨ writer_failed (dx_server_run x);
}.

Lemma server_active (x : System) : inv x → active_handlers_ (dx_server x) = Z.of_nat (length (tasks_ (dx_server x))).
Proof.
  intros Hx. eapply active_exact; [apply (di_server _ _ _ _ Hx)|apply (di_server_ok _ _ _ _ Hx)|].
  by eapply up_decoded_wire.
Qed.

(** A step of the server that is careful. *)
Lemma careful_open (x x' : System) :
  careful (dx_server x) (dx_server x') → dx_server_read x' = dx_server_read x →
  dx_server_run x' = dx_server_run x → queue_open x → queue_open x'.
Proof.
  intros [Hi Hc Hr] Hrd Hrun [Hs Ho Hcl]. split; rewrite ?Hrd, ?Hrun, ?Hr; [done..|].
  intros Hx. destruct (Hc Hx) as [Hy|]; [|by left]. destruct (Hcl Hy); auto.
Qed.

Lemma read_open (x x' : System) :
  read_result (dx_server x) (dx_server_read x', dx_server x') → dx_server_run x' = dx_server_run x →
  dx_server_read x = ReadWaiting → queue_open x → queue_open x'.
Proof.
  intros [Hpc Hc] Hrun Hwait [Hs Ho Hcl]. simpl in *.
  assert (reading_ (dx_server x) = true) as Hrd.
  { destruct (reading_ (dx_server x)); [done|]. pose proof (proj1 Ho eq_refl). congruence. }
  split.
  - intros Hn. rewrite Hrun in Hn. apply Hs in Hn. congruence.
  - destruct Hpc as [[-> Hr]|[-> Hr]]; rewrite Hr; [by rewrite Hrd|done].
  - intros Hx. destruct (Hc Hx) as [Hy|]; [|by left]. destruct (Hcl Hy) as [[Hn _]|]; [congruence|].
    right. by rewrite Hrun.
Qed.

Lemma run_open (x x' : System) :
  inv x' → srv_run server_hooks x = Some x' → queue_open x → queue_open x'.
Proof.
  intros Hx' Hs Hq. pose proof (server_active _ Hx') as Ha. revert Hs. unfold srv_run.
  destruct (dx_server_run x) eqn:Hpc; try done. unfold run. set (c1 := if decide _ then _ else dx_server x).
  assert (closed_ (write_queue_ c1) = closed_ (write_queue_ (dx_server x)) ∧ reading_ c1 = reading_ (dx_server x))
    as [Hc1 Hr1] by (unfold c1; by case_decide).
  destruct (run_receive (write_queue_ c1)) as [pc q] eqn:Hrr. injection Hrr as <- <-.
  set (c2 := set_write_queue _ c1). destruct (read_loop_head server_hooks c2) as [rpc c3] eqn:Hh.
  intros [= <-]. simpl in Ha.
  pose proof (read_head_result c2) as Hres. rewrite Hh in Hres.
  specialize (Hres Ha). destruct Hq as [Hnot Hrd Hcl]. rewrite (Hnot Hpc) in Hrd.
  assert (reading_ (dx_server x) = true) as Hreading
    by (destruct (reading_ (dx_server x)); [done|]; by pose proof (proj1 Hrd eq_refl)).
  destruct Hres as [Hp Hc]. simpl in *. split; simpl; [done|..].
  - destruct Hp as [[-> Hr]|[-> Hr]]; rewrite Hr; [|done]. simpl. rewrite Hr1, Hreading. done.
  - intros Hclosed. destruct (Hc Hclosed) as [Hy|]; [|by left]. rewrite Hc1 in Hy.
    destruct (Hcl Hy) as [[Hn _]|(r & Hr & _)]; congruence.
Qed.

Lemma run_resume_pc (q : WriteQueue (Ch := Ch)) (t : T) pc q' t' :
  run_resume q t = Some (pc, q', t') → pc ≠ RunNotStarted.
Proof. unfold run_resume, run_write_failed. intros Hr. by repeat case_match; simplify_eq/=. Qed.

Lemma run_written_pc f io (q : WriteQueue (Ch := Ch)) (t : T) pc q' t' es :
  run_written f io q t = (pc, q', t', es) → pc ≠ RunNotStarted.
Proof. unfold run_written, run_write_failed, run_receive. intros Hr. by repeat case_match; simplify_eq/=. Qed.

Lemma take_open (x x' : System) : srv_take x = Some x' → queue_open x → queue_open x'.
Proof.
  unfold srv_take. destruct (dx_server_run x) eqn:Hpc; try done.
  destruct (run_resume _ _) as [[[pc q] t]|] eqn:Hr; [|done]. simpl. intros [= <-] [Hst Hrd Hcl].
  split; simpl; [intros Hn; by destruct (run_resume_pc _ _ _ _ _ Hr Hn)|done|]. intros Hclosed. revert Hr. unfold run_resume.
  destruct (ch_resume _) as [[[f|] ch]|]; [|intros [= <- <- <-]|done].
  - destruct (t_write_begin _) as [what|]; intros [= <- <- <-].
    + right. by eexists.
    + destruct (Hcl Hclosed) as [|(r & Hr & _)]; [by left|congruence].
  - destruct (Hcl Hclosed) as [|(r & Hr & _)]; [by left|congruence].
Qed.

Lemma written_open io (x x' : System) : srv_written io x = Some x' → queue_open x → queue_open x'.
Proof.
  unfold srv_written. destruct (dx_server_run x) as [| |f|] eqn:Hpc; try done.
  destruct (link_written _ _) as [down|]; [|done]. simpl.
  destruct (run_written f io _ _) as [[[pc q] t] es] eqn:Hw. intros [= <-] [Hst Hrd Hcl].
  split; simpl; [intros Hn; by destruct (run_written_pc _ _ _ _ _ _ _ _ Hw Hn)|done|]. intros Hclosed. revert Hw. unfold run_written.
  destruct (t_write_end _ _) as [[|what] t1]; intros [= <- <- <- <-].
  - destruct (Hcl Hclosed) as [|(r & Hr & _)]; [by left|congruence].
  - right. by eexists.
Qed.

(** The server has not been touched. *)
Lemma client_open (x x' : System) :
  dx_server x' = dx_server x → dx_server_read x' = dx_server_read x → dx_server_run x' = dx_server_run x →
  queue_open x → queue_open x'.
Proof. intros Hs Hr Hp [Hst Ho Hc]. split; by rewrite ?Hs, ?Hr, ?Hp. Qed.

(** The actions that leave the server alone. *)
Definition spares_server (a : Action (msg := msg)) : bool :=
  match a with
  | ServerRun | ServerHandle _ _ | ServerTaskStart _ | ServerReturned _ _ | ServerThrew _
  | ServerTaskResume _ _ | ServerRead _ | ServerTake | ServerWritten _ | ServerShutdown _ _ _
  | ServerShutdownResume _ _ _ => false
  | _ => true
  end.

Lemma spares_server_spec a (x x' : System) :
  spares_server a = true → dstep registry client_hooks server_hooks a x = Some x' →
  dx_server x' = dx_server x ∧ dx_server_read x' = dx_server_read x ∧ dx_server_run x' = dx_server_run x.
Proof.
  destruct a; try done; intros _; simpl;
    unfold cli_run, cli_start, cli_start_resume, cli_read, cli_take, cli_written; intros Hstep;
    by repeat (case_match || simplify_option_eq).
Qed.

Lemma dstep_open a (x x' : System) :
  inv x → inv x' → dstep registry client_hooks server_hooks a x = Some x' → queue_open x → queue_open x'.
Proof.
  intros Hx Hx' Hstep Hq. destruct (spares_server a) eqn:Ha.
  { destruct (spares_server_spec _ _ _ Ha Hstep) as (? & ? & ?). by eapply client_open. }
  assert (good (lk_decoded (dx_up x')) (dx_answers x') (dx_server x')) as Hg
    by (split; [apply (di_server _ _ _ _ Hx')|apply (di_server_ok _ _ _ _ Hx')]).
  pose proof (up_decoded_wire _ _ _ _ Hx') as HD.
  assert (∀ c, careful (dx_server x) c → Some (set_server c x) = Some x' → queue_open x') as Hsv.
  { intros c Hcf [= <-]. by eapply careful_open. }
  destruct a; try done; simpl in Hstep.
  - by eapply run_open.
  - eapply Hsv, Hstep. apply careful_same; unfold handle; by case_match.
  - unfold srv_task_start in Hstep. destruct (tasks_ _ !! i) as [k|]; [|done]. simpl in Hstep.
    destruct (task_pc k); try done. injection Hstep as <-. eapply careful_open; [..|exact Hq]; try done.
    by eapply careful_handler_start.
  - unfold srv_returned in Hstep. case_decide; [|done]. injection Hstep as <-.
    eapply careful_open; [..|exact Hq]; try done. by eapply careful_handler_returned.
  - unfold srv_threw in Hstep. destruct (tasks_ _ !! i) as [k|]; [|done]. simpl in Hstep.
    destruct (task_pc k); try done. injection Hstep as <-. eapply careful_open; [..|exact Hq]; try done.
    by eapply careful_handler_end.
  - unfold srv_task_resume in Hstep. destruct (tasks_ _ !! i) as [k|]; [|done]. simpl in Hstep.
    destruct (task_pc k) as [| |f]; try done. destruct (handler_resume _ _ _ _ _) as [c|] eqn:E; [|done].
    injection Hstep as <-. eapply careful_open; [..|exact Hq]; try done. by eapply careful_handler_resume.
  - unfold srv_read in Hstep. destruct (dx_server_read x) eqn:Hw; try done.
    destruct (decode_read _ _) as [[bytes d] fs]. destruct (link_read _ _ _) as [up|]; [|done]. simpl in Hstep.
    destruct (read_loop_resume _ _ _) as [[rpc c]|] eqn:E; [|done]. injection Hstep as <-.
    apply (read_open x); [|done|done|done]. simpl. eapply read_resume_result; [exact E|].
    apply (server_active _ Hx').
  - by eapply take_open.
  - by eapply written_open.
  - eapply Hsv, Hstep. apply careful_shutdown.
  - eapply Hsv, Hstep. apply careful_shutdown_resume.
Qed.

Section reached.
Context (ct st : T) (climits slimits : WriteQueueLimits) (maximum : Z).

Lemma dsteps_open actions (x x' : System) :
  inv x → queue_open x → dsteps registry client_hooks server_hooks actions x = Some x' → queue_open x'.
Proof.
  revert x. induction actions as [|a actions IH]; intros x Hx Hq; simpl; [by intros [= <-]|].
  destruct (dstep registry client_hooks server_hooks a x) as [x1|] eqn:E; [|done]. simpl.
  pose proof (dstep_inv _ _ _ _ _ _ Hx E) as Hx1. apply IH; [done|]. exact (dstep_open a x x1 Hx Hx1 E Hq).
Qed.

(** An open queue takes every frame that fits its limits, at once or after a wait. *)
Lemma enqueue_open f (q : WriteQueue (Ch := Ch)) :
  closed_ q = false → frame_fits (limits_ q) f →
  match (enqueue f q).1 with EnqueueReturned r => write_ok r = true | EnqueueWaiting => True end.
Proof.
  intros Ho [Hm Hb]. unfold enqueue.
  assert ((queued_bytes f >? max_bytes (limits_ q)) || (max_frames (limits_ q) =? 0) = false) as ->.
  { apply orb_false_iff. rewrite Z.gtb_ltb, Z.ltb_ge. split; [done|]. by apply Z.eqb_neq. }
  unfold enqueue_round. pose proof (try_enqueue_closed f q) as Hc. unfold try_enqueue in Hc.
  destruct (try_enqueue_frame f q) as [r q1]. simpl in Hc. destruct (write_ok r) eqn:Hok; [done|].
  by rewrite Hc, Ho.
Qed.

(** C20: the server's write queue stays open as long as it is needed: unless the writer has
    failed, it is closed only when the read loop has ended and no handler runs; so while a
    handler runs, a response that fits the limits of the queue is accepted, at once or after
    a wait for space.  And the counter of active handlers, on which this rests, is exact:
    there are fewer than 2^64 stream identifiers, so it never wraps around. *)
Theorem server_queue_open actions (x : System) :
  limits_wf climits → limits_wf slimits → in_u 64 maximum →
  dsteps registry client_hooks server_hooks actions
    (new_duplex client_hooks server_hooks ct st climits slimits maximum) = Some x →
  let c := dx_server x in
  active_handlers_ c = Z.of_nat (length (tasks_ c)) ∧
  (closed_ (write_queue_ c) = true → idle c ∨ writer_failed (dx_server_run x)) ∧
  (∀ f, tasks_ c ≠ [] → ¬ writer_failed (dx_server_run x) → frame_fits (limits_ (write_queue_ c)) f →
     match (enqueue f (write_queue_ c)).1 with EnqueueReturned r => write_ok r = true | EnqueueWaiting => True end).
Proof.
  intros Hc Hs Hm Hr. pose proof (dreached_inv _ _ _ _ _ _ _ _ _ _ Hc Hs Hm Hr) as Hx. cbv zeta.
  assert (queue_open x) as Hq.
  { eapply dsteps_open; [exact (new_duplex_inv _ _ _ ct st climits slimits maximum Hc Hs Hm)| |exact Hr]. by split. }
  split_and!; [by apply server_active|apply Hq|]. intros f Hk Hw Hf. apply enqueue_open; [|done].
  destruct (closed_ (write_queue_ (dx_server x))) eqn:Hcl; [|done].
  by destruct (qo_closed _ Hq Hcl) as [[_ ?]|?].
Qed.

End reached.
End queue.

(** ** Witness *)

Section sample.
#[local] Existing Instance demo_codec.
#[local] Instance demo_queue_codec_laws : CodecLaws nat (pod_value (λ t, t)) := PodCodec_laws _ _.

(** A handler runs. *)
Definition called : list (Action (msg := pod_value (λ t : nat, t))) :=
  opening ++ [ClientStart 2%nat question_a] ++ sent_up demo_frame ++ [ServerTaskStart 0].

Lemma called_runs : demo_steps called = Some (after called).
Proof. vm_compute. reflexivity. Qed.

Lemma server_queue_open_witness :
  length (tasks_ (dx_server (after called))) = 1%nat ∧
  active_handlers_ (dx_server (after called)) = Z.of_nat (length (tasks_ (dx_server (after called)))).
Proof.
  split; [vm_compute; reflexivity|].
  apply (server_queue_open demo_registry listening_hooks listening_hooks new_tcp_transport new_tcp_transport
    sample_limits sample_limits 9 called (after called) sample_limits_wf sample_limits_wf client_range called_runs).
Defined.

End sample.
