(* ===== verification/Waiters.v ===== *)
(** * Whoever waits for space is woken

    In the composed system: the coroutines that are suspended in [enqueue] are exactly the
    outstanding receives on the queue's space channel, and as long as the queue is open one of
    them has completed, or there is a frame in the queue whose departure will complete one. *)

From S2P Require Import Prelude Identifiers Status Frame FrameCodec FrameDecoder ProtocolViolation.
From S2P Require Import Lifecycle Diagnostics Operation StreamIdAllocator Codec MessageRegistry MessageCodec.
From S2P Require Import Transport Channel Timer WriteQueue Link.
From S2P Require Import ServerConnection.
From S2P Require Import ClientConnection.
From S2P Require Import ServerTraffic.
From S2P Require Import ClientTraffic.
From S2P Require Import Duplex.
From S2P Require Import DuplexQueue.

Local Open Scope Z_scope.

#[local] Arguments encode_frame : simpl never.

(** ** One queue *)

Section queue.
Context {Ch : Type → Type} `{!Channel Ch} `{!ChannelLaws Ch} {T : Type} `{!Transport T} `{!TransportLaws T}.
Implicit Types (q : WriteQueue (Ch := Ch)) (t : T).

(** [n] coroutines wait for space, and will be woken. *)
Definition waits q (n : nat) : Prop :=
  receives (space_channel_ q) = n ∧
  (n ≠ 0%nat → closed_ q = false → pending q ≠ [] ∨ cv_done (ch_view (space_channel_ q)) ≠ []).

Lemma waits_new limits observer : waits (new_queue limits observer) 0.
Proof. unfold waits, receives. simpl. by rewrite ch_view_make. Qed.

(** The queue changes and nobody starts or stops waiting; it is not opened again. *)
Definition calm q q' : Prop :=
  queue_inv q → queue_inv q' ∧ (∀ n, waits q n → waits q' n) ∧ (closed_ q = true → closed_ q' = true).

#[export] Instance calm_preorder : PreOrder calm.
Proof.
  split; [by intros q|]. intros q1 q2 q3 H12 H23 Hq. destruct (H12 Hq) as (H2 & Hw & Hc).
  destruct (H23 H2) as (H3 & Hw' & Hc'). auto.
Qed.

Lemma calm_close q : calm q (close q).
Proof.
  intros Hq. destruct (close_inv q Hq) as (Hi & _ & Hc & _ & Hr). split_and!; [done| |done]. intros n [Hn _].
  split; [congruence|]. by rewrite Hc.
Qed.

Lemma calm_try_enqueue f q : calm q (try_enqueue f q).2.
Proof.
  intros Hq. unfold try_enqueue. destruct (try_enqueue_frame f q) as [r q'] eqn:E. simpl.
  destruct (try_enqueue_frame_spec f q r q' Hq E) as (Hi & _ & Hc & Hs & _ & Hp). split_and!; [done| |congruence].
  intros n [Hn Hw]. unfold waits. rewrite Hc, Hs. split; [done|]. intros Hne Ho.
  destruct (Hw Hne Ho) as [Hpe|]; [left|by right].
  destruct Hp as [(_ & _ & ->)|(_ & -> & _)]; [by intros [? _]%app_nil|done].
Qed.

Lemma waits_enqueue f q r q' n :
  queue_inv q → enqueue f q = (r, q') → waits q n → waits q' (n + length (waits_after f r))%nat.
Proof.
  intros Hq E [Hn Hw]. destruct (enqueue_spec f q r q' Hq E) as [(_ & _ & Hc & _ & Hp & _ & Hr) _].
  unfold waits. rewrite Hc, Hp. destruct r as [r|]; simpl.
  - rewrite Hr, Nat.add_0_r. split; [done|]. intros Hne Ho. destruct (Hw Hne Ho) as [Hpe|]; [left|by right].
    by intros [? _]%app_nil.
  - destruct Hr as (_ & Hpe & Hr). split; [lia|]. intros _ _. left. by intros [? _]%app_nil.
Qed.

Lemma waits_resume f what q r q' n :
  queue_inv q → frame_fits (limits_ q) f → enqueue_resume f what q = Some (r, q') → waits q (S n) →
  waits q' (n + length (waits_after f r))%nat.
Proof.
  intros Hq [Hm Hb] E [Hn Hw]. destruct (enqueue_resume_spec f what q r q' Hq Hm Hb E)
    as (_ & _ & Hc & _ & _ & _ & Hr & Hp). split; [lia|]. intros _ Ho. left. apply Hp. congruence.
Qed.

Lemma calm_receive q pc q' : run_receive q = (pc, q') → calm q q'.
Proof.
  intros E Hq. destruct (run_receive_spec q pc q' Hq E) as (_ & Hi & _ & Hc & Hs & Hp & _). split_and!; [done| |congruence].
  intros n. unfold waits. by rewrite Hc, Hs, Hp.
Qed.

Lemma calm_take q t pc q' t' :
  receives (channel_ q) = 1%nat → run_resume q t = Some (pc, q', t') → calm q q'.
Proof.
  intros Hone E Hq. destruct (run_resume_spec q t pc q' t' Hq Hone E) as (Hi & _ & _ & Hr & Hc).
  split_and!; [done| |by destruct Hc as [(f & _ & -> & _)|[(f & what & _ & _ & -> & _)|(_ & _ & _ & -> & _)]]].
  intros n [Hn Hw]. split; [congruence|]. intros Hne Ho.
  destruct Hc as [(f & _ & Hcl & _ & _ & _ & Hsig)|[(f & what & _ & _ & Hcl & _)|(_ & _ & _ & Hcl & _)]]; [|congruence..].
  right. apply Hsig; congruence.
Qed.

Lemma calm_written f io q t pc q' t' es : run_written f io q t = (pc, q', t', es) → calm q q'.
Proof.
  unfold run_written. destruct (t_write_end io t) as [[|what] t1]; [|intros [= _ <- _ _]; apply calm_close].
  destruct (run_receive q) as [pc1 q1] eqn:E. intros [= _ <- _ _]. by eapply calm_receive.
Qed.

End queue.

(** ** The client *)

Section client.
Context {Ch : Type → Type} `{!Channel Ch} `{!ChannelLaws Ch} {T : Type} `{!Transport T} `{!TransportLaws T}.
Context {Tm : Type} `{!SteadyTimer Tm} `{!MapBegin}.
Context {TypeIndex : Type} `{Countable TypeIndex} {msg : TypeIndex → Type} `{C : !Codec TypeIndex msg}.
Context (registry : MessageRegistry (TypeIndex := TypeIndex)) (hooks : DiagnosticsHooks).
Implicit Types c : ClientConnection (Ch := Ch) (Tm := Tm) (T := T).

Lemma call_operation_queue l f c : write_queue_ (call_operation l f c).2 = write_queue_ c.
Proof. unfold call_operation. by repeat case_match. Qed.

Lemma cleanup_queue l b c : write_queue_ (cleanup_pending l b c) = write_queue_ c.
Proof. unfold cleanup_pending. by repeat case_match. Qed.

Lemma mark_terminal_queue f c : write_queue_ (mark_terminal f c) = write_queue_ c.
Proof. unfold mark_terminal. by case_match. Qed.

Lemma fail_pending_queue status m c : write_queue_ (fail_pending status m c) = write_queue_ c.
Proof.
  unfold fail_pending. generalize (size (pending_ c)). intros n. revert c.
  induction n as [|n IH]; intros c; simpl; [done|]. destruct (map_begin (pending_ c)) as [[s l]|]; [|done].
  by rewrite IH, cleanup_queue, <-(call_operation_queue l (fail_op status m) c).
Qed.

Lemma fail_connection_queue status m c : write_queue_ (fail_connection hooks status m c) = write_queue_ c.
Proof. unfold fail_connection. case_decide; simpl; by rewrite fail_pending_queue. Qed.

Lemma notify_closed_queue c : write_queue_ (notify_closed hooks c) = write_queue_ c.
Proof. unfold notify_closed. by case_match. Qed.

Lemma shutdown_finish_queue c : write_queue_ (shutdown_finish hooks c) = write_queue_ c.
Proof. unfold shutdown_finish. rewrite notify_closed_queue. simpl. case_decide; [done|]. apply fail_pending_queue. Qed.

Lemma shutdown_poll_queue now d c : write_queue_ (shutdown_poll hooks now d c).2 = write_queue_ c.
Proof. unfold shutdown_poll. case_match; [done|]. apply shutdown_finish_queue. Qed.

Lemma begin_shutdown_queue c : write_queue_ (begin_shutdown c) = write_queue_ c.
Proof. unfold begin_shutdown. by repeat case_decide. Qed.

(** The end of an operation whose request is cancelled. *)
Lemma calm_send_cancellation s c : calm (write_queue_ c) (write_queue_ (send_cancellation s c)).
Proof. apply calm_try_enqueue. Qed.

Lemma calm_timeout_pending l c : calm (write_queue_ c) (write_queue_ (timeout_pending l c)).
Proof.
  unfold timeout_pending. pose proof (call_operation_queue l (timeout "operation deadline exceeded") c) as Hq.
  destruct (call_operation _ _ c) as [[] c1]; simpl in *; [|by rewrite Hq].
  rewrite cleanup_queue, <-Hq. apply calm_try_enqueue.
Qed.

Lemma calm_cancel_pending l m c : calm (write_queue_ c) (write_queue_ (cancel_pending l m c).2).
Proof.
  unfold cancel_pending. pose proof (call_operation_queue l (cancel m) c) as Hq.
  destruct (call_operation _ _ c) as [[] c1]; simpl in *; [|by rewrite Hq].
  rewrite cleanup_queue, <-Hq. apply calm_try_enqueue.
Qed.

Lemma calm_discard l c : calm (write_queue_ c) (write_queue_ (discard_pending l c)).
Proof.
  unfold discard_pending. rewrite cleanup_queue. destruct (negb _); [|done]. simpl.
  rewrite <-(call_operation_queue l (cancel "operation handle released") c). apply calm_try_enqueue.
Qed.

Lemma calm_dispatch f c : calm (write_queue_ c) (write_queue_ (dispatch hooks f c)).
Proof.
  unfold dispatch. destruct (negb _); [by rewrite fail_connection_queue|].
  destruct (pending_ c !! _) as [l|]; [|by rewrite fail_connection_queue].
  case_decide; [by rewrite fail_connection_queue|].
  destruct (has_flag _ FrameFlags.cancel); [rewrite mark_terminal_queue; apply calm_cancel_pending|].
  destruct (has_flag _ FrameFlags.error).
  - destruct (decode_error_status f) as [st|]; [|by rewrite fail_connection_queue].
    rewrite mark_terminal_queue, cleanup_queue. by rewrite <-(call_operation_queue l (fail_op st "peer rejected the operation") c).
  - pose proof (call_operation_queue l (complete "response received") c) as Hq.
    destruct (call_operation _ _ c) as [b c1]. simpl in Hq.
    destruct b; cbn [negb]; [|by rewrite fail_connection_queue, Hq].
    rewrite mark_terminal_queue, cleanup_queue. by rewrite <-Hq.
Qed.

Lemma calm_dispatch_frames fs c : calm (write_queue_ c) (write_queue_ (dispatch_frames hooks fs c)).
Proof.
  revert c. induction fs as [|f fs IH]; intros c; [done|]. simpl. set (c1 := notify _ _ c).
  assert (calm (write_queue_ c) (write_queue_ (dispatch hooks f c1))) as Hd by apply (calm_dispatch f c1).
  case_match; [done|]. etrans; [exact Hd|apply IH].
Qed.

Lemma read_exit_queue c : write_queue_ (read_loop_exit hooks c).2 = close (write_queue_ c).
Proof. unfold read_loop_exit. cbn [snd]. rewrite notify_closed_queue. simpl. by rewrite fail_pending_queue. Qed.

Lemma read_head_queue c :
  write_queue_ (read_loop_head hooks c).2 = write_queue_ c ∨
  write_queue_ (read_loop_head hooks c).2 = close (write_queue_ c).
Proof. unfold read_loop_head. repeat case_match; [by left|right; apply read_exit_queue..]. Qed.

Lemma calm_read_head c : calm (write_queue_ c) (write_queue_ (read_loop_head hooks c).2).
Proof. destruct (read_head_queue c) as [-> | ->]; [done|apply calm_close]. Qed.

Lemma calm_read_resume io c pc c' :
  read_loop_resume hooks io c = Some (pc, c') → calm (write_queue_ c) (write_queue_ c').
Proof.
  unfold read_loop_resume. destruct (t_read_end io (transport_ c)) as [r t]. cbv zeta.
  assert (∀ c1, calm (write_queue_ c) (write_queue_ c1) → read_loop_exit hooks c1 = (pc, c') →
    calm (write_queue_ c) (write_queue_ c')) as Hexit.
  { intros c1 H1 He. pose proof (read_exit_queue c1) as Hq. rewrite He in Hq. simpl in Hq. rewrite Hq.
    etrans; [exact H1|apply calm_close]. }
  destruct r as [[|b bs]|what]; [intros He%Some_inj; by eapply Hexit, He| |intros He%Some_inj; by eapply Hexit, He].
  set (c1 := notify _ _ _). destruct (push _ (b :: bs)) as [[d fs]|]; [|done]. cbn [mbind option_bind].
  pose proof (calm_dispatch_frames fs (set_decoder d c1)) as Hd. set (c2 := dispatch_frames _ _ _) in *.
  change (write_queue_ (set_decoder d c1)) with (write_queue_ c) in Hd.
  destruct (decoder_error _); intros He%Some_inj.
  - eapply Hexit, He. by rewrite fail_connection_queue.
  - pose proof (calm_read_head c2) as Hh. rewrite He in Hh. by etrans.
Qed.

Lemma calm_client_run c c' pc rpc : run hooks c = (c', pc, rpc) → calm (write_queue_ c) (write_queue_ c').
Proof.
  unfold run. set (c1 := if decide _ then _ else c).
  assert (write_queue_ c1 = write_queue_ c) as <- by (unfold c1; by case_decide).
  destruct (run_receive (write_queue_ c1)) as [pc1 q] eqn:E.
  pose proof (calm_read_head (set_write_queue q c1)) as Hh. destruct (read_loop_head _ _) as [rpc1 c3]. simpl in Hh.
  intros [= <- <- <-]. etrans; [by eapply calm_receive|done].
Qed.

(** Starting a request. *)
Definition starting_of (r : StartStep) : nat := match r with StartEnqueuing _ _ => 1 | StartReturned _ => 0 end.

Lemma start_enqueue_queue l f r c :
  write_queue_ (start_request_enqueue l f r c).2 = write_queue_ c ∧
  starting_of (start_request_enqueue l f r c).1 = length (waits_after f r).
Proof.
  destruct r as [sent|]; [|done]. simpl. unfold start_request_sent. destruct (negb _); [|done]. simpl.
  rewrite cleanup_queue. split; [|done].
  by rewrite <-(call_operation_queue l (fail_op (wr_status sent) (wr_message sent)) c).
Qed.

Lemma waits_start ty (v : msg ty) c n :
  queue_inv (write_queue_ c) → waits (write_queue_ c) n →
  let '(r, c') := start_request registry hooks ty v c in waits (write_queue_ c') (n + starting_of r).
Proof.
  intros Hq Hn. unfold start_request. destruct (_ || _); [simpl; by rewrite Nat.add_0_r|].
  destruct (allocate _) as [al ids]. destruct (allocation_stream al) as [s|]; [|simpl; by rewrite Nat.add_0_r].
  cbv zeta. destruct (if frame_encode_ok _ then _ else _) as [f|]; [|simpl; by rewrite Nat.add_0_r].
  destruct (enqueue f _) as [r q] eqn:E. simpl in E. set (l := length _). set (c1 := set_write_queue q _).
  destruct (start_enqueue_queue l f r c1) as [Hqq Hs]. destruct (start_request_enqueue l f r c1) as [r1 c2].
  simpl in Hqq, Hs. rewrite Hqq, Hs. by eapply waits_enqueue.
Qed.

Lemma waits_start_resume l f what c r c' n :
  queue_inv (write_queue_ c) → frame_fits (limits_ (write_queue_ c)) f →
  start_request_resume l f what c = Some (r, c') → waits (write_queue_ c) (S n) →
  waits (write_queue_ c') (n + starting_of r).
Proof.
  intros Hq Hf. unfold start_request_resume. destruct (enqueue_resume _ _ _) as [[r1 q]|] eqn:E; [|done]. simpl.
  intros [= Hs] Hn. destruct (start_enqueue_queue l f r1 (set_write_queue q c)) as [Hqq Hst].
  rewrite Hs in Hqq, Hst. simpl in Hqq, Hst. rewrite Hqq, Hst. by eapply waits_resume.
Qed.

End client.

(** ** The server *)

From S2P Require Import ServerConnection.

(** The frames of the coroutines that wait for space. *)
Definition enqueuing {TypeIndex} (k : HandlerTask (TypeIndex := TypeIndex)) : option Frame :=
  match task_pc k with HandlerEnqueuing f => Some f | _ => None end.

Definition waiting_frames {TypeIndex} (ks : list (HandlerTask (TypeIndex := TypeIndex))) : list Frame :=
  omap enqueuing ks.

Lemma omap_delete_perm {A B} (g : A → option B) (ks : list A) i k :
  ks !! i = Some k → omap g ks ≡ₚ option_list (g k) ++ omap g (delete i ks).
Proof.
  intros Hi. rewrite <-(take_drop_middle ks i k Hi) at 1. rewrite delete_take_drop, !omap_app. simpl.
  destruct (g k); simpl; [|done]. by rewrite Permutation_middle.
Qed.

Lemma omap_insert_perm {A B} (g : A → option B) (ks : list A) i k k' :
  ks !! i = Some k → omap g (<[i := k']> ks) ≡ₚ option_list (g k') ++ omap g (delete i ks).
Proof.
  intros Hi. assert (i < length ks)%nat as Hlt by (by eapply lookup_lt_Some).
  rewrite insert_take_drop, delete_take_drop, !omap_app by done. simpl.
  destruct (g k'); simpl; [|done]. by rewrite Permutation_middle.
Qed.

Section server.
Context {Ch : Type → Type} `{!Channel Ch} `{!ChannelLaws Ch} {T : Type} `{!Transport T} `{!TransportLaws T}.
Context `{!MapTraversal} {TypeIndex : Type} `{Countable TypeIndex} {msg : TypeIndex → Type} `{C : !Codec TypeIndex msg}.
Context (registry : MessageRegistry (TypeIndex := TypeIndex)) (hooks : DiagnosticsHooks).
Implicit Types c : ServerConnection (Ch := Ch) (T := T) (TypeIndex := TypeIndex).

(** No coroutine starts or stops waiting. *)
Definition steady c c' : Prop :=
  calm (write_queue_ c) (write_queue_ c') ∧ waiting_frames (tasks_ c') ≡ₚ waiting_frames (tasks_ c).

#[export] Instance steady_preorder : PreOrder steady.
Proof. split; [by split|]. intros c1 c2 c3 [] []. split; by etrans. Qed.

Lemma steady_same c c' : write_queue_ c' = write_queue_ c → tasks_ c' = tasks_ c → steady c c'.
Proof. intros Hq Ht. split; by rewrite ?Hq, ?Ht. Qed.

Lemma steady_call l f c : steady c (call_operation l f c).2.
Proof. apply steady_same; unfold call_operation; by repeat case_match. Qed.

Lemma steady_send_error s status c : steady c (send_operation_error s status c).
Proof. split; [apply calm_try_enqueue|done]. Qed.

Lemma steady_mark_terminal f c : steady c (mark_terminal f c).
Proof. apply steady_same; unfold mark_terminal; by case_match. Qed.

Lemma steady_fail_connection status m c : steady c (fail_connection hooks status m c).
Proof. apply steady_same; unfold fail_connection; by case_decide. Qed.

Lemma steady_close_idle c : steady c (close_queue_when_idle c).
Proof. unfold close_queue_when_idle. case_match; [|done]. split; [apply calm_close|done]. Qed.

Lemma steady_fail_operations c : steady c (fail_operations_on_connection_close c).
Proof.
  unfold fail_operations_on_connection_close. generalize (map_traversal (operations_ c)). intros ops.
  revert c. induction ops as [|[s l] ops IH]; intros c; simpl; [done|]. etrans; [|apply IH].
  unfold fail_operation. etrans; apply steady_call.
Qed.

Lemma steady_notify_closed c : steady c (notify_closed hooks c).
Proof. apply steady_same; unfold notify_closed; by case_match. Qed.

Lemma steady_dispatch f c : steady c (dispatch hooks f c).
Proof.
  unfold dispatch. destruct (_ || _); [etrans; [apply steady_send_error|apply steady_mark_terminal]|].
  destruct (negb _); [apply steady_fail_connection|].
  destruct (decide (_ ∈ terminal_streams_ c)); [apply steady_fail_connection|].
  destruct (has_flag _ _).
  { destruct (operations_ c !! _) as [l|]; [|apply steady_fail_connection].
    etrans; [apply steady_call|apply steady_mark_terminal]. }
  destruct (peek_message_type _) as [id|]; [|etrans; [apply steady_send_error|apply steady_mark_terminal]].
  destruct (handlers_ c !! id); [|etrans; [apply steady_send_error|apply steady_mark_terminal]].
  destruct (operations_ c !! _); [by apply steady_same|]. split; [done|]. simpl. unfold waiting_frames.
  rewrite omap_app. simpl. by rewrite app_nil_r.
Qed.

Lemma steady_dispatch_frames fs c : steady c (dispatch_frames hooks fs c).
Proof.
  revert c. induction fs as [|f fs IH]; intros c; [done|]. simpl. set (c1 := notify _ _ c).
  assert (steady c (dispatch hooks f c1)) as Hd by (etrans; [by apply (steady_same c c1)|apply steady_dispatch]).
  case_match; [done|]. by etrans.
Qed.

Lemma steady_read_exit b c : steady c (read_loop_exit hooks b c).2.
Proof.
  unfold read_loop_exit. simpl. etrans; [|apply steady_notify_closed].
  set (c1 := if b then _ else c). assert (steady c c1) as H1 by (unfold c1; destruct b; [apply steady_fail_operations|done]).
  etrans; [exact H1|]. etrans; [by apply (steady_same c1 (set_reading false c1))|].
  etrans; [apply steady_close_idle|]. by apply steady_same.
Qed.

Lemma steady_read_head c : steady c (read_loop_head hooks c).2.
Proof. unfold read_loop_head. repeat case_match; try done; apply steady_read_exit. Qed.

Lemma steady_read_resume io c pc c' : read_loop_resume hooks io c = Some (pc, c') → steady c c'.
Proof.
  unfold read_loop_resume. destruct (t_read_end io (transport_ c)) as [r t]. cbv zeta.
  assert (∀ b c1, steady c c1 → read_loop_exit hooks b c1 = (pc, c') → steady c c') as Hexit.
  { intros b c1 H1 He. pose proof (steady_read_exit b c1) as Hq. rewrite He in Hq. by etrans. }
  assert (steady c (set_transport t c)) as Ht by (by apply steady_same).
  destruct r as [[|b bs]|what]; [intros He%Some_inj; by eapply Hexit, He| |intros He%Some_inj; by eapply Hexit, He].
  set (c1 := notify _ _ _). destruct (push _ (b :: bs)) as [[d fs]|]; [|done]. cbn [mbind option_bind].
  assert (steady c (dispatch_frames hooks fs (set_decoder d c1))) as Hd
    by (etrans; [by apply (steady_same c (set_decoder d c1))|apply steady_dispatch_frames]).
  set (c2 := dispatch_frames _ _ _) in *.
  destruct (decoder_error _); intros He%Some_inj.
  - eapply Hexit, He. etrans; [exact Hd|]. by apply steady_same.
  - pose proof (steady_read_head c2) as Hh. rewrite He in Hh. by etrans.
Qed.

Lemma steady_server_run c c' pc rpc : run hooks c = (c', pc, rpc) → steady c c'.
Proof.
  unfold run. set (c1 := if decide _ then _ else c).
  assert (steady c c1) as H1 by (unfold c1; case_decide; [by apply steady_same|done]).
  destruct (run_receive (write_queue_ c1)) as [pc1 q] eqn:E.
  pose proof (steady_read_head (set_write_queue q c1)) as Hh. destruct (read_loop_head _ _) as [rpc1 c3]. simpl in Hh.
  intros [= <- <- <-]. etrans; [exact H1|]. etrans; [|exact Hh]. split; [by eapply calm_receive|done].
Qed.

Lemma steady_shutdown_finish c : steady c (shutdown_finish hooks c).
Proof.
  unfold shutdown_finish. set (c1 := if negb _ then _ else c).
  assert (steady c c1) as H1 by (unfold c1; case_match; [apply steady_fail_operations|done]).
  etrans; [exact H1|]. etrans; [|apply steady_notify_closed]. by apply steady_same.
Qed.

Lemma steady_shutdown_poll now d c : steady c (shutdown_poll hooks now d c).2.
Proof. unfold shutdown_poll. case_match; [done|apply steady_shutdown_finish]. Qed.

Lemma steady_shutdown start now period c : steady c (shutdown hooks start now period c).2.
Proof.
  unfold shutdown. etrans; [|apply steady_shutdown_poll]. unfold begin_shutdown.
  repeat case_decide; by apply steady_same.
Qed.

Lemma steady_shutdown_resume e now d c : steady c (shutdown_resume hooks e now d c).2.
Proof. unfold shutdown_resume. case_match; [apply steady_shutdown_finish|apply steady_shutdown_poll]. Qed.

(** *** Handler coroutines *)

(** The coroutine at [i] ends. *)
Lemma handler_end_waits i k c :
  tasks_ c !! i = Some k →
  calm (write_queue_ c) (write_queue_ (handler_end i k c)) ∧
  waiting_frames (tasks_ c) ≡ₚ option_list (enqueuing k) ++ waiting_frames (tasks_ (handler_end i k c)).
Proof.
  intros Hi. unfold handler_end. set (c1 := set_running _ _ _ c).
  destruct (steady_close_idle c1) as [Hq Hw]. split; [exact Hq|]. rewrite Hw. simpl. by apply omap_delete_perm.
Qed.

Lemma steady_handler_end i k c : tasks_ c !! i = Some k → enqueuing k = None → steady c (handler_end i k c).
Proof.
  intros Hi Hk. destruct (handler_end_waits i k c Hi) as [Hq Hw]. rewrite Hk in Hw. split; [done|by rewrite Hw].
Qed.

Lemma steady_handler_start i k c :
  tasks_ c !! i = Some k → enqueuing k = None → steady c (handler_start registry i k c).
Proof.
  intros Hi Hk. unfold handler_start. destruct (negb _).
  - set (c1 := (call_operation _ _ c).2). assert (tasks_ c1 = tasks_ c) as Ht
      by (unfold c1, call_operation; by repeat case_match).
    etrans; [apply (steady_call (task_operation k))|]. etrans; [apply (steady_send_error (task_stream k))|].
    apply steady_handler_end; [|done]. simpl. by rewrite Ht.
  - split; [done|]. simpl. unfold waiting_frames. rewrite omap_insert_perm by done.
    by rewrite (omap_delete_perm enqueuing (tasks_ c) i k Hi), Hk.
Qed.

(** The [enqueue] of a response has returned or suspended: who waits then. *)
Lemma handler_enqueue_waits i k f r c :
  tasks_ c !! i = Some k →
  calm (write_queue_ c) (write_queue_ (handler_enqueue i k f r c)) ∧
  waiting_frames (tasks_ (handler_enqueue i k f r c))
    ≡ₚ waits_after f r ++ waiting_frames (delete i (tasks_ c)).
Proof.
  intros Hi. destruct r as [r|]; simpl.
  - destruct (handler_end_waits i k c Hi) as [Hq Hw]. split; [done|].
    unfold waiting_frames in Hw at 1. rewrite (omap_delete_perm enqueuing _ i k Hi) in Hw.
    by apply (inj _) in Hw.
  - split; [done|]. unfold waiting_frames. by rewrite omap_insert_perm.
Qed.

Lemma waits_handler_returned i k (v : msg (rh_response (task_handler k))) c :
  queue_inv (write_queue_ c) → tasks_ c !! i = Some k → enqueuing k = None →
  waits (write_queue_ c) (length (waiting_frames (tasks_ c))) →
  waits (write_queue_ (handler_returned registry i k v c))
    (length (waiting_frames (tasks_ (handler_returned registry i k v c)))).
Proof.
  intros Hq Hi Hk Hn.
  assert (∀ c1, write_queue_ c1 = write_queue_ c → tasks_ c1 = tasks_ c →
    waits (write_queue_ (handler_end i k c1)) (length (waiting_frames (tasks_ (handler_end i k c1))))) as Hend.
  { intros c1 Hq1 Ht1. destruct (steady_handler_end i k c1) as [Hcm Hw]; [by rewrite Ht1|done|].
    rewrite Hw, Ht1. apply Hcm; by rewrite Hq1. }
  unfold handler_returned. destruct (if frame_encode_ok _ then _ else _) as [f0|]; [|by apply Hend].
  assert (write_queue_ (call_operation (task_operation k) (complete "response ready") c).2 = write_queue_ c ∧
    tasks_ (call_operation (task_operation k) (complete "response ready") c).2 = tasks_ c) as [Hq1 Ht1]
    by (unfold call_operation; by repeat case_match).
  destruct (call_operation _ _ c) as [b c1]. simpl in Hq1, Ht1. destruct b; simpl; [|by apply Hend].
  rewrite Hq1. destruct (enqueue _ _) as [r q] eqn:E. set (c2 := set_write_queue q c1).
  destruct (handler_enqueue_waits i k (end_stream f0) r c2) as [Hcm Hw]; [simpl; by rewrite Ht1|].
  rewrite Hw. simpl. rewrite Ht1, length_app. apply Hcm.
  - by destruct (enqueue_spec _ _ _ _ Hq E) as [(? & _) _].
  - rewrite Nat.add_comm. eapply waits_enqueue; [exact Hq|exact E|].
    unfold waiting_frames in Hn. by rewrite (omap_delete_perm enqueuing _ i k Hi), Hk in Hn.
Qed.

Lemma waits_handler_resume i k f what c c' :
  queue_inv (write_queue_ c) → tasks_ c !! i = Some k → enqueuing k = Some f →
  frame_fits (limits_ (write_queue_ c)) f → handler_resume i k f what c = Some c' →
  waits (write_queue_ c) (length (waiting_frames (tasks_ c))) →
  waits (write_queue_ c') (length (waiting_frames (tasks_ c'))).
Proof.
  intros Hq Hi Hk Hf. unfold handler_resume. destruct (enqueue_resume _ _ _) as [[r q]|] eqn:E; [|done]. simpl.
  intros [= <-] Hn. destruct (handler_enqueue_waits i k f r (set_write_queue q c) Hi) as [Hcm Hw].
  rewrite Hw, length_app, Nat.add_comm. apply Hcm.
  - simpl. by destruct Hf as [Hm Hb]; destruct (enqueue_resume_spec _ _ _ _ _ Hq Hm Hb E) as (? & _).
  - eapply waits_resume; [exact Hq|exact Hf|exact E|].
    unfold waiting_frames in Hn. by rewrite (omap_delete_perm enqueuing _ i k Hi), Hk in Hn.
Qed.

End server.

(** ** The composed system *)

Section system.
Context {Ch : Type → Type} `{!Channel Ch} `{!ChannelLaws Ch} {T : Type} `{!Transport T} `{!TransportLaws T}.
Context {Tm : Type} `{!SteadyTimer Tm}.
Context `{!MapBegin} `{!MapBeginLaws} `{!MapTraversal} `{!MapTraversalLaws}.
Context {TypeIndex : Type} `{Countable TypeIndex} {msg : TypeIndex → Type} `{C : !Codec TypeIndex msg}.
Context `{!CodecLaws TypeIndex msg}.
Context (registry : MessageRegistry (TypeIndex := TypeIndex)) (client_hooks server_hooks : DiagnosticsHooks).

Local Abbreviation System := (Duplex (Ch := Ch) (Tm := Tm) (T := T) (msg := msg)).
Local Abbreviation inv := (duplex_inv registry client_hooks server_hooks).
Local Abbreviation step := (dstep registry client_hooks server_hooks).

Record waiters_ok (x : System) : Prop := {
  wk_client : waits (ClientConnection.write_queue_ (dx_client x)) (length (dx_starting x));
  wk_server : waits (write_queue_ (dx_server x)) (length (waiting_frames (tasks_ (dx_server x))));
}.

Lemma client_queue_inv (x : System) : inv x → queue_inv (ClientConnection.write_queue_ (dx_client x)).
Proof. intros Hx. apply (ck_queue _ _ (di_client_ok _ _ _ _ Hx)). Qed.

Lemma server_queue_inv (x : System) : inv x → queue_inv (write_queue_ (dx_server x)).
Proof. intros Hx. apply (sk_queue _ _ _ _ (di_server_ok _ _ _ _ Hx)). Qed.

#[local] Hint Resolve client_queue_inv server_queue_inv : rill.

(** Steps in which nobody starts or stops waiting. *)
Lemma client_waiters (x x' : System) :
  inv x → calm (ClientConnection.write_queue_ (dx_client x)) (ClientConnection.write_queue_ (dx_client x')) →
  dx_starting x' = dx_starting x → dx_server x' = dx_server x → waiters_ok x → waiters_ok x'.
Proof.
  intros Hx Hc Hs Hv [Hw Hw']. split; rewrite ?Hs, ?Hv; [|done]. by apply Hc; [apply client_queue_inv|].
Qed.

Lemma server_waiters (x x' : System) :
  inv x → steady (dx_server x) (dx_server x') →
  dx_starting x' = dx_starting x → dx_client x' = dx_client x → waiters_ok x → waiters_ok x'.
Proof.
  intros Hx [Hc Ht] Hs Hv [Hw Hw']. split; rewrite ?Hs, ?Hv; [done|]. rewrite Ht.
  by apply Hc; [apply server_queue_inv|].
Qed.

Lemma cli_start_waiters ty (v : msg ty) (x : System) :
  inv x → waiters_ok x → waiters_ok (cli_start registry client_hooks ty v x).
Proof.
  intros Hx [Hw Hw']. unfold cli_start.
  pose proof (waits_start registry client_hooks ty v (dx_client x) _ (client_queue_inv _ Hx) Hw) as Hs.
  destruct (start_request _ _ _ _ _) as [r c]. split; simpl; [|done]. rewrite length_app.
  by destruct r.
Qed.

Lemma cli_start_resume_waiters i what (x x' : System) :
  inv x → cli_start_resume i what x = Some x' → waiters_ok x → waiters_ok x'.
Proof.
  intros Hx. unfold cli_start_resume. destruct (dx_starting x !! i) as [[l f]|] eqn:Hi; [|done]. simpl.
  destruct (start_request_resume l f what (dx_client x)) as [[r c]|] eqn:Hr; [|done]. simpl. intros [= <-] [Hw Hw'].
  destruct (Forall_lookup_1 _ _ _ _ (di_starting _ _ _ _ Hx) Hi) as [_ Hfit]. simpl in Hfit.
  split; simpl; [|done]. rewrite length_app, length_delete by (by eexists).
  assert (length (dx_starting x) = S (length (dx_starting x) - 1)) as Hlen
    by (apply lookup_lt_Some in Hi; lia).
  rewrite Hlen in Hw. pose proof (waits_start_resume _ _ _ _ _ _ _ (client_queue_inv _ Hx) Hfit Hr Hw) as Hs.
  by destruct r.
Qed.

Lemma client_step_waiters a (x x' : System) :
  spares_server a = true → inv x → step a x = Some x' → waiters_ok x → waiters_ok x'.
Proof.
  intros Ha Hx Hstep Hw.
  assert (∀ c, calm (ClientConnection.write_queue_ (dx_client x)) (ClientConnection.write_queue_ c) →
    Some (set_client c x) = Some x' → waiters_ok x') as Hcl by (intros c Hc [= <-]; by eapply client_waiters).
  assert (∀ c, ClientConnection.write_queue_ c = ClientConnection.write_queue_ (dx_client x) →
    Some (set_client c x) = Some x' → waiters_ok x') as Hsame by (intros c Hc; apply Hcl; by rewrite Hc).
  destruct a; try done; simpl in Hstep.
  - unfold cli_run in Hstep. destruct (dx_client_run x); try done.
    destruct (ClientConnection.run _ _) as [[c pc] rpc] eqn:E. injection Hstep as <-.
    eapply client_waiters; [exact Hx|by eapply calm_client_run|done..].
  - injection Hstep as <-. by apply cli_start_waiters.
  - by eapply cli_start_resume_waiters.
  - eapply Hsame, Hstep. unfold start_request_deadline. by repeat case_match.
  - unfold timer_handler in Hstep. destruct (ClientConnection.heap_ _ !! l) as [p|]; [|done]. simpl in Hstep.
    destruct (tm_complete _ _) as [t|]; [|done]. simpl in Hstep. set (c1 := modify l _ _) in Hstep.
    eapply Hcl, Hstep. destruct error; [done|]. exact (calm_timeout_pending l c1).
  - eapply Hcl, Hstep. unfold handle_cancel. case_match; [apply calm_cancel_pending|done].
  - eapply Hsame, Hstep. unfold async_wait. by case_match.
  - unfold async_wait_resume in Hstep. destruct (ClientConnection.heap_ _ !! l) as [p|]; [|done]. simpl in Hstep.
    destruct (ch_resume _) as [[r ch]|]; [|done]. simpl in Hstep. eapply Hsame, Hstep. by rewrite cleanup_queue.
  - eapply Hcl, Hstep. unfold handle_destroy. case_match; [apply calm_discard|done].
  - eapply (Hcl (handle_assign h other (dx_client x)).2), Hstep. unfold handle_assign. simpl.
    case_match; [apply calm_discard|done].
  - unfold cli_read in Hstep. destruct (dx_client_read x); try done.
    destruct (decode_read _ _) as [[bytes d] fs]. destruct (link_read _ _ _) as [k|]; [|done]. simpl in Hstep.
    destruct (ClientConnection.read_loop_resume _ _ _) as [[rpc c]|] eqn:E; [|done]. injection Hstep as <-.
    eapply client_waiters; [exact Hx|by eapply calm_read_resume|done..].
  - unfold cli_take in Hstep. pose proof (li_receives _ _ _ _ _ (di_up _ _ _ _ Hx)) as Hone.
    destruct (dx_client_run x); try done. destruct (run_resume _ _) as [[[pc q] t]|] eqn:E; [|done].
    injection Hstep as <-. eapply client_waiters; [exact Hx|by eapply calm_take|done..].
  - destruct (link_transfer _ _) as [k|]; [|done]. injection Hstep as <-. by eapply client_waiters.
  - unfold cli_written in Hstep. destruct (dx_client_run x) as [| |f|]; try done.
    destruct (link_written _ _) as [k|]; [|done]. simpl in Hstep.
    destruct (run_written f io _ _) as [[[pc q] t] es] eqn:E. injection Hstep as <-.
    eapply client_waiters; [exact Hx|by eapply calm_written|done..].
  - eapply Hsame, Hstep. unfold ClientConnection.shutdown. by rewrite shutdown_poll_queue, begin_shutdown_queue.
  - eapply Hsame, Hstep. unfold ClientConnection.shutdown_resume.
    case_match; [apply shutdown_finish_queue|apply shutdown_poll_queue].
  - destruct (link_transfer _ _) as [k|]; [|done]. injection Hstep as <-. by eapply client_waiters.
Qed.

Lemma server_step_waiters a (x x' : System) :
  spares_server a = false → inv x → step a x = Some x' → waiters_ok x → waiters_ok x'.
Proof.
  intros Ha Hx Hstep Hw.
  assert (∀ c, steady (dx_server x) c → Some (set_server c x) = Some x' → waiters_ok x') as Hsv
    by (intros c Hc [= <-]; by eapply server_waiters).
  destruct a; try done; simpl in Hstep.
  - unfold srv_run in Hstep. destruct (dx_server_run x); try done.
    destruct (run _ _) as [[c pc] rpc] eqn:E. injection Hstep as <-.
    eapply server_waiters; [exact Hx|by eapply steady_server_run|done..].
  - eapply Hsv, Hstep. apply steady_same; unfold handle; by case_match.
  - unfold srv_task_start in Hstep. destruct (tasks_ _ !! i) as [k|] eqn:Hi; [|done]. simpl in Hstep.
    destruct (task_pc k) eqn:Hpc; try done. eapply Hsv, Hstep. apply steady_handler_start; [done|].
    unfold enqueuing. by rewrite Hpc.
  - unfold srv_returned in Hstep. case_decide as Hd; [|done]. destruct Hd as [Hi Hpc]. injection Hstep as <-.
    destruct Hw as [Hw Hw']. split; simpl; [done|]. apply waits_handler_returned; eauto with rill.
    unfold enqueuing. by rewrite Hpc.
  - unfold srv_threw in Hstep. destruct (tasks_ _ !! i) as [k|] eqn:Hi; [|done]. simpl in Hstep.
    destruct (task_pc k) eqn:Hpc; try done. eapply Hsv, Hstep. apply steady_handler_end; [done|].
    unfold enqueuing. by rewrite Hpc.
  - unfold srv_task_resume in Hstep. destruct (tasks_ _ !! i) as [k|] eqn:Hi; [|done]. simpl in Hstep.
    destruct (task_pc k) as [| |f] eqn:Hpc; try done. destruct (handler_resume _ _ _ _ _) as [c|] eqn:E; [|done].
    injection Hstep as <-. destruct Hw as [Hw Hw']. split; simpl; [done|].
    eapply waits_handler_resume; [by apply server_queue_inv|exact Hi|unfold enqueuing; by rewrite Hpc| |exact E|done].
    eapply (vi_fits _ _ (di_server _ _ _ _ Hx)); [by eapply list_elem_of_lookup_2|done].
  - unfold srv_read in Hstep. destruct (dx_server_read x); try done.
    destruct (decode_read _ _) as [[bytes d] fs]. destruct (link_read _ _ _) as [k|]; [|done]. simpl in Hstep.
    destruct (read_loop_resume _ _ _) as [[rpc c]|] eqn:E; [|done]. injection Hstep as <-.
    eapply server_waiters; [exact Hx|by eapply steady_read_resume|done..].
  - unfold srv_take in Hstep. pose proof (li_receives _ _ _ _ _ (di_down _ _ _ _ Hx)) as Hone.
    destruct (dx_server_run x); try done. destruct (run_resume _ _) as [[[pc q] t]|] eqn:E; [|done].
    injection Hstep as <-. eapply server_waiters; [exact Hx|split; [by eapply calm_take|done]|done..].
  - unfold srv_written in Hstep. destruct (dx_server_run x) as [| |f|]; try done.
    destruct (link_written _ _) as [k|]; [|done]. simpl in Hstep.
    destruct (run_written f io _ _) as [[[pc q] t] es] eqn:E. injection Hstep as <-.
    eapply server_waiters; [exact Hx|split; [by eapply calm_written|done]|done..].
  - eapply Hsv, Hstep. apply steady_shutdown.
  - eapply Hsv, Hstep. apply steady_shutdown_resume.
Qed.

Lemma dstep_waiters a (x x' : System) : inv x → step a x = Some x' → waiters_ok x → waiters_ok x'.
Proof.
  destruct (spares_server a) eqn:Ha; [by apply client_step_waiters|by apply server_step_waiters].
Qed.

Lemma new_duplex_waiters ct st climits slimits maximum :
  waiters_ok (new_duplex client_hooks server_hooks ct st climits slimits maximum).
Proof. split; simpl; apply waits_new. Qed.

Lemma dsteps_waiters actions (x x' : System) :
  inv x → waiters_ok x → dsteps registry client_hooks server_hooks actions x = Some x' → waiters_ok x'.
Proof.
  revert x. induction actions as [|a actions IH]; intros x Hx Hw; simpl; [by intros [= <-]|].
  destruct (step a x) as [x1|] eqn:E; [|done]. simpl.
  apply IH; [exact (dstep_inv _ _ _ _ _ _ Hx E)|exact (dstep_waiters _ _ _ Hx E Hw)].
Qed.

End system.
