(* ===== verification/ClientQueue.v ===== *)
(** * The client's write queue stays open while it is needed

    In the composed system: the client's queue is closed only when its read loop has ended or
    its writer has failed. *)

From S2P Require Import Prelude Identifiers Status Frame FrameCodec FrameDecoder ProtocolViolation.
From S2P Require Import Lifecycle Diagnostics Operation StreamIdAllocator Codec MessageRegistry MessageCodec.
From S2P Require Import Transport Channel Timer WriteQueue Link.
From S2P Require Import ServerConnection.
From S2P Require Import ClientTraffic.
From S2P Require Import ServerTraffic.
From S2P Require Import Duplex.
From S2P Require Import DuplexQueue.
From S2P Require Import Waiters.
From S2P Require Import ClientConnection.

Local Open Scope Z_scope.

#[local] Arguments encode_frame : simpl never.

Section client.
Context {Ch : Type → Type} `{!Channel Ch} {T : Type} `{!Transport T}.
Context {Tm : Type} `{!SteadyTimer Tm} `{!MapBegin}.
Context {TypeIndex : Type} `{Countable TypeIndex} {msg : TypeIndex → Type} `{C : !Codec TypeIndex msg}.
Context (registry : MessageRegistry (TypeIndex := TypeIndex)) (hooks : DiagnosticsHooks).
Implicit Types c : ClientConnection (Ch := Ch) (Tm := Tm) (T := T).

Local Abbreviation shut c := (closed_ (write_queue_ c)).

Lemma timeout_pending_shut l c : shut (timeout_pending l c) = shut c.
Proof.
  unfold timeout_pending. pose proof (call_operation_queue l (timeout "operation deadline exceeded") c) as Hq.
  destruct (call_operation _ _ c) as [[] c1]; simpl in *; [|by rewrite Hq].
  rewrite cleanup_queue, <-Hq. apply try_enqueue_closed.
Qed.

Lemma cancel_pending_shut l m c : shut (cancel_pending l m c).2 = shut c.
Proof.
  unfold cancel_pending. pose proof (call_operation_queue l (cancel m) c) as Hq.
  destruct (call_operation _ _ c) as [[] c1]; simpl in *; [|by rewrite Hq].
  rewrite cleanup_queue, <-Hq. apply try_enqueue_closed.
Qed.

Lemma discard_shut l c : shut (discard_pending l c) = shut c.
Proof.
  unfold discard_pending. rewrite cleanup_queue. destruct (negb _); [|done]. simpl.
  rewrite <-(call_operation_queue l (cancel "operation handle released") c). apply try_enqueue_closed.
Qed.

Lemma dispatch_shut f c : shut (dispatch hooks f c) = shut c.
Proof.
  unfold dispatch. destruct (negb _); [by rewrite fail_connection_queue|].
  destruct (pending_ c !! _) as [l|]; [|by rewrite fail_connection_queue].
  case_decide; [by rewrite fail_connection_queue|].
  destruct (has_flag _ FrameFlags.cancel); [rewrite mark_terminal_queue; apply cancel_pending_shut|].
  destruct (has_flag _ FrameFlags.error).
  - destruct (decode_error_status f) as [st|]; [|by rewrite fail_connection_queue].
    rewrite mark_terminal_queue, cleanup_queue. by rewrite <-(call_operation_queue l (fail_op st "peer rejected the operation") c).
  - pose proof (call_operation_queue l (complete "response received") c) as Hq.
    destruct (call_operation _ _ c) as [b c1]. simpl in Hq.
    destruct b; cbn [negb]; [|by rewrite fail_connection_queue, Hq].
    rewrite mark_terminal_queue, cleanup_queue. by rewrite <-Hq.
Qed.

Lemma dispatch_frames_shut fs c : shut (dispatch_frames hooks fs c) = shut c.
Proof.
  revert c. induction fs as [|f fs IH]; intros c; [done|]. simpl. set (c1 := notify _ _ c).
  pose proof (dispatch_shut f c1) as Hd. change (shut c1) with (shut c) in Hd.
  case_match; [done|]. by rewrite IH.
Qed.

Lemma read_head_shut c pc c' :
  read_loop_head hooks c = (pc, c') → pc = ReadEnded ∨ pc = ReadWaiting ∧ shut c' = shut c.
Proof. unfold read_loop_head, read_loop_exit. repeat case_match; intros [= <- <-]; auto. Qed.

Lemma read_resume_shut io c pc c' :
  read_loop_resume hooks io c = Some (pc, c') → pc = ReadEnded ∨ pc = ReadWaiting ∧ shut c' = shut c.
Proof.
  unfold read_loop_resume. destruct (t_read_end io (transport_ c)) as [r t]. cbv zeta.
  destruct r as [[|b bs]|what]; [intros [= <- _]; by left| |intros [= <- _]; by left].
  set (c1 := notify _ _ _). destruct (push _ (b :: bs)) as [[d fs]|]; [|done]. cbn [mbind option_bind].
  pose proof (dispatch_frames_shut fs (set_decoder d c1)) as Hd. set (c2 := dispatch_frames _ _ _) in *.
  destruct (decoder_error _); [intros [= <- _]; by left|]. intros He%Some_inj.
  destruct (read_head_shut _ _ _ He) as [|[? Hc]]; [by left|right]. split; [done|]. by rewrite Hc, Hd.
Qed.

Lemma start_shut ty (v : msg ty) c : shut (start_request registry hooks ty v c).2 = shut c.
Proof.
  unfold start_request. destruct (_ || _); [done|]. destruct (allocate _) as [al ids].
  destruct (allocation_stream al) as [s|]; [|done]. cbv zeta. destruct (if frame_encode_ok _ then _ else _) as [f|]; [|done].
  destruct (enqueue f _) as [r q] eqn:E. simpl in E.
  rewrite (proj1 (start_enqueue_queue _ f r _)). simpl. by eapply enqueue_closed.
Qed.

Lemma start_resume_shut l f what c r c' :
  start_request_resume l f what c = Some (r, c') → shut c' = shut c.
Proof.
  unfold start_request_resume. destruct (enqueue_resume _ _ _) as [[r1 q]|] eqn:E; [|done]. simpl. intros [= Hs].
  pose proof (proj1 (start_enqueue_queue l f r1 (set_write_queue q c))) as Hq. rewrite Hs in Hq. simpl in Hq.
  rewrite Hq. by eapply enqueue_resume_closed.
Qed.

End client.

Section system.
Context {Ch : Type → Type} `{!Channel Ch} {T : Type} `{!Transport T} {Tm : Type} `{!SteadyTimer Tm}.
Context `{!MapBegin} `{!ServerConnection.MapTraversal}.
Context {TypeIndex : Type} `{Countable TypeIndex} {msg : TypeIndex → Type} `{C : !Codec TypeIndex msg}.
Context (registry : MessageRegistry (TypeIndex := TypeIndex)) (client_hooks server_hooks : DiagnosticsHooks).

Local Abbreviation System := (Duplex (Ch := Ch) (Tm := Tm) (T := T) (msg := msg)).
Local Abbreviation step := (dstep registry client_hooks server_hooks).

Record client_open (x : System) : Prop := {
  co_started : dx_client_run x = RunNotStarted → dx_client_read x = ReadNotStarted;
  co_closed : closed_ (write_queue_ (dx_client x)) = true →
    dx_client_read x = ReadEnded ∨ writer_failed (dx_client_run x);
}.

(** The loops stay where they are, and so does the queue. *)
Lemma client_open_same (x x' : System) :
  closed_ (write_queue_ (dx_client x')) = closed_ (write_queue_ (dx_client x)) →
  dx_client_run x' = dx_client_run x → dx_client_read x' = dx_client_read x → client_open x → client_open x'.
Proof. intros Hc Hr Hp [Hs Ho]. split; by rewrite ?Hc, ?Hr, ?Hp. Qed.

(** The read loop has gone on. *)
Lemma client_open_read (x x' : System) :
  dx_client_read x' = ReadEnded ∨
    dx_client_read x' = ReadWaiting ∧ closed_ (write_queue_ (dx_client x')) = closed_ (write_queue_ (dx_client x)) →
  dx_client_read x ≠ ReadEnded → dx_client_run x' ≠ RunNotStarted →
  (writer_failed (dx_client_run x) → writer_failed (dx_client_run x')) → client_open x → client_open x'.
Proof.
  intros Hr Hne Hns Hf [Hs Ho]. split; [done|]. intros Hc. destruct Hr as [|[_ Hcl]]; [by left|]. right.
  rewrite Hcl in Hc. destruct (Ho Hc); [done|auto].
Qed.

Lemma client_run_open (x x' : System) : cli_run client_hooks x = Some x' → client_open x → client_open x'.
Proof.
  unfold cli_run. destruct (dx_client_run x) eqn:Hpc; try done. destruct (run _ _) as [[c pc] rpc] eqn:E.
  intros [= <-] Ho. pose proof (co_started _ Ho Hpc) as Hnot. revert E. unfold run. set (c1 := if decide _ then _ else _).
  assert (write_queue_ c1 = write_queue_ (dx_client x)) as Hq by (unfold c1; by case_decide).
  destruct (run_receive (write_queue_ c1)) as [pc1 q] eqn:Er. injection Er as <- <-.
  destruct (read_loop_head _ _) as [rpc1 c3] eqn:Hh. intros [= <- <- <-].
  eapply (client_open_read x); simpl; [|by rewrite Hnot|done|by rewrite Hpc; intros (r & ? & _)|done].
  destruct (read_head_shut _ _ _ _ Hh) as [|[? Hc]]; [by left|right]. split; [done|]. rewrite Hc. simpl. by rewrite Hq.
Qed.

Lemma client_take_open (x x' : System) : cli_take x = Some x' → client_open x → client_open x'.
Proof.
  unfold cli_take. destruct (dx_client_run x) eqn:Hpc; try done.
  destruct (run_resume _ _) as [[[pc q] t]|] eqn:Hr; [|done]. simpl. intros [= <-] [Hst Hcl].
  split; simpl; [intros Hn; by destruct (run_resume_pc _ _ _ _ _ Hr Hn)|]. intros Hclosed.
  assert (closed_ (write_queue_ (dx_client x)) = true → dx_client_read x = ReadEnded) as Hcl'
    by (intros Hc; destruct (Hcl Hc) as [|(r & ? & _)]; [done|congruence]).
  revert Hr. unfold run_resume. destruct (ch_resume _) as [[[f|] ch]|]; [|intros [= <- <- <-]; left; by apply Hcl'|done].
  destruct (t_write_begin _) as [what|]; intros [= <- <- <-]; [right; by eexists|left; by apply Hcl'].
Qed.

Lemma client_written_open io (x x' : System) : cli_written io x = Some x' → client_open x → client_open x'.
Proof.
  unfold cli_written. destruct (dx_client_run x) as [| |f|] eqn:Hpc; try done.
  destruct (link_written _ _) as [up|]; [|done]. simpl.
  destruct (run_written f io _ _) as [[[pc q] t] es] eqn:Hw. intros [= <-] [Hst Hcl].
  split; simpl; [intros Hn; by destruct (run_written_pc _ _ _ _ _ _ _ _ Hw Hn)|]. intros Hclosed. revert Hw. unfold run_written.
  destruct (t_write_end _ _) as [[|what] t1]; intros [= <- <- <- <-]; [|right; by eexists].
  left. destruct (Hcl Hclosed) as [|(r & ? & _)]; [done|congruence].
Qed.

(** The actions that leave the client alone. *)
Definition spares_client (a : Action (msg := msg)) : bool :=
  negb (spares_server a) || match a with ServerTransfer _ => true | _ => false end.

Lemma spares_client_spec a (x x' : System) :
  spares_client a = true → step a x = Some x' →
  dx_client x' = dx_client x ∧ dx_client_run x' = dx_client_run x ∧ dx_client_read x' = dx_client_read x.
Proof.
  destruct a; try done; intros _; simpl;
    unfold srv_run, srv_task_start, srv_returned, srv_threw, srv_task_resume, srv_read, srv_take, srv_written;
    intros Hstep; by repeat (case_match || simplify_option_eq).
Qed.

Lemma dstep_client_open a (x x' : System) : step a x = Some x' → client_open x → client_open x'.
Proof.
  intros Hstep Ho. destruct (spares_client a) eqn:Ha.
  { destruct (spares_client_spec _ _ _ Ha Hstep) as (Hc & ? & ?). eapply client_open_same, Ho; by rewrite ?Hc. }
  assert (∀ c, closed_ (write_queue_ c) = closed_ (write_queue_ (dx_client x)) →
    Some (set_client c x) = Some x' → client_open x') as Hcl by (intros c Hc [= <-]; by eapply client_open_same).
  destruct a; try done; simpl in Hstep.
  - by eapply client_run_open.
  - injection Hstep as <-. eapply client_open_same, Ho; unfold cli_start; destruct (start_request _ _ _ _ _) as [r c] eqn:E; try done.
    simpl. pose proof (start_shut registry client_hooks ty v (dx_client x)) as Hs. by rewrite E in Hs.
  - unfold cli_start_resume in Hstep. destruct (dx_starting x !! i) as [[l f]|]; [|done]. simpl in Hstep.
    destruct (start_request_resume l f what (dx_client x)) as [[r c]|] eqn:Hr; [|done]. injection Hstep as <-.
    eapply client_open_same, Ho; try done. by eapply start_resume_shut.
  - eapply Hcl, Hstep. unfold start_request_deadline. by repeat case_match.
  - unfold timer_handler in Hstep. destruct (heap_ _ !! l) as [p|]; [|done]. simpl in Hstep.
    destruct (tm_complete _ _) as [t|]; [|done]. simpl in Hstep. set (c1 := modify l _ _) in Hstep.
    eapply Hcl, Hstep. destruct error; [done|]. apply (timeout_pending_shut l c1).
  - eapply Hcl, Hstep. unfold handle_cancel. case_match; [apply cancel_pending_shut|done].
  - eapply Hcl, Hstep. unfold async_wait. by case_match.
  - unfold async_wait_resume in Hstep. destruct (heap_ _ !! l) as [p|]; [|done]. simpl in Hstep.
    destruct (ch_resume _) as [[r ch]|]; [|done]. simpl in Hstep. eapply Hcl, Hstep. by rewrite cleanup_queue.
  - eapply Hcl, Hstep. unfold handle_destroy. case_match; [apply discard_shut|done].
  - eapply (Hcl (handle_assign h other (dx_client x)).2), Hstep. unfold handle_assign. simpl.
    case_match; [apply discard_shut|done].
  - unfold cli_read in Hstep. destruct (dx_client_read x) eqn:Hw; try done.
    destruct (decode_read _ _) as [[bytes d] fs]. destruct (link_read _ _ _) as [k|]; [|done]. simpl in Hstep.
    destruct (read_loop_resume _ _ _) as [[rpc c]|] eqn:E; [|done]. injection Hstep as <-.
    eapply (client_open_read x); simpl; [by eapply read_resume_shut|congruence| |done|done].
    intros Hn. pose proof (co_started _ Ho Hn). congruence.
  - by eapply client_take_open.
  - destruct (link_transfer _ _) as [k|]; [|done]. injection Hstep as <-. by eapply client_open_same, Ho.
  - by eapply client_written_open.
  - eapply Hcl, Hstep. unfold shutdown. by rewrite shutdown_poll_queue, begin_shutdown_queue.
  - eapply Hcl, Hstep. unfold shutdown_resume. destruct error; cbn [snd]; by rewrite ?shutdown_finish_queue, ?shutdown_poll_queue.
Qed.

Lemma dsteps_client_open actions (x x' : System) :
  client_open x → dsteps registry client_hooks server_hooks actions x = Some x' → client_open x'.
Proof.
  revert x. induction actions as [|a actions IH]; intros x Hx; simpl; [by intros [= <-]|].
  destruct (step a x) as [x1|] eqn:E; [|done]. simpl. apply IH. exact (dstep_client_open _ _ _ E Hx).
Qed.

Lemma new_duplex_client_open ct st climits slimits maximum :
  client_open (new_duplex (msg := msg) client_hooks server_hooks ct st climits slimits maximum).
Proof. by split. Qed.

End system.
