(* ===== verification/Progress.v ===== *)
(** * Everything sent arrives

    Progress of the composed system, over TCP transports: the steps of the network - a writer
    takes a frame, the socket accepts bytes, a write completes, the peer's socket delivers
    bytes, a coroutine that waited for space in a queue goes on - cannot go on for ever by
    themselves, whatever order they come in, and as long as both connections are up they
    cannot stop before every frame, in the queues or waiting for space there, has been decoded
    at the other end. *)

From Stdlib Require Import Wellfounded.Wellfounded Relations.Relation_Operators.
From S2P Require Import Prelude Identifiers Status Frame FrameCodec FrameDecoder ProtocolViolation.
From S2P Require Import Lifecycle Diagnostics Operation StreamIdAllocator Codec MessageRegistry MessageCodec.
From S2P Require Import Transport Channel Timer WriteQueue Link.
From S2P Require Import ServerConnection.
From S2P Require Import ClientConnection.
From S2P Require Import ServerTraffic.
From S2P Require Import ClientTraffic.
From S2P Require Import Duplex.
From S2P Require Import DuplexQueue.
From S2P Require Import Waiters.
From S2P Require Import ClientQueue.

Local Open Scope Z_scope.

#[local] Arguments encode_frame : simpl never.

(** ** One direction *)

Section direction.
Context {Ch : Type → Type} `{!Channel Ch} `{!ChannelLaws Ch} {T : Type} `{!Transport T} `{!TransportLaws T}.
Implicit Types (q : WriteQueue (Ch := Ch)) (t : T).

(** Where the writer is, its queue, the frames of the coroutines that wait for space in it,
    and the bytes between it and the peer's decoder. *)
Record Direction := mkDirection {
  dr_run : RunPc;
  dr_queue : WriteQueue (Ch := Ch);
  dr_waiting : list Frame;
  dr_link : Link;
}.

Implicit Types d : Direction.

(** The steps that bring the frames forward. *)
Inductive forward : Direction → Direction → Prop :=
  | forward_take q ws k t pc q' t' :
      run_resume q t = Some (pc, q', t') →
      forward (mkDirection RunReceiving q ws k) (mkDirection pc q' ws (link_start pc k))
  | forward_transfer pc q ws k n k' :
      n ≠ 0%nat → link_transfer n k = Some k' →
      forward (mkDirection pc q ws k) (mkDirection pc q ws k')
  | forward_written f q ws k pc q' k' :
      link_written WriteDone k = Some k' → run_receive q = (pc, q') →
      forward (mkDirection (RunWriting f) q ws k) (mkDirection pc q' ws k')
  | forward_read pc q ws k bytes fs k' :
      bytes ≠ [] → link_read bytes fs k = Some k' →
      forward (mkDirection pc q ws k) (mkDirection pc q ws k')
  | forward_resume pc q ws k f rest what r q1 q' ws' :
      ws ≡ₚ f :: rest → frame_fits (limits_ q) f → enqueue_resume f what q = Some (r, q1) →
      q' = q1 ∨ q' = close q1 → ws' ≡ₚ waits_after f r ++ rest →
      forward (mkDirection pc q ws k) (mkDirection pc q' ws' k).

(** What the steps of the other direction do to this one: the reader closes the queue at
    most, or it puts further frames into it. *)
Inductive quiet : Direction → Direction → Prop :=
  | quiet_same d : quiet d d
  | quiet_close pc q ws k : quiet (mkDirection pc q ws k) (mkDirection pc (close q) ws k).

Inductive grows : Direction → Direction → Prop :=
  | grows_more pc q q' ws ws' k more :
      (closed_ q = true → closed_ q' = true) → pending q' = pending q ++ more → ws' ≡ₚ ws →
      grows (mkDirection pc q ws k) (mkDirection pc q' ws' k).

Lemma grows_same d : grows d d.
Proof. destruct d. by eapply (grows_more _ _ _ _ _ _ []); rewrite ?app_nil_r. Qed.

Record dir_inv (P : Frame → Prop) d (dec : FrameDecoder) : Prop := {
  dv_queue : queue_inv (dr_queue d);
  dv_link : link_inv P (dr_run d) (dr_queue d) (dr_link d) dec;
  dv_waits : waits (dr_queue d) (length (dr_waiting d));
}.

(** ** Termination *)

(** What is still to be done: for each frame in the queue or waiting for it, for the frame
    being written, for the bytes on the wire, and for the wake-ups that have not been used. *)
Definition out_cost (f : Frame) : nat := 2 * length (encode_frame f) + 3.

Definition run_cost (pc : RunPc) (k : Link) : nat :=
  match lk_current k with
  | Some f => 2 * (length (encode_frame f) - lk_partial k) + 2
  | None => match pc with RunReceiving => 1 | _ => 0 end
  end.

Definition signals q : nat := length (view_pending (ch_view (space_channel_ q))).

Definition dir_measure d : nat :=
  sum_list_with out_cost (pending (dr_queue d)) + sum_list_with out_cost (dr_waiting d)
  + signals (dr_queue d) + run_cost (dr_run d) (dr_link d)
  + (length (lk_wire (dr_link d)) - lk_read (dr_link d)).

Lemma signals_close q : queue_inv q → signals (close q) = signals q.
Proof.
  intros Hq. unfold signals. simpl. rewrite ch_view_close.
  by destruct (view_close_spec _ (qi_space _ Hq)) as (_ & _ & _ & -> & _).
Qed.

Lemma close_pending q : queue_inv q → pending (close q) = pending q.
Proof. intros Hq. by destruct (close_inv q Hq) as (_ & ? & _). Qed.

(** Taking a frame signals space once. *)
Lemma take_signals q t pc q' t' :
  queue_inv q → run_resume q t = Some (pc, q', t') → (signals q' ≤ S (signals q))%nat.
Proof.
  intros Hq. unfold run_resume.
  assert (signals (mkQueue (limits_ q) (queued_bytes_ q) (closed_ q) (channel_ q)
    (ch_try_send tt (space_channel_ q)).2 (write_observer_ q)) ≤ S (signals q))%nat as Hsend.
  { unfold signals. simpl. destruct (ch_try_send tt (space_channel_ q)) as [b sp] eqn:E. simpl.
    apply try_send_view in E. destruct b.
    - destruct (view_try_send_true _ _ _ (qi_space _ Hq) E) as (_ & _ & _ & _ & -> & _).
      rewrite length_app. simpl. lia.
    - destruct (view_try_send_false _ _ _ E) as [-> _]. lia. }
  destruct (ch_resume (channel_ q)) as [[[f|] c]|]; [|intros [= <- <- <-]; unfold signals; simpl; lia|done].
  destruct (t_write_begin t); intros [= <- <- <-]; [|exact Hsend]. unfold signals in *. simpl in *.
  rewrite ch_view_close. destruct (view_close_spec (ch_view (ch_try_send tt (space_channel_ q)).2))
    as (_ & _ & _ & -> & _); [|done].
  destruct (ch_try_send tt (space_channel_ q)) as [b sp] eqn:E. simpl. apply try_send_view in E.
  by destruct (view_try_send_signal _ _ _ _ (qi_space _ Hq) E).
Qed.

(** A wake-up is used. *)
Lemma resume_cost f what q r q' :
  queue_inv q → frame_fits (limits_ q) f → enqueue_resume f what q = Some (r, q') →
  (sum_list_with out_cost (accepted_by f r) + sum_list_with out_cost (waits_after f r) + signals q'
    < out_cost f + signals q)%nat.
Proof.
  intros Hq [Hm Hb]. unfold enqueue_resume. destruct (ch_resume (space_channel_ q)) as [[u space]|] eqn:Hr; [|done].
  apply resume_view in Hr as (_ & Hw & Hc & _ & Hp & _ & _); [|apply Hq].
  pose proof (queue_inv_space q space Hq Hw ltac:(by rewrite Hc, (qi_space_closed _ Hq))) as Hq1.
  set (q1 := mkQueue _ _ _ _ space _) in *. assert (signals q = length (option_list u) + signals q1)%nat as ->
    by (unfold signals; by rewrite Hp, length_app).
  destruct u as [u|]; [|intros [= <- <-]; simpl; unfold out_cost; lia].
  intros [= E]. destruct (enqueue_round_spec f q1 r q' Hq1 Hm Hb E) as [(_ & _ & _ & _ & _ & _ & Hsp) _].
  destruct r as [r|]; simpl.
  - unfold signals at 1. rewrite Hsp. unfold signals. destruct (write_ok r); simpl; lia.
  - assert (signals q' = signals q1) as ->; [|lia]. revert E. unfold enqueue_round.
    destruct (try_enqueue_frame f q1) as [res q2] eqn:Ht.
    destruct (try_enqueue_frame_spec _ _ _ _ Hq1 Ht) as (Hq2 & _ & _ & Hs & _).
    repeat case_match; intros [= <-]; unfold signals; simpl.
    destruct (async_receive_view (space_channel_ q2) (qi_space _ Hq2)) as (_ & _ & _ & -> & _). by rewrite Hs.
Qed.

Lemma sum_list_perm (ws ws' : list Frame) : ws ≡ₚ ws' → sum_list_with out_cost ws = sum_list_with out_cost ws'.
Proof. induction 1; simpl; lia. Qed.

Lemma forward_measure P d d' dec :
  dir_inv P d dec → forward d d' → (dir_measure d' < dir_measure d)%nat.
Proof.
  intros [Hq Hl _] Hf. destruct Hf as [q ws k t pc q' t' Hr|pc q ws k n k' Hn Hk|f q ws k pc q' k' Hk Hr
    |pc q ws k bytes fs k' Hne Hk|pc q ws k f rest what r q1 q' ws' Hws Hfit Hr Hq' Hws'];
    unfold dir_measure, run_cost; cbn [dr_run dr_queue dr_waiting dr_link] in *.
  - destruct (li_run _ _ _ _ _ Hl) as [Hcur _]. pose proof (take_signals _ _ _ _ _ Hq Hr).
    destruct (run_resume_spec q t pc q' t' Hq (li_receives _ _ _ _ _ Hl) Hr)
      as (_ & _ & _ & _ & [(f & -> & _ & -> & _)|[(f & what & -> & _ & _ & -> & _)|(-> & _ & _ & _ & -> & -> & _)]]);
      cbn [link_start lk_current lk_partial lk_wire lk_read sum_list_with]; rewrite ?Hcur; unfold out_cost; try lia.
    revert Hr. unfold run_resume. destruct (ch_resume _) as [[[f|] c]|]; [destruct (t_write_begin t); done| |done].
    intros [= <- <-]. unfold signals. simpl. lia.
  - pose proof (li_read _ _ _ _ _ Hl) as Hread. revert Hk. unfold link_transfer.
    destruct (lk_current k) as [f|] eqn:Hc; [|done]. case_decide as Hle; [|done]. intros [= <-].
    cbn [lk_current lk_partial lk_wire lk_read]. rewrite length_app, length_take, length_drop. lia.
  - revert Hk. unfold link_written. destruct (lk_current k) as [f'|] eqn:Hc; [|done]. case_decide; [|done].
    intros [= <-]. destruct (run_receive_spec q pc q' Hq Hr) as (-> & _ & _ & _ & Hs & -> & _).
    unfold signals. rewrite Hs. cbn [lk_current lk_partial lk_wire lk_read]. lia.
  - revert Hk. unfold link_read. case_decide as Hp; [|done]. intros [= <-]. cbn [lk_current lk_partial lk_wire lk_read].
    apply prefix_length in Hp. rewrite length_drop in Hp. assert (length bytes ≠ 0)%nat by (by destruct bytes). lia.
  - destruct (enqueue_resume_spec f what q r q1 Hq (proj1 Hfit) (proj2 Hfit) Hr) as (Hq1 & _ & _ & _ & Hp & _).
    assert (pending q' = pending q1 ∧ signals q' = signals q1) as [-> ->]
      by (destruct Hq' as [-> | ->]; [done|split; [by apply close_pending|by apply signals_close]]).
    pose proof (resume_cost f what q r q1 Hq Hfit Hr). rewrite Hp, (sum_list_perm _ _ Hws), (sum_list_perm _ _ Hws').
    rewrite !sum_list_with_app. cbn [sum_list_with]. lia.
Qed.

Lemma quiet_measure d d' : queue_inv (dr_queue d) → quiet d d' → dir_measure d' = dir_measure d.
Proof.
  intros Hq Hqu. destruct Hqu as [|pc q ws k]; [done|]. unfold dir_measure.
  cbn [dr_run dr_queue dr_waiting dr_link] in *. by rewrite close_pending, signals_close by done.
Qed.

(** ** Nothing is lost on the way *)

(** All frames given to the writer so far: on the wire, being written, or in the queue. *)
Definition handed d : list Frame := lk_line (dr_link d) ++ pending (dr_queue d).

Definition running (pc : RunPc) : bool :=
  match pc with RunReceiving | RunWriting _ => true | RunNotStarted | RunReturned _ => false end.

(** The writer runs and its queue is open. *)
Definition live d : bool := running (dr_run d) && negb (closed_ (dr_queue d)).

Lemma live_spec d : live d = true ↔ running (dr_run d) = true ∧ closed_ (dr_queue d) = false.
Proof. unfold live. by rewrite andb_true_iff, negb_true_iff. Qed.

Lemma transfer_line n k k' : link_transfer n k = Some k' → lk_line k' = lk_line k.
Proof. unfold link_transfer, lk_line. intros Hk. by repeat case_match; simplify_eq/=. Qed.

Lemma written_line k k' : link_written WriteDone k = Some k' → lk_line k' = lk_line k.
Proof.
  unfold link_written, lk_line. destruct (lk_current k) as [f|]; [|done]. case_decide; [|done].
  intros [= <-]. simpl. by rewrite app_nil_r.
Qed.

Lemma read_line bytes fs k k' : link_read bytes fs k = Some k' → lk_line k' = lk_line k.
Proof. unfold link_read. case_decide; [|done]. by intros [= <-]. Qed.

(** A frame that waits for space is accepted, or goes on waiting, unless the queue has been
    closed. *)
Lemma resume_open f what q r q' :
  closed_ q' = false → queue_inv q → frame_fits (limits_ q) f → enqueue_resume f what q = Some (r, q') →
  accepted_by f r ++ waits_after f r = [f].
Proof.
  intros Ho Hq [Hm Hb] E. destruct (enqueue_resume_spec f what q r q' Hq Hm Hb E) as (_ & _ & Hc & _).
  revert E. unfold enqueue_resume. destruct (ch_resume (space_channel_ q)) as [[[u|] space]|] eqn:Hr; [| |done].
  - unfold enqueue_round. set (q1 := mkQueue _ _ _ _ space _). intros [= E].
    destruct (try_enqueue_frame f q1) as [res q2] eqn:Ht. destruct (write_ok res) eqn:Hok.
    { injection E as <- <-. simpl. by rewrite Hok. }
    destruct (closed_ q2) eqn:Hcl; [|by injection E as <- <-]. injection E as <- <-. congruence.
  - intros [= <- <-]. apply resume_view in Hr as (_ & _ & _ & _ & _ & Hn & _); [|apply Hq].
    destruct (Hn eq_refl) as [Hcc _]. rewrite (qi_space_closed _ Hq) in Hcc. simpl in Ho. congruence.
Qed.

Lemma forward_handed P d d' dec :
  dir_inv P d dec → forward d d' → live d' = true →
  live d = true ∧ handed d `prefix_of` handed d' ∧
  handed d' ++ dr_waiting d' ≡ₚ handed d ++ dr_waiting d.
Proof.
  intros [Hq Hl _] Hf. rewrite !live_spec. unfold handed.
  destruct Hf as [q ws k t pc q' t' Hr|pc q ws k n k' Hn Hk|f q ws k pc q' k' Hk Hr
    |pc q ws k bytes fs k' Hne Hk|pc q ws k f rest what r q1 q' ws' Hws Hfit Hr Hq' Hws'];
    cbn [dr_run dr_queue dr_waiting dr_link] in *; intros [Hrun Ho].
  - destruct (li_run _ _ _ _ _ Hl) as [Hcur _].
    destruct (run_resume_spec q t pc q' t' Hq (li_receives _ _ _ _ _ Hl) Hr)
      as (_ & _ & _ & _ & [(f & -> & Hc & Hp & _)|[(f & what & -> & _)|(-> & _)]]); [|done..].
    assert (lk_line (link_start (RunWriting f) k) ++ pending q' = lk_line k ++ pending q) as ->; [|split_and!; [done|congruence|done..]].
    unfold lk_line. rewrite Hcur, Hp. simpl. by rewrite app_nil_r, <-app_assoc.
  - by rewrite (transfer_line _ _ _ Hk).
  - destruct (run_receive_spec q pc q' Hq Hr) as (-> & _ & _ & Hc & _ & -> & _). rewrite (written_line _ _ Hk).
    split_and!; [done|congruence|done..].
  - by rewrite (read_line _ _ _ _ Hk).
  - assert (q' = q1) as -> by (destruct Hq' as [-> | ->]; [done|by simpl in Ho]).
    destruct (enqueue_resume_spec f what q r q1 Hq (proj1 Hfit) (proj2 Hfit) Hr) as (_ & _ & Hc & _ & Hp & _).
    split_and!; [done|congruence|rewrite Hp; by apply prefix_app, prefix_app_r|].
    rewrite Hp, Hws, Hws', <-!app_assoc. do 2 f_equiv. rewrite app_assoc.
    by rewrite (resume_open f what q r q1 Ho Hq Hfit Hr).
Qed.

Lemma quiet_live d d' : quiet d d' → live d' = true → d' = d.
Proof. intros [|pc q ws k]; [done|]. rewrite live_spec. simpl. by intros [_ ?]. Qed.

Lemma grows_handed d d' :
  grows d d' → live d' = true →
  live d = true ∧ handed d `prefix_of` handed d' ∧ handed d ++ dr_waiting d ⊆+ handed d' ++ dr_waiting d'.
Proof.
  intros [pc q q' ws ws' k more Hc Hp Hws]. rewrite !live_spec. unfold handed. cbn [dr_run dr_queue dr_waiting dr_link].
  intros [Hr Ho]. rewrite Hp, app_assoc. split_and!; [done| |by eexists|].
  - destruct (closed_ q); [|done]. rewrite Hc in Ho; done.
  - rewrite Hws, <-(app_assoc _ more). apply submseteq_app; [done|]. by apply submseteq_inserts_l.
Qed.

(** ** Nothing gets stuck *)

(** The writer waits for a frame, there is none, nobody waits to give it one, and everything
    on the wire has been read. *)
Definition drained d : Prop :=
  dr_run d = RunReceiving ∧ pending (dr_queue d) = [] ∧ dr_waiting d = [] ∧
  lk_read (dr_link d) = length (lk_wire (dr_link d)).

Lemma drained_decoded P d dec :
  (∀ f, P f → wire_ok f) → dir_inv P d dec → drained d → lk_decoded (dr_link d) = handed d.
Proof.
  destruct d as [pc q ws k]. intros HP [_ Hl _] (Hpc & Hpe & _ & Hrd). unfold handed. simpl in *. subst pc.
  destruct Hl as [Hline _ _ Hw [Hcur Hpa] _ _ Hdec _]. rewrite Hpe, app_nil_r. rewrite Hrd, firstn_all in Hdec.
  assert (parses default_max_payload_size (lk_wire k) (lk_line k) (Incomplete [])) as Hall.
  { pose proof (parses_encode default_max_payload_size (lk_line k) [] [] (Incomplete [])
      (Forall_impl _ _ _ Hline HP)) as Hp. rewrite !app_nil_r in Hp.
    rewrite Hw, Hcur, Hpa. unfold lk_line in *. rewrite Hcur in *. simpl in *. rewrite !app_nil_r in *.
    apply Hp, parses_short, header_size_pos. }
  by destruct (parses_det _ _ _ _ _ _ Hdec Hall).
Qed.

(** A receive on a channel that holds a message is complete. *)
Lemma done_enabled {A} (c : Ch A) : cv_done (ch_view c) ≠ [] → is_Some (ch_resume c).
Proof.
  intros Hd. pose proof (ch_view_resume c) as Hv. unfold view_resume in Hv.
  destruct (cv_done (ch_view c)); [done|]. destruct (ch_resume c); [by eexists|done].
Qed.

Lemma take_enabled q t :
  queue_inv q → receives (channel_ q) = 1%nat → pending q ≠ [] → is_Some (run_resume q t).
Proof.
  intros Hq Hr Hp. unfold run_resume. destruct (done_enabled (channel_ q)) as [[[f|] c] ->]; [| |by eexists].
  - intros Hd. destruct (qi_chan _ Hq) as [Hw _]. unfold receives, pending, view_pending in *.
    rewrite Hd in Hr, Hp. simpl in Hr, Hp. apply Hp, Hw. lia.
  - destruct (t_write_begin t); by eexists.
Qed.

(** A live writer that is not drained can go on, or somebody who waits for it can, or there
    are bytes to read. *)
Lemma dir_progress P d dec t :
  dir_inv P d dec → live d = true →
  drained d ∨
  (dr_run d = RunReceiving ∧ is_Some (run_resume (dr_queue d) t)) ∨
  (∃ n, n ≠ 0%nat ∧ is_Some (link_transfer n (dr_link d))) ∨
  (∃ f, dr_run d = RunWriting f ∧ is_Some (link_written WriteDone (dr_link d))) ∨
  (∃ bytes, bytes ≠ [] ∧ ∀ fs, is_Some (link_read bytes fs (dr_link d))) ∨
  (dr_waiting d ≠ [] ∧ ∀ f what, is_Some (enqueue_resume f what (dr_queue d))).
Proof.
  destruct d as [pc q ws k]. unfold live, drained. cbn [dr_run dr_queue dr_waiting dr_link].
  intros [Hq [_ _ Hrec _ Hrun Hread _ _ Hpart] [Hn Hw]] [Hpc Hopen]%andb_true_iff.
  cbn [dr_run dr_queue dr_waiting dr_link] in *. apply negb_true_iff in Hopen. destruct pc as [| |f|]; try done.
  - destruct (decide (pending q = [])) as [Hp|Hp]; [|right; left; split; [done|by apply take_enabled]].
    destruct (decide (ws = [])) as [->|Hws].
    + destruct (decide (lk_read k = length (lk_wire k))) as [|Hne]; [by left|]. do 4 right. left.
      exists (drop (lk_read k) (lk_wire k)). split.
      * intros Hd%(f_equal length). rewrite length_drop in Hd. simpl in Hd. lia.
      * intros fs. unfold link_read. by rewrite decide_True.
    + do 5 right. split; [done|]. intros f what. unfold enqueue_resume.
      destruct (Hw ltac:(by destruct ws) Hopen) as [|Hd]; [done|].
      destruct (done_enabled _ Hd) as [[[u|] sp] ->]; by eexists.
  - rewrite Hrun in Hpart. change (concat _) with (encode_frame f ++ []) in Hpart. rewrite app_nil_r in Hpart.
    destruct (decide (lk_partial k = length (encode_frame f))) as [He|Hne].
    + do 3 right. left. exists f. split; [done|]. unfold link_written. by rewrite Hrun, decide_True.
    + right. right. left. exists (length (encode_frame f) - lk_partial k)%nat. split; [lia|].
      unfold link_transfer. rewrite Hrun, decide_True by lia. done.
Qed.

End direction.

(** ** What a client's read loop leaves in its queue *)

Section client_queue.
Context {Ch : Type → Type} `{!Channel Ch} `{!ChannelLaws Ch} {T : Type} `{!Transport T}.
Context {Tm : Type} `{!SteadyTimer Tm} `{!MapBegin}.
Context (hooks : DiagnosticsHooks).
Implicit Types c : ClientConnection (Ch := Ch) (Tm := Tm) (T := T).

(** Only a frame that cancels a request makes the client send something. *)
Lemma dispatch_queue f c :
  has_flag (flags (header f)) FrameFlags.cancel = false → write_queue_ (dispatch hooks f c) = write_queue_ c.
Proof.
  intros Hcan. unfold dispatch. destruct (negb _); [apply fail_connection_queue|].
  destruct (pending_ c !! _) as [l|]; [|apply fail_connection_queue].
  case_decide; [apply fail_connection_queue|]. rewrite Hcan.
  destruct (has_flag _ FrameFlags.error).
  - destruct (decode_error_status f) as [st|]; [|apply fail_connection_queue].
    rewrite mark_terminal_queue, cleanup_queue. apply call_operation_queue.
  - pose proof (call_operation_queue l (complete "response received") c) as Hq.
    destruct (call_operation _ _ c) as [b c1]. simpl in Hq.
    destruct b; cbn [negb]; [|by rewrite fail_connection_queue].
    by rewrite mark_terminal_queue, cleanup_queue.
Qed.

Lemma dispatch_frames_queue fs c :
  Forall (λ f, has_flag (flags (header f)) FrameFlags.cancel = false) fs →
  write_queue_ (dispatch_frames hooks fs c) = write_queue_ c.
Proof.
  intros Hfs. revert c. induction Hfs as [|f fs Hf _ IH]; intros c; [done|]. simpl.
  case_match; [by rewrite dispatch_queue|]. by rewrite IH, dispatch_queue.
Qed.

(** Reading frames that cancel nothing sends nothing. *)
Lemma read_resume_queue io c pc c' bytes d fs :
  decoder_inv (decoder_ c) → read_loop_resume hooks io c = Some (pc, c') →
  decode_read (t_read_end io (transport_ c)).1 (decoder_ c) = (bytes, d, fs) →
  Forall (λ f, has_flag (flags (header f)) FrameFlags.cancel = false) fs →
  write_queue_ c' = write_queue_ c ∨ write_queue_ c' = close (write_queue_ c).
Proof.
  intros Hd. unfold read_loop_resume. destruct (t_read_end io (transport_ c)) as [r t]. cbv zeta. cbn [fst].
  pose proof (read_exit_queue hooks (set_transport t c)) as Hexit.
  destruct r as [bs|what]; cbn [decode_read]; [|intros Hr%Some_inj _ _; rewrite Hr in Hexit; by right].
  destruct (push_inv (decoder_ c) bs Hd) as (d1 & fs1 & Hp & _). rewrite Hp.
  intros Hr [= <- <- <-] Hfs. destruct bs as [|b bs]; [apply Some_inj in Hr; rewrite Hr in Hexit; by right|].
  set (c1 := notify _ _ (set_transport t c)) in Hr. change (decoder_ c1) with (decoder_ c) in Hr.
  rewrite Hp in Hr. cbn [mbind option_bind] in Hr.
  pose proof (dispatch_frames_queue fs1 (set_decoder d1 c1) Hfs) as Hdq.
  set (c2 := dispatch_frames _ _ _) in *. change (write_queue_ c2 = write_queue_ c) in Hdq.
  destruct (decoder_error _); apply Some_inj in Hr; apply (f_equal snd) in Hr; cbn [snd] in Hr; rewrite <-Hr, <-Hdq.
  - right. by rewrite read_exit_queue, fail_connection_queue.
  - apply read_head_queue.
Qed.

End client_queue.

(** ** The composed system *)

Section system.
Context {Ch : Type → Type} `{!Channel Ch} `{!ChannelLaws Ch} {Tm : Type} `{!SteadyTimer Tm}.
Context `{!MapBegin} `{!MapBeginLaws} `{!ServerConnection.MapTraversal} `{!MapTraversalLaws}.
Context {TypeIndex : Type} `{Countable TypeIndex} {msg : TypeIndex → Type} `{C : !Codec TypeIndex msg}.
Context `{!CodecLaws TypeIndex msg}.
Context (registry : MessageRegistry (TypeIndex := TypeIndex)) (client_hooks server_hooks : DiagnosticsHooks).

Local Abbreviation System := (Duplex (Ch := Ch) (Tm := Tm) (T := TcpTransport) (msg := msg)).
Local Abbreviation Act := (Action (msg := msg)).
Local Abbreviation inv := (duplex_inv registry client_hooks server_hooks).
Local Abbreviation step := (dstep registry client_hooks server_hooks).
Local Abbreviation steps := (dsteps registry client_hooks server_hooks).

(** The steps of the writers, of those who wait for them and of the network, as long as
    nothing fails: a writer takes the next frame, a socket accepts bytes, a write completes,
    bytes are delivered to a reader, a suspended [enqueue] goes on. *)
Definition network (a : Act) : bool :=
  match a with
  | ClientTake | ServerTake | ClientWritten IoWritten | ServerWritten IoWritten => true
  | ClientTransfer n | ServerTransfer n => negb (n =? 0)%nat
  | ClientRead (IoRead bytes) | ServerRead (IoRead bytes) => negb (bool_decide (bytes = []))
  | ClientStartResume _ _ | ServerTaskResume _ _ => true
  | _ => false
  end.

Definition net_step (x x' : System) : Prop := ∃ a, network a = true ∧ step a x = Some x'.

Definition up_dir (x : System) : Direction :=
  mkDirection (dx_client_run x) (write_queue_ (dx_client x)) (snd <$> dx_starting x) (dx_up x).

Definition down_dir (x : System) : Direction :=
  mkDirection (dx_server_run x) (ServerConnection.write_queue_ (dx_server x))
    (waiting_frames (ServerConnection.tasks_ (dx_server x))) (dx_down x).

Record sys_ok (x : System) : Prop := {
  so_inv : inv x;
  so_waiters : waiters_ok x;
  so_client : client_open x;
  so_server : queue_open x;
}.

Lemma sys_ok_steps actions (x x' : System) : sys_ok x → steps actions x = Some x' → sys_ok x'.
Proof.
  intros [Hx Hw Hc Hs] Hst. split.
  - exact (dsteps_inv _ _ _ _ _ _ Hx Hst).
  - exact (dsteps_waiters _ _ _ _ _ _ Hx Hw Hst).
  - exact (dsteps_client_open _ _ _ _ _ _ Hc Hst).
  - exact (dsteps_open _ _ _ _ _ _ Hx Hs Hst).
Qed.

Lemma sys_ok_step a (x x' : System) : sys_ok x → step a x = Some x' → sys_ok x'.
Proof. intros Hx Hs. apply (sys_ok_steps [a] x x' Hx). simpl. by rewrite Hs. Qed.

Lemma up_dir_inv (x : System) :
  sys_ok x → dir_inv (up_frame registry (dx_requests x)) (up_dir x) (ServerConnection.decoder_ (dx_server x)).
Proof.
  intros [Hx [Hw _] _ _]. split; simpl; [exact (client_queue_inv _ _ _ _ Hx)|apply (di_up _ _ _ _ Hx)|by rewrite length_fmap].
Qed.

Lemma down_dir_inv (x : System) :
  sys_ok x → dir_inv (down_frame registry (dx_answers x)) (down_dir x) (decoder_ (dx_client x)).
Proof. intros [Hx [_ Hw] _ _]. split; simpl; [exact (server_queue_inv _ _ _ _ Hx)|apply (di_down _ _ _ _ Hx)|done]. Qed.

(** A server never cancels a request. *)
Lemma down_not_cancel A f :
  down_frame (msg := msg) registry A f → has_flag (flags (header f)) FrameFlags.cancel = false.
Proof.
  intros [_ [(s & status & ->)|(a & _ & Hf)]]; [vm_compute; reflexivity|].
  unfold answer_frame, response_frame in Hf. destruct (encode_message_factory registry
    (rh_response (task_handler (an_task a))) (an_value a) (task_stream (an_task a)) FrameType.response)
    as [[f0 Hf0]|(st & m & _ & Hf0)]; rewrite Hf0 in Hf; [|done]. injection Hf as <-.
  destruct (encode_message_success _ _ _ _ _ _ _ _ _ Hf0) as (_ & _ & _ & _ & _ & _ & Hh).
  cbn [end_stream header flags]. rewrite Hh. vm_compute. reflexivity.
Qed.

(** ** Steps *)

(** A read that delivers bytes to the client. *)
Lemma client_read_step bytes (x x' : System) :
  inv x → cli_read client_hooks (IoRead bytes) x = Some x' →
  ∃ fs, link_read bytes fs (dx_down x) = Some (dx_down x') ∧
    dx_up x' = dx_up x ∧ dx_client_run x' = dx_client_run x ∧ dx_starting x' = dx_starting x ∧
    dx_server x' = dx_server x ∧ dx_server_run x' = dx_server_run x ∧ dx_server_read x' = dx_server_read x ∧
    dx_client_read x = ReadWaiting ∧
    read_loop_resume client_hooks (IoRead bytes) (dx_client x) = Some (dx_client_read x', dx_client x') ∧
    (∃ d, decode_read (ReadBytes bytes) (decoder_ (dx_client x)) = (bytes, d, fs)) ∧
    Forall (λ f, has_flag (flags (header f)) FrameFlags.cancel = false) fs.
Proof.
  intros Hx. pose proof (dstep_inv registry client_hooks server_hooks (ClientRead (IoRead bytes)) x x' Hx) as Hx'.
  simpl in Hx'. revert Hx'. unfold cli_read. destruct (dx_client_read x) eqn:Hw; try done.
  cbn [t_read_end TcpTransport_transport tcp_read_end fst].
  destruct (decode_read (ReadBytes bytes) (decoder_ (dx_client x))) as [[bs d] fs] eqn:Hdec.
  assert (bs = bytes) as ->.
  { simpl in Hdec. destruct (push_inv (decoder_ (dx_client x)) bytes (ci_decoder _ _ (di_client _ _ _ _ Hx)))
      as (d1 & fs1 & Hp & _). rewrite Hp in Hdec. by injection Hdec. }
  destruct (link_read bytes fs (dx_down x)) as [down|] eqn:Hk; [|done]. simpl.
  destruct (read_loop_resume client_hooks (IoRead bytes) (dx_client x)) as [[rpc c']|] eqn:Hr; [|done]. simpl.
  intros Hx' [= <-]. specialize (Hx' eq_refl). exists fs. simpl. split_and!; eauto.
  apply Forall_forall. intros f Hf. eapply down_not_cancel, (down_decoded _ _ _ _ f Hx').
  simpl. unfold link_read in Hk. case_decide; [|done]. injection Hk as <-. simpl. apply elem_of_app. by right.
Qed.

(** A read that delivers bytes to the server: it may only send more. *)
Lemma server_read_step bytes (x x' : System) :
  inv x → srv_read server_hooks (IoRead bytes) x = Some x' →
  ∃ fs, link_read bytes fs (dx_up x) = Some (dx_up x') ∧
    dx_down x' = dx_down x ∧ dx_server_run x' = dx_server_run x ∧
    pending (ServerConnection.write_queue_ (dx_server x))
      `prefix_of` pending (ServerConnection.write_queue_ (dx_server x')) ∧
    dx_client x' = dx_client x ∧ dx_client_run x' = dx_client_run x ∧ dx_client_read x' = dx_client_read x ∧
    dx_starting x' = dx_starting x ∧ dx_server_read x = ServerConnection.ReadWaiting ∧
    ServerConnection.read_loop_resume server_hooks (IoRead bytes) (dx_server x)
      = Some (dx_server_read x', dx_server x') ∧
    (∃ d, decode_read (ReadBytes bytes) (ServerConnection.decoder_ (dx_server x)) = (bytes, d, fs)).
Proof.
  intros Hx. pose proof (dstep_inv registry client_hooks server_hooks (ServerRead (IoRead bytes)) x x' Hx) as Hx'.
  simpl in Hx'. revert Hx'. unfold srv_read. destruct (dx_server_read x) eqn:Hw; try done.
  cbn [t_read_end TcpTransport_transport tcp_read_end fst].
  destruct (decode_read (ReadBytes bytes) (ServerConnection.decoder_ (dx_server x))) as [[bs d] fs] eqn:Hdec.
  assert (bs = bytes) as ->.
  { simpl in Hdec. destruct (push_inv (ServerConnection.decoder_ (dx_server x)) bytes
      (vi_decoder _ _ (di_server _ _ _ _ Hx))) as (d1 & fs1 & Hp & _). rewrite Hp in Hdec. by injection Hdec. }
  destruct (link_read bytes fs (dx_up x)) as [up|] eqn:Hk; [|done]. simpl.
  destruct (ServerConnection.read_loop_resume server_hooks (IoRead bytes) (dx_server x)) as [[rpc c']|] eqn:Hr; [|done].
  simpl. intros Hx' [= <-]. specialize (Hx' eq_refl). exists fs. simpl. split_and!; eauto.
  pose proof (up_decoded_wire _ _ _ _ Hx') as HD. simpl in HD.
  assert (lk_decoded up = lk_decoded (dx_up x) ++ fs) as Hd
    by (unfold link_read in Hk; case_decide; [|done]; by injection Hk as <-).
  pose proof (server_ok_app _ _ fs _ [] _ (di_server_ok _ _ _ _ Hx)) as Hok. rewrite <-Hd, app_nil_r in Hok.
  destruct (server_read_traffic registry server_hooks (lk_decoded up) (dx_answers x) HD
    _ _ _ _ _ _ _ (di_server _ _ _ _ Hx) Hr Hdec) as [_ He _].
  - rewrite Hd. apply Forall_forall. intros f Hf. apply elem_of_app. by right.
  - by destruct Hok.
  - destruct (em_pending _ _ _ He (sk_queue _ _ _ _ Hok)) as (new & Hn & _). simpl in Hn. rewrite Hn. by eexists.
Qed.

(** A write that completes. *)
Lemma written_receives f (q : WriteQueue (Ch := Ch)) (t : TcpTransport) pc q' t' es :
  run_written f IoWritten q t = (pc, q', t', es) → run_receive q = (pc, q').
Proof.
  unfold run_written. cbn [t_write_end TcpTransport_transport tcp_write_end].
  destruct (run_receive q) as [pc1 q1]. by intros [= <- <- _ _].
Qed.

(** A call of [start_request] that waited for space goes on. *)
Lemma start_resume_forward i what (x x' : System) :
  inv x → cli_start_resume i what x = Some x' →
  forward (T := TcpTransport) (up_dir x) (up_dir x') ∧ down_dir x' = down_dir x.
Proof.
  intros Hx. unfold cli_start_resume. destruct (dx_starting x !! i) as [[l f]|] eqn:Hi; [|done]. simpl.
  destruct (start_request_resume l f what (dx_client x)) as [[r c]|] eqn:Hr; [|done]. simpl. intros [= <-].
  split; [|done]. destruct (Forall_lookup_1 _ _ _ _ (di_starting _ _ _ _ Hx) Hi) as [_ Hfit]. simpl in Hfit.
  revert Hr. unfold start_request_resume. destruct (enqueue_resume _ _ _) as [[r1 q]|] eqn:E; [|done]. simpl.
  intros [= Hs]. destruct (start_enqueue_queue l f r1 (set_write_queue q (dx_client x))) as [Hq _].
  rewrite Hs in Hq. simpl in Hq. unfold up_dir. simpl. rewrite Hq.
  eapply (forward_resume _ _ _ _ f (snd <$> delete i (dx_starting x))); [|exact Hfit|exact E|by left|].
  - rewrite (delete_Permutation (dx_starting x) i (l, f) Hi) at 1. done.
  - rewrite fmap_app, Permutation_app_comm. f_equiv. destruct r1 as [sent|]; simpl in Hs.
    + destruct (start_request_sent _ _ _). by injection Hs as <- _.
    + by injection Hs as <- _.
Qed.

(** A handler's coroutine that waited for space goes on. *)
Lemma task_resume_forward i what (x x' : System) :
  inv x → srv_task_resume i what x = Some x' →
  up_dir x' = up_dir x ∧ forward (T := TcpTransport) (down_dir x) (down_dir x').
Proof.
  intros Hx. unfold srv_task_resume. destruct (ServerConnection.tasks_ _ !! i) as [k|] eqn:Hi; [|done]. simpl.
  destruct (task_pc k) as [| |f] eqn:Hpc; try done.
  destruct (handler_resume i k f what (dx_server x)) as [c|] eqn:Hr; [|done]. simpl. intros [= <-]. split; [done|].
  pose proof (vi_fits _ _ (di_server _ _ _ _ Hx) k f ltac:(by eapply list_elem_of_lookup_2) Hpc) as Hfit.
  revert Hr. unfold handler_resume. destruct (enqueue_resume _ _ _) as [[r q]|] eqn:E; [|done]. simpl. intros [= <-].
  set (c1 := ServerConnection.set_write_queue q (dx_server x)).
  destruct (handler_enqueue_waits i k f r c1 Hi) as [_ Hw].
  eapply (forward_resume _ _ _ _ f (waiting_frames (delete i (ServerConnection.tasks_ (dx_server x)))));
    [|exact Hfit|exact E| |exact Hw].
  - unfold waiting_frames. rewrite (omap_delete_perm enqueuing _ i k Hi). unfold enqueuing at 1. by rewrite Hpc.
  - destruct r; simpl; [|by left]. unfold handler_end, close_queue_when_idle. simpl. case_match; [by right|by left].
Qed.

Local Abbreviation fwd := (forward (T := TcpTransport)).

(** Every step of the network brings one direction forward.  A step on the way up may give
    the server something to send; a step on the way down gives the client nothing. *)
Lemma net_step_dirs a (x x' : System) :
  inv x → network a = true → step a x = Some x' →
  fwd (up_dir x) (up_dir x') ∧ grows (down_dir x) (down_dir x') ∨
  quiet (up_dir x) (up_dir x') ∧ fwd (down_dir x) (down_dir x').
Proof.
  intros Hx Hn Hs. pose proof (λ d, grows_same (Ch := Ch) d) as Hg. pose proof (λ d, quiet_same (Ch := Ch) d) as Hqt.
  destruct a as [| |i what| | | | | | | |[bytes| |]| |n|[|]| | | | | | | |i what|[bytes| |]| |n|[|]| |]; try done; simpl in Hn, Hs.
  - destruct (start_resume_forward _ _ _ _ Hx Hs) as [Hf ->]. auto.
  - apply negb_true_iff, bool_decide_eq_false in Hn. right.
    destruct (client_read_step _ _ _ Hx Hs) as (fs & Hk & Hup & Hrun & Hst & Hsv & Hsr & _ & _ & Hr & [d Hdec] & Hcan).
    unfold up_dir, down_dir. rewrite Hup, Hrun, Hst, Hsv, Hsr. split; [|by econstructor].
    destruct (read_resume_queue _ _ _ _ _ _ _ _ (ci_decoder _ _ (di_client _ _ _ _ Hx)) Hr Hdec Hcan) as [-> | ->]; constructor.
  - left. revert Hs. unfold cli_take, up_dir, down_dir. destruct (dx_client_run x); try done.
    destruct (run_resume _ _) as [[[pc q] t]|] eqn:Hr; [|done]. intros [= <-]. split; [by econstructor|done].
  - left. destruct (link_transfer _ _) as [k|] eqn:Hk; [|done]. injection Hs as <-. split; [|done].
    econstructor; [by apply Nat.eqb_neq, negb_true_iff|done].
  - left. revert Hs. unfold cli_written, up_dir, down_dir. destruct (dx_client_run x) as [| |f|]; try done.
    destruct (link_written _ _) as [k|] eqn:Hk; [|done]. cbn [mbind option_bind].
    destruct (run_written _ _ _ _) as [[[pc q] t] es] eqn:Hw. intros [= <-]. split; [|done].
    econstructor; [exact Hk|by eapply written_receives].
  - destruct (task_resume_forward _ _ _ _ Hx Hs) as [-> Hf]. auto.
  - apply negb_true_iff, bool_decide_eq_false in Hn. left.
    destruct (server_read_step _ _ _ Hx Hs) as (fs & Hk & Hdn & Hrun & [more Hp] & Hcl & Hcr & _ & Hst & _ & Hr & _).
    destruct (steady_read_resume _ _ _ _ _ Hr) as [Hcm Hws].
    destruct (Hcm (server_queue_inv _ _ _ _ Hx)) as (_ & _ & Hclosed).
    unfold up_dir, down_dir. rewrite Hdn, Hrun, Hcl, Hcr, Hst. split; [by econstructor|by eapply grows_more].
  - right. revert Hs. unfold srv_take, up_dir, down_dir. destruct (dx_server_run x); try done.
    destruct (run_resume _ _) as [[[pc q] t]|] eqn:Hr; [|done]. intros [= <-]. split; [done|by econstructor].
  - right. destruct (link_transfer _ _) as [k|] eqn:Hk; [|done]. injection Hs as <-. split; [done|].
    econstructor; [by apply Nat.eqb_neq, negb_true_iff|done].
  - right. revert Hs. unfold srv_written, up_dir, down_dir. destruct (dx_server_run x) as [| |f|]; try done.
    destruct (link_written _ _) as [k|] eqn:Hk; [|done]. cbn [mbind option_bind].
    destruct (run_written _ _ _ _) as [[[pc q] t] es] eqn:Hw. intros [= <-]. split; [done|].
    econstructor; [exact Hk|by eapply written_receives].
Qed.

(** ** Termination *)

Lemma net_acc (x : System) : sys_ok x → Acc (λ x' x, net_step x x') x.
Proof.
  assert (well_founded (slexprod nat nat lt lt)) as Hwf by (apply wf_slexprod; apply lt_wf).
  enough (∀ p, Acc (slexprod nat nat lt lt) p → ∀ x : System, (dir_measure (up_dir x), dir_measure (down_dir x)) = p →
    sys_ok x → Acc (λ x' x, net_step x x') x) as Hacc by (intros Hx; by eapply Hacc; [apply Hwf|..]).
  intros p Hp. induction Hp as [p _ IH]. intros y <- Hy. constructor. intros y' (a & Ha & Hs).
  eapply IH; [|done|exact (sys_ok_step _ _ _ Hy Hs)].
  destruct (net_step_dirs a y y' (so_inv _ Hy) Ha Hs) as [[Hf _]|[Hq Hf]].
  - apply left_slex. by eapply forward_measure; [apply up_dir_inv|].
  - rewrite (quiet_measure _ _ (dv_queue _ _ _ (up_dir_inv _ Hy)) Hq).
    apply right_slex. by eapply forward_measure; [apply down_dir_inv|].
Qed.

(** ** Nothing is lost on the way *)

(** What the network has done to the frames between two states. *)
Definition carried (x x' : System) : Prop :=
  (live (up_dir x') = true → live (up_dir x) = true ∧ handed (up_dir x) `prefix_of` handed (up_dir x') ∧
     handed (up_dir x') ++ dr_waiting (up_dir x') ≡ₚ handed (up_dir x) ++ dr_waiting (up_dir x)) ∧
  (live (down_dir x') = true → live (down_dir x) = true ∧ handed (down_dir x) `prefix_of` handed (down_dir x') ∧
     handed (down_dir x) ++ dr_waiting (down_dir x) ⊆+ handed (down_dir x') ++ dr_waiting (down_dir x')).

#[local] Instance carried_preorder : PreOrder carried.
Proof.
  split; [by split|]. intros x1 x2 x3 [Hu1 Hd1] [Hu2 Hd2]. split; intros Hl.
  - destruct (Hu2 Hl) as (Hl2 & Hp2 & He2), (Hu1 Hl2) as (Hl1 & Hp1 & He1). split_and!; [done|by etrans..].
  - destruct (Hd2 Hl) as (Hl2 & Hp2 & He2), (Hd1 Hl2) as (Hl1 & Hp1 & He1). split_and!; [done|by etrans..].
Qed.

Lemma net_step_carried a (x x' : System) : sys_ok x → network a = true → step a x = Some x' → carried x x'.
Proof.
  intros Hx Hn Hs. destruct (net_step_dirs a x x' (so_inv _ Hx) Hn Hs) as [[Hf Hg]|[Hq Hf]]; split; intros Hl.
  - by eapply forward_handed; [apply up_dir_inv|..].
  - by apply grows_handed.
  - by rewrite (quiet_live _ _ Hq Hl) in Hl |- *.
  - destruct (forward_handed _ _ _ _ (down_dir_inv _ Hx) Hf Hl) as (Hl' & Hp & He). by rewrite He.
Qed.

Lemma net_steps_carried actions (x x' : System) :
  sys_ok x → Forall (λ a, network a = true) actions → steps actions x = Some x' → carried x x'.
Proof.
  intros Hx Hn. revert x Hx. induction Hn as [|a actions Ha _ IH]; intros x Hx; simpl; [by intros [= <-]|].
  destruct (step a x) as [x1|] eqn:E; [|done]. simpl. intros Hs.
  etrans; [by eapply net_step_carried|]. apply IH; [exact (sys_ok_step _ _ _ Hx E)|done].
Qed.

(** ** Nothing gets stuck *)

(** The write and the read loops of both connections run. *)
Definition connected (x : System) : bool :=
  match dx_client_read x, dx_server_read x with
  | ReadWaiting, ServerConnection.ReadWaiting => running (dx_client_run x) && running (dx_server_run x)
  | _, _ => false
  end.

(** Then both queues are open. *)
Lemma connected_spec (x : System) :
  sys_ok x → connected x = true →
  dx_client_read x = ReadWaiting ∧ dx_server_read x = ServerConnection.ReadWaiting ∧
  live (up_dir x) = true ∧ live (down_dir x) = true.
Proof.
  intros [_ _ [_ Hc] [_ Hr Hs]]. unfold connected.
  destruct (dx_client_read x) eqn:Hcr, (dx_server_read x) eqn:Hsr; try done. intros [Hcw Hsw]%andb_true_iff.
  assert (∀ pc, running pc = true → ¬ writer_failed pc) as Hwf by (by intros pc Hpc (r & -> & _)).
  rewrite !live_spec. split_and!; try done; simpl; apply not_true_is_false; intros Hcl.
  - destruct (Hc Hcl) as [|Hf]; [done|by destruct (Hwf _ Hcw Hf)].
  - destruct (Hs Hcl) as [[Hread _]|Hf]; [|by destruct (Hwf _ Hsw Hf)]. by apply Hr in Hread.
Qed.

Lemma client_read_enabled bytes (x : System) :
  inv x → dx_client_read x = ReadWaiting → (∀ fs, is_Some (link_read bytes fs (dx_down x))) →
  is_Some (step (ClientRead (IoRead bytes)) x).
Proof.
  intros Hx Hw Hk. simpl. unfold cli_read. rewrite Hw. cbn [t_read_end TcpTransport_transport tcp_read_end fst].
  cbn [decode_read]. destruct (push_inv (decoder_ (dx_client x)) bytes (ci_decoder _ _ (di_client _ _ _ _ Hx)))
    as (d1 & fs1 & Hp & _). rewrite Hp. destruct (Hk fs1) as [k ->]. cbn [mbind option_bind].
  destruct (read_loop_resume_inv client_hooks (IoRead bytes) (dx_client x) (di_client _ _ _ _ Hx)) as (pc1 & c1 & -> & _).
  by eexists.
Qed.

Lemma server_read_enabled bytes (x : System) :
  inv x → dx_server_read x = ServerConnection.ReadWaiting → (∀ fs, is_Some (link_read bytes fs (dx_up x))) →
  is_Some (step (ServerRead (IoRead bytes)) x).
Proof.
  intros Hx Hw Hk. simpl. unfold srv_read. rewrite Hw. cbn [t_read_end TcpTransport_transport tcp_read_end fst].
  cbn [decode_read]. destruct (push_inv (ServerConnection.decoder_ (dx_server x)) bytes
    (vi_decoder _ _ (di_server _ _ _ _ Hx))) as (d1 & fs1 & Hp & _). rewrite Hp. destruct (Hk fs1) as [k ->].
  cbn [mbind option_bind].
  destruct (server_read_resume_inv server_hooks (IoRead bytes) (dx_server x) (di_server _ _ _ _ Hx)) as (pc1 & c1 & -> & _).
  by eexists.
Qed.

Lemma net_action_step a (x : System) : network a = true → is_Some (step a x) → ∃ x', net_step x x'.
Proof. intros Ha [x' Hs]. exists x', a. done. Qed.

Lemma up_progress (x : System) :
  sys_ok x → live (up_dir x) = true → dx_server_read x = ServerConnection.ReadWaiting →
  drained (up_dir x) ∨ ∃ x', net_step x x'.
Proof.
  intros Hx Hr Hw. destruct (dir_progress _ _ _ (transport_ (dx_client x)) (up_dir_inv _ Hx) Hr)
    as [?|[[Hpc [[[pc q] t] Ht]]|[(n & Hn & [k Hk])|[(f & Hpc & [k Hk])|[(bytes & Hne & Hk)|[Hws Hk]]]]]]; [by left|..];
    right; cbn [up_dir down_dir dr_run dr_queue dr_waiting dr_link] in *.
  - apply (net_action_step ClientTake); [done|]. simpl. unfold cli_take. by rewrite Hpc, Ht.
  - apply (net_action_step (ClientTransfer n)); [by apply negb_true_iff, Nat.eqb_neq|]. simpl. by rewrite Hk.
  - apply (net_action_step (ClientWritten IoWritten)); [done|]. cbn [dstep]. unfold cli_written. rewrite Hpc.
    cbn [t_write_end TcpTransport_transport tcp_write_end fst]. rewrite Hk. cbn [mbind option_bind].
    destruct (run_written _ _ _ _) as [[[pc q] t] es]. done.
  - apply (net_action_step (ServerRead (IoRead bytes))); [by apply negb_true_iff, bool_decide_eq_false|].
    by apply server_read_enabled; [apply Hx|..].
  - destruct (dx_starting x) as [|[l f] ss] eqn:Hss; [done|].
    apply (net_action_step (ClientStartResume 0 EmptyString)); [done|]. simpl. unfold cli_start_resume, start_request_resume.
    rewrite Hss. simpl. destruct (Hk f EmptyString) as [[r q] ->]. simpl. by destruct (start_request_enqueue _ _ _ _).
Qed.

Lemma down_progress (x : System) :
  sys_ok x → live (down_dir x) = true → dx_client_read x = ReadWaiting →
  drained (down_dir x) ∨ ∃ x', net_step x x'.
Proof.
  intros Hx Hr Hw. destruct (dir_progress _ _ _ (ServerConnection.transport_ (dx_server x)) (down_dir_inv _ Hx) Hr)
    as [?|[[Hpc [[[pc q] t] Ht]]|[(n & Hn & [k Hk])|[(f & Hpc & [k Hk])|[(bytes & Hne & Hk)|[Hws Hk]]]]]]; [by left|..];
    right; cbn [up_dir down_dir dr_run dr_queue dr_waiting dr_link] in *.
  - apply (net_action_step ServerTake); [done|]. simpl. unfold srv_take. by rewrite Hpc, Ht.
  - apply (net_action_step (ServerTransfer n)); [by apply negb_true_iff, Nat.eqb_neq|]. simpl. by rewrite Hk.
  - apply (net_action_step (ServerWritten IoWritten)); [done|]. cbn [dstep]. unfold srv_written. rewrite Hpc.
    cbn [t_write_end TcpTransport_transport tcp_write_end fst]. rewrite Hk. cbn [mbind option_bind].
    destruct (run_written _ _ _ _) as [[[pc q] t] es]. done.
  - apply (net_action_step (ClientRead (IoRead bytes))); [by apply negb_true_iff, bool_decide_eq_false|].
    by apply client_read_enabled; [apply Hx|..].
  - destruct (waiting_frames (ServerConnection.tasks_ (dx_server x))) as [|f ws] eqn:Hf; [done|].
    assert (f ∈ waiting_frames (ServerConnection.tasks_ (dx_server x))) as Hin by (rewrite Hf; by left).
    apply list_elem_of_omap in Hin as (k & Hki & Hkf). apply list_elem_of_lookup in Hki as [i Hi].
    apply (net_action_step (ServerTaskResume i EmptyString)); [done|]. simpl. unfold srv_task_resume, handler_resume.
    rewrite Hi. simpl. unfold enqueuing in Hkf. destruct (task_pc k); simplify_eq.
    destruct (Hk f EmptyString) as [[r q] ->]. by eexists.
Qed.

(** ** What must happen *)

(** Whatever order the network's steps come in, a state in [P] is reached, and before that
    there is always a next step. *)
Inductive inevitable (P : System → Prop) (x : System) : Prop :=
  | inevitable_now : P x → inevitable P x
  | inevitable_later :
      (∃ x', net_step x x') → (∀ x', net_step x x' → inevitable P x') → inevitable P x.

Lemma net_inevitable (P : System → Prop) (x : System) :
  sys_ok x →
  (∀ actions x', Forall (λ a, network a = true) actions → steps actions x = Some x' →
     P x' ∨ ∃ x'', net_step x' x'') →
  inevitable P x.
Proof.
  intros Hx. pose proof (net_acc x Hx) as Hacc. induction Hacc as [x _ IH]. intros HP.
  destruct (HP [] x ltac:(constructor) eq_refl) as [|Hnext]; [by apply inevitable_now|].
  apply inevitable_later; [done|]. intros x' (a & Ha & Hs).
  apply IH; [by exists a|exact (sys_ok_step _ _ _ Hx Hs)|]. intros actions x'' Hn Hs''.
  apply (HP (a :: actions)); [by constructor|]. simpl. by rewrite Hs.
Qed.

(** Everything that had been given to a queue or waited for space in it has been decoded at
    the other end, in order as far as there was one, and nothing is left on the way. *)
Definition delivered (x x' : System) : Prop :=
  (handed (up_dir x) `prefix_of` lk_decoded (dx_up x') ∧
     lk_decoded (dx_up x') ≡ₚ handed (up_dir x) ++ dr_waiting (up_dir x)) ∧
  (handed (down_dir x) `prefix_of` lk_decoded (dx_down x') ∧
     handed (down_dir x) ++ dr_waiting (down_dir x) ⊆+ lk_decoded (dx_down x')) ∧
  drained (up_dir x') ∧ drained (down_dir x').

Lemma net_delivers actions (x x' : System) :
  sys_ok x → Forall (λ a, network a = true) actions → steps actions x = Some x' → connected x' = true →
  delivered x x' ∨ ∃ x'', net_step x' x''.
Proof.
  intros Hx Hn Hs Hcon. pose proof (sys_ok_steps _ _ _ Hx Hs) as Hx'.
  destruct (connected_spec _ Hx' Hcon) as (Hcr & Hsr & Hcw & Hsw).
  destruct (net_steps_carried _ _ _ Hx Hn Hs) as [Hu Hd].
  destruct (Hu Hcw) as (_ & Hup & Hue), (Hd Hsw) as (_ & Hdp & Hde).
  destruct (up_progress x' Hx' Hcw Hsr) as [Hudr|]; [|by right].
  destruct (down_progress x' Hx' Hsw Hcr) as [Hddr|]; [|by right]. left.
  pose proof (drained_decoded _ _ _ (up_wire_ok _ _) (up_dir_inv _ Hx') Hudr) as Hud.
  pose proof (drained_decoded _ _ _ (down_wire_ok _ _) (down_dir_inv _ Hx') Hddr) as Hdd.
  change (lk_decoded (dx_up x') = handed (up_dir x')) in Hud.
  change (lk_decoded (dx_down x') = handed (down_dir x')) in Hdd.
  destruct Hudr as (Hu1 & Hu2 & Hu3 & Hu4), Hddr as (Hd1 & Hd2 & Hd3 & Hd4).
  rewrite Hu3, app_nil_r in Hue. rewrite Hd3, app_nil_r in Hde.
  unfold delivered. rewrite Hud, Hdd. by split_and!.
Qed.

(** ** Properties *)

Section reached.
Context (ct st : TcpTransport) (climits slimits : WriteQueueLimits) (maximum : Z).

Local Abbreviation start := (new_duplex client_hooks server_hooks ct st climits slimits maximum).

Lemma reached_ok actions (x : System) :
  limits_wf climits → limits_wf slimits → in_u 64 maximum → steps actions start = Some x → sys_ok x.
Proof.
  intros Hc Hs Hm Hr. apply (sys_ok_steps actions start x); [|exact Hr].
  split; [exact (new_duplex_inv _ _ _ ct st climits slimits maximum Hc Hs Hm)|apply new_duplex_waiters
    |apply new_duplex_client_open|by split].
Qed.

(** C8: in every reachable state the network comes to rest by itself: there is no infinite
    sequence of steps in which writers take frames, sockets accept bytes, writes complete,
    bytes arrive and suspended [enqueue] calls go on, whatever their order and however the
    bytes are cut - even though a frame that arrives at the server may make it send another,
    and an [enqueue] call that is woken may have to wait again. *)
Theorem network_terminates actions (x : System) :
  limits_wf climits → limits_wf slimits → in_u 64 maximum → steps actions start = Some x →
  Acc (λ x' x, net_step x x') x.
Proof. intros Hc Hs Hm Hr. apply net_acc. exact (reached_ok _ _ Hc Hs Hm Hr). Qed.

(** C5: and it does not come to rest too early: whatever order the steps of the network
    come in, as long as the two connections are up there is a next one until everything has
    arrived - the server has decoded exactly the frames that were in the client's queue, in
    order, and those that waited for space there, the client has decoded at least all those
    of the server, both queues are empty and nobody waits for space any more. *)
Theorem network_delivers actions (x : System) :
  limits_wf climits → limits_wf slimits → in_u 64 maximum → steps actions start = Some x →
  inevitable (λ x', connected x' = false ∨ delivered x x') x.
Proof.
  intros Hc Hs Hm Hr. pose proof (reached_ok _ _ Hc Hs Hm Hr) as Hx.
  apply net_inevitable; [done|]. intros acts x' Hn Hs'. destruct (connected x') eqn:Hcon; [|by left; left].
  destruct (net_delivers acts x x' Hx Hn Hs' Hcon); auto.
Qed.

End reached.

End system.

(** ** Witnesses *)

Section sample.
#[local] Existing Instance demo_codec.
#[local] Instance demo_progress_codec_laws : CodecLaws nat (pod_value (λ t, t)) := PodCodec_laws _ _.

Local Abbreviation demo_msg := (pod_value (λ t : nat, t)).

(** Three requests: the first goes to the writer, the second fills the queue, the third waits
    for space. *)
Definition crowded : list (Action (msg := demo_msg)) :=
  opening ++ [ClientStart 2%nat question_a; ClientStart 2%nat question_b; ClientStart 2%nat question_a].

Lemma crowded_runs : demo_steps crowded = Some (after crowded).
Proof. vm_compute. reflexivity. Qed.

(** The first is written in two pieces.  Its departure wakes the third, in vain, since the
    second is still in the queue; the departure of the second wakes it again. *)
Definition first_arrives : list (Action (msg := demo_msg)) :=
  let bytes := encode_frame demo_frame in
  [ClientTake; ClientTransfer 7; ServerRead (IoRead (take 7 bytes)); ClientStartResume 0 EmptyString;
   ClientTransfer (length bytes - 7); ClientWritten IoWritten; ServerRead (IoRead (drop 7 bytes));
   ClientTake; ClientStartResume 0 EmptyString].

Lemma network_terminates_witness :
  Acc (λ x' x, net_step demo_registry listening_hooks listening_hooks x x') (after crowded).
Proof.
  exact (network_terminates demo_registry listening_hooks listening_hooks new_tcp_transport new_tcp_transport
    sample_limits sample_limits 9 crowded (after crowded) sample_limits_wf sample_limits_wf client_range crowded_runs).
Defined.

Lemma network_delivers_witness :
  (stream ∘ header <$> handed (up_dir (after crowded)) = [mkId 1; mkId 3] ∧
   stream ∘ header <$> dr_waiting (up_dir (after crowded)) = [mkId 5]) ∧
  (forallb network first_arrives = true ∧ connected (after (crowded ++ first_arrives)) = true ∧
   lk_decoded (dx_up (after (crowded ++ first_arrives))) = [demo_frame] ∧
   stream ∘ header <$> handed (up_dir (after (crowded ++ first_arrives))) = [mkId 1; mkId 3; mkId 5]) ∧
  inevitable demo_registry listening_hooks listening_hooks
    (λ x', connected x' = false ∨ delivered (after crowded) x') (after crowded).
Proof.
  split; [split; vm_compute; reflexivity|]. split; [split_and!; vm_compute; reflexivity|].
  exact (network_delivers demo_registry listening_hooks listening_hooks new_tcp_transport new_tcp_transport
    sample_limits sample_limits 9 crowded (after crowded) sample_limits_wf sample_limits_wf client_range crowded_runs).
Defined.

End sample.
