(* ===== verification/Calls.v ===== *)
(** * Calls make progress

    What the arrival of frames means for the calls, in the composed system: a request that has
    been given to the client's queue gets its handler, and a call whose answer has been given
    to the server's queue ends. *)

From S2P Require Import Prelude Identifiers Status Frame FrameCodec FrameDecoder ProtocolViolation.
From S2P Require Import Lifecycle Diagnostics Operation StreamIdAllocator Codec MessageRegistry MessageCodec.
From S2P Require Import Transport Channel Timer WriteQueue Link.
From S2P Require Import ServerConnection.
From S2P Require Import ClientConnection.
From S2P Require Import ServerTraffic.
From S2P Require Import ClientTraffic.
From S2P Require Import Duplex.
From S2P Require Import Waiters.
From S2P Require Import Progress.

Local Open Scope Z_scope.

#[local] Arguments encode_frame : simpl never.

(** ** A client that reads answers *)

Section client_answers.
Context {Ch : Type → Type} `{!Channel Ch} `{!ChannelLaws Ch} {T : Type} `{!Transport T} `{!TransportLaws T}.
Context {Tm : Type} `{!SteadyTimer Tm} `{!MapBegin} `{!MapBeginLaws}.
Context (hooks : DiagnosticsHooks).
Implicit Types c : ClientConnection (Ch := Ch) (Tm := Tm) (T := T).

Lemma fail_connection_closed status m c : t_is_open (transport_ (fail_connection hooks status m c)) = false.
Proof. unfold fail_connection. simpl. apply t_close_closes. Qed.

(** A frame that does not take the connection down ends the request of its stream. *)
Lemma dispatch_answers f c :
  conn_inv hooks c → has_flag (flags (header f)) FrameFlags.cancel = false →
  t_is_open (transport_ (dispatch hooks f c)) = true →
  pending_ (dispatch hooks f c) = delete (stream (header f)) (pending_ c).
Proof.
  intros Hc Hcan. unfold dispatch.
  assert (∀ status m c', t_is_open (transport_ (fail_connection hooks status m c')) = true → 
    pending_ (fail_connection hooks status m c') = delete (stream (header f)) (pending_ c)) as Hfail
    by (intros status m c'; by rewrite fail_connection_closed).
  destruct (negb _); [apply Hfail|]. destruct (pending_ c !! stream (header f)) as [l|] eqn:Hl; [|apply Hfail].
  case_decide; [apply Hfail|]. rewrite Hcan. destruct (ci_table _ _ Hc _ _ Hl) as (p & Hp & Hst & Hr).
  assert (∀ c', pending_ (mark_terminal f c') = pending_ c') as Hmark
    by (intros c'; unfold mark_terminal; by case_match).
  destruct (has_flag _ FrameFlags.error).
  - destruct (decode_error_status f) as [st|] eqn:Hs; [|apply Hfail]. intros _. rewrite Hmark.
    destruct (end_request_settles hooks (fail_op st "peer rejected the operation") true l c p Hc Hp) as
      (op & es & _ & _ & _ & _ & _ & Hcl & _).
    + eapply fail_op_ending, decode_error_status_not_ok, Hs.
    + rewrite Hcl. simpl. by rewrite Hr, Hst.
  - destruct (respond_settles hooks f l c p Hc Hp Hr) as (op & es & Hcall & _ & _ & _ & Hcl & _ & _).
    rewrite Hcall in *. simpl in Hcl |- *. rewrite Hcl. intros _. rewrite Hmark. simpl. by rewrite Hr, Hst.
Qed.

(** What reading has done to the table of requests. *)
Record answers (fs : list Frame) c c' : Prop := {
  an_shrinks : pending_ c' ⊆ pending_ c;
  an_ended : Forall (λ f, pending_ c' !! stream (header f) = None) fs;
}.

Lemma answers_trans fs fs' c1 c2 c3 : answers fs c1 c2 → answers fs' c2 c3 → answers (fs ++ fs') c1 c3.
Proof.
  intros [Hs1 He1] [Hs2 He2]. split; [by etrans|]. apply Forall_app. split; [|done].
  eapply Forall_impl; [exact He1|]. intros f Hf. exact (lookup_weaken_None _ _ _ Hf Hs2).
Qed.

Lemma answers_same fs c1 c1' c2 c2' :
  pending_ c1' = pending_ c1 → pending_ c2' = pending_ c2 → answers fs c1 c2 → answers fs c1' c2'.
Proof. intros H1 H2 [Hs He]. split; by rewrite ?H1, ?H2. Qed.

Lemma dispatch_frames_answers fs c :
  conn_inv hooks c → Forall (λ f, has_flag (flags (header f)) FrameFlags.cancel = false) fs →
  t_is_open (transport_ (dispatch_frames hooks fs c)) = true → answers fs c (dispatch_frames hooks fs c).
Proof.
  intros Hc Hfs. revert c Hc. induction Hfs as [|f fs Hf _ IH]; intros c Hc; [by split|]. simpl.
  set (c1 := notify hooks _ c). assert (conn_inv hooks c1) as Hc1 by (by apply inv_notify).
  destruct (t_is_open (transport_ (dispatch hooks f c1))) eqn:Ho; simpl; [|by rewrite Ho].
  intros Hopen. pose proof (dispatch_answers f c1 Hc1 Hf Ho) as Hd. change (f :: fs) with ([f] ++ fs).
  eapply answers_trans; [|by apply IH, Hopen; apply dispatch_inv]. split; rewrite Hd.
  - apply delete_subseteq.
  - apply Forall_singleton. apply lookup_delete_eq.
Qed.

Lemma read_head_waiting c c' : read_loop_head hooks c = (ReadWaiting, c') → c' = c ∧ t_is_open (transport_ c) = true.
Proof. unfold read_loop_head, read_loop_exit. repeat case_match; by intros [= <-]. Qed.

(** A read after which the loop goes on. *)
Lemma read_resume_answers io c c' bytes d fs :
  conn_inv hooks c → read_loop_resume hooks io c = Some (ReadWaiting, c') →
  decode_read (t_read_end io (transport_ c)).1 (decoder_ c) = (bytes, d, fs) →
  Forall (λ f, has_flag (flags (header f)) FrameFlags.cancel = false) fs → answers fs c c'.
Proof.
  intros Hc. unfold read_loop_resume. destruct (t_read_end io (transport_ c)) as [r t]. cbv zeta. cbn [fst].
  destruct r as [[|b bs]|what]; [done| |done]. cbn [decode_read].
  destruct (push_inv (decoder_ c) (b :: bs) (ci_decoder _ _ Hc)) as (d1 & fs1 & Hp & Hd1 & _). rewrite Hp.
  set (c1 := notify _ _ (set_transport t c)). change (decoder_ c1) with (decoder_ c). rewrite Hp.
  cbn [mbind option_bind]. intros Hr [= <- <- <-] Hfs.
  destruct (decoder_error _); [done|]. apply Some_inj, read_head_waiting in Hr as [-> Ho].
  refine (answers_same _ (set_decoder d1 c1) _ _ _ _ _ (dispatch_frames_answers _ _ _ Hfs Ho)); try done.
  apply inv_decoder; [done|]. apply inv_notify; [done..|]. by apply inv_transport.
Qed.

(** A call of [start_request] that goes on after waiting for space. *)
Lemma cleanup_shrinks l b c : pending_ (cleanup_pending l b c) ⊆ pending_ c.
Proof. unfold cleanup_pending. repeat case_match; simpl; try done; apply delete_subseteq. Qed.

Lemma start_resume_answers l f what c r c' :
  start_request_resume l f what c = Some (r, c') → answers [] c c'.
Proof.
  unfold start_request_resume. destruct (enqueue_resume _ _ _) as [[r1 q]|]; [|done]. simpl. intros [= Hs].
  split; [|done]. apply (f_equal snd) in Hs. simpl in Hs. subst c'. destruct r1 as [sent|]; [|done]. simpl.
  unfold start_request_sent. destruct (negb _); [|done]. simpl. etrans; [apply cleanup_shrinks|].
  simpl. unfold call_operation. by repeat case_match.
Qed.

End client_answers.

(** ** A server that reads requests *)

Section server_requests.
Context {Ch : Type → Type} `{!Channel Ch} {T : Type} `{!Transport T} `{!TransportLaws T}.
Context `{!ServerConnection.MapTraversal} {TypeIndex : Type} `{Countable TypeIndex}.
Context (hooks : DiagnosticsHooks).
Implicit Types c : ServerConnection.ServerConnection (Ch := Ch) (T := T) (TypeIndex := TypeIndex).

(** The server is not shutting down. *)
Definition accepting c : bool :=
  match ServerConnection.lifecycle_ c with
  | ConnectionState.draining | ConnectionState.closing | ConnectionState.closed => false
  | _ => true
  end.

(** The frame asks for the handler [h]. *)
Definition asks_for c (f : Frame) (h : RequestHandler (TypeIndex := TypeIndex)) : Prop :=
  type (header f) = FrameType.request ∧ has_flag (flags (header f)) FrameFlags.cancel = false ∧
  ∃ id, peek_message_type (payload f) = Some id ∧ ServerConnection.handlers_ c !! id = Some h.

(** There is a coroutine for the frame that has not been started. *)
Definition spawned_for (f : Frame) (h : RequestHandler (TypeIndex := TypeIndex)) (ks : list HandlerTask) : Prop :=
  ∃ k, k ∈ ks ∧ task_frame k = f ∧ task_handler k = h ∧ task_pc k = HandlerSpawned.

(** What reading has done to the handler coroutines. *)
Record takes (fs : list Frame) c c' : Prop := {
  tk_tasks k : k ∈ ServerConnection.tasks_ c → enqueuing k = None → k ∈ ServerConnection.tasks_ c';
  tk_handlers : ServerConnection.handlers_ c' = ServerConnection.handlers_ c;
  tk_lifecycle : ServerConnection.lifecycle_ c' = ServerConnection.lifecycle_ c;
  tk_taken : accepting c = true → Forall (λ f, ∀ h, asks_for c f h →
    spawned_for f h (ServerConnection.tasks_ c')) fs;
}.

Lemma takes_trans fs fs' c1 c2 c3 : takes fs c1 c2 → takes fs' c2 c3 → takes (fs ++ fs') c1 c3.
Proof.
  intros [Ht1 Hh1 Hl1 Hk1] [Ht2 Hh2 Hl2 Hk2]. split; [auto|congruence..|]. intros Ha.
  unfold accepting, asks_for in *. rewrite Hl1, Hh1 in Hk2. apply Forall_app. split; [|auto].
  eapply Forall_impl; [by apply Hk1|]. intros f Hf h Hw. destruct (Hf h Hw) as (k & Hk & ? & ? & Hpc).
  exists k. split; [|done]. apply Ht2; [done|]. unfold enqueuing. by rewrite Hpc.
Qed.

Lemma takes_same fs c1 c1' c2 c2' :
  ServerConnection.tasks_ c1' = ServerConnection.tasks_ c1 → ServerConnection.tasks_ c2' = ServerConnection.tasks_ c2 →
  ServerConnection.handlers_ c1' = ServerConnection.handlers_ c1 → ServerConnection.handlers_ c2' = ServerConnection.handlers_ c2 →
  ServerConnection.lifecycle_ c1' = ServerConnection.lifecycle_ c1 → ServerConnection.lifecycle_ c2' = ServerConnection.lifecycle_ c2 →
  takes fs c1 c2 → takes fs c1' c2'.
Proof.
  intros Ht1 Ht2 Hh1 Hh2 Hl1 Hl2 [Ht Hh Hl Hk]. unfold accepting, asks_for in *.
  split; unfold accepting, asks_for; by rewrite ?Ht1, ?Ht2, ?Hh1, ?Hh2, ?Hl1, ?Hl2.
Qed.

(** A frame that nobody asks a handler with. *)
Lemma takes_nothing f c c' :
  ServerConnection.tasks_ c' = ServerConnection.tasks_ c → ServerConnection.handlers_ c' = ServerConnection.handlers_ c →
  ServerConnection.lifecycle_ c' = ServerConnection.lifecycle_ c →
  (accepting c = true → ∀ h, ¬ asks_for c f h) → takes [f] c c'.
Proof.
  intros Ht Hh Hl Hn. split; [intros k; by rewrite Ht|done..|]. intros Ha. apply Forall_singleton.
  intros h Hw. by destruct (Hn Ha h).
Qed.

Lemma server_fail_closed status m c :
  t_is_open (ServerConnection.transport_ (ServerConnection.fail_connection hooks status m c)) = false.
Proof. apply t_close_closes. Qed.

Lemma server_dispatch_takes f c :
  t_is_open (ServerConnection.transport_ (ServerConnection.dispatch hooks f c)) = true →
  takes [f] c (ServerConnection.dispatch hooks f c).
Proof.
  unfold ServerConnection.dispatch. destruct (_ || _) eqn:Hlc.
  { intros _. apply takes_nothing; [unfold ServerConnection.mark_terminal; by case_match..|].
    unfold accepting. destruct (ServerConnection.lifecycle_ c); try done. }
  destruct (negb _) eqn:Hty.
  { by rewrite server_fail_closed. }
  destruct (decide (stream (header f) ∈ ServerConnection.terminal_streams_ c)); [by rewrite server_fail_closed|].
  destruct (has_flag _ FrameFlags.cancel) eqn:Hcan.
  { destruct (ServerConnection.operations_ c !! _) as [l|]; [|by rewrite server_fail_closed].
    intros _. apply takes_nothing;
      [unfold ServerConnection.mark_terminal, ServerConnection.call_operation; by repeat case_match..|].
    intros _ h (_ & Hc & _). congruence. }
  destruct (peek_message_type (payload f)) as [id|] eqn:Hid.
  2: { intros _. apply takes_nothing; [unfold ServerConnection.mark_terminal; by case_match..|].
    intros _ h (_ & _ & id' & Hid' & _). congruence. }
  destruct (ServerConnection.handlers_ c !! id) as [h|] eqn:Hh.
  2: { intros _. apply takes_nothing; [unfold ServerConnection.mark_terminal; by case_match..|].
    intros _ h (_ & _ & id' & Hid' & Hh'). congruence. }
  destruct (ServerConnection.operations_ c !! _); [simpl; by rewrite t_close_closes|].
  intros _. split; simpl; [intros k Hk _; apply elem_of_app; by left|done..|]. intros _. apply Forall_singleton.
  intros h' (_ & _ & id' & Hid' & Hh'). eexists. split; [apply elem_of_app; right; by apply list_elem_of_singleton|].
  simpl. split_and!; [done|congruence|done].
Qed.

Lemma server_frames_take fs c :
  t_is_open (ServerConnection.transport_ (ServerConnection.dispatch_frames hooks fs c)) = true →
  takes fs c (ServerConnection.dispatch_frames hooks fs c).
Proof.
  revert c. induction fs as [|f fs IH]; intros c; [by split|]. simpl.
  set (c1 := ServerConnection.notify hooks _ c).
  destruct (t_is_open (ServerConnection.transport_ (ServerConnection.dispatch hooks f c1))) eqn:Ho; simpl; [|by rewrite Ho].
  intros Hopen. change (f :: fs) with ([f] ++ fs).
  eapply takes_trans; [|by apply IH]. by eapply takes_same; [..|apply server_dispatch_takes, Ho].
Qed.

Lemma server_head_waiting c c' :
  ServerConnection.read_loop_head hooks c = (ServerConnection.ReadWaiting, c') →
  c' = c ∧ t_is_open (ServerConnection.transport_ c) = true.
Proof. unfold ServerConnection.read_loop_head, ServerConnection.read_loop_exit. repeat case_match; by intros [= <-]. Qed.

(** A read after which the loop goes on. *)
Lemma read_resume_takes io c c' bytes d fs :
  ServerConnection.read_loop_resume hooks io c = Some (ServerConnection.ReadWaiting, c') →
  decode_read (t_read_end io (ServerConnection.transport_ c)).1 (ServerConnection.decoder_ c) = (bytes, d, fs) →
  takes fs c c'.
Proof.
  unfold ServerConnection.read_loop_resume. destruct (t_read_end io (ServerConnection.transport_ c)) as [r t]. cbv zeta. cbn [fst].
  destruct r as [[|b bs]|what]; [done| |done]. cbn [decode_read].
  set (c1 := ServerConnection.notify _ _ (ServerConnection.set_transport t c)).
  change (ServerConnection.decoder_ c1) with (ServerConnection.decoder_ c).
  destruct (push _ (b :: bs)) as [[d1 fs1]|]; [|done].
  cbn [mbind option_bind]. intros Hr [= <- <- <-].
  destruct (decoder_error _); [done|]. apply Some_inj, server_head_waiting in Hr as [-> Ho].
  refine (takes_same _ (ServerConnection.set_decoder d1 c1) _ _ _ _ _ _ _ _ _ (server_frames_take _ _ Ho)); done.
Qed.

(** A handler's coroutine that goes on after waiting for space. *)
Lemma task_resume_takes i k f what c c' :
  ServerConnection.tasks_ c !! i = Some k → enqueuing k = Some f → handler_resume i k f what c = Some c' →
  takes [] c c'.
Proof.
  intros Hi Hk. unfold handler_resume. destruct (enqueue_resume _ _ _) as [[r q]|]; [|done]. simpl. intros [= <-].
  assert (∀ k', k' ∈ ServerConnection.tasks_ c → enqueuing k' = None → k' ∈ delete i (ServerConnection.tasks_ c)) as Hdel.
  { intros k' Hk' Hne. rewrite (delete_Permutation _ _ _ Hi) in Hk'. apply elem_of_cons in Hk' as [->|]; [congruence|done]. }
  destruct r as [r|]; simpl.
  - unfold handler_end, close_queue_when_idle. simpl. case_match; by split.
  - split; try done. intros k' Hk' Hne. simpl. specialize (Hdel k' Hk' Hne).
    rewrite delete_take_drop in Hdel. rewrite insert_take_drop by (by eapply lookup_lt_Some).
    apply elem_of_app in Hdel as [|]; apply elem_of_app; [by left|right; by apply elem_of_cons; right].
Qed.

End server_requests.

(** ** The composed system *)

Section calls.
Context {Ch : Type → Type} `{!Channel Ch} `{!ChannelLaws Ch} {Tm : Type} `{!SteadyTimer Tm}.
Context `{!MapBegin} `{!MapBeginLaws} `{!ServerConnection.MapTraversal} `{!MapTraversalLaws}.
Context {TypeIndex : Type} `{Countable TypeIndex} {msg : TypeIndex → Type} `{C : !Codec TypeIndex msg}.
Context `{!CodecLaws TypeIndex msg}.
Context (registry : MessageRegistry (TypeIndex := TypeIndex)) (client_hooks server_hooks : DiagnosticsHooks).

Local Abbreviation System := (Duplex (Ch := Ch) (Tm := Tm) (T := TcpTransport) (msg := msg)).
Local Abbreviation inv := (duplex_inv registry client_hooks server_hooks).
Local Abbreviation step := (dstep registry client_hooks server_hooks).
Local Abbreviation steps := (dsteps registry client_hooks server_hooks).

(** The frames decoded between two states, and what they have done. *)
Definition client_reads (x x' : System) : Prop :=
  dx_client_read x' = ReadWaiting → dx_client_read x = ReadWaiting ∧
  ∃ fs, lk_decoded (dx_down x') = lk_decoded (dx_down x) ++ fs ∧ answers fs (dx_client x) (dx_client x').

Definition server_reads (x x' : System) : Prop :=
  dx_server_read x' = ServerConnection.ReadWaiting → dx_server_read x = ServerConnection.ReadWaiting ∧
  ∃ fs, lk_decoded (dx_up x') = lk_decoded (dx_up x) ++ fs ∧ takes fs (dx_server x) (dx_server x').

Lemma client_reads_nothing (x x' : System) :
  dx_client_read x' = dx_client_read x → lk_decoded (dx_down x') = lk_decoded (dx_down x) →
  pending_ (dx_client x') = pending_ (dx_client x) → client_reads x x'.
Proof.
  intros Hr Hd Hp Hw. split; [congruence|]. exists []. rewrite app_nil_r. split; [done|]. split; [by rewrite Hp|done].
Qed.

Lemma server_reads_nothing (x x' : System) :
  dx_server_read x' = dx_server_read x → lk_decoded (dx_up x') = lk_decoded (dx_up x) →
  ServerConnection.tasks_ (dx_server x') = ServerConnection.tasks_ (dx_server x) →
  ServerConnection.handlers_ (dx_server x') = ServerConnection.handlers_ (dx_server x) →
  ServerConnection.lifecycle_ (dx_server x') = ServerConnection.lifecycle_ (dx_server x) → server_reads x x'.
Proof.
  intros Hr Hd Ht Hh Hl Hw. split; [congruence|]. exists []. rewrite app_nil_r. split; [done|].
  split; [intros k; by rewrite Ht|done..].
Qed.

Lemma link_read_decoded bytes fs k k' : link_read bytes fs k = Some k' → lk_decoded k' = lk_decoded k ++ fs.
Proof. unfold link_read. case_decide; [|done]. by intros [= <-]. Qed.

Lemma net_step_reads a (x x' : System) :
  inv x → network a = true → step a x = Some x' → client_reads x x' ∧ server_reads x x'.
Proof.
  intros Hx Hn Hs.
  destruct a as [| |i what| | | | | | | |[bytes| |]| |n|[|]| | | | | | | |i what|[bytes| |]| |n|[|]| |]; try done; simpl in Hn, Hs.
  - revert Hs. unfold cli_start_resume. destruct (dx_starting x !! i) as [[l f]|]; [|done]. simpl.
    destruct (start_request_resume l f what (dx_client x)) as [[r c]|] eqn:Hr; [|done]. simpl. intros [= <-].
    split; [|by apply server_reads_nothing]. intros Hw. split; [done|]. exists []. rewrite app_nil_r.
    split; [done|]. by eapply start_resume_answers.
  - destruct (client_read_step _ _ _ _ _ _ Hx Hs)
      as (fs & Hk & Hup & _ & _ & Hsv & _ & Hsr & Hw & Hr & [d Hdec] & Hcan).
    split; [|by apply server_reads_nothing; rewrite ?Hup, ?Hsv].
    intros Hw'. split; [done|]. exists fs. split; [by eapply link_read_decoded|]. rewrite Hw' in Hr.
    by eapply read_resume_answers; [apply (di_client _ _ _ _ Hx)|exact Hr|exact Hdec|].
  - revert Hs. unfold cli_take. destruct (dx_client_run x); try done.
    destruct (run_resume _ _) as [[[pc q] t]|]; [|done]. intros [= <-].
    split; [by apply client_reads_nothing|]. apply server_reads_nothing; try done. apply link_start_decoded.
  - destruct (link_transfer _ _) as [k|] eqn:Hk; [|done]. injection Hs as <-.
    split; [by apply client_reads_nothing|]. apply server_reads_nothing; try done. by eapply link_transfer_decoded.
  - revert Hs. unfold cli_written. destruct (dx_client_run x) as [| |f|]; try done.
    destruct (link_written _ _) as [k|] eqn:Hk; [|done]. cbn [mbind option_bind].
    destruct (run_written _ _ _ _) as [[[pc q] t] es]. intros [= <-].
    split; [by apply client_reads_nothing|]. apply server_reads_nothing; try done. by eapply link_written_decoded.
  - revert Hs. unfold srv_task_resume. destruct (ServerConnection.tasks_ _ !! i) as [k|] eqn:Hi; [|done]. simpl.
    destruct (task_pc k) as [| |f] eqn:Hpc; try done.
    destruct (handler_resume i k f what (dx_server x)) as [c|] eqn:Hr; [|done]. simpl. intros [= <-].
    split; [by apply client_reads_nothing|]. intros Hw. split; [done|]. exists []. rewrite app_nil_r.
    split; [done|]. eapply task_resume_takes; [exact Hi| |exact Hr]. unfold enqueuing. by rewrite Hpc.
  - destruct (server_read_step _ _ _ _ _ _ Hx Hs)
      as (fs & Hk & Hdn & _ & _ & Hcl & _ & Hcr & _ & Hw & Hr & [d Hdec]).
    split; [by apply client_reads_nothing; rewrite ?Hdn, ?Hcl|].
    intros Hw'. split; [done|]. exists fs. split; [by eapply link_read_decoded|]. rewrite Hw' in Hr.
    by eapply read_resume_takes; [exact Hr|exact Hdec].
  - revert Hs. unfold srv_take. destruct (dx_server_run x); try done.
    destruct (run_resume _ _) as [[[pc q] t]|]; [|done]. intros [= <-].
    split; [|by apply server_reads_nothing]. apply client_reads_nothing; try done. apply link_start_decoded.
  - destruct (link_transfer _ _) as [k|] eqn:Hk; [|done]. injection Hs as <-.
    split; [|by apply server_reads_nothing]. apply client_reads_nothing; try done. by eapply link_transfer_decoded.
  - revert Hs. unfold srv_written. destruct (dx_server_run x) as [| |f|]; try done.
    destruct (link_written _ _) as [k|] eqn:Hk; [|done]. cbn [mbind option_bind].
    destruct (run_written _ _ _ _) as [[[pc q] t] es]. intros [= <-].
    split; [|by apply server_reads_nothing]. apply client_reads_nothing; try done. by eapply link_written_decoded.
Qed.

Lemma net_steps_reads actions (x x' : System) :
  inv x → Forall (λ a, network a = true) actions → steps actions x = Some x' → client_reads x x' ∧ server_reads x x'.
Proof.
  intros Hx Hn. revert x Hx. induction Hn as [|a actions Ha _ IH]; intros x Hx; simpl.
  { intros [= <-]. split; [by apply client_reads_nothing|by apply server_reads_nothing]. }
  destruct (step a x) as [x1|] eqn:E; [|done]. simpl. intros Hs.
  destruct (net_step_reads a x x1 Hx Ha E) as [Hc Hv]. destruct (IH x1 (dstep_inv _ _ _ _ _ _ Hx E) Hs) as [Hc' Hv'].
  split; intros Hw.
  - destruct (Hc' Hw) as (Hw1 & fs' & Hd' & Ha'). destruct (Hc Hw1) as (Hw0 & fs & Hd & Ha0). split; [done|].
    exists (fs ++ fs'). split; [by rewrite Hd', Hd, app_assoc|by eapply answers_trans].
  - destruct (Hv' Hw) as (Hw1 & fs' & Hd' & Ha'). destruct (Hv Hw1) as (Hw0 & fs & Hd & Ha0). split; [done|].
    exists (fs ++ fs'). split; [by rewrite Hd', Hd, app_assoc|by eapply takes_trans].
Qed.

(** ** Frames on their way *)

(** Given to the queue, or waiting for space in it, and not decoded at the other end. *)
Definition on_the_way_up (x : System) : list Frame :=
  drop (length (lk_decoded (dx_up x))) (handed (up_dir x)) ++ dr_waiting (up_dir x).

Definition on_the_way_down (x : System) : list Frame :=
  drop (length (lk_decoded (dx_down x))) (handed (down_dir x)) ++ dr_waiting (down_dir x).

(** The request in the frame is for a handler that the server has. *)
Definition has_handler (x : System) (rq : Request (msg := msg)) (h : RequestHandler (TypeIndex := TypeIndex)) : Prop :=
  ∃ id, message_type_of (rq_type rq) current_protocol_version registry = Some id ∧
    ServerConnection.handlers_ (dx_server x) !! id = Some h.

Lemma request_asks rq f (x : System) h :
  registry_inv registry → request_frame registry rq f → has_handler x rq h → asks_for (dx_server x) f h.
Proof.
  intros Hreg Hf (id & Hid & Hh). destruct (encode_message_success _ _ _ _ _ _ _ _ _ Hf)
    as (id' & body & Hid' & _ & Hp & _ & Hhd). simplify_eq.
  split; [by rewrite Hhd|]. split; [rewrite Hhd; vm_compute; reflexivity|]. exists id. split; [|done].
  destruct (Hreg current_protocol_version id (rq_type rq)) as [_ Hwf]. destruct (Hwf Hid) as (_ & Hw & _). rewrite Hp.
  rewrite peek_prefix by apply Hw. by destruct id.
Qed.

Lemma handed_split P (d : Direction (Ch := Ch)) dec :
  (∀ f, P f → wire_ok f) → dir_inv P d dec →
  handed d = lk_decoded (dr_link d) ++ drop (length (lk_decoded (dr_link d))) (handed d).
Proof.
  intros HP [_ Hl _]. destruct (link_integrity _ _ _ _ _ HP Hl) as [[rest Hr] _]. unfold handed. rewrite Hr.
  by rewrite <-app_assoc, drop_app_length.
Qed.

(** Everything that was on its way has been read. *)
Lemma delivered_reads actions (x x' : System) :
  sys_ok registry client_hooks server_hooks x → Forall (λ a, network a = true) actions → steps actions x = Some x' →
  connected x' = true → delivered x x' →
  (∃ fs, on_the_way_down x ⊆+ fs ∧ answers fs (dx_client x) (dx_client x')) ∧
  (∃ fs, on_the_way_up x ⊆+ fs ∧ takes fs (dx_server x) (dx_server x')).
Proof.
  intros Hx Hn Hs Hcon ((_ & Hu) & (_ & Hd) & _). 
  destruct (connected_spec _ _ _ _ (sys_ok_steps _ _ _ _ _ _ Hx Hs) Hcon) as (Hcr & Hsr & _ & _).
  destruct (net_steps_reads _ _ _ (so_inv _ _ _ _ Hx) Hn Hs) as [Hc Hv].
  destruct (Hc Hcr) as (_ & fs & Hfs & Ha), (Hv Hsr) as (_ & gs & Hgs & Ht). split.
  - exists fs. split; [|done]. apply (submseteq_app_inv_l _ _ (lk_decoded (dx_down x))). rewrite <-Hfs.
    pose proof (handed_split _ _ _ (down_wire_ok _ _) (down_dir_inv _ _ _ _ Hx)) as Hsp.
    change (dr_link (down_dir x)) with (dx_down x) in Hsp. unfold on_the_way_down. by rewrite app_assoc, <-Hsp.
  - exists gs. split; [|done]. apply (submseteq_app_inv_l _ _ (lk_decoded (dx_up x))). rewrite <-Hgs, Hu.
    pose proof (handed_split _ _ _ (up_wire_ok _ _) (up_dir_inv _ _ _ _ Hx)) as Hsp.
    change (dr_link (up_dir x)) with (dx_up x) in Hsp. unfold on_the_way_up. by rewrite app_assoc, <-Hsp.
Qed.

(** ** Properties *)

Section reached.
Context (ct st : TcpTransport) (climits slimits : WriteQueueLimits) (maximum : Z).

Local Abbreviation start := (new_duplex client_hooks server_hooks ct st climits slimits maximum).

Lemma reads_inevitable actions (x : System) (P : System → Prop) :
  limits_wf climits → limits_wf slimits → in_u 64 maximum → steps actions start = Some x →
  (∀ x', inv x' →
     (∃ fs, on_the_way_down x ⊆+ fs ∧ answers fs (dx_client x) (dx_client x')) →
     (∃ fs, on_the_way_up x ⊆+ fs ∧ takes fs (dx_server x) (dx_server x')) → P x') →
  inevitable registry client_hooks server_hooks (λ x', connected x' = false ∨ P x') x.
Proof.
  intros Hc Hs Hm Hr HP. pose proof (reached_ok _ _ _ _ _ _ _ _ _ _ Hc Hs Hm Hr) as Hx.
  apply net_inevitable; [done|]. intros acts x' Hn Hs'. destruct (connected x') eqn:Hcon; [|by left; left].
  destruct (net_delivers _ _ _ acts x x' Hx Hn Hs' Hcon) as [Hd|]; [left; right|by right].
  destruct (delivered_reads _ _ _ Hx Hn Hs' Hcon Hd). by apply HP; [exact (dsteps_inv _ _ _ _ _ _ (so_inv _ _ _ _ Hx) Hs')|..].
Qed.

(** C6: every request gets its handler: once a request has been given to the client's queue,
    or waits for space in it, then, unless the connection goes down, the network's steps lead to a state in which the
    server runs a coroutine for it - the handler that is registered for its type, on a frame
    that decodes to the very value the request was started with - if the server has such a
    handler and is not shutting down. *)
Theorem requests_reach_handlers actions (x : System) :
  limits_wf climits → limits_wf slimits → in_u 64 maximum → registry_inv registry →
  steps actions start = Some x → accepting (dx_server x) = true →
  inevitable registry client_hooks server_hooks (λ x', connected x' = false ∨
    ∀ rq f h, f ∈ on_the_way_up x → request_frame registry rq f → has_handler x rq h →
      ∃ k, k ∈ ServerConnection.tasks_ (dx_server x') ∧ task_handler k = h ∧ task_stream k = rq_stream rq ∧
        decode_message registry (rq_type rq) (task_frame k) = decode_success (rq_value rq)) x.
Proof.
  intros Hc Hs Hm Hreg Hr Hacc. apply (reads_inevitable _ _ _ Hc Hs Hm Hr). 
  intros x' _ _ (fs & Hfs & [_ _ _ Ht]) rq f h Hf Hrq Hh.
  destruct (proj1 (Forall_forall _ _) (Ht Hacc) f (elem_of_submseteq _ _ _ Hf Hfs) h) as (k & Hk & Hkf & Hkh & _);
    [by eapply request_asks|].
  exists k. split; [done|]. split; [done|]. unfold task_stream. rewrite Hkf. split.
  - by destruct (encode_message_success _ _ _ _ _ _ _ _ _ Hrq) as (_ & _ & _ & _ & _ & _ & ->).
  - by destruct (decode_message_encode _ _ _ _ _ _ _ _ _ Hreg Hrq) as [? _].
Qed.

(** C7: every answered call ends: once the server has a frame in its queue or waiting for
    space in it - the response of a handler, or an error - then, unless the connection goes down, the network's
    steps lead to a state in which the calls on the frame's stream have ended and whoever
    waits for one of them in [async_wait] has an answer. *)
Theorem answered_calls_end actions (x : System) ty :
  limits_wf climits → limits_wf slimits → in_u 64 maximum → steps actions start = Some x →
  inevitable registry client_hooks server_hooks (λ x', connected x' = false ∨
    ∀ f l p, f ∈ on_the_way_down x → heap_ (dx_client x') !! l = Some p →
      op_stream (pr_operation p) = stream (header f) →
      is_terminal (pr_operation p) = true ∧
      (receives (pr_channel p) = 1%nat → (cv_receives (ch_view (pr_channel p)) ≤ 1)%nat →
         is_Some (async_wait_resume (msg := msg) registry ty l (dx_client x')))) x.
Proof.
  intros Hc Hs Hm Hr. apply (reads_inevitable _ _ _ Hc Hs Hm Hr).
  intros x' Hx' (fs & Hfs & [_ Ha]) _ f l p Hf Hp Hst. pose proof (di_client _ _ _ _ Hx') as Hci.
  assert (is_terminal (pr_operation p) = true) as Hterm.
  { rewrite <-(oi_removed _ _ (ci_objects _ _ Hci _ _ Hp)). destruct (pr_removed p) eqn:Hrem; [done|].
    pose proof (ci_live _ _ Hci _ _ Hp Hrem) as Hl. rewrite Hst in Hl.
    pose proof (proj1 (Forall_forall _ _) Ha f (elem_of_submseteq _ _ _ Hf Hfs)) as Hnone. simpl in Hnone. congruence. }
  split; [done|]. intros Hone Hle. by eapply ended_wait_answered.
Qed.

End reached.

End calls.

(** ** Witnesses *)

Section sample.
#[local] Existing Instance demo_codec.
#[local] Instance demo_calls_codec_laws : CodecLaws nat (pod_value (λ t, t)) := PodCodec_laws _ _.

Local Abbreviation demo_msg := (pod_value (λ t : nat, t)).

(** A request has arrived and its handler has returned. *)
Definition replied : list (Action (msg := demo_msg)) :=
  opening ++ [ClientStart 2%nat question_a; ClientWait 2%nat (handle_of 0)] ++ sent_up demo_frame
  ++ answered answer_a.

Lemma replied_runs : demo_steps replied = Some (after replied).
Proof. vm_compute. reflexivity. Qed.

Lemma requests_reach_handlers_witness :
  stream ∘ header <$> on_the_way_up (after crowded) = [mkId 1; mkId 3; mkId 5] ∧ accepting (dx_server (after crowded)) = true ∧
  inevitable demo_registry listening_hooks listening_hooks (λ x', connected x' = false ∨
    ∀ rq f h, f ∈ on_the_way_up (after crowded) → request_frame demo_registry rq f →
      has_handler demo_registry (after crowded) rq h →
      ∃ k, k ∈ ServerConnection.tasks_ (dx_server x') ∧ task_handler k = h ∧ task_stream k = rq_stream rq ∧
        decode_message demo_registry (rq_type rq) (task_frame k) = decode_success (rq_value rq)) (after crowded).
Proof.
  split; [vm_compute; reflexivity|]. split; [vm_compute; reflexivity|].
  apply (requests_reach_handlers demo_registry listening_hooks listening_hooks new_tcp_transport new_tcp_transport
    sample_limits sample_limits 9 crowded (after crowded) sample_limits_wf sample_limits_wf client_range
    demo_registry_inv crowded_runs). vm_compute. reflexivity.
Defined.

Lemma answered_calls_end_witness :
  stream ∘ header <$> on_the_way_down (after replied) = [mkId 1] ∧
  inevitable demo_registry listening_hooks listening_hooks (λ x', connected x' = false ∨
    ∀ f l p, f ∈ on_the_way_down (after replied) → heap_ (dx_client x') !! l = Some p →
      op_stream (pr_operation p) = stream (header f) →
      is_terminal (pr_operation p) = true ∧
      (receives (pr_channel p) = 1%nat → (cv_receives (ch_view (pr_channel p)) ≤ 1)%nat →
         is_Some (async_wait_resume (msg := demo_msg) demo_registry 2%nat l (dx_client x')))) (after replied).
Proof.
  split; [vm_compute; reflexivity|].
  exact (answered_calls_end demo_registry listening_hooks listening_hooks new_tcp_transport new_tcp_transport
    sample_limits sample_limits 9 replied (after replied) 2%nat sample_limits_wf sample_limits_wf client_range
    replied_runs).
Defined.

End sample.
