(* ===== verification/TcpClient.v ===== *)
(** * The TCP client

    [include/rillnet/tcp_client.hpp]: resolving a host, connecting to it under a timeout and
    reporting the outcome.  What the resolver, the socket and the timer answer comes from the
    environment; the operator that races the connect against the timer is third-party code
    and a class. *)

From S2P Require Import Prelude Status Transport.

Local Open Scope Z_scope.
Local Open Scope string_scope.
Local Open Scope list_scope.

(** Milliseconds. *)
Definition default_connect_timeout : Z := 10000.

(** ** Errors of the run-time *)

(** The values of [boost::system::error_code] that [classify_connect_error] tells apart. *)
Inductive ErrorCode :=
  | connection_refused
  | connection_reset
  | eof
  | connection_aborted
  | other_error (value : Z).

#[export] Instance ErrorCode_eq_dec : EqDecision ErrorCode.
Proof. solve_decision. Defined.

(** [boost::system::system_error]. *)
Record SystemError := mkSystemError {
  se_code : ErrorCode;
  se_what : string;
}.

(** ** [operator||] on awaitables *)

(** How one awaitable ends, and the two awaitables of [a || b]. *)
Inductive Completion := Completes | Throws (error : SystemError).

Inductive Side := LeftSide | RightSide.

(** What [a || b] does: it yields a variant with the index of an operand, or throws
    [multiple_exceptions], which holds the exception of an operand. *)
Inductive RaceOutcome := RaceIndex (side : Side) | RaceThrows (first : SystemError).

(** An operand that would end after the race is decided is cancelled; the list holds how the
    operands end when nobody cancels them, in order of time. *)
Definition Endings : Type := list (Side * Completion).

Definition succeeds (e : Side * Completion) : bool :=
  match e.2 with Completes => true | Throws _ => false end.

Class AwaitableOr := awaitable_or : Endings → RaceOutcome.

(** [wait_for_one_success]: the first operand that succeeds decides; a failure of one
    operand leaves the other running, and only when both have failed does the operator
    throw. *)
Class AwaitableOrLaws `{!AwaitableOr} : Prop := {
  or_success (before after : Endings) side :
    Forall (λ e, succeeds e = false) before →
    awaitable_or (before ++ (side, Completes) :: after) = RaceIndex side;
  or_failure side error (rest : Endings) :
    Forall (λ e, succeeds e = false) rest →
    awaitable_or ((side, Throws error) :: rest) = RaceThrows error;
}.

(** ** [ConnectResult] *)

Record ConnectResult := mkConnectResult {
  cr_transport : option TcpTransport;
  cr_status : StatusCode;
  cr_message : string;
}.

Definition cr_ok (r : ConnectResult) : bool := bool_decide (cr_status r = StatusCode.ok).

Definition connect_success (transport : TcpTransport) : ConnectResult :=
  mkConnectResult (Some transport) StatusCode.ok "".

Definition connect_failure (status : StatusCode) (message : string) : ConnectResult :=
  mkConnectResult None status message.

Definition classify_connect_error (error : ErrorCode) : StatusCode :=
  if bool_decide (error = connection_refused) || bool_decide (error = connection_reset)
  then StatusCode.connection_reset
  else if bool_decide (error = eof) || bool_decide (error = connection_aborted)
  then StatusCode.connection_closed
  else StatusCode.transport_error.

(** ** [connect] *)

Section connect.
Context `{!AwaitableOr}.

(** [async_resolve] finds the endpoints or throws. *)
Inductive ResolveIo := Resolved | ResolveThrows (error : SystemError).

(** [connect] returns a result, or an exception that its handler does not catch leaves it. *)
Inductive ConnectOutcome :=
  | ConnectReturns (result : ConnectResult)
  | ConnectEscapes (first : SystemError).

(** The local socket at the end: not yet constructed, closed (by [close] or by its
    destructor) or moved into the transport. *)
Inductive SocketFate := SocketAbsent | SocketClosed | SocketMoved.

(** The body of [connect] from the answer of the resolver on; the left operand of the race
    is the connect, the right one the timer. *)
Definition connect (host : string) (resolve : ResolveIo) (endings : Endings)
    : ConnectOutcome * SocketFate :=
  match resolve with
  | ResolveThrows error =>
      (ConnectReturns (connect_failure (classify_connect_error (se_code error)) (se_what error)),
       SocketAbsent)
  | Resolved =>
      match awaitable_or endings with
      | RaceThrows first => (ConnectEscapes first, SocketClosed)
      | RaceIndex RightSide =>
          (ConnectReturns (connect_failure StatusCode.connection_timed_out
             ("connection to " +:+ host +:+ " timed out")), SocketClosed)
      | RaceIndex LeftSide => (ConnectReturns (connect_success new_tcp_transport), SocketMoved)
      end
  end.

(** ** Properties *)

Context `{!AwaitableOrLaws}.

Lemma or_left_first after : awaitable_or ((LeftSide, Completes) :: after) = RaceIndex LeftSide.
Proof. by apply (or_success []). Qed.

Lemma or_right_first after : awaitable_or ((RightSide, Completes) :: after) = RaceIndex RightSide.
Proof. by apply (or_success []). Qed.

Lemma or_failed_left error after :
  awaitable_or ((LeftSide, Throws error) :: (RightSide, Completes) :: after) = RaceIndex RightSide.
Proof. apply (or_success [(LeftSide, Throws error)]). by repeat constructor. Qed.

(** The timer never fails: nothing cancels it before the race is decided. *)
Definition timer_expires (endings : Endings) (conn : Completion) : Prop :=
  endings = [(LeftSide, conn); (RightSide, Completes)] ∨
  endings = [(RightSide, Completes); (LeftSide, conn)].

(** What a caller may rely on: success comes with a transport, failure with none. *)
Definition connect_result_consistent (r : ConnectResult) (fate : SocketFate) : Prop :=
  if cr_ok r then cr_transport r = Some new_tcp_transport ∧ cr_message r = "" ∧ fate = SocketMoved
  else cr_transport r = None ∧ fate ≠ SocketMoved.

(** Once the timeout is armed, [connect] returns without throwing whatever the connect
    operation does.  It succeeds exactly when the connect succeeds before the timer expires,
    and then hands an open transport that owns the socket to the caller; in every other case
    it reports [connection_timed_out], no transport, and the socket has been closed. *)
Theorem connect_returns host endings conn :
  timer_expires endings conn →
  ∃ r fate, connect host Resolved endings = (ConnectReturns r, fate) ∧
    connect_result_consistent r fate ∧
    (cr_ok r = true ↔ endings = [(LeftSide, Completes); (RightSide, Completes)]) ∧
    (if cr_ok r then option_map tcp_is_open (cr_transport r) = Some true
     else cr_status r = StatusCode.connection_timed_out ∧
          cr_message r = "connection to " +:+ host +:+ " timed out").
Proof.
  intros [->| ->]; unfold connect; [destruct conn|].
  - rewrite or_left_first. by repeat eexists.
  - rewrite or_failed_left. by repeat eexists.
  - rewrite or_right_first. repeat eexists; done.
Qed.

(** The first operand that succeeds decides the race. *)
Lemma or_first_success (endings : Endings) side :
  (side, Completes) ∈ endings → ∃ side', (side', Completes) ∈ endings ∧ awaitable_or endings = RaceIndex side'.
Proof.
  intros Hin. destruct (list_find (λ e, succeeds e = true) endings) as [[i e]|] eqn:Hf.
  - apply list_find_Some in Hf as (Hi & He & Hbefore). destruct e as [side' []]; [|done]. exists side'.
    split; [by eapply list_elem_of_lookup_2|]. rewrite <-(take_drop_middle _ _ _ Hi). apply or_success.
    apply Forall_lookup. intros j e Hj. apply lookup_take_Some in Hj as [Hj Hlt].
    destruct (succeeds e) eqn:Hs; [by destruct (Hbefore j e)|done].
  - apply list_find_None in Hf. rewrite Forall_forall in Hf. by destruct (Hf _ Hin).
Qed.

(** C40: a connect that fails - for example because the peer refuses it - is never reported
    as such: the failed operand does not decide the race, [connect] goes on waiting for the
    timer and reports [connection_timed_out], for every way of failing and every order of the
    endings; when the timer fails too, an exception leaves [connect].  A status other than
    [ok] and [connection_timed_out] is the classification of an error of the resolver, in
    every call. *)
Theorem refused_connect_reports_timeout host :
  (∀ endings, (LeftSide, Completes) ∉ endings → (RightSide, Completes) ∈ endings →
    connect host Resolved endings =
      (ConnectReturns (connect_failure StatusCode.connection_timed_out
         ("connection to " +:+ host +:+ " timed out")), SocketClosed)) ∧
  (∀ side error rest, Forall (λ e, succeeds e = false) rest →
    connect host Resolved ((side, Throws error) :: rest) = (ConnectEscapes error, SocketClosed)) ∧
  (∀ resolve endings r fate, connect host resolve endings = (ConnectReturns r, fate) →
    cr_status r ≠ StatusCode.ok → cr_status r ≠ StatusCode.connection_timed_out →
    ∃ error, resolve = ResolveThrows error ∧
      r = connect_failure (classify_connect_error (se_code error)) (se_what error)).
Proof.
  split_and!.
  - intros endings Hleft Hright. destruct (or_first_success _ _ Hright) as ([] & Hin & Hor); [done|].
    unfold connect. by rewrite Hor.
  - intros side error rest Hrest. unfold connect. by rewrite or_failure.
  - intros [|error] endings r fate; unfold connect; [|intros [= <- <-] _ _; eauto].
    destruct (awaitable_or endings) as [[]|]; by intros [= <- <-].
Qed.

End connect.

(** Every class of error has its status, and the status is of the transport category. *)
Lemma classify_connect_error_transport error :
  status_category (classify_connect_error error) = StatusCategory.transport ∧
  classify_connect_error error ≠ StatusCode.connection_timed_out.
Proof. destruct error; by vm_compute. Qed.

(** ** A race that meets the laws *)

#[export] Instance first_success : AwaitableOr := λ endings,
  match list_find (λ e, succeeds e = true) endings with
  | Some (_, (side, _)) => RaceIndex side
  | None =>
      match endings with
      | (_, Throws error) :: _ => RaceThrows error
      | _ => RaceThrows (mkSystemError (other_error 0) "")
      end
  end.

#[export] Instance first_success_laws : AwaitableOrLaws.
Proof.
  split.
  - intros before after side Hb. unfold awaitable_or, first_success.
    rewrite list_find_app_r; [simpl; done|].
    apply list_find_None. eapply Forall_impl; [exact Hb|]. simpl. congruence.
  - intros side error rest Hr. unfold awaitable_or, first_success.
    rewrite (proj2 (list_find_None _ _)); [done|]. constructor; [done|].
    eapply Forall_impl; [exact Hr|]. simpl. congruence.
Qed.

Lemma connect_returns_witness :
  timer_expires [(LeftSide, Completes); (RightSide, Completes)] Completes ∧
  ∃ r fate, connect "host" Resolved [(LeftSide, Completes); (RightSide, Completes)]
    = (ConnectReturns r, fate) ∧ connect_result_consistent r fate ∧
    (cr_ok r = true ↔ [(LeftSide, Completes); (RightSide, Completes)]
       = [(LeftSide, Completes); (RightSide, Completes)]) ∧
    (if cr_ok r then option_map tcp_is_open (cr_transport r) = Some true
     else cr_status r = StatusCode.connection_timed_out ∧
          cr_message r = "connection to " +:+ "host" +:+ " timed out").
Proof.
  split; [by left|]. apply (connect_returns "host" _ Completes). by left.
Defined.

Lemma refused_connect_reports_timeout_witness :
  AwaitableOrLaws ∧
  connect "host" Resolved
     [(LeftSide, Throws (mkSystemError connection_refused "refused")); (RightSide, Completes)] =
    (ConnectReturns (connect_failure StatusCode.connection_timed_out
       ("connection to " +:+ "host" +:+ " timed out")), SocketClosed) ∧
  connect "host" Resolved
     [(LeftSide, Throws (mkSystemError connection_refused "refused"));
      (RightSide, Throws (mkSystemError (other_error 125) "cancelled"))] =
    (ConnectEscapes (mkSystemError connection_refused "refused"), SocketClosed) ∧
  ∃ error, ResolveThrows (mkSystemError eof "eof") = ResolveThrows error ∧
    connect_failure StatusCode.connection_closed "eof"
      = connect_failure (classify_connect_error (se_code error)) (se_what error).
Proof.
  split; [exact first_success_laws|]. destruct (refused_connect_reports_timeout "host") as (Ht & Hx & Hc).
  split; [|split].
  - apply Ht; [intros [[=]|[[=]|[]%elem_of_nil]%elem_of_cons]%elem_of_cons|right; left].
  - apply Hx. by repeat constructor.
  - by apply (Hc (ResolveThrows (mkSystemError eof "eof")) [] _ SocketAbsent).
Defined.
