(* ===== verification/TcpServer.v ===== *)
(** * The TCP server

    [include/rillnet/tcp_server.hpp]: the accept loop, and the shutdown that stops it and
    drains the registered connections to one deadline.  The coroutines ([run], [shutdown] and
    the drains that [shutdown] spawns) are part of the state, cut at their suspension points;
    [exec] performs one step of one of them, or one call of the application. *)

From S2P Require Import Prelude Transport Channel.

Local Open Scope Z_scope.

(** What [async_accept] answers: a connected socket or an error code, of which
    [operation_aborted] is singled out. *)
Inductive AcceptIo := Accepted | AcceptAborted | AcceptError (value : Z).

Section tcp_server.
Context {Ch : Type → Type} `{!Channel Ch}.

(** The application's connection handlers and drain handlers. *)
Context {Handler Drain : Type}.

(** An element of the vector of drain handlers becomes empty when [shutdown] moves from
    it. *)
Record TcpServer := mkTcpServer {
  acceptor_is_open : bool;
  connection_handler_ : option Handler;
  connection_shutdown_handlers_ : list (option Drain);
  stopping_ : bool;
}.

Definition new_tcp_server : TcpServer := mkTcpServer true None [] false.

Definition on_connection (h : Handler) (s : TcpServer) : TcpServer :=
  mkTcpServer (acceptor_is_open s) (Some h) (connection_shutdown_handlers_ s) (stopping_ s).

Definition register_connection_shutdown (d : Drain) (s : TcpServer) : TcpServer :=
  mkTcpServer (acceptor_is_open s) (connection_handler_ s)
    (connection_shutdown_handlers_ s ++ [Some d]) (stopping_ s).

Definition stop (s : TcpServer) : TcpServer :=
  if stopping_ s then s
  else mkTcpServer false (connection_handler_ s) (connection_shutdown_handlers_ s) true.

(** The destructor. *)
Definition destroy (s : TcpServer) : TcpServer := stop s.

(** What a connection handler may do to the server that called it. *)
Inductive ServerCall := CallOnConnection (h : Handler) | CallRegister (d : Drain) | CallStop.

Definition server_call (s : TcpServer) (call : ServerCall) : TcpServer :=
  match call with
  | CallOnConnection h => on_connection h s
  | CallRegister d => register_connection_shutdown d s
  | CallStop => stop s
  end.

(** ** The accept loop *)

Inductive RunState := RunAccepting | RunDone | RunThrew.

(** How the application's connection handler ends. *)
Inductive HandlerEnd := HandlerReturns | HandlerThrows.

(** The test of the [while] loop, then the accept. *)
Definition run_loop (s : TcpServer) : RunState := if stopping_ s then RunDone else RunAccepting.

(** The rest of the iteration when the accept has ended.  [calls] are the calls on the server
    that the connection handler makes before it returns or throws, which ends the loop with
    its exception; the handler and the transport it is given come out as the third
    component. *)
Definition run_accepted (io : AcceptIo) (calls : list ServerCall) (e : HandlerEnd) (s : TcpServer)
    : RunState * TcpServer * option (Handler * TcpTransport) :=
  match io with
  | AcceptAborted => (RunDone, s, None)
  | AcceptError _ => ((if stopping_ s then RunDone else run_loop s), s, None)
  | Accepted =>
      match connection_handler_ s with
      | Some h =>
          let s' := fold_left server_call calls s in
          ((match e with HandlerReturns => run_loop s' | HandlerThrows => RunThrew end),
           s', Some (h, new_tcp_transport))
      | None => (run_loop s, s, None)
      end
  end.

(** ** Shutdown *)

(** A spawned drain: before it calls its handler (which is empty when the vector's element
    had been moved from), while the handler runs, before it sends, and at its end. *)
Inductive DrainState := DrainSpawned | DrainRunning | DrainSending | DrainEnded.

#[local] Instance DrainState_eq_dec : EqDecision DrainState.
Proof. solve_decision. Defined.

Record DrainTask := mkDrain {
  dt_handler : option Drain;
  dt_state : DrainState;
}.

(** One execution of [shutdown]: the captured deadline and channel, the spawned drains, the
    index of the receiving loop, and whether it has returned. *)
Record ShutdownTask := mkShutdown {
  sd_deadline : Z;
  sd_completion : Ch unit;
  sd_drains : list DrainTask;
  sd_index : nat;
  sd_returned : bool;
}.

Definition clear_handlers (s : TcpServer) : TcpServer :=
  mkTcpServer (acceptor_is_open s) (connection_handler_ s) [] (stopping_ s).

(** The test of the receiving loop: receive once more, or clear the handlers and return. *)
Definition shutdown_loop (t : ShutdownTask) (s : TcpServer) : ShutdownTask * TcpServer :=
  if decide (sd_index t < length (connection_shutdown_handlers_ s))%nat then
    (mkShutdown (sd_deadline t) (ch_async_receive (sd_completion t)) (sd_drains t)
       (sd_index t) false, s)
  else
    (mkShutdown (sd_deadline t) (sd_completion t) (sd_drains t) (sd_index t) true,
     clear_handlers s).

(** [shutdown] until it first suspends.  The loop that spawns the drains moves every handler
    into its coroutine. *)
Definition shutdown (now drain_period : Z) (s : TcpServer) : ShutdownTask * TcpServer :=
  let s := stop s in
  let deadline := now + drain_period in
  let handlers := connection_shutdown_handlers_ s in
  let completion := ch_make (Z.of_nat (length handlers)) in
  let drains := (λ h, mkDrain h DrainSpawned) <$> handlers in
  let s := mkTcpServer (acceptor_is_open s) (connection_handler_ s)
             ((λ _, None) <$> handlers) (stopping_ s) in
  shutdown_loop (mkShutdown deadline completion drains 0 false) s.

(** The receive has completed (an error is redirected and ignored). *)
Definition shutdown_received (t : ShutdownTask) (s : TcpServer) : option (ShutdownTask * TcpServer) :=
  if sd_returned t then None
  else
    match ch_resume (sd_completion t) with
    | None => None
    | Some (_, completion) =>
        Some (shutdown_loop
          (mkShutdown (sd_deadline t) completion (sd_drains t) (S (sd_index t)) false) s)
    end.

(** One stretch of a drain: calling the handler (calling an empty [std::function] throws, and
    everything thrown is caught), the end of the handler, whether it returns or throws, and
    [async_send], which completes when the channel takes the message. *)
Definition drain_step (t : ShutdownTask) (i : nat) : option ShutdownTask :=
  match sd_drains t !! i with
  | None => None
  | Some d =>
      let set st c := Some (mkShutdown (sd_deadline t) c
                        (<[i := mkDrain (dt_handler d) st]> (sd_drains t))
                        (sd_index t) (sd_returned t)) in
      match dt_state d with
      | DrainSpawned =>
          set (if dt_handler d is Some _ then DrainRunning else DrainSending) (sd_completion t)
      | DrainRunning => set DrainSending (sd_completion t)
      | DrainSending =>
          match ch_try_send tt (sd_completion t) with
          | (true, c) => set DrainEnded c
          | (false, _) => None
          end
      | DrainEnded => None
      end
  end.

(** ** Everything together *)

(** The server, the accept loops and the shutdowns that were started on it and, as history,
    the connections handed to the application and the calls of drain handlers, each with the
    deadline it was given. *)
Record ServerSystem := mkSystem {
  sys_server : TcpServer;
  sys_runs : list RunState;
  sys_shutdowns : list ShutdownTask;
  sys_connections : list (Handler * TcpTransport);
  sys_drained : list (Drain * Z);
}.

Definition new_system : ServerSystem := mkSystem new_tcp_server [] [] [] [].

(** The handler that a step of drain [i] calls. *)
Definition drain_call (t : ShutdownTask) (i : nat) : list (Drain * Z) :=
  match sd_drains t !! i with
  | Some (mkDrain (Some h) DrainSpawned) => [(h, sd_deadline t)]
  | _ => []
  end.

Inductive Action :=
  | ACall (call : ServerCall)
  | ARun
  | AAccept (r : nat) (io : AcceptIo) (calls : list ServerCall) (e : HandlerEnd)
  | AShutdown (now drain_period : Z)
  | ADrain (k i : nat)
  | AReceived (k : nat).

Definition exec (a : Action) (y : ServerSystem) : option ServerSystem :=
  let '(mkSystem s runs shutdowns conns drained) := y in
  match a with
  | ACall call => Some (mkSystem (server_call s call) runs shutdowns conns drained)
  | ARun => Some (mkSystem s (runs ++ [run_loop s]) shutdowns conns drained)
  | AAccept r io calls e =>
      match runs !! r with
      | Some RunAccepting =>
          let '(st, s', conn) := run_accepted io calls e s in
          Some (mkSystem s' (<[r := st]> runs) shutdowns (conns ++ option_list conn) drained)
      | _ => None
      end
  | AShutdown now period =>
      let '(t, s') := shutdown now period s in
      Some (mkSystem s' runs (shutdowns ++ [t]) conns drained)
  | ADrain k i =>
      match shutdowns !! k with
      | None => None
      | Some t =>
          match drain_step t i with
          | None => None
          | Some t' =>
              Some (mkSystem s runs (<[k := t']> shutdowns) conns (drained ++ drain_call t i))
          end
      end
  | AReceived k =>
      match shutdowns !! k with
      | None => None
      | Some t =>
          match shutdown_received t s with
          | None => None
          | Some (t', s') => Some (mkSystem s' runs (<[k := t']> shutdowns) conns drained)
          end
      end
  end.

Fixpoint exec_all (l : list Action) (y : ServerSystem) : option ServerSystem :=
  match l with
  | [] => Some y
  | a :: l => match exec a y with Some y' => exec_all l y' | None => None end
  end.

(** ** The accept loop *)

Definition stopped_closed (s : TcpServer) : Prop := acceptor_is_open s = negb (stopping_ s).

Lemma stop_stopping s : stopping_ (stop s) = true.
Proof. unfold stop. by destruct (stopping_ s) eqn:?. Qed.

Lemma server_call_stopping call s :
  (stopping_ s = true → stopping_ (server_call s call) = true) ∧
  (stopped_closed s → stopped_closed (server_call s call)).
Proof. by destruct s as [? ? ? []], call. Qed.

Lemma server_calls_stopping calls s :
  (stopping_ s = true → stopping_ (fold_left server_call calls s) = true) ∧
  (stopped_closed s → stopped_closed (fold_left server_call calls s)).
Proof.
  revert s. induction calls as [|call calls IH]; intros s; [done|]. simpl.
  destruct (IH (server_call s call)), (server_call_stopping call s). auto.
Qed.

Lemma shutdown_loop_stopping t s :
  stopping_ (shutdown_loop t s).2 = stopping_ s ∧
  acceptor_is_open (shutdown_loop t s).2 = acceptor_is_open s.
Proof. unfold shutdown_loop. by case_decide. Qed.

Lemma shutdown_stopping now period s :
  stopping_ (shutdown now period s).2 = true ∧
  (stopped_closed s → stopped_closed (shutdown now period s).2).
Proof.
  unfold shutdown, stopped_closed. pose proof (shutdown_loop_stopping) as H.
  cbv zeta. rewrite !(proj1 (H _ _)), !(proj2 (H _ _)). simpl. rewrite stop_stopping.
  split; [done|]. unfold stop. by destruct (stopping_ s) eqn:?.
Qed.

Lemma run_accepted_stopping io calls e s :
  let s' := (run_accepted io calls e s).1.2 in
  (stopping_ s = true → stopping_ s' = true) ∧ (stopped_closed s → stopped_closed s').
Proof.
  unfold run_accepted. destruct io; simpl; [|done..]. destruct (connection_handler_ s); [|done].
  simpl. apply server_calls_stopping.
Qed.

Lemma exec_stopping a y y' :
  exec a y = Some y' →
  (stopping_ (sys_server y) = true → stopping_ (sys_server y') = true) ∧
  (stopped_closed (sys_server y) → stopped_closed (sys_server y')).
Proof.
  destruct y as [s runs sds conns drained], a as [call| |r io calls e|now p|k i|k]; simpl.
  - intros [= <-]. apply server_call_stopping.
  - by intros [= <-].
  - destruct (runs !! r) as [[]|]; [|done..].
    pose proof (run_accepted_stopping io calls e s) as H.
    destruct (run_accepted io calls e s) as [[st s'] conn]. by intros [= <-].
  - pose proof (shutdown_stopping now p s) as H. destruct (shutdown now p s) as [t s'].
    intros [= <-]. simpl in *. tauto.
  - destruct (sds !! k) as [t|]; [|done]. destruct (drain_step t i); [|done]. by intros [= <-].
  - destruct (sds !! k) as [t|]; [|done]. unfold shutdown_received.
    destruct (sd_returned t); [done|]. destruct (ch_resume _) as [[? c]|]; [|done].
    match goal with |- context [shutdown_loop ?x s] =>
      pose proof (shutdown_loop_stopping x s) as [H1 H2]; destruct (shutdown_loop x s) end.
    intros [= <-]. unfold stopped_closed. simpl in *. by rewrite H1, H2.
Qed.

Lemma exec_all_app l1 l2 y :
  exec_all (l1 ++ l2) y = match exec_all l1 y with Some y' => exec_all l2 y' | None => None end.
Proof. revert y. induction l1 as [|a l1 IH]; intros y; [done|]. simpl. by destruct (exec a y). Qed.

(** An invariant of single steps is an invariant of executions. *)
Lemma exec_all_invariant (ok : Action → Prop) (P : ServerSystem → Prop) l y y' :
  (∀ a y y', ok a → P y → exec a y = Some y' → P y') →
  Forall ok l → P y → exec_all l y = Some y' → P y'.
Proof.
  intros Hstep Hl. revert y. induction Hl as [|a l Ha Hl IH]; simpl; intros y Hy; [congruence|].
  destruct (exec a y) as [y1|] eqn:E; [|done]. eauto.
Qed.

Lemma exec_all_stopping l y y' :
  exec_all l y = Some y' → stopped_closed (sys_server y) → stopped_closed (sys_server y').
Proof.
  intros Hl Hy. eapply (exec_all_invariant (λ _, True) (λ y, stopped_closed (sys_server y)));
    [|by apply Forall_true|done|done].
  intros a y1 y2 _ H1 E. by apply (exec_stopping a y1 y2 E).
Qed.

(** The accept loop in every state the server can be in.  A loop whose accept ends goes
    on to the next accept exactly when the server is not stopping by then, the accept was not
    aborted and the application's handler did not throw; so transient errors are ignored and
    change nothing, and after [stop] (when the acceptor is closed) no loop accepts again.
    Exactly the accepted connections are handed over, one open transport each, to the handler
    that is registered. *)
Theorem accept_loop_continues l y r io calls e y' :
  exec_all l new_system = Some y →
  exec (AAccept r io calls e) y = Some y' →
  let s := sys_server y in let s' := sys_server y' in
  (sys_runs y' !! r = Some RunAccepting ↔
     acceptor_is_open s' = true ∧ io ≠ AcceptAborted ∧
     (io = Accepted → is_Some (connection_handler_ s) → e = HandlerReturns)) ∧
  (io ≠ Accepted → s' = s) ∧
  sys_connections y' = sys_connections y ++
    match io, connection_handler_ s with
    | Accepted, Some h => [(h, new_tcp_transport)]
    | _, _ => []
    end.
Proof.
  intros Hl Ha. cbv zeta.
  assert (stopped_closed (sys_server y')) as Hcl.
  { eapply exec_stopping; [exact Ha|]. by eapply exec_all_stopping. }
  unfold stopped_closed in Hcl. rewrite Hcl. clear Hcl Hl.
  destruct y as [s runs sds conns drained]. simpl in *.
  destruct (runs !! r) as [[]|] eqn:Hr; [|done..]. apply lookup_lt_Some in Hr.
  destruct (run_accepted io calls e s) as [[st s'] conn] eqn:E. injection Ha as <-. simpl.
  rewrite list_lookup_insert_eq by done. unfold run_accepted, run_loop in E.
  destruct io as [| |v]; [destruct (connection_handler_ s) as [h|] eqn:Hh|..];
    simplify_eq; simpl; rewrite ?app_nil_r; split_and!; try done.
  - destruct e; [|by split; [|intros (_ & _ & H); discriminate H; eauto]].
    destruct (stopping_ _); naive_solver.
  - destruct (stopping_ _); [naive_solver|]. split; [|done]. intros _. by split_and!.
  - split; [done|]. by intros (_ & ? & _).
  - destruct (stopping_ _); naive_solver.
Qed.

(** ** One shutdown *)

Context `{!ChannelLaws Ch}.

Definition drain_ended (d : DrainTask) : nat := match dt_state d with DrainEnded => 1 | _ => 0 end.

Definition ended (t : ShutdownTask) : nat := sum_list_with drain_ended (sd_drains t).

(** The channel holds one message for every drain that has ended and has not been counted by
    the receiving loop, which waits for one more unless it has returned. *)
Record task_inv (t : ShutdownTask) : Prop := {
  ti_wf : view_wf (ch_view (sd_completion t));
  ti_open : cv_closed (ch_view (sd_completion t)) = false;
  ti_capacity : cv_capacity (ch_view (sd_completion t)) = Z.of_nat (length (sd_drains t));
  ti_messages : (sd_index t + length (view_pending (ch_view (sd_completion t))) = ended t)%nat;
  ti_receiving :
    (cv_waiting (ch_view (sd_completion t)) + length (cv_done (ch_view (sd_completion t)))
     = if sd_returned t then 0 else 1)%nat;
}.

Lemma ended_le t : (ended t ≤ length (sd_drains t))%nat.
Proof.
  unfold ended. induction (sd_drains t) as [|d ds IH]; simpl; [lia|].
  unfold drain_ended at 1. destruct (dt_state d); lia.
Qed.

Lemma ended_lt t i d :
  sd_drains t !! i = Some d → dt_state d ≠ DrainEnded → (ended t < length (sd_drains t))%nat.
Proof.
  unfold ended. revert i. induction (sd_drains t) as [|d' ds IH]; intros [|i]; simpl; try done.
  - intros [= ->] Hd. pose proof (ended_le (mkShutdown 0 (ch_make 0) ds 0 false)) as H.
    unfold ended in H. simpl in H. unfold drain_ended at 1. destruct (dt_state d); done || lia.
  - intros Hi Hd. specialize (IH _ Hi Hd). unfold drain_ended at 1. destruct (dt_state d'); lia.
Qed.

Lemma ended_all t :
  (length (sd_drains t) ≤ ended t)%nat → Forall (λ d, dt_state d = DrainEnded) (sd_drains t).
Proof.
  intros H. apply Forall_lookup. intros i d Hi.
  destruct (decide (dt_state d = DrainEnded)) as [|Hne]; [done|].
  pose proof (ended_lt t i d Hi Hne). lia.
Qed.

Lemma all_ended t :
  Forall (λ d, dt_state d = DrainEnded) (sd_drains t) → ended t = length (sd_drains t).
Proof.
  unfold ended. induction 1 as [|d ds Hd _ IH]; [done|]. simpl. rewrite IH.
  unfold drain_ended. by rewrite Hd.
Qed.

(** The capacity makes room for every drain: [async_send] never has to wait. *)
Lemma completion_has_room t i d :
  task_inv t → sd_drains t !! i = Some d → dt_state d ≠ DrainEnded →
  (ch_try_send tt (sd_completion t)).1 = true.
Proof.
  intros [Hwf Ho Hcap Hm _] Hi Hd. pose proof (ended_lt t i d Hi Hd) as Hlt.
  pose proof (ch_view_try_send tt (sd_completion t)) as Hs.
  destruct (ch_try_send tt (sd_completion t)) as [[] c]; [done|]. simpl in Hs.
  symmetry in Hs. apply view_try_send_false in Hs as [_ Hs]. destruct (Hs Ho) as [_ Hfull].
  unfold view_pending in Hm. rewrite length_app in Hm. lia.
Qed.

(** The calls of drain handlers that have been made. *)
Definition drain_called (deadline : Z) (d : DrainTask) : option (Drain * Z) :=
  match dt_state d with
  | DrainSpawned => None
  | _ => (λ h, (h, deadline)) <$> dt_handler d
  end.

Definition called (t : ShutdownTask) : list (Drain * Z) := omap (drain_called (sd_deadline t)) (sd_drains t).

(** Steps that are left to a drain, and to the whole shutdown. *)
Definition drain_work (d : DrainTask) : nat :=
  match dt_state d with DrainSpawned => 3 | DrainRunning => 2 | DrainSending => 1 | DrainEnded => 0 end.

Definition work (t : ShutdownTask) : nat := sum_list_with drain_work (sd_drains t).

(** What a step of a drain does to its shutdown. *)
Record drain_steps (t t' : ShutdownTask) (i : nat) : Prop := {
  ds_inv : task_inv t';
  ds_deadline : sd_deadline t' = sd_deadline t;
  ds_index : sd_index t' = sd_index t;
  ds_returned : sd_returned t' = sd_returned t;
  ds_handlers : dt_handler <$> sd_drains t' = dt_handler <$> sd_drains t;
  ds_work : (work t' < work t)%nat;
  ds_called : called t' ≡ₚ called t ++ drain_call t i;
}.

Lemma set_drain_spec t i d st c :
  sd_drains t !! i = Some d →
  task_inv (mkShutdown (sd_deadline t) c (<[i := mkDrain (dt_handler d) st]> (sd_drains t))
    (sd_index t) (sd_returned t)) →
  (drain_work (mkDrain (dt_handler d) st) < drain_work d)%nat →
  drain_steps t (mkShutdown (sd_deadline t) c (<[i := mkDrain (dt_handler d) st]> (sd_drains t))
    (sd_index t) (sd_returned t)) i.
Proof.
  intros Hi Hinv Hw. split; simpl; try done.
  - rewrite list_fmap_insert. simpl. apply list_insert_id. by rewrite list_lookup_fmap, Hi.
  - unfold work. simpl.
    pose proof (sum_list_with_insert drain_work _ i d (mkDrain (dt_handler d) st) Hi). lia.
  - unfold called, drain_call. simpl. rewrite Hi. destruct d as [h st0]. simpl in *.
    destruct (decide (st0 = DrainSpawned)) as [->|Hst].
    + rewrite (omap_list_insert _ _ i _ _ Hi) by done. unfold drain_called at 2. simpl.
      destruct st; [unfold drain_work in Hw; simpl in Hw; lia|..]; by destruct h.
    + rewrite (omap_list_insert_same _ _ i _ _ Hi).
      * destruct h, st0; by rewrite ?app_nil_r.
      * unfold drain_called. simpl. unfold drain_work in Hw. simpl in Hw.
        destruct st, st0; done || lia.
Qed.

Lemma drain_step_spec t i t' : task_inv t → drain_step t i = Some t' → drain_steps t t' i.
Proof.
  intros Hinv. unfold drain_step. destruct (sd_drains t !! i) as [d|] eqn:Hi; [|done].
  assert (∀ st, drain_ended (mkDrain (dt_handler d) st) = drain_ended d → task_inv
    (mkShutdown (sd_deadline t) (sd_completion t) (<[i := mkDrain (dt_handler d) st]> (sd_drains t))
      (sd_index t) (sd_returned t))) as Hsame.
  { intros st He. destruct Hinv. split; simpl; rewrite ?length_insert; try done. unfold ended. simpl.
    pose proof (sum_list_with_insert drain_ended _ i d (mkDrain (dt_handler d) st) Hi). unfold ended in *. lia. }
  pose proof (completion_has_room t i d Hinv Hi) as Hroom.
  destruct d as [h st]. simpl in *. destruct st; [..|done].
  - intros [= <-]. apply (set_drain_spec t i _ _ _ Hi); [apply Hsame|]; by destruct h; cbn; lia.
  - intros [= <-]. apply (set_drain_spec t i _ _ _ Hi); [by apply Hsame|cbn; lia].
  - specialize (Hroom ltac:(done)). pose proof (ch_view_try_send tt (sd_completion t)) as Hs.
    destruct (ch_try_send tt (sd_completion t)) as [[] c]; [|done]. intros [= <-].
    apply (set_drain_spec t i _ _ _ Hi); [|cbn; lia].
    destruct Hinv as [Hwf Ho Hcap Hm Hr]. simpl in Hs. symmetry in Hs.
    destruct (view_try_send_true _ _ _ Hwf Hs) as (Hwf' & _ & Ho' & Hc' & Hp & Hn).
    split; simpl; rewrite ?length_insert; try done; try congruence.
    + unfold ended. simpl. rewrite Hp, length_app. simpl.
      pose proof (sum_list_with_insert drain_ended _ i _ (mkDrain h DrainEnded) Hi) as He.
      unfold ended in *. unfold drain_ended at 2 4 in He. simpl in He. lia.
Qed.

(** The receiving loop, from its test on, when the previous receive has been taken. *)
Lemma shutdown_loop_spec t s t' s' :
  shutdown_loop t s = (t', s') →
  view_wf (ch_view (sd_completion t)) → cv_closed (ch_view (sd_completion t)) = false →
  cv_capacity (ch_view (sd_completion t)) = Z.of_nat (length (sd_drains t)) →
  (sd_index t + length (view_pending (ch_view (sd_completion t))) = ended t)%nat →
  (cv_waiting (ch_view (sd_completion t)) + length (cv_done (ch_view (sd_completion t))) = 0)%nat →
  task_inv t' ∧ sd_drains t' = sd_drains t ∧ sd_deadline t' = sd_deadline t ∧ sd_index t' = sd_index t ∧
  (if sd_returned t'
   then (length (connection_shutdown_handlers_ s) ≤ sd_index t)%nat ∧ s' = clear_handlers s
   else (sd_index t < length (connection_shutdown_handlers_ s))%nat ∧ s' = s).
Proof.
  intros E Hwf Ho Hc Hm Hr. unfold shutdown_loop in E. case_decide; simplify_eq; simpl.
  - destruct (view_async_receive_spec _ Hwf) as (Hwf' & Ho' & Hc' & Hp' & Hn').
    split_and!; try done. split; simpl; rewrite ?ch_view_async_receive; try done; try congruence.
    by rewrite Hp'.
  - split_and!; try done; lia.
Qed.

Lemma shutdown_spec now period s t s' :
  shutdown now period s = (t, s') →
  let n := length (connection_shutdown_handlers_ s) in
  task_inv t ∧ dt_handler <$> sd_drains t = connection_shutdown_handlers_ s ∧
  Forall (λ d, dt_state d = DrainSpawned) (sd_drains t) ∧
  sd_deadline t = now + period ∧ sd_index t = 0%nat ∧ sd_returned t = bool_decide (n = 0%nat) ∧
  connection_shutdown_handlers_ s' = replicate n None.
Proof.
  intros E. cbv zeta. unfold shutdown in E. set (hs := connection_shutdown_handlers_ s).
  assert (connection_shutdown_handlers_ (stop s) = hs) as Hhs by (unfold stop; by case_match).
  rewrite Hhs in E. apply shutdown_loop_spec in E; simpl; rewrite ?ch_view_make; simpl; try done.
  - destruct E as (Hinv & Hd & Hdl & Hi & Hret). simpl in *. rewrite Hd, Hdl, Hi. split_and!; try done.
    + rewrite <-list_fmap_compose. apply list_fmap_id.
    + apply Forall_fmap, Forall_true. done.
    + rewrite length_fmap in Hret. destruct (sd_returned t), Hret; symmetry;
        [apply bool_decide_eq_true|apply bool_decide_eq_false]; lia.
    + rewrite length_fmap in Hret. destruct (sd_returned t); destruct Hret as [Hn ->]; simpl.
      * by replace (length hs) with 0%nat by lia.
      * clear. induction hs; [done|]. cbn. by f_equal.
  - apply view_make_wf.
  - by rewrite length_fmap.
  - unfold ended. simpl. clear. induction hs; [done|]. done.
Qed.

Lemma shutdown_received_spec t s t' s' :
  task_inv t → shutdown_received t s = Some (t', s') →
  task_inv t' ∧ sd_drains t' = sd_drains t ∧ sd_deadline t' = sd_deadline t ∧
  sd_index t' = S (sd_index t) ∧ sd_returned t = false ∧
  (if sd_returned t'
   then (length (connection_shutdown_handlers_ s) ≤ S (sd_index t))%nat ∧ s' = clear_handlers s
   else (S (sd_index t) < length (connection_shutdown_handlers_ s))%nat ∧ s' = s).
Proof.
  intros [Hwf Ho Hc Hm Hr]. unfold shutdown_received. destruct (sd_returned t); [done|].
  pose proof (ch_view_resume (sd_completion t)) as Hres.
  destruct (ch_resume (sd_completion t)) as [[r c]|]; [|done]. simpl in Hres. symmetry in Hres.
  destruct (view_resume_spec _ _ _ Hwf Hres) as (Hwf' & Ho' & Hc' & Hp' & Hnone & Hw' & Hl').
  intros [= E]. apply shutdown_loop_spec in E; simpl; try done; try congruence.
  - simpl in E. naive_solver.
  - destruct r as [[]|]; [|by rewrite Ho in Hnone; specialize (Hnone eq_refl)].
    unfold ended in *. simpl in *. rewrite Hp' in Hm. simpl in Hm. lia.
  - rewrite Hw'. lia.
Qed.

(** While the receiving loop still waits for a drain, a step is possible. *)
Lemma shutdown_progress t s :
  task_inv t → sd_returned t = false → (sd_index t < length (sd_drains t))%nat →
  is_Some (shutdown_received t s) ∨ ∃ i, is_Some (drain_step t i).
Proof.
  intros Hinv Hret Hlt. pose proof Hinv as [Hwf Ho Hc Hm Hr]. rewrite Hret in Hr.
  destruct (cv_done (ch_view (sd_completion t))) as [|x rest] eqn:Hd.
  - right. simpl in Hr.
    assert (cv_buffer (ch_view (sd_completion t)) = []) as Hb
      by (destruct Hwf as (Hwait & _); apply Hwait; lia).
    unfold view_pending in Hm. rewrite Hd, Hb in Hm. simpl in Hm.
    destruct (decide (Forall (λ d, dt_state d = DrainEnded) (sd_drains t))) as [Hall|Hex].
    { rewrite (all_ended t Hall) in Hm. lia. }
    apply not_Forall_Exists in Hex; [|apply _]. apply Exists_exists in Hex as (d & Hin & Hne).
    apply list_elem_of_lookup in Hin as [i Hi]. exists i.
    change (dt_state d ≠ DrainEnded) in Hne.
    pose proof (completion_has_room t i d Hinv Hi Hne) as Hroom. unfold drain_step. rewrite Hi.
    destruct (dt_state d); try done; try (by eexists).
    by destruct (ch_try_send _ _) as [[] c].
  - left. unfold shutdown_received. rewrite Hret.
    pose proof (ch_view_resume (sd_completion t)) as Hres. unfold view_resume in Hres. rewrite Hd in Hres.
    destruct (ch_resume (sd_completion t)) as [[? ?]|]; [by eexists|done].
Qed.

(** ** The shutdown of a server *)

(** The steps of shutdown [k] itself. *)
Definition own (k : nat) (a : Action) : bool :=
  match a with
  | ADrain k' _ | AReceived k' => bool_decide (k' = k)
  | _ => false
  end.

Definition registers (call : ServerCall) : bool :=
  match call with CallRegister _ => true | _ => false end.

(** Nothing registers a connection and no other shutdown goes on; accept loops do. *)
Definition undisturbed (k : nat) (a : Action) : bool :=
  match a with
  | ACall call => negb (registers call)
  | ARun => true
  | AAccept _ _ calls _ => forallb (negb ∘ registers) calls
  | AShutdown _ _ => false
  | ADrain _ _ | AReceived _ => own k a
  end.

(** The steps left to shutdown [t] of a server with [n] registered connections. *)
Definition task_work (n : nat) (t : ShutdownTask) : nat := work t + (n - sd_index t).

Record draining (k n : nat) (y : ServerSystem) (t : ShutdownTask) : Prop := {
  dr_task : sys_shutdowns y !! k = Some t;
  dr_inv : task_inv t;
  dr_length : length (sd_drains t) = n;
  dr_registered : length (connection_shutdown_handlers_ (sys_server y)) = if sd_returned t then 0%nat else n;
  dr_index : if sd_returned t then sd_index t = n else (sd_index t < n)%nat;
}.

(** What the steps of a shutdown keep: its deadline and handlers, and the agreement of the
    log of calls with its drains. *)
Definition same_calls (y : ServerSystem) (t : ShutdownTask) (y' : ServerSystem) (t' : ShutdownTask) : Prop :=
  sd_deadline t' = sd_deadline t ∧ dt_handler <$> sd_drains t' = dt_handler <$> sd_drains t ∧
  ∀ log, sys_drained y ≡ₚ log ++ called t → sys_drained y' ≡ₚ log ++ called t'.

Lemma server_call_handlers call s :
  registers call = false →
  connection_shutdown_handlers_ (server_call s call) = connection_shutdown_handlers_ s.
Proof. destruct call; try done. simpl. unfold stop. by destruct (stopping_ s). Qed.

Lemma run_accepted_handlers io calls e s :
  forallb (negb ∘ registers) calls = true →
  connection_shutdown_handlers_ (run_accepted io calls e s).1.2 = connection_shutdown_handlers_ s.
Proof.
  intros Hc. unfold run_accepted. destruct io; try done. destruct (connection_handler_ s); [|done].
  cbn. revert s Hc. induction calls as [|call calls IH]; intros s; [done|]. simpl.
  intros [H1 H2]%andb_prop. rewrite IH by done. apply server_call_handlers. by destruct (registers call).
Qed.

Lemma draining_step k n a y t y' :
  undisturbed k a = true → draining k n y t → exec a y = Some y' →
  ∃ t', draining k n y' t' ∧ same_calls y t y' t' ∧
    (task_work n t' + (if own k a then 1 else 0) ≤ task_work n t)%nat.
Proof.
  intros Ha [Ht Hinv Hlen Hreg Hidx]. destruct y as [s runs sds conns drained].
  assert (∀ s' runs' conns', connection_shutdown_handlers_ s' = connection_shutdown_handlers_ s →
    ∃ t', draining k n (mkSystem s' runs' sds conns' drained) t' ∧
      same_calls (mkSystem s runs sds conns drained) t (mkSystem s' runs' sds conns' drained) t' ∧
      (task_work n t' + 0 ≤ task_work n t)%nat) as Hother.
  { intros s' runs' conns' Hs. exists t. split_and!; [|done|lia]. split; simpl in *; congruence. }
  simpl in Ht, Hreg. destruct a as [call| |r io calls e|now p|k' i|k']; simpl in Ha |- *; try done.
  - intros [= <-]. apply Hother. apply server_call_handlers. by destruct (registers call).
  - intros [= <-]. by apply Hother.
  - destruct (runs !! r) as [[]|]; [|done..]. pose proof (run_accepted_handlers io calls e s Ha) as Hs.
    destruct (run_accepted io calls e s) as [[st s'] conn]. intros [= <-]. by apply Hother.
  - rewrite Ha. apply bool_decide_eq_true in Ha as ->. rewrite Ht.
    destruct (drain_step t i) as [t'|] eqn:E; [|done]. intros [= <-].
    destruct (drain_step_spec t i t' Hinv E) as [Hinv' Hdl Hi Hret Hh Hw Hc].
    apply (f_equal length) in Hh as Hl. rewrite !length_fmap in Hl.
    exists t'. split_and!.
    + split; simpl; rewrite ?Hret, ?Hi, ?Hl; try done. by rewrite list_lookup_insert_eq
        by (by eapply lookup_lt_Some).
    + split_and!; [done..|]. intros log Hlog. simpl in *. by rewrite Hlog, Hc, app_assoc.
    + unfold task_work. rewrite Hi. lia.
  - rewrite Ha. apply bool_decide_eq_true in Ha as ->. rewrite Ht.
    destruct (shutdown_received t s) as [[t' s']|] eqn:E; [|done]. intros [= <-].
    destruct (shutdown_received_spec t s t' s' Hinv E) as (Hinv' & Hd & Hdl & Hi & Hret & Hs).
    rewrite Hret in Hreg, Hidx. rewrite Hreg in Hs. exists t'. split_and!.
    + split; simpl; rewrite ?Hd; try done.
      * by rewrite list_lookup_insert_eq by (by eapply lookup_lt_Some).
      * destruct (sd_returned t'), Hs as [_ ->]; done.
      * rewrite Hi. destruct (sd_returned t'), Hs; lia.
    + split_and!; [done|by rewrite Hd|]. intros log Hlog. simpl in *. unfold called in *. by rewrite Hd, Hdl.
    + unfold task_work, work. rewrite Hd, Hi. lia.
Qed.

Lemma draining_run k n l y t y' :
  Forall (λ a, undisturbed k a = true) l → draining k n y t → exec_all l y = Some y' →
  ∃ t', draining k n y' t' ∧ same_calls y t y' t' ∧
    (task_work n t' + length (List.filter (own k) l) ≤ task_work n t)%nat.
Proof.
  intros Hl. revert y t. induction Hl as [|a l Ha Hl IH]; intros y t Hd; simpl.
  { intros [= <-]. exists t. by split_and!; [| |lia]. }
  destruct (exec a y) as [y1|] eqn:E; [|done]. intros Hrun.
  destruct (draining_step k n a y t y1 Ha Hd E) as (t1 & Hd1 & (H1 & H2 & H3) & Hw1).
  destruct (IH y1 t1 Hd1 Hrun) as (t2 & Hd2 & (H4 & H5 & H6) & Hw2). exists t2. split_and!.
  - done.
  - split_and!; [congruence..|]. eauto.
  - destruct (own k a); simpl; lia.
Qed.

Lemma draining_start now period y y' :
  exec (AShutdown now period) y = Some y' →
  let hs := connection_shutdown_handlers_ (sys_server y) in
  ∃ t, draining (length (sys_shutdowns y)) (length hs) y' t ∧
    sd_deadline t = now + period ∧ dt_handler <$> sd_drains t = hs ∧
    Forall (λ d, dt_state d = DrainSpawned) (sd_drains t) ∧ sys_drained y' = sys_drained y.
Proof.
  destruct y as [s runs sds conns drained]. simpl.
  destruct (shutdown now period s) as [t s'] eqn:E. intros [= <-].
  destruct (shutdown_spec _ _ _ _ _ E) as (Hinv & Hh & Hst & Hdl & Hi & Hret & Hs').
  exists t. split_and!; try done. split; simpl; rewrite ?Hs', ?length_replicate; try done.
  - by rewrite lookup_app_r, Nat.sub_diag by done.
  - by rewrite <-Hh, length_fmap.
  - rewrite Hret. by case_bool_decide.
  - rewrite Hret, Hi. case_bool_decide; lia.
Qed.

(** As long as a shutdown has not returned, one of its own steps is possible. *)
Lemma draining_progress k n y t :
  draining k n y t → sd_returned t = false → ∃ a, own k a = true ∧ is_Some (exec a y).
Proof.
  intros [Ht Hinv Hlen Hreg Hidx] Hret. rewrite Hret in Hidx.
  destruct y as [s runs sds conns drained]. simpl in Ht.
  destruct (shutdown_progress t s Hinv Hret) as [[[t' s'] E]|(i & t' & E)]; [lia|..].
  - exists (AReceived k). split; [by apply bool_decide_eq_true|]. simpl. rewrite Ht, E. by eexists.
  - exists (ADrain k i). split; [by apply bool_decide_eq_true|]. simpl. rewrite Ht, E. by eexists.
Qed.

Lemma own_undisturbed k a : own k a = true → undisturbed k a = true.
Proof. by destruct a. Qed.

Lemma draining_completes k n y t :
  draining k n y t →
  ∃ l y' t', Forall (λ a, own k a = true) l ∧ exec_all l y = Some y' ∧
    draining k n y' t' ∧ sd_returned t' = true.
Proof.
  remember (task_work n t) as w eqn:Hw. revert y t Hw.
  induction (lt_wf w) as [w _ IH]. intros y t -> Hd.
  destruct (sd_returned t) eqn:Hret; [by exists [], y, t|].
  destruct (draining_progress _ _ _ _ Hd Hret) as (a & Ha & y1 & E).
  destruct (draining_step k n a y t y1 (own_undisturbed _ _ Ha) Hd E) as (t1 & Hd1 & _ & Hw1).
  rewrite Ha in Hw1.
  destruct (IH (task_work n t1) ltac:(lia) y1 t1 eq_refl Hd1) as (l & y2 & t2 & Hl & Hrun & Hd2 & Hr2).
  exists (a :: l), y2, t2. split_and!; auto. simpl. by rewrite E.
Qed.

Lemma called_spawned t : Forall (λ d, dt_state d = DrainSpawned) (sd_drains t) → called t = [].
Proof.
  unfold called. induction 1 as [|[h st] ds Hd _ IH]; [done|]. simpl in Hd. subst st. exact IH.
Qed.

Lemma called_ended t :
  Forall (λ d, dt_state d = DrainEnded) (sd_drains t) →
  called t = (λ h, (h, sd_deadline t)) <$> omap id (dt_handler <$> sd_drains t).
Proof.
  unfold called. induction 1 as [|[[h|] st] ds Hd _ IH]; [done|..]; simpl in Hd; subst st.
  - exact (f_equal (cons _) IH).
  - exact IH.
Qed.

Lemma work_spawned t :
  Forall (λ d, dt_state d = DrainSpawned) (sd_drains t) → work t = (3 * length (sd_drains t))%nat.
Proof.
  unfold work. induction 1 as [|d ds Hd _ IH]; [done|]. simpl. unfold drain_work at 1. rewrite Hd, IH. lia.
Qed.

(** C38: when [shutdown] returns, and no connection was registered and no other shutdown
    went on while it ran, every connection registered before it has been drained: each drain
    handler was called exactly once, with the one deadline of this shutdown, and has ended,
    whether it returned or threw, and the list of handlers is empty. *)
Theorem shutdown_drains_all now period y0 y1 l y2 t :
  exec (AShutdown now period) y0 = Some y1 →
  Forall (λ a, undisturbed (length (sys_shutdowns y0)) a = true) l →
  exec_all l y1 = Some y2 →
  sys_shutdowns y2 !! length (sys_shutdowns y0) = Some t → sd_returned t = true →
  Forall (λ d, dt_state d = DrainEnded) (sd_drains t) ∧
  sys_drained y2 ≡ₚ sys_drained y0 ++
    ((λ h, (h, now + period)) <$> omap id (connection_shutdown_handlers_ (sys_server y0))) ∧
  connection_shutdown_handlers_ (sys_server y2) = [].
Proof.
  intros Hs Hl Hrun Ht Hret.
  destruct (draining_start _ _ _ _ Hs) as (t1 & Hd1 & Hdl & Hh & Hsp & Hlog).
  destruct (draining_run _ _ _ _ _ _ Hl Hd1 Hrun) as (t2 & [Ht2 Hinv Hlen Hreg Hidx] & (Hdl2 & Hh2 & Hlog2) & _).
  simplify_eq. rewrite Hret in Hreg, Hidx.
  assert (Forall (λ d, dt_state d = DrainEnded) (sd_drains t)) as Hall.
  { apply ended_all. pose proof (ti_messages _ Hinv). lia. }
  split_and!; [done| |by apply nil_length_inv].
  rewrite (Hlog2 (sys_drained y0)).
  - by rewrite (called_ended _ Hall), Hdl2, Hdl, Hh2, Hh.
  - by rewrite (called_spawned _ Hsp), app_nil_r, Hlog.
Qed.

(** [shutdown] and its drains never wait for each other in vain: whatever the accept
    loops do meanwhile, and in whatever order the drains run, the shutdown of [n] connections
    takes at most [4 n] steps of its own, and until it has returned one of them is possible:
    a drain can go on (its channel always has room) or a completion can be received. *)
Theorem shutdown_terminates now period y0 y1 l y2 :
  exec (AShutdown now period) y0 = Some y1 →
  Forall (λ a, undisturbed (length (sys_shutdowns y0)) a = true) l →
  exec_all l y1 = Some y2 →
  let k := length (sys_shutdowns y0) in
  (length (List.filter (own k) l) ≤ 4 * length (connection_shutdown_handlers_ (sys_server y0)))%nat ∧
  ∃ t, sys_shutdowns y2 !! k = Some t ∧
    (sd_returned t = true ∨ ∃ a, own k a = true ∧ is_Some (exec a y2)).
Proof.
  intros Hs Hl Hrun. cbv zeta.
  destruct (draining_start _ _ _ _ Hs) as (t1 & Hd1 & Hdl & Hh & Hsp & Hlog).
  destruct (draining_run _ _ _ _ _ _ Hl Hd1 Hrun) as (t2 & Hd2 & _ & Hw). split.
  - unfold task_work in Hw. rewrite (work_spawned _ Hsp), (dr_length _ _ _ _ Hd1) in Hw. lia.
  - exists t2. split; [apply Hd2|]. destruct (sd_returned t2) eqn:Hret; [by left|right].
    by eapply draining_progress.
Qed.

(** ** Disturbed shutdowns *)

Definition is_shutdown (a : Action) : bool := match a with AShutdown _ _ => true | _ => false end.

Lemma exec_tasks_inv a y y' :
  exec a y = Some y' → Forall task_inv (sys_shutdowns y) → Forall task_inv (sys_shutdowns y').
Proof.
  destruct y as [s runs sds conns drained], a as [call| |r io calls e|now p|k i|k]; simpl; intros E Hall.
  - by simplify_eq.
  - by simplify_eq.
  - destruct (runs !! r) as [[]|]; [|done..]. destruct (run_accepted io calls e s) as [[st s'] conn].
    by simplify_eq.
  - destruct (shutdown now p s) as [t s'] eqn:Es. simplify_eq. simpl. apply Forall_app. split; [done|].
    apply shutdown_spec in Es. apply Forall_singleton, Es.
  - destruct (sds !! k) as [t|] eqn:Hk; [|done]. destruct (drain_step t i) as [t'|] eqn:Ed; [|done].
    simplify_eq. apply Forall_insert; [done|]. eapply drain_step_spec; [|done].
    by eapply Forall_lookup_1.
  - destruct (sds !! k) as [t|] eqn:Hk; [|done].
    destruct (shutdown_received t s) as [[t' s']|] eqn:Ed; [|done]. simplify_eq. apply Forall_insert; [done|].
    eapply shutdown_received_spec; [|done]. by eapply Forall_lookup_1.
Qed.

Lemma exec_shutdowns a y y' :
  exec a y = Some y' → is_shutdown a = false → length (sys_shutdowns y') = length (sys_shutdowns y).
Proof.
  destruct y as [s runs sds conns drained], a; simpl; intros E Ha; try done;
    repeat case_match; simplify_eq; simpl; by rewrite ?length_insert.
Qed.

(** The only shutdown of the server waits for more completions than it spawned drains. *)
Definition hung (y : ServerSystem) : Prop :=
  ∃ t, sys_shutdowns y = [t] ∧ task_inv t ∧ sd_returned t = false ∧
    (length (sd_drains t) < length (connection_shutdown_handlers_ (sys_server y)))%nat.

Lemma server_call_handlers_le call s :
  (length (connection_shutdown_handlers_ s) ≤ length (connection_shutdown_handlers_ (server_call s call)))%nat.
Proof.
  destruct (registers call) eqn:Hc; [|by rewrite server_call_handlers].
  destruct call; try done. simpl. rewrite length_app. lia.
Qed.

Lemma run_accepted_handlers_le io calls e s :
  (length (connection_shutdown_handlers_ s)
   ≤ length (connection_shutdown_handlers_ (run_accepted io calls e s).1.2))%nat.
Proof.
  unfold run_accepted. destruct io; try done. destruct (connection_handler_ s); [|done]. cbn.
  revert s. induction calls as [|call calls IH]; intros s; [done|]. simpl.
  pose proof (server_call_handlers_le call s). specialize (IH (server_call s call)). lia.
Qed.

Lemma hung_step a y y' : is_shutdown a = false → hung y → exec a y = Some y' → hung y'.
Proof.
  intros Ha (t & Hs & Hinv & Hret & Hlt) E.
  destruct y as [s runs sds conns drained]. simpl in Hs, Hlt. subst sds.
  destruct a as [call| |r io calls e|now p|k i|k]; simpl in E; try done.
  - simplify_eq. exists t. split_and!; try done. pose proof (server_call_handlers_le call s). simpl. lia.
  - simplify_eq. by exists t.
  - destruct (runs !! r) as [[]|]; [|done..]. pose proof (run_accepted_handlers_le io calls e s) as Hle.
    destruct (run_accepted io calls e s) as [[st s'] conn]. simplify_eq. exists t. simpl in *.
    split_and!; try done. lia.
  - destruct k as [|[]]; try done. simpl in E. destruct (drain_step t i) as [t'|] eqn:Ed; [|done].
    simplify_eq. exists t'. destruct (drain_step_spec t i t' Hinv Ed) as [? _ _ Hr Hh _ _].
    apply (f_equal length) in Hh. rewrite !length_fmap in Hh. simpl. split_and!; try done; [congruence|lia].
  - destruct k as [|[]]; try done. simpl in E. destruct (shutdown_received t s) as [[t' s']|] eqn:Ed; [|done].
    simplify_eq. exists t'. destruct (shutdown_received_spec t s t' s' Hinv Ed) as (Hi & Hd & _ & Hx & _ & Hend).
    simpl. pose proof (ended_le t'). pose proof (ti_messages _ Hi). rewrite Hd in *.
    destruct (sd_returned t'), Hend as [Hn ->]; [lia|]. by split_and!.
Qed.

Lemma single_shutdown l1 now period l2 y :
  exec_all (l1 ++ AShutdown now period :: l2) new_system = Some y →
  Forall (λ a, is_shutdown a = false) l1 → Forall (λ a, is_shutdown a = false) l2 →
  length (sys_shutdowns y) = 1%nat ∧ Forall task_inv (sys_shutdowns y).
Proof.
  intros Hrun Hl1 Hl2. split.
  - rewrite exec_all_app in Hrun. destruct (exec_all l1 new_system) as [y0|] eqn:E0; [|done].
    assert (∀ l y y', Forall (λ a, is_shutdown a = false) l → exec_all l y = Some y' →
      length (sys_shutdowns y') = length (sys_shutdowns y)) as Hlen.
    { intros l ya yb Hl. apply (exec_all_invariant (λ a, is_shutdown a = false)
        (λ z, length (sys_shutdowns z) = length (sys_shutdowns ya)) l);
        [|done|done]. intros a z z' Ha Hz Ez. by rewrite (exec_shutdowns a z z'). }
    simpl in Hrun. destruct (exec (AShutdown now period) y0) as [y1|] eqn:E1; [|done].
    rewrite (Hlen l2 y1 y Hl2 Hrun). destruct y0 as [s runs sds conns drained]. simpl in E1.
    destruct (shutdown now period s). simplify_eq. simpl. rewrite length_app. simpl.
    apply (Hlen l1) in E0; [|done]. simpl in E0. lia.
  - eapply (exec_all_invariant (λ _, True) (λ z, Forall task_inv (sys_shutdowns z)));
      [|by apply Forall_true| |exact Hrun]; [|by apply Forall_nil].
    intros a z z' _ Hz E. by eapply exec_tasks_inv.
Qed.

(** C39: the receiving loop of [shutdown] compares its index with the number of handlers
    registered by then, not with the number of drains it spawned.  Once a connection is
    registered while the only shutdown of the server is running (an accept that had already
    completed when [stop] was called still reaches the application's handler), that shutdown
    never returns, whatever happens afterwards short of another shutdown. *)
Theorem late_registration_hangs_shutdown l1 now period l2 y t l3 y' :
  Forall (λ a, is_shutdown a = false) (l1 ++ l2 ++ l3) →
  exec_all (l1 ++ AShutdown now period :: l2) new_system = Some y →
  sys_shutdowns y !! 0%nat = Some t → sd_returned t = false →
  (length (sd_drains t) < length (connection_shutdown_handlers_ (sys_server y)))%nat →
  exec_all l3 y = Some y' →
  ∃ t', sys_shutdowns y' !! 0%nat = Some t' ∧ sd_returned t' = false.
Proof.
  intros [Hl1 [Hl2 Hl3]%Forall_app]%Forall_app Hrun Ht Hret Hlt Hrun'.
  destruct (single_shutdown _ _ _ _ _ Hrun Hl1 Hl2) as [Hlen Hall].
  destruct (sys_shutdowns y) as [|t0 [|]] eqn:Hs; try done. simpl in Ht. simplify_eq.
  assert (hung y) as Hy. { exists t. split_and!; try done. by inversion Hall. }
  destruct (exec_all_invariant _ hung _ _ _ hung_step Hl3 Hy Hrun') as (t' & Hs' & _ & Hr & _).
  exists t'. by rewrite Hs'.
Qed.

Lemma own_leaves_others k a y y' j :
  own k a = true → j ≠ k → exec a y = Some y' → sys_shutdowns y' !! j = sys_shutdowns y !! j.
Proof.
  intros Ha Hj. destruct y as [s runs sds conns drained], a as [call| |r io calls e|now p|k' i|k']; try done;
    apply bool_decide_eq_true in Ha; subst; simpl; repeat case_match; intros; simplify_eq; simpl;
    by rewrite list_lookup_insert_ne.
Qed.

(** A second [shutdown] that is called while a first one runs finds only handlers that
    have been moved from.  It can return, having drained nothing, before any of the first
    shutdown's drains has even called its handler. *)
Theorem overlapping_shutdown_drains_nothing now1 period1 now2 period2 y y1 y2 :
  exec (AShutdown now1 period1) y = Some y1 →
  exec (AShutdown now2 period2) y1 = Some y2 →
  ∃ l y3 t1 t2, exec_all l y2 = Some y3 ∧
    sys_shutdowns y3 !! length (sys_shutdowns y) = Some t1 ∧
    dt_handler <$> sd_drains t1 = connection_shutdown_handlers_ (sys_server y) ∧
    Forall (λ d, dt_state d = DrainSpawned) (sd_drains t1) ∧
    sys_shutdowns y3 !! S (length (sys_shutdowns y)) = Some t2 ∧ sd_returned t2 = true.
Proof.
  intros E1 E2. destruct (draining_start _ _ _ _ E1) as (t1 & Hd1 & _ & Hh1 & Hsp & _).
  destruct (draining_start _ _ _ _ E2) as (t2 & Hd2 & _).
  assert (length (sys_shutdowns y1) = S (length (sys_shutdowns y))) as Hlen.
  { destruct y. simpl in E1. destruct (shutdown now1 period1 sys_server0). simplify_eq. simpl.
    rewrite length_app. simpl. lia. }
  assert (sys_shutdowns y2 !! length (sys_shutdowns y) = Some t1) as Ht1.
  { destruct y1. simpl in E2, Hlen. destruct (shutdown now2 period2 sys_server0). simplify_eq. simpl.
    rewrite lookup_app_l by lia. apply (dr_task _ _ _ _ Hd1). }
  destruct (draining_completes _ _ _ _ Hd2) as (l & y3 & t3 & Hl & Hrun & Hd3 & Hr3).
  exists l, y3, t1, t3. split_and!; try done; [|rewrite <-Hlen; apply Hd3].
  rewrite <-Ht1. eapply (exec_all_invariant (λ a, own (length (sys_shutdowns y1)) a = true)
    (λ z, sys_shutdowns z !! length (sys_shutdowns y) = sys_shutdowns y2 !! length (sys_shutdowns y)) l);
    [|done|done|exact Hrun].
  intros a z z' Ha Hz E. rewrite <-Hz. eapply own_leaves_others; [done| |done]. lia.
Qed.

End tcp_server.

(** ** Sample executions *)

Section sample.

Definition Sys : Type := ServerSystem (Ch := ListChannel) (Handler := nat) (Drain := nat).

Definition run_sample (l : list (Action (Handler := nat) (Drain := nat))) : Sys :=
  default new_system (exec_all l new_system).

(** A server with a connection handler, two registered connections and an accept loop. *)
Definition sample_setup : list (Action (Handler := nat) (Drain := nat)) :=
  [ACall (CallOnConnection 7); ACall (CallRegister 1); ACall (CallRegister 2); ARun]%nat.

(** The two drains and the receiving loop of the first shutdown, interleaved. *)
Definition sample_drains : list (Action (Handler := nat) (Drain := nat)) :=
  [ADrain 0 1; ADrain 0 1; ADrain 0 0; ADrain 0 1; AReceived 0; ADrain 0 0; ADrain 0 0;
   AReceived 0]%nat.

Lemma accept_loop_continues_witness :
  (exec_all sample_setup (new_system : Sys) = Some (run_sample sample_setup)) ∧
  sys_connections (run_sample (sample_setup ++ [AAccept 0 Accepted [CallStop] HandlerReturns])) =
    sys_connections (run_sample sample_setup) ++ [(7%nat, new_tcp_transport)].
Proof.
  split; [vm_compute; reflexivity|].
  apply (accept_loop_continues (Channel0 := ListChannel_channel) sample_setup (run_sample sample_setup) 0 Accepted [CallStop] HandlerReturns);
    vm_compute; reflexivity.
Defined.

Lemma shutdown_drains_all_witness :
  let y := run_sample (sample_setup ++ AShutdown 100 5 :: sample_drains) in
  sys_drained y ≡ₚ [(1%nat, 105); (2%nat, 105)] ∧
  connection_shutdown_handlers_ (sys_server y) = [].
Proof.
  pose proof (shutdown_drains_all (Ch := ListChannel) (Channel0 := ListChannel_channel)
    (Handler := nat) (Drain := nat) 100 5
    (run_sample sample_setup) (run_sample (sample_setup ++ [AShutdown 100 5])) sample_drains
    (run_sample (sample_setup ++ AShutdown 100 5 :: sample_drains))
    (mkShutdown 105 (mkChan 2 [] 0 [] false 2 : ListChannel unit)
       [mkDrain (Some 1%nat) DrainEnded; mkDrain (Some 2%nat) DrainEnded] 2 true)
    ltac:(vm_compute; reflexivity) ltac:(repeat constructor) ltac:(vm_compute; reflexivity)
    ltac:(vm_compute; reflexivity) ltac:(reflexivity)) as (_ & Hlog & Hnil).
  split; [exact Hlog|exact Hnil].
Defined.

Lemma shutdown_terminates_witness :
  (length (List.filter (own 0) sample_drains) ≤ 8)%nat ∧
  ∃ t, sys_shutdowns (run_sample (sample_setup ++ AShutdown 100 5 :: sample_drains)) !! 0%nat = Some t.
Proof.
  pose proof (shutdown_terminates (Ch := ListChannel) (Channel0 := ListChannel_channel)
    (Handler := nat) (Drain := nat) 100 5
    (run_sample sample_setup) (run_sample (sample_setup ++ [AShutdown 100 5])) sample_drains
    (run_sample (sample_setup ++ AShutdown 100 5 :: sample_drains))
    ltac:(vm_compute; reflexivity) ltac:(repeat constructor) ltac:(vm_compute; reflexivity))
    as (Hle & t & Ht & _).
  split; [exact Hle|]. exists t. exact Ht.
Defined.

(** An accept that had completed before the shutdown reaches the handler after it, and the
    handler registers the new connection. *)
Definition late_accept : list (Action (Handler := nat) (Drain := nat)) :=
  [AAccept 0 Accepted [CallRegister 3%nat] HandlerReturns]%nat.

Lemma late_registration_hangs_shutdown_witness :
  ∃ t, sys_shutdowns (run_sample (sample_setup ++ AShutdown 100 5 :: late_accept ++ sample_drains))
         !! 0%nat = Some t ∧ sd_returned t = false.
Proof.
  eapply (late_registration_hangs_shutdown (Ch := ListChannel) (Channel0 := ListChannel_channel) (Handler := nat) (Drain := nat)
    sample_setup 100 5 late_accept (run_sample (sample_setup ++ AShutdown 100 5 :: late_accept))
    _ sample_drains).
  - repeat constructor.
  - vm_compute. reflexivity.
  - vm_compute. reflexivity.
  - reflexivity.
  - vm_compute. lia.
  - vm_compute. reflexivity.
Defined.

Lemma overlapping_shutdown_drains_nothing_witness :
  ∃ l y3 t1 t2,
    exec_all l (run_sample (sample_setup ++ [AShutdown 100 5; AShutdown 101 5])) = Some y3 ∧
    sys_shutdowns y3 !! 0%nat = Some t1 ∧ dt_handler <$> sd_drains t1 = [Some 1%nat; Some 2%nat] ∧
    Forall (λ d, dt_state d = DrainSpawned) (sd_drains t1) ∧
    sys_shutdowns y3 !! 1%nat = Some t2 ∧ sd_returned t2 = true.
Proof.
  exact (overlapping_shutdown_drains_nothing (Ch := ListChannel) (Channel0 := ListChannel_channel) (Handler := nat) (Drain := nat)
    100 5 101 5 (run_sample sample_setup) (run_sample (sample_setup ++ [AShutdown 100 5]))
    (run_sample (sample_setup ++ [AShutdown 100 5; AShutdown 101 5])) eq_refl eq_refl).
Defined.

End sample.
