(* ===== verification/Fleet.v ===== *)
(** * A TCP server and its connections

    [TcpServer] composed with the connections it has accepted, the way the library's
    documentation prescribes: the application's connection handler makes a [ServerConnection]
    of the accepted transport and registers [ServerConnection::shutdown] with
    [register_connection_shutdown].  A drain of [TcpServer::shutdown] then runs the shutdown
    of one connection, up to the deadline it is given; the connections go on meanwhile. *)

From S2P Require Import Prelude Identifiers Status Frame FrameCodec FrameDecoder ProtocolViolation.
From S2P Require Import Lifecycle Diagnostics Operation Codec MessageRegistry MessageCodec.
From S2P Require Import Transport Channel WriteQueue ServerConnection ServerFaults ServerShutdown.
From S2P Require Import TcpServer.

Local Open Scope Z_scope.

Section fleet.
Context {Ch : Type → Type} `{!Channel Ch} `{!ChannelLaws Ch}.
Context `{!MapTraversal} `{!MapTraversalLaws}.
Context {TypeIndex : Type} `{Countable TypeIndex} {msg : TypeIndex → Type} `{C : !Codec TypeIndex msg}.
Context `{!CodecLaws TypeIndex msg}.
Context (registry : MessageRegistry (TypeIndex := TypeIndex)) (hooks : DiagnosticsHooks).
Context (limits : WriteQueueLimits).

Local Abbreviation Connection := (ServerConnection (Ch := Ch) (T := TcpTransport) (TypeIndex := TypeIndex)).

(** A drain handler is known by the position of its connection. *)
Local Abbreviation System := (ServerSystem (Ch := Ch) (Handler := unit) (Drain := nat)).
Local Abbreviation Act := (Action (Handler := unit) (Drain := nat)).

(** ** State *)

Record Fleet := mkFleet {
  fl_system : System;
  fl_connections : list Connection;
}.

Definition new_fleet : Fleet := mkFleet new_system [].

(** The actions of the server in which no connection takes part. *)
Definition serves (a : Act) : bool :=
  match a with
  | ACall (CallRegister _) | AAccept _ Accepted _ _ | ADrain _ _ => false
  | _ => true
  end.

(** Drain [i] of shutdown [k] is in state [st], with a handler for connection [n] and the
    deadline [d]. *)
Definition drain_at (y : System) (k i : nat) (n : option nat) (st : DrainState) (d : Z) : Prop :=
  ∃ t, sys_shutdowns y !! k = Some t ∧ sd_drains t !! i = Some (mkDrain n st) ∧ sd_deadline t = d.

(** The steps that a drain makes while its connection's shutdown goes on, and when it is
    done. *)
Definition until (r : ShutdownStep) (waiting done : list Act) : list Act :=
  match r with ShutdownWaiting => waiting | ShutdownDone => done end.

(** What happens in a step.  The drain of a connection calls [ServerConnection::shutdown],
    which reads the clock twice, to compute its deadline and to test it, and later wakes up
    from its timer, which may report an error, and tests the deadline again. *)
Inductive FleetEvent :=
  | EvServer (a : Act)
  | EvAccept (r : nat)
  | EvConnection (n : nat)
  | EvDrainCall (k i : nat) (start now : Z)
  | EvDrainPoll (k i : nat) (error : bool) (now : Z)
  | EvDrainNext (k i : nat).

(** One step of the fleet: the event and the actions of the server in it. *)
Inductive fstep : FleetEvent → list Act → Fleet → Fleet → Prop :=
  | fstep_server a y y' cs :
      serves a = true → exec a y = Some y' → fstep (EvServer a) [a] (mkFleet y cs) (mkFleet y' cs)
  | fstep_accept r y y' cs h :
      connection_handler_ (sys_server y) = Some h →
      exec (AAccept r Accepted [CallRegister (length cs)] HandlerReturns) y = Some y' →
      fstep (EvAccept r) [AAccept r Accepted [CallRegister (length cs)] HandlerReturns] (mkFleet y cs)
        (mkFleet y' (cs ++ [new_server hooks new_tcp_transport limits]))
  | fstep_accept_nobody r y y' cs :
      connection_handler_ (sys_server y) = None →
      exec (AAccept r Accepted [] HandlerReturns) y = Some y' →
      fstep (EvAccept r) [AAccept r Accepted [] HandlerReturns] (mkFleet y cs) (mkFleet y' cs)
  | fstep_connection n c c' y cs :
      cs !! n = Some c → sstep registry hooks c c' → countable_tasks c' →
      fstep (EvConnection n) [] (mkFleet y cs) (mkFleet y (<[n := c']> cs))
  | fstep_drain_call k i n d c start now r c' y y' cs :
      drain_at y k i (Some n) DrainSpawned d → cs !! n = Some c →
      ServerConnection.shutdown hooks start now (d - start) c = (r, c') →
      exec_all (until r [ADrain k i] [ADrain k i; ADrain k i]) y = Some y' →
      fstep (EvDrainCall k i start now) (until r [ADrain k i] [ADrain k i; ADrain k i])
        (mkFleet y cs) (mkFleet y' (<[n := c']> cs))
  | fstep_drain_poll k i n d c error now r c' y y' cs :
      drain_at y k i (Some n) DrainRunning d → cs !! n = Some c →
      ServerConnection.shutdown_resume hooks error now d c = (r, c') →
      exec_all (until r [] [ADrain k i]) y = Some y' →
      fstep (EvDrainPoll k i error now) (until r [] [ADrain k i]) (mkFleet y cs) (mkFleet y' (<[n := c']> cs))
  | fstep_drain_empty k i d y y' cs :
      drain_at y k i None DrainSpawned d → exec (ADrain k i) y = Some y' →
      fstep (EvDrainNext k i) [ADrain k i] (mkFleet y cs) (mkFleet y' cs)
  | fstep_drain_send k i n d y y' cs :
      drain_at y k i n DrainSending d → exec (ADrain k i) y = Some y' →
      fstep (EvDrainNext k i) [ADrain k i] (mkFleet y cs) (mkFleet y' cs).

Inductive fruns : list FleetEvent → list Act → Fleet → Fleet → Prop :=
  | fruns_refl f : fruns [] [] f f
  | fruns_step e es l1 l2 f1 f2 f3 :
      fstep e l1 f1 f2 → fruns es l2 f2 f3 → fruns (e :: es) (l1 ++ l2) f1 f3.

(** The events of shutdown [k] itself: its drains and its receiving loop. *)
Definition own_event (k : nat) (e : FleetEvent) : bool :=
  match e with
  | EvServer a => own k a
  | EvAccept _ | EvConnection _ => false
  | EvDrainCall k' _ _ _ | EvDrainPoll k' _ _ _ | EvDrainNext k' _ => bool_decide (k' = k)
  end.

(** When a drain of shutdown [k] tests the deadline [d], the clock shows it. *)
Definition late (k : nat) (d : Z) (e : FleetEvent) : bool :=
  match e with
  | EvDrainCall k' _ _ now | EvDrainPoll k' _ _ now => negb (bool_decide (k' = k)) || (d <=? now)
  | _ => true
  end.

(** An event at a given time; the timer has expired. *)
Definition at_time (now : Z) (e : FleetEvent) : bool :=
  match e with
  | EvDrainCall _ _ start now' => bool_decide (start = now ∧ now' = now)
  | EvDrainPoll _ _ error now' => bool_decide (error = false ∧ now' = now)
  | _ => true
  end.

(** The server inside a fleet behaves as the server does. *)
Lemma fstep_system e l f f' : fstep e l f f' → exec_all l (fl_system f) = Some (fl_system f').
Proof. destruct 1; simpl in *; by repeat case_match; simplify_eq. Qed.

Lemma fruns_system es l f f' : fruns es l f f' → exec_all l (fl_system f) = Some (fl_system f').
Proof.
  induction 1 as [|e es l1 l2 f1 f2 f3 Hs _ IH]; [done|]. rewrite exec_all_app. by rewrite (fstep_system _ _ _ _ Hs).
Qed.

(** ** What the server's steps do to its drains *)

Definition is_drain (a : Act) : bool := match a with ADrain _ _ => true | _ => false end.

(** The handlers that are registered after a call. *)
Lemma server_call_registered call (s : TcpServer (Handler := unit) (Drain := nat)) h :
  h ∈ connection_shutdown_handlers_ (server_call s call) →
  h ∈ connection_shutdown_handlers_ s ∨ ∃ n, call = CallRegister n ∧ h = Some n.
Proof.
  destruct call as [g|n|]; simpl; [by left| |unfold stop; case_match; by left].
  intros [|Hh%list_elem_of_singleton]%elem_of_app; [by left|right; eauto].
Qed.

Lemma server_calls_registered calls (s : TcpServer (Handler := unit) (Drain := nat)) h :
  h ∈ connection_shutdown_handlers_ (fold_left server_call calls s) →
  h ∈ connection_shutdown_handlers_ s ∨ ∃ n, CallRegister n ∈ calls ∧ h = Some n.
Proof.
  revert s. induction calls as [|call calls IH]; intros s; simpl; [by left|].
  intros [Hh|(n & ? & ->)]%IH; [|right; exists n; split; [by apply elem_of_cons; right|done]].
  apply server_call_registered in Hh as [|(n & -> & ->)]; [by left|].
  right. exists n. split; [by apply elem_of_cons; left|done].
Qed.

(** The connections that an action registers. *)
Definition registered_by (a : Act) : list nat :=
  omap (λ call, match call with CallRegister n => Some n | _ => None end)
    (match a with ACall call => [call] | AAccept _ Accepted calls _ => calls | _ => [] end).

Lemma registered_by_spec (calls : list (ServerCall (Handler := unit) (Drain := nat))) n :
  CallRegister n ∈ calls →
  n ∈ omap (λ call, match call with CallRegister n => Some n | _ => None end) calls.
Proof. intros Hc. apply list_elem_of_omap. by exists (CallRegister n). Qed.

(** No step makes up a handler: what is registered was so before, or is by this action. *)
Lemma exec_registered a (y y' : System) n :
  exec a y = Some y' → Some n ∈ connection_shutdown_handlers_ (sys_server y') →
  Some n ∈ connection_shutdown_handlers_ (sys_server y) ∨ n ∈ registered_by a.
Proof.
  destruct y as [s runs sds conns drained], a as [call| |r io calls e|now p|k i|k]; simpl.
  - intros [= <-]. intros [|(m & -> & [= <-])]%server_call_registered; [by left|right]. by apply list_elem_of_singleton.
  - intros [= <-]. by left.
  - destruct (runs !! r) as [[]|]; [|done..]. destruct (run_accepted io calls e s) as [[st s'] conn] eqn:E.
    intros [= <-]. simpl. unfold run_accepted in E. destruct io; [|by simplify_eq; left..].
    destruct (connection_handler_ s); simplify_eq; [|by left].
    intros [|(m & Hm & [= <-])]%server_calls_registered; [by left|right]. by apply registered_by_spec.
  - destruct (shutdown now p s) as [t s'] eqn:E. intros [= <-]. simpl.
    apply shutdown_spec in E as (_ & _ & _ & _ & _ & _ & ->). intros Hin%elem_of_replicate. naive_solver.
  - repeat case_match; intros; simplify_eq; by left.
  - destruct (sds !! k) as [t|]; [|done]. destruct (shutdown_received t s) as [[t' s']|] eqn:E; [|done].
    intros [= <-]. unfold shutdown_received, shutdown_loop in E. repeat case_match; simplify_eq; simpl; [by left|].
    by intros ?%elem_of_nil.
Qed.

(** Other actions than a drain's leave the drains that there are as they were. *)
Lemma exec_drains a (y y' : System) k t' i d :
  exec a y = Some y' → is_drain a = false → sys_shutdowns y' !! k = Some t' → sd_drains t' !! i = Some d →
  (∃ t, sys_shutdowns y !! k = Some t ∧ sd_drains t !! i = Some d) ∨
  dt_state d = DrainSpawned ∧ dt_handler d ∈ connection_shutdown_handlers_ (sys_server y).
Proof.
  destruct y as [s runs sds conns drained], a as [call| |r io calls e|now p|k0 i0|k0]; simpl; intros E Hd; try done.
  - simplify_eq. eauto.
  - simplify_eq. eauto.
  - destruct (runs !! r) as [[]|]; [|done..]. destruct (run_accepted io calls e s) as [[st s'] conn].
    simplify_eq. eauto.
  - destruct (shutdown now p s) as [t s'] eqn:Es. simplify_eq. simpl.
    apply shutdown_spec in Es as (_ & Hh & Hsp & _). intros [|[_ Hk]]%lookup_app_Some; [by eauto|].
    intros Hi. right. apply list_lookup_singleton_Some in Hk as [_ <-]. split; [by eapply Forall_lookup_1 in Hsp|].
    rewrite <-Hh. apply list_elem_of_fmap. exists d. split; [done|]. by eapply list_elem_of_lookup_2.
  - destruct (sds !! k0) as [t|] eqn:Hk; [|done].
    destruct (shutdown_received t s) as [[t1 s']|] eqn:Es; [|done]. simplify_eq. simpl.
    assert (sd_drains t1 = sd_drains t) as Hsame
      by (unfold shutdown_received, shutdown_loop in Es; by repeat case_match; simplify_eq).
    destruct (decide (k = k0)) as [->|Hne]; [|rewrite list_lookup_insert_ne by done; eauto].
    rewrite list_lookup_insert_eq by (by eapply lookup_lt_Some). intros [= <-]. rewrite Hsame. eauto.
Qed.

(** Where a drain's step takes it. *)
Definition next_drain (d : DrainTask (Drain := nat)) : DrainTask (Drain := nat) :=
  mkDrain (dt_handler d)
    (match dt_state d with
     | DrainSpawned => if dt_handler d is Some _ then DrainRunning else DrainSending
     | DrainRunning => DrainSending
     | _ => DrainEnded
     end).

Lemma exec_drain k i (y y' : System) :
  exec (ADrain k i) y = Some y' →
  sys_server y' = sys_server y ∧
  ∀ k' t' i' d', sys_shutdowns y' !! k' = Some t' → sd_drains t' !! i' = Some d' →
    ∃ t d, sys_shutdowns y !! k' = Some t ∧ sd_deadline t' = sd_deadline t ∧ sd_drains t !! i' = Some d ∧
      d' = if decide (k' = k ∧ i' = i) then next_drain d else d.
Proof.
  destruct y as [s runs sds conns drained]. simpl. destruct (sds !! k) as [t|] eqn:Hk; [|done].
  destruct (drain_step t i) as [t1|] eqn:Hd; [|done]. intros [= <-]. split; [done|]. simpl.
  assert (∃ d, sd_drains t !! i = Some d ∧ sd_drains t1 = <[i := next_drain d]> (sd_drains t) ∧
    sd_deadline t1 = sd_deadline t) as (d & Hi & Hds & Hdl).
  { unfold drain_step in Hd. destruct (sd_drains t !! i) as [d|]; [|done]. exists d. split; [done|].
    unfold next_drain. destruct (dt_state d); repeat case_match; by simplify_eq. }
  intros k' t' i' d' Hk' Hi'. destruct (decide (k' = k)) as [->|Hne].
  - rewrite list_lookup_insert_eq in Hk' by (by eapply lookup_lt_Some). injection Hk' as <-. rewrite Hds in Hi'.
    destruct (decide (i' = i)) as [->|Hni].
    + rewrite list_lookup_insert_eq in Hi' by (by eapply lookup_lt_Some). injection Hi' as <-.
      exists t, d. by rewrite decide_True by done.
    + rewrite list_lookup_insert_ne in Hi' by done. exists t, d'. rewrite decide_False by naive_solver. done.
  - rewrite list_lookup_insert_ne in Hk' by done. exists t', d'. rewrite decide_False by naive_solver. done.
Qed.

Lemma exec_drain_at k i (y y' : System) n st d :
  exec (ADrain k i) y = Some y' → drain_at y k i n st d → drain_at y' k i n (dt_state (next_drain (mkDrain n st))) d.
Proof.
  destruct y as [s runs sds conns drained]. simpl. intros E (t & Hk & Hi & Hd). simpl in Hk. rewrite Hk in E.
  unfold drain_step in E. rewrite Hi in E. simpl in E.
  destruct st; repeat case_match; simplify_eq; eexists;
    (split; [apply list_lookup_insert_eq; by eapply lookup_lt_Some|simpl]);
    (split; [apply list_lookup_insert_eq; by eapply lookup_lt_Some|done]).
Qed.

(** ** Invariant *)

(** What the state of a drain says about its connection. *)
Definition drain_ok (st : DrainState) (c : Connection) : Prop :=
  match st with
  | DrainSpawned => True
  | DrainRunning => refusing c
  | DrainSending | DrainEnded => retired c
  end.

Lemma drain_ok_fades st (c c' : Connection) : fades c c' → drain_ok st c → drain_ok st c'.
Proof. destruct st; simpl; eauto using fades_refusing, fades_retired. Qed.

Record fleet_inv (f : Fleet) : Prop := {
  fi_connections n c : fl_connections f !! n = Some c → server_inv hooks c ∧ countable_tasks c;
  fi_registered n : Some n ∈ connection_shutdown_handlers_ (sys_server (fl_system f)) →
    is_Some (fl_connections f !! n);
  fi_drains k i n st d : drain_at (fl_system f) k i (Some n) st d →
    ∃ c, fl_connections f !! n = Some c ∧ drain_ok st c;
  fi_running k i d : ¬ drain_at (fl_system f) k i None DrainRunning d;
}.

Lemma inv_connection y cs n (c c' : Connection) :
  fleet_inv (mkFleet y cs) → cs !! n = Some c → fades c c' → server_inv hooks c' → countable_tasks c' →
  fleet_inv (mkFleet y (<[n := c']> cs)).
Proof.
  intros [Hc Hr Hd Hnone] Hn Hf Hi Ht. split; simpl in *; [..|done].
  - intros m cm [(_ & <- & _)|[_ Hm]]%list_lookup_insert_Some; eauto.
  - intros m Hm. rewrite <-not_eq_None_Some, lookup_ge_None, length_insert, <-lookup_ge_None, not_eq_None_Some. auto.
  - intros k i m st d Hat. destruct (Hd _ _ _ _ _ Hat) as (cm & Hm & Hok). destruct (decide (m = n)) as [->|Hne].
    + exists c'. rewrite list_lookup_insert_eq by (by eapply lookup_lt_Some). split; [done|].
      rewrite Hn in Hm. injection Hm as <-. by eapply drain_ok_fades.
    + exists cm. by rewrite list_lookup_insert_ne.
Qed.

(** A step in which no drain takes part, the connections that it registers being there. *)
Lemma inv_exec a y y' cs new :
  fleet_inv (mkFleet y cs) → exec a y = Some y' → is_drain a = false →
  (∀ n, n ∈ registered_by a → is_Some ((cs ++ new) !! n)) →
  (∀ c, c ∈ new → server_inv hooks c ∧ countable_tasks c) → fleet_inv (mkFleet y' (cs ++ new)).
Proof.
  intros [Hc Hr Hd Hnone] E Ha Hreg Hnew. split; simpl in *.
  - intros n c [|[_ Hn]]%lookup_app_Some; [by eapply Hc|]. apply Hnew. by eapply list_elem_of_lookup_2.
  - intros n Hn. destruct (exec_registered _ _ _ _ E Hn) as [Hold|]; [|auto].
    destruct (Hr n Hold) as [c Hcn]. exists c. by apply lookup_app_l_Some.
  - intros k i n st d (t & Hk & Hi & Hdl).
    assert (∃ c, cs !! n = Some c ∧ drain_ok st c) as (c & Hcn & Hok).
    { destruct (exec_drains _ _ _ _ _ _ _ E Ha Hk Hi) as [(t0 & Hk0 & Hi0)|[Hst Hh]].
      - by eapply Hd; exists t0.
      - simpl in Hst, Hh. subst st. destruct (Hr n Hh) as [c Hcn]. by exists c. }
    exists c. split; [by apply lookup_app_l_Some|done].
  - intros k i d (t & Hk & Hi & Hdl).
    destruct (exec_drains _ _ _ _ _ _ _ E Ha Hk Hi) as [(t0 & Hk0 & Hi0)|[Hst _]]; [|done].
    apply (Hnone k i (sd_deadline t0)). by exists t0.
Qed.

(** A step of a drain, whose connection is as far as the drain is then. *)
Lemma inv_drain k i y y' cs h st d :
  fleet_inv (mkFleet y cs) → drain_at y k i h st d → exec (ADrain k i) y = Some y' →
  (∀ n c, h = Some n → cs !! n = Some c → drain_ok (dt_state (next_drain (mkDrain h st))) c) →
  fleet_inv (mkFleet y' cs).
Proof.
  intros [Hc Hr Hd Hnone] (t0 & Hk0 & Hi0 & Hd0) E Hok. destruct (exec_drain _ _ _ _ E) as [Hs Hback]. split; simpl in *.
  - done.
  - by rewrite Hs.
  - intros k' i' n st' d' (t' & Hk' & Hi' & Hd'). destruct (Hback _ _ _ _ Hk' Hi') as (t & [h0 st0] & Hk & Hdl & Hi & Heq).
    case_decide as Hki.
    + destruct Hki as [-> ->]. rewrite Hk0 in Hk. injection Hk as <-. rewrite Hi0 in Hi. injection Hi as <- <-.
      injection Heq as Hh Hst. destruct (Hd k i n st (sd_deadline t0)) as (c & Hn & _).
      { exists t0. split_and!; congruence. }
      exists c. split; [done|]. rewrite Hst. by eapply Hok.
    + injection Heq as <- <-. apply (Hd k' i' n st' (sd_deadline t)). by exists t.
  - intros k' i' d' (t' & Hk' & Hi' & Hd'). destruct (Hback _ _ _ _ Hk' Hi') as (t & [h0 st0] & Hk & _ & Hi & Heq).
    apply (Hnone k' i' (sd_deadline t)). exists t. case_decide; [|by rewrite Hi, Heq].
    unfold next_drain in Heq. simpl in Heq. by destruct h0, st0.
Qed.

(** A connection whose shutdown has been started, or goes on. *)
Lemma drain_begins start now period (c c' : Connection) r :
  server_inv hooks c → countable_tasks c → ServerConnection.shutdown hooks start now period c = (r, c') →
  fades c c' ∧ server_inv hooks c' ∧ countable_tasks c' ∧
  drain_ok (match r with ShutdownWaiting => DrainRunning | ShutdownDone => DrainSending end) c'.
Proof.
  intros Hc Ht E. pose proof (sstep_shutdown (msg := msg) registry hooks c start now period) as Hs.
  pose proof (drain_begin hooks start now period c Hc Ht) as Hd. rewrite E in Hs, Hd. simpl in Hs, Hd.
  split_and!; [by eapply sstep_fades|exact (sstep_inv registry hooks _ _ Hc Hs)| |].
  - destruct Hd as (_ & Hk & _). unfold countable_tasks. by rewrite Hk.
  - destruct r; [apply Hd|]. by destruct Hd as (_ & _ & _ & _ & ? & _).
Qed.

Lemma drain_goes_on error now deadline (c c' : Connection) r :
  server_inv hooks c → countable_tasks c → refusing c →
  ServerConnection.shutdown_resume hooks error now deadline c = (r, c') →
  fades c c' ∧ server_inv hooks c' ∧ countable_tasks c' ∧
  drain_ok (match r with ShutdownWaiting => DrainRunning | ShutdownDone => DrainSending end) c'.
Proof.
  intros Hc Ht Hr E. pose proof (sstep_shutdown_resume (msg := msg) registry hooks c error now deadline) as Hs.
  pose proof (drain_resume hooks error now deadline c Hc Ht Hr) as Hd. rewrite E in Hs, Hd. simpl in Hs, Hd.
  split_and!; [by eapply sstep_fades|exact (sstep_inv registry hooks _ _ Hc Hs)| |].
  - destruct Hd as (_ & Hk & _). unfold countable_tasks. by rewrite Hk.
  - destruct r; [apply Hd|]. by destruct Hd as (_ & _ & _ & _ & ? & _).
Qed.

Lemma retired_refusing (c : Connection) : retired c → refusing c.
Proof. intros []. by right; right. Qed.

(** The drain of connection [n] moves to [until] its shutdown has come. *)
Lemma inv_drain_call k i n d r y y' cs (c' : Connection) :
  fleet_inv (mkFleet y cs) → cs !! n = Some c' → drain_at y k i (Some n) DrainSpawned d →
  drain_ok (match r with ShutdownWaiting => DrainRunning | ShutdownDone => DrainSending end) c' →
  exec_all (until r [ADrain k i] [ADrain k i; ADrain k i]) y = Some y' → fleet_inv (mkFleet y' cs).
Proof.
  intros Hf Hn Hat Hok E.
  assert (refusing c') as Href by (destruct r; [done|by apply retired_refusing]).
  assert (∀ y1, exec (ADrain k i) y = Some y1 →
    fleet_inv (mkFleet y1 cs) ∧ drain_at y1 k i (Some n) DrainRunning d) as Hfirst.
  { intros y1 E1. split; [|exact (exec_drain_at _ _ _ _ _ _ _ E1 Hat)].
    eapply inv_drain; [exact Hf|exact Hat|exact E1|]. intros m c [= <-] Hm. simpl. congruence. }
  destruct (exec (ADrain k i) y) as [y1|] eqn:E1.
  2: { destruct r; unfold until, exec_all in E; rewrite E1 in E; done. }
  destruct (Hfirst y1 eq_refl) as [Hf1 Hat1]. destruct r; unfold until, exec_all in E; rewrite E1 in E; [by simplify_eq|].
  destruct (exec (ADrain k i) y1) as [y2|] eqn:E2; [|done]. injection E as <-.
  eapply inv_drain; [exact Hf1|exact Hat1|exact E2|]. intros m c [= <-] Hm. rewrite Hn in Hm. by injection Hm as <-.
Qed.

Lemma fstep_inv e l f f' : limits_wf limits → fleet_inv f → fstep e l f f' → fleet_inv f'.
Proof.
  intros Hlim Hf Hs. destruct Hs as [a y y' cs Ha E|r y y' cs h Hh E|r y y' cs Hh E|n c c' y cs Hn Hstep Hct|
    k i n d c start now r c' y y' cs Hat Hn E Ex|k i n d c error now r c' y y' cs Hat Hn E Ex|
    k i d y y' cs Hat E|k i n d y y' cs Hat E].
  - rewrite <-(app_nil_r cs). eapply inv_exec; [exact Hf|exact E|by destruct a as [[]| | | | |]| |].
    + intros n Hn. exfalso. destruct a as [[]| |? []| | |]; try done; by apply elem_of_nil in Hn.
    + by intros c ?%elem_of_nil.
  - eapply inv_exec; [exact Hf|exact E|done| |].
    + intros n Hn. apply list_elem_of_singleton in Hn as ->. rewrite lookup_app_r, Nat.sub_diag by done. by eexists.
    + intros c ->%list_elem_of_singleton. split; [exact (new_server_inv hooks new_tcp_transport limits Hlim)|done].
  - rewrite <-(app_nil_r cs). eapply inv_exec; [exact Hf|exact E|done| |].
    + by intros n ?%elem_of_nil.
    + by intros c ?%elem_of_nil.
  - destruct (fi_connections _ Hf n c Hn) as [Hc _].
    exact (inv_connection _ _ _ _ _ Hf Hn (sstep_fades _ _ _ _ Hstep) (sstep_inv registry hooks _ _ Hc Hstep) Hct).
  - destruct (fi_connections _ Hf n c Hn) as [Hc Hct].
    destruct (drain_begins _ _ _ _ _ _ Hc Hct E) as (Hfd & Hc' & Hct' & Hok).
    pose proof (inv_connection _ _ _ _ _ Hf Hn Hfd Hc' Hct') as Hf1.
    eapply inv_drain_call; [exact Hf1| |exact Hat|exact Hok|exact Ex].
    apply list_lookup_insert_eq. by eapply lookup_lt_Some.
  - destruct (fi_connections _ Hf n c Hn) as [Hc Hct].
    destruct (fi_drains _ Hf k i n DrainRunning d Hat) as (c0 & Hn0 & Href). simpl in Hn0; rewrite Hn in Hn0. injection Hn0 as <-.
    destruct (drain_goes_on _ _ _ _ _ _ Hc Hct Href E) as (Hfd & Hc' & Hct' & Hok).
    pose proof (inv_connection _ _ _ _ _ Hf Hn Hfd Hc' Hct') as Hf1.
    destruct r; unfold until, exec_all in Ex; [by simplify_eq|].
    destruct (exec (ADrain k i) y) as [y1|] eqn:E1; [|done]. injection Ex as <-.
    eapply inv_drain; [exact Hf1|exact Hat|exact E1|]. intros m cm [= <-] Hm.
    rewrite list_lookup_insert_eq in Hm by (by eapply lookup_lt_Some). by injection Hm as <-.
  - eapply inv_drain; [exact Hf|exact Hat|exact E|]. done.
  - eapply inv_drain; [exact Hf|exact Hat|exact E|]. intros m c -> Hm. simpl.
    destruct (fi_drains _ Hf k i m DrainSending d Hat) as (c0 & Hn0 & Href). simpl in Hn0. rewrite Hm in Hn0.
    by injection Hn0 as <-.
Qed.

Lemma new_fleet_inv : fleet_inv new_fleet.
Proof.
  split; simpl.
  - intros n c Hn. by rewrite lookup_nil in Hn.
  - by intros n ?%elem_of_nil.
  - intros k i n st d (t & Ht & _). simpl in Ht. by rewrite lookup_nil in Ht.
  - intros k i d (t & Ht & _). simpl in Ht. by rewrite lookup_nil in Ht.
Qed.

Lemma fruns_inv es l f f' : limits_wf limits → fleet_inv f → fruns es l f f' → fleet_inv f'.
Proof. intros Hlim Hf Hr. revert Hf. induction Hr; eauto using fstep_inv. Qed.

(** ** Properties *)


(** ** The shutdown returns *)

(** Whatever the time, a drain that can go on in the server can do so in the fleet. *)
Lemma fleet_drain_goes_on f k i y1 time :
  fleet_inv f → exec (ADrain k i) (fl_system f) = Some y1 →
  ∃ e l f', fstep e l f f' ∧ own_event k e = true ∧ at_time time e = true.
Proof.
  intros Hf E. destruct f as [y cs]. simpl in E.
  assert (∃ h st d, drain_at y k i h st d) as (h & st & d & Hat).
  { destruct y as [s runs sds conns drained]. simpl in E. destruct (sds !! k) as [t|] eqn:Hk; [|done].
    unfold drain_step in E. destruct (sd_drains t !! i) as [[h st]|] eqn:Hi; [|done].
    exists h, st, (sd_deadline t). by exists t. }
  destruct st.
  - destruct h as [n|].
    2: { eexists _, _, _. split; [by eapply fstep_drain_empty|]. simpl. by rewrite bool_decide_true. }
    destruct (fi_drains _ Hf k i n DrainSpawned d Hat) as (c & Hn & _). simpl in Hn.
    destruct (ServerConnection.shutdown hooks time time (d - time) c) as [r c'] eqn:Es.
    assert (∃ y2, exec_all (until r [ADrain k i] [ADrain k i; ADrain k i]) y = Some y2) as [y2 E2].
    { pose proof (exec_drain_at _ _ _ _ _ _ _ E Hat) as (t1 & Hk1 & Hi1 & _).
      destruct r; unfold until, exec_all; rewrite E; [by eexists|]. destruct y1 as [s1 r1 sds1 c1 dr1]. simpl in *.
      rewrite Hk1. unfold drain_step. rewrite Hi1. by eexists. }
    eexists _, _, _. split; [by eapply fstep_drain_call|]. simpl. by rewrite !bool_decide_true.
  - destruct h as [n|]; [|by destruct (fi_running _ Hf k i d)].
    destruct (fi_drains _ Hf k i n DrainRunning d Hat) as (c & Hn & _). simpl in Hn.
    destruct (ServerConnection.shutdown_resume hooks false time d c) as [r c'] eqn:Es.
    assert (∃ y2, exec_all (until r [] [ADrain k i]) y = Some y2) as [y2 E2].
    { destruct r; unfold until, exec_all; [by eexists|]. rewrite E. by eexists. }
    eexists _, _, _. split; [by eapply fstep_drain_poll|]. simpl. by rewrite !bool_decide_true.
  - eexists _, _, _. split; [by eapply fstep_drain_send|]. simpl. by rewrite bool_decide_true.
  - destruct Hat as (t & Hk & Hi & _). destruct y. simpl in *. rewrite Hk in E. unfold drain_step in E. by rewrite Hi in E.
Qed.

Lemma fleet_progress f k m t time :
  fleet_inv f → draining k m (fl_system f) t → sd_returned t = false →
  ∃ e l f', fstep e l f f' ∧ own_event k e = true ∧ at_time time e = true.
Proof.
  intros Hf Hd Hret. destruct (draining_progress _ _ _ _ Hd Hret) as (a & Ha & y1 & E).
  destruct a as [| | | |k' i|k']; try done; apply bool_decide_eq_true in Ha as Heq; subst k'.
  - by eapply fleet_drain_goes_on.
  - destruct f as [y cs]. exists (EvServer (AReceived k)), [AReceived k], (mkFleet y1 cs).
    split; [by apply fstep_server|done].
Qed.

(** Past the deadline a connection's shutdown is over at once, also when handlers run on. *)
Lemma late_call_done start now d (c : Connection) r c' :
  d ≤ now → ServerConnection.shutdown hooks start now (d - start) c = (r, c') → r = ShutdownDone.
Proof.
  intros Hd. unfold ServerConnection.shutdown, shutdown_poll. replace (start + (d - start)) with d by lia.
  rewrite (proj2 (Z.ltb_ge now d) Hd), andb_false_r. by intros [= <- <-].
Qed.

Lemma late_poll_done error now d (c : Connection) r c' :
  d ≤ now → ServerConnection.shutdown_resume hooks error now d c = (r, c') → r = ShutdownDone.
Proof.
  intros Hd. unfold ServerConnection.shutdown_resume, shutdown_poll.
  rewrite (proj2 (Z.ltb_ge now d) Hd), andb_false_r. destruct error; by intros [= <- <-].
Qed.

(** So each event of the shutdown takes it further. *)
Lemma late_event_counts e l f f' k t :
  fstep e l f f' → sys_shutdowns (fl_system f) !! k = Some t → late k (sd_deadline t) e = true →
  own_event k e = true → (1 ≤ length (List.filter (own k) l))%nat.
Proof.
  assert (∀ i, own k (ADrain k i : Act) = true) as Hown by (intros i; by apply bool_decide_eq_true).
  intros Hs Ht Hlate Hev. destruct Hs as [a y y' cs Ha E| | | |
    k' i n d c start now r c' y y' cs (t' & Ht' & _ & <-) Hn E Ex|
    k' i n d c error now r c' y y' cs (t' & Ht' & _ & <-) Hn E Ex|k' i d y y' cs Hat E|k' i n d y y' cs Hat E];
    cbn [own_event late fl_system] in *; try done.
  - simpl. by rewrite Hev.
  - apply bool_decide_eq_true in Hev as ->. rewrite bool_decide_true in Hlate by done. rewrite Ht in Ht'. injection Ht' as ->.
    apply Z.leb_le in Hlate. rewrite (late_call_done _ _ _ _ _ _ Hlate E). cbn [until List.filter]. rewrite Hown. simpl. lia.
  - apply bool_decide_eq_true in Hev as ->. rewrite bool_decide_true in Hlate by done. rewrite Ht in Ht'. injection Ht' as ->.
    apply Z.leb_le in Hlate. rewrite (late_poll_done _ _ _ _ _ _ Hlate E). cbn [until List.filter]. by rewrite Hown.
  - apply bool_decide_eq_true in Hev as ->. cbn [List.filter]. by rewrite Hown.
  - apply bool_decide_eq_true in Hev as ->. cbn [List.filter]. by rewrite Hown.
Qed.

Lemma late_events_bounded es l f f' k m t :
  fruns es l f f' → draining k m (fl_system f) t → Forall (λ a, undisturbed k a = true) l →
  Forall (λ e, late k (sd_deadline t) e = true) es →
  (length (List.filter (own_event k) es) ≤ task_work m t)%nat.
Proof.
  intros Hr. revert t. induction Hr as [|e es l1 l2 f1 f2 f3 Hs Hr IH]; intros t Hd Hund Hlate; [simpl; lia|].
  apply Forall_app in Hund as [Hund1 Hund2]. apply Forall_cons in Hlate as [He Hlate].
  destruct (draining_run _ _ _ _ _ _ Hund1 Hd (fstep_system _ _ _ _ Hs)) as (t1 & Hd1 & (Hdl & _) & Hw).
  specialize (IH t1 Hd1 Hund2). rewrite Hdl in IH. specialize (IH Hlate). simpl.
  destruct (own_event k e) eqn:Hev; [|lia].
  pose proof (late_event_counts _ _ _ _ _ _ Hs (dr_task _ _ _ _ Hd) He Hev). simpl. lia.
Qed.

(** C10: [TcpServer::shutdown] never hangs on its connections.  Once the clock shows its
    deadline, a shutdown of [n] connections that is not disturbed takes at most [4 n] more
    events of its own in every run - a wake-up of a connection's shutdown from its timer is
    such an event -, whatever the connections and their handlers do meanwhile (the handlers
    may never end); and as long as it has not returned, one of its own events is possible at
    every time past the deadline, with no timer failing. *)
Theorem fleet_shutdown_returns es0 l0 f0 e now period f1 es l f2 es' l' f3 :
  limits_wf limits → fruns es0 l0 new_fleet f0 → fstep e [AShutdown now period] f0 f1 → fruns es l f1 f2 →
  let k := length (sys_shutdowns (fl_system f0)) in
  let n := length (connection_shutdown_handlers_ (sys_server (fl_system f0))) in
  let deadline := now + period in
  Forall (λ a, undisturbed k a = true) (l ++ l') →
  fruns es' l' f2 f3 → Forall (λ e, late k deadline e = true) es' →
  (length (List.filter (own_event k) es') ≤ 4 * n)%nat ∧
  ∃ t, sys_shutdowns (fl_system f3) !! k = Some t ∧
    (sd_returned t = true ∨
     ∀ time, deadline ≤ time →
       ∃ e' l'' f4, fstep e' l'' f3 f4 ∧ own_event k e' = true ∧ at_time time e' = true ∧ late k deadline e' = true).
Proof.
  intros Hlim H0' Hs Hr k n deadline [Hl Hl']%Forall_app Hr' Hlate.
  assert (fleet_inv f3) as Hf3 by eauto using fruns_inv, fstep_inv, new_fleet_inv.
  apply fstep_system in Hs as Es. simpl in Es. destruct (exec _ (fl_system f0)) as [y1|] eqn:E1; [|done].
  injection Es as ->. destruct (draining_start _ _ _ _ E1) as (t1 & Hd1 & Hdl1 & _ & Hsp & _).
  destruct (draining_run _ _ _ _ _ _ Hl Hd1 (fruns_system _ _ _ _ Hr)) as (t2 & Hd2 & (Hdl2 & _) & Hw2).
  destruct (draining_run _ _ _ _ _ _ Hl' Hd2 (fruns_system _ _ _ _ Hr')) as (t3 & Hd3 & _ & _). split.
  - pose proof (late_events_bounded _ _ _ _ _ _ _ Hr' Hd2 Hl') as Hb. rewrite Hdl2, Hdl1 in Hb. specialize (Hb Hlate).
    unfold task_work at 2 in Hw2. rewrite (work_spawned _ Hsp), (dr_length _ _ _ _ Hd1) in Hw2. lia.
  - exists t3. split; [apply Hd3|]. destruct (sd_returned t3) eqn:Hret; [by left|right]. intros time Htime.
    destruct (fleet_progress f3 _ _ _ time Hf3 Hd3 Hret) as (e' & l'' & f4 & Hstep & Hev & Hat).
    exists e', l'', f4. split_and!; [done..|]. destruct e'; simpl in *; try done;
      apply bool_decide_eq_true in Hat as [_ ->]; apply orb_true_iff; right; by apply Z.leb_le.
Qed.

End fleet.

(** ** A sample run *)

Section sample.
#[local] Existing Instance demo_codec.
#[local] Instance demo_fleet_codec_laws : CodecLaws nat (pod_value (λ t, t)) := PodCodec_laws _ _.

Local Abbreviation Act := (Action (Handler := unit) (Drain := nat)).
Local Abbreviation System := (ServerSystem (Ch := ListChannel) (Handler := unit) (Drain := nat)).
Local Abbreviation Connection := (ServerConnection (Ch := ListChannel) (T := TcpTransport) (TypeIndex := nat)).
Local Abbreviation runs := (fruns demo_registry listening_hooks sample_limits).
Local Abbreviation step := (fstep demo_registry listening_hooks sample_limits).

Definition fleet_after (l : list Act) : System := default new_system (exec_all l new_system).

(** A server that accepts one connection. *)
Definition fleet_opening : list Act :=
  [ACall (CallOnConnection tt); ARun; AAccept 0 Accepted [CallRegister 0%nat] HandlerReturns].

Definition fleet_opening_events : list FleetEvent :=
  [EvServer (ACall (CallOnConnection tt)); EvServer ARun; EvAccept 0] ++ replicate 4 (EvConnection 0).

(** The shutdown's only drain, and its receive: the connection's shutdown waits for its
    handler, to the deadline. *)
Definition fleet_draining : list Act := [ADrain 0 0; ADrain 0 0; ADrain 0 0; AReceived 0].

Definition fleet_closing_events : list FleetEvent :=
  [EvDrainPoll 0 0 false 105; EvDrainNext 0 0; EvServer (AReceived 0)].

(** The connection runs a handler. *)
Definition fleet_serving : Fleet (Ch := ListChannel) (TypeIndex := nat) := mkFleet (fleet_after fleet_opening) [server_called].

Lemma connection_step es l1 l2 y (c c' : Connection) f :
  sstep demo_registry listening_hooks c c' → countable_tasks c' → l1 = [] ++ l2 →
  runs es l2 (mkFleet y [c']) f → runs (EvConnection 0 :: es) l1 (mkFleet y [c]) f.
Proof.
  intros Hs Hc -> Hr. eapply fruns_step; [|exact Hr]. exact (fstep_connection _ _ _ 0 c c' y [c] eq_refl Hs Hc).
Qed.

Lemma fleet_serving_runs : runs fleet_opening_events fleet_opening new_fleet fleet_serving.
Proof.
  apply (fruns_step _ _ _ _ _ [ACall (CallOnConnection tt)] _ _ (mkFleet (fleet_after [ACall (CallOnConnection tt)]) [])).
  { by apply fstep_server. }
  apply (fruns_step _ _ _ _ _ [ARun] _ _ (mkFleet (fleet_after [ACall (CallOnConnection tt); ARun]) [])).
  { by apply fstep_server. }
  apply (fruns_step _ _ _ _ _ [AAccept 0 Accepted [CallRegister 0%nat] HandlerReturns] [] _
    (mkFleet (fleet_after fleet_opening) [new_server listening_hooks new_tcp_transport sample_limits])).
  { exact (fstep_accept demo_registry listening_hooks sample_limits 0 (fleet_after [ACall (CallOnConnection tt); ARun])
      (fleet_after fleet_opening) [] tt eq_refl eq_refl). }
  eapply connection_step; [apply (sstep_handle _ _ _ 2%nat 2%nat)|vm_compute; reflexivity|reflexivity|].
  eapply connection_step; [apply sstep_run|vm_compute; reflexivity|reflexivity|]. fold server_ready.
  eapply (connection_step _ _ _ _ _ server_spawned); [|vm_compute; reflexivity|reflexivity|].
  { unfold server_spawned. destruct (read_loop_resume _ _ server_ready) as [[pc c]|] eqn:Hr;
      [|vm_compute in Hr; discriminate]. by eapply sstep_read. }
  eapply (connection_step _ _ _ _ _ server_called); [|vm_compute; reflexivity|reflexivity|apply fruns_refl].
  apply sstep_handler_start; [vm_compute; reflexivity|reflexivity].
Qed.

(** The shutdown of the server, to time 105, and of the connection. *)
Definition fleet_stopping : Fleet (Ch := ListChannel) (TypeIndex := nat) :=
  mkFleet (fleet_after (fleet_opening ++ [AShutdown 100 5])) [server_called].

Definition connection_waiting : Connection := (ServerConnection.shutdown listening_hooks 101 101 4 server_called).2.
Definition connection_retired : Connection :=
  (ServerConnection.shutdown_resume listening_hooks false 105 105 connection_waiting).2.

Definition fleet_stopped : Fleet (Ch := ListChannel) (TypeIndex := nat) :=
  mkFleet (fleet_after (fleet_opening ++ AShutdown 100 5 :: fleet_draining)) [connection_retired].

Lemma fleet_stopping_step : step (EvServer (AShutdown 100 5)) [AShutdown 100 5] fleet_serving fleet_stopping.
Proof. apply fstep_server; vm_compute; reflexivity. Qed.

(** The connection's shutdown has been called and waits. *)
Definition fleet_waiting : Fleet (Ch := ListChannel) (TypeIndex := nat) :=
  mkFleet (fleet_after (fleet_opening ++ [AShutdown 100 5; ADrain 0 0])) [connection_waiting].

Lemma fleet_waiting_runs : runs [EvDrainCall 0 0 101 101] [ADrain 0 0] fleet_stopping fleet_waiting.
Proof.
  apply (fruns_step _ _ _ _ _ [ADrain 0 0] [] _ fleet_waiting); [|apply fruns_refl].
  apply (fstep_drain_call _ _ _ 0 0 0 105 server_called 101 101 ShutdownWaiting connection_waiting
    (fleet_after (fleet_opening ++ [AShutdown 100 5])) _ [server_called]); [|vm_compute; reflexivity..].
  eexists. split_and!; vm_compute; reflexivity.
Qed.

Lemma fleet_closing_runs : runs fleet_closing_events [ADrain 0 0; ADrain 0 0; AReceived 0] fleet_waiting fleet_stopped.
Proof.
  set (y l := fleet_after (fleet_opening ++ AShutdown 100 5 :: l)).
  apply (fruns_step _ _ _ _ _ [ADrain 0 0] _ _ (mkFleet (y [ADrain 0 0; ADrain 0 0]%nat) [connection_retired])).
  { apply (fstep_drain_poll _ _ _ 0 0 0 105 connection_waiting false 105 ShutdownDone connection_retired
      (y [ADrain 0 0]%nat) (y [ADrain 0 0; ADrain 0 0]%nat) [connection_waiting]); [|vm_compute; reflexivity..].
    eexists. split_and!; vm_compute; reflexivity. }
  apply (fruns_step _ _ _ _ _ [ADrain 0 0] _ _ (mkFleet (y [ADrain 0 0; ADrain 0 0; ADrain 0 0]%nat) [connection_retired])).
  { eapply (fstep_drain_send _ _ _ 0 0 (Some 0%nat) 105); [|vm_compute; reflexivity].
    eexists. split_and!; vm_compute; reflexivity. }
  apply (fruns_step _ _ _ _ _ [AReceived 0] [] _ fleet_stopped); [|apply fruns_refl].
  apply fstep_server; vm_compute; reflexivity.
Qed.

Lemma fruns_app {es1 l1 es2 l2} {f1 f2 f3 : Fleet (Ch := ListChannel) (TypeIndex := nat)} :
  runs es1 l1 f1 f2 → runs es2 l2 f2 f3 → runs (es1 ++ es2) (l1 ++ l2) f1 f3.
Proof.
  induction 1 as [|e es l1 l1' f1 f1' f2 Hs _ IH]; [done|]. intros Hr. rewrite <-(assoc_L (++)). simpl.
  eapply fruns_step; [exact Hs|by apply IH].
Qed.


(** The connection's shutdown waits for a handler that never ends; past the deadline three
    events of the server's shutdown lead to its return. *)
Lemma fleet_shutdown_returns_witness :
  runs fleet_closing_events [ADrain 0 0; ADrain 0 0; AReceived 0] fleet_waiting fleet_stopped ∧
  (length (List.filter (own_event 0) fleet_closing_events) ≤ 4)%nat ∧
  ∃ t, sys_shutdowns (fl_system fleet_waiting) !! 0%nat = Some t ∧ sd_returned t = false ∧
    ∃ e l f, step e l fleet_waiting f ∧ own_event 0 e = true ∧ at_time 105 e = true.
Proof.
  split; [exact fleet_closing_runs|]. split.
  - apply (fleet_shutdown_returns demo_registry listening_hooks sample_limits _ fleet_opening fleet_serving _ 100 5
      fleet_stopping _ [ADrain 0 0] fleet_waiting fleet_closing_events [ADrain 0 0; ADrain 0 0; AReceived 0] fleet_stopped
      sample_limits_wf fleet_serving_runs fleet_stopping_step fleet_waiting_runs); [repeat constructor| |repeat constructor].
    exact fleet_closing_runs.
  - destruct (fleet_shutdown_returns demo_registry listening_hooks sample_limits _ fleet_opening fleet_serving _ 100 5
      fleet_stopping _ [ADrain 0 0] fleet_waiting [] [] fleet_waiting
      sample_limits_wf fleet_serving_runs fleet_stopping_step fleet_waiting_runs) as (_ & t & Ht & Hor);
      [repeat constructor|apply fruns_refl|constructor|].
    assert (sd_returned <$> sys_shutdowns (fl_system fleet_waiting) !! 0%nat = Some false) as Hr by (vm_compute; reflexivity).
    simpl in Ht. exists t. assert (sd_returned t = false) as Hret.
    { assert (sys_shutdowns (fl_system fleet_waiting) !! 0%nat = Some t) as Ht' by exact Ht.
      rewrite Ht' in Hr. by injection Hr. }
    split; [exact Ht|]. split; [exact Hret|]. destruct Hor as [|Hor]; [congruence|].
    destruct (Hor 105) as (e & l & f & Hs & Hev & Hat & _); [done|]. by exists e, l, f.
Defined.

End sample.
